(* ===== verification/_CoqProject ===== *)
-Q . S2P
Prelude.v
Codec.v
Block.v
Store.v
Bloom.v
FlatFile.v
FlatFileFacts.v
Index.v
IndexFacts.v
Badger.v
BadgerFacts.v
BadgerEvict.v
BadgerSpec.v
Message.v
MessageFacts.v
Text.v
Net.v
Lan.v
IdPow.v
Crypto.v
CryptoFacts.v
MessageStore.v
Keystore.v
KeystoreFacts.v
Client.v
Bluetooth.v
BluetoothFacts.v
Relay.v
GeoIP.v
GeoRun.v
Sync.v
Exchange.v
Volumes.v
FanIn.v
RelayFacts.v
Peers.v
PeersFacts.v
PeersSync.v
Mobile.v
MobileFacts.v
Strconv.v
Webapp.v
Api.v
ApiMessages.v
ApiServe.v
ApiFacts.v
ApiAnswers.v
ApiRace.v
ApiKeys.v
ApiListing.v
ApiSend.v
ApiDemo.v
Delivery.v
EndToEnd.v
Startup.v
Lifecycle.v
