(* ===== verification/Prelude.v ===== *)
(** * Sneakernet: a verified model of the block stores, the client and the nodes

    Sneakernet moves fixed-size encrypted blocks between stores by whatever link is at
    hand.  A block is a 4096-byte payload named by its SHA-256, with a 4-byte stamp whose
    Argon2id hash gives its work factor; the work factor decides how long the block lives.
    A client finds the messages addressed to it by trying its keys on every block.

    ** Parts and files

    - [Prelude]: errors and the result monad, bytes, machine integers, big and little
      endian fields, buffers (slices, overwriting, layouts as lists of fields), byte order,
      sorting by a strict weak order (the class [GoSort] stands for sort.Slice).
    - [Codec]: base64 (encoding/base64) and hexadecimal with their round trips.
    - [Text]: UTF-8 decoding, TrimSpace and the searches of strings and bytes.
    - [Block] (blockstore/blockstore.go, pow.go): sizes, tags, references and page tokens,
      the lifetime curve in binary64 arithmetic, block ids, work factors and mining.
    - [Store] (the interface Store): the class [Store] of operations, and the class
      [StoreLaws] with the contract of a listing: an index ordered by creation time and id,
      cut into pages.  The paging loop of every caller is verified once against it.
    - [Bloom] (transport/relay/bloom.go): the filter bit by bit, and the filter of a store,
      proved against [StoreLaws].
    - [FlatFile], [FlatFileFacts] (blockstore/flatfile.go): the store in files, over a file
      system whose calls may fail; an instance of [Store] and [StoreLaws].
    - [Index], [IndexFacts] (blockstore/index.go): the index files and their shards.
    - [Badger], [BadgerFacts], [BadgerEvict], [BadgerSpec] (blockstore/badger.go): the store
      in an ordered key-value database: keys, values, transactions that may fail, eviction
      by tag, tombstones, the median.  [BadgerSpec] holds the abstract store (a map of blocks
      and a set of tombstones) that the operations refine.
    - [Message], [MessageFacts] (client/message_format.go): the plaintext of a message.
    - [Crypto], [CryptoFacts] (client/crypto.go): encryption and trial decryption.
    - [IdPow] (client/idpow.go): proof of work for identities.
    - [MessageStore] (client/store.go): the messages and the checkpoint, over a database
      given by one operation for each SQL statement of the file (class [MessageDB]) with
      what the statement means as laws ([MessageDBLaws]).
    - [Keystore], [KeystoreFacts] (client/keystore.go): identities, channels, contacts and
      their encrypted file.
    - [Client] (client/client.go): the scrape, a client of [Store] and [MessageDB].
    - [Bluetooth], [BluetoothFacts] (transport/bluetooth/session.go): frames, the two sides
      of a session, and the channel between them as a step relation.
    - [Net], [Strconv]: addresses, prefixes and the host and port of the net package, and the
      reading of integers; what the relay and the discovery use of them.
    - [Relay], [RelayFacts] (transport/relay/server.go, client.go): the handlers of the node
      protocol over any [Store], and the client over any transport; pull and push against a
      relay are proved by joining the two.
    - [Webapp] (transport/relay/webapp.go, server.go): the listing, lookup and submission of
      blocks for browsers, and the routes of a relay.
    - [GeoIP], [GeoRun] (transport/relay/geoip.go): regions, the cached database and its
      download; and the goroutine that replaces the reader while addresses are looked up.
    - [Lan] (transport/lan/lan.go): the local subnets and one scan of them.
    - [FanIn] (lan.go, Discover; cmd/snk/main.go, mergePeers): bounded channels that can be
      closed, and the goroutines of discovery that pass addresses on, as a step function.
    - [Sync] (cmd/snk/main.go, syncStores): copying one store into another, against the class
      [MergeTarget] of what the destination promises.
    - [Exchange]: the classes [Source] and [Exchange] of what any store must do for blocks to
      pass through it, which both backends discharge (the key-value store without a limit);
      against them a copy is exact.
    - [Volumes] (cmd/snk/main.go, usbSyncLoop, cmdMassStorage): the rounds over USB volumes and
      the mass-storage command with its exit codes.
    - [Peers], [PeersFacts], [PeersSync] (cmd/snk/main.go, peerTracker, parseBytes): the peers
      of a node with their backoff, the events of its loop, one synchronisation with a peer
      over the relay client, and the file of peers.
    - [Mobile], [MobileFacts] (mobile/peertracker.go, engine.go): the relays the mobile engine
      tracks, its rounds, Bluetooth sessions and the quota file.
    - [Api], [ApiMessages], [ApiServe] (client/api): the server with its lock, sessions and
      handlers, first keystore, identities, channels and contacts, then messages and peers,
      then the routes; the peers behind it are the class [PeerManager], of which the tracker
      of [Mobile] is an instance.  [ApiFacts] proves what every handler keeps, [ApiAnswers]
      which requests panic, which may still be running, and that all others are answered, [ApiRace] what
      overlapping requests do, [ApiKeys] what an acknowledged change of keys means,
      [ApiListing] the listing and its cache, [ApiSend] the sending of a message.  [ApiDemo]
      holds a concrete server at which these theorems are applied.
    - [Startup] (cmd/snk/main.go, main, cmdNode, cmdRelay): subcommands, flags, the
      configuration of the store and what a node and a relay consist of.
    - [Lifecycle] (mobile/engine.go): the mobile engine from its start to its end, with the
      goroutines that its calls start, step by step, and what they share: the context, the
      quota file, the listeners and the channel of discovered addresses.
    - [Delivery], [EndToEnd]: the parts joined.  [Delivery] follows a block over hops of every
      transport against [Exchange]; [EndToEnd] joins [ApiSend], [Delivery] and [Client].

    ** Conventions

    A Go function that returns an error is a function into [result]; one that can panic in
    a library call is a function into [option], with [None] for the panic (or, in the loops,
    for fuel that ran out).  Stateful code takes its state and returns the new one.  Clocks,
    random draws and the outcomes of system calls are arguments.  An [int64] or [uint32] is
    an integer with its wrap-around written out where the code converts.  Times are
    nanoseconds since the Unix epoch, [time_Unix] and [Unix] convert to seconds.  A byte
    array is a list with its length as a hypothesis ([is_ID], [is_Payload], ...).  The text
    of an error keeps the sentinel or the message without its formatted arguments.

    Parameters, each a class with its documented behaviour as laws and with a concrete
    instance at which the theorems are applied: SHA-256 and Argon2id ([Hashes]), math.Pow
    ([GoFloat]), sort.Slice ([GoSort]), the order of map iteration ([GoMapRange]), zlib, the
    badger database, Ed25519 ([Ed25519]), the curve, the hash and the cipher of the
    encryption ([Primitives]), JSON ([KeystoreJson] with [KeystoreJsonTyped], [JsonStrings],
    [RelayJson], [PeersJson], [EntriesJson]), the SQL database, the parsing of addresses
    ([UrlParse]), the reader of the region database ([Geoip2]), upper case beyond ASCII
    ([UnicodeUpper]), the formatting of times and errors ([GoTimeFormat], [GoErrorText]),
    filepath.Join ([FilepathJoin]).  [ReadsSucceed] and [WritesSucceed] say of a badger
    database that its calls fail only for a missing key.
    The instances are toys: they satisfy the laws and are no cryptography.  The laws of
    [Ed25519] and of the birational map speak of every key of 64 bytes; those of Go hold of
    the keys it generates, a seed followed by its public key.

    ** What the theorems show

    - Stores.  Put, Get, Has, Evict and the listings of both backends behave as a map of
      blocks with the better stamp winning; eviction takes what the policy says, and what it
      took stays out while its tombstone lives; a failed call, a write that stopped half-way
      included, leaves every file old, evicted or new; paging reaches every block once; filters have no false negatives; index
      files answer membership as the scan saw it.
    - Messages.  Encoding and encryption round trips, for keys and for channels, whatever is
      drawn; nothing is delivered with a sender whose signature does not verify; a scrape
      that reports no error has saved every message since the checkpoint, and the checkpoint
      does not move otherwise; saving twice changes nothing.
    - Keys.  The keystore stays well formed, survives its file, and exports identities.
    - The whole.  A message sent through the API is encrypted as the request says and stored
      under the id that is returned, or the answer and the state say what went wrong; a
      block travels over any number of pushes, pulls, sessions and volumes between stores that
      lacked it, each of which can be made when the other side answers ([can_push], ...); and
      the recipient's scrape at the end saves the message as it was sent.  The same for a
      post to a channel and every member of it.
    - Exchange.  A session delivers exactly what the peer lacks; frames survive the wire; who
      waits for whom.  A pull stores exactly what the local filter lacks and a push offers
      every block above both floors once, in the order of the index; a copy between stores merges; two rounds over the
      volumes make all of them and the node equal, each block at its best stamp, whatever the
      order of the directory; the command for volumes ends as its flags say, and the index it
      writes, in one file or in shards, finds the blocks that have not expired;
      what one relay shows a browser another accepts; browsing shows every block once.
    - Nodes.  Counts and backoff of every peer stay in range, healthy peers are visited in
      turn and failed ones return after their backoff; what one synchronisation and one
      mobile round do to store, peers and file; a scan finds the neighbours that answer; a
      download leaves the old database or a complete one; a lookup answers as the classifier
      of its moment unless a refresh overtakes it; discovery never uses a closed
      channel, keeps the order and loses at most the address in hand, and ends after
      cancellation in boundedly many steps; a node that is started knows what its scans found;
      Close, after whatever an engine was asked to do, lets all its goroutines return in any
      order, closes its listeners and settles the quota file.
    - The API.  Requests that do not overlap leave the lock free and are answered, but for
      those that mine on, and for an unlock or an import that panics on the very file or
      bundle that it is given; the valid tokens are those handed out since the last lock; an acknowledged change of keys
      is on the disk; a listing is complete, without duplicates and independent of the cache;
      what is sent is decrypted by its recipient to what was asked for, and every outcome of
      mining and storing has its answer and its state.
    - Limits that the proofs made visible: tokens of the flat-file store that restart the
      listing, the boundary second of the index, the median with a small limit, the migration
      that drops contacts, bundles that panic, sessions that do not end, reply references at
      linear distance, the backoff after many failures, pushes that were refused, sizes that
      wrap around, a relay that starves the others, the lock that a panic leaves held, the
      tickers that panic at an interval of zero, the reader that is closed while a lookup
      uses it, the limit of zero that sets none, and the block store that stays open when the
      message store cannot be closed.  Where documents and code disagree the theorems follow
      the code: tombstones that live twice the lifetime of a work factor from the eviction,
      volumes that no floor applies to, a floor for acceptance that does not rise, blocks
      that stay readable when their lifetime is over, messages that are not split.

    ** Fuel

    Loops over pages take one unit for each page; one more than the number of indexed blocks
    is enough, because every page but the last is not empty.  The receiver of a session takes
    one for each frame, each of at least five bytes.  The binary search takes one for each
    halving.  Loops that end only by chance (mining) run over a list of rounds, [None] while
    they are still running.

    ** Not modelled

    The parsing of flags and the texts printed, listening on sockets and serving HTTP,
    headers (CORS among them), logging, time-outs of connections, and what opening and closing
    a database does inside it: they belong to packages that are not here.  A key-value store
    with a limit is no target of [Exchange], because it may evict what it has just taken; what
    it does is the subject of [BadgerSpec].  What a start-up and the engine do with servers is
    recorded as the servers they hold.  The user interfaces and the Android application are
    not Go.

    Concurrency is modelled where the code joins goroutines by a channel ([Bluetooth],
    [FanIn]), where a reader is replaced while it is in use ([GeoRun]), where the mobile
    engine starts and ends them ([Lifecycle]), and where a lock is taken more than once on behalf of one request ([ApiServe]: the check of a
    token and the handler are separate steps, and anything can happen in between; a handler
    itself is one step).  Elsewhere operations are atomic, the goroutines that a
    synchronisation starts are collected and run later in any order, and the sender of a
    session reads a snapshot of the store. *)
From Stdlib Require Export ZArith Lia.
From Stdlib Require Export Init.Byte.
From Stdlib Require Import Ascii String.
From Stdlib Require Strings.Byte.
From stdpp Require Export base tactics option list sorting gmap.
Open Scope Z_scope.

(** ** Errors and the result monad *)

(** The errors the program distinguishes: the exported sentinels of the
    packages, the sentinels of the libraries that the code compares against,
    text errors and wrapped errors ([fmt.Errorf] with [%w]). *)
Inductive error : Type :=
  | ErrNotFound
  | ErrNotV3
  | ErrMalformed
  | ErrContentTooLarge
  | ErrNotOurMessage
  | ErrNotExist
  | ErrKeyNotFound
  | ErrEOF
  | ErrCanceled
  | ErrText (msg : string)
  | ErrWrap (msg : string) (e : error).

#[export] Instance error_eq_dec : EqDecision error.
Proof. intros e1 e2. unfold Decision. decide equality; apply string_dec. Defined.

(** [errors.Is]: the error itself or anything it wraps. *)
Fixpoint errors_Is (e target : error) : bool :=
  bool_decide (e = target) ||
  match e with ErrWrap _ e' => errors_Is e' target | _ => false end.

Inductive result (A : Type) : Type :=
  | Ok (a : A)
  | Err (e : error).
Arguments Ok {A} a.
Arguments Err {A} e.

#[export] Instance result_ret : MRet result := fun A a => Ok a.
#[export] Instance result_bind : MBind result := fun A B f r =>
  match r with Ok a => f a | Err e => Err e end.
#[export] Instance result_fmap : FMap result := fun A B f r =>
  match r with Ok a => Ok (f a) | Err e => Err e end.

#[export] Instance Ok_Inj {A} : Inj (=) (=) (@Ok A).
Proof. by intros x y [= ->]. Qed.

Definition is_ok {A} (r : result A) : bool :=
  match r with Ok _ => true | Err _ => false end.

Lemma bind_Ok {A B} (r : result A) (f : A -> result B) b :
  r ≫= f = Ok b <-> exists a, r = Ok a /\ f a = Ok b.
Proof. destruct r; cbn; naive_solver. Qed.

(** Case analysis on the scrutinee of the outermost match. *)
Ltac case_scrut :=
  match goal with
  | |- context [match ?x with _ => _ end] => destruct x eqn:?
  end.
Ltac case_scrut_in H :=
  match type of H with
  | context [match ?x with _ => _ end] => destruct x eqn:?
  end.

(** ** Bytes and byte strings *)

Abbreviation bytes := (list byte).

#[export] Instance byte_eq_dec : EqDecision byte := Strings.Byte.byte_eq_dec.
#[export] Instance byte_countable : Countable byte.
Proof. apply (inj_countable Strings.Byte.to_N Strings.Byte.of_N), Strings.Byte.of_to_N. Defined.
#[export] Instance byte_inhabited : Inhabited byte := populate x00.

(** The bytes of a Go string literal. *)
Definition bs (s : string) : bytes := list_byte_of_string s.

Definition u8 (b : byte) : Z := Z.of_N (Strings.Byte.to_N b).

(** [byte(z)]: truncation to eight bits. *)
Definition byte_of_Z (z : Z) : byte :=
  match Strings.Byte.of_N (Z.to_N (z mod 256)) with Some b => b | None => x00 end.

Lemma u8_range b : 0 <= u8 b < 256.
Proof.
  unfold u8. pose proof (Strings.Byte.to_N_bounded b). lia.
Qed.

Lemma u8_byte_of_Z z : u8 (byte_of_Z z) = z mod 256.
Proof.
  unfold u8, byte_of_Z.
  pose proof (Z.mod_pos_bound z 256 ltac:(lia)) as Hz.
  destruct (Strings.Byte.of_N (Z.to_N (z mod 256))) as [b|] eqn:E.
  - apply Strings.Byte.to_of_N in E. rewrite E. lia.
  - apply Strings.Byte.of_N_None_iff in E. lia.
Qed.

Lemma byte_of_Z_u8 b : byte_of_Z (u8 b) = b.
Proof.
  unfold byte_of_Z. rewrite Z.mod_small by apply u8_range.
  unfold u8. rewrite N2Z.id, Strings.Byte.of_to_N. done.
Qed.

Lemma u8_inj a b : u8 a = u8 b -> a = b.
Proof. intros H. by rewrite <- (byte_of_Z_u8 a), H, byte_of_Z_u8. Qed.

#[export] Instance u8_Inj : Inj (=) (=) u8 := u8_inj.

(** ** Fixed-width integers *)

Definition to_u32 (z : Z) : Z := z mod 2 ^ 32.
Definition to_u64 (z : Z) : Z := z mod 2 ^ 64.

(** [int64(x)] of an unsigned or out-of-range value: two's complement. *)
Definition to_s64 (z : Z) : Z :=
  let m := z mod 2 ^ 64 in if m <? 2 ^ 63 then m else m - 2 ^ 64.

Definition in_s64 (z : Z) : Prop := - 2 ^ 63 <= z < 2 ^ 63.

Lemma to_s64_id z : in_s64 z -> to_s64 z = z.
Proof.
  unfold in_s64, to_s64. intros H.
  destruct (decide (0 <= z)).
  - rewrite Z.mod_small by lia. case_match; lia.
  - rewrite <- (Z.mod_add z 1) by lia. rewrite Z.mod_small by lia.
    case_match; lia.
Qed.

Lemma to_s64_mod z : to_s64 (z mod 2 ^ 64) = to_s64 z.
Proof. unfold to_s64. by rewrite Z.mod_mod by lia. Qed.

Lemma to_s64_range z : in_s64 (to_s64 z).
Proof.
  unfold in_s64, to_s64. pose proof (Z.mod_pos_bound z (2 ^ 64) ltac:(lia)).
  case_match; lia.
Qed.

(** ** Big- and little-endian integers ([encoding/binary]) *)

Fixpoint be_encode (n : nat) (z : Z) : bytes :=
  match n with
  | O => []
  | S n' => byte_of_Z (z / 256 ^ Z.of_nat n') :: be_encode n' z
  end.

Fixpoint be_decode (l : bytes) : Z :=
  match l with
  | [] => 0
  | b :: l' => u8 b * 256 ^ Z.of_nat (length l') + be_decode l'
  end.

Definition le_encode (n : nat) (z : Z) : bytes := reverse (be_encode n z).
Definition le_decode (l : bytes) : Z := be_decode (reverse l).

Lemma length_be_encode n z : length (be_encode n z) = n.
Proof. induction n; cbn; congruence. Qed.

Lemma length_le_encode n z : length (le_encode n z) = n.
Proof. unfold le_encode. by rewrite length_reverse, length_be_encode. Qed.

Lemma be_decode_range l : 0 <= be_decode l < 256 ^ Z.of_nat (length l).
Proof.
  induction l as [|b l IH]; cbn [be_decode length]; [lia|].
  pose proof (u8_range b). rewrite Nat2Z.inj_succ, Z.pow_succ_r by lia. nia.
Qed.

Lemma be_decode_encode n z : be_decode (be_encode n z) = z mod 256 ^ Z.of_nat n.
Proof.
  induction n as [|n IH]; cbn [be_decode be_encode].
  - by rewrite Z.mod_1_r.
  - rewrite IH, u8_byte_of_Z, length_be_encode, Nat2Z.inj_succ, Z.pow_succ_r by lia.
    set (p := 256 ^ Z.of_nat n). assert (0 < p) by (unfold p; lia).
    rewrite (Z.mul_comm 256 p), Z.rem_mul_r by lia. lia.
Qed.

Lemma be_decode_inj l1 l2 :
  length l1 = length l2 -> be_decode l1 = be_decode l2 -> l1 = l2.
Proof.
  revert l2. induction l1 as [|a l1 IH]; intros [|b l2] Hlen; cbn in *; try lia; [done|].
  injection Hlen as Hlen. rewrite Hlen. intros H.
  pose proof (be_decode_range l1) as H1. pose proof (be_decode_range l2) as H2.
  rewrite Hlen in H1.
  assert (u8 a = u8 b) as Hab by nia.
  rewrite (u8_inj _ _ Hab) in *. f_equal. apply IH; [done|lia].
Qed.

Lemma be_encode_decode l : be_encode (length l) (be_decode l) = l.
Proof.
  apply be_decode_inj; [apply length_be_encode|].
  rewrite be_decode_encode. apply Z.mod_small, be_decode_range.
Qed.

Lemma le_decode_encode n z : le_decode (le_encode n z) = z mod 256 ^ Z.of_nat n.
Proof. unfold le_decode, le_encode. by rewrite reverse_involutive, be_decode_encode. Qed.

Lemma le_decode_range l : 0 <= le_decode l < 256 ^ Z.of_nat (length l).
Proof. unfold le_decode. rewrite <- (length_reverse l). apply be_decode_range. Qed.

Lemma le_encode_decode l : le_encode (length l) (le_decode l) = l.
Proof.
  unfold le_encode, le_decode. rewrite <- (length_reverse l), be_encode_decode.
  apply reverse_involutive.
Qed.

(** A 64-bit field read back as a signed integer is the signed integer written. *)
Lemma be_s64_roundtrip z : in_s64 z -> to_s64 (be_decode (be_encode 8 z)) = z.
Proof.
  intros H. rewrite be_decode_encode. change (256 ^ Z.of_nat 8) with (2 ^ 64).
  rewrite to_s64_mod. by apply to_s64_id.
Qed.

Lemma le_s64_roundtrip z : in_s64 z -> to_s64 (le_decode (le_encode 8 z)) = z.
Proof.
  intros H. rewrite le_decode_encode. change (256 ^ Z.of_nat 8) with (2 ^ 64).
  rewrite to_s64_mod. by apply to_s64_id.
Qed.

Lemma be_u32_roundtrip z : 0 <= z < 2 ^ 32 -> be_decode (be_encode 4 z) = z.
Proof.
  intros H. rewrite be_decode_encode. change (256 ^ Z.of_nat 4) with (2 ^ 32).
  by apply Z.mod_small.
Qed.

(** ** Slices and writes into fixed-size buffers *)

(** [l[i:i+n]] where the slice is in range. *)
Definition slice (i n : nat) {A} (l : list A) : list A := take n (drop i l).

(** [copy(buf[i:], src)]: as many elements as fit are overwritten. *)
Definition copy_at (i : nat) {A} (src buf : list A) : list A :=
  take i buf ++ take (length buf - i) src ++ drop (i + length src) buf.

Section Buffers.
Context {A : Type}.
  Implicit Types l buf src : list A.

Lemma length_slice i n l : length (slice i n l) = (n `min` (length l - i))%nat.
Proof. unfold slice. by rewrite length_take, length_drop. Qed.

Lemma length_copy_at i src buf :
  (i <= length buf)%nat -> length (copy_at i src buf) = length buf.
Proof.
  intros H. unfold copy_at. rewrite !length_app, !length_take, length_drop. lia.
Qed.

Lemma slice_app_l i n l1 l2 :
  (i + n <= length l1)%nat -> slice i n (l1 ++ l2) = slice i n l1.
Proof.
  intros H. unfold slice. rewrite drop_app, take_app.
  replace (n - length (drop i l1))%nat with 0%nat by (rewrite length_drop; lia).
  by rewrite take_0, app_nil_r.
Qed.

Lemma slice_app_r i n l1 l2 :
  (length l1 <= i)%nat -> slice i n (l1 ++ l2) = slice (i - length l1) n l2.
Proof. intros H. unfold slice. by rewrite drop_app_ge. Qed.

Lemma slice_all n l : length l = n -> slice 0 n l = l.
Proof. intros <-. unfold slice. by rewrite drop_0, take_ge. Qed.

(** The middle part of a concatenation. *)
Lemma slice_mid i n l1 l2 l3 :
  i = length l1 -> n = length l2 -> slice i n (l1 ++ l2 ++ l3) = l2.
Proof.
  intros -> ->. unfold slice. by rewrite drop_app_length, take_app_length.
Qed.

(** Overwriting the middle part with as many elements. *)
Lemma copy_at_mid i src l1 l2 l3 :
  i = length l1 -> length src = length l2 -> copy_at i src (l1 ++ l2 ++ l3) = l1 ++ src ++ l3.
Proof.
  intros -> Hl. unfold copy_at. rewrite !length_app, take_app_length. f_equal.
  rewrite (take_ge src) by lia. f_equal. rewrite drop_app_ge by lia. rewrite drop_app_ge by lia.
  by replace (length l1 + length src - length l1 - length l2)%nat with 0%nat by lia.
Qed.

(** Overwriting everything. *)
Lemma copy_at_whole src buf : length src = length buf -> copy_at 0 src buf = src.
Proof.
  intros Hl. unfold copy_at. rewrite take_0, Nat.sub_0_r, <- Hl, firstn_all. cbn [app].
  by rewrite drop_ge, app_nil_r by lia.
Qed.

(** Reading back exactly what was written. *)
Lemma slice_copy_at_eq i n src buf :
  length src = n -> (i + n <= length buf)%nat -> slice i n (copy_at i src buf) = src.
Proof.
  intros Hs Hb. unfold copy_at.
  rewrite slice_app_r by (rewrite length_take; lia).
  rewrite length_take, Nat.min_l, Nat.sub_diag by lia.
  rewrite slice_app_l by (rewrite length_take; lia).
  rewrite take_ge by lia. by apply slice_all.
Qed.

(** Reading what lies before or after the written range. *)
Lemma slice_copy_at_before i n j src buf :
  (i + n <= j)%nat -> (j <= length buf)%nat ->
  slice i n (copy_at j src buf) = slice i n buf.
Proof.
  intros H Hb. unfold copy_at.
  rewrite slice_app_l by (rewrite length_take; lia).
  unfold slice. rewrite skipn_firstn_comm.
  rewrite take_take. f_equal. lia.
Qed.

Lemma slice_copy_at_after i n j src buf :
  (j + length src <= i)%nat -> (j + length src <= length buf)%nat ->
  slice i n (copy_at j src buf) = slice i n buf.
Proof.
  intros H Hb. unfold copy_at.
  rewrite slice_app_r by (rewrite length_take; lia).
  rewrite slice_app_r by (rewrite !length_take; lia).
  unfold slice. rewrite drop_drop. repeat f_equal. rewrite !length_take. lia.
Qed.

Lemma slice_take i n m l : (i + n <= m)%nat -> slice i n (take m l) = slice i n l.
Proof. intros H. unfold slice. rewrite skipn_firstn_comm, take_take. f_equal. lia. Qed.

(** Two adjacent slices make up the larger one. *)
Lemma slice_split i n m l : slice i n l ++ slice (i + n) m l = slice i (n + m) l.
Proof. unfold slice. by rewrite <- drop_drop, <- take_take_drop. Qed.
End Buffers.

Arguments slice : simpl never.
Arguments copy_at : simpl never.

(** Lengths: the rewrite database [len] and the tactic that closes the side
    conditions of the buffer lemmas. *)
Create Rewrite HintDb len.
#[export] Hint Rewrite @length_app @length_take @length_drop @length_replicate
  @length_reverse @length_fmap @length_slice length_be_encode length_le_encode : len.
#[export] Hint Rewrite @length_copy_at using (autorewrite with len; cbn; lia) : len.

Ltac len := autorewrite with len in *; cbn [length] in *; lia.

(** Reads a field out of a buffer written by a chain of [copy_at]s. *)
Ltac read_field :=
  repeat first
    [ rewrite slice_copy_at_eq by len
    | rewrite slice_copy_at_before by len
    | rewrite slice_copy_at_after by len ].

(** ** Buffers as a list of fields

    A fixed layout is a list of field lengths; writing or reading at the offset of a
    field writes or reads that element of the list of fields. *)

Definition fields (lens : list nat) (l : list bytes) : Prop := length <$> l = lens.

Lemma length_concat_take k (l : list bytes) : length (concat (take k l)) = sum_list (take k (length <$> l)).
Proof.
  revert k. induction l as [|c l IH]; intros [|k]; cbn; try done. by rewrite length_app, IH.
Qed.

Lemma concat_field (l : list bytes) k c :
  l !! k = Some c -> concat l = concat (take k l) ++ c ++ concat (drop (S k) l).
Proof.
  intros Hk. rewrite <- (take_drop_middle l k c Hk) at 1. by rewrite concat_app.
Qed.

Lemma slice_field k i n lens l c :
  fields lens l -> l !! k = Some c -> i = sum_list (take k lens) -> n = length c ->
  slice i n (concat l) = c.
Proof.
  intros <- Hk -> ->. rewrite (concat_field l k c Hk). apply slice_mid; [|done].
  by rewrite length_concat_take.
Qed.

Lemma copy_field k i src lens l :
  fields lens l -> lens !! k = Some (length src) -> i = sum_list (take k lens) ->
  copy_at i src (concat l) = concat (<[k := src]> l) /\ fields lens (<[k := src]> l).
Proof.
  intros <- Hk ->. rewrite list_lookup_fmap in Hk. destruct (l !! k) as [c|] eqn:Ec; [|done].
  injection Hk as Hc. assert (k < length l)%nat as Hlt by by eapply lookup_lt_Some.
  split.
  - rewrite (concat_field l k c Ec), copy_at_mid by (by rewrite ?length_concat_take).
    rewrite (concat_field (<[k := src]> l) k src) by by rewrite list_lookup_insert_eq.
    by rewrite take_insert_ge, drop_insert_lt by lia.
  - unfold fields. rewrite list_fmap_insert. apply list_insert_id.
    by rewrite list_lookup_fmap, Ec, <- Hc.
Qed.

Lemma concat_zeros lens : concat ((fun n => replicate n x00) <$> lens) = replicate (sum_list lens) x00.
Proof. induction lens as [|n lens IH]; cbn; [done|]. by rewrite IH, replicate_add. Qed.

Lemma fields_zeros lens : fields lens ((fun n => replicate n x00) <$> lens).
Proof.
  unfold fields. rewrite <- list_fmap_compose. rewrite <- (list_fmap_id lens) at 2.
  apply list_fmap_ext. intros i n _. apply length_replicate.
Qed.

(** ** Sorted lists *)

Lemma StronglySorted_NoDup {A} (R : A -> A -> Prop) (l : list A) :
  (forall x, ~ R x x) -> StronglySorted R l -> NoDup l.
Proof.
  intros Hirr. induction 1 as [|x l Hs IH Hx]; constructor; [|done].
  intros Hin. rewrite Forall_forall in Hx. by apply (Hirr x), Hx.
Qed.

(** ** Filtering *)

Section Filter.
Context {A : Type} (P : A -> Prop) `{!forall x, Decision (P x)}.
  Implicit Types l : list A.

Lemma filter_Forall_id l : Forall P l -> filter P l = l.
Proof. induction 1; [done|]. rewrite filter_cons_True by done. by f_equal. Qed.

Lemma filter_Forall_nil l : Forall (fun x => ~ P x) l -> filter P l = [].
Proof. induction 1; [done|]. by rewrite filter_cons_False. Qed.

Lemma filter_StronglySorted (R : relation A) l :
  StronglySorted R l -> StronglySorted R (filter P l).
Proof.
  induction 1 as [|x l Hl IH Hx]; [constructor|].
  rewrite filter_cons. case_decide; [|done]. constructor; [done|].
  rewrite Forall_forall in Hx |- *. intros y [_ Hy]%list_elem_of_filter. auto.
Qed.

Lemma filter_filter (Q : A -> Prop) `{!forall x, Decision (Q x)} l :
  filter P (filter Q l) = filter (fun x => P x /\ Q x) l.
Proof.
  induction l as [|x l IH]; [done|].
  rewrite (filter_cons Q). case_decide.
  - rewrite (filter_cons P), (filter_cons (fun x => P x /\ Q x)), IH.
    repeat case_decide; naive_solver.
  - rewrite (filter_cons_False (fun x => P x /\ Q x)) by naive_solver. done.
Qed.

Lemma filter_ext (Q : A -> Prop) `{!forall x, Decision (Q x)} l :
  (forall x, x ∈ l -> P x <-> Q x) -> filter P l = filter Q l.
Proof.
  intros HPQ. induction l as [|x l IH]; [done|].
  rewrite (filter_cons P), (filter_cons Q), IH by set_solver.
  pose proof (HPQ x ltac:(set_solver)). repeat case_decide; tauto.
Qed.
End Filter.

Lemma length_omap_le {A B} (f : A -> option B) (l : list A) : (length (omap f l) <= length l)%nat.
Proof. induction l as [|x l IH]; cbn; [done|]. destruct (f x); cbn; lia. Qed.

(** Keys computed from the results of a partial map are distinct when equal keys come
    from equal arguments. *)
Lemma NoDup_fmap_omap {A B C} (f : A -> option B) (g : B -> C) (l : list A) :
  NoDup l ->
  (forall x y a b, x ∈ l -> y ∈ l -> f x = Some a -> f y = Some b -> g a = g b -> x = y) ->
  NoDup (g <$> omap f l).
Proof.
  induction 1 as [|x l Hx Hl IH]; intros Hinj; [constructor|].
  assert (NoDup (g <$> omap f l)) as IH' by (apply IH; intros; eapply Hinj; eauto; set_solver).
  cbn. destruct (f x) as [a|] eqn:Ex; [|done]. rewrite fmap_cons. apply NoDup_cons. split; [|done].
  intros (b & Hab & (y & Hy & Hb)%list_elem_of_omap)%list_elem_of_fmap. apply Hx.
  rewrite (Hinj x y a b); set_solver.
Qed.

(** ** Lexicographic order of byte strings ([bytes.Compare]) *)

Fixpoint bytes_compare (a b : bytes) : comparison :=
  match a, b with
  | [], [] => Eq
  | [], _ :: _ => Lt
  | _ :: _, [] => Gt
  | x :: a', y :: b' =>
      match u8 x ?= u8 y with Eq => bytes_compare a' b' | c => c end
  end.

Definition bytes_ltb (a b : bytes) : bool :=
  match bytes_compare a b with Lt => true | _ => false end.

Lemma bytes_compare_refl a : bytes_compare a a = Eq.
Proof. induction a; cbn; [done|]. by rewrite Z.compare_refl. Qed.

Lemma bytes_compare_eq a b : bytes_compare a b = Eq <-> a = b.
Proof.
  split; [|intros ->; apply bytes_compare_refl].
  revert b. induction a as [|x a IH]; intros [|y b]; cbn; try done.
  destruct (Z.compare_spec (u8 x) (u8 y)) as [E| |]; try done.
  intros H. by rewrite (u8_inj _ _ E), (IH _ H).
Qed.

Lemma bytes_compare_antisym a b : bytes_compare b a = CompOpp (bytes_compare a b).
Proof.
  revert b. induction a as [|x a IH]; intros [|y b]; cbn; try done.
  rewrite (Z.compare_antisym (u8 x)). destruct (u8 x ?= u8 y); cbn; auto.
Qed.

Lemma bytes_ltb_trans a b c :
  bytes_ltb a b = true -> bytes_ltb b c = true -> bytes_ltb a c = true.
Proof.
  unfold bytes_ltb. revert b c.
  induction a as [|x a IH]; intros [|y b] [|z c]; cbn; try done.
  destruct (Z.compare_spec (u8 x) (u8 y)), (Z.compare_spec (u8 y) (u8 z)),
    (Z.compare_spec (u8 x) (u8 z)); try done; try lia. apply IH.
Qed.

Lemma bytes_ltb_irrefl a : bytes_ltb a a = false.
Proof. unfold bytes_ltb. by rewrite bytes_compare_refl. Qed.

Lemma bytes_ltb_total a b :
  bytes_ltb a b = false -> bytes_ltb b a = false -> a = b.
Proof.
  unfold bytes_ltb. rewrite (bytes_compare_antisym a b).
  intros. apply bytes_compare_eq. by destruct (bytes_compare a b).
Qed.

Lemma bytes_ltb_asym a b : bytes_ltb a b = true -> bytes_ltb b a = false.
Proof.
  intros H. destruct (bytes_ltb b a) eqn:E; [|done].
  by rewrite <- (bytes_ltb_irrefl a), (bytes_ltb_trans _ _ _ H E).
Qed.

Lemma bytes_ltb_app p a b : bytes_ltb (p ++ a) (p ++ b) = bytes_ltb a b.
Proof.
  unfold bytes_ltb. induction p as [|x p IH]; cbn; [done|].
  by rewrite Z.compare_refl.
Qed.

#[export] Instance bytes_ltb_AntiSymm : AntiSymm (=) (fun x y : bytes => bytes_ltb x y = true).
Proof. intros x y Hx Hy. by rewrite (bytes_ltb_asym _ _ Hx) in Hy. Qed.

(** On strings of one length the order is the order of the integers they denote. *)
Lemma bytes_ltb_be_decode a b :
  length a = length b -> bytes_ltb a b = (be_decode a <? be_decode b).
Proof.
  unfold bytes_ltb. revert b.
  induction a as [|x a IH]; intros [|y b] Hlen; cbn in *; try lia.
  injection Hlen as Hlen. specialize (IH b Hlen). rewrite Hlen.
  pose proof (be_decode_range a) as Ha. pose proof (be_decode_range b) as Hb.
  rewrite Hlen in Ha.
  destruct (Z.compare_spec (u8 x) (u8 y)) as [E|E|E].
  - rewrite IH, E. apply eq_true_iff_eq. rewrite !Z.ltb_lt. lia.
  - symmetry. apply Z.ltb_lt. nia.
  - symmetry. apply Z.ltb_ge. nia.
Qed.

(** ** [sort.Slice]

    The library sorts with an algorithm that is not stable; what the program
    relies on is that the result is a permutation of the input and ordered by
    the comparison, when the comparison is a strict weak order. *)

Class StrictWeak {A} (less : A -> A -> bool) : Prop := {
  sw_irrefl x : less x x = false;
  sw_trans x y z : less x y = true -> less y z = true -> less x z = true;
  sw_negtrans x y z : less x y = false -> less y z = false -> less x z = false;
}.

Class GoSort := {
  sort_Slice {A} : (A -> A -> bool) -> list A -> list A;
  sort_Slice_Permutation {A} (less : A -> A -> bool) l : sort_Slice less l ≡ₚ l;
  sort_Slice_sorted {A} (less : A -> A -> bool) l : StrictWeak less ->
    StronglySorted (fun x y => less y x = false) (sort_Slice less l);
}.

Section MergeSort.
Context {A : Type} (less : A -> A -> bool).

Definition not_above (x y : A) : Prop := less y x = false.

#[local] Instance not_above_dec : RelDecision not_above.
Proof. intros x y. unfold not_above. apply _. Defined.

Definition merge_sort_less (l : list A) : list A := merge_sort not_above l.

Lemma merge_sort_less_Permutation l : merge_sort_less l ≡ₚ l.
Proof. apply merge_sort_Permutation. Qed.

Lemma merge_sort_less_sorted l :
  StrictWeak less -> StronglySorted not_above (merge_sort_less l).
Proof.
  intros Hsw. apply StronglySorted_merge_sort.
  - intros x y z Hxy Hyz. unfold not_above in *. eapply sw_negtrans; eauto.
  - intros x y. unfold not_above.
    destruct (less y x) eqn:E1, (less x y) eqn:E2; auto.
    pose proof (sw_trans _ _ _ E1 E2) as E. by rewrite sw_irrefl in E.
Qed.
End MergeSort.

(** The reference sort: the interface holds of merge sort. *)
#[export] Instance merge_GoSort : GoSort | 100 := {
  sort_Slice := @merge_sort_less;
  sort_Slice_Permutation := @merge_sort_less_Permutation;
  sort_Slice_sorted := @merge_sort_less_sorted;
}.

(** Comparison by an integer key. *)
#[export] Instance key_StrictWeak {A} (f : A -> Z) :
  StrictWeak (fun x y => f x <? f y).
Proof. split; intros; rewrite ?Z.ltb_lt, ?Z.ltb_ge in *; lia. Qed.

(** Comparison by a byte-string key. *)
#[export] Instance bytes_StrictWeak {A} (f : A -> bytes) :
  StrictWeak (fun x y => bytes_ltb (f x) (f y)).
Proof.
  split.
  - intros. apply bytes_ltb_irrefl.
  - intros x y z. apply bytes_ltb_trans.
  - intros x y z Hxy Hyz. destruct (bytes_ltb (f x) (f z)) eqn:E; [|done].
    destruct (bytes_ltb (f y) (f x)) eqn:E'.
    + by rewrite (bytes_ltb_trans _ _ _ E' E) in Hyz.
    + rewrite (bytes_ltb_total _ _ Hxy E') in E. congruence.
Qed.

(** Comparison by an integer key and then a byte-string key. *)
Definition lex_ltb (x y : Z * bytes) : bool :=
  (x.1 <? y.1) || ((x.1 =? y.1) && bytes_ltb x.2 y.2).

Lemma lex_ltb_spec x y :
  lex_ltb x y = true <-> x.1 < y.1 \/ x.1 = y.1 /\ bytes_ltb x.2 y.2 = true.
Proof. unfold lex_ltb. rewrite orb_true_iff, andb_true_iff, Z.ltb_lt, Z.eqb_eq. done. Qed.

Lemma lex_ltb_trans x y z :
  lex_ltb x y = true -> lex_ltb y z = true -> lex_ltb x z = true.
Proof.
  rewrite !lex_ltb_spec. intros [H1|[H1 H1']] [H2|[H2 H2']]; try (left; lia).
  right. split; [lia|]. by eapply bytes_ltb_trans.
Qed.

Lemma lex_ltb_irrefl x : lex_ltb x x = false.
Proof.
  apply not_true_is_false. rewrite lex_ltb_spec, bytes_ltb_irrefl. intros [|[_ ?]]; [lia|done].
Qed.

Lemma lex_ltb_total x y : lex_ltb x y = false -> lex_ltb y x = false -> x = y.
Proof.
  intros H1 H2. apply not_true_iff_false in H1, H2. rewrite lex_ltb_spec in H1, H2.
  destruct x as [a x], y as [b y]; cbn in *.
  assert (a = b) as -> by lia. f_equal.
  apply bytes_ltb_total; apply not_true_iff_false; intros E; auto.
Qed.

#[export] Instance lex_StrictWeak {A} (f : A -> Z * bytes) :
  StrictWeak (fun x y => lex_ltb (f x) (f y)).
Proof.
  split.
  - intros. apply lex_ltb_irrefl.
  - intros x y z. apply lex_ltb_trans.
  - intros x y z Hxy Hyz. destruct (lex_ltb (f x) (f z)) eqn:E; [|done].
    destruct (lex_ltb (f y) (f x)) eqn:E'.
    + by rewrite (lex_ltb_trans _ _ _ E' E) in Hyz.
    + rewrite (lex_ltb_total _ _ Hxy E') in E. congruence.
Qed.

(** ** Sorting with distinct keys

    When no two elements have the same key, the sorted order is strict and a
    sorted list is determined by its elements, so sorting commutes with
    filtering whatever algorithm the library uses. *)

Section SortedKeys.
Context {A : Type} (key : A -> Z * bytes).
#[local] Abbreviation less := (fun x y => lex_ltb (key x) (key y)).
#[local] Abbreviation strict := (fun x y => lex_ltb (key x) (key y) = true).

#[local] Instance strict_AntiSymm : AntiSymm (=) strict.
Proof.
  intros x y Hxy Hyx. pose proof (lex_ltb_trans _ _ _ Hxy Hyx) as E.
  by rewrite lex_ltb_irrefl in E.
Qed.

Lemma sort_Slice_strict `{GoSort} l :
  NoDup (key <$> l) -> StronglySorted strict (sort_Slice less l).
Proof.
  intros Hnd. pose proof (sort_Slice_sorted less l _) as Hs.
  assert (NoDup (key <$> sort_Slice less l)) as Hnd'
    by (by rewrite sort_Slice_Permutation).
  clear Hnd. induction Hs as [|x l' Hl IH Hx]; [constructor|].
  rewrite fmap_cons in Hnd'. apply NoDup_cons in Hnd' as [Hnin Hnd'].
  constructor; [by apply IH|]. rewrite Forall_forall in Hx |- *. intros y Hy.
  specialize (Hx y Hy). cbn in Hx. destruct (lex_ltb (key x) (key y)) eqn:E; [done|].
  destruct Hnin. rewrite (lex_ltb_total _ _ E Hx). by apply list_elem_of_fmap_2.
Qed.

Lemma strict_unique l1 l2 :
  StronglySorted strict l1 -> StronglySorted strict l2 -> l1 ≡ₚ l2 -> l1 = l2.
Proof. apply StronglySorted_unique, _. Qed.

Lemma sort_Slice_filter `{GoSort} (P : A -> Prop) `{!forall x, Decision (P x)} l :
  NoDup (key <$> l) -> sort_Slice less (filter P l) = filter P (sort_Slice less l).
Proof.
  intros Hnd. apply strict_unique.
  - apply sort_Slice_strict. eapply sublist_NoDup; [apply Hnd|].
    apply fmap_sublist, sublist_filter.
  - by apply filter_StronglySorted, sort_Slice_strict.
  - by rewrite !sort_Slice_Permutation.
Qed.
End SortedKeys.

(** ** Iterating a map *)

(** A list in which a Go map can be gone through: every key once, in any order. *)
Definition iterates {A} (order : list bytes) (m : gmap bytes A) : Prop :=
  NoDup order /\ forall u, u ∈ order <-> is_Some (m !! u).

Lemma iterates_keys {A} (order : list bytes) (m m' : gmap bytes A) :
  (forall u, is_Some (m !! u) <-> is_Some (m' !! u)) -> iterates order m -> iterates order m'.
Proof. intros Hk [Hn Ho]. split; [done|]. intros u. by rewrite Ho. Qed.


Lemma iterates_length {A} (order : list bytes) (m : gmap bytes A) : iterates order m -> length order = size m.
Proof.
  intros [Hn Ho]. rewrite <- length_map_to_list, <- (length_fmap fst). apply Permutation_length, NoDup_Permutation.
  - done.
  - apply NoDup_fst_map_to_list.
  - intros u. rewrite Ho, list_elem_of_fmap. split.
    + intros [x Hx]. exists (u, x). split; [done|]. by apply elem_of_map_to_list.
    + intros ([v x] & -> & Hx%elem_of_map_to_list). by exists x.
Qed.


(** ** A serialisation for reference instances *)

(** Numbers as strings of bits, least significant first. *)
Fixpoint pos_bytes (p : positive) : bytes :=
  match p with
  | xH => []
  | xO p' => x00 :: pos_bytes p'
  | xI p' => x01 :: pos_bytes p'
  end.
Fixpoint bytes_pos (l : bytes) : positive :=
  match l with
  | [] => xH
  | b :: l' => if decide (b = x00) then xO (bytes_pos l') else xI (bytes_pos l')
  end.

Lemma bytes_pos_bytes p : bytes_pos (pos_bytes p) = p.
Proof. induction p as [p IH|p IH|]; cbn; by rewrite ?IH. Qed.

Definition ser {A} `{Countable A} (x : A) : bytes := pos_bytes (encode x).
Definition deser {A} `{Countable A} (b : bytes) : result A :=
  match decode (bytes_pos b) with Some x => Ok x | None => Err (ErrText "deser") end.

Lemma deser_ser {A} `{Countable A} (x : A) : deser (ser x) = Ok x.
Proof. unfold deser, ser. by rewrite bytes_pos_bytes, decode_encode. Qed.
