(* ===== verification/Codec.v ===== *)
(** The text encodings the program uses from its standard library:
    [encoding/base64] in the [RawURLEncoding] and [StdEncoding] variants and
    [encoding/hex], with their round trips. *)
From Stdlib Require Import Ascii String.
From S2P Require Import Prelude.

(** ** base64 *)

Record encoding := { enc_alphabet : bytes; enc_padded : bool }.

Definition b64_common : string :=
  "ABCDEFGHIJKLMNOPQRSTUVWXYZabcdefghijklmnopqrstuvwxyz0123456789".

Definition RawURLEncoding : encoding :=
  {| enc_alphabet := bs (b64_common ++ "-_"); enc_padded := false |}.
Definition StdEncoding : encoding :=
  {| enc_alphabet := bs (b64_common ++ "+/"); enc_padded := true |}.

Definition pad_char : byte := x3d.

Fixpoint index_of (c : byte) (l : bytes) : option nat :=
  match l with
  | [] => None
  | x :: l' => if decide (c = x) then Some O else S <$> index_of c l'
  end.

Section Base64.
Context (e : encoding).

Definition b64_char (v : Z) : byte := nth (Z.to_nat (v mod 64)) (enc_alphabet e) x00.
Definition b64_value (c : byte) : option Z := Z.of_nat <$> index_of c (enc_alphabet e).
Definition b64_pad (n : nat) : bytes := if enc_padded e then replicate n pad_char else [].

Fixpoint b64_encode (l : bytes) : bytes :=
  match l with
  | [] => []
  | [a] =>
      let v := u8 a * 65536 in
      [b64_char (v / 262144); b64_char (v / 4096)] ++ b64_pad 2
  | [a; b] =>
      let v := u8 a * 65536 + u8 b * 256 in
      [b64_char (v / 262144); b64_char (v / 4096); b64_char (v / 64)] ++ b64_pad 1
  | a :: b :: c :: l' =>
      let v := u8 a * 65536 + u8 b * 256 + u8 c in
      b64_char (v / 262144) :: b64_char (v / 4096) :: b64_char (v / 64) :: b64_char v
        :: b64_encode l'
  end.

Definition corrupt : error := ErrText "illegal base64 data".

(** One quantum of two, three or four symbols; spare bits of a short last
    quantum are ignored, as the non-strict decoder does. *)
Definition quantum2 (v1 v2 : Z) : bytes := [byte_of_Z ((v1 * 64 + v2) / 16)].
Definition quantum3 (v1 v2 v3 : Z) : bytes :=
  let v := v1 * 4096 + v2 * 64 + v3 in [byte_of_Z (v / 1024); byte_of_Z (v / 4)].
Definition quantum4 (v1 v2 v3 v4 : Z) : bytes :=
  let v := v1 * 262144 + v2 * 4096 + v3 * 64 + v4 in
  [byte_of_Z (v / 65536); byte_of_Z (v / 256); byte_of_Z v].

Fixpoint b64_decode_symbols (l : bytes) : result bytes :=
  match l with
  | [] => Ok []
  | c1 :: c2 :: c3 :: c4 :: l' =>
      match b64_value c1, b64_value c2, b64_value c3, b64_value c4 with
      | Some v1, Some v2, Some v3, Some v4 =>
          r ← b64_decode_symbols l'; Ok (quantum4 v1 v2 v3 v4 ++ r)
      | Some v1, Some v2, Some v3, None =>
          if enc_padded e && bool_decide (c4 = pad_char) && bool_decide (l' = [])
          then Ok (quantum3 v1 v2 v3) else Err corrupt
      | Some v1, Some v2, None, None =>
          if enc_padded e && bool_decide (c3 = pad_char) && bool_decide (c4 = pad_char)
             && bool_decide (l' = [])
          then Ok (quantum2 v1 v2) else Err corrupt
      | _, _, _, _ => Err corrupt
      end
  | [c1; c2; c3] =>
      match b64_value c1, b64_value c2, b64_value c3 with
      | Some v1, Some v2, Some v3 =>
          if enc_padded e then Err corrupt else Ok (quantum3 v1 v2 v3)
      | _, _, _ => Err corrupt
      end
  | [c1; c2] =>
      match b64_value c1, b64_value c2 with
      | Some v1, Some v2 => if enc_padded e then Err corrupt else Ok (quantum2 v1 v2)
      | _, _ => Err corrupt
      end
  | [_] => Err corrupt
  end.

Definition is_newline (c : byte) : bool := bool_decide (c = x0a) || bool_decide (c = x0d).

(** [DecodeString]: line breaks are skipped wherever they stand. *)
Definition b64_decode (l : bytes) : result bytes :=
  b64_decode_symbols (filter (fun c => is_newline c = false) l).

Definition symbol_ok (v : nat) : bool :=
  bool_decide (b64_value (b64_char (Z.of_nat v)) = Some (Z.of_nat v))
  && negb (is_newline (b64_char (Z.of_nat v))).
Definition encoding_ok : bool :=
  forallb symbol_ok (seq 0 64) && bool_decide (b64_value pad_char = None).
End Base64.

Lemma RawURLEncoding_ok : encoding_ok RawURLEncoding = true.
Proof. vm_compute. reflexivity. Qed.
Lemma StdEncoding_ok : encoding_ok StdEncoding = true.
Proof. vm_compute. reflexivity. Qed.

Section Base64Facts.
Context (e : encoding) (He : encoding_ok e = true).

Lemma symbol_ok_all v :
  0 <= v < 64 -> b64_value e (b64_char e v) = Some v /\ is_newline (b64_char e v) = false.
Proof using He.
  intros Hv. unfold encoding_ok in He. apply andb_true_iff in He as [H _].
  rewrite forallb_forall in H. specialize (H (Z.to_nat v)).
  rewrite in_seq in H. specialize (H ltac:(lia)).
  unfold symbol_ok in H. rewrite Z2Nat.id in H by lia.
  apply andb_true_iff in H as [H1 H2].
  apply bool_decide_eq_true in H1. by apply negb_true_iff in H2.
Qed.

Lemma b64_char_mod v : b64_char e v = b64_char e (v mod 64).
Proof. unfold b64_char. by rewrite Z.mod_mod. Qed.

Lemma value_char v : b64_value e (b64_char e v) = Some (v mod 64).
Proof using He.
  rewrite b64_char_mod. apply symbol_ok_all. apply Z.mod_pos_bound. lia.
Qed.

Lemma newline_char v : is_newline (b64_char e v) = false.
Proof using He.
  rewrite b64_char_mod. apply symbol_ok_all. apply Z.mod_pos_bound. lia.
Qed.

Lemma value_pad : b64_value e pad_char = None.
Proof using He.
  unfold encoding_ok in He. apply andb_true_iff in He as [_ H].
  by apply bool_decide_eq_true in H.
Qed.

(** Three steps of list induction at a time, the recursion of the encoder. *)
Lemma list_ind3 (P : bytes -> Prop) :
  P [] -> (forall a, P [a]) -> (forall a b, P [a; b]) ->
  (forall a b c l, P l -> P (a :: b :: c :: l)) -> forall l, P l.
Proof.
  intros H0 H1 H2 H3 l. induction l as [l IH] using (induction_ltof1 _ length).
  unfold ltof in IH. destruct l as [|a [|b [|c l]]]; auto.
  apply H3, IH. cbn. lia.
Qed.

Lemma b64_encode_no_newline l :
  filter (fun c => is_newline c = false) (b64_encode e l) = b64_encode e l.
Proof using He.
  induction l as [|a|a b|a b c l IH] using list_ind3; [done|..]; cbn [b64_encode];
    repeat (rewrite filter_cons_True by apply newline_char); rewrite ?IH; [..|done];
    cbn [app]; rewrite ?filter_cons_True by apply newline_char;
    unfold b64_pad; by destruct (enc_padded e).
Qed.

Lemma byte_of_Z_eq z b : z mod 256 = u8 b -> byte_of_Z z = b.
Proof. intros H. apply u8_inj. by rewrite u8_byte_of_Z. Qed.

Ltac solve_quantum :=
  repeat (apply (f_equal2 (@cons byte));
    [apply byte_of_Z_eq; Z.div_mod_to_equations; lia |]); reflexivity.

Lemma quantum4_bytes a b c :
  let v := u8 a * 65536 + u8 b * 256 + u8 c in
  quantum4 ((v / 262144) mod 64) ((v / 4096) mod 64) ((v / 64) mod 64) (v mod 64) = [a; b; c].
Proof.
  cbn zeta. pose proof (u8_range a). pose proof (u8_range b). pose proof (u8_range c).
  unfold quantum4. set (v := u8 a * 65536 + u8 b * 256 + u8 c).
  replace ((v / 262144) mod 64 * 262144 + (v / 4096) mod 64 * 4096 + (v / 64) mod 64 * 64
           + v mod 64) with v by (subst v; Z.div_mod_to_equations; lia).
  subst v. solve_quantum.
Qed.

Lemma quantum3_bytes a b :
  let v := u8 a * 65536 + u8 b * 256 in
  quantum3 ((v / 262144) mod 64) ((v / 4096) mod 64) ((v / 64) mod 64) = [a; b].
Proof.
  cbn zeta. pose proof (u8_range a). pose proof (u8_range b).
  unfold quantum3. solve_quantum.
Qed.

Lemma quantum2_bytes a :
  let v := u8 a * 65536 in quantum2 ((v / 262144) mod 64) ((v / 4096) mod 64) = [a].
Proof.
  cbn zeta. pose proof (u8_range a).
  unfold quantum2. solve_quantum.
Qed.

Lemma b64_roundtrip l : b64_decode e (b64_encode e l) = Ok l.
Proof using He.
  unfold b64_decode. rewrite b64_encode_no_newline.
  induction l as [|a|a b|a b c l IH] using list_ind3; [done|..]; cbn [b64_encode].
  - unfold b64_pad. destruct (enc_padded e) eqn:Hp;
      cbn [app replicate b64_decode_symbols]; rewrite !value_char, ?value_pad, Hp;
      cbn; by rewrite quantum2_bytes.
  - unfold b64_pad. destruct (enc_padded e) eqn:Hp;
      cbn [app replicate b64_decode_symbols]; rewrite !value_char, ?value_pad, Hp;
      cbn; by rewrite quantum3_bytes.
  - cbn [b64_decode_symbols]. rewrite !value_char, IH. cbn [mbind result_bind].
    by rewrite quantum4_bytes.
Qed.
End Base64Facts.

Lemma rawurl_roundtrip l : b64_decode RawURLEncoding (b64_encode RawURLEncoding l) = Ok l.
Proof. apply b64_roundtrip, RawURLEncoding_ok. Qed.
Lemma std_roundtrip l : b64_decode StdEncoding (b64_encode StdEncoding l) = Ok l.
Proof. apply b64_roundtrip, StdEncoding_ok. Qed.

(** ** hexadecimal *)

Definition hex_digits : bytes := bs "0123456789abcdef".

Definition hex_digit (v : Z) : byte := nth (Z.to_nat (v mod 16)) hex_digits x00.

Definition hex_value (c : byte) : option Z :=
  let v := u8 c in
  if (48 <=? v) && (v <=? 57) then Some (v - 48)
  else if (97 <=? v) && (v <=? 102) then Some (v - 87)
  else if (65 <=? v) && (v <=? 70) then Some (v - 55)
  else None.

Fixpoint hex_encode (l : bytes) : bytes :=
  match l with
  | [] => []
  | b :: l' => hex_digit (u8 b / 16) :: hex_digit (u8 b) :: hex_encode l'
  end.

Fixpoint hex_decode (l : bytes) : result bytes :=
  match l with
  | [] => Ok []
  | [_] => Err (ErrText "encoding/hex: odd length hex string")
  | c1 :: c2 :: l' =>
      match hex_value c1, hex_value c2 with
      | Some v1, Some v2 => r ← hex_decode l'; Ok (byte_of_Z (v1 * 16 + v2) :: r)
      | _, _ => Err (ErrText "encoding/hex: invalid byte")
      end
  end.

Lemma hex_value_digit v : hex_value (hex_digit v) = Some (v mod 16).
Proof.
  unfold hex_digit. pose proof (Z.mod_pos_bound v 16 ltac:(lia)) as H.
  generalize dependent (v mod 16). intros w H.
  assert (Forall (fun n => hex_value (nth n hex_digits x00) = Some (Z.of_nat n)) (seq 0 16))
    as HF by (repeat constructor).
  rewrite Forall_forall in HF. rewrite (HF (Z.to_nat w)).
  - f_equal. lia.
  - apply elem_of_seq. lia.
Qed.

Lemma length_hex_encode l : length (hex_encode l) = (2 * length l)%nat.
Proof. induction l; cbn; lia. Qed.

#[export] Hint Rewrite length_hex_encode : len.

Lemma hex_roundtrip l : hex_decode (hex_encode l) = Ok l.
Proof.
  induction l as [|b l IH]; cbn [hex_encode hex_decode]; [done|].
  rewrite !hex_value_digit, IH. cbn. repeat f_equal.
  rewrite <- (byte_of_Z_u8 b) at 3. f_equal.
  pose proof (u8_range b). Z.div_mod_to_equations. lia.
Qed.

Lemma hex_encode_inj l1 l2 : hex_encode l1 = hex_encode l2 -> l1 = l2.
Proof.
  intros H. apply (f_equal hex_decode) in H. rewrite !hex_roundtrip in H. by injection H.
Qed.

(** A decoded string has half the length. *)
Lemma hex_decode_length l r : hex_decode l = Ok r -> length l = (2 * length r)%nat.
Proof.
  revert l. enough (forall n l r, (length l <= n)%nat ->
    hex_decode l = Ok r -> length l = (2 * length r)%nat) as H by eauto.
  clear. induction n as [|n IH]; intros [|c1 [|c2 l]] r Hn H; cbn in *; try lia;
    try discriminate; try (injection H as <-; done).
  repeat case_match; try discriminate.
  destruct (hex_decode l) eqn:E; [|discriminate]. cbn in H. injection H as <-.
  apply IH in E; [|lia]. cbn. lia.
Qed.
