(* ===== verification/Block.v ===== *)
(** The block model: [blockstore/blockstore.go] (constants, tags, the paging
    cursor, the lifetime curve) and [blockstore/pow.go] (block ids and proof of
    work).  Identifiers, stamps and payloads are byte strings of fixed length;
    time is nanoseconds since the Unix epoch. *)
From Stdlib Require Import String SpecFloat.
From S2P Require Import Prelude Codec.

(** ** Sizes and types *)

Definition PayloadSize : nat := Z.to_nat 4096.
Definition StampSize : nat := 4.
Definition IDSize : nat := 32.

Abbreviation ID := bytes.
Abbreviation Stamp := bytes.
Abbreviation Payload := bytes.

Definition is_ID (id : bytes) : Prop := length id = IDSize.
Definition is_Stamp (s : bytes) : Prop := length s = StampSize.
Definition is_Payload (p : bytes) : Prop := length p = PayloadSize.

Arguments PayloadSize : simpl never.

Lemma PayloadSize_Z : Z.of_nat PayloadSize = 4096.
Proof. unfold PayloadSize. lia. Qed.

(** [Tag] is a [uint8]; a stored tag byte may hold any value. *)
Abbreviation Tag := Z.
Definition TagPhysical : Tag := 0.
Definition TagLan : Tag := 1.
Definition TagRegional : Tag := 2.
Definition TagGlobal : Tag := 3.
Definition TagBluetooth : Tag := 4.

Definition is_Tag (t : Tag) : Prop := 0 <= t < 256.

Lemma is_Tag_physical : is_Tag TagPhysical.
Proof. split; [discriminate|reflexivity]. Qed.

(** ** Time *)

Definition second : Z := 10 ^ 9.
Definition hour : Z := 3600 * second.

(** [t.Unix()] *)
Definition Unix (t : Z) : Z := t / second.
(** [time.Unix(s, 0)] *)
Definition time_Unix (s : Z) : Z := s * second.
(** [time.Time{}], January 1 of year 1. *)
Definition time_zero : Z := time_Unix (-62135596800).

Lemma Unix_time_Unix s : Unix (time_Unix s) = s.
Proof. unfold Unix, time_Unix, second. apply Z.div_mul. lia. Qed.

(** [BaseTTL] *)
Definition BaseTTL : Z := 24 * hour.

(** ** Block references and the paging cursor *)

Record BlockRef := {
  br_WorkFactor : Z;
  br_ID : ID;
  br_CreatedAt : Z;
  br_Tag : Tag;
}.

Record cursor := { cur_createdAt : Z; cur_id : ID }.

Definition zero_cursor : cursor := {| cur_createdAt := 0; cur_id := replicate IDSize x00 |}.

Definition wf_cursor (c : cursor) : Prop := in_s64 (cur_createdAt c) /\ is_ID (cur_id c).

Definition encodeCursor (c : cursor) : bytes :=
  let buf := replicate (8 + IDSize) x00 in
  let buf := copy_at 0 (be_encode 8 (to_u64 (cur_createdAt c))) buf in
  let buf := copy_at 8 (cur_id c) buf in
  b64_encode RawURLEncoding buf.

Definition invalid_page_token : error := ErrText "blockstore: invalid page token".

Definition decodeCursor (token : bytes) : result cursor :=
  match b64_decode RawURLEncoding token with
  | Err _ => Err invalid_page_token
  | Ok b =>
      if bool_decide (length b <> (8 + IDSize)%nat) then Err invalid_page_token
      else Ok {| cur_createdAt := to_s64 (be_decode (slice 0 8 b));
                 cur_id := slice 8 IDSize b |}
  end.

(** [BlockRef.Token] *)
Definition Token (r : BlockRef) : bytes :=
  encodeCursor {| cur_createdAt := br_CreatedAt r; cur_id := br_ID r |}.

Lemma cursor_roundtrip c : wf_cursor c -> decodeCursor (encodeCursor c) = Ok c.
Proof.
  intros [Hs Hid]. unfold decodeCursor, encodeCursor. rewrite rawurl_roundtrip.
  unfold is_ID, IDSize in *.
  rewrite bool_decide_eq_false_2 by len.
  read_field. unfold to_u64. rewrite be_decode_encode.
  change (256 ^ Z.of_nat 8) with (2 ^ 64).
  rewrite Z.mod_mod, to_s64_mod, to_s64_id by (done || lia). by destruct c.
Qed.

(** An accepted token holds a well-formed cursor. *)
Lemma decodeCursor_wf t c : decodeCursor t = Ok c -> wf_cursor c.
Proof.
  unfold decodeCursor. destruct (b64_decode _ _) as [b|]; [|done].
  case_bool_decide as Hb; [done|]. intros [= <-]. split; cbn.
  - apply to_s64_range.
  - unfold is_ID. rewrite length_slice. unfold IDSize in *. lia.
Qed.

(** The order of listings: creation time, then id. *)
Definition cursor_key (c : cursor) : Z * bytes := (cur_createdAt c, cur_id c).

(** ** The lifetime curve

    [math.Pow] is a routine of the standard library whose bits depend on the
    platform, and so does the conversion of a float that does not fit in an
    [int64]; both are parameters.  The rest is IEEE binary64 arithmetic. *)

Class GoFloat := {
  math_Pow : spec_float -> spec_float -> spec_float;
  int64_out_of_range : spec_float -> Z;
}.

Definition f64_of_Z (z : Z) : spec_float := binary_normalize 53 1024 z 0 false.

(** The float nearest to 1.6180339887498948482. *)
Definition phi : spec_float := S754_finite false 7286977268806824 (-52).

(** [int64(f)]: truncation toward zero. *)
Definition f64_to_int64 `{GoFloat} (f : spec_float) : Z :=
  match f with
  | S754_zero _ => 0
  | S754_finite s m e =>
      let a := if 0 <=? e then Z.pos m * 2 ^ e else Z.pos m / 2 ^ (- e) in
      let v := if s then - a else a in
      if (- 2 ^ 63 <=? v) && (v <? 2 ^ 63) then v else int64_out_of_range f
  | _ => int64_out_of_range f
  end.

Definition TTLFromWorkFactor `{GoFloat} (wf : Z) : Z :=
  let wf := if wf <? 0 then 0 else wf in
  let days := math_Pow phi (SFdiv 53 1024 (f64_of_Z wf) (f64_of_Z 2)) in
  f64_to_int64 (SFmul 53 1024 (f64_of_Z (24 * hour)) days).

(** [math.Pow(x, 0) = 1] for every [x], as its documentation says. *)
Class GoFloatLaws `{GoFloat} : Prop :=
  math_Pow_zero x : math_Pow x (S754_zero false) = f64_of_Z 1.

Lemma TTL_floor `{GoFloat, !GoFloatLaws} wf : wf <= 0 -> TTLFromWorkFactor wf = BaseTTL.
Proof.
  intros Hwf. unfold TTLFromWorkFactor.
  replace (if wf <? 0 then 0 else wf) with 0 by (case_match; lia).
  change (SFdiv 53 1024 (f64_of_Z 0) (f64_of_Z 2)) with (S754_zero false).
  rewrite math_Pow_zero. vm_compute. reflexivity.
Qed.

(** ** Proof of work *)

(** SHA-256 and Argon2id. *)
Class Hashes := {
  sha256_Sum256 : bytes -> bytes;
  argon2_IDKey (password salt : bytes) (time memory threads keyLen : Z) : bytes;
}.

Class HashesLaws `{Hashes} : Prop := {
  sha256_length m : length (sha256_Sum256 m) = 32%nat;
  argon2_length p s t m th n : 0 <= n -> length (argon2_IDKey p s t m th n) = Z.to_nat n;
}.

Definition argonTime : Z := 1.
Definition argonMemory : Z := 64 * 1024.
Definition argonThreads : Z := 1.
Definition argonKeyLen : Z := 32.
Definition argonSalt : bytes := bs "sneakernet-pow-v1".

(** [bits.LeadingZeros8] *)
Definition LeadingZeros8 (v : Z) : Z := if v =? 0 then 8 else 7 - Z.log2 v.

Fixpoint leadingZeroBits (b : bytes) : Z :=
  match b with
  | [] => 0
  | v :: b' =>
      let lz := LeadingZeros8 (u8 v) in
      if lz <? 8 then lz else lz + leadingZeroBits b'
  end.

Section Pow.
Context `{Hashes}.

Definition ComputeID (payload : Payload) : ID := sha256_Sum256 payload.

Definition WorkFactor (stamp : Stamp) (payload : Payload) : Z :=
  let input := stamp ++ payload in
  let hash := argon2_IDKey input argonSalt argonTime argonMemory argonThreads argonKeyLen in
  leadingZeroBits hash.

(** What one round of the mining loop sees: the state of the context and the
    outcome of [rand.Read]. *)
Record mine_round := { mr_ctx : option error; mr_rand : result Stamp }.

(** [MineStamp] over a finite prefix of rounds; [None] while the loop is still
    running when the prefix ends. *)
Fixpoint MineStamp_loop (stamp : Stamp) (payload : Payload) (target : Z)
    (rounds : list mine_round) : option (Stamp * Z * option error) :=
  match rounds with
  | [] => None
  | r :: rounds' =>
      match mr_ctx r with
      | Some err => Some (stamp, 0, Some err)
      | None =>
          match mr_rand r with
          | Err err => Some (stamp, 0, Some err)
          | Ok stamp' =>
              let wf := WorkFactor stamp' payload in
              if target <=? wf then Some (stamp', wf, None)
              else MineStamp_loop stamp' payload target rounds'
          end
      end
  end.

Definition MineStamp (payload : Payload) (target : Z) (rounds : list mine_round)
    : option (Stamp * Z * option error) :=
  let stamp := replicate StampSize x00 in
  if target <=? 0 then Some (stamp, WorkFactor stamp payload, None)
  else MineStamp_loop stamp payload target rounds.
End Pow.

Lemma ComputeID_is_ID `{HashesLaws} p : is_ID (ComputeID p).
Proof. apply sha256_length. Qed.

(** *** Leading zero bits *)

Lemma LeadingZeros8_range v : 0 <= v < 256 -> 0 <= LeadingZeros8 v <= 8.
Proof.
  intros Hv. unfold LeadingZeros8. case_match; [lia|].
  pose proof (Z.log2_nonneg v). assert (Z.log2 v < 8); [apply Z.log2_lt_pow2; lia|lia].
Qed.

Lemma LeadingZeros8_spec v k :
  0 <= v < 256 -> 0 <= k <= 8 -> (k <= LeadingZeros8 v <-> v < 2 ^ (8 - k)).
Proof.
  intros Hv Hk. unfold LeadingZeros8. destruct (Z.eqb_spec v 0) as [->|Hne].
  - split; [intros _; apply Z.pow_pos_nonneg; lia | lia].
  - rewrite (Z.log2_lt_pow2 v (8 - k)) by lia. lia.
Qed.

Lemma leadingZeroBits_bounds b : 0 <= leadingZeroBits b <= 8 * Z.of_nat (length b).
Proof.
  induction b as [|v b IH]; cbn [leadingZeroBits length]; [lia|].
  pose proof (LeadingZeros8_range (u8 v) (u8_range v)). case_match; lia.
Qed.

(** A hash has at least [k] leading zero bits exactly when the big-endian number
    it denotes is below [2^(bits - k)]. *)
Lemma leadingZeroBits_spec b k :
  0 <= k <= 8 * Z.of_nat (length b) ->
  (k <= leadingZeroBits b <-> be_decode b < 2 ^ (8 * Z.of_nat (length b) - k)).
Proof.
  revert k. induction b as [|v b IH]; cbn [leadingZeroBits length be_decode]; intros k Hk.
  { assert (k = 0) as -> by lia. cbn. lia. }
  pose proof (u8_range v) as Hv. pose proof (be_decode_range b) as Hb.
  set (n := Z.of_nat (length b)) in *.
  replace (Z.of_nat (S (length b))) with (n + 1) in * by lia.
  assert (256 ^ n = 2 ^ (8 * n)) as E256 by (rewrite Z.pow_mul_r by lia; done).
  rewrite E256 in *. assert (0 < 2 ^ (8 * n)) as Hp by lia.
  destruct (Z_le_gt_dec k 8) as [Hk8|Hk8].
  - replace (8 * (n + 1) - k) with ((8 - k) + 8 * n) by lia.
    rewrite Z.pow_add_r by lia.
    pose proof (LeadingZeros8_spec (u8 v) k Hv ltac:(lia)) as HL.
    pose proof (leadingZeroBits_bounds b).
    assert (u8 v * 2 ^ (8 * n) + be_decode b < 2 ^ (8 - k) * 2 ^ (8 * n)
            <-> u8 v < 2 ^ (8 - k)) as -> by (split; intros; nia).
    rewrite <- HL. pose proof (LeadingZeros8_range (u8 v) Hv). case_match; lia.
  - destruct (Z.ltb_spec (LeadingZeros8 (u8 v)) 8) as [Hlz|Hlz].
    + split; [lia|]. intros Hlt. exfalso.
      assert (u8 v <> 0) by (intros E; unfold LeadingZeros8 in Hlz; rewrite E in Hlz; cbn in Hlz; lia).
      assert (2 ^ (8 * (n + 1) - k) <= 2 ^ (8 * n)) by (apply Z.pow_le_mono_r; lia). nia.
    + assert (u8 v = 0) as E0.
      { destruct (Z.eqb_spec (u8 v) 0) as [|Hne]; [done|]. unfold LeadingZeros8 in Hlz.
        rewrite (proj2 (Z.eqb_neq _ _) Hne) in Hlz. pose proof (Z.log2_nonneg (u8 v)). lia. }
      rewrite E0, Z.mul_0_l, Z.add_0_l.
      replace (LeadingZeros8 0) with 8 by done.
      replace (8 * (n + 1) - k) with (8 * n - (k - 8)) by lia.
      rewrite <- IH by lia. lia.
Qed.

Lemma WorkFactor_range `{HashesLaws} stamp payload : 0 <= WorkFactor stamp payload <= 256.
Proof.
  unfold WorkFactor.
  set (h := argon2_IDKey _ _ _ _ _ _). pose proof (leadingZeroBits_bounds h) as Hb.
  assert (length h = 32%nat) as Hl by (unfold h, argonKeyLen; rewrite argon2_length; lia). lia.
Qed.

(** ** Reference primitives

    Concrete functions with the lengths of the real ones, so that theorems with
    hypotheses on the primitives can be applied at an input. *)

Definition pad_to (n : nat) (m : bytes) : bytes := take n (m ++ replicate n x00).

Lemma length_pad_to n m : length (pad_to n m) = n.
Proof. unfold pad_to. len. Qed.

Definition ref_Hashes : Hashes := {|
  sha256_Sum256 m := pad_to 32 m;
  argon2_IDKey p s t m th n := pad_to (Z.to_nat n) p;
|}.

Lemma ref_HashesLaws : @HashesLaws ref_Hashes.
Proof. split; intros; apply length_pad_to. Qed.

Definition ref_stamp : Stamp := replicate StampSize x01.
Definition ref_payload : Payload := replicate PayloadSize x02.
Definition ref_id : ID := replicate IDSize x0a.

Lemma ref_stamp_ok : is_Stamp ref_stamp.
Proof. apply length_replicate. Qed.
Lemma ref_payload_ok : is_Payload ref_payload.
Proof. apply length_replicate. Qed.

Definition ref_GoFloat : GoFloat := {|
  math_Pow x y := match y with S754_zero _ => f64_of_Z 1 | _ => SFmul 53 1024 x y end;
  int64_out_of_range _ := - 2 ^ 63;
|}.

Lemma ref_GoFloatLaws : @GoFloatLaws ref_GoFloat.
Proof. by intros x. Qed.

(** ** The contract of the block model *)

(** The token of a block reference is a cursor to exactly that block: decoding
    gives back its creation time and id, so tokens of different positions differ,
    and every token that is accepted holds a well-formed position. *)
Theorem Token_roundtrip r :
  in_s64 (br_CreatedAt r) -> is_ID (br_ID r) ->
  decodeCursor (Token r) = Ok {| cur_createdAt := br_CreatedAt r; cur_id := br_ID r |} /\
  (forall r', in_s64 (br_CreatedAt r') -> is_ID (br_ID r') -> Token r = Token r' ->
     br_CreatedAt r = br_CreatedAt r' /\ br_ID r = br_ID r') /\
  (forall t c, decodeCursor t = Ok c -> wf_cursor c).
Proof.
  intros Hc Hid. assert (decodeCursor (Token r) = Ok {| cur_createdAt := br_CreatedAt r; cur_id := br_ID r |})
    as Hr by by apply cursor_roundtrip.
  split_and!; [done| |apply decodeCursor_wf].
  intros r' Hc' Hid' E. rewrite E in Hr. unfold Token in Hr. rewrite cursor_roundtrip in Hr by done.
  by injection Hr as -> ->.
Qed.

Lemma Token_roundtrip_witness :
  decodeCursor (Token {| br_WorkFactor := 3; br_ID := replicate IDSize x0a;
                         br_CreatedAt := -1; br_Tag := 0 |})
  = Ok {| cur_createdAt := -1; cur_id := replicate IDSize x0a |}.
Proof. apply Token_roundtrip; [vm_compute; split; congruence|reflexivity]. Defined.

(** The work factor of a stamp lies between 0 and 256, and it reaches [k] exactly
    when the Argon2id hash, read as a big-endian number, is below [2^(256-k)]. *)
Theorem WorkFactor_threshold `{HashesLaws} stamp payload k :
  0 <= k <= 256 ->
  0 <= WorkFactor stamp payload <= 256 /\
  (k <= WorkFactor stamp payload <->
   be_decode (argon2_IDKey (stamp ++ payload) argonSalt argonTime argonMemory argonThreads argonKeyLen)
   < 2 ^ (256 - k)).
Proof.
  intros Hk. split; [apply WorkFactor_range|]. unfold WorkFactor.
  set (h := argon2_IDKey _ _ _ _ _ _).
  assert (length h = 32%nat) as Hl by (unfold h, argonKeyLen; rewrite argon2_length; lia).
  rewrite leadingZeroBits_spec by lia. by rewrite Hl.
Qed.

Lemma WorkFactor_threshold_witness :
  0 <= @WorkFactor ref_Hashes [x00; x10; x00; x00] (replicate PayloadSize x00) <= 256.
Proof. apply (@WorkFactor_threshold ref_Hashes ref_HashesLaws _ _ 11). split; discriminate. Defined.

Lemma MineStamp_loop_spec `{Hashes} payload target rounds stamp0 :
  match MineStamp_loop stamp0 payload target rounds with
  | None => Forall (fun r => mr_ctx r = None /\
              exists s, mr_rand r = Ok s /\ WorkFactor s payload < target) rounds
  | Some (s, wf, None) => wf = WorkFactor s payload /\ target <= wf
  | Some (s, wf, Some err) => wf = 0 /\ exists r, r ∈ rounds /\ (mr_ctx r = Some err \/ mr_rand r = Err err)
  end.
Proof.
  revert stamp0. induction rounds as [|r rounds IH]; intros stamp0; cbn [MineStamp_loop]; [constructor|].
  destruct (mr_ctx r) as [err|] eqn:Ec; [split; [done|]; exists r; set_solver|].
  destruct (mr_rand r) as [s|err] eqn:Er; [|split; [done|]; exists r; set_solver].
  destruct (Z.leb_spec target (WorkFactor s payload)); [done|]. specialize (IH s).
  destruct (MineStamp_loop _ _ _ _) as [[[s' wf] [err|]]|]; [| |constructor]; try done.
  - destruct IH as (-> & r' & Hr' & ?). split; [done|]. exists r'. set_solver.
  - eauto.
Qed.

(** The stamp of a mined block is one that was drawn, or zero. *)
Definition draws_stamps (rounds : list mine_round) : Prop :=
  Forall (fun r => forall s, mr_rand r = Ok s -> is_Stamp s) rounds.

Lemma MineStamp_is_Stamp `{Hashes} payload target rounds stamp wf :
  draws_stamps rounds -> MineStamp payload target rounds = Some (stamp, wf, None) -> is_Stamp stamp.
Proof.
  unfold MineStamp. intros HF. destruct (target <=? 0).
  { intros E%(inj Some)%pair_eq. destruct E as [[<- _]%pair_eq _]. unfold is_Stamp. apply length_replicate. }
  generalize (replicate StampSize x00). induction HF as [|r rounds Hr HF IH]; intros s0; cbn [MineStamp_loop]; [done|].
  destruct (mr_ctx r); [done|]. destruct (mr_rand r) as [s|]; [|done].
  destruct (_ <=? _); [|apply IH]. intros [= -> _]. by apply Hr.
Qed.

(** Mining is sound and stops as soon as it can.  A stamp returned without error
    has the returned work factor, and that is at least the target; an error is one
    the context or the random source reported, and comes with work factor 0; mining
    goes on only while every round so far drew a stamp below a positive target. *)
Theorem MineStamp_spec `{HashesLaws} payload target rounds :
  match MineStamp payload target rounds with
  | None => 0 < target /\ Forall (fun r => mr_ctx r = None /\
              exists s, mr_rand r = Ok s /\ WorkFactor s payload < target) rounds
  | Some (s, wf, None) => wf = WorkFactor s payload /\ target <= wf
  | Some (s, wf, Some err) =>
      wf = 0 /\ 0 < target /\ exists r, r ∈ rounds /\ (mr_ctx r = Some err \/ mr_rand r = Err err)
  end.
Proof.
  unfold MineStamp. destruct (Z.leb_spec target 0).
  { split; [done|]. pose proof (WorkFactor_range (replicate StampSize x00) payload). lia. }
  pose proof (MineStamp_loop_spec payload target rounds (replicate StampSize x00)) as Hl.
  destruct (MineStamp_loop _ _ _ _) as [[[s wf] [err|]]|]; tauto.
Qed.

Lemma MineStamp_spec_witness :
  0 < 1 /\ Forall (fun r => mr_ctx r = None /\
    exists s, mr_rand r = Ok s /\ @WorkFactor ref_Hashes s (replicate PayloadSize xff) < 1)
    [{| mr_ctx := None; mr_rand := Ok (replicate StampSize xff) |}].
Proof.
  exact (@MineStamp_spec ref_Hashes ref_HashesLaws (replicate PayloadSize xff) 1
    [{| mr_ctx := None; mr_rand := Ok (replicate StampSize xff) |}]).
Defined.
