(* ===== verification/Store.v ===== *)
(** The [Store] interface of [blockstore/blockstore.go]: the operations every
    backend offers, what its listings promise to their callers, and the paging
    loop in which every caller consumes them. *)
From Stdlib Require Import String.
From S2P Require Import Prelude Codec Block.

(** The interface [Store].  The first argument of an operation is the current
    time; operations that change the store return the new state. *)
Class Store (S : Type) := {
  store_Put : Z -> Stamp -> Payload -> Tag -> S -> S * result ID;
  store_Get : Z -> S -> ID -> result (Stamp * Payload);
  store_GetWorkFactor : Z -> S -> ID -> result Z;
  store_Has : Z -> S -> ID -> result bool;
  store_ListIDs : Z -> S -> result (list ID);
  store_ListBlocks : Z -> S -> bytes -> Z -> Z -> Z -> result (bytes * list BlockRef);
  store_Prune : Z -> S -> S * result Z;
  store_Evict : Z -> Z -> S -> S * result Z;
}.

(** ** What a listing promises *)

(** One line of the index a listing runs over. *)
Record entry := { en_cursor : cursor; en_wf : Z }.

Definition en_key (e : entry) : Z * bytes := cursor_key (en_cursor e).

(** Strictly after the cursor in the order (created_at, id). *)
Definition after (cur : option cursor) (e : entry) : bool :=
  match cur with
  | None => true
  | Some c => lex_ltb (cursor_key c) (en_key e)
  end.

Definition meets (powFloor since : Z) (e : entry) : bool :=
  (powFloor <=? en_wf e) && (since <=? cur_createdAt (en_cursor e)).

Definition listed (cur : option cursor) (powFloor since : Z) (e : entry) : bool :=
  after cur e && meets powFloor since e.

(** The page of at most [limit] entries after the cursor. *)
Definition page (idx : list entry) (cur : option cursor) (limit powFloor since : Z) : list entry :=
  take (Z.to_nat limit) (filter (fun e => listed cur powFloor since e = true) idx).

(** The token of the next page: empty unless the page is full. *)
Definition page_token (limit : Z) (p : list entry) : bytes :=
  if decide (Z.of_nat (length p) = limit)
  then match last p with Some e => encodeCursor (en_cursor e) | None => [] end
  else [].

Definition ref_view (r : BlockRef) : ID * Z := (br_ID r, br_WorkFactor r).
Definition entry_view (e : entry) : ID * Z := (cur_id (en_cursor e), en_wf e).

(** Tokens a caller can hold: the empty one and those of earlier pages. *)
Inductive valid_token (idx : list entry) : bytes -> option cursor -> Prop :=
  | token_start : valid_token idx [] None
  | token_entry e : e ∈ idx -> valid_token idx (encodeCursor (en_cursor e)) (Some (en_cursor e)).

(** The contract of [ListBlocks]: entries ordered by (created_at, id) with
    [work_factor >= powFloor] and [created_at >= since], in pages.  [since] is
    in seconds, the granularity at which every backend compares it. *)
Class StoreLaws (S : Type) `{Store S} := {
  store_inv : S -> Prop;
  store_index : S -> list entry;
  store_index_sorted s : store_inv s ->
    StronglySorted (fun x y => lex_ltb (en_key x) (en_key y) = true) (store_index s);
  store_index_wf s : store_inv s -> Forall (fun e => wf_cursor (en_cursor e)) (store_index s);
  store_list_page now s token cur limit powFloor since next refs :
    store_inv s -> 0 < limit -> in_s64 (Unix since) -> valid_token (store_index s) token cur ->
    store_ListBlocks now s token limit powFloor since = Ok (next, refs) ->
    let p := page (store_index s) cur limit powFloor (Unix since) in
    next = page_token limit p /\ ref_view <$> refs = entry_view <$> p;
}.

(** ** The paging loop

    [for { next, refs, err := ListBlocks(token, ...); for ref in refs { visit };
    if next == "" { break }; token = next }], where [on_err] is what the caller
    does when the listing fails. *)

Fixpoint visit_all {St} (visit : BlockRef -> St -> result St) (refs : list BlockRef) (st : St)
    : result St :=
  match refs with
  | [] => Ok st
  | r :: refs' => st' ← visit r st; visit_all visit refs' st'
  end.

Section Paging.
Context {St : Type}.
Context (list_blocks : bytes -> result (bytes * list BlockRef)).
Context (on_err : error -> St -> result St).
Context (visit : BlockRef -> St -> result St).

Fixpoint page_loop (fuel : nat) (token : bytes) (st : St) : option (result St) :=
  match fuel with
  | O => None
  | S fuel' =>
      match list_blocks token with
      | Err e => Some (on_err e st)
      | Ok (next, refs) =>
          match visit_all visit refs st with
          | Err e => Some (Err e)
          | Ok st' => if decide (next = []) then Some (Ok st') else page_loop fuel' next st'
          end
      end
  end.
End Paging.

Lemma visit_all_app {St} (visit : BlockRef -> St -> result St) l1 l2 st :
  visit_all visit (l1 ++ l2) st = (st' ← visit_all visit l1 st; visit_all visit l2 st').
Proof.
  revert st. induction l1 as [|r l1 IH]; intros st; cbn; [done|].
  destruct (visit r st); cbn; [apply IH|done].
Qed.

(** A visitor that cannot fail folds. *)
Lemma visit_all_pure {St} (f : BlockRef -> St -> St) refs st :
  visit_all (fun r s => Ok (f r s)) refs st = Ok (foldl (fun s r => f r s) st refs).
Proof. revert st. induction refs as [|r refs IH]; intros st; cbn; [done|apply IH]. Qed.

Lemma b64_encode_nil e l : b64_encode e l = [] -> l = [].
Proof. destruct l as [|a [|b [|c l]]]; cbn; done. Qed.

Lemma encodeCursor_not_nil c : encodeCursor c <> [].
Proof.
  unfold encodeCursor. intros H%b64_encode_nil%(f_equal length). len.
Qed.

(** ** Walking the pages *)

Section Walk.
Context (idx : list entry).
Context (Hsorted : StronglySorted (fun x y => lex_ltb (en_key x) (en_key y) = true) idx).
Context (powFloor since : Z).

Definition remaining (cur : option cursor) : list entry :=
  filter (fun e => listed cur powFloor since e = true) idx.

Lemma remaining_sorted cur :
  StronglySorted (fun x y => lex_ltb (en_key x) (en_key y) = true) (remaining cur).
Proof using Hsorted. by apply filter_StronglySorted. Qed.

Lemma remaining_elem cur e : e ∈ remaining cur -> e ∈ idx.
Proof. unfold remaining. by intros [_ ?]%list_elem_of_filter. Qed.

(** After an entry of the remaining list, its tail remains. *)
Lemma remaining_after cur l1 e l2 :
  remaining cur = l1 ++ e :: l2 -> remaining (Some (en_cursor e)) = l2.
Proof using Hsorted.
  intros Hr. pose proof (remaining_sorted cur) as Hs.
  assert (remaining (Some (en_cursor e))
          = filter (fun x => lex_ltb (en_key e) (en_key x) = true) (remaining cur)) as ->.
  { assert (e ∈ remaining cur) as He by (rewrite Hr; set_solver).
    unfold remaining in *. rewrite filter_filter. apply filter_ext. intros x _.
    apply list_elem_of_filter in He as [He _]. unfold listed in *.
    rewrite !andb_true_iff in *. destruct He as [He _].
    destruct cur as [c|]; cbn in *; [|tauto].
    split; [|tauto]. intros [H1 H2]. split_and!; try done.
    eapply lex_ltb_trans; [apply He|apply H1]. }
  rewrite Hr in *. apply StronglySorted_app in Hs as (Hlt & _ & [_ Hs]%StronglySorted_inv).
  rewrite filter_app, filter_Forall_nil, filter_cons_False, filter_Forall_id; [done|..].
  - done.
  - by rewrite lex_ltb_irrefl.
  - apply Forall_forall. intros x Hx Habs. specialize (Hlt x e Hx ltac:(set_solver)).
    pose proof (lex_ltb_trans _ _ _ Hlt Habs) as E. by rewrite lex_ltb_irrefl in E.
Qed.
End Walk.

(** ** The loop visits every remaining block once, in order *)

Section Complete.
Context {S : Type} `{StoreLaws S} {St : Type}.
Context (on_err : error -> St -> result St) (visit : BlockRef -> St -> result St).
Context (now : Z) (s : S) (limit powFloor since : Z).
Context (Hinv : store_inv s) (Hlimit : 0 < limit) (Hsince : in_s64 (Unix since)).

#[local] Abbreviation lister :=
  (fun token => store_ListBlocks now s token limit powFloor since).
#[local] Abbreviation rest := (remaining (store_index s) powFloor (Unix since)).

(** One page: either the last one, or the rest shrinks by it. *)
Lemma page_step token cur next refs :
  valid_token (store_index s) token cur -> lister token = Ok (next, refs) ->
  (next = [] /\ ref_view <$> refs = entry_view <$> rest cur) \/
  (exists e, next = encodeCursor (en_cursor e) /\ e ∈ store_index s /\
     entry_view <$> rest cur
       = (ref_view <$> refs) ++ (entry_view <$> rest (Some (en_cursor e))) /\
     (length (rest (Some (en_cursor e))) < length (rest cur))%nat).
Proof using Hinv Hlimit Hsince.
  intros Htok Hl. destruct (store_list_page _ _ _ _ _ _ _ _ _ Hinv Hlimit Hsince Htok Hl) as [-> Hv].
  unfold page_token in *. unfold page in *.
  change (filter _ (store_index s)) with (rest cur) in *.
  set (n := Z.to_nat limit) in *. case_decide as Hn.
  - right. destruct (last (take n (rest cur))) as [e|] eqn:Hlast;
      [|apply last_None in Hlast; rewrite Hlast in Hn; cbn in Hn; lia].
    apply last_Some in Hlast as [l1 Hl1].
    assert (rest cur = l1 ++ e :: drop n (rest cur)) as Hr.
    { rewrite (cons_middle e), app_assoc, <- Hl1. symmetry. apply take_drop. }
    pose proof (remaining_after _ (store_index_sorted _ Hinv) _ _ _ _ _ _ Hr) as Hafter.
    exists e. split_and!; [done| |..].
    + eapply remaining_elem. rewrite Hr. set_solver.
    + rewrite Hv, Hafter, <- fmap_app. by rewrite take_drop.
    + rewrite Hafter, length_drop. apply (f_equal length) in Hr. len.
  - left. split; [done|]. rewrite Hv. f_equal. apply take_ge. len.
Qed.

(** The loop ends within [length (rest cur) + 1] pages.  Unless a listing fails
    it has then applied [visit] to every remaining block. *)
Lemma page_loop_spec fuel token cur st :
  valid_token (store_index s) token cur -> (length (rest cur) < fuel)%nat ->
  exists refs skipped,
    entry_view <$> rest cur = (ref_view <$> refs) ++ skipped /\
    match visit_all visit refs st with
    | Err e => page_loop lister on_err visit fuel token st = Some (Err e)
    | Ok st' =>
        (page_loop lister on_err visit fuel token st = Some (Ok st') /\ skipped = []) \/
        (exists t c e, valid_token (store_index s) t c /\ lister t = Err e /\
           page_loop lister on_err visit fuel token st = Some (on_err e st'))
    end.
Proof using Hinv Hlimit Hsince.
  revert token cur st. induction fuel as [|fuel IH]; intros token cur st Htok Hfuel; [lia|].
  cbn [page_loop]. destruct (store_ListBlocks now s token limit powFloor since) as [[next refs]|e] eqn:El.
  - destruct (page_step _ _ _ _ Htok El) as [[-> Hv]|(e & -> & He & Hv & Hlt)].
    + exists refs, []. split; [by rewrite app_nil_r|].
      destruct (visit_all visit refs st); [by left|done].
    + destruct (visit_all visit refs st) as [st'|e'] eqn:Ev.
      * rewrite decide_False by apply encodeCursor_not_nil.
        destruct (IH (encodeCursor (en_cursor e)) (Some (en_cursor e)) st')
          as (refs' & skipped & Hs & Hm); [by constructor|lia|].
        exists (refs ++ refs'), skipped. split; [by rewrite Hv, Hs, fmap_app, app_assoc|].
        by rewrite visit_all_app, Ev.
      * exists refs, (entry_view <$> rest (Some (en_cursor e))). split; [done|]. by rewrite Ev.
  - exists [], (entry_view <$> rest cur). split; [done|]. right. eauto 6.
Qed.

(** When no listing fails, the loop folds a visitor that cannot fail over all
    remaining blocks. *)
Lemma page_loop_complete fuel st (f : BlockRef -> St -> St) :
  (forall r st, visit r st = Ok (f r st)) ->
  (forall t c, valid_token (store_index s) t c -> is_ok (lister t) = true) ->
  (length (rest None) < fuel)%nat ->
  exists refs,
    ref_view <$> refs = entry_view <$> rest None /\
    page_loop lister on_err visit fuel [] st = Some (Ok (foldl (fun s r => f r s) st refs)).
Proof using Hinv Hlimit Hsince.
  intros Hf Hok Hfuel.
  destruct (page_loop_spec fuel [] None st (token_start _) Hfuel) as (refs & skipped & Hv & Hm).
  exists refs. assert (visit_all visit refs st = Ok (foldl (fun s r => f r s) st refs)) as Ev.
  { clear Hv Hm. revert st. induction refs as [|r refs IH]; intros st'; cbn; [done|].
    rewrite Hf. apply IH. }
  rewrite Ev in Hm. destruct Hm as [[Hm ->]|(t & c & e & Hc & Ht & _)].
  - by rewrite app_nil_r in Hv.
  - specialize (Hok t c Hc). cbv beta in *. by rewrite Ht in Hok.
Qed.
End Complete.

(** C26: The paging loop reaches every block.  Over a store that meets the listing
    contract and whose listings do not fail, a visitor that does not fail is applied
    once to every indexed block at or above the floors, in the order (created_at,
    id), and the loop ends within one page more than there are blocks. *)
Theorem page_loop_visits_all {S} `{StoreLaws S} {St} (on_err : error -> St -> result St)
    (f : BlockRef -> St -> St) now (s : S) limit powFloor since fuel st :
  store_inv s -> 0 < limit -> in_s64 (Unix since) ->
  (forall t c, valid_token (store_index s) t c ->
     is_ok (store_ListBlocks now s t limit powFloor since) = true) ->
  (length (store_index s) < fuel)%nat ->
  exists refs,
    ref_view <$> refs
      = entry_view <$> filter (fun e => meets powFloor (Unix since) e = true) (store_index s) /\
    page_loop (fun t => store_ListBlocks now s t limit powFloor since) on_err
      (fun r st => Ok (f r st)) fuel [] st
      = Some (Ok (foldl (fun st r => f r st) st refs)).
Proof.
  intros Hinv Hl Hsince Hok Hf. eapply page_loop_complete; try done.
  eapply Nat.le_lt_trans; [|done]. unfold remaining. apply length_filter.
Qed.
