(* ===== verification/Bloom.v ===== *)
(** The Bloom filter of [transport/relay/bloom.go]: bit slots keyed by block id
    and proof-of-work level, membership, serialisation, and the filter of a
    whole store. *)
From Stdlib Require Import String.
From S2P Require Import Prelude Codec Block Store.

Definition bloomBits : Z := 65536.
Definition bloomBytes : nat := Z.to_nat (bloomBits / 8).
Definition maxBloomPow : Z := 16.

Arguments bloomBytes : simpl never.

Lemma bloomBytes_Z : Z.of_nat bloomBytes = 8192.
Proof. unfold bloomBytes, bloomBits. change (65536 / 8) with 8192. lia. Qed.

Record Bloom := { bits : bytes }.

Definition wf_Bloom (b : Bloom) : Prop := length (bits b) = bloomBytes.

Definition empty_Bloom : Bloom := {| bits := replicate bloomBytes x00 |}.

(** The byte offsets of an id that feed the three hash functions. *)
Definition offsets : list nat := [0%nat; 8%nat; 16%nat].

Definition slot (id : ID) (byteOffset : nat) (level : Z) : Z :=
  let v := be_decode (slice byteOffset 4 id) in
  let v := Z.lxor v (to_u32 (to_u32 level * 2654435761)) in
  Z.land v (bloomBits - 1).

Definition set_bit (b : bytes) (s : Z) : bytes :=
  let i := Z.to_nat (Z.shiftr s 3) in
  <[i := byte_of_Z (Z.lor (u8 (b !!! i)) (Z.shiftl 1 (Z.land s 7)))]> b.

Definition test_bit (b : bytes) (s : Z) : bool :=
  negb (Z.land (u8 (b !!! Z.to_nat (Z.shiftr s 3))) (Z.shiftl 1 (Z.land s 7)) =? 0).

Definition clamp_wf (wf : Z) : Z := if maxBloomPow <? wf then maxBloomPow else wf.

(** The levels [0..wf] of the outer loop. *)
Definition levels (wf : Z) : list Z := Z.of_nat <$> seq 0 (Z.to_nat (wf + 1)).

(** The slots [Add] sets, in the order of its two loops. *)
Definition slots_of (id : ID) (wf : Z) : list Z :=
  flat_map (fun level => (fun off => slot id off level) <$> offsets) (levels (clamp_wf wf)).

Definition Add (b : Bloom) (id : ID) (wf : Z) : Bloom :=
  {| bits := foldl set_bit (bits b) (slots_of id wf) |}.

Definition Has (b : Bloom) (id : ID) (wf : Z) : bool :=
  forallb (fun off => test_bit (bits b) (slot id off (clamp_wf wf))) offsets.

Definition Bytes (b : Bloom) : bytes := copy_at 0 (bits b) (replicate bloomBytes x00).

Definition BloomFromBytes (data : bytes) : result Bloom :=
  if bool_decide (length data <> bloomBytes)
  then Err (ErrText "relay: bloom: expected bytes, got")
  else Ok {| bits := copy_at 0 data (replicate bloomBytes x00) |}.

(** [BloomOfStore]: the paging loop with a page size of 500. *)
Definition BloomOfStore {S} `{Store S} (now : Z) (store : S) (fuel : nat) : option (result Bloom) :=
  page_loop (fun token => store_ListBlocks now store token 500 0 time_zero)
    (fun err _ => Err err)
    (fun ref b => Ok (Add b (br_ID ref) (br_WorkFactor ref)))
    fuel [] empty_Bloom.

(** ** Slots and bits *)

Lemma slot_range id off level : 0 <= slot id off level < bloomBits.
Proof.
  unfold slot, bloomBits. change (65536 - 1) with (Z.ones 16).
  rewrite Z.land_ones by lia. apply Z.mod_pos_bound. lia.
Qed.

(** A valid slot addresses a byte of the filter and a bit of that byte. *)
Lemma slot_address s (b : bytes) :
  0 <= s < bloomBits -> length b = bloomBytes ->
  (Z.to_nat (Z.shiftr s 3) < length b)%nat /\ 0 <= Z.land s 7 < 8.
Proof.
  intros Hs ->. pose proof bloomBytes_Z. unfold bloomBits in Hs.
  rewrite Z.shiftr_div_pow2 by lia. change 7 with (Z.ones 3). rewrite Z.land_ones by lia.
  split; Z.div_mod_to_equations; lia.
Qed.

Lemma land_shiftl_1 v k : 0 <= k -> negb (Z.land v (Z.shiftl 1 k) =? 0) = Z.testbit v k.
Proof.
  intros Hk. rewrite Z.shiftl_1_l. destruct (Z.testbit v k) eqn:E.
  - apply negb_true_iff, Z.eqb_neq. intros H0.
    apply (f_equal (fun z => Z.testbit z k)) in H0.
    rewrite Z.land_spec, E, Z.pow2_bits_true, Z.bits_0 in H0 by lia. done.
  - apply negb_false_iff, Z.eqb_eq. apply Z.bits_inj'. intros n Hn.
    rewrite Z.land_spec, Z.bits_0, Z.pow2_bits_eqb by lia.
    destruct (Z.eqb_spec k n) as [<-|]; [by rewrite E|apply andb_false_r].
Qed.

Lemma length_set_bit b s : length (set_bit b s) = length b.
Proof. apply length_insert. Qed.

Lemma u8_lor_bit x k : 0 <= k < 8 ->
  u8 (byte_of_Z (Z.lor (u8 x) (Z.shiftl 1 k))) = Z.lor (u8 x) (2 ^ k).
Proof.
  intros Hk. rewrite u8_byte_of_Z, Z.shiftl_1_l. apply Z.mod_small.
  pose proof (u8_range x) as Hx. split; [apply Z.lor_nonneg; lia|].
  destruct (Z.eq_dec (Z.lor (u8 x) (2 ^ k)) 0) as [->|Hne]; [lia|].
  change 256 with (2 ^ 8). apply Z.log2_lt_pow2; [|].
  - assert (0 <= Z.lor (u8 x) (2 ^ k)) by (apply Z.lor_nonneg; lia). lia.
  - rewrite Z.log2_lor by lia. rewrite Z.log2_pow2 by lia.
    apply Z.max_lub_lt; [|lia].
    destruct (Z.eq_dec (u8 x) 0) as [->|]; [cbn; lia|]. apply Z.log2_lt_pow2; lia.
Qed.

(** Setting a slot sets that slot and no other. *)
Lemma test_set_bit (b : bytes) s s' :
  length b = bloomBytes -> 0 <= s < bloomBits -> 0 <= s' < bloomBits ->
  test_bit (set_bit b s) s' = bool_decide (s = s') || test_bit b s'.
Proof.
  intros Hb Hs Hs'. destruct (slot_address s b Hs Hb) as [Hi Hk].
  destruct (slot_address s' b Hs' Hb) as [Hi' Hk'].
  unfold test_bit. rewrite !land_shiftl_1 by lia. unfold set_bit.
  destruct (decide (Z.shiftr s 3 = Z.shiftr s' 3)) as [E|E].
  - rewrite <- E in *. rewrite list_lookup_total_insert_eq by done.
    rewrite u8_lor_bit, Z.lor_spec, Z.pow2_bits_eqb by lia. rewrite orb_comm. f_equal.
    rewrite !Z.shiftr_div_pow2 in E by lia.
    change 7 with (Z.ones 3) in *. rewrite !Z.land_ones in * by lia.
    apply eq_true_iff_eq. rewrite Z.eqb_eq, bool_decide_eq_true.
    split; [|by intros ->]. intros. Z.div_mod_to_equations. lia.
  - rewrite list_lookup_total_insert_ne.
    + rewrite bool_decide_eq_false_2; [done|]. congruence.
    + rewrite !Z.shiftr_div_pow2 in * by lia. unfold bloomBits in *.
      intros H. apply E. Z.div_mod_to_equations. lia.
Qed.

Lemma foldl_set_bit (b : bytes) ss s' :
  length b = bloomBytes -> Forall (fun s => 0 <= s < bloomBits) ss -> 0 <= s' < bloomBits ->
  length (foldl set_bit b ss) = bloomBytes /\
  test_bit (foldl set_bit b ss) s' = existsb (Z.eqb s') ss || test_bit b s'.
Proof.
  intros Hb HF Hs'. revert b Hb. induction HF as [|s ss Hs _ IH]; intros b Hb; cbn; [done|].
  destruct (IH (set_bit b s)) as [Hl ->]; [by rewrite length_set_bit|].
  split; [done|]. rewrite test_set_bit by done.
  assert (bool_decide (s = s') = (s' =? s)) as ->.
  { apply eq_true_iff_eq. rewrite bool_decide_eq_true, Z.eqb_eq. split; congruence. }
  by destruct (s' =? s), (existsb (Z.eqb s') ss), (test_bit b s').
Qed.

Lemma slots_of_range id wf : Forall (fun s => 0 <= s < bloomBits) (slots_of id wf).
Proof.
  apply Forall_forall. intros s Hs%list_elem_of_In. unfold slots_of in Hs.
  apply in_flat_map in Hs as (l & _ & Hs). apply list_elem_of_In in Hs.
  apply list_elem_of_fmap in Hs as (off & -> & _). apply slot_range.
Qed.

Lemma wf_empty_Bloom : wf_Bloom empty_Bloom.
Proof. apply length_replicate. Qed.

Lemma wf_Add b id wf : wf_Bloom b -> wf_Bloom (Add b id wf).
Proof.
  intros Hb. apply (foldl_set_bit (bits b) (slots_of id wf) 0);
    [done|apply slots_of_range|unfold bloomBits; lia].
Qed.

(** [Add] is the union of the filter with the slots of the id up to its level. *)
Lemma Add_bits b id wf s : wf_Bloom b -> 0 <= s < bloomBits ->
  test_bit (bits (Add b id wf)) s = existsb (Z.eqb s) (slots_of id wf) || test_bit (bits b) s.
Proof. intros Hb Hs. apply foldl_set_bit; [done|apply slots_of_range|done]. Qed.

Lemma clamp_mono k wf : k <= wf -> clamp_wf k <= clamp_wf wf.
Proof. unfold clamp_wf. intros. repeat case_match; lia. Qed.

Lemma slots_of_level id wf k off :
  0 <= k <= wf -> off ∈ offsets -> slot id off (clamp_wf k) ∈ slots_of id wf.
Proof.
  intros Hk Hoff. unfold slots_of. apply list_elem_of_In, in_flat_map.
  exists (clamp_wf k). split.
  - apply list_elem_of_In. unfold levels. apply list_elem_of_fmap.
    exists (Z.to_nat (clamp_wf k)). pose proof (clamp_mono _ _ (proj2 Hk)).
    assert (0 <= clamp_wf k) by (unfold clamp_wf, maxBloomPow; case_match; lia).
    split; [lia|]. apply elem_of_seq. lia.
  - apply list_elem_of_In, list_elem_of_fmap. eauto.
Qed.

Lemma Has_Add_same b id wf k : wf_Bloom b -> 0 <= k <= wf -> Has (Add b id wf) id k = true.
Proof.
  intros Hb Hk. apply forallb_forall. intros off Hoff%list_elem_of_In.
  rewrite Add_bits by (done || apply slot_range). apply orb_true_iff. left.
  apply existsb_exists. exists (slot id off (clamp_wf k)).
  split; [|apply Z.eqb_refl]. by apply list_elem_of_In, slots_of_level.
Qed.

Lemma Has_Add_mono b id wf id' k :
  wf_Bloom b -> Has b id' k = true -> Has (Add b id wf) id' k = true.
Proof.
  intros Hb Hh. apply forallb_forall. intros off Hoff.
  unfold Has in Hh. rewrite forallb_forall in Hh. specialize (Hh off Hoff).
  rewrite Add_bits by (done || apply slot_range). by rewrite Hh, orb_true_r.
Qed.

(** A run of additions, as the loop over the blocks of a store makes it. *)
Definition add_all (b : Bloom) (l : list (ID * Z)) : Bloom :=
  foldl (fun b e => Add b e.1 e.2) b l.

Lemma wf_add_all b l : wf_Bloom b -> wf_Bloom (add_all b l).
Proof.
  revert b. induction l as [|e l IH]; intros b Hb; cbn; [done|]. apply IH, wf_Add, Hb.
Qed.

Lemma Has_add_all_mono b l id k :
  wf_Bloom b -> Has b id k = true -> Has (add_all b l) id k = true.
Proof.
  revert b. induction l as [|e l IH]; intros b Hb Hh; cbn; [done|].
  apply IH; [by apply wf_Add|by apply Has_Add_mono].
Qed.

Lemma Has_add_all b l id wf k :
  wf_Bloom b -> (id, wf) ∈ l -> 0 <= k <= wf -> Has (add_all b l) id k = true.
Proof.
  revert b. induction l as [|e l IH]; intros b Hb Hin Hk; [set_solver|].
  apply elem_of_cons in Hin as [<-|Hin]; cbn.
  - apply Has_add_all_mono; [by apply wf_Add|by apply Has_Add_same].
  - apply IH; [by apply wf_Add|done|done].
Qed.

Lemma Bytes_bits b : wf_Bloom b -> Bytes b = bits b.
Proof.
  intros Hb. unfold Bytes, copy_at. unfold wf_Bloom in Hb.
  rewrite take_0, length_replicate, take_ge by lia. cbn.
  rewrite drop_ge by (rewrite length_replicate; lia). by rewrite app_nil_r.
Qed.

Lemma BloomFromBytes_Ok data b :
  BloomFromBytes data = Ok b <-> length data = bloomBytes /\ b = {| bits := data |}.
Proof.
  unfold BloomFromBytes. case_bool_decide as Hl; [naive_solver|].
  assert (length data = bloomBytes) as Hd by (destruct (decide (length data = bloomBytes)); tauto).
  assert (copy_at 0 data (replicate bloomBytes x00) = data) as ->.
  { apply (Bytes_bits {| bits := data |} Hd). }
  naive_solver.
Qed.

(** ** The contract of the filter *)

(** Adding a block sets exactly its slots: the three hash positions of every level
    from 0 to its clamped work factor; every other bit stays. *)
Theorem bloom_Add_exact b id wf s :
  wf_Bloom b -> 0 <= s < bloomBits ->
  wf_Bloom (Add b id wf) /\
  (test_bit (bits (Add b id wf)) s = true <->
   test_bit (bits b) s = true \/
   exists level off, 0 <= level <= Z.min wf maxBloomPow /\ off ∈ offsets /\ s = slot id off level).
Proof.
  intros Hb Hs. split; [by apply wf_Add|]. rewrite Add_bits by done.
  rewrite orb_true_iff, existsb_exists. setoid_rewrite Z.eqb_eq.
  assert ((exists x, In x (slots_of id wf) /\ s = x) <->
    exists level off, 0 <= level <= Z.min wf maxBloomPow /\ off ∈ offsets /\ s = slot id off level) as ->;
    [|tauto].
  assert (clamp_wf wf = Z.min wf maxBloomPow) as Hc by (unfold clamp_wf; case_match; lia).
  unfold slots_of. setoid_rewrite in_flat_map. setoid_rewrite <- list_elem_of_In.
  unfold levels. rewrite Hc. setoid_rewrite list_elem_of_fmap. setoid_rewrite elem_of_seq.
  split.
  - intros (x & (l & (n & -> & Hn) & (off & -> & Hoff)) & ->). exists (Z.of_nat n), off. split; [lia|done].
  - intros (l & off & Hl & Hoff & ->). eexists. split; [|done]. exists l. split; [|eauto].
    exists (Z.to_nat l). split; lia.
Qed.

Lemma bloom_Add_exact_witness : wf_Bloom (Add empty_Bloom (replicate IDSize x0a) 5).
Proof. apply (bloom_Add_exact empty_Bloom _ 5 0 wf_empty_Bloom). split; reflexivity || discriminate. Defined.

(** The serialised filter is read back as the same filter, and what is accepted
    is exactly the byte strings of the length of a filter, unchanged. *)
Theorem bloom_Bytes_roundtrip b :
  wf_Bloom b ->
  BloomFromBytes (Bytes b) = Ok b /\
  forall data, match BloomFromBytes data with
               | Ok b' => wf_Bloom b' /\ Bytes b' = data
               | Err _ => Z.of_nat (length data) <> 8192
               end.
Proof.
  intros Hb. split.
  - apply BloomFromBytes_Ok. rewrite Bytes_bits by done. by destruct b.
  - intros data. destruct (BloomFromBytes data) as [b'|e] eqn:E.
    + apply BloomFromBytes_Ok in E as [Hl ->]. split; [done|]. by apply Bytes_bits.
    + rewrite <- bloomBytes_Z, Nat2Z.inj_iff. intros Hl.
      assert (BloomFromBytes data = Ok {| bits := data |}) by (by apply BloomFromBytes_Ok). congruence.
Qed.

Lemma bloom_Bytes_roundtrip_witness : BloomFromBytes (Bytes empty_Bloom) = Ok empty_Bloom.
Proof. exact (proj1 (bloom_Bytes_roundtrip empty_Bloom wf_empty_Bloom)). Defined.

Lemma foldl_Add_view refs b :
  foldl (fun b r => Add b (br_ID r) (br_WorkFactor r)) b refs = add_all b (ref_view <$> refs).
Proof. revert b. induction refs as [|r refs IH]; intros b; [done|apply IH]. Qed.

(** The filter of an index: that of the blocks created in or after year 1. *)
Definition index_Bloom (idx : list entry) : Bloom :=
  add_all empty_Bloom (entry_view <$> remaining idx 0 (Unix time_zero) None).

Lemma BloomOfStore_index {S} `{StoreLaws S} now (s : S) fuel :
  store_inv s ->
  (forall t c, valid_token (store_index s) t c ->
     is_ok (store_ListBlocks now s t 500 0 time_zero) = true) ->
  (length (store_index s) < fuel)%nat ->
  BloomOfStore now s fuel = Some (Ok (index_Bloom (store_index s))).
Proof.
  intros Hinv Hok Hf.
  destruct (page_loop_complete (fun err _ => Err err) (fun ref b => Ok (Add b (br_ID ref) (br_WorkFactor ref)))
    now s 500 0 time_zero Hinv ltac:(lia) ltac:(by vm_compute) fuel empty_Bloom (fun ref b => Add b (br_ID ref) (br_WorkFactor ref)))
    as (refs & Hv & Hl); [done|done| |].
  { eapply Nat.le_lt_trans; [apply length_filter|done]. }
  unfold BloomOfStore. rewrite Hl, foldl_Add_view. unfold index_Bloom. by rewrite Hv.
Qed.

Lemma wf_index_Bloom idx : wf_Bloom (index_Bloom idx).
Proof. apply wf_add_all, wf_empty_Bloom. Qed.

(** The filter of nothing reports nothing. *)
Lemma Has_empty id wf : Has empty_Bloom id wf = false.
Proof.
  unfold Has. cbn [forallb offsets]. set (n := slot id 0 (clamp_wf wf)). enough (test_bit (bits empty_Bloom) n = false) as -> by done.
  unfold test_bit. cbn [bits empty_Bloom]. rewrite lookup_total_replicate_2; [done|].
  pose proof (slot_range id 0 (clamp_wf wf)) as Hs. fold n in Hs. rewrite Z.shiftr_div_pow2 by lia.
  assert (Z.of_nat bloomBytes = 8192) as Hb by apply bloomBytes_Z. unfold bloomBits in Hs. Z.div_mod_to_equations. lia.
Qed.

Lemma Has_index_Bloom idx e k :
  e ∈ idx -> Unix time_zero <= cur_createdAt (en_cursor e) -> 0 <= k <= en_wf e ->
  Has (index_Bloom idx) (cur_id (en_cursor e)) k = true.
Proof.
  intros He Hc Hk. apply (Has_add_all _ _ _ (en_wf e)); [apply wf_empty_Bloom| |done].
  apply list_elem_of_fmap. exists e. split; [done|]. apply list_elem_of_filter. split; [|done].
  unfold listed, meets. cbn. rewrite andb_true_iff, !Z.leb_le. lia.
Qed.

(** The filter of a store has no false negatives.  When no listing fails it is
    built within one page more than there are blocks, and it reports every block
    whose creation time is not before year 1 present at its work factor and at
    every smaller one. *)
Theorem BloomOfStore_no_false_negatives {S} `{StoreLaws S} now (s : S) fuel :
  store_inv s ->
  (forall t c, valid_token (store_index s) t c ->
     is_ok (store_ListBlocks now s t 500 0 time_zero) = true) ->
  (length (store_index s) < fuel)%nat ->
  exists b, BloomOfStore now s fuel = Some (Ok b) /\ wf_Bloom b /\
    forall e k, e ∈ store_index s -> Unix time_zero <= cur_createdAt (en_cursor e) ->
      0 <= k <= en_wf e -> Has b (cur_id (en_cursor e)) k = true.
Proof.
  intros Hinv Hok Hf. exists (index_Bloom (store_index s)).
  split_and!; [by apply BloomOfStore_index|apply wf_index_Bloom|]. intros. by apply Has_index_Bloom.
Qed.
