(* ===== verification/FlatFile.v ===== *)
(** The flat-file backend of [blockstore/flatfile.go]: one file per block under
    a two-level directory tree, over a file system given as a finite map from
    paths (relative to the root, as lists of components) to contents and an
    environment that says which system calls fail. *)
From Stdlib Require Import String.
From S2P Require Import Prelude Codec Block Store.

(** ** The file system *)

Abbreviation path := (list bytes).

(** Faults of the environment: [None] is success. *)
Record io_env := {
  io_open : path -> option error;
  io_walk : option error;
  io_mkdir : path -> option error;
  io_write : path -> option (error * option nat); (* the error and, once the file was opened, how much was written *)
  io_rename : path -> option error;
  io_remove : path -> option error;
  io_create : path -> option error;
  io_stream : path -> option (error * bytes); (* the error and what was written before it *)
  io_close : path -> option error;
}.

Definition io_ok : io_env :=
  {| io_open _ := None; io_walk := None; io_mkdir _ := None; io_write _ := None;
     io_rename _ := None; io_remove _ := None; io_create _ := None; io_stream _ := None;
     io_close _ := None |}.

Record FlatFileStore := {
  files : gmap path bytes;
  storageLimit : Z;
  env : io_env;
}.

Definition with_files (s : FlatFileStore) (fs : gmap path bytes) : FlatFileStore :=
  {| files := fs; storageLimit := storageLimit s; env := env s |}.

(** [OpenFlatFile]: [mkdir] is the outcome of making the root, [fs] what lies under it. *)
Definition OpenFlatFile (mkdir : option error) (fs : gmap path bytes) (io : io_env) : result FlatFileStore :=
  match mkdir with
  | Some e => Err (ErrWrap "blockstore: flatfile: mkdir" e)
  | None => Ok {| files := fs; storageLimit := 0; env := io |}
  end.

(** [WithStorageLimit] *)
Definition WithStorageLimit (s : FlatFileStore) (bytes : Z) : FlatFileStore :=
  {| files := files s; storageLimit := bytes; env := env s |}.

Definition IsNotExist (e : error) : bool := bool_decide (e = ErrNotExist).

(** [os.Open] followed by reads of the open file. *)
Definition os_Open (s : FlatFileStore) (p : path) : result bytes :=
  match io_open (env s) p with
  | Some e => Err e
  | None => match files s !! p with Some data => Ok data | None => Err ErrNotExist end
  end.

(** [io.ReadFull] into a buffer of [n] bytes. *)
Definition ReadFull (data : bytes) (n : nat) : result bytes :=
  if decide (length data < n)%nat then Err ErrEOF else Ok (take n data).

(** Order of a directory walk: by components. *)
Fixpoint path_ltb (p q : path) : bool :=
  match p, q with
  | [], [] => false
  | [], _ :: _ => true
  | _ :: _, [] => false
  | a :: p', b :: q' =>
      match bytes_compare a b with Lt => true | Eq => path_ltb p' q' | Gt => false end
  end.

(** The files [filepath.WalkDir] visits. *)
Definition walk_files (s : FlatFileStore) : list path :=
  merge_sort_less path_ltb ((map_to_list (files s)).*1).

Definition WalkDir (s : FlatFileStore) : result (list path) :=
  match io_walk (env s) with Some e => Err e | None => Ok (walk_files s) end.

(** [d.Name()] *)
Definition name_of (p : path) : bytes := default [] (last p).

(** ** Layout *)

Definition flatHeaderSize : nat := StampSize + 4 + 8 + 8.
Arguments flatHeaderSize : simpl never.
Definition flatFileSize : Z := Z.of_nat (flatHeaderSize + PayloadSize).

Definition blockPath (id : ID) : path :=
  let h := hex_encode id in [slice 0 2 h; slice 2 2 h; h].

Definition tmp_suffix : bytes := bs ".tmp".
Definition tmpPath (p : path) : path :=
  take (length p - 1) p ++ [name_of p ++ tmp_suffix].

(** The id a file name stands for, if it is one. *)
Definition name_id (name : bytes) : option ID :=
  match hex_decode name with
  | Ok idBytes => if decide (length idBytes = IDSize) then Some idBytes else None
  | Err _ => None
  end.

Definition block_name (p : path) : bool := bool_decide (length (name_of p) = (2 * IDSize)%nat).

Definition encode_file (stamp : Stamp) (wf createdAt expiresAt : Z) (payload : Payload) : bytes :=
  let buf := replicate (flatHeaderSize + PayloadSize) x00 in
  let buf := copy_at 0 stamp buf in
  let buf := copy_at StampSize (be_encode 4 (to_u32 wf)) buf in
  let buf := copy_at (StampSize + 4) (be_encode 8 (to_u64 createdAt)) buf in
  let buf := copy_at (StampSize + 12) (be_encode 8 (to_u64 expiresAt)) buf in
  copy_at flatHeaderSize payload buf.

Record header := { h_stamp : Stamp; h_wf : Z; h_createdAt : Z; h_expiresAt : Z }.

Definition decode_header (hdr : bytes) : header :=
  {| h_stamp := slice 0 StampSize hdr;
     h_wf := be_decode (slice StampSize 4 hdr);
     h_createdAt := to_s64 (be_decode (slice (StampSize + 4) 8 hdr));
     h_expiresAt := to_s64 (be_decode (slice (StampSize + 12) 8 hdr)) |}.

Definition readHeader (s : FlatFileStore) (p : path) : result header :=
  match os_Open s p with
  | Err e => Err e
  | Ok data =>
      match ReadFull data flatHeaderSize with
      | Err e => Err (ErrWrap "blockstore: flatfile: read header" e)
      | Ok hdr => Ok (decode_header hdr)
      end
  end.

Definition diskUsage (s : FlatFileStore) : result Z :=
  match WalkDir s with
  | Err e => Err e
  | Ok ps => Ok (Z.of_nat (length (filter (fun p => block_name p = true) ps)) * flatFileSize)
  end.

(** ** Eviction *)

Record flatCandidate := { fc_path : path; fc_expiresAt : Z }.

Definition candidates (s : FlatFileStore) (ps : list path) : list flatCandidate :=
  omap (fun p =>
    if block_name p then
      match readHeader s p with
      | Ok h => Some {| fc_path := p; fc_expiresAt := h_expiresAt h |}
      | Err _ => None
      end
    else None) ps.

(** The removal loop: failed removals do not count. *)
Fixpoint evict_loop (s : FlatFileStore) (n evicted : Z) (all : list flatCandidate)
    : FlatFileStore * Z :=
  match all with
  | [] => (s, evicted)
  | c :: all' =>
      if n <=? evicted then (s, evicted)
      else match io_remove (env s) (fc_path c) with
           | None => evict_loop (with_files s (delete (fc_path c) (files s))) n (evicted + 1) all'
           | Some _ => evict_loop s n evicted all'
           end
  end.

Definition Evict `{GoSort} (n : Z) (s : FlatFileStore) : FlatFileStore * result Z :=
  if n <=? 0 then (s, Ok 0)
  else match WalkDir s with
       | Err e => (s, Err (ErrWrap "blockstore: flatfile: evict" e))
       | Ok ps =>
           let all := sort_Slice (fun x y => fc_expiresAt x <? fc_expiresAt y) (candidates s ps) in
           let '(s', evicted) := evict_loop s n 0 all in (s', Ok evicted)
       end.

(** ** Storing and reading blocks *)

Definition keep_existing (s : FlatFileStore) (p : path) (wf : Z) : bool :=
  match os_Open s p with
  | Err _ => false
  | Ok data =>
      match ReadFull data flatHeaderSize with
      | Err _ => false
      | Ok hdr => wf <=? be_decode (slice StampSize 4 hdr)
      end
  end.

Definition enforce_limit `{GoSort} (s : FlatFileStore) : FlatFileStore :=
  if 0 <? storageLimit s then
    match diskUsage s with
    | Ok usage =>
        if storageLimit s <=? usage
        then fst (Evict ((usage - storageLimit s) / flatFileSize + 10 + 1) s)
        else s
    | Err _ => s
    end
  else s.

(** What a write that failed leaves: nothing new when the file could not be opened, else the
    file, emptied, with a part of the data. *)
Definition left_over (fs : gmap path bytes) (p : path) (data : bytes) (written : option nat) : gmap path bytes :=
  match written with None => fs | Some n => <[p := take n data]> fs end.

Definition Put `{GoSort, Hashes, GoFloat} (now : Z) (stamp : Stamp) (payload : Payload) (tag : Tag)
    (s : FlatFileStore) : FlatFileStore * result ID :=
  let id := ComputeID payload in
  let wf := WorkFactor stamp payload in
  let expiresAt := now + TTLFromWorkFactor wf in
  let p := blockPath id in
  if keep_existing s p wf then (s, Ok id)
  else
    let s := enforce_limit s in
    match io_mkdir (env s) p with
    | Some e => (s, Err (ErrWrap "blockstore: flatfile: mkdir" e))
    | None =>
        let buf := encode_file stamp wf (Unix now) (Unix expiresAt) payload in
        match io_write (env s) (tmpPath p) with
        | Some (e, written) =>
            (with_files s (left_over (files s) (tmpPath p) buf written), Err (ErrWrap "blockstore: flatfile: write" e))
        | None =>
            let s := with_files s (<[tmpPath p := buf]> (files s)) in
            match io_rename (env s) p with
            | Some e =>
                (with_files s (match io_remove (env s) (tmpPath p) with
                               | None => delete (tmpPath p) (files s)
                               | Some _ => files s
                               end),
                 Err (ErrWrap "blockstore: flatfile: rename" e))
            | None => (with_files s (<[p := buf]> (delete (tmpPath p) (files s))), Ok id)
            end
        end
    end.

Definition Get (s : FlatFileStore) (id : ID) : result (Stamp * Payload) :=
  match os_Open s (blockPath id) with
  | Err e => if IsNotExist e then Err ErrNotFound else Err (ErrWrap "blockstore: flatfile: get" e)
  | Ok data =>
      match ReadFull data (flatHeaderSize + PayloadSize) with
      | Err e => Err (ErrWrap "blockstore: flatfile: get" e)
      | Ok buf => Ok (slice 0 StampSize buf, slice flatHeaderSize PayloadSize buf)
      end
  end.

Definition GetWorkFactor (s : FlatFileStore) (id : ID) : result Z :=
  match readHeader s (blockPath id) with
  | Err e => if IsNotExist e then Err ErrNotFound else Err e
  | Ok h => Ok (h_wf h)
  end.

Definition Has (s : FlatFileStore) (id : ID) : result bool :=
  match readHeader s (blockPath id) with
  | Err e => if IsNotExist e then Ok false else Err e
  | Ok _ => Ok true
  end.

Definition ListIDs (s : FlatFileStore) : result (list ID) :=
  match WalkDir s with
  | Err e => Err e
  | Ok ps => Ok (omap (fun p => name_id (name_of p)) ps)
  end.

(** ** Listings *)

Record flatEntry := { fe_id : ID; fe_wf : Z; fe_createdAt : Z }.

Definition fe_key (e : flatEntry) : Z * bytes := (fe_createdAt e, fe_id e).

(** The entry of one file, before the floors are applied. *)
Definition file_entry (s : FlatFileStore) (p : path) : option flatEntry :=
  match name_id (name_of p) with
  | None => None
  | Some id =>
      match readHeader s p with
      | Err _ => None
      | Ok h => Some {| fe_id := id; fe_wf := h_wf h; fe_createdAt := h_createdAt h |}
      end
  end.

Definition scan_entries (s : FlatFileStore) (powFloor sinceUnix : Z) (ps : list path)
    : list flatEntry :=
  filter (fun e => negb ((fe_wf e <? powFloor) || (fe_createdAt e <? sinceUnix)) = true)
    (omap (file_entry s) ps).

Definition skip_entry (cur : option cursor) (e : flatEntry) : bool :=
  match cur with
  | None => false
  | Some c =>
      (fe_createdAt e <? cur_createdAt c)
      || ((fe_createdAt e =? cur_createdAt c)
          && match bytes_compare (fe_id e) (cur_id c) with Gt => false | _ => true end)
  end.

Definition entry_ref (e : flatEntry) : BlockRef :=
  {| br_ID := fe_id e; br_WorkFactor := fe_wf e; br_CreatedAt := 0; br_Tag := 0 |}.

Fixpoint collect (cur : option cursor) (limit : Z) (entries : list flatEntry)
    (refs : list BlockRef) (last : cursor) : list BlockRef * cursor :=
  match entries with
  | [] => (refs, last)
  | e :: entries' =>
      if skip_entry cur e then collect cur limit entries' refs last
      else
        let refs := refs ++ [entry_ref e] in
        let last := {| cur_createdAt := fe_createdAt e; cur_id := fe_id e |} in
        if Z.of_nat (length refs) =? limit then (refs, last)
        else collect cur limit entries' refs last
  end.

Definition parse_page_token (pageToken : bytes) : result (option cursor) :=
  if decide (pageToken = []) then Ok None else Some <$> decodeCursor pageToken.

Definition ListBlocks `{GoSort} (s : FlatFileStore) (pageToken : bytes) (limit powFloor since : Z)
    : result (bytes * list BlockRef) :=
  let sinceUnix := Unix since in
  cur ← parse_page_token pageToken;
  match WalkDir s with
  | Err e => Err (ErrWrap "blockstore: flatfile: listblocks" e)
  | Ok ps =>
      let entries := sort_Slice (fun x y => lex_ltb (fe_key x) (fe_key y))
                       (scan_entries s powFloor sinceUnix ps) in
      let '(refs, last) := collect cur limit entries [] zero_cursor in
      let nextToken := if Z.of_nat (length refs) =? limit then encodeCursor last else [] in
      Ok (nextToken, refs)
  end.

(** [Prune] does nothing. *)
Definition Prune (s : FlatFileStore) : FlatFileStore * result Z := (s, Ok 0).

(** The backend behind the interface. *)
#[export] Instance FlatFile_Store `{GoSort, Hashes, GoFloat} : Store FlatFileStore := {
  store_Put := Put;
  store_Get _ := Get;
  store_GetWorkFactor _ := GetWorkFactor;
  store_Has _ := Has;
  store_ListIDs _ := ListIDs;
  store_ListBlocks _ := ListBlocks;
  store_Prune _ := Prune;
  store_Evict _ := Evict;
}.
