(* ===== verification/FlatFileFacts.v ===== *)
(** What the flat-file backend guarantees: the file layout round trip, the
    functional behaviour of [Put], eviction and its bound on disk usage, and the
    listing contract of the [Store] interface. *)
From Stdlib Require Import String.
From S2P Require Import Prelude Codec Block Store Bloom FlatFile.

(** ** File layout *)

Section Layout.
Context (stamp : Stamp) (wf createdAt expiresAt : Z) (payload : Payload).
Context (Hstamp : is_Stamp stamp) (Hpayload : is_Payload payload).
Context (Hwf : 0 <= wf < 2 ^ 32) (Hc : in_s64 createdAt) (He : in_s64 expiresAt).

#[local] Abbreviation file := (encode_file stamp wf createdAt expiresAt payload).

Lemma length_encode_file : length file = (flatHeaderSize + PayloadSize)%nat.
Proof using. unfold encode_file, flatHeaderSize, StampSize. len. Qed.

Ltac open_file :=
  unfold encode_file, is_Stamp, is_Payload, flatHeaderSize, StampSize in *.

Lemma encode_file_stamp : slice 0 StampSize file = stamp.
Proof using Hstamp Hpayload. open_file. by read_field. Qed.

Lemma encode_file_payload : slice flatHeaderSize PayloadSize file = payload.
Proof using Hstamp Hpayload. open_file. by read_field. Qed.

Lemma encode_file_header :
  decode_header (take flatHeaderSize file)
  = {| h_stamp := stamp; h_wf := wf; h_createdAt := createdAt; h_expiresAt := expiresAt |}.
Proof using All.
  unfold decode_header. rewrite !slice_take by (unfold flatHeaderSize, StampSize; lia).
  open_file. read_field. unfold to_u32, to_u64. rewrite !be_decode_encode.
  change (256 ^ Z.of_nat 8) with (2 ^ 64). change (256 ^ Z.of_nat 4) with (2 ^ 32).
  rewrite !Z.mod_mod, !to_s64_mod, !to_s64_id, Z.mod_small by (done || lia). done.
Qed.
End Layout.

(** ** Paths *)

Lemma blockPath_inj id1 id2 : blockPath id1 = blockPath id2 -> id1 = id2.
Proof. intros [= _ _ H]. by apply hex_encode_inj. Qed.

Lemma name_blockPath id : name_of (blockPath id) = hex_encode id.
Proof. done. Qed.

Lemma name_tmpPath p : name_of (tmpPath p) = name_of p ++ tmp_suffix.
Proof. unfold tmpPath, name_of. by rewrite last_snoc. Qed.

Lemma name_id_hex id : is_ID id -> name_id (hex_encode id) = Some id.
Proof. intros H. unfold name_id. rewrite hex_roundtrip. by rewrite decide_True. Qed.

Lemma name_id_length n id : name_id n = Some id -> length n = (2 * IDSize)%nat /\ is_ID id.
Proof.
  unfold name_id. destruct (hex_decode n) as [r|] eqn:E; [|done].
  case_decide as Hr; [|done]. intros [= <-]. apply hex_decode_length in E. by rewrite E, Hr.
Qed.

Lemma block_name_blockPath id : is_ID id -> block_name (blockPath id) = true.
Proof.
  intros H. unfold block_name. rewrite name_blockPath, length_hex_encode, H. done.
Qed.

Lemma block_name_tmpPath p : block_name p = true -> block_name (tmpPath p) = false.
Proof.
  unfold block_name. rewrite bool_decide_eq_true, bool_decide_eq_false, name_tmpPath.
  intros H. rewrite length_app, H. cbn. lia.
Qed.

Lemma tmpPath_ne p q : block_name p = true -> block_name q = true -> tmpPath p <> q.
Proof. intros Hp Hq E. apply block_name_tmpPath in Hp. congruence. Qed.

(** ** Reading *)

Lemma readHeader_Ok s p h :
  readHeader s p = Ok h <->
  io_open (env s) p = None /\ exists data, files s !! p = Some data /\
    (flatHeaderSize <= length data)%nat /\ h = decode_header (take flatHeaderSize data).
Proof.
  unfold readHeader, os_Open, ReadFull.
  destruct (io_open (env s) p); [naive_solver|].
  destruct (files s !! p) as [data|] eqn:E; [|naive_solver].
  case_decide; [split; [done|]; intros (_ & d & [= <-] & ? & _); lia|].
  split; [intros [= <-]; split; [done|]; exists data; split_and!; [done|lia|done]|].
  by intros (_ & d & [= <-] & _ & ->).
Qed.

Lemma walk_files_elem s p : p ∈ walk_files s <-> is_Some (files s !! p).
Proof.
  unfold walk_files. rewrite merge_sort_less_Permutation, list_elem_of_fmap. split.
  - intros ([q d] & -> & H%elem_of_map_to_list). eauto.
  - intros [d Hd]. exists (p, d). split; [done|]. by apply elem_of_map_to_list.
Qed.

Lemma walk_files_NoDup s : NoDup (walk_files s).
Proof. unfold walk_files. rewrite merge_sort_less_Permutation. apply NoDup_fst_map_to_list. Qed.

(** ** The listing contract

    A store is tidy when every readable block file lies at the path of its id,
    which is where [Put] writes it. *)

Definition tidy (s : FlatFileStore) : Prop :=
  forall p id, is_Some (files s !! p) -> name_id (name_of p) = Some id -> p = blockPath id.

Definition to_entry (e : flatEntry) : entry :=
  {| en_cursor := {| cur_createdAt := fe_createdAt e; cur_id := fe_id e |}; en_wf := fe_wf e |}.

Section Listing.
Context `{GoSort}.

Definition sorted_entries (s : FlatFileStore) : list flatEntry :=
  sort_Slice (fun x y => lex_ltb (fe_key x) (fe_key y)) (omap (file_entry s) (walk_files s)).

Definition flat_index (s : FlatFileStore) : list entry := to_entry <$> sorted_entries s.

Lemma file_entry_Some s p e :
  file_entry s p = Some e -> name_id (name_of p) = Some (fe_id e) /\ wf_cursor (en_cursor (to_entry e)).
Proof.
  unfold file_entry. destruct (name_id (name_of p)) as [id|] eqn:E; [|done].
  destruct (readHeader s p) as [h|] eqn:Eh; [|done]. intros [= <-]. cbn.
  split; [done|]. split; cbn; [|by eapply name_id_length].
  apply readHeader_Ok in Eh as (_ & d & _ & _ & ->). apply to_s64_range.
Qed.

Lemma entries_NoDup s : tidy s -> NoDup (fe_key <$> omap (file_entry s) (walk_files s)).
Proof.
  intros Htidy. apply NoDup_fmap_omap; [apply walk_files_NoDup|].
  intros p q e e' Hp Hq [He _]%file_entry_Some [He' _]%file_entry_Some [= _ Hid].
  rewrite walk_files_elem in Hp, Hq. rewrite (Htidy p _ Hp He), (Htidy q _ Hq He'). congruence.
Qed.

Lemma flat_index_sorted s : tidy s ->
  StronglySorted (fun x y => lex_ltb (en_key x) (en_key y) = true) (flat_index s).
Proof.
  intros Htidy. unfold flat_index.
  eapply (StronglySorted_fmap to_entry (fun x y => lex_ltb (fe_key x) (fe_key y) = true)); [done|].
  by apply sort_Slice_strict, entries_NoDup.
Qed.

Lemma flat_index_wf s : Forall (fun e => wf_cursor (en_cursor e)) (flat_index s).
Proof.
  apply Forall_forall. intros x (e & -> & He)%list_elem_of_fmap.
  unfold sorted_entries in He. rewrite sort_Slice_Permutation in He.
  apply list_elem_of_omap in He as (p & _ & Hp). by apply file_entry_Some in Hp as [_ ?].
Qed.

(** The index is made of the headers of the files at the path of their id. *)
Lemma flat_index_elem s e : tidy s ->
  (e ∈ flat_index s <->
   exists id h, is_ID id /\ readHeader s (blockPath id) = Ok h /\
     e = {| en_cursor := {| cur_createdAt := h_createdAt h; cur_id := id |}; en_wf := h_wf h |}).
Proof.
  intros Ht. unfold flat_index, sorted_entries. rewrite list_elem_of_fmap.
  setoid_rewrite sort_Slice_Permutation. setoid_rewrite list_elem_of_omap. split.
  - intros (fe & -> & p & Hp & Hfe). unfold file_entry in Hfe.
    destruct (name_id (name_of p)) as [id|] eqn:En; [|done].
    destruct (readHeader s p) as [h|] eqn:Eh; [|done]. injection Hfe as <-.
    rewrite (Ht p id) in Eh by (done || by apply walk_files_elem).
    exists id, h. split_and!; [by eapply name_id_length|done|done].
  - intros (id & h & Hid & Hh & ->). exists {| fe_id := id; fe_wf := h_wf h; fe_createdAt := h_createdAt h |}.
    split; [done|]. exists (blockPath id). split.
    + apply walk_files_elem. apply readHeader_Ok in Hh as (_ & d & -> & _). done.
    + unfold file_entry. by rewrite name_blockPath, name_id_hex, Hh.
Qed.

(** The skip test is the negation of "after the cursor". *)
Lemma skip_entry_after cur e : skip_entry cur e = negb (after cur (to_entry e)).
Proof.
  destruct cur as [c|]; [|done]. cbn. unfold lex_ltb, en_key, cursor_key, bytes_ltb. cbn.
  rewrite (bytes_compare_antisym (fe_id e)).
  destruct (Z.ltb_spec (fe_createdAt e) (cur_createdAt c)),
    (Z.ltb_spec (cur_createdAt c) (fe_createdAt e)),
    (Z.eqb_spec (fe_createdAt e) (cur_createdAt c)),
    (Z.eqb_spec (cur_createdAt c) (fe_createdAt e)); try lia;
    by destruct (bytes_compare (fe_id e) (cur_id c)).
Qed.

(** The collecting loop takes entries after the cursor up to the limit. *)
Lemma collect_spec cur limit entries refs last :
  Z.of_nat (length refs) < limit ->
  let p := take (Z.to_nat limit - length refs)
             (filter (fun e => after cur (to_entry e) = true) entries) in
  collect cur limit entries refs last
  = (refs ++ (entry_ref <$> p),
     match list.last p with Some e => en_cursor (to_entry e) | None => last end).
Proof.
  revert refs last. induction entries as [|e es IH]; intros refs last Hlt; cbn zeta.
  { cbn. by rewrite take_nil, app_nil_r. }
  cbn [collect]. rewrite skip_entry_after, filter_cons.
  destruct (after cur (to_entry e)) eqn:Ea; cbn [negb].
  - rewrite decide_True by done. rewrite length_app. cbn [length].
    destruct (Z.to_nat limit - length refs)%nat as [|m] eqn:Em; [lia|]. cbn [take].
    case_match eqn:El.
    + apply Z.eqb_eq in El. assert (m = 0%nat) as -> by lia. cbn. done.
    + apply Z.eqb_neq in El. rewrite IH by (rewrite length_app; cbn; lia).
      rewrite length_app. cbn [length].
      replace (Z.to_nat limit - (length refs + 1))%nat with m by lia.
      rewrite fmap_cons, <- app_assoc. cbn [app]. f_equal.
      rewrite last_cons. by destruct (list.last (take m _)).
  - rewrite decide_False by congruence. by apply IH.
Qed.

Lemma scan_sorted s powFloor since :
  tidy s ->
  sort_Slice (fun x y => lex_ltb (fe_key x) (fe_key y)) (scan_entries s powFloor since (walk_files s))
  = filter (fun e => meets powFloor since (to_entry e) = true) (sorted_entries s).
Proof.
  intros Htidy. unfold scan_entries. rewrite sort_Slice_filter by by apply entries_NoDup.
  apply filter_ext. intros e _. unfold meets. cbn.
  rewrite negb_true_iff, orb_false_iff, andb_true_iff, Z.ltb_ge, Z.ltb_ge, !Z.leb_le. done.
Qed.

Lemma filter_to_entry (f : entry -> bool) (l : list flatEntry) :
  filter (fun e => f e = true) (to_entry <$> l)
  = to_entry <$> filter (fun e => f (to_entry e) = true) l.
Proof.
  induction l as [|e l IH]; [done|]. rewrite fmap_cons, !filter_cons.
  case_decide; [|done]. by rewrite IH.
Qed.

Lemma parse_page_token_valid s token cur :
  valid_token (flat_index s) token cur -> parse_page_token token = Ok cur.
Proof.
  unfold parse_page_token. intros [|e He]; [done|].
  rewrite decide_False by apply encodeCursor_not_nil.
  pose proof (flat_index_wf s) as Hw. rewrite Forall_forall in Hw.
  by rewrite cursor_roundtrip by by apply Hw.
Qed.

Lemma flat_list_page s token cur limit powFloor since next refs :
  tidy s -> 0 < limit -> valid_token (flat_index s) token cur ->
  ListBlocks s token limit powFloor since = Ok (next, refs) ->
  let p := page (flat_index s) cur limit powFloor (Unix since) in
  next = page_token limit p /\ ref_view <$> refs = entry_view <$> p.
Proof.
  intros Htidy Hlim Htok. unfold ListBlocks. rewrite (parse_page_token_valid _ _ _ Htok).
  cbn [mbind result_bind]. unfold WalkDir. destruct (io_walk (env s)); [done|].
  rewrite scan_sorted by done. rewrite collect_spec by (cbn; lia). cbn [length].
  rewrite Nat.sub_0_r, filter_filter. cbn [app]. intros [= <- <-].
  unfold page, flat_index. rewrite filter_to_entry, <- fmap_take.
  set (q := take (Z.to_nat limit) (filter _ (sorted_entries s))).
  assert (take (Z.to_nat limit)
    (filter (fun e => listed cur powFloor (Unix since) (to_entry e) = true) (sorted_entries s)) = q)
    as ->.
  { subst q. f_equal. apply filter_ext. intros e _. unfold listed. by rewrite andb_true_iff. }
  split.
  - unfold page_token. rewrite !length_fmap, fmap_last.
    destruct (Z.eqb_spec (Z.of_nat (length q)) limit); [rewrite decide_True by done|by rewrite decide_False].
    destruct (list.last q) eqn:El; [done|]. apply last_None in El. rewrite El in *. cbn in *. lia.
  - rewrite <- !list_fmap_compose. done.
Qed.

(** The flat-file backend meets the listing contract. *)
#[export] Instance FlatFile_StoreLaws `{Hashes, GoFloat} : StoreLaws FlatFileStore := {
  store_inv := tidy;
  store_index := flat_index;
  store_index_sorted := flat_index_sorted;
  store_index_wf s _ := flat_index_wf s;
  store_list_page _ s t c l p n x r Hi Hl _ := flat_list_page s t c l p n x r Hi Hl;
}.
End Listing.

(** ** Eviction *)

Definition drop_paths (fs : gmap path bytes) (l : list flatCandidate) : gmap path bytes :=
  foldl (fun fs c => delete (fc_path c) fs) fs l.

Lemma drop_paths_lookup l fs p :
  drop_paths fs l !! p = if decide (p ∈ fc_path <$> l) then None else fs !! p.
Proof.
  unfold drop_paths. revert fs. induction l as [|c l IH]; intros fs; cbn; [done|].
  rewrite IH. destruct (decide (p = fc_path c)) as [->|Hne].
  - rewrite lookup_delete_eq, (decide_True (P := fc_path c ∈ _ :: _)) by left.
    by case_decide.
  - rewrite lookup_delete_ne by done. repeat case_decide; rewrite elem_of_cons in *; tauto.
Qed.

Lemma with_files_env s fs : env (with_files s fs) = env s.
Proof. done. Qed.

Lemma with_files_twice s fs1 fs2 : with_files (with_files s fs1) fs2 = with_files s fs2.
Proof. done. Qed.

(** With every removal succeeding the loop removes the first [n - evicted]. *)
Lemma evict_loop_ok s n k all :
  (forall p, io_remove (env s) p = None) -> k <= n ->
  evict_loop s n k all
  = (with_files s (drop_paths (files s) (take (Z.to_nat (n - k)) all)),
     k + Z.min (n - k) (Z.of_nat (length all))).
Proof.
  revert s k. induction all as [|c all IH]; intros s k Hrm Hk; cbn [evict_loop].
  { rewrite take_nil. cbn. destruct s; cbn. f_equal. lia. }
  destruct (Z.leb_spec n k).
  - replace (Z.to_nat (n - k)) with 0%nat by lia. cbn. destruct s. cbn. f_equal. lia.
  - rewrite Hrm, IH by (done || lia).
    replace (Z.to_nat (n - k)) with (S (Z.to_nat (n - (k + 1)))) by lia.
    cbn [take length]. f_equal. lia.
Qed.

(** Whatever fails, the loop only removes files. *)
Lemma evict_loop_sub s n k all p :
  let s' := fst (evict_loop s n k all) in
  env s' = env s /\ storageLimit s' = storageLimit s /\
  (files s' !! p = files s !! p \/ files s' !! p = None).
Proof.
  revert s k. induction all as [|c all IH]; intros s k; cbn; [auto|].
  case_match; [auto|]. case_match; [apply IH|].
  destruct (IH (with_files s (delete (fc_path c) (files s))) (k + 1)) as (E1 & E2 & [H1|H1]);
    split_and!; auto.
  cbn in H1. rewrite H1. destruct (decide (fc_path c = p)) as [<-|].
  - right. apply lookup_delete_eq.
  - left. by apply lookup_delete_ne.
Qed.

Section Limits.
Context `{GoSort}.

Lemma Evict_sub n s p :
  let s' := fst (Evict n s) in
  env s' = env s /\ storageLimit s' = storageLimit s /\
  (files s' !! p = files s !! p \/ files s' !! p = None).
Proof.
  cbn zeta. unfold Evict. case_match; [auto|]. destruct (WalkDir s) as [ps|]; [|auto].
  pose proof (evict_loop_sub s n 0
    (sort_Slice (fun x y => fc_expiresAt x <? fc_expiresAt y) (candidates s ps)) p) as Hs.
  by destruct (evict_loop _ _ _ _).
Qed.

Lemma enforce_limit_sub s p :
  let s' := enforce_limit s in
  env s' = env s /\ storageLimit s' = storageLimit s /\
  (files s' !! p = files s !! p \/ files s' !! p = None).
Proof.
  cbn zeta. unfold enforce_limit. case_match; [|auto]. destruct (diskUsage s) as [u|]; [|auto].
  case_match; [apply Evict_sub|auto].
Qed.

Lemma Evict_ok n s :
  env s = io_ok -> 0 < n ->
  let all := candidates s (walk_files s) in
  let sorted := sort_Slice (fun x y => fc_expiresAt x <? fc_expiresAt y) all in
  Evict n s = (with_files s (drop_paths (files s) (take (Z.to_nat n) sorted)),
               Ok (Z.min n (Z.of_nat (length all)))).
Proof.
  intros Henv Hn. cbn zeta. unfold Evict, WalkDir. rewrite Henv. cbn.
  rewrite (proj2 (Z.leb_gt n 0)) by lia.
  rewrite evict_loop_ok by (rewrite ?Henv; done || lia).
  rewrite !Z.sub_0_r, Z.add_0_l. by rewrite (Permutation_length (sort_Slice_Permutation _ _)).
Qed.
End Limits.

(** ** Writing a block *)

Section Writing.
Context `{GoSort, HashesLaws, GoFloat}.
Context (now : Z) (stamp : Stamp) (payload : Payload) (tag : Tag).
Context (Hstamp : is_Stamp stamp) (Hpayload : is_Payload payload).

#[local] Abbreviation id := (ComputeID payload).
#[local] Abbreviation wf := (WorkFactor stamp payload).
#[local] Abbreviation file :=
  (encode_file stamp wf (Unix now) (Unix (now + TTLFromWorkFactor wf)) payload).

Lemma block_name_id : block_name (blockPath id) = true.
Proof using All. apply block_name_blockPath, ComputeID_is_ID. Qed.

(** Nothing but the file that was being written is touched. *)
Lemma left_over_ne fs q p data written : q <> p -> left_over fs q data written !! p = fs !! p.
Proof using. intros Hne. destruct written; [by apply lookup_insert_ne|done]. Qed.

(** A block file is after a [Put] what it was, or gone through eviction, or it is
    the file of the new block, and then the call succeeded. *)
Lemma Put_files s p :
  block_name p = true ->
  let '(s', r) := Put now stamp payload tag s in
  env s' = env s /\ storageLimit s' = storageLimit s /\
  ((p = blockPath id /\ r = Ok id /\ files s' !! p = Some file) \/
   files s' !! p = files s !! p \/
   (files s' !! p = None /\ keep_existing s (blockPath id) wf = false)).
Proof using All.
  intros Hp. unfold Put. destruct (keep_existing s _ _); [by auto|].
  destruct (enforce_limit_sub s p) as (E1 & E2 & Hsub).
  set (s1 := enforce_limit s) in *.
  assert (env s1 = env s /\ storageLimit s1 = storageLimit s /\
    (p = blockPath id /\ Ok id = Ok id /\ files s1 !! p = Some file \/
     files s1 !! p = files s !! p \/ files s1 !! p = None /\ false = false)) as Hs1 by tauto.
  assert (tmpPath (blockPath id) <> p) as Htmp by (apply tmpPath_ne; [apply block_name_id|done]).
  destruct (io_mkdir (env s1) _); [cbn; tauto|].
  destruct (io_write (env s1) _) as [[e written]|].
  { cbn [with_files env storageLimit files]. rewrite left_over_ne by done. tauto. }
  rewrite with_files_env.
  destruct (io_rename (env s1) _); cbn.
  - split_and!; [done|done|]. right.
    destruct (io_remove (env s1) _); [|rewrite lookup_delete_ne by done];
      rewrite lookup_insert_ne by done; tauto.
  - split_and!; [done|done|]. destruct (decide (blockPath id = p)) as [<-|Hne].
    + left. by rewrite lookup_insert_eq.
    + right. rewrite lookup_insert_ne, lookup_delete_ne, lookup_insert_ne by done. tauto.
Qed.

(** Without faults a [Put] succeeds, and if no file of at least its work factor is
    there it writes its own. *)
Lemma Put_ok s :
  env s = io_ok ->
  exists s', Put now stamp payload tag s = (s', Ok id) /\
  if keep_existing s (blockPath id) wf then s' = s
  else files s' !! blockPath id = Some file /\
    files s' = <[blockPath id := file]> (delete (tmpPath (blockPath id)) (files (enforce_limit s))).
Proof using All.
  intros Henv. unfold Put. destruct (keep_existing s _ _); [by eauto|].
  destruct (enforce_limit_sub s []) as (E1 & _ & _). rewrite !with_files_env, E1, Henv. cbn.
  eexists. split; [done|]. cbn. rewrite lookup_insert_eq. split; [done|].
  by rewrite delete_insert_eq.
Qed.

Lemma keep_existing_iff s p w :
  env s = io_ok ->
  (keep_existing s p w = true <-> exists h, readHeader s p = Ok h /\ w <= h_wf h).
Proof using.
  intros Henv. unfold keep_existing, readHeader, os_Open. rewrite Henv. cbn [io_open io_ok].
  destruct (files s !! p) as [d|]; [|split; [intros [=]|intros (h & [=] & _)]].
  destruct (ReadFull d flatHeaderSize) as [h|]; [|split; [intros [=]|intros (h & [=] & _)]].
  rewrite Z.leb_le. split; [eauto|by intros (h' & [= <-] & ?)].
Qed.

Lemma Get_file s i d :
  env s = io_ok -> files s !! blockPath i = Some d ->
  length d = (flatHeaderSize + PayloadSize)%nat ->
  Get s i = Ok (slice 0 StampSize d, slice flatHeaderSize PayloadSize d).
Proof using.
  intros Henv Hd Hlen. unfold Get, os_Open. rewrite Henv, Hd. cbn [io_open io_ok].
  unfold ReadFull. rewrite decide_False by lia. by rewrite (take_ge d) by lia.
Qed.

Lemma Get_Put_new s :
  env s = io_ok -> files s !! blockPath id = Some file ->
  Get s id = Ok (stamp, payload) /\ GetWorkFactor s id = Ok wf.
Proof using All.
  intros Henv Hf. pose proof (WorkFactor_range stamp payload). split.
  - rewrite (Get_file s id file) by (done || apply length_encode_file).
    by rewrite encode_file_stamp, encode_file_payload.
  - unfold GetWorkFactor.
    assert (readHeader s (blockPath id) = Ok (decode_header (take flatHeaderSize file))) as ->.
    { apply readHeader_Ok. rewrite Henv. split; [done|]. exists file. split_and!; [done| |done].
      rewrite length_encode_file. lia. }
    f_equal. cbn. rewrite slice_take by (unfold flatHeaderSize, StampSize; lia).
    assert (be_decode (slice StampSize 4 file) = be_decode (be_encode 4 (to_u32 wf))) as ->.
    { f_equal. unfold encode_file, is_Stamp, is_Payload, flatHeaderSize, StampSize in *.
      by read_field. }
    unfold to_u32. rewrite be_u32_roundtrip by (apply Z.mod_pos_bound; lia).
    apply Z.mod_small. lia.
Qed.
End Writing.

(** ** Disk usage *)

Lemma flatFileSize_Z : flatFileSize = 4120.
Proof. unfold flatFileSize, flatHeaderSize, StampSize. rewrite Nat2Z.inj_add, PayloadSize_Z. done. Qed.

Definition block_paths (s : FlatFileStore) : list path :=
  filter (fun p => block_name p = true) (walk_files s).

Definition usage (s : FlatFileStore) : Z := Z.of_nat (length (block_paths s)) * flatFileSize.

(** Every block file holds at least a header. *)
Definition readable (s : FlatFileStore) : Prop :=
  forall p d, block_name p = true -> files s !! p = Some d -> (flatHeaderSize <= length d)%nat.

Lemma block_paths_elem s p : p ∈ block_paths s <-> block_name p = true /\ is_Some (files s !! p).
Proof. unfold block_paths. by rewrite list_elem_of_filter, walk_files_elem. Qed.

Lemma block_paths_NoDup s : NoDup (block_paths s).
Proof. apply NoDup_filter, walk_files_NoDup. Qed.

Lemma diskUsage_ok s : env s = io_ok -> diskUsage s = Ok (usage s).
Proof. intros Henv. unfold diskUsage, WalkDir. by rewrite Henv. Qed.

Lemma candidates_paths s : env s = io_ok -> readable s ->
  fc_path <$> candidates s (walk_files s) = block_paths s.
Proof.
  intros Henv Hr. unfold candidates, block_paths.
  assert (forall p, p ∈ walk_files s -> is_Some (files s !! p)) as Hw
    by (intros p; by rewrite walk_files_elem).
  induction (walk_files s) as [|p ps IH]; [done|]. cbn [omap list_omap]. rewrite filter_cons.
  specialize (IH ltac:(set_solver)). destruct (block_name p) eqn:Ep;
    [rewrite decide_True by done|rewrite decide_False by done; apply IH].
  destruct (Hw p ltac:(set_solver)) as [d Hd].
  destruct (readHeader s p) as [h|e] eqn:E.
  - rewrite fmap_cons. f_equal. apply IH.
  - specialize (Hr p d Ep Hd).
    assert (readHeader s p = Ok (decode_header (take flatHeaderSize d))) as E';
      [|congruence]. apply readHeader_Ok. rewrite Henv. eauto.
Qed.

Section Usage.
Context `{GoSort, HashesLaws, GoFloat}.

(** Evicting [n] of the blocks leaves the others. *)
Lemma Evict_usage s n :
  env s = io_ok -> readable s -> 0 < n ->
  usage (fst (Evict n s)) = Z.max 0 (usage s - n * flatFileSize).
Proof.
  intros Henv Hr Hn. rewrite Evict_ok by done. cbn [fst].
  set (sorted := sort_Slice _ _). set (s' := with_files s _).
  assert (fc_path <$> sorted ≡ₚ block_paths s) as Hp
    by (unfold sorted; by rewrite sort_Slice_Permutation, candidates_paths).
  assert (block_paths s' ≡ₚ fc_path <$> drop (Z.to_nat n) sorted) as Hk.
  { pose proof (block_paths_NoDup s) as Hnd. rewrite <- Hp in Hnd.
    rewrite <- (take_drop (Z.to_nat n) sorted), fmap_app in Hnd.
    apply NoDup_app in Hnd as (Hn1 & Hdisj & Hn2).
    apply NoDup_Permutation; [apply block_paths_NoDup|done|]. intros p.
    rewrite block_paths_elem. cbn [files s' with_files]. rewrite drop_paths_lookup.
    assert (block_name p = true /\ is_Some (files s !! p)
            <-> p ∈ fc_path <$> take (Z.to_nat n) sorted \/ p ∈ fc_path <$> drop (Z.to_nat n) sorted)
      as Hiff.
    { by rewrite <- block_paths_elem, <- Hp, <- elem_of_app, <- fmap_app, take_drop. }
    case_decide as Hv; [|tauto]. specialize (Hdisj p Hv).
    split; [by intros [_ [? ?]]|done]. }
  unfold usage. rewrite Hk. apply Permutation_length in Hp. rewrite length_fmap in *.
  rewrite length_drop, Hp, flatFileSize_Z. lia.
Qed.

Lemma enforce_limit_usage s :
  env s = io_ok -> readable s -> 0 < storageLimit s ->
  usage (enforce_limit s) < Z.max (storageLimit s) flatFileSize.
Proof.
  intros Henv Hr Hl. unfold enforce_limit. rewrite diskUsage_ok by done.
  rewrite (proj2 (Z.ltb_lt 0 (storageLimit s))) by done.
  destruct (Z.leb_spec (storageLimit s) (usage s)) as [Hle|]; [|lia].
  pose proof flatFileSize_Z as Hf.
  set (n := (usage s - storageLimit s) / flatFileSize + 10 + 1).
  assert (0 < n) by (unfold n; rewrite Hf; Z.div_mod_to_equations; lia).
  rewrite Evict_usage by done. unfold n. rewrite Hf in *. Z.div_mod_to_equations. lia.
Qed.

Lemma Put_usage now stamp payload tag s :
  env s = io_ok -> readable s -> 0 < storageLimit s -> is_Stamp stamp -> is_Payload payload ->
  keep_existing s (blockPath (ComputeID payload)) (WorkFactor stamp payload) = false ->
  usage (fst (Put now stamp payload tag s)) < storageLimit s + flatFileSize.
Proof.
  intros Henv Hr Hl Hst Hpl Hk.
  destruct (Put_ok now stamp payload tag Hst Hpl s Henv) as (s' & -> & Hs').
  rewrite Hk in Hs'. destruct Hs' as [_ Hs']. cbn [fst].
  pose proof (enforce_limit_usage s Henv Hr Hl) as Hu.
  assert (length (block_paths s') <= S (length (block_paths (enforce_limit s))))%nat as Hlen.
  { apply (submseteq_length _ (blockPath (ComputeID payload) :: _)).
    apply NoDup_submseteq; [apply block_paths_NoDup|].
    intros p. rewrite elem_of_cons, !block_paths_elem, Hs'. intros [Hp [d Hd]].
    destruct (decide (p = blockPath (ComputeID payload))) as [|Hne]; [by left|right].
    rewrite lookup_insert_ne in Hd by done. apply lookup_delete_Some in Hd as [_ Hd]. eauto. }
  pose proof flatFileSize_Z as Hf.
  unfold usage in *. rewrite Hf in *. lia.
Qed.
End Usage.

(** A [Put] creates no other file than that of its block and the temporary one. *)
Lemma Put_new_files `{GoSort, Hashes, GoFloat} now stamp payload tag s p :
  is_Some (files (fst (Put now stamp payload tag s)) !! p) ->
  is_Some (files s !! p) \/ p = blockPath (ComputeID payload) \/ p = tmpPath (blockPath (ComputeID payload)).
Proof.
  intros [d Hd]. revert Hd. unfold Put. set (q := blockPath _).
  destruct (decide (p = q)) as [->|Hq]; [by auto|]. destruct (decide (p = tmpPath q)) as [->|Ht]; [by auto|].
  destruct (keep_existing s q _); [by eauto|].
  assert (files (enforce_limit s) !! p = Some d -> is_Some (files s !! p)) as Hs.
  { destruct (enforce_limit_sub s p) as (_ & _ & [->| ->]); [by eauto|done]. }
  destruct (io_mkdir _ _); [by eauto|].
  destruct (io_write _ _) as [[e written]|]; [cbn; rewrite left_over_ne by done; by eauto|].
  destruct (io_rename _ _); cbn.
  - destruct (io_remove _ _); rewrite ?lookup_delete_ne, lookup_insert_ne by done; by eauto.
  - rewrite lookup_insert_ne, lookup_delete_ne, lookup_insert_ne by done. by eauto.
Qed.

(** ** The contract of the backend *)

Section Contract.
Context `{GoSort, HashesLaws, GoFloat}.

(** C11: [Put] stores the block and never loses proof of work.  Without faults of
    the file system it returns the id of the payload; the work factor recorded
    afterwards is the larger of the old and the new one; a block that beats the
    recorded work factor is what [Get] then returns; every other id reads as
    before, or, only when a storage limit is set, as evicted. *)
Theorem flat_Put_spec now stamp payload tag s :
  env s = io_ok -> is_Stamp stamp -> is_Payload payload ->
  let id := ComputeID payload in
  let wf := WorkFactor stamp payload in
  let '(s', r) := Put now stamp payload tag s in
  r = Ok id /\
  (exists w', GetWorkFactor s' id = Ok w' /\ wf <= w' /\
     forall w, GetWorkFactor s id = Ok w -> w' = Z.max w wf) /\
  ((forall w, GetWorkFactor s id = Ok w -> w < wf) -> Get s' id = Ok (stamp, payload)) /\
  (forall i, is_ID i -> i <> id ->
     Get s' i = Get s i \/ (0 < storageLimit s /\ Get s' i = Err ErrNotFound)).
Proof.
  intros Henv Hst Hpl. cbn zeta.
  assert (forall i w, GetWorkFactor s i = Ok w <->
    exists h, readHeader s (blockPath i) = Ok h /\ w = h_wf h) as Hgw.
  { intros i w. unfold GetWorkFactor. destruct (readHeader s _) as [h|e]; [naive_solver|].
    case_match; naive_solver. }
  destruct (Put_ok now stamp payload tag Hst Hpl s Henv) as (s' & E & Hs'). rewrite E.
  split; [done|]. destruct (keep_existing s _ _) eqn:Ek.
  - subst s'. apply keep_existing_iff in Ek as (h & Hh & Hle); [|done].
    split; [|split; [|by auto]].
    + exists (h_wf h). split_and!; [apply Hgw; eauto|done|].
      intros w (h' & Hh' & ->)%Hgw. assert (h' = h) as -> by congruence. lia.
    + intros Hlt. assert (h_wf h < WorkFactor stamp payload) by (apply Hlt, Hgw; eauto). lia.
  - assert (env s' = env s) as Henv'.
    { pose proof (Put_files now stamp payload tag Hst Hpl s _ (block_name_blockPath _ (ComputeID_is_ID payload))) as Hf.
      rewrite E in Hf. tauto. }
    destruct Hs' as [Hfile Hfiles].
    destruct (Get_Put_new now stamp payload tag Hst Hpl s' ltac:(congruence) Hfile) as [Hget Hwf].
    split_and!; [|done|].
    + exists (WorkFactor stamp payload). split_and!; [done|lia|].
      intros w (h & Hh & ->)%Hgw. assert (~ WorkFactor stamp payload <= h_wf h); [|lia].
      intros Hle. assert (keep_existing s (blockPath (ComputeID payload)) (WorkFactor stamp payload) = true);
        [|congruence]. apply keep_existing_iff; eauto.
    + intros i Hi Hne.
      assert (blockPath i <> blockPath (ComputeID payload)) as Hpne by (intros ?%blockPath_inj; done).
      assert (files s' !! blockPath i = files (enforce_limit s) !! blockPath i) as Hl.
      { rewrite Hfiles, lookup_insert_ne, lookup_delete_ne; [done| |done].
        apply tmpPath_ne; apply block_name_blockPath; [apply ComputeID_is_ID|done]. }
      unfold Get, os_Open. rewrite Hl, Henv', Henv. cbn [io_open io_ok].
      destruct (Z.ltb_spec 0 (storageLimit s)) as [Hlim|Hlim].
      * destruct (enforce_limit_sub s (blockPath i)) as (_ & _ & [->| ->]); auto.
      * left. unfold enforce_limit. by rewrite (proj2 (Z.ltb_ge _ _)).
Qed.

(** C28: A [Put] is atomic whatever system call fails, a write that leaves a part of the
    data included.  Every block file afterwards is the one that was there, or was removed by
    eviction, or is the complete file of the new block, and then the call reported success. *)
Theorem flat_Put_atomic now stamp payload tag s p :
  is_Stamp stamp -> is_Payload payload -> block_name p = true ->
  let id := ComputeID payload in
  let wf := WorkFactor stamp payload in
  let '(s', r) := Put now stamp payload tag s in
  files s' !! p = files s !! p \/
  (files s' !! p = None /\ 0 < storageLimit s) \/
  (p = blockPath id /\ r = Ok id /\
   files s' !! p = Some (encode_file stamp wf (Unix now) (Unix (now + TTLFromWorkFactor wf)) payload)).
Proof.
  intros Hst Hpl Hp. cbn zeta.
  pose proof (Put_files now stamp payload tag Hst Hpl s p Hp) as Hf.
  destruct (Z.ltb_spec 0 (storageLimit s)) as [Hlim|Hlim].
  - destruct (Put now stamp payload tag s) as [s' r]. tauto.
  - assert (enforce_limit s = s) as Hen by (unfold enforce_limit; by rewrite (proj2 (Z.ltb_ge _ _))).
    destruct (Put now stamp payload tag s) as [s' r] eqn:E.
    destruct Hf as (_ & _ & [?|[?|[Hnone Hk]]]); [tauto|tauto|].
    left. revert E. unfold Put. rewrite Hk, Hen.
    assert (tmpPath (blockPath (ComputeID payload)) <> p) as Htmp
      by (apply tmpPath_ne; [apply block_name_blockPath, ComputeID_is_ID|done]).
    destruct (io_mkdir (env s) _); [by intros [= <- _]|].
    destruct (io_write (env s) _) as [[e written]|]; [intros [= <- _]; by apply left_over_ne|]. rewrite with_files_env.
    destruct (io_rename (env s) _); intros [= <- _]; cbn.
    + destruct (io_remove (env s) _); [|rewrite lookup_delete_ne by done];
        by rewrite lookup_insert_ne by done.
    + cbn in Hnone. destruct (decide (blockPath (ComputeID payload) = p)) as [<-|Hne].
      * by rewrite lookup_insert_eq in Hnone.
      * by rewrite lookup_insert_ne, lookup_delete_ne, lookup_insert_ne by done.
Qed.

(** [Evict n] removes exactly [min n k] of the [k] block files it can read,
    those whose logical expiry comes first, reports their number, and touches
    nothing else. *)
Theorem flat_Evict_spec n s :
  env s = io_ok -> 0 < n ->
  exists victims kept,
    candidates s (walk_files s) ≡ₚ victims ++ kept /\
    Z.of_nat (length victims) = Z.min n (Z.of_nat (length (victims ++ kept))) /\
    (forall v k, v ∈ victims -> k ∈ kept -> fc_expiresAt v <= fc_expiresAt k) /\
    let '(s', r) := Evict n s in
    r = Ok (Z.of_nat (length victims)) /\
    forall p, files s' !! p = if decide (p ∈ fc_path <$> victims) then None else files s !! p.
Proof.
  intros Henv Hn. rewrite Evict_ok by done.
  set (all := candidates s (walk_files s)). set (sorted := sort_Slice _ _).
  assert (sorted ≡ₚ all) as Hp by apply sort_Slice_Permutation.
  pose proof (sort_Slice_sorted (fun x y => fc_expiresAt x <? fc_expiresAt y) all _) as Hs.
  fold sorted in Hs. rewrite <- (take_drop (Z.to_nat n) sorted) in Hs.
  apply StronglySorted_app in Hs as (Hlt & _ & _).
  exists (take (Z.to_nat n) sorted), (drop (Z.to_nat n) sorted).
  rewrite take_drop, <- Hp, length_take. split_and!; [done|lia| |by rewrite Nat2Z.inj_min, Z2Nat.id by lia|].
  - intros v k Hv Hk. specialize (Hlt v k Hv Hk). cbn in Hlt. lia.
  - intros p. cbn. apply drop_paths_lookup.
Qed.

(** A [Put] that writes a block leaves the usage at most one file above the
    storage limit, when the block files present are readable. *)
Theorem flat_Put_usage now stamp payload tag s :
  env s = io_ok -> readable s -> 0 < storageLimit s -> is_Stamp stamp -> is_Payload payload ->
  keep_existing s (blockPath (ComputeID payload)) (WorkFactor stamp payload) = false ->
  let s' := fst (Put now stamp payload tag s) in
  exists u, diskUsage s' = Ok u /\ u < storageLimit s + flatFileSize.
Proof.
  intros Henv Hr Hl Hst Hpl Hk. exists (usage (fst (Put now stamp payload tag s))).
  split; [|by apply Put_usage]. apply diskUsage_ok.
  pose proof (Put_files now stamp payload tag Hst Hpl s _
    (block_name_blockPath _ (ComputeID_is_ID payload))) as Hf.
  destruct (Put now stamp payload tag s). cbn. by destruct Hf as [-> _].
Qed.

(** [Put] and [Evict] keep every block file at the path of its id, which is
    what the listing contract rests on. *)
Theorem flat_tidy_preserved now stamp payload tag n s :
  tidy s -> tidy (fst (Put now stamp payload tag s)) /\ tidy (fst (Evict n s)).
Proof.
  intros Ht. split.
  - intros p id [d Hd] Hn. destruct (Put_new_files now stamp payload tag s p) as [Hs| [->| ->]]; [by eauto| | |].
    + by apply Ht.
    + rewrite name_blockPath in Hn. rewrite name_id_hex in Hn by apply ComputeID_is_ID. congruence.
    + apply name_id_length in Hn as [Hn _]. rewrite name_tmpPath, length_app, name_blockPath in Hn.
      rewrite length_hex_encode, ComputeID_is_ID in Hn. cbn in Hn. lia.
  - intros p id [d Hd]. apply Ht. destruct (Evict_sub n s p) as (_ & _ & [E|E]);
      rewrite E in Hd; [by eauto|done].
Qed.

(** C27: A listing is the page of the index of readable block files, ordered by
    creation time and id, that follows the cursor; the token is that of the last
    entry of a full page and empty otherwise. *)
Theorem flat_ListBlocks_spec s token cur limit powFloor since :
  env s = io_ok -> tidy s -> 0 < limit -> valid_token (flat_index s) token cur ->
  let p := page (flat_index s) cur limit powFloor (Unix since) in
  (exists refs, ListBlocks s token limit powFloor since = Ok (page_token limit p, refs) /\
     ref_view <$> refs = entry_view <$> p) /\
  forall e, e ∈ flat_index s <->
    exists id h, is_ID id /\ readHeader s (blockPath id) = Ok h /\
      e = {| en_cursor := {| cur_createdAt := h_createdAt h; cur_id := id |}; en_wf := h_wf h |}.
Proof.
  intros Henv Ht Hl Htok. cbn zeta. split; [|intros e; by apply flat_index_elem].
  destruct (ListBlocks s token limit powFloor since) as [[next refs]|err] eqn:E.
  - destruct (flat_list_page s _ _ _ _ _ _ _ Ht Hl Htok E) as [-> Hv]. eauto.
  - exfalso. revert E. unfold ListBlocks. rewrite (parse_page_token_valid _ _ _ Htok).
    unfold WalkDir. rewrite Henv. cbn. by destruct (collect _ _ _ _ _).
Qed.

(** [BlockRef.Token] of a block this backend lists does not resume after the
    block: listings leave the creation time of their references at zero, so the
    token starts the listing over. *)
Theorem flat_Token_restarts s limit powFloor since next refs r :
  tidy s -> 0 < limit ->
  Forall (fun e => 0 < cur_createdAt (en_cursor e)) (flat_index s) ->
  ListBlocks s [] limit powFloor since = Ok (next, refs) -> r ∈ refs ->
  ListBlocks s (Token r) limit powFloor since = ListBlocks s [] limit powFloor since.
Proof.
  intros Ht Hl Hpos Hlist Hr.
  assert (exists e, e ∈ sorted_entries s /\ r = entry_ref e) as (e & Hin & ->).
  { revert Hlist. unfold ListBlocks, WalkDir. destruct (io_walk (env s)); [done|].
    change (parse_page_token []) with (Ok (None : option cursor)). cbn [mbind result_bind].
    rewrite scan_sorted, collect_spec by (done || cbn; lia). intros [= _ <-]. revert Hr.
    intros (e & -> & (i & Hi & _)%elem_of_take)%list_elem_of_fmap. exists e. split; [|done].
    by apply list_elem_of_lookup_2, list_elem_of_filter in Hi as [_ [_ ?]%list_elem_of_filter]. }
  assert (parse_page_token (Token (entry_ref e))
          = Ok (Some {| cur_createdAt := 0; cur_id := fe_id e |})) as Htok.
  { unfold parse_page_token. rewrite decide_False by apply encodeCursor_not_nil.
    unfold Token. rewrite cursor_roundtrip; [done|].
    pose proof (flat_index_wf s) as Hw. rewrite Forall_forall in Hw.
    destruct (Hw (to_entry e) ltac:(by apply list_elem_of_fmap_2)) as [_ ?].
    split; cbn; [unfold in_s64; lia|done]. }
  unfold ListBlocks. rewrite Htok.
  change (parse_page_token []) with (Ok (None : option cursor)). cbn [mbind result_bind].
  unfold WalkDir. destruct (io_walk (env s)); [done|]. rewrite scan_sorted by done.
  rewrite !collect_spec by (cbn; lia).
  assert (forall l : list flatEntry, (forall x, x ∈ l -> x ∈ sorted_entries s) ->
    filter (fun x => after (Some {| cur_createdAt := 0; cur_id := fe_id e |}) (to_entry x) = true) l
    = filter (fun x => after None (to_entry x) = true) l) as Hf.
  { intros l Hl'. apply filter_ext. intros x Hx. split; [done|intros _].
    rewrite Forall_forall in Hpos. specialize (Hpos (to_entry x)).
    apply lex_ltb_spec. left. apply Hpos. by apply list_elem_of_fmap_2, Hl'. }
  rewrite Hf; [done|]. by intros x [_ ?]%list_elem_of_filter.
Qed.
End Contract.

(** ** At concrete inputs *)

Module Demo.
#[local] Existing Instances ref_Hashes ref_HashesLaws ref_GoFloat.


(** An empty store with room for two blocks. *)
Definition empty : FlatFileStore := {| files := ∅; storageLimit := 9000; env := io_ok |}.

(** A store with one file: ref_stamp, work factor 7, created at 1000, expiring at 2000. *)
Definition file1 : bytes :=
  [x01; x02; x03; x04] ++ be_encode 4 7 ++ be_encode 8 1000 ++ be_encode 8 2000.
Definition one : FlatFileStore :=
  {| files := {[ blockPath ref_id := file1 ]}; storageLimit := 9000; env := io_ok |}.

Lemma tidy_one : tidy one.
Proof.
  intros p id [d Hd] Hn. cbn [files one] in Hd. apply lookup_singleton_Some in Hd as [<- _].
  rewrite name_blockPath, name_id_hex in Hn by reflexivity. by injection Hn as <-.
Qed.

Lemma one_index : flat_index one
  = [{| en_cursor := {| cur_createdAt := 1000; cur_id := ref_id |}; en_wf := 7 |}].
Proof. vm_compute. reflexivity. Qed.

Lemma flat_Put_spec_witness :
  exists s', Put 0 ref_stamp ref_payload TagLan empty = (s', Ok (ComputeID ref_payload)).
Proof.
  pose proof (flat_Put_spec 0 ref_stamp ref_payload TagLan empty eq_refl ref_stamp_ok ref_payload_ok) as Hp.
  cbv zeta in Hp. destruct (Put 0 ref_stamp ref_payload TagLan empty) as [s' r].
  destruct Hp as [Hr _]. exists s'. exact (f_equal (pair s') Hr).
Defined.

(** The header of a block without proof of work. *)
Definition file0 : bytes :=
  [x01; x02; x03; x04] ++ be_encode 4 0 ++ be_encode 8 1000 ++ be_encode 8 2000.

(** A disk that is full after ten bytes, under a store that has a worse stamp of the block. *)
Definition torn : FlatFileStore := {|
  files := {[ blockPath (ComputeID ref_payload) := file0 ]}; storageLimit := 0;
  env := {| io_open _ := None; io_walk := None; io_mkdir _ := None; io_write _ := Some (ErrEOF, Some 10%nat);
            io_rename _ := None; io_remove _ := None; io_create _ := None; io_stream _ := None; io_close _ := None |} |}.

Lemma flat_Put_atomic_witness :
  let '(s', r) := Put 0 ref_stamp ref_payload TagLan torn in
  is_ok r = false /\ files s' !! blockPath (ComputeID ref_payload) = Some file0.
Proof.
  pose proof (flat_Put_atomic 0 ref_stamp ref_payload TagLan torn (blockPath (ComputeID ref_payload)) ref_stamp_ok ref_payload_ok
    (block_name_blockPath _ (ComputeID_is_ID _))) as Hp. cbv zeta in Hp.
  assert (is_ok (snd (Put 0 ref_stamp ref_payload TagLan torn)) = false) as Hr by (vm_compute; reflexivity).
  destruct (Put 0 ref_stamp ref_payload TagLan torn) as [s' r]. cbn [snd] in Hr. split; [exact Hr|].
  destruct Hp as [Hp|[[_ Hp]|(_ & -> & _)]]; [rewrite Hp; apply lookup_singleton_eq|discriminate Hp|discriminate Hr].
Defined.

Lemma flat_Evict_spec_witness :
  exists k, snd (Evict 3 one) = Ok (Z.of_nat k) /\ Z.of_nat k = Z.min 3 1.
Proof.
  destruct (flat_Evict_spec 3 one eq_refl eq_refl) as (vs & ks & Hp & Hlen & _ & Hr).
  destruct (Evict 3 one) as [s' r]. destruct Hr as [Hr _]. exists (length vs).
  split; [exact Hr|]. rewrite Hlen, <- (Permutation_length Hp). vm_compute. reflexivity.
Defined.

Lemma flat_Put_usage_witness :
  exists u, diskUsage (fst (Put 0 ref_stamp ref_payload TagLan empty)) = Ok u /\ u < 9000 + flatFileSize.
Proof.
  apply (flat_Put_usage 0 ref_stamp ref_payload TagLan empty eq_refl); try reflexivity.
  intros p d _ H. cbn [files empty] in H. rewrite lookup_empty in H. discriminate.
Defined.

Lemma flat_tidy_preserved_witness : tidy (fst (Evict 1 one)).
Proof. exact (proj2 (flat_tidy_preserved 0 ref_stamp ref_payload TagLan 1 one tidy_one)). Defined.

Lemma flat_ListBlocks_spec_witness :
  exists refs, ListBlocks one [] 10 0 0 = Ok (page_token 10 (page (flat_index one) None 10 0 (Unix 0)), refs)
    /\ ref_view <$> refs = [(ref_id, 7)].
Proof.
  destruct (flat_ListBlocks_spec one [] None 10 0 0 eq_refl tidy_one eq_refl (token_start _))
    as [(refs & H1 & H2) _]. exists refs. split; [exact H1|]. rewrite H2, one_index. reflexivity.
Defined.

Lemma flat_Token_restarts_witness :
  ListBlocks one (Token {| br_WorkFactor := 7; br_ID := ref_id; br_CreatedAt := 0; br_Tag := 0 |}) 10 0 0
  = ListBlocks one [] 10 0 0.
Proof.
  eapply (flat_Token_restarts one 10 0 0); [apply tidy_one|reflexivity| |vm_compute; reflexivity|left].
  rewrite one_index. repeat constructor.
Defined.

Lemma one_inv : store_inv one.
Proof. exact tidy_one. Qed.

Lemma Unix_0_s64 : in_s64 (Unix 0).
Proof. split; [discriminate|reflexivity]. Qed.

(** The listings of this store answer every token a caller can hold. *)
Lemma one_answers limit powFloor since t c :
  0 < limit -> valid_token (store_index one) t c ->
  is_ok (store_ListBlocks 0 one t limit powFloor since) = true.
Proof.
  intros Hl Htok. cbn [store_ListBlocks FlatFile_Store]. unfold ListBlocks.
  rewrite (parse_page_token_valid one t c Htok). cbn. by destruct (collect _ _ _ _ _).
Qed.

Lemma page_loop_visits_all_witness :
  exists refs, ref_view <$> refs = [(ref_id, 7)] /\
    page_loop (fun t => store_ListBlocks 0 one t 1 0 0) (fun e _ => Err e)
      (fun r st => Ok (r :: st)) 3 [] [] = Some (Ok (foldl (fun st r => r :: st) [] refs)).
Proof.
  destruct (page_loop_visits_all (fun e _ => Err e) (fun r st => r :: st) 0 one 1 0 0 3 []
    one_inv eq_refl Unix_0_s64 (fun t c => one_answers 1 0 0 t c eq_refl)) as (refs & H1 & H2).
  - change (store_index one) with (flat_index one). rewrite one_index. cbn. lia.
  - exists refs. split; [|exact H2]. rewrite H1.
    change (store_index one) with (flat_index one). rewrite one_index. reflexivity.
Defined.

Lemma BloomOfStore_no_false_negatives_witness :
  exists b, BloomOfStore 0 one 2 = Some (Ok b) /\ wf_Bloom b.
Proof.
  destruct (BloomOfStore_no_false_negatives 0 one 2 one_inv
    (fun t c => one_answers 500 0 time_zero t c eq_refl)) as (b & H1 & H2 & _).
  - change (store_index one) with (flat_index one). rewrite one_index. cbn. lia.
  - exists b. split; [exact H1|exact H2].
Defined.
End Demo.
