(* ===== verification/Index.v ===== *)
(** The binary block index of [blockstore/index.go]: its record format, the scan
    of a flat-file store, the single-file and sharded writers, and queries by
    binary search.  Index files live in the same directory tree as the blocks.
    Compression is a parameter. *)
From Stdlib Require Import String.
From S2P Require Import Prelude Codec Block Store FlatFile.

(** [compress/zlib]: opening a stream, reading it to the end; what is read from a
    compressed stream is what was compressed. *)
Class Zlib := {
  zlib_compress : bytes -> bytes;
  zlib_NewReader : bytes -> option error;
  zlib_ReadAll : bytes -> result bytes;
}.
Class ZlibLaws `{Zlib} : Prop := {
  zlib_opens data : zlib_NewReader (zlib_compress data) = None;
  zlib_roundtrip data : zlib_ReadAll (zlib_compress data) = Ok data;
}.

Definition indexMagic : bytes := bs "SNK1".
Definition indexRecSize : nat := 38.
Definition shardThreshold : Z := 10000000.

Arguments indexRecSize : simpl never.

Record IndexRecord := { ir_ID : ID; ir_WorkFactor : Z; ir_ExpiresAt : Z }.

Definition isExpired (now : Z) (r : IndexRecord) : bool := ir_ExpiresAt r <? to_u32 (Unix now).

Record Index := { records : list IndexRecord }.

(** ** Queries *)

Fixpoint search_loop (fuel : nat) (recs : list IndexRecord) (id : ID) (lo hi : nat)
    : option IndexRecord :=
  match fuel with
  | O => None
  | S fuel' =>
      if (lo <? hi)%nat then
        let mid := ((lo + hi) / 2)%nat in
        match recs !! mid with
        | None => None
        | Some r =>
            match bytes_compare (ir_ID r) id with
            | Eq => Some r
            | Lt => search_loop fuel' recs id (mid + 1) hi
            | Gt => search_loop fuel' recs id lo mid
            end
        end
      else None
  end.

(** The interval shrinks in every round, so [n + 1] rounds are enough. *)
Definition search (idx : Index) (id : ID) : option IndexRecord :=
  let n := length (records idx) in search_loop (S n) (records idx) id 0 n.

Definition Has (now : Z) (idx : Index) (id : ID) : bool :=
  match search idx id with Some r => negb (isExpired now r) | None => false end.

Definition Records (now : Z) (idx : Index) : list IndexRecord :=
  filter (fun r => (to_u32 (Unix now) <? ir_ExpiresAt r) = true) (records idx).

Definition Len (idx : Index) : nat := length (records idx).

(** ** The record format *)

(** One round of the writing loop: [rec] is reused from round to round. *)
Definition write_record (rec : bytes) (r : IndexRecord) : bytes :=
  let rec := copy_at 0 (ir_ID r) rec in
  let rec := copy_at IDSize [byte_of_Z (ir_WorkFactor r)] rec in
  let rec := copy_at (IDSize + 1) (be_encode 4 (ir_ExpiresAt r)) rec in
  copy_at (IDSize + 5) [x00] rec.

Fixpoint encode_records (rec : bytes) (recs : list IndexRecord) : bytes :=
  match recs with
  | [] => []
  | r :: recs' => let rec := write_record rec r in rec ++ encode_records rec recs'
  end.

(** What [encodeIndex] feeds to the compressor. *)
Definition encodeIndex (recs : list IndexRecord) : bytes :=
  let hdr := copy_at 4 (be_encode 4 (to_u32 (Z.of_nat (length recs))))
               (copy_at 0 indexMagic (replicate 8 x00)) in
  hdr ++ encode_records (replicate indexRecSize x00) recs.

Definition decode_record (data : bytes) (i : nat) : IndexRecord :=
  let off := (i * indexRecSize)%nat in
  {| ir_ID := slice off IDSize data;
     ir_WorkFactor := be_decode (slice (off + IDSize) 1 data);
     ir_ExpiresAt := be_decode (slice (off + IDSize + 1) 4 data) |}.

Definition parseIndex (data : bytes) : result Index :=
  if (length data <? 8)%nat then Err (ErrText "blockstore: index: truncated header")
  else if negb (bool_decide (take 4 data = indexMagic)) then Err (ErrText "blockstore: index: bad magic")
  else
    let count := be_decode (slice 4 4 data) in
    let data := drop 8 data in
    if Z.of_nat (length data) <? count * Z.of_nat indexRecSize
    then Err (ErrText "blockstore: index: expected records")
    else Ok {| records := decode_record data <$> seq 0 (Z.to_nat count) |}.

(** ** Scanning a store *)

(** The record of one file. *)
Definition scan_file (now : Z) (s : FlatFileStore) (p : path) : option IndexRecord :=
  if block_name p then
    match readHeader s p with
    | Err _ => None
    | Ok h =>
        if to_u32 (h_expiresAt h) <? to_u32 (Unix now) then None
        else match name_id (name_of p) with
             | None => None
             | Some id => Some {| ir_ID := id; ir_WorkFactor := h_wf h mod 256;
                                  ir_ExpiresAt := to_u32 (h_expiresAt h) |}
             end
    end
  else None.

Definition scanRecords (now : Z) (s : FlatFileStore) : result (list IndexRecord) :=
  match WalkDir s with Err e => Err e | Ok ps => Ok (omap (scan_file now s) ps) end.

(** ** Writing index files *)

(** [os.Remove], whose failure is ignored. *)
Definition remove_quiet (s : FlatFileStore) (p : path) : FlatFileStore :=
  match io_remove (env s) p with
  | None => with_files s (delete p (files s))
  | Some _ => s
  end.

Definition writeSingleIndex `{Zlib} (s : FlatFileStore) (p : path) (recs : list IndexRecord)
    : FlatFileStore * result unit :=
  let tmp := tmpPath p in
  match io_create (env s) tmp with
  | Some e => (s, Err (ErrWrap "blockstore: index: create" e))
  | None =>
      match io_stream (env s) tmp with
      | Some (e, written) =>
          (remove_quiet (with_files s (<[tmp := written]> (files s))) tmp, Err e)
      | None =>
          let data := zlib_compress (encodeIndex recs) in
          let s := with_files s (<[tmp := data]> (files s)) in
          match io_close (env s) tmp with
          | Some e => (remove_quiet s tmp, Err e)
          | None =>
              match io_rename (env s) p with
              | Some e => (s, Err e)
              | None => (with_files s (<[p := data]> (delete tmp (files s))), Ok tt)
              end
          end
      end
  end.

Definition bin_suffix : bytes := bs ".bin".

(** [fmt.Sprintf("%02x.bin", b)] *)
Definition shard_file (b : byte) : bytes := hex_encode [b] ++ bin_suffix.
Definition ShardName (id : ID) : bytes := shard_file (default x00 (head id)).

Definition index_path : path := [bs "index.bin"].
Definition shard_path (b : byte) : path := [bs "index"; shard_file b].

(** The inner loop: the longest prefix of records whose id starts with [b]. *)
Fixpoint span_first (b : byte) (recs : list IndexRecord) : list IndexRecord * list IndexRecord :=
  match recs with
  | [] => ([], [])
  | r :: recs' =>
      if bool_decide (head (ir_ID r) = Some b)
      then let '(x, y) := span_first b recs' in (r :: x, y)
      else ([], recs)
  end.

Fixpoint shards_loop `{Zlib} (s : FlatFileStore) (bytes_left : list byte) (recs : list IndexRecord)
    : FlatFileStore * result unit :=
  match bytes_left with
  | [] => (s, Ok tt)
  | b :: bytes_left' =>
      let '(mine, rest) := span_first b recs in
      let '(s, r) := writeSingleIndex s (shard_path b) mine in
      match r with
      | Err e => (s, Err e)
      | Ok _ => shards_loop s bytes_left' rest
      end
  end.

Definition all_bytes : list byte := (fun n => byte_of_Z (Z.of_nat n)) <$> seq 0 256.

Definition writeShards `{Zlib} (s : FlatFileStore) (recs : list IndexRecord)
    : FlatFileStore * result unit :=
  match io_mkdir (env s) [bs "index"] with
  | Some e => (s, Err (ErrWrap "blockstore: index: shards mkdir" e))
  | None => shards_loop s all_bytes recs
  end.

Definition sort_records `{GoSort} (recs : list IndexRecord) : list IndexRecord :=
  sort_Slice (fun x y => bytes_ltb (ir_ID x) (ir_ID y)) recs.

Definition BuildIndex `{GoSort, Zlib} (now : Z) (s : FlatFileStore) : FlatFileStore * result unit :=
  match scanRecords now s with
  | Err e => (s, Err (ErrWrap "blockstore: index: scan" e))
  | Ok recs =>
      let recs := sort_records recs in
      if shardThreshold <=? Z.of_nat (length recs) then writeShards s recs
      else writeSingleIndex s index_path recs
  end.

Definition BuildShardedIndex `{GoSort, Zlib} (now : Z) (s : FlatFileStore)
    : FlatFileStore * result unit :=
  match scanRecords now s with
  | Err e => (s, Err (ErrWrap "blockstore: index: scan" e))
  | Ok recs => writeShards s (sort_records recs)
  end.

Definition OpenIndex `{Zlib} (s : FlatFileStore) (p : path) : result Index :=
  match os_Open s p with
  | Err e => Err (ErrWrap "blockstore: index: open" e)
  | Ok f =>
      match zlib_NewReader f with
      | Some e => Err (ErrWrap "blockstore: index: zlib" e)
      | None =>
          match zlib_ReadAll f with
          | Err e => Err (ErrWrap "blockstore: index: read" e)
          | Ok data => parseIndex data
          end
      end
  end.
