(* ===== verification/IndexFacts.v ===== *)
(** What the block index guarantees: the record format round trip, binary search
    as membership, and the contents of the index files against the store. *)
From Stdlib Require Import String.
From S2P Require Import Prelude Codec Block Store FlatFile FlatFileFacts Index.

(** ** Binary search *)

Abbreviation by_id := (fun x y => bytes_ltb (ir_ID y) (ir_ID x) = false).

Section Search.
Context (recs : list IndexRecord) (Hsorted : StronglySorted by_id recs) (id : ID).

(** Everything before [lo] is below the id and everything from [hi] on above it. *)
Definition below (lo : nat) : Prop :=
  forall i r, recs !! i = Some r -> (i < lo)%nat -> bytes_compare (ir_ID r) id = Lt.
Definition above (hi : nat) : Prop :=
  forall i r, recs !! i = Some r -> (hi <= i)%nat -> bytes_compare (ir_ID r) id = Gt.

Lemma sorted_lookup i j x y :
  recs !! i = Some x -> recs !! j = Some y -> (i < j)%nat -> bytes_ltb (ir_ID y) (ir_ID x) = false.
Proof using Hsorted.
  revert i j. induction Hsorted as [|r l Hl IH Hr]; intros i j Hi Hj Hlt; [done|].
  destruct j as [|j]; [lia|]. destruct i as [|i]; cbn in *.
  - injection Hi as <-. rewrite Forall_forall in Hr. by apply Hr, list_elem_of_lookup_2 with j.
  - apply (IH Hl i j); [done|done|lia].
Qed.

Lemma below_step mid r :
  recs !! mid = Some r -> bytes_compare (ir_ID r) id = Lt -> below (mid + 1).
Proof using Hsorted.
  intros Hm Hlt i x Hi Hle. destruct (decide (i = mid)) as [->|Hne]; [congruence|].
  pose proof (sorted_lookup i mid x r Hi Hm ltac:(lia)) as Hs.
  assert (bytes_ltb (ir_ID x) id = true) as Hb; [|unfold bytes_ltb in Hb; by case_match].
  assert (bytes_ltb (ir_ID r) id = true) as Hb by (unfold bytes_ltb; by rewrite Hlt).
  destruct (bytes_ltb (ir_ID x) (ir_ID r)) eqn:E; [by eapply bytes_ltb_trans|].
  by rewrite (bytes_ltb_total _ _ E Hs).
Qed.

Lemma above_step mid r :
  recs !! mid = Some r -> bytes_compare (ir_ID r) id = Gt -> above mid.
Proof using Hsorted.
  intros Hm Hgt i x Hi Hle. destruct (decide (i = mid)) as [->|Hne]; [congruence|].
  pose proof (sorted_lookup mid i r x Hm Hi ltac:(lia)) as Hs.
  assert (bytes_ltb id (ir_ID x) = true) as Hb.
  { assert (bytes_ltb id (ir_ID r) = true) as Hb
      by (unfold bytes_ltb; by rewrite bytes_compare_antisym, Hgt).
    destruct (bytes_ltb (ir_ID r) (ir_ID x)) eqn:E; [by eapply bytes_ltb_trans|].
    by rewrite <- (bytes_ltb_total _ _ E Hs). }
  unfold bytes_ltb in Hb. rewrite bytes_compare_antisym. by case_match.
Qed.

Lemma search_loop_spec fuel lo hi :
  (hi - lo < fuel)%nat -> (hi <= length recs)%nat -> below lo -> above hi ->
  match search_loop fuel recs id lo hi with
  | Some r => r ∈ recs /\ ir_ID r = id
  | None => forall r, r ∈ recs -> ir_ID r <> id
  end.
Proof using Hsorted.
  revert lo hi. induction fuel as [|fuel IH]; intros lo hi Hf Hhi Hb Ha; [lia|].
  cbn [search_loop]. destruct (Nat.ltb_spec lo hi) as [Hlt|Hge].
  - pose proof (Nat.div_mod_eq (lo + hi) 2). pose proof (Nat.mod_upper_bound (lo + hi) 2 ltac:(lia)).
    set (mid := ((lo + hi) / 2)%nat) in *.
    destruct (recs !! mid) as [r|] eqn:Em; [|apply lookup_ge_None in Em; lia].
    destruct (bytes_compare (ir_ID r) id) eqn:Ec.
    + apply bytes_compare_eq in Ec. split; [by eapply list_elem_of_lookup_2|done].
    + apply IH; [lia|lia|by eapply below_step|done].
    + apply IH; [lia|lia|done|by eapply above_step].
  - intros r [i Hi]%list_elem_of_lookup_1 Hid. destruct (decide (i < lo)%nat) as [Hl|Hl].
    + specialize (Hb i r Hi Hl). rewrite Hid, bytes_compare_refl in Hb. done.
    + specialize (Ha i r Hi ltac:(lia)). rewrite Hid, bytes_compare_refl in Ha. done.
Qed.
End Search.

Lemma search_spec idx id : StronglySorted by_id (records idx) ->
  match search idx id with
  | Some r => r ∈ records idx /\ ir_ID r = id
  | None => forall r, r ∈ records idx -> ir_ID r <> id
  end.
Proof.
  intros Hs. unfold search. apply search_loop_spec; [done|lia|lia| |].
  - intros i r _ Hi. lia.
  - intros i r Hi Hle. apply lookup_lt_Some in Hi. lia.
Qed.

(** ** The format *)

Definition wf_record (r : IndexRecord) : Prop :=
  is_ID (ir_ID r) /\ 0 <= ir_WorkFactor r < 256 /\ 0 <= ir_ExpiresAt r < 2 ^ 32.

Definition record_bytes (r : IndexRecord) : bytes :=
  ir_ID r ++ [byte_of_Z (ir_WorkFactor r)] ++ be_encode 4 (ir_ExpiresAt r) ++ [x00].

(** Whatever the buffer held, a round overwrites all of it. *)
Lemma write_record_bytes rec r :
  length rec = indexRecSize -> is_ID (ir_ID r) -> write_record rec r = record_bytes r.
Proof.
  unfold is_ID, indexRecSize. intros Hrec Hid. change IDSize with 32%nat in Hid. unfold write_record, record_bytes.
  assert (exists a b c d, rec = a ++ b ++ c ++ d /\ length a = 32%nat /\ length b = 1%nat /\
    length c = 4%nat /\ length d = 1%nat) as (a & b & c & d & -> & Ha & Hb & Hc & Hd).
  { exists (take 32 rec), (take 1 (drop 32 rec)), (take 4 (drop 1 (drop 32 rec))), (drop 4 (drop 1 (drop 32 rec))).
    split; [by rewrite !take_drop|len]. }
  set (id := ir_ID r) in *. set (w := [byte_of_Z _]). set (e := be_encode 4 _).
  assert (length e = 4%nat) as He by apply length_be_encode.
  assert (copy_at 0 id (a ++ b ++ c ++ d) = id ++ b ++ c ++ d) as ->
    by (apply (copy_at_mid 0 id []); [done|lia]).
  rewrite (copy_at_mid _ w id b (c ++ d)) by (done || unfold IDSize; cbn; lia).
  rewrite (app_assoc id w).
  rewrite (copy_at_mid _ e (id ++ w) c d) by (done || unfold w, IDSize; len).
  rewrite (app_assoc (id ++ w) e d), <- (app_nil_r d).
  rewrite (copy_at_mid _ [x00] ((id ++ w) ++ e) d []) by (done || unfold w, IDSize; len).
  by rewrite app_nil_r, <- !app_assoc.
Qed.

Lemma length_record_bytes r : is_ID (ir_ID r) -> length (record_bytes r) = indexRecSize.
Proof. intros H. unfold record_bytes. by rewrite !length_app, H, length_be_encode. Qed.

Lemma encode_records_bytes rec recs :
  length rec = indexRecSize -> Forall wf_record recs ->
  encode_records rec recs = concat (record_bytes <$> recs).
Proof.
  intros Hrec HF. revert rec Hrec. induction HF as [|r recs (Hid & _ & _) _ IH]; intros rec Hrec; [done|].
  cbn [encode_records]. rewrite write_record_bytes by done. cbn. f_equal.
  apply IH. by apply length_record_bytes.
Qed.

Lemma decode_record_head r rest :
  wf_record r -> decode_record (record_bytes r ++ rest) 0 = r.
Proof.
  intros (Hid & Hw & He). unfold decode_record, record_bytes. change (0 * indexRecSize)%nat with 0%nat.
  unfold is_ID in Hid. destruct r as [id w e]; cbn [ir_ID ir_WorkFactor ir_ExpiresAt] in *.
  rewrite <- !app_assoc. f_equal.
  - by apply (slice_mid 0 IDSize []).
  - rewrite (slice_mid _ _ id) by (done || lia). cbn. rewrite u8_byte_of_Z, Z.mod_small by lia. lia.
  - rewrite (app_assoc id), (slice_mid _ _ (id ++ [byte_of_Z w]))
      by (rewrite ?length_app, ?length_be_encode; cbn [length]; lia).
    by apply be_u32_roundtrip.
Qed.

Lemma decode_record_tail r rest i :
  is_ID (ir_ID r) -> decode_record (record_bytes r ++ rest) (S i) = decode_record rest i.
Proof.
  intros Hid. pose proof (length_record_bytes r Hid) as Hl. unfold decode_record.
  rewrite !slice_app_r by lia. rewrite Hl.
  replace (S i * indexRecSize - indexRecSize)%nat with (i * indexRecSize)%nat by lia.
  replace (S i * indexRecSize + IDSize - indexRecSize)%nat with (i * indexRecSize + IDSize)%nat by lia.
  by replace (S i * indexRecSize + IDSize + 1 - indexRecSize)%nat
    with (i * indexRecSize + IDSize + 1)%nat by lia.
Qed.

Lemma decode_records recs :
  Forall wf_record recs ->
  decode_record (concat (record_bytes <$> recs)) <$> seq 0 (length recs) = recs.
Proof.
  induction 1 as [|r recs Hr _ IH]; [done|]. cbn [length seq].
  rewrite <- fmap_S_seq, fmap_cons, <- list_fmap_compose. f_equal.
  - by apply decode_record_head.
  - etransitivity; [|apply IH]. apply list_fmap_ext. intros i j _. cbn.
    apply decode_record_tail, Hr.
Qed.

Lemma length_records recs : Forall wf_record recs ->
  length (concat (record_bytes <$> recs)) = (length recs * indexRecSize)%nat.
Proof.
  induction 1 as [|r recs (Hid & _ & _) _ IH]; [done|]. cbn.
  rewrite length_app, IH, length_record_bytes by done. lia.
Qed.

Lemma index_roundtrip recs :
  Forall wf_record recs -> Z.of_nat (length recs) < 2 ^ 32 ->
  parseIndex (encodeIndex recs) = Ok {| records := recs |}.
Proof.
  intros HF Hn. unfold encodeIndex.
  rewrite encode_records_bytes by (apply length_replicate || done).
  set (hdr := copy_at 4 _ _). set (body := concat _).
  assert (length hdr = 8%nat) as Hl by (subst hdr; len).
  unfold parseIndex. rewrite length_app, Hl. destruct (Nat.ltb_spec (8 + length body) 8); [lia|].
  assert (slice 0 4 (hdr ++ body) = indexMagic) as Hm.
  { rewrite slice_app_l by lia. unfold hdr. by read_field. }
  unfold slice in Hm. rewrite drop_0 in Hm. rewrite Hm, bool_decide_eq_true_2 by done. cbn [negb].
  assert (be_decode (slice 4 4 (hdr ++ body)) = Z.of_nat (length recs)) as ->.
  { rewrite slice_app_l by lia. unfold hdr. read_field. unfold to_u32.
    rewrite Z.mod_small by lia. apply be_u32_roundtrip. lia. }
  rewrite (drop_app_length' hdr body 8) by done.
  assert (length body = (length recs * indexRecSize)%nat) as Hb by by apply length_records.
  rewrite (proj2 (Z.ltb_ge _ _)) by lia. rewrite Nat2Z.id. unfold body. by rewrite decode_records.
Qed.

(** ** Scanning *)

Lemma scan_file_Some now s p r :
  scan_file now s p = Some r <->
  exists h, block_name p = true /\ readHeader s p = Ok h /\ name_id (name_of p) = Some (ir_ID r) /\
    to_u32 (Unix now) <= to_u32 (h_expiresAt h) /\
    ir_WorkFactor r = h_wf h mod 256 /\ ir_ExpiresAt r = to_u32 (h_expiresAt h).
Proof.
  unfold scan_file. split.
  - destruct (block_name p); [|done]. destruct (readHeader s p) as [h|]; [|done].
    destruct (Z.ltb_spec (to_u32 (h_expiresAt h)) (to_u32 (Unix now))); [done|].
    destruct (name_id _) as [id|]; [|done]. intros [= <-]. by exists h.
  - intros (h & -> & -> & -> & Hle & Hw & He). rewrite (proj2 (Z.ltb_ge _ _)) by done.
    destruct r. cbn in *. by subst.
Qed.

Definition scanned (now : Z) (s : FlatFileStore) : list IndexRecord :=
  omap (scan_file now s) (walk_files s).

(** In a tidy store the records are the unexpired headers at the paths of their ids. *)
Lemma scanned_elem now s r : tidy s ->
  (r ∈ scanned now s <->
   exists h, is_ID (ir_ID r) /\ readHeader s (blockPath (ir_ID r)) = Ok h /\
     to_u32 (Unix now) <= to_u32 (h_expiresAt h) /\
     ir_WorkFactor r = h_wf h mod 256 /\ ir_ExpiresAt r = to_u32 (h_expiresAt h)).
Proof.
  intros Ht. unfold scanned. rewrite list_elem_of_omap. setoid_rewrite scan_file_Some. split.
  - intros (p & Hp & h & Hb & Hh & Hn & Hr). apply walk_files_elem in Hp.
    rewrite (Ht p _ Hp Hn) in Hh. exists h. split; [by eapply name_id_length|done].
  - intros (h & Hid & Hh & Hr). exists (blockPath (ir_ID r)). split.
    + apply walk_files_elem. apply readHeader_Ok in Hh as (_ & d & -> & _). done.
    + exists h. rewrite name_blockPath. split_and!; try apply Hr.
      * by apply block_name_blockPath.
      * done.
      * by apply name_id_hex.
Qed.

Lemma scanned_wf now s : Forall wf_record (scanned now s).
Proof.
  apply Forall_forall. intros r (p & _ & Hr)%list_elem_of_omap.
  apply scan_file_Some in Hr as (h & _ & _ & Hn & _ & Hw & He).
  split_and!; [by eapply name_id_length|rewrite Hw; apply Z.mod_pos_bound; lia
              |rewrite Hw; apply Z.mod_pos_bound; lia|rewrite He; apply Z.mod_pos_bound; lia
              |rewrite He; apply Z.mod_pos_bound; lia].
Qed.

Lemma length_scanned now s : (length (scanned now s) <= length (walk_files s))%nat.
Proof. apply length_omap_le. Qed.

Section Sorted.
Context `{GoSort}.

Lemma sort_records_perm recs : sort_records recs ≡ₚ recs.
Proof. apply sort_Slice_Permutation. Qed.

Lemma sort_records_sorted recs : StronglySorted by_id (sort_records recs).
Proof. apply sort_Slice_sorted, _. Qed.
End Sorted.

(** A lookup in an index whose records are those scanned with ids satisfying [P]. *)
Lemma scanned_lookup now s recs id :
  tidy s -> is_ID id -> StronglySorted by_id recs ->
  (forall r, ir_ID r = id -> (r ∈ recs <-> r ∈ scanned now s)) ->
  forall r, search {| records := recs |} id = Some r <->
    exists h, readHeader s (blockPath id) = Ok h /\ to_u32 (Unix now) <= to_u32 (h_expiresAt h) /\
      r = {| ir_ID := id; ir_WorkFactor := h_wf h mod 256; ir_ExpiresAt := to_u32 (h_expiresAt h) |}.
Proof.
  intros Ht Hid Hs Hin r. pose proof (search_spec {| records := recs |} id Hs) as Hsp. cbn [records] in Hsp.
  assert (forall h, readHeader s (blockPath id) = Ok h -> to_u32 (Unix now) <= to_u32 (h_expiresAt h) ->
    {| ir_ID := id; ir_WorkFactor := h_wf h mod 256; ir_ExpiresAt := to_u32 (h_expiresAt h) |} ∈ recs) as Hex.
  { intros h Hh Hle. apply Hin; [done|]. apply scanned_elem; [done|]. by exists h. }
  assert (forall x, x ∈ recs -> ir_ID x = id -> exists h, readHeader s (blockPath id) = Ok h /\
    to_u32 (Unix now) <= to_u32 (h_expiresAt h) /\
    x = {| ir_ID := id; ir_WorkFactor := h_wf h mod 256; ir_ExpiresAt := to_u32 (h_expiresAt h) |}) as Hof.
  { intros x Hx E. apply Hin in Hx; [|done]. apply scanned_elem in Hx; [|done].
    destruct Hx as (h & _ & Hh & Hle & Hw & He). rewrite E in Hh. exists h. split_and!; [done|done|].
    destruct x. cbn in *. by subst. }
  split.
  - intros E. rewrite E in Hsp. destruct Hsp. by apply Hof.
  - intros (h & Hh & Hle & ->). destruct (search _ id) as [x|].
    + destruct Hsp as [Hx E]. destruct (Hof x Hx E) as (h' & Hh' & _ & ->). assert (h' = h) as -> by congruence. done.
    + by destruct (Hsp _ (Hex h Hh Hle)).
Qed.

(** ** Writing *)

Section Writer.
Context `{ZlibLaws}.

#[local] Abbreviation index_data := (fun recs => zlib_compress (encodeIndex recs)).

Lemma writeSingleIndex_ok s p recs :
  env s = io_ok ->
  writeSingleIndex s p recs
  = (with_files s (<[p := index_data recs]> (delete (tmpPath p) (files s))), Ok tt).
Proof using.
  intros Henv. unfold writeSingleIndex. rewrite !with_files_env, Henv. cbn.
  by rewrite delete_insert_eq.
Qed.

Lemma OpenIndex_ok s p recs :
  env s = io_ok -> files s !! p = Some (index_data recs) ->
  Forall wf_record recs -> Z.of_nat (length recs) < 2 ^ 32 ->
  OpenIndex s p = Ok {| records := recs |}.
Proof using All.
  intros Henv Hp HF Hn. unfold OpenIndex, os_Open. rewrite Henv, Hp. cbn [io_open io_ok].
  rewrite zlib_opens, zlib_roundtrip. by apply index_roundtrip.
Qed.
End Writer.

(** ** Shards *)

Definition first_is (b : byte) (r : IndexRecord) : Prop := head (ir_ID r) = Some b.

#[export] Instance first_is_dec b r : Decision (first_is b r).
Proof. unfold first_is. apply _. Defined.

(** The first byte of the id is at least [k]. *)
Definition first_ge (k : Z) (r : IndexRecord) : Prop := exists x, first_is x r /\ k <= u8 x.

Lemma by_id_first x y r1 r2 :
  by_id r1 r2 -> first_is x r1 -> first_is y r2 -> u8 x <= u8 y.
Proof.
  unfold first_is. destruct (ir_ID r1) as [|a l1], (ir_ID r2) as [|c l2]; try done. cbn.
  unfold bytes_ltb. cbn. intros Hs [= ->] [= ->].
  destruct (Z.compare_spec (u8 y) (u8 x)); lia.
Qed.

Lemma span_first_sorted b recs :
  StronglySorted by_id recs -> Forall (first_ge (u8 b)) recs ->
  span_first b recs = (filter (first_is b) recs, filter (fun r => ~ first_is b r) recs).
Proof.
  intros Hs. induction Hs as [|r recs Hs IH Hr]; [done|].
  intros [(x & Hx & Hbx) HF]%Forall_cons. cbn [span_first]. case_bool_decide as Hb.
  - rewrite IH by done. rewrite filter_cons_True by done. by rewrite filter_cons_False by auto.
  - assert (Forall (fun r => ~ first_is b r) recs) as Hno.
    { rewrite Forall_forall in Hr, HF |- *. intros y Hy Hby.
      pose proof (by_id_first x b r y (Hr y Hy) Hx Hby).
      assert (x = b) as -> by (apply u8_inj; lia). done. }
    rewrite filter_cons_False by done. rewrite (filter_cons_True (fun r => ~ first_is b r)) by done.
    rewrite filter_Forall_nil by done. by rewrite (filter_Forall_id (fun r => ~ first_is b r)).
Qed.

Definition bytes_from (k : nat) : list byte :=
  (fun n => byte_of_Z (Z.of_nat n)) <$> seq k (256 - k).

Lemma bytes_from_step k : (k < 256)%nat -> bytes_from k = byte_of_Z (Z.of_nat k) :: bytes_from (S k).
Proof.
  intros Hk. unfold bytes_from. replace (256 - k)%nat with (S (256 - S k)) by lia. done.
Qed.

Lemma bytes_from_elem k b : b ∈ bytes_from k <-> Z.of_nat k <= u8 b.
Proof.
  unfold bytes_from. rewrite list_elem_of_fmap. split.
  - intros (n & -> & [? ?]%elem_of_seq). rewrite u8_byte_of_Z, Z.mod_small by lia. lia.
  - intros Hk. pose proof (u8_range b). exists (Z.to_nat (u8 b)). split.
    + by rewrite Z2Nat.id, byte_of_Z_u8 by lia.
    + apply elem_of_seq. lia.
Qed.

Lemma shard_path_inj b1 b2 : shard_path b1 = shard_path b2 -> b1 = b2.
Proof.
  intros E%(f_equal name_of). change (shard_file b1 = shard_file b2) in E.
  unfold shard_file in E. apply app_inj_2 in E as [E _]; [|done]. apply hex_encode_inj in E. congruence.
Qed.

Lemma shard_path_tmp b1 b2 : tmpPath (shard_path b1) <> shard_path b2.
Proof.
  intros E%(f_equal (fun p => length (name_of p))). rewrite name_tmpPath, length_app in E.
  cbn in E. lia.
Qed.

Section Shards.
Context `{ZlibLaws}.

Lemma shards_loop_ok k s recs :
  (k <= 256)%nat -> env s = io_ok -> StronglySorted by_id recs -> Forall (first_ge (Z.of_nat k)) recs ->
  exists s', shards_loop s (bytes_from k) recs = (s', Ok tt) /\ env s' = io_ok /\
    (forall b, u8 b < Z.of_nat k -> files s' !! shard_path b = files s !! shard_path b) /\
    (forall b, Z.of_nat k <= u8 b ->
       files s' !! shard_path b = Some (zlib_compress (encodeIndex (filter (first_is b) recs)))).
Proof using.
  intros Hk. remember (256 - k)%nat as m eqn:Em. revert k Hk Em s recs.
  induction m as [|m IH]; intros k Hk Em s recs Henv Hs HF.
  { assert (k = 256%nat) as -> by lia. exists s. split_and!; [done|done|done|].
    intros b Hb. pose proof (u8_range b). lia. }
  rewrite bytes_from_step by lia. cbn [shards_loop].
  set (b := byte_of_Z (Z.of_nat k)). assert (u8 b = Z.of_nat k) as Hb
    by (unfold b; rewrite u8_byte_of_Z; apply Z.mod_small; lia).
  rewrite span_first_sorted by (done || by rewrite Hb). rewrite writeSingleIndex_ok by done.
  destruct (IH (S k) ltac:(lia) ltac:(lia)
    (with_files s (<[shard_path b := zlib_compress (encodeIndex (filter (first_is b) recs))]>
      (delete (tmpPath (shard_path b)) (files s))))
    (filter (fun r => ~ first_is b r) recs)) as (s' & Hl & He & Hlt & Hge).
  { done. }
  { by apply filter_StronglySorted. }
  { apply Forall_forall. intros r [Hnb Hr]%list_elem_of_filter. rewrite Forall_forall in HF.
    destruct (HF r Hr) as (x & Hx & Hkx). exists x. split; [done|].
    assert (x <> b) as Hne by (intros ->; done).
    assert (u8 x <> u8 b) by (by intros ?%u8_inj). lia. }
  exists s'. split_and!; [done|done| |].
  - intros c Hc. rewrite Hlt by lia. cbn [files with_files].
    rewrite lookup_insert_ne, lookup_delete_ne; [done|apply shard_path_tmp|].
    intros E%shard_path_inj. subst. lia.
  - intros c Hc. destruct (decide (c = b)) as [->|Hne].
    + rewrite Hlt by lia. cbn [files with_files]. apply lookup_insert_eq.
    + assert (u8 c <> u8 b) by (by intros ?%u8_inj). rewrite Hge by lia.
      rewrite filter_filter. do 3 f_equal. apply filter_ext. intros r _. split; [tauto|].
      intros Hc'. split; [done|]. unfold first_is in *. congruence.
Qed.
End Shards.

(** Writing index files changes files only. *)
Lemma remove_quiet_env s p : env (remove_quiet s p) = env s.
Proof. unfold remove_quiet. by destruct (io_remove (env s) p). Qed.

Lemma writeSingleIndex_env `{Zlib} s p recs : env (writeSingleIndex s p recs).1 = env s.
Proof.
  unfold writeSingleIndex. destruct (io_create _ _); [done|]. destruct (io_stream _ _) as [[e w]|]; cbn [fst]; [by rewrite remove_quiet_env|].
  destruct (io_close _ _); cbn [fst]; [by rewrite remove_quiet_env|]. by destruct (io_rename _ _).
Qed.

Lemma shards_loop_env `{Zlib} s l recs : env (shards_loop s l recs).1 = env s.
Proof.
  revert s recs. induction l as [|b l IH]; intros s recs; cbn [shards_loop]; [done|].
  destruct (span_first b recs) as [mine rest]. pose proof (writeSingleIndex_env s (shard_path b) mine) as E.
  destruct (writeSingleIndex s (shard_path b) mine) as [s' [u|e]]; [|done]. cbn [fst] in E. by rewrite IH.
Qed.

Lemma BuildIndex_env `{GoSort, Zlib} now s : env (BuildIndex now s).1 = env s.
Proof.
  unfold BuildIndex, writeShards. destruct (scanRecords now s) as [recs|]; [|done].
  case_match; [destruct (io_mkdir _ _); [done|apply shards_loop_env]|apply writeSingleIndex_env].
Qed.

(** Whatever fails, no block file is touched. *)
Lemma remove_quiet_frame s p q : q <> p -> files (remove_quiet s p) !! q = files s !! q.
Proof. intros Hq. unfold remove_quiet. destruct (io_remove (env s) p); [done|]. by apply lookup_delete_ne. Qed.

Lemma writeSingleIndex_frame `{Zlib} s p recs q : q <> p -> q <> tmpPath p ->
  files (writeSingleIndex s p recs).1 !! q = files s !! q.
Proof.
  intros Hp Ht. unfold writeSingleIndex. destruct (io_create _ _); [done|]. destruct (io_stream _ _) as [[e w]|]; cbn [fst].
  { rewrite remove_quiet_frame by done. by apply lookup_insert_ne. }
  destruct (io_close _ _); cbn [fst]; [rewrite remove_quiet_frame by done; by apply lookup_insert_ne|].
  destruct (io_rename _ _); cbn [fst files with_files]; [by apply lookup_insert_ne|].
  by rewrite lookup_insert_ne, lookup_delete_ne, lookup_insert_ne.
Qed.

Lemma block_name_ne q p : block_name q = true -> block_name p = false -> q <> p.
Proof. by intros Hq Hp ->; rewrite Hq in Hp. Qed.

Lemma shards_loop_frame `{Zlib} s l recs q : block_name q = true -> files (shards_loop s l recs).1 !! q = files s !! q.
Proof.
  intros Hq. revert s recs. induction l as [|b l IH]; intros s recs; cbn [shards_loop]; [done|].
  destruct (span_first b recs) as [mine rest].
  pose proof (writeSingleIndex_frame s (shard_path b) mine q (block_name_ne _ (shard_path b) Hq eq_refl) (block_name_ne _ (tmpPath (shard_path b)) Hq eq_refl)) as E.
  destruct (writeSingleIndex s (shard_path b) mine) as [s' [u|e]]; [|done]. cbn [fst] in E. by rewrite IH.
Qed.

Lemma BuildIndex_frame `{GoSort, Zlib} now s q : block_name q = true -> files (BuildIndex now s).1 !! q = files s !! q.
Proof.
  intros Hq. unfold BuildIndex, writeShards. destruct (scanRecords now s) as [recs|]; [|done].
  case_match; [destruct (io_mkdir _ _); [done|by apply shards_loop_frame]|].
  apply writeSingleIndex_frame; by apply block_name_ne.
Qed.

(** ** The contract of the index *)

(** What a lookup in an index built from the scan of a store gives. *)
Definition finds_scanned (now : Z) (s : FlatFileStore) (id : ID) (idx : Index) : Prop :=
  forall r, search idx id = Some r <->
    exists h, readHeader s (blockPath id) = Ok h /\ to_u32 (Unix now) <= to_u32 (h_expiresAt h) /\
      r = {| ir_ID := id; ir_WorkFactor := h_wf h mod 256; ir_ExpiresAt := to_u32 (h_expiresAt h) |}.

(** An id is reported exactly when its block had not expired then and has not now. *)
Lemma finds_scanned_Has now s id idx now' : finds_scanned now s id idx ->
  (Has now' idx id = true <->
   exists h, readHeader s (blockPath id) = Ok h /\
     to_u32 (Unix now) <= to_u32 (h_expiresAt h) /\ to_u32 (Unix now') <= to_u32 (h_expiresAt h)).
Proof.
  intros Hl. unfold Has, isExpired. destruct (search idx id) as [r|] eqn:Es.
  - rewrite negb_true_iff, Z.ltb_ge. destruct (proj1 (Hl r) Es) as (h & Hh & Hle & ->). cbn.
    split; [intros ?; by exists h|]. intros (h' & Hh' & _ & ?). by assert (h' = h) as <- by congruence.
  - split; [done|]. intros (h & Hh & Hle & _).
    enough (search idx id = Some {| ir_ID := id; ir_WorkFactor := h_wf h mod 256; ir_ExpiresAt := to_u32 (h_expiresAt h) |}) by congruence.
    apply Hl. by exists h.
Qed.

(** Shards written from the sorted scan. *)
Lemma writeShards_finds `{GoSort, ZlibLaws} now s :
  env s = io_ok -> tidy s -> Z.of_nat (length (walk_files s)) < 2 ^ 32 ->
  exists s', writeShards s (sort_records (scanned now s)) = (s', Ok tt) /\
    forall id, is_ID id -> exists idx, OpenIndex s' [bs "index"; ShardName id] = Ok idx /\ finds_scanned now s id idx.
Proof.
  intros Henv Ht Hn. unfold writeShards. rewrite Henv. cbn [io_mkdir io_ok].
  set (recs := sort_records (scanned now s)).
  assert (recs ≡ₚ scanned now s) as Hp by apply sort_records_perm.
  pose proof (length_scanned now s) as Hlen. pose proof (Permutation_length Hp) as Hlp.
  assert (Forall wf_record recs) as Hwf by (rewrite Hp; apply scanned_wf).
  destruct (shards_loop_ok 0 s recs ltac:(lia) Henv (sort_records_sorted _)) as (s' & Hl & He & _ & Hf).
  { apply Forall_forall. intros r Hr. rewrite Forall_forall in Hwf. destruct (Hwf r Hr) as (Hid & _).
    destruct (ir_ID r) as [|x l] eqn:E; [done|]. exists x. unfold first_is. rewrite E.
    split; [done|]. pose proof (u8_range x). lia. }
  change all_bytes with (bytes_from 0). exists s'. split; [done|]. intros id Hid.
  destruct id as [|b id']; [done|]. set (id := b :: id') in *.
  exists {| records := filter (first_is b) recs |}. split.
  - change [bs "index"; ShardName id] with (shard_path b). apply OpenIndex_ok; [done| | |].
    + apply Hf. pose proof (u8_range b). lia.
    + apply Forall_forall. intros r [_ Hr]%list_elem_of_filter. rewrite Forall_forall in Hwf. auto.
    + pose proof (length_filter (first_is b) recs). lia.
  - intros r. apply scanned_lookup; [done|done| |].
    + apply filter_StronglySorted, sort_records_sorted.
    + intros r' Hr. rewrite list_elem_of_filter, Hp. unfold first_is. rewrite Hr. tauto.
Qed.

(** The file of an index that tells of an id. *)
Definition index_file (sharded : bool) (id : ID) : path := if sharded then [bs "index"; ShardName id] else index_path.

(** [BuildIndex], in either layout. *)
Lemma BuildIndex_finds `{GoSort, ZlibLaws} now s :
  env s = io_ok -> tidy s -> Z.of_nat (length (walk_files s)) < 2 ^ 32 ->
  exists s', BuildIndex now s = (s', Ok tt) /\
    forall id, is_ID id -> exists idx,
      OpenIndex s' (index_file (shardThreshold <=? Z.of_nat (length (scanned now s))) id) = Ok idx /\ finds_scanned now s id idx.
Proof.
  intros Henv Ht Hn. unfold BuildIndex, scanRecords, WalkDir. rewrite Henv. cbn [io_walk io_ok].
  change (omap (scan_file now s) (walk_files s)) with (scanned now s). cbv zeta.
  assert (sort_records (scanned now s) ≡ₚ scanned now s) as Hp by apply sort_records_perm.
  pose proof (length_scanned now s) as Hlen. pose proof (Permutation_length Hp) as Hlp. rewrite Hlp.
  destruct (Z.leb_spec shardThreshold (Z.of_nat (length (scanned now s)))); [by apply writeShards_finds|].
  rewrite writeSingleIndex_ok by done. eexists. split; [done|]. intros id Hid. exists {| records := sort_records (scanned now s) |}. split.
  - apply OpenIndex_ok; [done|apply lookup_insert_eq| |lia]. rewrite Hp. apply scanned_wf.
  - intros r. apply scanned_lookup; [done|done|apply sort_records_sorted|]. intros r' _. by rewrite Hp.
Qed.


(** The records written to an index are the records read from it, and whatever
    is accepted starts with the magic and is long enough for the number of records
    it announces. *)
Theorem parseIndex_spec recs data idx :
  Forall wf_record recs -> Z.of_nat (length recs) < 2 ^ 32 ->
  parseIndex (encodeIndex recs) = Ok {| records := recs |} /\
  (parseIndex data = Ok idx ->
   take 4 data = indexMagic /\ Z.of_nat (Len idx) = be_decode (slice 4 4 data) /\
   (8 + Len idx * indexRecSize <= length data)%nat).
Proof.
  intros HF Hn. split; [by apply index_roundtrip|]. unfold parseIndex.
  destruct (Nat.ltb_spec (length data) 8); [done|]. case_bool_decide as Hm; [|done]. cbn [negb].
  case_match eqn:Hl; [done|]. apply Z.ltb_ge in Hl. intros [= <-]. unfold Len. cbn [records].
  rewrite length_fmap, length_seq. rewrite length_drop in Hl.
  pose proof (be_decode_range (slice 4 4 data)). split_and!; [done|lia|lia].
Qed.

(** [BuildIndex] then [OpenIndex] answers queries from the block headers, in either layout: an
    id is reported exactly when its block was readable and had not expired when the index was
    built and has not expired at the time of the query (times as 32-bit seconds); the block
    files are untouched. *)
Theorem BuildIndex_lookup `{GoSort, ZlibLaws} now s :
  env s = io_ok -> tidy s -> Z.of_nat (length (walk_files s)) < 2 ^ 32 ->
  exists s' sharded, BuildIndex now s = (s', Ok tt) /\
    (forall p, block_name p = true -> files s' !! p = files s !! p) /\
    forall id, is_ID id -> exists idx, OpenIndex s' (index_file sharded id) = Ok idx /\
      forall now', Has now' idx id = true <->
       exists h, readHeader s (blockPath id) = Ok h /\
         to_u32 (Unix now) <= to_u32 (h_expiresAt h) /\ to_u32 (Unix now') <= to_u32 (h_expiresAt h).
Proof.
  intros Henv Ht Hn. destruct (BuildIndex_finds now s Henv Ht Hn) as (s' & E & Hidx). eexists s', _. split; [exact E|]. split.
  - intros p Hp. pose proof (BuildIndex_frame now s p Hp) as Hf. by rewrite E in Hf.
  - intros id Hid. destruct (Hidx id Hid) as (idx & Ho & Hl). exists idx. split; [exact Ho|]. intros now'. by apply finds_scanned_Has.
Qed.

(** C30: [BuildShardedIndex] writes 256 index files, and the one named by [ShardName]
    of an id finds the record of the id exactly when the scan saw an unexpired
    readable block, with its work factor and expiry. *)
Theorem BuildShardedIndex_lookup `{GoSort, ZlibLaws} now s :
  env s = io_ok -> tidy s -> Z.of_nat (length (walk_files s)) < 2 ^ 32 ->
  exists s', BuildShardedIndex now s = (s', Ok tt) /\
    forall id, is_ID id ->
      exists idx, OpenIndex s' [bs "index"; ShardName id] = Ok idx /\
        forall r, search idx id = Some r <->
          exists h, readHeader s (blockPath id) = Ok h /\
            to_u32 (Unix now) <= to_u32 (h_expiresAt h) /\
            r = {| ir_ID := id; ir_WorkFactor := h_wf h mod 256;
                   ir_ExpiresAt := to_u32 (h_expiresAt h) |}.
Proof.
  intros Henv Ht Hn. unfold BuildShardedIndex, scanRecords, WalkDir. rewrite Henv. cbn [io_walk io_ok].
  change (omap (scan_file now s) (walk_files s)) with (scanned now s). by apply writeShards_finds.
Qed.

(** [Has] and [Records] of one index disagree at exactly one instant: the second
    in which a record expires, when [Has] still reports it and [Records] drops it. *)
Theorem Has_Records_boundary now idx id r :
  search idx id = Some r -> StronglySorted by_id (records idx) ->
  (Has now idx id = true /\ r ∉ Records now idx) <-> ir_ExpiresAt r = to_u32 (Unix now).
Proof.
  intros Hs Hsorted. unfold Has, isExpired. rewrite Hs, negb_true_iff, Z.ltb_ge.
  pose proof (search_spec idx id Hsorted) as Hsp. rewrite Hs in Hsp. destruct Hsp as [Hin _].
  unfold Records. rewrite list_elem_of_filter, Z.ltb_lt. split.
  - intros [H1 H2]. destruct (decide (to_u32 (Unix now) < ir_ExpiresAt r)); [tauto|lia].
  - intros ->. split; [lia|]. intros [? _]. lia.
Qed.

Module IndexDemo.
Import Demo.

Definition ref_Zlib : Zlib :=
  {| zlib_compress d := d; zlib_NewReader _ := None; zlib_ReadAll d := Ok d |}.
Lemma ref_ZlibLaws : @ZlibLaws ref_Zlib.
Proof. by split. Qed.
#[local] Existing Instances ref_Zlib ref_ZlibLaws.

Definition rec1 : IndexRecord := {| ir_ID := ref_id; ir_WorkFactor := 7; ir_ExpiresAt := 2000 |}.

Lemma parseIndex_spec_witness : parseIndex (encodeIndex [rec1]) = Ok {| records := [rec1] |}.
Proof.
  apply (parseIndex_spec [rec1] [] {| records := [] |}); [|reflexivity].
  repeat constructor; discriminate.
Defined.

(** The block of the demo store expires at second 2000. *)
Lemma BuildIndex_lookup_witness :
  exists s' sharded idx, BuildIndex (time_Unix 1500) one = (s', Ok tt) /\ OpenIndex s' (index_file sharded ref_id) = Ok idx /\
    Has (time_Unix 2000) idx ref_id = true.
Proof.
  destruct (BuildIndex_lookup (time_Unix 1500) one eq_refl tidy_one) as (s' & sharded & H1 & _ & H2).
  - vm_compute. reflexivity.
  - destruct (H2 ref_id eq_refl) as (idx & H3 & H4). exists s', sharded, idx. split; [exact H1|]. split; [exact H3|]. apply H4.
    eexists. split; [vm_compute; reflexivity|]. split; vm_compute; discriminate.
Defined.

Lemma BuildShardedIndex_lookup_witness :
  exists s' idx, BuildShardedIndex (time_Unix 1500) one = (s', Ok tt) /\
    OpenIndex s' [bs "index"; ShardName ref_id] = Ok idx /\ search idx ref_id = Some rec1.
Proof.
  destruct (BuildShardedIndex_lookup (time_Unix 1500) one eq_refl tidy_one) as (s' & H1 & H2).
  - vm_compute. reflexivity.
  - destruct (H2 ref_id eq_refl) as (idx & H3 & H4). exists s', idx. split; [exact H1|].
    split; [exact H3|]. apply H4. eexists. split; [vm_compute; reflexivity|].
    split; [vm_compute; discriminate|reflexivity].
Defined.

Lemma Has_Records_boundary_witness :
  Has (time_Unix 2000) {| records := [rec1] |} ref_id = true /\
  rec1 ∉ Records (time_Unix 2000) {| records := [rec1] |}.
Proof. apply (Has_Records_boundary _ _ _ rec1); [reflexivity|repeat constructor|reflexivity]. Defined.
End IndexDemo.
