(* ===== verification/Badger.v ===== *)
(** The main backend of [blockstore/badger.go]: blocks, a traversal index and
    tombstones in a transactional key-value store.  The key-value store is a
    library, hence a parameter: its operations are the class [Badger], what their
    documentation promises is the class [BadgerLaws]. *)
From Stdlib Require Import String.
From S2P Require Import Prelude Codec Block Store.

(** ** The key-value library *)

Inductive gc_outcome := GcDone | GcNoRewrite | GcFailed (e : error).

(** Operations of the library.  A transaction reads as of its start; [txn_SetEntry]
    takes an optional lifetime in nanoseconds; iterating yields the entries whose key
    has the prefix, from the start key on, in key order. *)
Class Badger := {
  DB : Type;
  Txn : Type;
  Item : Type;
  NewTransaction : Z -> DB -> Txn;
  txn_Get : Txn -> bytes -> result Item;
  item_Value : Item -> result bytes;
  txn_SetEntry : Txn -> bytes -> bytes -> option Z -> result Txn;
  txn_Delete : Txn -> bytes -> result Txn;
  txn_Iterate : Txn -> bytes -> bytes -> list (bytes * Item);
  txn_Commit : DB -> Txn -> DB * option error;
  db_Size : DB -> Z * Z;
  db_RunValueLogGC : DB -> DB * gc_outcome;
}.

(** A stored value and the second at which it expires, if any. *)
Abbreviation kv := (gmap bytes (bytes * option Z)).

Definition live_entry (now : Z) (e : bytes * option Z) : option bytes :=
  match snd e with
  | Some exp => if exp <=? Unix now then None else Some (fst e)
  | None => Some (fst e)
  end.

(** What is readable at a time. *)
Definition live (now : Z) (m : kv) : gmap bytes bytes := omap (live_entry now) m.

Definition has_prefix (pre k : bytes) : bool := bool_decide (take (length pre) k = pre).

Class BadgerLaws `{Badger} := {
  db_map : DB -> kv;
  txn_map : Txn -> kv;
  txn_now : Txn -> Z;
  txn_start now db : txn_map (NewTransaction now db) = db_map db /\ txn_now (NewTransaction now db) = now;
  txn_Get_Ok t k it : txn_Get t k = Ok it ->
    exists v, live (txn_now t) (txn_map t) !! k = Some v /\ forall v', item_Value it = Ok v' -> v' = v;
  txn_Get_foreign t k : txn_Get t k <> Err ErrNotFound;
  item_Value_foreign it : item_Value it <> Err ErrNotFound;
  txn_Get_missing t k : txn_Get t k = Err ErrKeyNotFound -> live (txn_now t) (txn_map t) !! k = None;
  txn_SetEntry_Ok t k v ttl t' : txn_SetEntry t k v ttl = Ok t' ->
    txn_now t' = txn_now t /\
    txn_map t' = <[k := (v, (fun d => Unix (txn_now t + d)) <$> ttl)]> (txn_map t);
  txn_Delete_Ok t k t' : txn_Delete t k = Ok t' ->
    txn_now t' = txn_now t /\ txn_map t' = delete k (txn_map t);
  txn_Delete_missing t k : txn_Delete t k = Err ErrKeyNotFound ->
    live (txn_now t) (txn_map t) !! k = None;
  txn_Iterate_sorted t pre start :
    StronglySorted (fun x y => bytes_ltb x.1 y.1 = true) (txn_Iterate t pre start);
  txn_Iterate_elem t pre start k :
    (exists it, (k, it) ∈ txn_Iterate t pre start) <->
    is_Some (live (txn_now t) (txn_map t) !! k) /\ has_prefix pre k = true /\ bytes_ltb k start = false;
  txn_Iterate_value t pre start k it v :
    (k, it) ∈ txn_Iterate t pre start -> item_Value it = Ok v ->
    live (txn_now t) (txn_map t) !! k = Some v;
  txn_Commit_Ok db t db' : txn_Commit db t = (db', None) -> db_map db' = txn_map t;
  txn_Commit_Err db t db' e : txn_Commit db t = (db', Some e) -> db_map db' = db_map db;
  db_GC_map db : db_map (fst (db_RunValueLogGC db)) = db_map db;
}.

(** [range] over a map visits its keys in an order that may differ each time. *)
Class GoMapRange := {
  range_keys : nat -> list Z -> list Z;
  range_keys_Permutation n l : range_keys n l ≡ₚ l;
}.

(** ** Keys and values *)

Definition blockPrefix : byte := x62.
Definition travPrefix : byte := x74.
Definition tombPrefix : byte := x78.

Definition blockValHeaderSize : nat := StampSize + 4 + 8 + 1.
Definition legacyBlockValHeaderSize : nat := StampSize + 4 + 8.
Definition defaultStorageLimit : Z := 10 * 1024 * 1024 * 1024.
Definition evictBatch : Z := 10.
Definition blockSize : Z := Z.of_nat (blockValHeaderSize + PayloadSize).

Arguments blockValHeaderSize : simpl never.
Arguments legacyBlockValHeaderSize : simpl never.

Definition blockKey (id : ID) : bytes :=
  copy_at 1 id (blockPrefix :: replicate IDSize x00).

Definition travKey (createdAt : Z) (id : ID) : bytes :=
  let key := travPrefix :: replicate (8 + IDSize) x00 in
  let createdAt := if createdAt <? 0 then 0 else createdAt in
  copy_at 9 id (copy_at 1 (be_encode 8 (to_u64 createdAt)) key).

Definition tombKey (id : ID) : bytes :=
  copy_at 1 id (tombPrefix :: replicate IDSize x00).

Definition encodeBlockVal (stamp : Stamp) (wf createdAt : Z) (tag : Tag) (payload : Payload) : bytes :=
  let val := replicate (blockValHeaderSize + PayloadSize) x00 in
  let val := copy_at 0 stamp val in
  let val := copy_at StampSize (be_encode 4 (to_u32 wf)) val in
  let val := copy_at (StampSize + 4) (be_encode 8 (to_u64 createdAt)) val in
  let val := copy_at (StampSize + 12) [byte_of_Z tag] val in
  copy_at blockValHeaderSize payload val.

Definition encodeTravVal (wf : Z) (tag : Tag) : bytes :=
  copy_at 4 [byte_of_Z tag] (copy_at 0 (be_encode 4 (to_u32 wf)) (replicate 5 x00)).

Section Ops.
Context `{Badger}.

Record BadgerStore := {
  db : DB;
  storageLimit : Z;
  reservations : gmap Tag Z;
  medianWF : Z;
}.

Definition with_db (s : BadgerStore) (d : DB) : BadgerStore :=
  {| db := d; storageLimit := storageLimit s; reservations := reservations s; medianWF := medianWF s |}.

(** [OpenBadger]: [opened] is the outcome of [badger.Open]. *)
Definition OpenBadger (opened : result DB) : result BadgerStore :=
  match opened with
  | Err e => Err (ErrWrap "blockstore: badger open" e)
  | Ok d => Ok {| db := d; storageLimit := 0; reservations := ∅; medianWF := 0 |}
  end.

Definition WithStorageLimit (s : BadgerStore) (bytes : Z) : BadgerStore :=
  {| db := db s; storageLimit := bytes; reservations := reservations s; medianWF := medianWF s |}.

Definition WithReservations (s : BadgerStore) (r : gmap Tag Z) : BadgerStore :=
  {| db := db s; storageLimit := storageLimit s; reservations := r; medianWF := medianWF s |}.

Definition DiskUsageBytes (s : BadgerStore) : Z :=
  let '(lsm, vlog) := db_Size (db s) in lsm + vlog.

Definition StorageLimitBytes (s : BadgerStore) : Z :=
  if storageLimit s =? 0 then defaultStorageLimit else storageLimit s.

(** [db.Update]: run the body in a transaction and commit unless it fails. *)
Definition db_Update (now : Z) (d : DB) (body : Txn -> result Txn) : DB * result unit :=
  match body (NewTransaction now d) with
  | Err e => (d, Err e)
  | Ok t => match txn_Commit d t with
            | (d', None) => (d', Ok tt)
            | (d', Some e) => (d', Err e)
            end
  end.

(** ** Reading *)

Definition corrupt_block_value : error := ErrText "blockstore: corrupt block value".

Definition GetWorkFactor (now : Z) (s : BadgerStore) (id : ID) : result Z :=
  let t := NewTransaction now (db s) in
  match txn_Get t (blockKey id) with
  | Err ErrKeyNotFound => Err ErrNotFound
  | Err e => Err e
  | Ok item =>
      val ← item_Value item;
      if (length val <? StampSize + 4)%nat then Err corrupt_block_value
      else Ok (be_decode (slice StampSize 4 val))
  end.

(** The body of [Get] on a value: both value layouts are accepted. *)
Definition decode_block (val : bytes) : result (Stamp * Payload) :=
  if (length val =? legacyBlockValHeaderSize + PayloadSize)%nat
  then Ok (slice 0 StampSize val, slice legacyBlockValHeaderSize PayloadSize val)
  else if (length val <? blockValHeaderSize + PayloadSize)%nat then Err corrupt_block_value
  else Ok (slice 0 StampSize val, slice blockValHeaderSize PayloadSize val).

Definition Get (now : Z) (s : BadgerStore) (id : ID) : result (Stamp * Payload) :=
  let t := NewTransaction now (db s) in
  match txn_Get t (blockKey id) with
  | Err ErrKeyNotFound => Err ErrNotFound
  | Err e => Err e
  | Ok item => val ← item_Value item; decode_block val
  end.

Definition Has (now : Z) (s : BadgerStore) (id : ID) : result bool :=
  let t := NewTransaction now (db s) in
  let err :=
    match txn_Get t (blockKey id) with
    | Ok _ => None
    | Err ErrKeyNotFound => match txn_Get t (tombKey id) with Ok _ => None | Err e => Some e end
    | Err e => Some e
    end in
  match err with
  | Some ErrKeyNotFound => Ok false
  | Some e => Err (ErrWrap "blockstore: has" e)
  | None => Ok true
  end.

Definition ListIDs (now : Z) (s : BadgerStore) : result (list ID) :=
  let t := NewTransaction now (db s) in
  Ok (omap (fun '(key, _) => if decide (length key = 1 + IDSize)%nat then Some (drop 1 key) else None)
        (txn_Iterate t [blockPrefix] [])).

(** ** Listing *)

(** The work factor and tag of a traversal value. *)
Definition decode_trav (val : bytes) : Z * Tag :=
  (if (4 <=? length val)%nat then be_decode (slice 0 4 val) else 0,
   if (5 <=? length val)%nat then be_decode (slice 4 1 val) else 0).

Definition trav_createdAt (key : bytes) : Z := to_s64 (be_decode (slice 1 8 key)).
Definition trav_id (key : bytes) : ID := slice 9 IDSize key.

Fixpoint list_loop (limit powFloor sinceUnix : Z) (items : list (bytes * Item))
    (refs : list BlockRef) (last : cursor) : result (list BlockRef * cursor) :=
  match items with
  | [] => Ok (refs, last)
  | (key, item) :: items' =>
      if negb (Z.of_nat (length refs) <? limit) then Ok (refs, last)
      else if negb (length key =? 1 + 8 + IDSize)%nat then list_loop limit powFloor sinceUnix items' refs last
      else
        let createdAt := trav_createdAt key in
        if createdAt <? sinceUnix then list_loop limit powFloor sinceUnix items' refs last
        else
          let id := trav_id key in
          val ← item_Value item;
          let '(wf, tag) := decode_trav val in
          if wf <? powFloor then list_loop limit powFloor sinceUnix items' refs last
          else list_loop limit powFloor sinceUnix items'
                 (refs ++ [{| br_WorkFactor := wf; br_ID := id; br_CreatedAt := createdAt; br_Tag := tag |}])
                 {| cur_createdAt := createdAt; cur_id := id |}
  end.

(** When resuming, the entry of the cursor itself is passed over. *)
Definition skip_cursor (cur : option cursor) (items : list (bytes * Item)) : list (bytes * Item) :=
  match cur, items with
  | Some c, (key, _) :: items' =>
      if (length key =? 1 + 8 + IDSize)%nat && (trav_createdAt key =? cur_createdAt c)
         && bool_decide (trav_id key = cur_id c)
      then items' else items
  | _, _ => items
  end.

Definition ListBlocks (now : Z) (s : BadgerStore) (pageToken : bytes) (limit powFloor since : Z)
    : result (bytes * list BlockRef) :=
  let sinceUnix := Unix since in
  let sinceUnix := if sinceUnix <? 0 then 0 else sinceUnix in
  cur ← (if decide (pageToken = []) then Ok None else Some <$> decodeCursor pageToken);
  let seek := match cur with Some c => c | None => {| cur_createdAt := sinceUnix; cur_id := replicate IDSize x00 |} end in
  let seekKey := travKey (cur_createdAt seek) (cur_id seek) in
  let t := NewTransaction now (db s) in
  let items := skip_cursor cur (txn_Iterate t [travPrefix] seekKey) in
  match list_loop limit powFloor sinceUnix items [] zero_cursor with
  | Err e => Err (ErrWrap "blockstore: listblocks" e)
  | Ok (refs, last) =>
      let nextToken := if Z.of_nat (length refs) =? limit then encodeCursor last else [] in
      Ok (nextToken, refs)
  end.

(** ** Storing *)

(** What the existing value says against the new work factor: [None] to keep it,
    otherwise the creation time whose traversal key is dropped. *)
Definition inspect_existing (existing : bytes) (wf : Z) : option Z :=
  if (StampSize + 4 + 8 <=? length existing)%nat then
    if wf <=? be_decode (slice StampSize 4 existing) then None
    else Some (to_s64 (be_decode (slice (StampSize + 4) 8 existing)))
  else Some 0.

Definition write_block (id : ID) (stamp : Stamp) (wf createdAt : Z) (tag : Tag) (payload : Payload)
    (t : Txn) : result Txn :=
  t ← txn_SetEntry t (blockKey id) (encodeBlockVal stamp wf createdAt tag payload) None;
  txn_SetEntry t (travKey createdAt id) (encodeTravVal wf tag) None.

Definition put_body (now : Z) (id : ID) (stamp : Stamp) (wf : Z) (tag : Tag) (payload : Payload)
    (t : Txn) : result Txn :=
  match txn_Get t (tombKey id) with
  | Ok _ => Ok t
  | Err ErrKeyNotFound =>
      let createdAt := Unix now in
      match txn_Get t (blockKey id) with
      | Ok item =>
          existing ← item_Value item;
          match inspect_existing existing wf with
          | None => Ok t
          | Some oldCreatedAt =>
              match txn_Delete t (travKey oldCreatedAt id) with
              | Ok t => write_block id stamp wf createdAt tag payload t
              | Err ErrKeyNotFound => write_block id stamp wf createdAt tag payload t
              | Err e => Err e
              end
          end
      | Err ErrKeyNotFound => write_block id stamp wf createdAt tag payload t
      | Err e => Err e
      end
  | Err e => Err e
  end.

(** ** Eviction *)

Record evictCandidate := { ec_id : ID; ec_createdAt : Z; ec_wf : Z; ec_tag : Tag }.

Definition decode_candidate (id : ID) (val : bytes) : evictCandidate :=
  {| ec_id := id;
     ec_createdAt := if (legacyBlockValHeaderSize + PayloadSize <=? length val)%nat
                     then to_s64 (be_decode (slice (StampSize + 4) 8 val)) else 0;
     ec_wf := if (legacyBlockValHeaderSize + PayloadSize <=? length val)%nat
              then be_decode (slice StampSize 4 val) else 0;
     ec_tag := if (blockValHeaderSize + PayloadSize <=? length val)%nat
               then be_decode (slice (StampSize + 12) 1 val) else 0 |}.

Fixpoint scan_candidates (items : list (bytes * Item)) : result (list evictCandidate) :=
  match items with
  | [] => Ok []
  | (key, item) :: items' =>
      if negb (length key =? 1 + IDSize)%nat then scan_candidates items'
      else
        val ← item_Value item;
        all ← scan_candidates items';
        Ok (decode_candidate (drop 1 key) val :: all)
  end.

Definition logicalExpiry `{GoFloat} (c : evictCandidate) : Z :=
  ec_createdAt c + Z.quot (TTLFromWorkFactor (ec_wf c)) second.

(** The state of the eviction loop. *)
Record queues := { perTag : gmap Tag (list evictCandidate); tagUsage : gmap Tag Z }.

Definition add_candidate (q : queues) (c : evictCandidate) : queues :=
  {| perTag := <[ec_tag c := default [] (perTag q !! ec_tag c) ++ [c]]> (perTag q);
     tagUsage := <[ec_tag c := default 0 (tagUsage q !! ec_tag c) + blockSize]> (tagUsage q) |}.

Definition sort_queues `{GoSort, GoFloat} (q : queues) : queues :=
  {| perTag := sort_Slice (fun x y => logicalExpiry x <? logicalExpiry y) <$> perTag q;
     tagUsage := tagUsage q |}.

Definition build_queues `{GoSort, GoFloat} (all : list evictCandidate) : queues :=
  sort_queues (foldl add_candidate {| perTag := ∅; tagUsage := ∅ |} all).

(** One step of the search for the tag furthest above its reservation; the state is
    the target found so far with its excess. *)
Definition consider (res : gmap Tag Z) (q : queues) (best : option (Tag * Z)) (t : Tag)
    : option (Tag * Z) :=
  match perTag q !! t with
  | None | Some [] => best
  | Some _ =>
      let over := default 0 (tagUsage q !! t) - default 0 (res !! t) in
      match best with
      | None => Some (t, over)
      | Some (_, maxOver) => if maxOver <? over then Some (t, over) else best
      end
  end.

Definition pick_target `{GoMapRange} (round : nat) (res : gmap Tag Z) (q : queues) : option Tag :=
  fst <$> foldl (consider res q) None (range_keys round ((map_to_list (tagUsage q)).*1)).

(** Taking the first candidate of the target. *)
Definition pop (q : queues) (target : Tag) : option (evictCandidate * queues) :=
  match perTag q !! target with
  | Some (c :: rest) =>
      Some (c, {| perTag := <[target := rest]> (perTag q);
                  tagUsage := <[target := default 0 (tagUsage q !! target) - blockSize]> (tagUsage q) |})
  | _ => None
  end.

Definition tombTTL `{GoFloat} (c : evictCandidate) : Z := to_s64 (2 * TTLFromWorkFactor (ec_wf c)).

(** Deletions of absent keys are not errors. *)
Definition delete_quiet (t : Txn) (key : bytes) : result Txn :=
  match txn_Delete t key with
  | Err ErrKeyNotFound => Ok t
  | r => r
  end.

Definition evict_body `{GoFloat} (c : evictCandidate) (t : Txn) : result Txn :=
  t ← delete_quiet t (blockKey (ec_id c));
  t ← delete_quiet t (travKey (ec_createdAt c) (ec_id c));
  txn_SetEntry t (tombKey (ec_id c)) [] (Some (tombTTL c)).

(** The loop; [fuel] bounds its rounds, each of which takes one candidate. *)
Fixpoint evict_loop `{GoFloat, GoMapRange} (fuel : nat) (now : Z) (res : gmap Tag Z) (d : DB)
    (q : queues) (n evicted : Z) : DB * (Z * option error) :=
  match fuel with
  | O => (d, (evicted, None))
  | S fuel' =>
      if n <=? evicted then (d, (evicted, None))
      else match pick_target fuel res q with
           | None => (d, (evicted, None))
           | Some target =>
               match pop q target with
               | None => (d, (evicted, None))
               | Some (c, q') =>
                   match db_Update now d (evict_body c) with
                   | (d', Err e) => (d', (evicted, Some (ErrWrap "blockstore: evict" e)))
                   | (d', Ok _) => evict_loop fuel' now res d' q' n (evicted + 1)
                   end
               end
           end
  end.

(** [Evict] returns the count with the error, as the code does. *)
Definition Evict `{GoSort, GoFloat, GoMapRange} (now n : Z) (s : BadgerStore)
    : BadgerStore * (Z * option error) :=
  if n <=? 0 then (s, (0, None))
  else
    match scan_candidates (txn_Iterate (NewTransaction now (db s)) [blockPrefix] []) with
    | Err e => (s, (0, Some (ErrWrap "blockstore: evict: scan" e)))
    | Ok all =>
        let '(d, r) := evict_loop (S (length all)) now (reservations s) (db s) (build_queues all) n 0 in
        (with_db s d, r)
    end.

Definition Put `{Hashes, GoSort, GoFloat, GoMapRange} (now : Z) (stamp : Stamp) (payload : Payload)
    (tag : Tag) (s : BadgerStore) : BadgerStore * result ID :=
  let id := ComputeID payload in
  let wf := WorkFactor stamp payload in
  match db_Update now (db s) (put_body now id stamp wf tag payload) with
  | (d, Err e) => (with_db s d, Err (ErrWrap "blockstore: put" e))
  | (d, Ok _) =>
      let s := with_db s d in
      let s :=
        if 0 <? storageLimit s then
          let usage := DiskUsageBytes s in
          if storageLimit s <? usage then
            let needed := Z.quot (usage - storageLimit s) blockSize + evictBatch in
            let needed := if needed <? 1 then 1 else needed in
            fst (Evict now needed s)
          else s
        else s in
      (s, Ok id)
  end.

Definition Prune (s : BadgerStore) : BadgerStore * result Z :=
  let '(d, r) := db_RunValueLogGC (db s) in
  (with_db s d, match r with GcFailed e => Err e | _ => Ok 0 end).

(** ** The median work factor *)

Fixpoint collect_wfs (items : list (bytes * Item)) : result (list Z) :=
  match items with
  | [] => Ok []
  | (_, item) :: items' =>
      val ← item_Value item;
      wfs ← collect_wfs items';
      Ok (if (4 <=? length val)%nat then be_decode (slice 0 4 val) :: wfs else wfs)
  end.

(** The indexing at the end of the computation; [None] where Go panics because the
    index is out of range. *)
Definition median_of `{GoSort} (limit : Z) (wfs : list Z) : option Z :=
  let limit := if limit =? 0 then defaultStorageLimit else limit in
  let capacity := Z.quot limit blockSize in
  let halfCapacity := Z.quot capacity 2 in
  if Z.of_nat (length wfs) <=? halfCapacity then Some 0
  else
    let sorted := sort_Slice Z.ltb wfs in
    let i := Z.of_nat (length wfs) - halfCapacity in
    if (0 <=? i) && (i <? Z.of_nat (length wfs)) then sorted !! Z.to_nat i else None.

Definition computeMedianWorkFactor `{GoSort} (now : Z) (s : BadgerStore) : option (result Z) :=
  match collect_wfs (txn_Iterate (NewTransaction now (db s)) [travPrefix] []) with
  | Err e => Some (Err (ErrWrap "blockstore: median work factor" e))
  | Ok wfs => Ok <$> median_of (storageLimit s) wfs
  end.

Definition MedianWorkFactor (s : BadgerStore) : result Z := Ok (medianWF s).

Definition set_median (s : BadgerStore) (wf : Z) : BadgerStore :=
  {| db := db s; storageLimit := storageLimit s; reservations := reservations s; medianWF := wf |}.

Definition RefreshMedian `{GoSort} (now : Z) (s : BadgerStore) : option (BadgerStore * result unit) :=
  match computeMedianWorkFactor now s with
  | None => None
  | Some (Err e) => Some (s, Err e)
  | Some (Ok wf) => Some (set_median s wf, Ok tt)
  end.

(** One round of the background updater. *)
Definition median_round `{GoSort} (now : Z) (s : BadgerStore) : option BadgerStore :=
  match computeMedianWorkFactor now s with
  | None => None
  | Some (Ok wf) => Some (set_median s wf)
  | Some (Err _) => Some s
  end.
End Ops.
Arguments BadgerStore {_}.
Arguments decode_trav : simpl never.
Arguments decode_block : simpl never.
Arguments decode_candidate : simpl never.
Arguments inspect_existing : simpl never.

(** The backend behind the interface; [Evict] there gives up the count on failure. *)
#[export] Instance Badger_Store `{Badger, Hashes, GoSort, GoFloat, GoMapRange} : Store BadgerStore := {
  store_Put := Put;
  store_Get := Get;
  store_GetWorkFactor := GetWorkFactor;
  store_Has := Has;
  store_ListIDs := ListIDs;
  store_ListBlocks := ListBlocks;
  store_Prune _ := Prune;
  store_Evict now n s :=
    let '(s', (k, e)) := Evict now n s in (s', match e with None => Ok k | Some e => Err e end);
}.
