(* ===== verification/BadgerFacts.v ===== *)
(** What the key-value backend guarantees: the key layout, the representation of a
    finite map of blocks by block and traversal entries, its preservation by every
    operation, and the listing contract of the [Store] interface. *)
From Stdlib Require Import String.
From S2P Require Import Prelude Codec Block Store Badger.

(** ** Keys *)

Definition in_created (z : Z) : Prop := 0 <= z < 2 ^ 63.

Lemma blockKey_eq id : is_ID id -> blockKey id = blockPrefix :: id.
Proof.
  intros H. unfold blockKey. change (?x :: ?l) with ([x] ++ l) at 1.
  rewrite <- (app_nil_r (replicate _ _)). rewrite copy_at_mid; [by rewrite app_nil_r|done|].
  by rewrite H, length_replicate.
Qed.

Lemma tombKey_eq id : is_ID id -> tombKey id = tombPrefix :: id.
Proof.
  intros H. unfold tombKey. change (?x :: ?l) with ([x] ++ l) at 1.
  rewrite <- (app_nil_r (replicate _ _)). rewrite copy_at_mid; [by rewrite app_nil_r|done|].
  by rewrite H, length_replicate.
Qed.

Lemma travKey_eq ca id : is_ID id -> in_created ca -> travKey ca id = travPrefix :: be_encode 8 ca ++ id.
Proof.
  intros H [Hc1 Hc2]. unfold travKey. rewrite (proj2 (Z.ltb_ge _ _)) by lia.
  unfold to_u64. rewrite Z.mod_small by lia.
  replace (replicate (8 + IDSize) x00) with (replicate 8 x00 ++ replicate IDSize x00) by done.
  change (travPrefix :: ?l) with ([travPrefix] ++ l) at 1.
  rewrite copy_at_mid; [|done|by rewrite length_be_encode, length_replicate].
  rewrite app_assoc. rewrite <- (app_nil_r (replicate _ _)), copy_at_mid; [by rewrite app_nil_r|..].
  - by rewrite length_app, length_be_encode.
  - by rewrite H, length_replicate.
Qed.

Lemma be_encode_inj n x y : 0 <= x < 256 ^ Z.of_nat n -> 0 <= y < 256 ^ Z.of_nat n ->
  be_encode n x = be_encode n y -> x = y.
Proof.
  intros Hx Hy E%(f_equal be_decode). rewrite !be_decode_encode, !Z.mod_small in E; lia.
Qed.

Lemma be8_created ca : in_created ca -> 0 <= ca < 256 ^ Z.of_nat 8.
Proof. unfold in_created. change (256 ^ Z.of_nat 8) with (2 ^ 64). lia. Qed.

Lemma travKey_inj ca1 id1 ca2 id2 : is_ID id1 -> is_ID id2 -> in_created ca1 -> in_created ca2 ->
  travKey ca1 id1 = travKey ca2 id2 -> ca1 = ca2 /\ id1 = id2.
Proof.
  intros H1 H2 Hc1 Hc2. rewrite !travKey_eq by done. intros E%(f_equal tail).
  change (be_encode 8 ca1 ++ id1 = be_encode 8 ca2 ++ id2) in E. apply app_inj_1 in E as [E ->]; [|by rewrite !length_be_encode].
  split; [|done]. by eapply be_encode_inj; [apply be8_created..|].
Qed.

Lemma blockKey_inj id1 id2 : is_ID id1 -> is_ID id2 -> blockKey id1 = blockKey id2 -> id1 = id2.
Proof. intros H1 H2. rewrite !blockKey_eq by done. by intros [=]. Qed.

Lemma travKey_id ca id : is_ID id -> in_created ca ->
  length (travKey ca id) = (1 + 8 + IDSize)%nat /\ trav_createdAt (travKey ca id) = ca /\
  trav_id (travKey ca id) = id.
Proof.
  intros H Hc. rewrite travKey_eq by done. unfold trav_createdAt, trav_id. split_and!.
  - cbn [length]. by rewrite length_app, length_be_encode, H.
  - change (travPrefix :: ?l ++ id) with ([travPrefix] ++ l ++ id).
    rewrite slice_mid by (rewrite ?length_be_encode; done).
    apply be_s64_roundtrip. unfold in_s64, in_created in *. lia.
  - change (travPrefix :: ?l ++ id) with ((travPrefix :: l) ++ id).
    rewrite <- (app_nil_r id) at 1. apply slice_mid; [cbn [length]; by rewrite length_be_encode|done].
Qed.

(** The order of traversal keys is the order (created_at, id) of listings. *)
Lemma bytes_ltb_app2 a1 a2 b1 b2 : length a1 = length a2 ->
  bytes_ltb (a1 ++ b1) (a2 ++ b2) = bytes_ltb a1 a2 || (bool_decide (a1 = a2) && bytes_ltb b1 b2).
Proof.
  revert a2. induction a1 as [|x a1 IH]; intros [|y a2] Hl; cbn [length] in Hl; try lia; [done|].
  injection Hl as Hl. specialize (IH a2 Hl). unfold bytes_ltb in *. cbn.
  destruct (Z.compare_spec (u8 x) (u8 y)) as [E|E|E].
  - apply u8_inj in E as ->. rewrite IH. f_equal. f_equal.
    apply bool_decide_ext. split; [by intros ->|by intros [=]].
  - done.
  - rewrite bool_decide_eq_false_2; [done|]. intros [= -> _]. lia.
Qed.

Lemma travKey_order ca1 id1 ca2 id2 : is_ID id1 -> is_ID id2 -> in_created ca1 -> in_created ca2 ->
  bytes_ltb (travKey ca1 id1) (travKey ca2 id2) = lex_ltb (ca1, id1) (ca2, id2).
Proof.
  intros H1 H2 Hc1 Hc2. rewrite !travKey_eq by done.
  etransitivity; [apply (bytes_ltb_app [travPrefix])|].
  rewrite bytes_ltb_app2 by by rewrite !length_be_encode.
  rewrite bytes_ltb_be_decode by by rewrite !length_be_encode.
  rewrite !be_decode_encode, !Z.mod_small by by apply be8_created.
  unfold lex_ltb. cbn [fst snd]. f_equal. f_equal.
  apply eq_true_iff_eq. rewrite bool_decide_eq_true, Z.eqb_eq. split; [|by intros ->].
  apply be_encode_inj; by apply be8_created.
Qed.

(** ** Values *)

(** A stored block. *)
Record stored := { st_stamp : Stamp; st_wf : Z; st_createdAt : Z; st_tag : Tag; st_payload : Payload }.

Definition wf_stored (r : stored) : Prop :=
  is_Stamp (st_stamp r) /\ is_Payload (st_payload r) /\ 0 <= st_wf r < 2 ^ 32 /\
  in_created (st_createdAt r) /\ is_Tag (st_tag r).

Definition block_val (r : stored) : bytes :=
  encodeBlockVal (st_stamp r) (st_wf r) (st_createdAt r) (st_tag r) (st_payload r).
Definition trav_val (r : stored) : bytes := encodeTravVal (st_wf r) (st_tag r).
Definition trav_key (id : ID) (r : stored) : bytes := travKey (st_createdAt r) id.
Definition candidate (id : ID) (r : stored) : evictCandidate :=
  {| ec_id := id; ec_createdAt := st_createdAt r; ec_wf := st_wf r; ec_tag := st_tag r |}.

Section Values.
Context (r : stored) (Hr : wf_stored r).

Lemma length_block_val : length (block_val r) = (blockValHeaderSize + PayloadSize)%nat.
Proof using.
  unfold block_val, encodeBlockVal, blockValHeaderSize, StampSize. len.
Qed.

Ltac open_val :=
  destruct Hr as (Hs & Hp & Hw & Hc & Ht);
  unfold block_val, encodeBlockVal, is_Stamp, is_Payload, blockValHeaderSize, StampSize in *.

Lemma block_val_wf : be_decode (slice StampSize 4 (block_val r)) = st_wf r.
Proof using Hr.
  open_val. read_field. unfold to_u32. rewrite Z.mod_small by done. by apply be_u32_roundtrip.
Qed.

Lemma block_val_createdAt : to_s64 (be_decode (slice (StampSize + 4) 8 (block_val r))) = st_createdAt r.
Proof using Hr.
  open_val. read_field. unfold to_u64, in_created in *. rewrite Z.mod_small by lia.
  apply be_s64_roundtrip. unfold in_s64. lia.
Qed.

Lemma block_val_tag : be_decode (slice (StampSize + 12) 1 (block_val r)) = st_tag r.
Proof using Hr.
  open_val. read_field. unfold is_Tag in Ht. cbn. rewrite u8_byte_of_Z, Z.mod_small by lia. lia.
Qed.

Lemma decode_block_val : decode_block (block_val r) = Ok (st_stamp r, st_payload r).
Proof using Hr.
  unfold decode_block. rewrite length_block_val.
  assert (legacyBlockValHeaderSize <> blockValHeaderSize)%nat as Hne by done.
  rewrite (proj2 (Nat.eqb_neq _ _)) by lia. rewrite (proj2 (Nat.ltb_ge _ _)) by lia.
  open_val. f_equal. f_equal; by read_field.
Qed.

Lemma decode_candidate_val id : decode_candidate id (block_val r) = candidate id r.
Proof using Hr.
  unfold decode_candidate, candidate. rewrite length_block_val.
  assert (legacyBlockValHeaderSize <= blockValHeaderSize)%nat by (apply Nat.leb_le; reflexivity).
  rewrite !(proj2 (Nat.leb_le _ _)) by lia.
  by rewrite block_val_createdAt, block_val_wf, block_val_tag.
Qed.

Lemma inspect_existing_val wf :
  inspect_existing (block_val r) wf = if wf <=? st_wf r then None else Some (st_createdAt r).
Proof using Hr.
  unfold inspect_existing. rewrite length_block_val.
  assert (StampSize + 4 + 8 <= blockValHeaderSize)%nat by (apply Nat.leb_le; reflexivity).
  rewrite !(proj2 (Nat.leb_le _ _)) by lia. by rewrite block_val_createdAt, block_val_wf.
Qed.

Lemma decode_trav_val : decode_trav (trav_val r) = (st_wf r, st_tag r).
Proof using Hr.
  destruct Hr as (_ & _ & Hw & _ & Ht). unfold is_Tag in Ht. unfold decode_trav, trav_val, encodeTravVal.
  assert (length (copy_at 4 [byte_of_Z (st_tag r)]
    (copy_at 0 (be_encode 4 (to_u32 (st_wf r))) (replicate 5 x00))) = 5%nat) as -> by len.
  cbn [Nat.leb]. f_equal.
  - read_field. unfold to_u32. rewrite Z.mod_small by done. by apply be_u32_roundtrip.
  - read_field. cbn. rewrite u8_byte_of_Z, Z.mod_small by lia. lia.
Qed.
End Values.

(** ** The representation of a map of blocks

    Every block has one block entry and one traversal entry, at the key of its
    creation time, both without expiry; nothing else lies under these prefixes. *)

Definition starts (b : byte) (k : bytes) : Prop := head k = Some b.

Definition rep (m : kv) (bl : gmap ID stored) : Prop :=
  (forall id r, bl !! id = Some r -> is_ID id /\ wf_stored r) /\
  (forall k e, starts blockPrefix k ->
     (m !! k = Some e <-> exists id r, bl !! id = Some r /\ k = blockKey id /\ e = (block_val r, None))) /\
  (forall k e, starts travPrefix k ->
     (m !! k = Some e <-> exists id r, bl !! id = Some r /\ k = trav_key id r /\ e = (trav_val r, None))).

Lemma starts_block id : starts blockPrefix (blockKey id).
Proof. done. Qed.
Lemma starts_trav ca id : starts travPrefix (travKey ca id).
Proof. done. Qed.
Lemma starts_tomb id : starts tombPrefix (tombKey id).
Proof. done. Qed.

Lemma starts_ne a b k1 k2 : starts a k1 -> starts b k2 -> a <> b -> k1 <> k2.
Proof. unfold starts. congruence. Qed.

Ltac keys_ne := by eapply starts_ne; [apply starts_block || apply starts_trav || apply starts_tomb || eassumption
                                     |apply starts_block || apply starts_trav || apply starts_tomb || eassumption|].

Lemma rep_empty : rep ∅ ∅.
Proof.
  split_and!; [intros id r Hl; by rewrite lookup_empty in Hl|..]; intros k e _; rewrite lookup_empty;
    (split; [intros [=]|intros (id & r & Hl & _); by rewrite lookup_empty in Hl]).
Qed.

Section Rep.
Context (m : kv) (bl : gmap ID stored) (Hrep : rep m bl).

Lemma rep_wf id r : bl !! id = Some r -> is_ID id /\ wf_stored r.
Proof using Hrep. apply Hrep. Qed.

Lemma rep_created id r : bl !! id = Some r -> in_created (st_createdAt r).
Proof using Hrep. intros Hl. apply rep_wf in Hl as (_ & _ & _ & _ & Hc & _). done. Qed.

Lemma rep_block_key now id : is_ID id -> live now m !! blockKey id = block_val <$> bl !! id.
Proof using Hrep.
  intros Hid. destruct Hrep as (Hwf & Hb & _). unfold live. rewrite lookup_omap.
  destruct (bl !! id) as [r|] eqn:E; cbn.
  - assert (m !! blockKey id = Some (block_val r, None)) as -> by (apply Hb; [done|eauto]). done.
  - destruct (m !! blockKey id) as [e|] eqn:Em; [|done].
    apply Hb in Em as (id' & r & Hl & Hk & _); [|done].
    apply blockKey_inj in Hk as <-; [congruence|done|by eapply Hwf].
Qed.

Lemma rep_block_live now k : starts blockPrefix k -> is_Some (live now m !! k) ->
  exists id r, bl !! id = Some r /\ k = blockKey id.
Proof using Hrep.
  intros Hk [v Hv]. unfold live in Hv. rewrite lookup_omap in Hv.
  destruct (m !! k) as [e|] eqn:Em; [|done]. destruct Hrep as (_ & Hb & _).
  apply Hb in Em as (id & r & ? & ? & _); eauto.
Qed.

Lemma rep_trav_live now k v : starts travPrefix k ->
  (live now m !! k = Some v <-> exists id r, bl !! id = Some r /\ k = trav_key id r /\ v = trav_val r).
Proof using Hrep.
  intros Hk. unfold live. rewrite lookup_omap. destruct Hrep as (_ & _ & Ht). split.
  - intros Hv. destruct (m !! k) as [e|] eqn:Em; [|done].
    apply Ht in Em as (id & r & Hl & -> & ->); [|done]. cbn in Hv. injection Hv as <-. eauto.
  - intros (id & r & Hl & -> & ->).
    assert (m !! trav_key id r = Some (trav_val r, None)) as -> by (apply Ht; eauto). done.
Qed.

Lemma rep_insert id r : bl !! id = None -> is_ID id -> wf_stored r ->
  rep (<[trav_key id r := (trav_val r, None)]> (<[blockKey id := (block_val r, None)]> m)) (<[id := r]> bl).
Proof using Hrep.
  intros Hnone Hid Hr. destruct Hrep as (Hwf & Hb & Ht). split_and!.
  - intros id' r' [[<- <-]|[_ Hl]]%lookup_insert_Some; [done|by apply Hwf].
  - intros k e Hk. rewrite lookup_insert_ne by keys_ne. destruct (decide (k = blockKey id)) as [->|Hne].
    + rewrite lookup_insert_eq. split.
      * intros [= <-]. exists id, r. by rewrite lookup_insert_eq.
      * intros (id' & r' & [[<- <-]|[Hne Hl]]%lookup_insert_Some & Hk' & ->); [done|].
        apply blockKey_inj in Hk'; [congruence|done|by eapply Hwf].
    + rewrite lookup_insert_ne by done. rewrite Hb by done. split.
      * intros (id' & r' & Hl & -> & ->). exists id', r'. by rewrite lookup_insert_ne by congruence.
      * intros (id' & r' & [[<- <-]|[_ Hl]]%lookup_insert_Some & -> & ->); [done|eauto].
  - intros k e Hk. destruct (decide (k = trav_key id r)) as [->|Hne].
    + rewrite lookup_insert_eq. split.
      * intros [= <-]. exists id, r. by rewrite lookup_insert_eq.
      * intros (id' & r' & [[<- <-]|[Hne Hl]]%lookup_insert_Some & Hk' & ->); [done|].
        apply travKey_inj in Hk' as [_ ->]; [congruence|done|by eapply Hwf|apply Hr|by eapply rep_created].
    + rewrite lookup_insert_ne by done. rewrite lookup_insert_ne by keys_ne. rewrite Ht by done. split.
      * intros (id' & r' & Hl & -> & ->). exists id', r'. by rewrite lookup_insert_ne by congruence.
      * intros (id' & r' & [[<- <-]|[_ Hl]]%lookup_insert_Some & -> & ->); [done|eauto].
Qed.

Lemma rep_delete id r : bl !! id = Some r ->
  rep (delete (trav_key id r) (delete (blockKey id) m)) (delete id bl).
Proof using Hrep.
  intros Hl0. destruct Hrep as (Hwf & Hb & Ht). pose proof (Hwf _ _ Hl0) as [Hid Hr]. split_and!.
  - intros id' r' [_ Hl]%lookup_delete_Some. by apply Hwf.
  - intros k e Hk. rewrite lookup_delete_ne by keys_ne. destruct (decide (k = blockKey id)) as [->|Hne].
    + rewrite lookup_delete_eq. split; [done|].
      intros (id' & r' & [Hne Hl]%lookup_delete_Some & Hk' & _).
      apply blockKey_inj in Hk'; [done|done|by eapply Hwf].
    + rewrite lookup_delete_ne by done. rewrite Hb by done. split.
      * intros (id' & r' & Hl & -> & ->). exists id', r'. by rewrite lookup_delete_ne by congruence.
      * intros (id' & r' & [_ Hl]%lookup_delete_Some & -> & ->). eauto.
  - intros k e Hk. destruct (decide (k = trav_key id r)) as [->|Hne].
    + rewrite lookup_delete_eq. split; [done|].
      intros (id' & r' & [Hne Hl]%lookup_delete_Some & Hk' & _).
      apply travKey_inj in Hk' as [_ ?]; [done|done|by eapply Hwf|apply Hr|by eapply rep_created].
    + rewrite lookup_delete_ne by done. rewrite lookup_delete_ne by keys_ne. rewrite Ht by done. split.
      * intros (id' & r' & Hl & -> & ->). exists id', r'. rewrite lookup_delete_ne; [done|].
        intros <-. rewrite Hl0 in Hl. by injection Hl as <-.
      * intros (id' & r' & [_ Hl]%lookup_delete_Some & -> & ->). eauto.
Qed.

End Rep.

(** Overwriting a block: the old traversal entry goes. *)
Lemma rep_replace m bl id old r : rep m bl -> bl !! id = Some old -> wf_stored r ->
  rep (<[trav_key id r := (trav_val r, None)]> (<[blockKey id := (block_val r, None)]>
        (delete (trav_key id old) m))) (<[id := r]> bl).
Proof.
  intros Hrep Hl Hr. destruct (rep_wf _ _ Hrep _ _ Hl) as [Hid _].
  rewrite <- (insert_delete_eq (delete (trav_key id old) m)), delete_delete.
  rewrite <- (insert_delete_eq bl). apply rep_insert; [by apply rep_delete|apply lookup_delete_eq|done|done].
Qed.

(** Entries under other prefixes are free. *)
Lemma rep_other m bl k x b : rep m bl -> starts b k -> b <> blockPrefix -> b <> travPrefix ->
  rep (<[k := x]> m) bl.
Proof.
  intros (Hwf & Hb & Ht) Hk Hnb Hnt. split_and!; [done|..]; intros k' e Hk';
    rewrite lookup_insert_ne by (by eapply starts_ne; [done|done|congruence]); auto.
Qed.

(** ** Storing

    The abstract store is a finite map; a block is stored unless a tombstone is
    live or the recorded work factor is at least as large. *)

Definition abs_put (tombed : bool) (id : ID) (r : stored) (bl : gmap ID stored) : gmap ID stored :=
  if tombed then bl
  else match bl !! id with
       | Some old => if st_wf r <=? st_wf old then bl else <[id := r]> bl
       | None => <[id := r]> bl
       end.

Definition tombed (now : Z) (m : kv) (id : ID) : bool :=
  match live now m !! tombKey id with Some _ => true | None => false end.

(** The part of the store the operations below leave alone. *)
Definition same_tombs (m m' : kv) : Prop := forall k, starts tombPrefix k -> m' !! k = m !! k.

#[export] Instance same_tombs_PreOrder : PreOrder same_tombs.
Proof. split; [by intros m k|intros m1 m2 m3 H1 H2 k Hk; by rewrite (H2 k Hk), (H1 k Hk)]. Qed.

Lemma same_tombs_write m ca id x y : same_tombs m (<[travKey ca id := x]> (<[blockKey id := y]> m)).
Proof. intros k Hk. by rewrite !lookup_insert_ne by keys_ne. Qed.

Lemma same_tombs_drop m ca id : same_tombs m (delete (travKey ca id) m).
Proof. intros k Hk. by rewrite lookup_delete_ne by keys_ne. Qed.

Section Transactions.
Context `{BadgerLaws}.

Lemma db_Update_Ok now d body d' :
  db_Update now d body = (d', Ok tt) ->
  exists t, body (NewTransaction now d) = Ok t /\ db_map d' = txn_map t.
Proof.
  unfold db_Update. destruct (body _) as [t|e]; [|done].
  destruct (txn_Commit d t) as [d1 [e|]] eqn:E; [done|]. intros [= <-].
  exists t. split; [done|]. by eapply txn_Commit_Ok.
Qed.

Lemma db_Update_Err now d body d' e : db_Update now d body = (d', Err e) -> db_map d' = db_map d.
Proof.
  unfold db_Update. destruct (body _) as [t|e']; [|by intros [= <- _]].
  destruct (txn_Commit d t) as [d1 [e'|]] eqn:E; [|done]. intros [= <- _].
  by eapply txn_Commit_Err.
Qed.

Lemma txn_Get_tombed t id :
  match txn_Get t (tombKey id) with
  | Ok _ => tombed (txn_now t) (txn_map t) id = true
  | Err ErrKeyNotFound => tombed (txn_now t) (txn_map t) id = false
  | Err _ => True
  end.
Proof.
  unfold tombed. destruct (txn_Get t (tombKey id)) as [it|e] eqn:E.
  - apply txn_Get_Ok in E as (v & -> & _). done.
  - destruct e; try done. by apply txn_Get_missing in E as ->.
Qed.

(** Reading a block entry yields the stored block. *)
Lemma txn_Get_block t bl id : rep (txn_map t) bl -> is_ID id ->
  match txn_Get t (blockKey id) with
  | Ok it => exists r, bl !! id = Some r /\ wf_stored r /\ forall v, item_Value it = Ok v -> v = block_val r
  | Err ErrKeyNotFound => bl !! id = None
  | Err _ => True
  end.
Proof.
  intros Hrep Hid. destruct (txn_Get t (blockKey id)) as [it|e] eqn:E.
  - apply txn_Get_Ok in E as (v & Hv & Hit). rewrite (rep_block_key _ _ Hrep) in Hv by done.
    destruct (bl !! id) as [r|] eqn:El; [|done]. injection Hv as <-. exists r.
    split_and!; [done|by eapply rep_wf|done].
  - destruct e; try done. apply txn_Get_missing in E. rewrite (rep_block_key _ _ Hrep) in E by done.
    by destruct (bl !! id).
Qed.

Lemma write_block_Ok id r t t' :
  write_block id (st_stamp r) (st_wf r) (st_createdAt r) (st_tag r) (st_payload r) t = Ok t' ->
  txn_map t' = <[trav_key id r := (trav_val r, None)]> (<[blockKey id := (block_val r, None)]> (txn_map t)).
Proof.
  unfold write_block. rewrite bind_Ok. intros (t1 & H1 & H2).
  apply txn_SetEntry_Ok in H1 as [_ H1], H2 as [_ H2]. by rewrite H2, H1.
Qed.

Lemma put_body_Ok now id r t t' bl :
  rep (txn_map t) bl -> is_ID id -> wf_stored r -> st_createdAt r = Unix now ->
  put_body now id (st_stamp r) (st_wf r) (st_tag r) (st_payload r) t = Ok t' ->
  rep (txn_map t') (abs_put (tombed (txn_now t) (txn_map t) id) id r bl) /\
  same_tombs (txn_map t) (txn_map t').
Proof.
  intros Hrep Hid Hr Hc. unfold put_body. rewrite <- Hc. pose proof (txn_Get_tombed t id) as Ht.
  destruct (txn_Get t (tombKey id)) as [it|[]]; try done; rewrite Ht; cbn [abs_put].
  { by intros [= <-]. }
  pose proof (txn_Get_block t bl id Hrep Hid) as Hb.
  destruct (txn_Get t (blockKey id)) as [it|[]]; try done.
  - destruct Hb as (old & Hl & Hold & Hv). rewrite Hl, bind_Ok. intros (v & Hit & E).
    rewrite (Hv v Hit), inspect_existing_val in E by done.
    destruct (st_wf r <=? st_wf old); [by injection E as <-|].
    destruct (txn_Delete t (travKey (st_createdAt old) id)) as [t1|e] eqn:Ed.
    + apply txn_Delete_Ok in Ed as [_ Ed]. apply write_block_Ok in E. rewrite E, Ed.
      split; [by apply rep_replace|]. etransitivity; [|apply same_tombs_write].
      apply same_tombs_drop.
    + destruct e; try done. apply txn_Delete_missing in Ed. exfalso.
      assert (live (txn_now t) (txn_map t) !! trav_key id old = Some (trav_val old)) as Hl';
        [|by unfold trav_key in Hl'; rewrite Ed in Hl'].
      eapply rep_trav_live; [done|done|]. eauto.
  - rewrite Hb. intros E. apply write_block_Ok in E. rewrite E. split; [by apply rep_insert|]. apply same_tombs_write.
Qed.
End Transactions.

(** ** Reading *)

Section Reading.
Context `{BadgerLaws} (now : Z) (s : BadgerStore) (bl : gmap ID stored).
Context (Hrep : rep (db_map (db s)) bl).

Lemma start_rep : rep (txn_map (NewTransaction now (db s))) bl.
Proof using Hrep. by rewrite (proj1 (txn_start now (db s))). Qed.

Lemma start_tombed id :
  tombed (txn_now (NewTransaction now (db s))) (txn_map (NewTransaction now (db s))) id
  = tombed now (db_map (db s)) id.
Proof using. by rewrite (proj1 (txn_start now (db s))), (proj2 (txn_start now (db s))). Qed.

Lemma Get_spec id : is_ID id ->
  match Get now s id with
  | Ok p => exists r, bl !! id = Some r /\ p = (st_stamp r, st_payload r)
  | Err ErrNotFound => bl !! id = None
  | Err _ => True
  end.
Proof using Hrep.
  intros Hid. unfold Get. pose proof (txn_Get_block _ bl id start_rep Hid) as Hb.
  destruct (txn_Get _ (blockKey id)) as [it|e] eqn:E.
  - destruct Hb as (r & Hl & Hr & Hv). destruct (item_Value it) as [v|e] eqn:Ev; cbn [mbind result_bind].
    + rewrite (Hv v eq_refl), decode_block_val by done. eauto.
    + destruct e; try done. by destruct (item_Value_foreign it).
  - destruct e; try done. by destruct (txn_Get_foreign (NewTransaction now (db s)) (blockKey id)).
Qed.

Lemma GetWorkFactor_spec id : is_ID id ->
  match GetWorkFactor now s id with
  | Ok w => exists r, bl !! id = Some r /\ w = st_wf r
  | Err ErrNotFound => bl !! id = None
  | Err _ => True
  end.
Proof using Hrep.
  intros Hid. unfold GetWorkFactor. pose proof (txn_Get_block _ bl id start_rep Hid) as Hb.
  destruct (txn_Get _ (blockKey id)) as [it|e] eqn:E.
  - destruct Hb as (r & Hl & Hr & Hv). destruct (item_Value it) as [v|e] eqn:Ev; cbn [mbind result_bind].
    + rewrite (Hv v eq_refl), length_block_val.
      rewrite (proj2 (Nat.ltb_ge _ _)) by (unfold blockValHeaderSize; lia).
      rewrite block_val_wf by done. eauto.
    + destruct e; try done. by destruct (item_Value_foreign it).
  - destruct e; try done. by destruct (txn_Get_foreign (NewTransaction now (db s)) (blockKey id)).
Qed.

Lemma Has_spec id b : is_ID id -> Has now s id = Ok b ->
  b = bool_decide (is_Some (bl !! id)) || tombed now (db_map (db s)) id.
Proof using Hrep.
  intros Hid. unfold Has. pose proof (txn_Get_block _ bl id start_rep Hid) as Hb.
  pose proof (txn_Get_tombed (NewTransaction now (db s)) id) as Ht. rewrite start_tombed in Ht.
  destruct (txn_Get _ (blockKey id)) as [it|[]]; try done.
  - destruct Hb as (r & -> & _). by intros [= <-].
  - rewrite Hb. destruct (txn_Get _ (tombKey id)) as [it|[]]; try done; rewrite Ht; by intros [= <-].
Qed.
End Reading.

(** ** The index of listings *)

Definition trav_entry (ke : bytes * (bytes * option Z)) : option entry :=
  if decide (head ke.1 = Some travPrefix)
  then Some {| en_cursor := {| cur_createdAt := trav_createdAt ke.1; cur_id := trav_id ke.1 |};
               en_wf := fst (decode_trav ke.2.1) |}
  else None.

Definition badger_index (m : kv) : list entry :=
  @sort_Slice merge_GoSort _ (fun x y => lex_ltb (en_key x) (en_key y)) (omap trav_entry (map_to_list m)).

Definition stored_entry (id : ID) (r : stored) : entry :=
  {| en_cursor := {| cur_createdAt := st_createdAt r; cur_id := id |}; en_wf := st_wf r |}.

Definition entry_key (e : entry) : bytes :=
  travKey (cur_createdAt (en_cursor e)) (cur_id (en_cursor e)).

Section Index.
Context (m : kv) (bl : gmap ID stored) (Hrep : rep m bl).

Lemma trav_entry_Some k x e : m !! k = Some x -> trav_entry (k, x) = Some e ->
  exists id r, bl !! id = Some r /\ k = trav_key id r /\ e = stored_entry id r.
Proof using Hrep.
  intros Hk. unfold trav_entry. cbn [fst snd]. case_decide as Hs; [|done]. intros He%(inj Some). subst e.
  pose proof Hrep as (Hwf & _ & Ht). apply Ht in Hk as (id & r & Hl & -> & ->); [|done].
  pose proof (Hwf id r Hl) as [Hid Hr]. exists id, r. split_and!; [done|done|]. cbn [fst].
  destruct (travKey_id (st_createdAt r) id Hid (rep_created _ _ Hrep _ _ Hl)) as (_ & H1 & H2).
  unfold trav_key. rewrite H1, H2, decode_trav_val by done. done.
Qed.

Lemma badger_index_elem e : e ∈ badger_index m <-> exists id r, bl !! id = Some r /\ e = stored_entry id r.
Proof using Hrep.
  unfold badger_index. rewrite sort_Slice_Permutation, list_elem_of_omap. split.
  - intros ([k x] & Hk%elem_of_map_to_list & He).
    destruct (trav_entry_Some k x e Hk He) as (id & r & ? & _ & ?). eauto.
  - intros (id & r & Hl & ->). exists (trav_key id r, (trav_val r, None)).
    assert (m !! trav_key id r = Some (trav_val r, None)) as Hm by (apply Hrep; [done|eauto]).
    split; [by apply elem_of_map_to_list|].
    destruct (trav_entry (trav_key id r, (trav_val r, None))) as [e|] eqn:E.
    + destruct (trav_entry_Some _ _ _ Hm E) as (id' & r' & Hl' & Hk & ->). unfold trav_key in Hk.
      pose proof (rep_wf _ _ Hrep _ _ Hl) as [? _]. pose proof (rep_wf _ _ Hrep _ _ Hl') as [? _].
      apply travKey_inj in Hk as [_ <-]; [|done|done|by eapply rep_created|by eapply rep_created].
      by rewrite Hl in Hl'; injection Hl' as <-.
    + unfold trav_entry in E. by rewrite decide_True in E.
Qed.

Lemma badger_index_sorted : StronglySorted (fun x y => lex_ltb (en_key x) (en_key y) = true) (badger_index m).
Proof using Hrep.
  apply sort_Slice_strict, NoDup_fmap_omap; [apply NoDup_map_to_list|].
  intros [k x] [k' x'] e e' Hk%elem_of_map_to_list Hk'%elem_of_map_to_list He He' Heq.
  destruct (trav_entry_Some _ _ _ Hk He) as (id & r & Hl & -> & ->).
  destruct (trav_entry_Some _ _ _ Hk' He') as (id' & r' & Hl' & -> & ->).
  injection Heq as Hc <-. assert (r' = r) as -> by congruence. congruence.
Qed.

Lemma badger_index_entry e : e ∈ badger_index m -> is_ID (cur_id (en_cursor e)) /\ in_created (cur_createdAt (en_cursor e)).
Proof using Hrep.
  intros (id & r & Hl & ->)%badger_index_elem. split; [by eapply rep_wf|by eapply rep_created].
Qed.
End Index.

(** ** Listings *)

(** An item of the iterator and the index entry it stands for. *)
Definition item_entry `{Badger} (it : bytes * Item) (e : entry) : Prop :=
  it.1 = entry_key e /\ forall v, item_Value it.2 = Ok v -> fst (decode_trav v) = en_wf e.

Definition entry_ok (e : entry) : Prop :=
  is_ID (cur_id (en_cursor e)) /\ in_created (cur_createdAt (en_cursor e)).

Definition ref_cursor (r : BlockRef) : cursor := {| cur_createdAt := br_CreatedAt r; cur_id := br_ID r |}.

Lemma StronglySorted_keys {A B} (f : A -> B) (R : B -> B -> Prop) (R' : A -> A -> Prop) (l : list A) :
  (forall x y, x ∈ l -> y ∈ l -> R' x y -> R (f x) (f y)) ->
  StronglySorted R' l -> StronglySorted R (f <$> l).
Proof.
  intros Hf Hs. induction Hs as [|x l Hs IH Hx]; [constructor|]. rewrite fmap_cons. constructor.
  - apply IH. intros; apply Hf; set_solver.
  - apply Forall_forall. intros y (z & -> & Hz)%list_elem_of_fmap. rewrite Forall_forall in Hx.
    apply Hf; [set_solver|set_solver|auto].
Qed.

Section Listing.
Context `{BadgerLaws}.

(** The iterator runs over the index entries from the seek key on. *)
Lemma Iterate_entries t bl seek :
  rep (txn_map t) bl ->
  Forall2 item_entry (txn_Iterate t [travPrefix] seek)
    (filter (fun e => bytes_ltb (entry_key e) seek = false) (badger_index (txn_map t))).
Proof.
  intros Hrep. set (items := txn_Iterate _ _ _). set (es := filter _ _).
  assert (forall e, e ∈ es -> entry_ok e) as Hok.
  { intros e [_ He]%list_elem_of_filter. by eapply badger_index_entry. }
  assert (StronglySorted (fun x y => bytes_ltb x y = true) (items.*1)) as Hs1
    by (eapply StronglySorted_keys; [|apply txn_Iterate_sorted]; done).
  assert (StronglySorted (fun x y => bytes_ltb x y = true) (entry_key <$> es)) as Hs2.
  { eapply StronglySorted_keys; [|apply filter_StronglySorted; by eapply badger_index_sorted].
    intros x y Hx Hy Hlt. destruct (Hok x Hx), (Hok y Hy). unfold entry_key. by rewrite travKey_order by done. }
  assert (forall l : list bytes, StronglySorted (fun x y => bytes_ltb x y = true) l -> NoDup l) as Hnd
    by (intros l; apply StronglySorted_NoDup; intros x Hx; by rewrite bytes_ltb_irrefl in Hx).
  assert (items.*1 = entry_key <$> es) as Hkeys.
  { apply (StronglySorted_unique (fun x y => bytes_ltb x y = true)); [done|done|].
    apply NoDup_Permutation; [auto|auto|]. intros k. transitivity (exists it, (k, it) ∈ items).
    { rewrite list_elem_of_fmap. split; [intros ([k' it] & -> & ?); eauto|intros [it ?]; by exists (k, it)]. }
    unfold items. rewrite txn_Iterate_elem. unfold es. rewrite list_elem_of_fmap.
    setoid_rewrite list_elem_of_filter. setoid_rewrite (badger_index_elem _ _ Hrep). split.
    - intros ([v Hv] & Hp & Hs). apply (rep_trav_live _ _ Hrep) in Hv as (id & r & Hl & -> & _).
      { exists (stored_entry id r). split; [done|]. split; [done|eauto]. }
      unfold has_prefix in Hp. apply bool_decide_eq_true in Hp. by destruct k; [|injection Hp as ->].
    - intros (e & -> & Hs & id & r & Hl & ->). split_and!; [|done|done].
      exists (trav_val r). apply (rep_trav_live _ _ Hrep); [done|]. eauto. }
  apply Forall2_same_length_lookup_2.
  { apply (f_equal length) in Hkeys. by rewrite !length_fmap in Hkeys. }
  intros i [k it] e Hi He. assert (k = entry_key e) as ->.
  { apply (f_equal (fun l => l !! i)) in Hkeys. rewrite !list_lookup_fmap, Hi, He in Hkeys.
    by injection Hkeys. }
  split; [done|]. cbn [snd]. intros v Hv.
  apply list_elem_of_lookup_2 in Hi, He. apply list_elem_of_filter in He as [_ He].
  apply (txn_Iterate_value _ _ _ _ _ _ Hi) in Hv. apply (rep_trav_live _ _ Hrep) in Hv as (id & r & Hl & Hk & ->); [|done].
  apply (badger_index_elem _ _ Hrep) in He as (id' & r' & Hl' & ->). unfold entry_key in Hk. cbn in Hk.
  apply travKey_inj in Hk as [_ ->]; [|by eapply rep_wf|by eapply rep_wf|by eapply rep_created|by eapply rep_created].
  rewrite decode_trav_val by by eapply rep_wf. cbn. congruence.
Qed.

(** The loop collects the entries above the floors, up to the limit. *)
Lemma list_loop_spec limit powFloor sinceUnix items es refs last refs' last' :
  Forall2 item_entry items es -> Forall entry_ok es -> Z.of_nat (length refs) <= limit ->
  list_loop limit powFloor sinceUnix items refs last = Ok (refs', last') ->
  let q := take (Z.to_nat limit - length refs) (filter (fun e => meets powFloor sinceUnix e = true) es) in
  ref_view <$> refs' = (ref_view <$> refs) ++ (entry_view <$> q) /\
  ref_cursor <$> refs' = (ref_cursor <$> refs) ++ (en_cursor <$> q) /\
  last' = match list.last q with Some e => en_cursor e | None => last end.
Proof.
  intros H2. revert refs last. induction H2 as [|[k it] e items es [Hk Hv] H2 IH]; intros refs last HF Hlim.
  { cbn. rewrite take_nil, !app_nil_r. by intros [= <- <-]. }
  apply Forall_cons in HF as [[Hid Hc] HF]. cbn [list_loop]. cbn [fst] in Hk.
  destruct (travKey_id _ _ Hid Hc) as (Hl & Hca & Hti). fold (entry_key e) in Hl, Hca, Hti.
  rewrite <- Hk in Hl, Hca, Hti. rewrite Hl, Hca, Hti, Nat.eqb_refl. cbn [negb].
  destruct (Z.ltb_spec (Z.of_nat (length refs)) limit) as [Hlt|Hge]; cbn [negb].
  2:{ intros [= <- <-]. replace (Z.to_nat limit - length refs)%nat with 0%nat by lia.
      cbn. by rewrite !app_nil_r. }
  rewrite filter_cons.
  destruct (Z.ltb_spec (cur_createdAt (en_cursor e)) sinceUnix) as [Hs|Hs].
  { rewrite decide_False by (unfold meets; rewrite andb_true_iff, !Z.leb_le; lia). by apply IH. }
  rewrite bind_Ok. intros (v & Hit & E). specialize (Hv v Hit). destruct (decode_trav v) as [wf tag].
  cbn [fst] in Hv. subst wf. revert E. destruct (Z.ltb_spec (en_wf e) powFloor) as [Hw|Hw].
  { rewrite decide_False by (unfold meets; rewrite andb_true_iff, !Z.leb_le; lia). by apply IH. }
  rewrite decide_True by (unfold meets; rewrite andb_true_iff, !Z.leb_le; lia). intros E.
  apply IH in E as (E1 & E2 & E3); [|done|rewrite length_app; cbn; lia].
  rewrite length_app in E1, E2, E3. cbn [length] in E1, E2, E3.
  destruct (Z.to_nat limit - length refs)%nat as [|n] eqn:En; [lia|].
  replace (Z.to_nat limit - (length refs + 1))%nat with n in * by lia. cbn [take].
  rewrite !fmap_cons. split_and!.
  - by rewrite E1, fmap_app, <- app_assoc.
  - rewrite E2, fmap_app, <- app_assoc. f_equal. cbn. f_equal. by destruct e as [[]].
  - rewrite E3, last_cons. destruct (list.last _); [done|]. by destruct e as [[]].
Qed.

(** Resuming: of the entries from the cursor on, those strictly after it. *)
Lemma skip_cursor_spec cur items idx :
  let seek := match cur with Some c => travKey (cur_createdAt c) (cur_id c) | None => [] end in
  StronglySorted (fun x y => lex_ltb (en_key x) (en_key y) = true) idx -> Forall entry_ok idx ->
  (forall c, cur = Some c -> is_ID (cur_id c) /\ in_created (cur_createdAt c)) ->
  Forall2 item_entry items (filter (fun e => bytes_ltb (entry_key e) seek = false) idx) ->
  Forall2 item_entry (skip_cursor cur items) (filter (fun e => after cur e = true) idx).
Proof.
  intros seek Hs HF Hcur. destruct cur as [c|]; cbn [skip_cursor].
  2:{ rewrite !filter_Forall_id; [done|by apply Forall_true|]. apply Forall_true. intros e. by destruct (entry_key e). }
  destruct (Hcur c eq_refl) as [Hid Hc]. subst seek.
  assert (forall e, e ∈ idx -> bytes_ltb (entry_key e) (travKey (cur_createdAt c) (cur_id c))
    = lex_ltb (en_key e) (cursor_key c)) as Hlt.
  { intros e He. rewrite Forall_forall in HF. destruct (HF e He). by apply travKey_order. }
  rewrite (filter_ext _ (fun e => lex_ltb (en_key e) (cursor_key c) = false))
    by (intros e He; by rewrite Hlt).
  set (ge := filter _ idx). assert (forall e, e ∈ ge -> e ∈ idx /\ lex_ltb (en_key e) (cursor_key c) = false) as Hge
    by by intros e [? ?]%list_elem_of_filter.
  assert (filter (fun e => after (Some c) e = true) idx = filter (fun e => after (Some c) e = true) ge) as ->.
  { unfold ge. rewrite filter_filter. apply filter_ext. intros e _. split; [|by intros [? _]].
    intros Ha. split; [done|]. destruct (lex_ltb (en_key e) (cursor_key c)) eqn:E; [|done].
    pose proof (lex_ltb_trans _ _ _ Ha E) as Hx. by rewrite lex_ltb_irrefl in Hx. }
  assert (StronglySorted (fun x y => lex_ltb (en_key x) (en_key y) = true) ge) as Hsg
    by by apply filter_StronglySorted.
  intros H2. destruct H2 as [|[k it] e items' es' [Hk Hv] H2]; [by cbn|].
  destruct (Hge e ltac:(left)) as [He Hce]. rewrite Forall_forall in HF. destruct (HF e He) as [Hie Hcc].
  apply StronglySorted_inv in Hsg as [_ Hes]. rewrite Forall_forall in Hes.
  destruct (travKey_id _ _ Hie Hcc) as (Hl & Hca & Hti). cbn [fst] in Hk. unfold entry_key in Hk.
  rewrite <- Hk in Hl, Hca, Hti. rewrite Hl, Hca, Hti, Nat.eqb_refl. cbn [andb].
  assert ((cur_createdAt (en_cursor e) =? cur_createdAt c) && bool_decide (cur_id (en_cursor e) = cur_id c)
    = negb (after (Some c) e)) as ->.
  { cbn [after]. apply eq_true_iff_eq. rewrite andb_true_iff, Z.eqb_eq, bool_decide_eq_true, negb_true_iff. split.
    - intros [E1 E2]. unfold en_key, cursor_key. rewrite E1, E2. apply lex_ltb_irrefl.
    - intros Ha. pose proof (lex_ltb_total _ _ Hce Ha) as E. by injection E. }
  rewrite filter_cons. destruct (after (Some c) e) eqn:Ea; cbn [negb].
  - rewrite decide_True by done. rewrite filter_Forall_id; [by constructor|].
    apply Forall_forall. intros x Hx. cbn [after]. eapply lex_ltb_trans; [exact Ea|by apply Hes].
  - rewrite decide_False by done. rewrite filter_Forall_id; [done|].
    apply Forall_forall. intros x Hx. cbn [after]. cbn [after] in Ea.
    assert (cursor_key c = en_key e) as -> by (symmetry; by apply lex_ltb_total). by apply Hes.
Qed.
End Listing.

(** ** The listing contract *)

Section Laws.
Context `{BadgerLaws}.

(** The items of the transaction from the seek key on are those of a part of the index, which
    holds all that is listed after the cursor. *)
Lemma page_items t bl token cur powFloor since :
  rep (txn_map t) bl -> in_s64 (Unix since) -> valid_token (badger_index (txn_map t)) token cur ->
  let su := if Unix since <? 0 then 0 else Unix since in
  let seek := match cur with Some c => c | None => {| cur_createdAt := su; cur_id := replicate IDSize x00 |} end in
  exists es, Forall2 item_entry (skip_cursor cur (txn_Iterate t [travPrefix] (travKey (cur_createdAt seek) (cur_id seek)))) es /\
    Forall entry_ok es /\
    filter (fun e => meets powFloor su e = true) es
    = filter (fun e => listed cur powFloor (Unix since) e = true) (badger_index (txn_map t)).
Proof.
  intros Hrep Hsince Htok su seek. set (idx := badger_index (txn_map t)) in *.
  assert (forall e, e ∈ idx -> entry_ok e) as Hok by (intros e; by eapply badger_index_entry).
  pose proof (badger_index_sorted _ _ Hrep) as Hsorted. fold idx in Hsorted.
  assert (su = Z.max 0 (Unix since)) as Hsu by (unfold su; destruct (Z.ltb_spec (Unix since) 0); lia).
  pose proof (Iterate_entries t bl (travKey (cur_createdAt seek) (cur_id seek)) Hrep) as H2. fold idx in H2.
  assert (forall e, e ∈ idx -> meets powFloor su e = meets powFloor (Unix since) e) as Hm.
  { intros e He. destruct (Hok e He) as [_ Hc]. unfold in_created in Hc. unfold meets. f_equal.
    apply eq_true_iff_eq. rewrite !Z.leb_le. lia. }
  destruct cur as [c|].
  - exists (filter (fun e => after (Some c) e = true) idx). split_and!.
    + apply skip_cursor_spec; [done|by apply Forall_forall| |done].
      intros c' [= <-]. inversion Htok. by apply Hok.
    + apply Forall_forall. intros e [_ He]%list_elem_of_filter. auto.
    + rewrite filter_filter. apply filter_ext. intros e He. unfold listed.
      rewrite (Hm e He), andb_true_iff. tauto.
  - eexists. split_and!; [exact H2| |].
    + apply Forall_forall. intros e [_ He]%list_elem_of_filter. auto.
    + rewrite filter_filter. apply filter_ext. intros e He. unfold listed. cbn [after].
      rewrite (Hm e He). split; [by intros [? _]|]. intros Hme. split; [done|].
      destruct (Hok e He) as [Hid Hc]. unfold seek. cbn [cur_createdAt cur_id]. unfold entry_key.
      rewrite travKey_order; [|done|apply length_replicate|done|unfold in_created, in_s64 in *; lia].
      apply not_true_is_false. rewrite lex_ltb_spec. cbn [fst snd].
      cbn [andb] in Hme. unfold meets in Hme. rewrite andb_true_iff, !Z.leb_le in Hme.
      unfold in_created in Hc. intros [?|[_ Hb]]; [lia|].
      rewrite bytes_ltb_be_decode in Hb by (by rewrite Hid, length_replicate).
      apply Z.ltb_lt in Hb. pose proof (be_decode_range (cur_id (en_cursor e))).
      assert (be_decode (replicate IDSize x00) = 0) by reflexivity. lia.
Qed.

Lemma badger_ListBlocks_page now s bl token cur limit powFloor since next refs :
  rep (db_map (db s)) bl -> 0 < limit -> in_s64 (Unix since) ->
  valid_token (badger_index (db_map (db s))) token cur ->
  ListBlocks now s token limit powFloor since = Ok (next, refs) ->
  let p := page (badger_index (db_map (db s))) cur limit powFloor (Unix since) in
  next = page_token limit p /\ ref_view <$> refs = entry_view <$> p /\
  ref_cursor <$> refs = en_cursor <$> p.
Proof.
  intros Hrep Hlim Hsince Htok. set (idx := badger_index (db_map (db s))).
  assert (forall e, e ∈ idx -> entry_ok e) as Hok by (intros e; by eapply badger_index_entry).
  assert ((if decide (token = []) then Ok None else Some <$> decodeCursor token) = Ok cur) as Hparse.
  { destruct Htok as [|e He]; [done|]. rewrite decide_False by apply encodeCursor_not_nil.
    rewrite cursor_roundtrip; [done|]. destruct (Hok e He). split; [unfold in_s64, in_created in *; lia|done]. }
  unfold ListBlocks. rewrite Hparse. cbn [mbind result_bind].
  set (su := if Unix since <? 0 then 0 else Unix since).
  set (t := NewTransaction now (db s)). set (seek := match cur with Some c => c | None => _ end).
  assert (txn_map t = db_map (db s)) as Ht by apply (proj1 (txn_start now (db s))).
  destruct (page_items t bl token cur powFloor since) as (es & Hes & Hesok & Hf); [by rewrite Ht|done|by rewrite Ht|].
  rewrite Ht in Hf. fold idx su in Hf. fold su seek in Hes.
  destruct (list_loop _ _ _ _ _ _) as [[refs' last']|e] eqn:El; [|done].
  apply (list_loop_spec _ _ _ _ es) in El; [|done|done|cbn; lia]. cbn [length] in El.
  rewrite Nat.sub_0_r, Hf in El. destruct El as (E1 & E2 & E3). intros [= <- <-].
  unfold page. set (q := take _ _) in *. cbn [fmap list_fmap app] in E1, E2.
  split_and!; [|done|done]. unfold page_token.
  assert (length refs' = length q) as -> by (apply (f_equal length) in E1; by rewrite !length_fmap in E1).
  destruct (Z.eqb_spec (Z.of_nat (length q)) limit); [rewrite decide_True by done|by rewrite decide_False].
  destruct (list.last q) eqn:Elq; [by rewrite E3|]. apply last_None in Elq. rewrite Elq in *. cbn in *. lia.
Qed.
End Laws.

(** The backend meets the listing contract. *)
#[export] Instance Badger_StoreLaws `{BadgerLaws, Hashes, GoSort, GoFloat, GoMapRange} : StoreLaws BadgerStore.
Proof.
  refine {| store_inv := fun s => exists bl, rep (db_map (db s)) bl;
            store_index := fun s => badger_index (db_map (db s)) |}.
  - intros s [bl Hrep]. by eapply badger_index_sorted.
  - intros s [bl Hrep]. apply Forall_forall. intros e He.
    destruct (badger_index_entry _ _ Hrep e He) as [Hid Hc]. split; [|done].
    unfold in_s64, in_created in *. lia.
  - intros now s token cur limit powFloor since next refs [bl Hrep] Hl Hs Ht HL.
    destruct (badger_ListBlocks_page _ _ _ _ _ _ _ _ _ _ Hrep Hl Hs Ht HL) as (? & ? & _). done.
Defined.
