(* ===== verification/BadgerEvict.v ===== *)
(** Eviction, storing under a storage limit and the median work factor of the
    key-value backend. *)
From Stdlib Require Import String.
From S2P Require Import Prelude Codec Block Store Badger BadgerFacts.

Lemma blockSize_Z : blockSize = 4113.
Proof.
  unfold blockSize, blockValHeaderSize, StampSize. rewrite Nat2Z.inj_add, PayloadSize_Z. done.
Qed.

(** ** Candidates *)

Definition cands (bl : gmap ID stored) : list evictCandidate :=
  (fun p => candidate p.1 p.2) <$> map_to_list bl.

Lemma cands_elem bl c : c ∈ cands bl <-> exists id r, bl !! id = Some r /\ c = candidate id r.
Proof.
  unfold cands. rewrite list_elem_of_fmap. split.
  - intros ([id r] & -> & H%elem_of_map_to_list). eauto.
  - intros (id & r & H & ->). exists (id, r). split; [done|]. by apply elem_of_map_to_list.
Qed.

Lemma cands_NoDup bl : NoDup (ec_id <$> cands bl).
Proof. unfold cands. rewrite <- list_fmap_compose. apply (NoDup_fst_map_to_list bl). Qed.

Section Scan.
Context `{BadgerLaws} (t : Txn) (bl : gmap ID stored) (Hrep : rep (txn_map t) bl).

Lemma scan_items items all :
  (forall k it, (k, it) ∈ items -> exists id r, bl !! id = Some r /\ k = blockKey id /\
     forall v, item_Value it = Ok v -> v = block_val r) ->
  scan_candidates items = Ok all ->
  Forall2 (fun it c => exists id r, bl !! id = Some r /\ it.1 = blockKey id /\ c = candidate id r) items all.
Proof using Hrep.
  revert all. induction items as [|[k it] items IH]; intros all Hit; cbn [scan_candidates].
  { intros [= <-]. constructor. }
  destruct (Hit k it ltac:(left)) as (id & r & Hl & -> & Hv).
  destruct (rep_wf _ _ Hrep _ _ Hl) as [Hid Hr].
  assert (length (blockKey id) = 1 + IDSize)%nat as -> by (rewrite blockKey_eq by done; cbn; by rewrite Hid).
  rewrite Nat.eqb_refl. cbn [negb]. rewrite bind_Ok. intros (v & Hiv & E).
  apply bind_Ok in E as (all' & E & E'%(inj Ok)). subst all. rewrite (Hv v Hiv), decode_candidate_val by done.
  assert (drop 1 (blockKey id) = id) as -> by by rewrite blockKey_eq.
  constructor.
  - by exists id, r.
  - apply IH; [|done]. intros k' it' Hin. apply Hit. by right.
Qed.

Lemma scan_candidates_spec all :
  scan_candidates (txn_Iterate t [blockPrefix] []) = Ok all -> all ≡ₚ cands bl.
Proof using Hrep.
  set (items := txn_Iterate _ _ _). intros Hs.
  assert (forall k it, (k, it) ∈ items -> starts blockPrefix k /\ is_Some (live (txn_now t) (txn_map t) !! k)) as Hitem.
  { intros k it Hin. destruct (proj1 (txn_Iterate_elem t [blockPrefix] [] k) (ex_intro _ it Hin)) as (Hk & Hp & _).
    split; [|done]. unfold has_prefix in Hp. apply bool_decide_eq_true in Hp.
    destruct k; [done|]. by injection Hp as ->. }
  apply scan_items in Hs.
  2:{ intros k it Hin. destruct (Hitem k it Hin) as [Hk Hl].
      destruct (rep_block_live _ _ Hrep _ _ Hk Hl) as (id & r & Hbl & ->). exists id, r. split_and!; [done|done|].
      intros v Hv. apply (txn_Iterate_value _ _ _ _ _ _ Hin) in Hv.
      destruct (rep_wf _ _ Hrep _ _ Hbl) as [Hid _].
      rewrite (rep_block_key _ _ Hrep), Hbl in Hv by done. by injection Hv. }
  assert (NoDup (items.*1)) as Hnd.
  { apply (StronglySorted_NoDup (fun x y => bytes_ltb x y = true)).
    - intros x Hx. by rewrite bytes_ltb_irrefl in Hx.
    - eapply StronglySorted_keys; [|apply txn_Iterate_sorted]. done. }
  assert (items.*1 = blockKey ∘ ec_id <$> all) as Hkeys.
  { clear Hnd Hitem. induction Hs as [|it c items' all' (id & r & _ & Hk & ->) Hs IH]; [done|].
    rewrite !fmap_cons, IH. f_equal. exact Hk. }
  apply NoDup_Permutation.
  - rewrite Hkeys in Hnd. by eapply NoDup_fmap_1.
  - eapply NoDup_fmap_1, cands_NoDup.
  - intros c. rewrite cands_elem. split.
    + intros Hc. apply list_elem_of_lookup in Hc as [i Hi].
      destruct (Forall2_lookup_r _ _ _ _ _ Hs Hi) as (it & _ & id & r & Hl & _ & ->). eauto.
    + intros (id & r & Hl & ->). destruct (rep_wf _ _ Hrep _ _ Hl) as [Hid _].
      assert (blockKey id ∈ items.*1) as Hin.
      { destruct (proj2 (txn_Iterate_elem t [blockPrefix] [] (blockKey id))) as [it Hit].
        - split_and!; [|done|done]. rewrite (rep_block_key _ _ Hrep), Hl by done. eauto.
        - apply list_elem_of_fmap. by exists (blockKey id, it). }
      rewrite Hkeys in Hin. apply list_elem_of_fmap in Hin as (c & Hk & Hc).
      assert (Hc' := Hc). apply list_elem_of_lookup in Hc' as [i Hi].
      destruct (Forall2_lookup_r _ _ _ _ _ Hs Hi) as (it & _ & id' & r' & Hl' & _ & ->). cbn in Hk.
      apply blockKey_inj in Hk as <-; [|done|by eapply rep_wf]. by rewrite Hl in Hl'; injection Hl' as <-.
Qed.
End Scan.

(** ** Queues *)

Section Queues.
Context `{GoFloat}.

Definition of_tag (t : Tag) (rem : list evictCandidate) : list evictCandidate :=
  filter (fun c => ec_tag c = t) rem.

(** By how much the blocks of a tag exceed its reservation. *)
Definition excess (res : gmap Tag Z) (rem : list evictCandidate) (t : Tag) : Z :=
  blockSize * Z.of_nat (length (of_tag t rem)) - default 0 (res !! t).

Definition queue (q : queues) (t : Tag) : list evictCandidate := default [] (perTag q !! t).

(** The queues hold the remaining candidates, by tag, with the matching usages. *)
Definition holds (q : queues) (rem : list evictCandidate) : Prop :=
  forall t, queue q t ≡ₚ of_tag t rem /\
    default 0 (tagUsage q !! t) = blockSize * Z.of_nat (length (of_tag t rem)) /\
    (of_tag t rem <> [] -> is_Some (tagUsage q !! t)).

Definition ordered (q : queues) : Prop :=
  forall t, StronglySorted (fun x y => (logicalExpiry y <? logicalExpiry x) = false) (queue q t).

Lemma of_tag_app t l1 l2 : of_tag t (l1 ++ l2) = of_tag t l1 ++ of_tag t l2.
Proof. apply filter_app. Qed.

Lemma of_tag_Permutation t rem rem' : rem ≡ₚ rem' -> of_tag t rem ≡ₚ of_tag t rem'.
Proof. intros Hp. unfold of_tag. by rewrite Hp. Qed.

Lemma holds_Permutation q rem rem' : rem ≡ₚ rem' -> holds q rem -> holds q rem'.
Proof.
  intros Hp Hh t. destruct (Hh t) as (Hq & Hu & Hs). pose proof (of_tag_Permutation t _ _ Hp) as Ht.
  split_and!; [by etransitivity|by rewrite <- (Permutation_length Ht)|].
  intros Hne. apply Hs. intros E. rewrite E in Ht. by apply Permutation_nil_l in Ht.
Qed.

Lemma add_candidate_holds q rem c : holds q rem -> holds (add_candidate q c) (rem ++ [c]).
Proof.
  intros Hh t. destruct (Hh t) as (Hq & Hu & Hs). rewrite of_tag_app. unfold of_tag at 2 4 6.
  rewrite filter_cons, filter_nil. unfold queue, add_candidate in *. cbn [perTag tagUsage].
  destruct (decide (ec_tag c = t)) as [<-|Hne].
  - rewrite !lookup_insert_eq. cbn [from_option id]. rewrite length_app, Hu, blockSize_Z. cbn [length].
    split_and!; [by rewrite Hq|lia|eauto].
  - rewrite !lookup_insert_ne by done. by rewrite app_nil_r.
Qed.

Lemma build_holds `{GoSort} all : holds (build_queues all) all /\ ordered (build_queues all).
Proof.
  set (q0 := {| perTag := ∅; tagUsage := ∅ |}).
  assert (forall l q rem, holds q rem -> holds (foldl add_candidate q l) (rem ++ l)) as Hfold.
  { induction l as [|c l IH]; intros q rem Hh; cbn; [by rewrite app_nil_r|].
    rewrite (cons_middle c), app_assoc. by apply IH, add_candidate_holds. }
  assert (holds q0 []) as Hq0 by (intros t; unfold queue, q0; cbn; by rewrite !lookup_empty).
  specialize (Hfold all q0 [] Hq0). cbn [app] in Hfold. unfold build_queues. fold q0.
  set (q := foldl add_candidate q0 all) in *. split; intros t.
  - destruct (Hfold t) as (Hq & Hu & Hs). unfold queue, sort_queues in *. cbn [perTag tagUsage].
    rewrite lookup_fmap. split_and!; [|done|done]. rewrite <- Hq.
    destruct (perTag q !! t); cbn; [apply sort_Slice_Permutation|done].
  - unfold queue, sort_queues. cbn [perTag]. rewrite lookup_fmap.
    destruct (perTag q !! t); cbn; [apply sort_Slice_sorted, _|constructor].
Qed.

(** The search for the target finds a tag of largest excess. *)
Lemma consider_fold res q rem l best :
  holds q rem ->
  (forall t o, best = Some (t, o) -> queue q t <> [] /\ o = excess res rem t) ->
  match foldl (consider res q) best l with
  | None => best = None /\ forall t, t ∈ l -> queue q t = []
  | Some (t, o) => queue q t <> [] /\ o = excess res rem t /\
      (forall t' o', best = Some (t', o') -> o' <= o) /\
      forall t', t' ∈ l -> queue q t' <> [] -> excess res rem t' <= o
  end.
Proof.
  intros Hh. revert best. induction l as [|x l IH]; intros best Hbest; cbn [foldl].
  { destruct best as [[t o]|]; [|split; [done|intros t Ht; by apply not_elem_of_nil in Ht]].
    destruct (Hbest t o eq_refl). split_and!; [done|done|by intros ? ? [= -> ->]|].
    intros t' Ht. by apply not_elem_of_nil in Ht. }
  assert (queue q x <> [] -> default 0 (tagUsage q !! x) - default 0 (res !! x) = excess res rem x) as Hx.
  { intros _. destruct (Hh x) as (_ & -> & _). done. }
  assert (consider res q best x = best /\ queue q x = [] \/
    queue q x <> [] /\ consider res q best x = match best with
      | None => Some (x, excess res rem x)
      | Some (_, m) => if m <? excess res rem x then Some (x, excess res rem x) else best end) as [[Hc Hq]|[Hq Hc]].
  { unfold consider, queue in *. destruct (perTag q !! x) as [[|c r]|]; [by left| |by left].
    right. split; [done|]. rewrite <- Hx by done. done. }
  - rewrite Hc. specialize (IH best Hbest). destruct (foldl _ _ l) as [[t o]|].
    + destruct IH as (? & ? & ? & IH). split_and!; [done|done|done|].
      intros t' [->|Ht]%elem_of_cons Hn; [done|auto].
    + destruct IH as [? IH]. split; [done|]. intros t' [->|Ht]%elem_of_cons; auto.
  - set (best' := consider res q best x) in *.
    assert (forall t o, best' = Some (t, o) -> queue q t <> [] /\ o = excess res rem t) as Hb'.
    { intros t o. rewrite Hc. destruct best as [[t0 o0]|].
      - case_match; [by intros [= <- <-]|]. intros E. by apply Hbest.
      - by intros [= <- <-]. }
    assert (exists t o, best' = Some (t, o) /\ excess res rem x <= o /\
      forall t' o', best = Some (t', o') -> o' <= o) as (t1 & o1 & Hb1 & Hle & Hmono).
    { rewrite Hc. destruct best as [[t0 o0]|]; [|eexists _, _; split_and!; [done|lia|done]].
      destruct (Z.ltb_spec o0 (excess res rem x)).
      - eexists _, _. split_and!; [done|lia|]. intros ? ? [= -> ->]. lia.
      - eexists _, _. split_and!; [done|lia|]. intros ? ? [= -> ->]. lia. }
    specialize (IH best' Hb'). destruct (foldl _ _ l) as [[t o]|].
    + destruct IH as (? & ? & Hge & IH). pose proof (Hge _ _ Hb1). split_and!; [done|done| |].
      * intros t' o' E. specialize (Hmono _ _ E). lia.
      * intros t' [->|Ht]%elem_of_cons Hn; [lia|auto].
    + destruct IH as [E _]. congruence.
Qed.

Lemma pick_target_spec `{GoMapRange} round res q rem :
  holds q rem ->
  match pick_target round res q with
  | None => rem = []
  | Some t => queue q t <> [] /\ forall c, c ∈ rem -> excess res rem (ec_tag c) <= excess res rem t
  end.
Proof.
  intros Hh. unfold pick_target. set (l := range_keys _ _).
  assert (forall c, c ∈ rem -> ec_tag c ∈ l /\ queue q (ec_tag c) <> []) as Hin.
  { intros c Hc. destruct (Hh (ec_tag c)) as (Hq & _ & Hs).
    assert (c ∈ of_tag (ec_tag c) rem) as Hc' by by apply list_elem_of_filter.
    assert (of_tag (ec_tag c) rem <> []) as Hne by (intros E; rewrite E in Hc'; by apply not_elem_of_nil in Hc').
    split; [|intros E; rewrite E in Hq; by apply Permutation_nil_l in Hq].
    destruct (Hs Hne) as [u Hu]. unfold l. rewrite range_keys_Permutation.
    apply list_elem_of_fmap. exists (ec_tag c, u). split; [done|]. by apply elem_of_map_to_list. }
  pose proof (consider_fold res q rem l None Hh ltac:(done)) as Hf.
  destruct (foldl _ _ l) as [[t o]|]; cbn.
  - destruct Hf as (Hq & -> & _ & Hmax). split; [done|]. intros c Hc. destruct (Hin c Hc). auto.
  - destruct Hf as [_ Hf]. destruct rem as [|c rem]; [done|].
    destruct (Hin c ltac:(left)) as [Hl Hq]. by rewrite (Hf _ Hl) in Hq.
Qed.

Lemma pop_spec q rem t : holds q rem -> ordered q -> queue q t <> [] ->
  exists c q' rem', pop q t = Some (c, q') /\ ec_tag c = t /\ rem ≡ₚ c :: rem' /\
    (forall c', c' ∈ rem -> ec_tag c' = t -> logicalExpiry c <= logicalExpiry c') /\
    holds q' rem' /\ ordered q'.
Proof.
  intros Hh Ho Hq. destruct (Hh t) as (Hp & Hu & _). unfold queue in Hp, Hq.
  unfold pop. destruct (perTag q !! t) as [[|c rest]|] eqn:Eq; [done| |done]. cbn [from_option id] in Hp.
  assert (c ∈ of_tag t rem) as Hc by (rewrite <- Hp; left).
  apply list_elem_of_filter in Hc as [Ht Hc]. apply elem_of_Permutation in Hc as [rem' Hrem].
  exists c, {| perTag := <[t := rest]> (perTag q); tagUsage := <[t := default 0 (tagUsage q !! t) - blockSize]> (tagUsage q) |}, rem'.
  assert (of_tag t rem ≡ₚ c :: of_tag t rem') as Hot.
  { unfold of_tag. rewrite Hrem, filter_cons_True by done. done. }
  split_and!; [done|done|done| | |].
  - intros c' Hc' Ht'. assert (c' ∈ c :: rest) as Hin by (rewrite Hp; by apply list_elem_of_filter).
    specialize (Ho t). unfold queue in Ho. rewrite Eq in Ho. cbn [from_option id] in Ho.
    apply StronglySorted_inv in Ho as [_ Ho]. rewrite Forall_forall in Ho.
    apply elem_of_cons in Hin as [->|Hin]; [lia|]. specialize (Ho c' Hin). cbn in Ho. lia.
  - intros t'. unfold queue. cbn [perTag tagUsage]. destruct (decide (t = t')) as [<-|Hne].
    + rewrite !lookup_insert_eq. cbn [from_option id]. rewrite Hot in Hp. apply Permutation_cons_inv in Hp.
      split_and!; [done| |eauto]. rewrite Hu, Hot, blockSize_Z. cbn [length]. lia.
    + rewrite !lookup_insert_ne by done. destruct (Hh t') as (Hp' & Hu' & Hs').
      assert (of_tag t' rem ≡ₚ of_tag t' rem') as Ho'.
      { unfold of_tag. rewrite Hrem, filter_cons_False by congruence. done. }
      split_and!; [by rewrite <- Ho'|by rewrite <- Ho'|].
      intros Hn. apply Hs'. intros E. rewrite E in Ho'. by apply Permutation_nil_l in Ho'.
  - intros t'. unfold queue. cbn [perTag]. destruct (decide (t = t')) as [<-|Hne].
    + rewrite lookup_insert_eq. specialize (Ho t). unfold queue in Ho. rewrite Eq in Ho.
      by apply StronglySorted_inv in Ho as [? _].
    + rewrite lookup_insert_ne by done. apply Ho.
Qed.
End Queues.

(** ** The order of eviction *)

(** Each victim belongs to a tag of largest excess at that point and expires first
    within its tag. *)
Inductive greedy `{GoFloat} (res : gmap Tag Z) : list evictCandidate -> list evictCandidate -> Prop :=
  | greedy_nil rem : greedy res rem []
  | greedy_cons rem c rem' vs :
      rem ≡ₚ c :: rem' ->
      (forall c', c' ∈ rem -> excess res rem (ec_tag c') <= excess res rem (ec_tag c)) ->
      (forall c', c' ∈ rem -> ec_tag c' = ec_tag c -> logicalExpiry c <= logicalExpiry c') ->
      greedy res rem' vs -> greedy res rem (c :: vs).

Lemma greedy_sub `{GoFloat} res rem vs : greedy res rem vs -> exists kept, rem ≡ₚ vs ++ kept.
Proof.
  induction 1 as [rem|rem c rem' vs Hp _ _ _ [kept IH]]; [by exists rem|].
  exists kept. cbn. by rewrite Hp, IH.
Qed.

(** Removing evicted blocks and leaving tombstones. *)
Definition drop_blocks (bl : gmap ID stored) (vs : list evictCandidate) : gmap ID stored :=
  foldl (fun bl c => delete (ec_id c) bl) bl vs.

Lemma drop_blocks_lookup bl vs id :
  drop_blocks bl vs !! id = if decide (id ∈ ec_id <$> vs) then None else bl !! id.
Proof.
  unfold drop_blocks. revert bl. induction vs as [|c vs IH]; intros bl; cbn; [done|].
  rewrite IH. destruct (decide (id = ec_id c)) as [->|Hne].
  - rewrite lookup_delete_eq, (decide_True (P := ec_id c ∈ _ :: _)) by left. by case_decide.
  - rewrite lookup_delete_ne by done. repeat case_decide; rewrite elem_of_cons in *; tauto.
Qed.

(** Victims are stored blocks, and each is removed once. *)
Lemma drop_blocks_size bl vs : NoDup (ec_id <$> vs) -> Forall (fun c => is_Some (bl !! ec_id c)) vs ->
  size bl = (size (drop_blocks bl vs) + length vs)%nat.
Proof.
  unfold drop_blocks. revert bl. induction vs as [|c vs IH]; intros bl Hnd HF; cbn [foldl length]; [lia|].
  apply NoDup_cons in Hnd as [Hc Hnd]. apply Forall_cons in HF as [[r Hr] HF].
  rewrite <- (insert_delete_id bl (ec_id c) r Hr) at 1. rewrite map_size_insert_None by apply lookup_delete_eq.
  rewrite (IH (delete (ec_id c) bl) Hnd); [lia|]. rewrite Forall_forall in HF |- *. intros c' Hc'.
  rewrite lookup_delete_ne; [by apply HF|]. intros Heq. apply Hc. rewrite Heq. by apply list_elem_of_fmap_2.
Qed.

Lemma greedy_victims `{GoFloat} res bl vs : greedy res (cands bl) vs ->
  NoDup (ec_id <$> vs) /\ forall c, c ∈ vs -> exists r, bl !! ec_id c = Some r /\ c = candidate (ec_id c) r.
Proof.
  intros [kept Hp]%greedy_sub. split.
  - pose proof (cands_NoDup bl) as Hnd. rewrite Hp, fmap_app in Hnd. by apply NoDup_app in Hnd as [? _].
  - intros c Hc. assert (c ∈ cands bl) as (id & r & Hr & ->)%cands_elem by (rewrite Hp; set_solver). by exists r.
Qed.

Section Loop.
Context `{BadgerLaws, GoFloat, GoMapRange}.

Lemma delete_quiet_Ok t k t' : delete_quiet t k = Ok t' ->
  txn_now t' = txn_now t /\ (txn_map t' = delete k (txn_map t) \/
    t' = t /\ live (txn_now t) (txn_map t) !! k = None).
Proof.
  unfold delete_quiet. destruct (txn_Delete t k) as [t1|e] eqn:E.
  - intros [= <-]. apply txn_Delete_Ok in E as [? ?]. auto.
  - destruct e; try done. intros [= <-]. apply txn_Delete_missing in E. auto.
Qed.

(** Evicting one stored block. *)
Lemma evict_body_Ok now d d' bl id r :
  rep (db_map d) bl -> bl !! id = Some r ->
  db_Update now d (evict_body (candidate id r)) = (d', Ok tt) ->
  rep (db_map d') (delete id bl) /\
  db_map d' !! tombKey id = Some ([], Some (Unix (now + tombTTL (candidate id r)))) /\
  (forall k, starts tombPrefix k -> k <> tombKey id -> db_map d' !! k = db_map d !! k).
Proof.
  intros Hrep Hl. destruct (rep_wf _ _ Hrep _ _ Hl) as [Hid Hr].
  intros (t & Hb & Hd)%db_Update_Ok. unfold evict_body in Hb. cbn [candidate ec_id ec_createdAt] in Hb.
  apply bind_Ok in Hb as (t1 & He1 & Hb). apply bind_Ok in Hb as (t2 & He2 & He3).
  destruct (txn_start now d) as [Hm0 Hn0].
  apply delete_quiet_Ok in He1 as [Hn1 [Hm1|[-> Hm1]]].
  2:{ rewrite Hm0, Hn0, (rep_block_key _ _ Hrep), Hl in Hm1 by done. done. }
  rewrite Hm0 in Hm1. rewrite Hn0 in Hn1.
  assert (live now (txn_map t1) !! trav_key id r = Some (trav_val r)) as Hlive.
  { unfold live. rewrite lookup_omap, Hm1, lookup_delete_ne by (eapply starts_ne; done).
    assert (db_map d !! trav_key id r = Some (trav_val r, None)) as ->; [|done].
    apply Hrep; [done|eauto]. }
  apply delete_quiet_Ok in He2 as [Hn2 [Hm2|[-> Hm2]]].
  2:{ rewrite Hn1 in Hm2. unfold trav_key in Hlive. by rewrite Hlive in Hm2. }
  apply txn_SetEntry_Ok in He3 as [_ He3]. rewrite Hn2, Hn1 in He3. cbn in He3. rewrite Hd, He3.
  assert (txn_map t2 = delete (trav_key id r) (delete (blockKey id) (db_map d))) as Hm by by rewrite Hm2, Hm1.
  split_and!.
  - eapply rep_other; [|done|done|done]. rewrite Hm. by apply rep_delete.
  - by rewrite lookup_insert_eq.
  - intros k Hk Hne. rewrite lookup_insert_ne by done. rewrite Hm.
    by rewrite !lookup_delete_ne by (eapply starts_ne; done).
Qed.

(** A tombstone laid by the eviction of [c] at [now]. *)
Definition laid (now : Z) (m : kv) (c : evictCandidate) : Prop :=
  m !! tombKey (ec_id c) = Some ([], Some (Unix (now + tombTTL c))).

Lemma tombKey_inj id1 id2 : is_ID id1 -> is_ID id2 -> tombKey id1 = tombKey id2 -> id1 = id2.
Proof. intros ? ?. rewrite !tombKey_eq by done. by intros [=]. Qed.

(** What the loop leaves of the tombstones. *)
Definition tombs_after (now : Z) (m m' : kv) (vs : list evictCandidate) : Prop :=
  Forall (laid now m') vs /\
  forall k, starts tombPrefix k -> k ∉ tombKey ∘ ec_id <$> vs -> m' !! k = m !! k.

Lemma tombs_after_nil now m : tombs_after now m m [].
Proof. split; [constructor|done]. Qed.

Lemma tombs_after_cons now m m1 m' c vs :
  is_ID (ec_id c) -> Forall (fun x => is_ID (ec_id x) /\ ec_id x <> ec_id c) vs ->
  laid now m1 c ->
  (forall k, starts tombPrefix k -> k <> tombKey (ec_id c) -> m1 !! k = m !! k) ->
  tombs_after now m1 m' vs -> tombs_after now m m' (c :: vs).
Proof.
  intros Hid HF Hc Hother [Hvs Hrest]. split.
  - constructor; [|done]. unfold laid. rewrite Hrest; [exact Hc|done|].
    intros (x & Hx & Hin)%list_elem_of_fmap. cbn in Hx. rewrite Forall_forall in HF.
    destruct (HF x Hin) as [Hidx Hne]. apply tombKey_inj in Hx; congruence.
  - intros k Hk Hnin. rewrite fmap_cons in Hnin. apply not_elem_of_cons in Hnin as [Hne Hnin].
    by rewrite Hrest, Hother.
Qed.

(** The loop evicts a greedy sequence; without an error it stops when [n] blocks are
    evicted or none remain. *)
Lemma evict_loop_spec fuel now res d q bl rem n k d' k' err :
  rep (db_map d) bl -> NoDup (ec_id <$> rem) ->
  (forall c, c ∈ rem -> exists r, bl !! ec_id c = Some r /\ c = candidate (ec_id c) r) ->
  holds q rem -> ordered q -> (length rem < fuel)%nat -> k <= n ->
  evict_loop fuel now res d q n k = (d', (k', err)) ->
  exists vs, greedy res rem vs /\ k' = k + Z.of_nat (length vs) /\
    rep (db_map d') (drop_blocks bl vs) /\ tombs_after now (db_map d) (db_map d') vs /\
    (err = None -> k' = Z.min n (k + Z.of_nat (length rem))).
Proof.
  revert d q bl rem k. induction fuel as [|fuel IH]; intros d q bl rem k Hrep Hnd Hbl Hh Ho Hf Hk; [lia|].
  assert (forall err', (err' = None -> k = Z.min n (k + Z.of_nat (length rem))) -> forall d1,
    db_map d1 = db_map d -> (d1, (k, err')) = (d', (k', err)) ->
    exists vs, greedy res rem vs /\ k' = k + Z.of_nat (length vs) /\
    rep (db_map d') (drop_blocks bl vs) /\ tombs_after now (db_map d) (db_map d') vs /\
    (err = None -> k' = Z.min n (k + Z.of_nat (length rem)))) as Hstop.
  { intros err' He d1 Hd [= <- <- <-]. exists []. rewrite Hd.
    split_and!; [constructor|cbn; lia|done|apply tombs_after_nil|done]. }
  cbn [evict_loop]. destruct (Z.leb_spec n k); [apply Hstop; [lia|done]|].
  pose proof (pick_target_spec (S fuel) res q rem Hh) as Hpick.
  destruct (pick_target _ res q) as [t|]; [|subst rem; apply Hstop; [cbn; lia|done]].
  destruct Hpick as [Hq Hmax].
  destruct (pop_spec q rem t Hh Ho Hq) as (c & q' & rem' & -> & Htag & Hrem & Hmin & Hh' & Ho').
  assert (c ∈ rem) as Hc by (rewrite Hrem; left). destruct (Hbl c Hc) as (r & Hl & Hcr).
  pose proof (Permutation_length Hrem) as Hlen. cbn [length] in Hlen.
  destruct (db_Update now d (evict_body c)) as [d1 [[]|e]] eqn:Eu;
    [|apply Hstop; [done|by eapply db_Update_Err]].
  rewrite Hcr in Eu. destruct (evict_body_Ok _ _ _ _ _ _ Hrep Hl Eu) as (Hrep1 & Htomb & Hother).
  rewrite <- Hcr in Htomb. rewrite Hrem, fmap_cons in Hnd. apply NoDup_cons in Hnd as [Hnin Hnd].
  assert (forall x, x ∈ rem' -> ec_id x <> ec_id c /\ exists r, bl !! ec_id x = Some r /\ x = candidate (ec_id x) r)
    as Hrem'.
  { intros x Hx. split; [|apply Hbl; rewrite Hrem; by right].
    intros Heq. apply Hnin. rewrite <- Heq. by apply list_elem_of_fmap_2. }
  intros E. eapply IH in E as (vs & Hg & Hk' & Hrep' & Htombs & Hend);
    [|exact Hrep1|exact Hnd| |exact Hh'|exact Ho'|lia|lia].
  - exists (c :: vs). split_and!; [|cbn [length]; lia|done| |intros He; specialize (Hend He); lia].
    + econstructor; [exact Hrem|by rewrite Htag|rewrite Htag; auto|done].
    + eapply tombs_after_cons; [apply (rep_wf _ _ Hrep _ _ Hl)| |exact Htomb|exact Hother|done].
      destruct (greedy_sub _ _ _ Hg) as [kept Hkept]. apply Forall_forall. intros x Hx.
      destruct (Hrem' x) as (Hne & rx & Hlx & _); [rewrite Hkept; set_solver|].
      split; [apply (rep_wf _ _ Hrep _ _ Hlx)|done].
  - intros x Hx. destruct (Hrem' x Hx) as (Hne & rx & Hlx & Hxr).
    exists rx. split; [|done]. by rewrite lookup_delete_ne.
Qed.

Lemma Evict_spec `{GoSort} now n s s' k err bl :
  rep (db_map (db s)) bl -> 0 < n -> Evict now n s = (s', (k, err)) ->
  exists vs, greedy (reservations s) (cands bl) vs /\ k = Z.of_nat (length vs) /\
    rep (db_map (db s')) (drop_blocks bl vs) /\ tombs_after now (db_map (db s)) (db_map (db s')) vs /\
    (err = None -> k = Z.min n (Z.of_nat (size bl))).
Proof.
  intros Hrep Hn. unfold Evict. rewrite (proj2 (Z.leb_gt _ _)) by done.
  assert (length (cands bl) = size bl) as Hsize
    by (unfold cands; by rewrite length_fmap, length_map_to_list).
  destruct (scan_candidates _) as [all|e] eqn:Es.
  2:{ intros [= <- <- <-]. exists []. split_and!; [constructor|done|done|apply tombs_after_nil|done]. }
  apply (scan_candidates_spec _ bl (start_rep _ _ _ Hrep)) in Es.
  destruct (evict_loop _ _ _ _ _ _ _) as [d [k1 err1]] eqn:El. intros [= <- <- <-].
  destruct (build_holds all) as [Hh Ho].
  assert (holds (build_queues all) (cands bl)) as Hh'.
  { by eapply holds_Permutation. }
  eapply evict_loop_spec in El as (vs & Hg & Hk & Hrep' & Ht & Hend);
    [|exact Hrep|apply cands_NoDup| |exact Hh'|exact Ho|rewrite <- (Permutation_length Es); lia|lia].
  - exists vs. rewrite Hsize in Hend. split_and!; [done|lia|done|done|]. intros He. specialize (Hend He). lia.
  - intros c (id & r & Hl & ->)%cands_elem. exists r. done.
Qed.
End Loop.

(** ** Storing under a limit *)

Definition new_block (now : Z) (stamp : Stamp) (payload : Payload) (tag : Tag) `{Hashes} : stored :=
  {| st_stamp := stamp; st_wf := WorkFactor stamp payload; st_createdAt := Unix now;
     st_tag := tag; st_payload := payload |}.

Section Put.
Context `{BadgerLaws, HashesLaws, GoSort, GoFloat, GoMapRange}.

Lemma new_block_wf now stamp payload tag :
  is_Stamp stamp -> is_Payload payload -> is_Tag tag -> in_created (Unix now) ->
  wf_stored (new_block now stamp payload tag).
Proof.
  intros. pose proof (WorkFactor_range stamp payload). split_and!; cbn; try done; lia.
Qed.

Lemma Put_spec now stamp payload tag s s' r bl :
  rep (db_map (db s)) bl -> is_Stamp stamp -> is_Payload payload -> is_Tag tag -> in_created (Unix now) ->
  Put now stamp payload tag s = (s', r) ->
  let id := ComputeID payload in
  let bl1 := abs_put (tombed now (db_map (db s)) id) id (new_block now stamp payload tag) bl in
  match r with
  | Err _ => db_map (db s') = db_map (db s)
  | Ok i => i = id /\ exists vs, greedy (reservations s) (cands bl1) vs /\
      (storageLimit s <= 0 -> vs = []) /\
      rep (db_map (db s')) (drop_blocks bl1 vs) /\ tombs_after now (db_map (db s)) (db_map (db s')) vs
  end.
Proof.
  intros Hrep Hst Hpl Htag Hnow. cbn zeta. unfold Put. set (id := ComputeID payload).
  set (nb := new_block now stamp payload tag).
  assert (wf_stored nb) as Hnb by by apply new_block_wf.
  destruct (db_Update _ _ _) as [d [[]|e]] eqn:Eu.
  2:{ intros [= <- <-]. cbn [db with_db]. by eapply db_Update_Err. }
  apply db_Update_Ok in Eu as (t & Hb & Hd).
  pose proof (put_body_Ok now id nb (NewTransaction now (db s)) t bl (start_rep now s bl Hrep)
    (ComputeID_is_ID payload) Hnb eq_refl Hb) as [Hrep1 Htombs].
  rewrite <- Hd in Hrep1, Htombs. rewrite start_tombed in Hrep1.
  rewrite (proj1 (txn_start now (db s))) in Htombs.
  set (bl1 := abs_put _ _ _ _) in *.
  assert (forall s1, db_map (db s1) = db_map d -> exists vs : list evictCandidate,
    greedy (reservations s) (cands bl1) vs /\ (storageLimit s <= 0 -> vs = []) /\
    rep (db_map (db s1)) (drop_blocks bl1 vs) /\
    tombs_after now (db_map (db s)) (db_map (db s1)) vs) as Hnone.
  { intros s1 Hs1. exists []. rewrite Hs1. split_and!; [constructor|done|done|]. split; [constructor|].
    intros k Hk _. by apply Htombs. }
  cbn [storageLimit with_db]. destruct (Z.ltb_spec 0 (storageLimit s)) as [Hlim|Hlim];
    [|intros [= <- <-]; split; [done|by apply Hnone]].
  case_match; [|intros [= <- <-]; split; [done|by apply Hnone]].
  set (needed := if _ <? 1 then 1 else _). assert (0 < needed) as Hneed.
  { unfold needed. destruct (Z.ltb_spec (Z.quot (DiskUsageBytes (with_db s d) - storageLimit s) blockSize + evictBatch) 1); lia. }
  destruct (Evict now needed (with_db s d)) as [s1 [k err]] eqn:Ee. cbn [fst].
  intros [= <- <-]. split; [done|].
  destruct (Evict_spec now needed (with_db s d) s1 k err bl1 Hrep1 Hneed Ee) as (vs & Hg & _ & Hr & [Ht1 Ht2] & _).
  exists vs. split_and!; [done|lia|done|]. split; [done|].
  intros k' Hk' Hnin. rewrite Ht2 by done. by apply Htombs.
Qed.

(** Tombstones outlive what happens to other blocks. *)
Lemma laid_tombed now now' m m' vs c :
  tombs_after now m m' vs -> c ∈ vs -> Unix now' < Unix (now + tombTTL c) ->
  tombed now' m' (ec_id c) = true.
Proof.
  intros [Hl _] Hc Hlt. rewrite Forall_forall in Hl. specialize (Hl c Hc). unfold laid in Hl.
  unfold tombed, live. rewrite lookup_omap, Hl. cbn [mbind option_bind live_entry snd fst].
  unfold live_entry. cbn [snd fst]. by rewrite (proj2 (Z.leb_gt _ _)).
Qed.
End Put.

(** ** The median *)

#[export] Instance Zltb_StrictWeak : StrictWeak Z.ltb := key_StrictWeak (fun z => z).

(** The slots of a full store: those not taken count as work factor 0. *)
Definition padded `{GoSort} (capacity : Z) (wfs : list Z) : list Z :=
  sort_Slice Z.ltb (replicate (Z.to_nat capacity - length wfs) 0 ++ wfs).

Lemma sort_pad `{GoSort} k wfs : Forall (fun w => 0 <= w) wfs ->
  sort_Slice Z.ltb (replicate k 0 ++ wfs) = replicate k 0 ++ sort_Slice Z.ltb wfs.
Proof.
  intros Hpos.
  assert (forall l, StronglySorted (fun x y => (y <? x) = false) l -> StronglySorted Z.le l) as Hle.
  { intros l Hs. induction Hs as [|x l Hs IH Hx]; constructor; [done|].
    eapply Forall_impl; [exact Hx|]. cbn. intros y Hy. by apply Z.ltb_ge. }
  apply (StronglySorted_unique Z.le).
  - apply Hle, sort_Slice_sorted, _.
  - induction k as [|k IH]; cbn; [apply Hle, sort_Slice_sorted, _|]. constructor; [done|].
    apply Forall_app. split; [by apply Forall_replicate|]. by rewrite sort_Slice_Permutation.
  - by rewrite !sort_Slice_Permutation.
Qed.

Lemma median_of_spec `{GoSort} limit wfs capacity half :
  capacity = Z.quot (if limit =? 0 then defaultStorageLimit else limit) blockSize ->
  half = Z.quot capacity 2 -> Forall (fun w => 0 <= w) wfs ->
  median_of limit wfs =
    if Z.of_nat (length wfs) <=? half then Some 0
    else if half <=? 0 then None
    else sort_Slice Z.ltb wfs !! Z.to_nat (Z.of_nat (length wfs) - half).
Proof.
  intros -> -> Hpos. unfold median_of. set (h := Z.quot _ 2).
  destruct (Z.leb_spec (Z.of_nat (length wfs)) h); [done|].
  destruct (Z.leb_spec h 0).
  - rewrite (proj2 (Z.ltb_ge _ _)) by lia. by rewrite andb_false_r.
  - by rewrite (proj2 (Z.ltb_lt _ _)), (proj2 (Z.leb_le _ _)) by lia.
Qed.
