(* ===== verification/BadgerSpec.v ===== *)
(** The contract of the key-value backend: its properties, and a reference
    key-value store at which they are instantiated. *)
From Stdlib Require Import String.
From S2P Require Import Prelude Codec Block Store Bloom Badger BadgerFacts BadgerEvict.

Section Contract.
Context `{BadgerLaws, HashesLaws, GoSort, GoFloat, GoMapRange}.

(** C2: [Put] refines an update of a finite map of blocks.  On success the block is in
    the map with its stamp, work factor, time and tag unless a tombstone is live or a
    version of at least the same work factor is there, and then a greedily chosen set of
    blocks is evicted, none when there is no limit; block entries, traversal entries and
    tombstones stay consistent.  A failed [Put] changes nothing. *)
Theorem badger_Put_refines now stamp payload tag s bl :
  rep (db_map (db s)) bl -> is_Stamp stamp -> is_Payload payload -> is_Tag tag -> in_created (Unix now) ->
  let id := ComputeID payload in
  let new := new_block now stamp payload tag in
  let '(s', r) := Put now stamp payload tag s in
  match r with
  | Err _ => db_map (db s') = db_map (db s)
  | Ok i => i = id /\ exists bl1 vs,
      (forall id', id' <> id -> bl1 !! id' = bl !! id') /\
      bl1 !! id = (if tombed now (db_map (db s)) id then bl !! id
                   else match bl !! id with
                        | Some old => if st_wf new <=? st_wf old then Some old else Some new
                        | None => Some new
                        end) /\
      greedy (reservations s) (cands bl1) vs /\ (storageLimit s <= 0 -> vs = []) /\
      rep (db_map (db s')) (drop_blocks bl1 vs) /\ tombs_after now (db_map (db s)) (db_map (db s')) vs
  end.
Proof.
  intros Hrep Hst Hpl Htag Hnow. cbn zeta. destruct (Put now stamp payload tag s) as [s' r] eqn:E.
  pose proof (Put_spec _ _ _ _ _ _ _ _ Hrep Hst Hpl Htag Hnow E) as Hp. cbn zeta in Hp.
  destruct r as [i|e]; [|done]. destruct Hp as [-> (vs & Hp)]. split; [done|].
  eexists _, vs. split; [|split]; [..|exact Hp].
  - intros id' Hne. unfold abs_put. case_match; [done|].
    destruct (bl !! ComputeID payload); [case_match; [done|]|]; by apply lookup_insert_ne.
  - unfold abs_put. case_match; [done|]. destruct (bl !! ComputeID payload) as [old|] eqn:El.
    + case_match; [done|apply lookup_insert_eq].
    + apply lookup_insert_eq.
Qed.

(** C12: [Evict n] removes a greedy sequence of blocks: each victim belongs to a tag
    furthest above its reservation at that point and expires first within the tag.  It
    reports how many; without an error that is [min n k] of [k] blocks.  Each victim
    leaves a tombstone for twice the lifetime of its work factor from now on, other
    tombstones stay, and all other blocks stay readable.  (The comment of [Store.Evict],
    blockstore/design.md and docs/security.md speak of the remaining lifetime.) *)
Theorem badger_Evict_greedy now n s bl :
  rep (db_map (db s)) bl -> 0 < n ->
  let '(s', (k, err)) := Evict now n s in
  exists vs, greedy (reservations s) (cands bl) vs /\ k = Z.of_nat (length vs) /\
    (err = None -> k = Z.min n (Z.of_nat (size bl))) /\
    rep (db_map (db s')) (drop_blocks bl vs) /\
    (forall id, drop_blocks bl vs !! id = if decide (id ∈ ec_id <$> vs) then None else bl !! id) /\
    tombs_after now (db_map (db s)) (db_map (db s')) vs.
Proof.
  intros Hrep Hn. destruct (Evict now n s) as [s' [k err]] eqn:E.
  destruct (Evict_spec _ _ _ _ _ _ _ Hrep Hn E) as (vs & Hg & Hk & Hr & Ht & He).
  exists vs. split_and!; try done. intros id. apply drop_blocks_lookup.
Qed.



(** [Get], [GetWorkFactor] and [Has] read the map of blocks: a result is the stamp,
    payload and work factor stored under the id, [ErrNotFound] means there is none, and
    [Has] is true exactly for stored or tombstoned ids. *)
Theorem badger_reads now s bl id :
  rep (db_map (db s)) bl -> is_ID id ->
  match Get now s id with
  | Ok p => exists r, bl !! id = Some r /\ p = (st_stamp r, st_payload r)
  | Err ErrNotFound => bl !! id = None
  | Err _ => True
  end /\
  match GetWorkFactor now s id with
  | Ok w => exists r, bl !! id = Some r /\ w = st_wf r
  | Err ErrNotFound => bl !! id = None
  | Err _ => True
  end /\
  match Has now s id with
  | Ok b => b = bool_decide (is_Some (bl !! id)) || tombed now (db_map (db s)) id
  | Err _ => True
  end.
Proof.
  intros Hrep Hid. split_and!; [by apply Get_spec|by apply GetWorkFactor_spec|].
  destruct (Has now s id) as [b|] eqn:E; [|done]. by apply (Has_spec now s bl Hrep).
Qed.

(** C9: A listing that succeeds is the page, after the cursor, of the blocks in the
    order (created_at, id) that meet the floors; the token is that of the last entry of
    a full page, and the token of each reference resumes after that reference. *)
Theorem badger_ListBlocks_refines now s bl token cur limit powFloor since next refs :
  rep (db_map (db s)) bl -> 0 < limit -> in_s64 (Unix since) ->
  let idx := badger_index (db_map (db s)) in
  valid_token idx token cur ->
  ListBlocks now s token limit powFloor since = Ok (next, refs) ->
  let p := page idx cur limit powFloor (Unix since) in
  StronglySorted (fun x y => lex_ltb (en_key x) (en_key y) = true) idx /\
  (forall e, e ∈ idx <-> exists id r, bl !! id = Some r /\ e = stored_entry id r) /\
  next = page_token limit p /\ ref_view <$> refs = entry_view <$> p /\
  Token <$> refs = encodeCursor ∘ en_cursor <$> p.
Proof.
  intros Hrep Hl Hs idx Ht HL. destruct (badger_ListBlocks_page _ _ _ _ _ _ _ _ _ _ Hrep Hl Hs Ht HL)
    as (H1' & H2' & H3'). split_and!; [by eapply badger_index_sorted| |done|done|].
  - intros e. by apply badger_index_elem.
  - apply (f_equal (fmap encodeCursor)) in H3'. rewrite <- !list_fmap_compose in H3'. exact H3'.
Qed.

(** The median is that of the store filled up to capacity with blocks of work
    factor 0, at index [capacity - capacity/2]: for an even capacity the upper middle.  A
    store at most half full has median 0.  The computation panics exactly when the limit
    is below two blocks and something is stored. *)
Theorem badger_median limit wfs :
  let capacity := Z.quot (if limit =? 0 then defaultStorageLimit else limit) blockSize in
  let half := Z.quot capacity 2 in
  let n := Z.of_nat (length wfs) in
  Forall (fun w => 0 <= w) wfs ->
  (median_of limit wfs = None <-> half <= 0 /\ half < n) /\
  (n <= half -> median_of limit wfs = Some 0) /\
  (0 < half < n -> n <= capacity ->
   median_of limit wfs = padded capacity wfs !! Z.to_nat (capacity - half)).
Proof.
  intros capacity half n Hpos. rewrite (median_of_spec limit wfs capacity half) by done. fold n.
  split_and!.
  - destruct (Z.leb_spec n half); [split; [done|lia]|]. destruct (Z.leb_spec half 0); [split; [lia|done]|].
    split; [|lia]. intros Hnone%lookup_ge_None.
    rewrite (Permutation_length (sort_Slice_Permutation _ _)) in Hnone. lia.
  - intros Hle. by rewrite (proj2 (Z.leb_le _ _)).
  - intros [Hh Hn] Hcap. rewrite (proj2 (Z.leb_gt _ _)), (proj2 (Z.leb_gt half 0)) by lia.
    unfold padded. rewrite sort_pad by done. rewrite lookup_app_r; rewrite length_replicate; [|lia].
    f_equal. lia.
Qed.
End Contract.

(** ** A reference key-value store

    The data is the map itself; transactions work on a copy; nothing fails. *)

Definition ref_live_items (now : Z) (m : kv) (pre start : bytes) : list (bytes * bytes) :=
  filter (fun x => has_prefix pre x.1 = true /\ bytes_ltb x.1 start = false)
    (merge_sort_less (fun x y => lex_ltb (0, x.1) (0, y.1)) (map_to_list (live now m))).

Definition ref_Badger : Badger := {|
  DB := kv;
  Txn := Z * kv;
  Item := bytes;
  NewTransaction now d := (now, d);
  txn_Get t k := match live t.1 t.2 !! k with Some v => Ok v | None => Err ErrKeyNotFound end;
  item_Value it := Ok it;
  txn_SetEntry t k v ttl := Ok (t.1, <[k := (v, (fun d => Unix (t.1 + d)) <$> ttl)]> t.2);
  txn_Delete t k := Ok (t.1, delete k t.2);
  txn_Iterate t pre start := ref_live_items t.1 t.2 pre start;
  txn_Commit d t := (t.2, None);
  db_Size d := (blockSize * Z.of_nat (size d), 0);
  db_RunValueLogGC d := (d, GcNoRewrite);
|}.

Lemma ref_items_sorted now m pre start :
  StronglySorted (fun x y => bytes_ltb x.1 y.1 = true) (ref_live_items now m pre start).
Proof.
  apply filter_StronglySorted.
  assert (forall x y : bytes * bytes, lex_ltb (0, x.1) (0, y.1) = bytes_ltb x.1 y.1) as Hk by done.
  pose proof (@sort_Slice_strict _ (fun x : bytes * bytes => (0, x.1)) merge_GoSort (map_to_list (live now m))) as Hs.
  cbn beta in Hs. apply Hs.
  pose proof (NoDup_fst_map_to_list (live now m)) as Hn.
  apply (NoDup_fmap_2 (fun k : bytes => (0, k))) in Hn. by rewrite <- list_fmap_compose in Hn.
Qed.

Lemma ref_items_elem now m pre start k v :
  (k, v) ∈ ref_live_items now m pre start <->
  live now m !! k = Some v /\ has_prefix pre k = true /\ bytes_ltb k start = false.
Proof.
  unfold ref_live_items. rewrite list_elem_of_filter, merge_sort_less_Permutation, elem_of_map_to_list.
  cbn [fst]. tauto.
Qed.

Definition ref_BadgerLaws : @BadgerLaws ref_Badger.
Proof.
  refine (@Build_BadgerLaws ref_Badger (fun d => d) (fun t => t.2) (fun t => t.1) _ _ _ _ _ _ _ _ _ _ _ _ _ _).
  - done.
  - intros t k it. cbn. destruct (live t.1 t.2 !! k); intros [= <-]. eexists. split; [done|]. by intros v' [= ->].
  - intros t k. cbn. by destruct (live t.1 t.2 !! k).
  - done.
  - intros t k. cbn. by destruct (live t.1 t.2 !! k).
  - intros t k v ttl t'. cbn. by intros [= <-].
  - intros t k t'. cbn. by intros [= <-].
  - done.
  - intros t pre start. apply ref_items_sorted.
  - intros t pre start k. cbn. setoid_rewrite ref_items_elem. unfold is_Some. naive_solver.
  - intros t pre start k it v. cbn. intros [Hl _]%ref_items_elem [= <-]. done.
  - intros d t d'. cbn. by intros [= <-].
  - done.
  - done.
Defined.

Definition ref_GoMapRange : GoMapRange := {|
  range_keys _ l := l;
  range_keys_Permutation _ _ := reflexivity _;
|}.

Module BadgerDemo.
#[local] Existing Instances ref_Badger ref_BadgerLaws ref_Hashes ref_HashesLaws ref_GoFloat ref_GoMapRange.

Definition now : Z := time_Unix 5000.

Lemma now_ok : in_created (Unix now).
Proof. split; [discriminate|reflexivity]. Qed.
Lemma tag_ok : is_Tag TagLan.
Proof. split; [discriminate|reflexivity]. Qed.

(** One block of work factor 7, created at second 1000. *)
Definition block1 : stored :=
  {| st_stamp := ref_stamp; st_wf := 7; st_createdAt := 1000; st_tag := TagGlobal; st_payload := ref_payload |}.

Lemma block1_wf : wf_stored block1.
Proof.
  split; [apply ref_stamp_ok|]. split; [apply ref_payload_ok|].
  split_and!; cbn; unfold in_created, is_Tag, TagGlobal; lia.
Qed.

Definition one_db : kv :=
  <[trav_key ref_id block1 := (trav_val block1, None)]> (<[blockKey ref_id := (block_val block1, None)]> ∅).
Definition one_map : gmap ID stored := {[ ref_id := block1 ]}.

Lemma one_rep : rep one_db one_map.
Proof. apply (rep_insert ∅ ∅ rep_empty); [apply lookup_empty|reflexivity|apply block1_wf]. Qed.

Definition one : BadgerStore :=
  {| db := one_db : @DB ref_Badger; storageLimit := 4000; reservations := ∅; medianWF := 0 |}.

Lemma bone_inv : rep (db_map (db one)) one_map.
Proof. exact one_rep. Qed.

Lemma badger_Put_refines_witness :
  match snd (Put now ref_stamp ref_payload TagLan one) with
  | Ok i => i = ComputeID ref_payload
  | Err _ => True
  end.
Proof.
  pose proof (badger_Put_refines now ref_stamp ref_payload TagLan one one_map bone_inv ref_stamp_ok ref_payload_ok tag_ok now_ok)
    as Hp. cbv zeta in Hp. destruct (Put now ref_stamp ref_payload TagLan one) as [s' [i|e]]; [exact (proj1 Hp)|exact I].
Defined.

Lemma badger_Evict_greedy_witness :
  exists vs, fst (snd (Evict now 3 one)) = Z.of_nat (length vs) /\
    greedy ∅ (cands one_map) vs.
Proof.
  pose proof (badger_Evict_greedy now 3 one one_map bone_inv eq_refl) as He.
  destruct (Evict now 3 one) as [s' [k err]]. destruct He as (vs & Hg & Hk & _).
  exists vs. split; [exact Hk|exact Hg].
Defined.




Lemma badger_reads_witness :
  match GetWorkFactor now one ref_id with
  | Ok w => exists r, one_map !! ref_id = Some r /\ w = st_wf r
  | Err ErrNotFound => one_map !! ref_id = None
  | Err _ => True
  end.
Proof. exact (proj1 (proj2 (badger_reads now one one_map ref_id bone_inv eq_refl))). Defined.

Lemma badger_ListBlocks_refines_witness :
  match ListBlocks now one [] 10 0 0 with
  | Ok (next, refs) => next = page_token 10 (page (badger_index one_db) None 10 0 (Unix 0))
  | Err _ => True
  end.
Proof.
  destruct (ListBlocks now one [] 10 0 0) as [[next refs]|e] eqn:E; [|exact I].
  apply (badger_ListBlocks_refines now one one_map [] None 10 0 0 next refs bone_inv eq_refl); 
    [split; [discriminate|reflexivity]|constructor|exact E].
Defined.

Lemma badger_median_witness :
  median_of 20000 [5; 3; 9] = padded 4 [5; 3; 9] !! 2%nat /\ median_of 4112 [5] = None.
Proof.
  split.
  - apply (badger_median 20000 [5; 3; 9]); [repeat constructor; discriminate|vm_compute; split; reflexivity|vm_compute; discriminate].
  - apply (badger_median 4112 [5]); [repeat constructor; discriminate|vm_compute; split; [discriminate|reflexivity]].
Defined.
End BadgerDemo.
