(* ===== verification/Message.v ===== *)
(** The plaintext message format of [client/message_format.go]: the fixed layout,
    its encoder and decoder, signatures over it and the reply references.
    Ed25519 is a parameter. *)
From Stdlib Require Import String.
From S2P Require Import Prelude Codec Block.

(** ** Sizes *)

Definition pubKeySize : nat := 32.
Definition nonceSize : nat := 24.
Definition tagSize : nat := 16.
Definition ciphertextOffset : nat := pubKeySize + nonceSize.
Definition plaintextSize : nat := PayloadSize - ciphertextOffset - tagSize.
Definition threadCount : nat := 8.
Definition V3HeaderSize : nat := 368.
Definition V3MaxContent : nat := plaintextSize - V3HeaderSize.

Arguments plaintextSize : simpl never.
Arguments V3MaxContent : simpl never.

Lemma plaintextSize_Z : Z.of_nat plaintextSize = 4024.
Proof.
  unfold plaintextSize, ciphertextOffset, pubKeySize, nonceSize, tagSize.
  pose proof PayloadSize_Z. lia.
Qed.

Lemma V3MaxContent_Z : Z.of_nat V3MaxContent = 3656.
Proof. unfold V3MaxContent, V3HeaderSize. pose proof plaintextSize_Z. lia. Qed.

(** ** Ed25519 *)

Class Ed25519 := {
  ed25519_Sign : bytes -> bytes -> bytes;
  ed25519_Verify : bytes -> bytes -> bytes -> bool;
  ed25519_Public : bytes -> bytes;
}.

(** A private key is 64 bytes, a public key 32, a signature 64, and what is signed
    verifies under the public key.  The keys meant are those that the program makes and
    keeps, a seed followed by its public key; every list of 64 bytes stands for one. *)
Class Ed25519Laws `{Ed25519} : Prop := {
  ed25519_Sign_length k m : length k = 64%nat -> length (ed25519_Sign k m) = 64%nat;
  ed25519_Public_length k : length k = 64%nat -> length (ed25519_Public k) = 32%nat;
  ed25519_Verify_Sign k m : length k = 64%nat ->
    ed25519_Verify (ed25519_Public k) m (ed25519_Sign k m) = true;
}.

(** ** Messages *)

Definition MagicV3 : bytes := [x53; x4e; x4b; x03].

Definition MsgTypeText : Z := 0.
Definition MsgTypeBinary : Z := 1.
Definition MsgTypeSystem : Z := 2.
Definition MsgTypePost : Z := 3.
Definition MsgTypeEdit : Z := 4.
Definition MsgTypeDelete : Z := 5.

Record MessagePayload := {
  MsgType : Z;
  Flags : Z;
  Timestamp : Z;
  SenderPub : bytes;
  Signature : bytes;
  ThreadRefs : list bytes;
  Content : bytes;
  mp_Channel : bytes;
  SentTo : bytes;
  DecryptedBy : bytes;
}.

Definition zero_pub : bytes := replicate 32 x00.
Definition zero_ref : bytes := replicate 32 x00.

Definition IsAnonymous (p : MessagePayload) : bool := bool_decide (SenderPub p = zero_pub).

(** The values of the Go types. *)
Definition wf_payload (p : MessagePayload) : Prop :=
  0 <= MsgType p < 256 /\ 0 <= Flags p < 256 /\ in_s64 (Timestamp p) /\
  length (SenderPub p) = 32%nat /\ length (Signature p) = 64%nat /\
  length (ThreadRefs p) = threadCount /\ Forall (fun r => length r = 32%nat) (ThreadRefs p).

(** [buf[110+i*32 : 110+(i+1)*32] = refs[i]] for all [i]. *)
Definition put_refs (refs : list bytes) (buf : bytes) : bytes :=
  foldl (fun buf i => copy_at (110 + i * 32) (nth i refs zero_ref) buf) buf (seq 0 threadCount).

Definition EncodePayload (p : MessagePayload) : result bytes :=
  if (V3MaxContent <? length (Content p))%nat then Err ErrContentTooLarge
  else
    let buf := replicate plaintextSize x00 in
    let buf := copy_at 0 MagicV3 buf in
    let buf := copy_at 4 [byte_of_Z (MsgType p)] buf in
    let buf := copy_at 5 [byte_of_Z (Flags p)] buf in
    let buf := copy_at 6 (le_encode 8 (to_u64 (Timestamp p))) buf in
    let buf := copy_at 14 (SenderPub p) buf in
    let buf := copy_at 46 (Signature p) buf in
    let buf := put_refs (ThreadRefs p) buf in
    let buf := copy_at 366 (le_encode 2 (Z.of_nat (length (Content p)))) buf in
    Ok (copy_at 368 (Content p) buf).

Definition DecodePayload (plain : bytes) : result MessagePayload :=
  if negb (bool_decide (slice 0 4 plain = MagicV3)) then Err ErrNotV3
  else
    let contentLen := le_decode (slice 366 2 plain) in
    if Z.of_nat V3MaxContent <? contentLen then Err ErrMalformed
    else Ok {|
      MsgType := be_decode (slice 4 1 plain);
      Flags := be_decode (slice 5 1 plain);
      Timestamp := to_s64 (le_decode (slice 6 8 plain));
      SenderPub := slice 14 32 plain;
      Signature := slice 46 64 plain;
      ThreadRefs := (fun i => slice (110 + i * 32) 32 plain) <$> seq 0 threadCount;
      Content := slice 368 (Z.to_nat contentLen) plain;
      mp_Channel := []; SentTo := []; DecryptedBy := [];
    |}.

(** Zeroing the signature field. *)
Definition clear_signature (plain : bytes) : bytes := copy_at 46 (replicate 64 x00) plain.

Definition SignPayload `{Ed25519} (plain sigKey : bytes) : bytes :=
  let plain := clear_signature plain in
  let sig := ed25519_Sign sigKey plain in
  copy_at 46 sig plain.

Definition VerifySignature `{Ed25519} (plain : bytes) : bool :=
  if decide (slice 14 32 plain = zero_pub) then false
  else
    let sig := slice 46 64 plain in
    let plain := clear_signature plain in
    let pub := slice 14 32 plain in
    ed25519_Verify pub plain sig.

Definition BuildThreadRefs (target : bytes) (prevRefs : list bytes) : list bytes :=
  target :: ((fun i => nth (i - 1) prevRefs zero_ref) <$> seq 1 (threadCount - 1)).

(** ** The layout *)

(** What is left of a message on the wire. *)
Definition wire (p : MessagePayload) : MessagePayload := {|
  MsgType := MsgType p; Flags := Flags p; Timestamp := Timestamp p; SenderPub := SenderPub p;
  Signature := Signature p; ThreadRefs := ThreadRefs p; Content := Content p;
  mp_Channel := []; SentTo := []; DecryptedBy := [] |}.

Definition with_signature (p : MessagePayload) (sig : bytes) : MessagePayload := {|
  MsgType := MsgType p; Flags := Flags p; Timestamp := Timestamp p; SenderPub := SenderPub p;
  Signature := sig; ThreadRefs := ThreadRefs p; Content := Content p;
  mp_Channel := []; SentTo := []; DecryptedBy := [] |}.

Definition is_plain (b : bytes) : Prop := length b = plaintextSize.

Lemma le_encode_2_decode z : 0 <= z < 65536 -> le_decode (le_encode 2 z) = z.
Proof. intros H. rewrite le_decode_encode. apply Z.mod_small. done. Qed.

Lemma be_decode_byte z : 0 <= z < 256 -> be_decode [byte_of_Z z] = z.
Proof. intros H. cbn. rewrite u8_byte_of_Z, Z.mod_small by done. lia. Qed.

