(* ===== verification/MessageFacts.v ===== *)
(** Round trips, error classification and signatures of the message format. *)
From Stdlib Require Import String.
From S2P Require Import Prelude Codec Block Message.

(** The lengths of the fields of a plaintext holding [n] bytes of content. *)
Definition field_lens (n : nat) : list nat :=
  [4; 1; 1; 8; 32; 64; 32; 32; 32; 32; 32; 32; 32; 32; 2; n; (V3MaxContent - n)%nat]%nat.

(** The fields of the plaintext of a message. *)
Definition message_fields (p : MessagePayload) (sig : bytes) : list bytes :=
  [MagicV3; [byte_of_Z (MsgType p)]; [byte_of_Z (Flags p)]; le_encode 8 (to_u64 (Timestamp p));
   SenderPub p; sig]
  ++ ((fun i => nth i (ThreadRefs p) zero_ref) <$> seq 0 threadCount)
  ++ [le_encode 2 (Z.of_nat (length (Content p))); Content p;
      replicate (V3MaxContent - length (Content p)) x00].

Definition plaintext (p : MessagePayload) (sig : bytes) : bytes := concat (message_fields p sig).

Section Encoding.
Context (p : MessagePayload) (Hp : wf_payload p) (Hc : (length (Content p) <= V3MaxContent)%nat).

#[local] Abbreviation n := (length (Content p)).

Lemma nth_ref_length i : length (nth i (ThreadRefs p) zero_ref) = 32%nat.
Proof using Hp.
  destruct Hp as (_ & _ & _ & _ & _ & _ & HF). rewrite Forall_forall in HF.
  destruct (nth_in_or_default i (ThreadRefs p) zero_ref) as [Hin| ->]; [|apply length_replicate].
  apply HF. by apply list_elem_of_In.
Qed.

Lemma message_fields_ok sig : length sig = 64%nat -> fields (field_lens n) (message_fields p sig).
Proof using Hp.
  intros Hsig. unfold fields, message_fields. destruct Hp as (_ & _ & _ & Hpub & _).
  cbn [seq threadCount fmap list_fmap app]. rewrite !nth_ref_length, Hpub, Hsig.
  by rewrite !length_le_encode, length_replicate.
Qed.

Lemma length_plaintext sig : length sig = 64%nat -> is_plain (plaintext p sig).
Proof using Hp Hc.
  intros Hsig. unfold is_plain, plaintext.
  rewrite <- (firstn_all (message_fields p sig)) at 1. rewrite length_concat_take.
  rewrite (message_fields_ok sig Hsig). change (length (message_fields p sig)) with 17%nat.
  cbn [take field_lens sum_list sum_list_with id]. pose proof plaintextSize_Z. pose proof V3MaxContent_Z. lia.
Qed.

(** One write of the encoder, as an update of the list of fields. *)
Ltac write_field k :=
  match goal with
  | H : fields ?lens ?l |- context [copy_at ?i ?src (concat ?l)] =>
      let E := fresh in
      let H' := fresh in
      destruct (copy_field k i src lens l H) as [E H'];
      [cbn [field_lens lookup list_lookup]; rewrite ?nth_ref_length, ?length_le_encode; done || congruence
      |reflexivity
      |rewrite E; clear E; clear H; rename H' into H]
  end.

Lemma EncodePayload_plaintext : EncodePayload p = Ok (plaintext p (Signature p)).
Proof using Hp Hc.
  unfold EncodePayload. rewrite (proj2 (Nat.ltb_ge _ _)) by done.
  assert (replicate plaintextSize x00 = concat ((fun n => replicate n x00) <$> field_lens n)) as ->.
  { rewrite concat_zeros. f_equal. cbn [field_lens sum_list sum_list_with id].
    pose proof plaintextSize_Z. pose proof V3MaxContent_Z. lia. }
  pose proof (fields_zeros (field_lens n)) as Hf.
  destruct Hp as (_ & _ & _ & Hpub & Hsig & _).
  unfold put_refs. cbn [foldl seq threadCount].
  write_field 0%nat. write_field 1%nat. write_field 2%nat. write_field 3%nat. write_field 4%nat.
  write_field 5%nat. write_field 6%nat. write_field 7%nat. write_field 8%nat. write_field 9%nat.
  write_field 10%nat. write_field 11%nat. write_field 12%nat. write_field 13%nat. write_field 14%nat.
  write_field 15%nat. f_equal.
Qed.

(** Reading a field back. *)
Lemma plaintext_field sig k i m c :
  length sig = 64%nat -> message_fields p sig !! k = Some c ->
  i = sum_list (take k (field_lens n)) -> m = length c -> slice i m (plaintext p sig) = c.
Proof using Hp. intros Hsig. eapply slice_field, message_fields_ok, Hsig. Qed.

Lemma Decode_plaintext sig :
  length sig = 64%nat -> DecodePayload (plaintext p sig) = Ok (with_signature p sig).
Proof using Hp Hc.
  intros Hsig. pose proof V3MaxContent_Z as HV. unfold DecodePayload.
  assert (forall z, length (le_encode 8 z) = 8%nat) as H8 by (intros; apply length_le_encode).
  assert (forall z, length (le_encode 2 z) = 2%nat) as H2 by (intros; apply length_le_encode).
  destruct Hp as (Ht & Hf & Hts & Hpub & _ & Hn & HF).
  rewrite (plaintext_field sig 0 0 4 MagicV3) by done. rewrite bool_decide_eq_true_2 by done. cbn [negb].
  rewrite (plaintext_field sig 14 366 2 (le_encode 2 (Z.of_nat n))) by done.
  rewrite le_encode_2_decode by lia. rewrite (proj2 (Z.ltb_ge _ _)) by lia.
  rewrite (plaintext_field sig 1 4 1 [byte_of_Z (MsgType p)]) by done.
  rewrite (plaintext_field sig 2 5 1 [byte_of_Z (Flags p)]) by done.
  rewrite (plaintext_field sig 3 6 8 (le_encode 8 (to_u64 (Timestamp p)))) by done.
  rewrite (plaintext_field sig 4 14 32 (SenderPub p)) by done.
  rewrite (plaintext_field sig 5 46 64 sig) by done.
  rewrite Nat2Z.id, (plaintext_field sig 15 368 n (Content p)) by done.
  rewrite !be_decode_byte by done.
  unfold to_u64. rewrite le_decode_encode. change (256 ^ Z.of_nat 8) with (2 ^ 64).
  rewrite Z.mod_mod, to_s64_mod, to_s64_id by done.
  unfold with_signature. do 2 f_equal.
  transitivity ((fun i => nth i (ThreadRefs p) zero_ref) <$> seq 0 threadCount).
  - apply list_fmap_ext. intros k i [-> Hi]%lookup_seq.
    apply (plaintext_field sig (6 + k)%nat); [done| | |by rewrite nth_ref_length].
    + do 8 (destruct k as [|k]; [done|]). unfold threadCount in Hi. lia.
    + do 8 (destruct k as [|k]; [done|]). unfold threadCount in Hi. lia.
  - apply list_eq_same_length with threadCount; [done|by rewrite length_fmap, length_seq|].
    intros i x y Hi Hx Hy. rewrite list_lookup_fmap, (lookup_seq_lt 0 threadCount i Hi) in Hx. cbn in Hx.
    injection Hx as <-. by rewrite (nth_lookup_Some _ _ _ _ Hy).
Qed.

(** Writing the signature field. *)
Lemma plaintext_signature sig sig' : length sig = 64%nat -> length sig' = 64%nat ->
  copy_at 46 sig' (plaintext p sig) = plaintext p sig'.
Proof using Hp.
  intros Hsig Hsig'. unfold plaintext.
  destruct (copy_field 5 46 sig' _ _ (message_fields_ok sig Hsig)) as [-> _]; [|done|done].
  cbn [field_lens lookup list_lookup]. by rewrite Hsig'.
Qed.

Section Signing.
Context `{Ed25519Laws} (key : bytes) (Hkey : length key = 64%nat).

Lemma Sign_plaintext sig : length sig = 64%nat ->
  SignPayload (plaintext p sig) key
  = plaintext p (ed25519_Sign key (plaintext p (replicate 64 x00))).
Proof using All.
  intros Hsig. unfold SignPayload, clear_signature.
  rewrite (plaintext_signature sig (replicate 64 x00)) by done.
  apply plaintext_signature; [done|]. by apply ed25519_Sign_length.
Qed.

Lemma Verify_plaintext : SenderPub p = ed25519_Public key -> SenderPub p <> zero_pub ->
  VerifySignature (plaintext p (ed25519_Sign key (plaintext p (replicate 64 x00)))) = true.
Proof using All.
  intros Hpub Hne. set (sig := ed25519_Sign _ _).
  assert (length sig = 64%nat) as Hsig by by apply ed25519_Sign_length.
  assert (length (SenderPub p) = 32%nat) as Hl by apply Hp.
  unfold VerifySignature, clear_signature.
  rewrite !(plaintext_field sig 4 14 32 (SenderPub p)) by done.
  rewrite decide_False by done. rewrite (plaintext_field sig 5 46 64 sig) by done.
  rewrite (plaintext_signature sig (replicate 64 x00)) by done.
  rewrite (plaintext_field _ 4 14 32 (SenderPub p)) by done. rewrite Hpub. by apply ed25519_Verify_Sign.
Qed.
End Signing.
End Encoding.

(** ** The contract of the format *)

(** C32: A message of at most 3656 bytes of content is encoded into a full plaintext
    that decodes to the message, less the annotations that are not sent; a longer one
    is refused. *)
Theorem message_roundtrip p :
  wf_payload p ->
  match EncodePayload p with
  | Ok buf => Z.of_nat (length (Content p)) <= 3656 /\ is_plain buf /\ DecodePayload buf = Ok (wire p)
  | Err e => e = ErrContentTooLarge /\ 3656 < Z.of_nat (length (Content p))
  end.
Proof.
  intros Hp. pose proof V3MaxContent_Z as HV. destruct (decide (length (Content p) <= V3MaxContent)%nat) as [Hc|Hc].
  - rewrite EncodePayload_plaintext by done. assert (length (Signature p) = 64%nat) as Hs by apply Hp.
    split_and!; [lia|by apply length_plaintext|by apply Decode_plaintext].
  - unfold EncodePayload. rewrite (proj2 (Nat.ltb_lt _ _)) by lia. split; [done|lia].
Qed.

(** What is decoded has its Go types, and the announced content. *)
Lemma DecodePayload_wf plain p :
  is_plain plain -> DecodePayload plain = Ok p ->
  wf_payload p /\ Z.of_nat (length (Content p)) <= 3656 /\
  Z.of_nat (length (Content p)) = le_decode (slice 366 2 plain).
Proof.
  unfold is_plain. intros Hl. pose proof plaintextSize_Z as HZ. pose proof V3MaxContent_Z as HV.
  unfold DecodePayload. case_bool_decide as Hm; cbn [negb]; [|done].
  destruct (Z.ltb_spec (Z.of_nat V3MaxContent) (le_decode (slice 366 2 plain))); [done|].
  intros <-%(inj Ok). pose proof (le_decode_range (slice 366 2 plain)).
  assert (forall i n, (i + n <= plaintextSize)%nat -> length (slice i n plain) = n) as Hs
    by (intros i n Hi; rewrite length_slice; lia).
  cbn [Content]. rewrite Hs by lia. rewrite Z2Nat.id by lia.
  split_and!; [|lia|done]. unfold wf_payload. cbn [MsgType Flags Timestamp SenderPub Signature ThreadRefs].
  pose proof (be_decode_range (slice 4 1 plain)) as Hb1. pose proof (be_decode_range (slice 5 1 plain)) as Hb2.
  rewrite Hs in Hb1, Hb2 by lia.
  split_and!; [apply Hb1|apply Hb1|apply Hb2|apply Hb2|apply to_s64_range|apply Hs; lia
              |apply Hs; lia|by rewrite length_fmap|].
  apply Forall_forall. intros r (i & -> & [_ Hi]%elem_of_seq)%list_elem_of_fmap. apply Hs.
  unfold threadCount in Hi. lia.
Qed.

(** Decoding any plaintext classifies it: [ErrNotV3] exactly when the magic is
    wrong, [ErrMalformed] exactly when the magic is right and the content length is
    beyond the maximum, and otherwise a message whose fields have their Go types. *)
Theorem DecodePayload_total plain :
  is_plain plain ->
  match DecodePayload plain with
  | Ok p => slice 0 4 plain = MagicV3 /\ wf_payload p /\ Z.of_nat (length (Content p)) <= 3656 /\
      Z.of_nat (length (Content p)) = le_decode (slice 366 2 plain)
  | Err e => (e = ErrNotV3 /\ slice 0 4 plain <> MagicV3) \/
      (e = ErrMalformed /\ slice 0 4 plain = MagicV3 /\ 3656 < le_decode (slice 366 2 plain))
  end.
Proof.
  intros Hl. pose proof V3MaxContent_Z as HV. destruct (DecodePayload plain) as [p|e] eqn:E.
  - split; [|by apply DecodePayload_wf]. unfold DecodePayload in E. by case_bool_decide.
  - unfold DecodePayload in E. case_bool_decide as Hm; cbn [negb] in E; [|left; by injection E as <-].
    destruct (Z.ltb_spec (Z.of_nat V3MaxContent) (le_decode (slice 366 2 plain))); [|done].
    injection E as <-. right. split_and!; [done|done|lia].
Qed.

(** A signed message verifies.  Signing the encoding of a message under the key of
    its sender changes the signature field only, the result verifies and decodes to the
    message with the signature; without a sender nothing verifies. *)
Theorem sign_verify `{Ed25519Laws} p key plain :
  wf_payload p -> EncodePayload p = Ok plain -> length key = 64%nat -> SenderPub p = ed25519_Public key ->
  let signed := SignPayload plain key in
  DecodePayload signed = Ok (with_signature p (ed25519_Sign key (clear_signature plain))) /\
  clear_signature signed = clear_signature plain /\
  VerifySignature signed = negb (IsAnonymous p).
Proof.
  intros Hp He Hkey Hpub. pose proof V3MaxContent_Z as HV.
  assert (length (Content p) <= V3MaxContent)%nat as Hc.
  { unfold EncodePayload in He. destruct (Nat.ltb_spec V3MaxContent (length (Content p))); [done|lia]. }
  rewrite EncodePayload_plaintext in He by done. injection He as <-.
  assert (length (Signature p) = 64%nat) as Hs by apply Hp. cbn zeta.
  rewrite Sign_plaintext by done. unfold clear_signature.
  rewrite (plaintext_signature p Hp (Signature p) (replicate 64 x00)) by done.
  set (sig := ed25519_Sign _ _). assert (length sig = 64%nat) as Hsig by by apply ed25519_Sign_length.
  split_and!.
  - by apply Decode_plaintext.
  - by apply plaintext_signature.
  - unfold IsAnonymous. case_bool_decide as Hz; cbn [negb].
    + unfold VerifySignature. rewrite (plaintext_field p Hp sig 4 14 32 (SenderPub p)) by (done || by rewrite Hz).
      by rewrite decide_True.
    + by apply Verify_plaintext.
Qed.

(** The references of a message that replies to the newest of a line of messages, each
    of which replied to the next; [ids] lists them newest first. *)
Fixpoint line_refs (ids : list bytes) : list bytes :=
  match ids with
  | [] => replicate threadCount zero_ref
  | target :: older => BuildThreadRefs target (line_refs older)
  end.

(** In a line of replies, reference [k] is the message [k + 1] steps back, and the
    zero reference where there is none: the references are the eight nearest ancestors,
    not ancestors at exponential distances. *)
Theorem thread_refs_linear ids k :
  (k < threadCount)%nat -> length (line_refs ids) = threadCount /\
  nth k (line_refs ids) zero_ref = nth k ids zero_ref.
Proof.
  revert k. induction ids as [|t ids IH]; intros k Hk; cbn [line_refs].
  - split; [done|]. unfold threadCount in *. do 8 (destruct k as [|k]; [done|]). lia.
  - split; [done|]. unfold BuildThreadRefs. destruct k as [|k]; [done|]. cbn [nth].
    destruct (IH k ltac:(lia)) as [_ <-]. unfold threadCount in *.
    do 7 (destruct k as [|k]; [done|]). lia.
Qed.

(** ** At concrete inputs *)

Definition ref_Ed25519 : Ed25519 := {|
  ed25519_Sign k m := pad_to 64 (pad_to 32 k ++ m);
  ed25519_Verify pub m sig := bool_decide (sig = pad_to 64 (pub ++ m));
  ed25519_Public k := pad_to 32 k;
|}.

Lemma ref_Ed25519Laws : @Ed25519Laws ref_Ed25519.
Proof.
  split; intros; [apply length_pad_to|apply length_pad_to|by apply bool_decide_eq_true].
Qed.

Module MessageDemo.
#[local] Existing Instances ref_Ed25519 ref_Ed25519Laws.

Definition key : bytes := replicate 64 x07.
Definition hello : MessagePayload := {|
  MsgType := 0; Flags := 0; Timestamp := 1700000000; SenderPub := pad_to 32 key;
  Signature := replicate 64 x00; ThreadRefs := replicate 8 zero_ref; Content := bs "hello";
  mp_Channel := []; SentTo := []; DecryptedBy := [] |}.

Lemma hello_wf : wf_payload hello.
Proof. split_and!; cbn; unfold in_s64; try lia; try reflexivity. repeat constructor. Qed.

Lemma hello_short : (length (Content hello) <= V3MaxContent)%nat.
Proof. pose proof V3MaxContent_Z. change (length (Content hello)) with 5%nat. lia. Qed.

Lemma message_roundtrip_witness :
  match EncodePayload hello with
  | Ok buf => DecodePayload buf = Ok hello
  | Err e => 3656 < Z.of_nat (length (Content hello))
  end.
Proof.
  pose proof (message_roundtrip hello hello_wf) as H. destruct (EncodePayload hello) as [buf|e].
  - exact (proj2 (proj2 H)).
  - exact (proj2 H).
Defined.

Lemma DecodePayload_total_witness :
  exists e, DecodePayload (replicate plaintextSize x00) = Err e /\ e = ErrNotV3.
Proof.
  pose proof (DecodePayload_total (replicate plaintextSize x00) (length_replicate _ _)) as H.
  destruct (DecodePayload _) as [p|e].
  - exfalso. destruct H as [H _]. discriminate H.
  - exists e. split; [reflexivity|]. destruct H as [[H _]|(_ & H & _)]; [exact H|discriminate H].
Defined.

Lemma sign_verify_witness : exists plain, EncodePayload hello = Ok plain /\
  VerifySignature (SignPayload plain key) = true.
Proof.
  exists (plaintext hello (Signature hello)).
  pose proof (EncodePayload_plaintext hello hello_wf hello_short) as He. split; [exact He|].
  exact (proj2 (proj2 (sign_verify hello key _ hello_wf He eq_refl eq_refl))).
Defined.

Lemma thread_refs_linear_witness :
  nth 2 (line_refs [bs "d"; bs "c"; bs "b"; bs "a"]) zero_ref = bs "b".
Proof. apply (thread_refs_linear [bs "d"; bs "c"; bs "b"; bs "a"] 2). unfold threadCount. lia. Defined.
End MessageDemo.
