(* ===== verification/Text.v ===== *)
(** Text as Go handles it: UTF-8 decoding, [unicode.IsControl] and [unicode.IsSpace],
    and the functions of [strings] and [bytes] the program uses. *)
From Stdlib Require Import String.
From S2P Require Import Prelude Codec.

(** ** Runes *)

Definition RuneError : Z := 65533.

Definition in_range (lo hi v : Z) : bool := (lo <=? v) && (v <=? hi).
Definition is_cont (b : byte) : bool := in_range 128 191 (u8 b).
Definition cont_bits (b : byte) : Z := Z.land (u8 b) 63.

(** The range of the second byte of a three or four byte sequence. *)
Definition second_ok (b0 : Z) (b1 : byte) : bool :=
  if b0 =? 224 then in_range 160 191 (u8 b1)
  else if b0 =? 237 then in_range 128 159 (u8 b1)
  else if b0 =? 240 then in_range 144 191 (u8 b1)
  else if b0 =? 244 then in_range 128 143 (u8 b1)
  else is_cont b1.

(** [utf8.DecodeRune] of a nonempty string: the rune and its width. *)
Definition DecodeRune (l : bytes) : Z * nat :=
  match l with
  | [] => (RuneError, 0%nat)
  | c0 :: rest =>
      let b0 := u8 c0 in
      if b0 <? 128 then (b0, 1%nat)
      else if in_range 194 223 b0 then
        match rest with
        | c1 :: _ => if is_cont c1 then (Z.land b0 31 * 64 + cont_bits c1, 2%nat) else (RuneError, 1%nat)
        | _ => (RuneError, 1%nat)
        end
      else if in_range 224 239 b0 then
        match rest with
        | c1 :: c2 :: _ =>
            if second_ok b0 c1 && is_cont c2
            then (Z.land b0 15 * 4096 + cont_bits c1 * 64 + cont_bits c2, 3%nat) else (RuneError, 1%nat)
        | _ => (RuneError, 1%nat)
        end
      else if in_range 240 244 b0 then
        match rest with
        | c1 :: c2 :: c3 :: _ =>
            if second_ok b0 c1 && is_cont c2 && is_cont c3
            then (Z.land b0 7 * 262144 + cont_bits c1 * 4096 + cont_bits c2 * 64 + cont_bits c3, 4%nat)
            else (RuneError, 1%nat)
        | _ => (RuneError, 1%nat)
        end
      else (RuneError, 1%nat)
  end.

(** [[]rune(s)] *)
Fixpoint runes_fuel (fuel : nat) (l : bytes) : list Z :=
  match fuel, l with
  | S fuel', _ :: _ => let '(r, n) := DecodeRune l in r :: runes_fuel fuel' (drop n l)
  | _, _ => []
  end.
Definition runes (l : bytes) : list Z := runes_fuel (length l) l.

(** [utf8.ValidString] *)
Fixpoint utf8_valid_fuel (fuel : nat) (l : bytes) : bool :=
  match fuel, l with
  | S fuel', _ :: _ =>
      let '(r, n) := DecodeRune l in negb ((r =? RuneError) && (n =? 1)%nat) && utf8_valid_fuel fuel' (drop n l)
  | _, _ => true
  end.
Definition utf8_valid (l : bytes) : bool := utf8_valid_fuel (length l) l.

(** [utf8.DecodeLastRune]: the nearest byte that can start a rune, at most four bytes
    from the end. *)
Definition is_start (b : byte) : bool := negb (is_cont b).

Definition starts_at (l : bytes) (n : nat) : bool :=
  (n <=? length l)%nat && match l !! (length l - n)%nat with Some b => is_start b | None => false end.

Definition DecodeLastRune (l : bytes) : Z * nat :=
  match list_find (fun n => starts_at l n = true) [1%nat; 2%nat; 3%nat; 4%nat] with
  | Some (_, n) =>
      let '(r, w) := DecodeRune (drop (length l - n) l) in
      if decide (w = n) then (r, n) else (RuneError, 1%nat)
  | None => (RuneError, 1%nat)
  end.

(** [unicode.IsControl] *)
Definition IsControl (r : Z) : bool := in_range 0 31 r || in_range 127 159 r.

(** [unicode.IsSpace] *)
Definition IsSpace (r : Z) : bool :=
  in_range 9 13 r || (r =? 32) || (r =? 133) || (r =? 160) || (r =? 5760) || in_range 8192 8202 r
  || (r =? 8232) || (r =? 8233) || (r =? 8239) || (r =? 8287) || (r =? 12288).

(** ** [strings.TrimSpace] *)

Fixpoint trim_left (fuel : nat) (l : bytes) : bytes :=
  match fuel, l with
  | S fuel', _ :: _ => let '(r, n) := DecodeRune l in if IsSpace r then trim_left fuel' (drop n l) else l
  | _, _ => l
  end.

Fixpoint trim_right (fuel : nat) (l : bytes) : bytes :=
  match fuel, l with
  | S fuel', _ :: _ =>
      let '(r, n) := DecodeLastRune l in
      if IsSpace r then trim_right fuel' (take (length l - n) l) else l
  | _, _ => l
  end.

Definition TrimSpace (l : bytes) : bytes :=
  let l := trim_left (length l) l in trim_right (length l) l.

(** ** Searching *)

(** [bytes.IndexByte] *)
Definition IndexByte (l : bytes) (c : byte) : option nat := fst <$> list_find (fun b => b = c) l.

(** [strings.LastIndex] of a one-byte separator. *)
Definition LastIndexByte (l : bytes) (c : byte) : option nat :=
  (fun i => (length l - 1 - i)%nat) <$> IndexByte (reverse l) c.

(** [strings.HasPrefix] *)
Definition HasPrefix (l p : bytes) : bool := bool_decide (take (length p) l = p).

Lemma HasPrefix_app p l : HasPrefix (p ++ l) p = true.
Proof. unfold HasPrefix. by rewrite take_app_length, bool_decide_eq_true_2. Qed.

Lemma IndexByte_None l c : IndexByte l c = None <-> c ∉ l.
Proof.
  unfold IndexByte. rewrite fmap_None, list_find_None, Forall_forall. split.
  - intros H Hc. by apply (H c).
  - intros H x Hx ->. done.
Qed.

Lemma IndexByte_app l1 l2 c : c ∉ l1 -> IndexByte (l1 ++ c :: l2) c = Some (length l1).
Proof.
  intros Hc. unfold IndexByte. rewrite (proj2 (list_find_Some _ _ (length l1) c)); [done|].
  split_and!; [by rewrite list_lookup_middle|done|]. intros j y Hj Hlt ->.
  rewrite lookup_app_l in Hj by done. by apply Hc, list_elem_of_lookup_2 with j.
Qed.

Lemma IndexByte_Some l c i : IndexByte l c = Some i -> l = take i l ++ c :: drop (S i) l /\ c ∉ take i l.
Proof.
  unfold IndexByte. rewrite fmap_Some. intros ([j b] & (Hb & -> & Hlt)%list_find_Some & ->). cbn [fst].
  split; [symmetry; by apply take_drop_middle|].
  intros (k & Hk)%list_elem_of_lookup. rewrite lookup_take_Some in Hk. destruct Hk as [Hk Hlk].
  by apply (Hlt k c Hk Hlk).
Qed.

Lemma LastIndexByte_app l1 l2 c : c ∉ l2 -> LastIndexByte (l1 ++ c :: l2) c = Some (length l1).
Proof.
  intros Hc. unfold LastIndexByte. rewrite reverse_app, reverse_cons, <- app_assoc. cbn [app].
  rewrite IndexByte_app by by rewrite elem_of_reverse. cbn. f_equal.
  rewrite length_app, length_reverse. cbn. lia.
Qed.

(** ** Splitting and trimming *)

(** [strings.Split] at a one-byte separator. *)
Fixpoint Split (s : bytes) (sep : byte) : list bytes :=
  match s with
  | [] => [[]]
  | c :: s' =>
      if bool_decide (c = sep) then [] :: Split s' sep
      else match Split s' sep with [] => [[c]] | p :: ps => (c :: p) :: ps end
  end.

(** [strings.TrimRight] with a one-byte cutset. *)
Fixpoint TrimRight (s : bytes) (c : byte) : bytes :=
  match s with
  | [] => []
  | b :: s' =>
      match TrimRight s' c with
      | [] => if bool_decide (b = c) then [] else [b]
      | r => b :: r
      end
  end.

(** [strings.HasSuffix] *)
Definition HasSuffix (l p : bytes) : bool :=
  (length p <=? length l)%nat && bool_decide (drop (length l - length p) l = p).

(** ** ASCII *)

Definition is_ascii (b : byte) : bool := u8 b <? 128.
Definition ascii_space (b : byte) : bool := is_ascii b && IsSpace (u8 b).
Definition ascii_solid (b : byte) : bool := is_ascii b && negb (IsSpace (u8 b)).

(** [strings.ToUpper]; for text that is not ASCII it follows Unicode's tables, which are a
    parameter. *)
Class UnicodeUpper := upper_unicode : bytes -> bytes.

Definition upper_byte (c : byte) : byte := if in_range 97 122 (u8 c) then byte_of_Z (u8 c - 32) else c.

Definition ToUpper `{UnicodeUpper} (s : bytes) : bytes :=
  if forallb is_ascii s then upper_byte <$> s else upper_unicode s.

Lemma DecodeRune_ascii b l : is_ascii b = true -> DecodeRune (b :: l) = (u8 b, 1%nat).
Proof. unfold is_ascii. intros H. cbn [DecodeRune]. by rewrite H. Qed.

Lemma DecodeLastRune_ascii l b : is_ascii b = true -> DecodeLastRune (l ++ [b]) = (u8 b, 1%nat).
Proof.
  intros Hb. unfold DecodeLastRune.
  assert (length (l ++ [b]) - 1 = length l)%nat as Hlen by (rewrite length_app; cbn; lia).
  rewrite (proj2 (list_find_Some _ _ 0%nat 1%nat)).
  - rewrite Hlen, drop_app_length. by rewrite DecodeRune_ascii.
  - split_and!; [done| |intros; lia]. unfold starts_at. rewrite Hlen, list_lookup_middle by done.
    apply andb_true_iff. split; [apply Nat.leb_le; rewrite length_app; cbn; lia|].
    unfold is_start, is_cont, in_range, is_ascii in *.
    apply Z.ltb_lt in Hb. apply negb_true_iff, andb_false_iff. left. apply Z.leb_gt. lia.
Qed.

Lemma trim_left_spaces ws l fuel :
  forallb ascii_space ws = true -> (length ws <= fuel)%nat -> trim_left fuel (ws ++ l) = trim_left (fuel - length ws) l.
Proof.
  revert fuel. induction ws as [|w ws IH]; intros fuel Hw Hf; cbn [app length forallb] in *.
  - by rewrite Nat.sub_0_r.
  - apply andb_true_iff in Hw as [[Ha Hs]%andb_true_iff Hw]. destruct fuel as [|fuel]; [lia|].
    cbn [trim_left]. rewrite DecodeRune_ascii, Hs by done. cbn [drop]. rewrite IH by (done || lia). f_equal.
Qed.

Lemma trim_left_solid b l fuel : ascii_solid b = true -> trim_left fuel (b :: l) = b :: l.
Proof.
  intros [Ha Hs]%andb_true_iff. apply negb_true_iff in Hs. destruct fuel; cbn [trim_left]; [done|].
  by rewrite DecodeRune_ascii, Hs.
Qed.

Lemma trim_right_spaces ws l fuel :
  forallb ascii_space ws = true -> (length ws <= fuel)%nat -> trim_right fuel (l ++ ws) = trim_right (fuel - length ws) l.
Proof.
  revert fuel. induction ws as [|w ws IH] using rev_ind; intros fuel Hw Hf.
  - by rewrite app_nil_r, Nat.sub_0_r.
  - rewrite forallb_app, length_app in *. cbn [forallb length] in *.
    apply andb_true_iff in Hw as [Hw [[Ha Hs]%andb_true_iff _]%andb_true_iff].
    destruct fuel as [|fuel]; [lia|]. rewrite app_assoc.
    assert (exists c cs, (l ++ ws) ++ [w] = c :: cs) as (c & cs & E)
      by (destruct (l ++ ws); cbn; eauto).
    cbn [trim_right]. rewrite E, <- E, DecodeLastRune_ascii, Hs by done.
    rewrite length_app. cbn [length]. rewrite Nat.add_sub, take_app_length.
    rewrite IH by (done || lia). f_equal. lia.
Qed.

Lemma trim_right_solid l b fuel : ascii_solid b = true -> trim_right fuel (l ++ [b]) = l ++ [b].
Proof.
  intros [Ha Hs]%andb_true_iff. apply negb_true_iff in Hs. destruct fuel; cbn [trim_right]; [by destruct (l ++ [b])|].
  rewrite DecodeLastRune_ascii, Hs by done. by destruct (l ++ [b]).
Qed.

(** ASCII space around a text that begins and ends with solid ASCII is trimmed. *)
Lemma TrimSpace_around ws1 s ws2 :
  forallb ascii_space ws1 = true -> forallb ascii_space ws2 = true -> s <> [] ->
  forallb ascii_solid s = true -> TrimSpace (ws1 ++ s ++ ws2) = s.
Proof.
  intros H1 H2 Hs Hsol. unfold TrimSpace. rewrite trim_left_spaces by (done || rewrite length_app; lia).
  destruct s as [|b s]; [done|]. cbn [app]. pose proof Hsol as [Hb _]%andb_true_iff.
  rewrite trim_left_solid by done. rewrite app_comm_cons.
  rewrite trim_right_spaces by (done || rewrite length_app; lia).
  destruct (exists_last Hs) as (s' & c & E). rewrite E. apply trim_right_solid.
  rewrite E, forallb_app in Hsol. cbn [forallb] in Hsol.
  by apply andb_true_iff in Hsol as [_ [? _]%andb_true_iff].
Qed.

(** Every ASCII byte of a string is one of its runes. *)
Lemma DecodeRune_width l : l <> [] -> (1 <= snd (DecodeRune l) <= length l)%nat /\ (snd (DecodeRune l) <= 4)%nat.
Proof.
  intros Hl. destruct l as [|c0 rest]; [done|]. clear Hl.
  cbn [DecodeRune length]. repeat case_match; cbn [snd length]; lia.
Qed.

Lemma is_cont_not_ascii c : is_cont c = true -> is_ascii c = false.
Proof. unfold is_cont, in_range, is_ascii. rewrite andb_true_iff, Z.leb_le, Z.ltb_ge. lia. Qed.

Lemma second_ok_not_ascii b0 c : second_ok b0 c = true -> is_ascii c = false.
Proof.
  unfold second_ok, is_cont, in_range, is_ascii. rewrite Z.ltb_ge.
  repeat case_match; rewrite andb_true_iff, !Z.leb_le; lia.
Qed.

Lemma DecodeRune_covers l b : b ∈ take (snd (DecodeRune l)) l -> is_ascii b = true -> fst (DecodeRune l) = u8 b.
Proof.
  destruct l as [|c0 rest]; cbn [DecodeRune]; [cbn; intros Hb; by apply not_elem_of_nil in Hb|].
  destruct (Z.ltb_spec (u8 c0) 128) as [Hc|Hc].
  { cbn. rewrite take_0. by intros ->%list_elem_of_singleton. }
  assert (is_ascii c0 = false) as H0 by (apply Z.ltb_ge; done).
  repeat case_match; cbn [fst snd take]; rewrite ?take_0, ?elem_of_cons; intros Hb Ha;
    repeat match goal with
      | H : _ && _ = true |- _ => apply andb_true_iff in H as [? ?]
      | H : is_cont _ = true |- _ => apply is_cont_not_ascii in H
      | H : second_ok _ _ = true |- _ => apply second_ok_not_ascii in H
      | H : _ ∈ [] |- _ => by apply not_elem_of_nil in H
      | H : _ \/ _ |- _ => destruct H as [->|H]
      end; congruence.
Qed.

Lemma runes_ascii l b : b ∈ l -> is_ascii b = true -> u8 b ∈ runes l.
Proof.
  unfold runes. intros Hb Ha. enough (forall fuel l, (length l <= fuel)%nat -> b ∈ l -> u8 b ∈ runes_fuel fuel l) as He
    by by apply He. clear Hb l. induction fuel as [|fuel IH]; intros l Hf Hb.
  - destruct l; [by apply not_elem_of_nil in Hb|cbn in Hf; lia].
  - destruct l as [|c rest]; [by apply not_elem_of_nil in Hb|]. cbn [runes_fuel].
    pose proof (DecodeRune_width (c :: rest) ltac:(done)) as Hw.
    pose proof (DecodeRune_covers (c :: rest) b) as Hc.
    destruct (DecodeRune (c :: rest)) as [r n]. cbn [fst snd] in *.
    rewrite <- (take_drop n (c :: rest)) in Hb. apply elem_of_app in Hb as [Hb|Hb].
    + rewrite (Hc Hb Ha). apply list_elem_of_here.
    + apply list_elem_of_further, IH; [|done]. rewrite length_drop. cbn [length] in *. lia.
Qed.

Lemma runes_length l : (length (runes l) <= length l <= 4 * length (runes l))%nat.
Proof.
  unfold runes. enough (forall fuel l, (length l <= fuel)%nat ->
    (length (runes_fuel fuel l) <= length l <= 4 * length (runes_fuel fuel l))%nat) as He by by apply He.
  clear l. induction fuel as [|fuel IH]; intros l Hf; [destruct l; cbn in *; lia|].
  destruct l as [|c rest]; [cbn; lia|]. cbn [runes_fuel].
  pose proof (DecodeRune_width (c :: rest) ltac:(done)) as Hw.
  destruct (DecodeRune (c :: rest)) as [r n]. cbn [snd] in Hw.
  specialize (IH (drop n (c :: rest))). rewrite length_drop in IH. cbn [length] in *. lia.
Qed.

(** ** Base64 text *)

Lemma b64_char_solid v : ascii_solid (b64_char RawURLEncoding v) = true /\ b64_char RawURLEncoding v <> x2f.
Proof.
  unfold b64_char. pose proof (Z.mod_pos_bound v 64 ltac:(lia)) as Hv.
  assert (Forall (fun c => ascii_solid c = true /\ c <> x2f) (enc_alphabet RawURLEncoding)) as HF.
  { apply Forall_forall. intros c Hc.
    assert (forallb (fun c => ascii_solid c && bool_decide (c <> x2f)) (enc_alphabet RawURLEncoding) = true) as Hb
      by (vm_compute; reflexivity).
    rewrite forallb_forall in Hb. specialize (Hb c (proj1 (list_elem_of_In _ _) Hc)).
    apply andb_true_iff in Hb as [? Hn]. by apply bool_decide_eq_true in Hn. }
  rewrite Forall_forall in HF. apply HF, list_elem_of_In, nth_In.
  change (length (enc_alphabet RawURLEncoding)) with 64%nat. lia.
Qed.

(** The encoding of bytes is solid ASCII without a slash. *)
Lemma b64_encode_solid l :
  forallb ascii_solid (b64_encode RawURLEncoding l) = true /\ x2f ∉ b64_encode RawURLEncoding l.
Proof.
  induction l as [|a|a b|a b c l [IH1 IH2]] using list_ind3; cbn [b64_encode b64_pad RawURLEncoding enc_padded].
  - split; [done|set_solver].
  - cbn [app forallb]. split; [by rewrite !(proj1 (b64_char_solid _))|].
    rewrite !not_elem_of_cons. split_and!; try (intros E; symmetry in E; by apply b64_char_solid in E). apply not_elem_of_nil.
  - cbn [app forallb]. split; [by rewrite !(proj1 (b64_char_solid _))|].
    rewrite !not_elem_of_cons. split_and!; try (intros E; symmetry in E; by apply b64_char_solid in E). apply not_elem_of_nil.
  - cbn [app forallb]. split; [by rewrite !(proj1 (b64_char_solid _)), IH1|].
    rewrite !not_elem_of_cons. split_and!; try (intros E; symmetry in E; by apply b64_char_solid in E). done.
Qed.
