(* ===== verification/Net.v ===== *)
(** Addresses as the program reads them: [net.SplitHostPort], [net.ParseIP] with the
    methods of [net.IP], and [Hostname] of a parsed URL.  The parsing of URLs itself is a
    parameter. *)
From Stdlib Require Import String.
From S2P Require Import Prelude Text.

Definition dot : byte := x2e.
Definition colon : byte := x3a.
Definition percent : byte := x25.
Definition open_bracket : byte := x5b.
Definition close_bracket : byte := x5d.

(** ** [net.SplitHostPort] *)

Definition missing_port : error := ErrText "missing port in address".
Definition too_many_colons : error := ErrText "too many colons in address".
Definition address_error (why : string) : error := ErrText why.

(** No bracket from the given positions on; the port is what follows the last colon. *)
Definition split_rest (hostport host : bytes) (i j k : nat) : result (bytes * bytes) :=
  if bool_decide (open_bracket ∈ drop j hostport) then Err (address_error "unexpected '[' in address")
  else if bool_decide (close_bracket ∈ drop k hostport) then Err (address_error "unexpected ']' in address")
  else Ok (host, drop (S i) hostport).

Definition SplitHostPort (hostport : bytes) : result (bytes * bytes) :=
  match LastIndexByte hostport colon with
  | None => Err missing_port
  | Some i =>
      if bool_decide (head hostport = Some open_bracket) then
        match IndexByte hostport close_bracket with
        | None => Err (address_error "missing ']' in address")
        | Some e =>
            if (S e =? length hostport)%nat then Err missing_port
            else if (S e =? i)%nat then split_rest hostport (drop 1 (take e hostport)) i 1 (S e)
            else if bool_decide (hostport !! S e = Some colon) then Err too_many_colons
            else Err missing_port
        end
      else
        let host := take i hostport in
        if bool_decide (colon ∈ host) then Err too_many_colons
        else split_rest hostport host i 0 0
  end.

(** ** [net.ParseIP] *)

Definition digit (c : byte) : option Z := if in_range 48 57 (u8 c) then Some (u8 c - 48) else None.

Definition hex_digit_value (c : byte) : option Z :=
  if in_range 48 57 (u8 c) then Some (u8 c - 48)
  else if in_range 97 102 (u8 c) then Some (u8 c - 97 + 10)
  else if in_range 65 70 (u8 c) then Some (u8 c - 65 + 10)
  else None.

(** The four fields of an IPv4 address: [first] and [prev_dot] say whether the character
    is the first and whether the one before is a dot. *)
Fixpoint parseIPv4Fields (l : bytes) (first prev_dot : bool) (val digLen : Z) (fields : bytes) : option bytes :=
  match l with
  | [] => if (length fields <? 3)%nat then None else Some (fields ++ [byte_of_Z val])
  | c :: l' =>
      match digit c with
      | Some d =>
          if (digLen =? 1) && (val =? 0) then None
          else
            let val := val * 10 + d in
            if 255 <? val then None else parseIPv4Fields l' false false val (digLen + 1) fields
      | None =>
          if bool_decide (c = dot) then
            if first || bool_decide (l' = []) || prev_dot then None
            else if (length fields =? 3)%nat then None
            else parseIPv4Fields l' false true 0 0 (fields ++ [byte_of_Z val])
          else None
      end
  end.

(** The leading hexadecimal digits of a group: their number, their value and what
    follows; a fifth digit is an error. *)
Fixpoint scan_group (s : bytes) (off : nat) (acc : Z) : option (nat * Z * bytes) :=
  match s with
  | [] => Some (off, acc, [])
  | c :: s' =>
      match hex_digit_value c with
      | None => Some (off, acc, s)
      | Some d => if (3 <? off)%nat then None else scan_group s' (S off) (acc * 16 + d)
      end
  end.

(** The loop over the groups of an IPv6 address: the bytes so far, where the ellipsis
    was, and what is left of the text. *)
Fixpoint parse_groups (fuel : nat) (s ip : bytes) (ellipsis : option nat) : option (bytes * bytes * option nat) :=
  match fuel with
  | O => Some (s, ip, ellipsis)
  | S fuel' =>
      if (16 <=? length ip)%nat then Some (s, ip, ellipsis)
      else
      match scan_group s 0 0 with
      | None => None
      | Some (off, acc, rest) =>
          if (off =? 0)%nat then None
          else if bool_decide (head rest = Some dot) then
            if bool_decide (ellipsis = None) && negb (length ip =? 12)%nat then None
            else if (16 <? length ip + 4)%nat then None
            else match parseIPv4Fields s true false 0 0 [] with
                 | None => None
                 | Some v4 => Some ([], ip ++ v4, ellipsis)
                 end
          else
            let ip := ip ++ [byte_of_Z (acc / 256); byte_of_Z acc] in
            match rest with
            | [] => Some ([], ip, ellipsis)
            | c :: s =>
                if negb (bool_decide (c = colon)) then None
                else match s with
                     | [] => None
                     | c' :: s' =>
                         if bool_decide (c' = colon) then
                           match ellipsis with
                           | Some _ => None
                           | None =>
                               match s' with
                               | [] => Some ([], ip, Some (length ip))
                               | _ => parse_groups fuel' s' ip (Some (length ip))
                               end
                           end
                         else parse_groups fuel' s ip ellipsis
                     end
            end
      end
  end.

(** The whole text must be used, and an ellipsis stands for at least one group. *)
Definition expand_groups (r : bytes * bytes * option nat) : option bytes :=
  let '(s, ip, ellipsis) := r in
  if negb (bool_decide (s = [])) then None
  else if (length ip <? 16)%nat then
    match ellipsis with
    | None => None
    | Some e => Some (take e ip ++ replicate (16 - length ip) x00 ++ drop e ip)
    end
  else match ellipsis with Some _ => None | None => Some ip end.

(** An address with a zone, or with an empty one, gives no [IP]. *)
Definition parseIPv6 (s : bytes) : option bytes :=
  if bool_decide (percent ∈ s) then None
  else if HasPrefix s [colon; colon] then
    match drop 2 s with
    | [] => Some (replicate 16 x00)
    | s => parse_groups 8 s [] (Some 0%nat) ≫= expand_groups
    end
  else parse_groups 8 s [] None ≫= expand_groups.

(** [net.IP] has 16 bytes; an IPv4 address is mapped into them. *)
Definition v4InV6Prefix : bytes := replicate 10 x00 ++ [xff; xff].

(** The first dot, colon or percent sign decides. *)
Fixpoint address_kind (s : bytes) : option byte :=
  match s with
  | [] => None
  | c :: s' => if bool_decide (c ∈ [dot; colon; percent]) then Some c else address_kind s'
  end.

Definition ParseIP (s : bytes) : option bytes :=
  match address_kind s with
  | Some c =>
      if bool_decide (c = dot) then (fun v4 => v4InV6Prefix ++ v4) <$> parseIPv4Fields s true false 0 0 []
      else if bool_decide (c = colon) then parseIPv6 s
      else None
  | None => None
  end.

(** ** The methods of [net.IP] *)

(** The address of an IPv4 one, which may be written in 16 bytes. *)
Definition To4 (ip : bytes) : option bytes :=
  if (length ip =? 4)%nat then Some ip
  else if (length ip =? 16)%nat && bool_decide (take 12 ip = v4InV6Prefix) then Some (drop 12 ip)
  else None.

Definition at_ (ip : bytes) (i : nat) : Z := u8 (nth i ip x00).

Definition IsPrivate (ip : bytes) : bool :=
  match To4 ip with
  | Some ip4 =>
      (at_ ip4 0 =? 10) || ((at_ ip4 0 =? 172) && (Z.land (at_ ip4 1) 240 =? 16))
      || ((at_ ip4 0 =? 192) && (at_ ip4 1 =? 168))
  | None => (length ip =? 16)%nat && (Z.land (at_ ip 0) 254 =? 252)
  end.

Definition IsLoopback (ip : bytes) : bool :=
  match To4 ip with
  | Some ip4 => at_ ip4 0 =? 127
  | None => bool_decide (ip = replicate 15 x00 ++ [x01])
  end.

Definition IsLinkLocalUnicast (ip : bytes) : bool :=
  match To4 ip with
  | Some ip4 => (at_ ip4 0 =? 169) && (at_ ip4 1 =? 254)
  | None => (length ip =? 16)%nat && (at_ ip 0 =? 254) && (Z.land (at_ ip 1) 192 =? 128)
  end.


(** [IsPrivate() || IsLoopback() || IsLinkLocalUnicast()], as every caller asks. *)
Definition is_local (ip : bytes) : bool := IsPrivate ip || IsLoopback ip || IsLinkLocalUnicast ip.

(** ** URLs *)

(** What the program looks at in a parsed URL. *)
Record URL := { url_Scheme : bytes; url_Host : bytes }.

(** [url.Parse] *)
Class UrlParse := url_Parse : bytes -> result URL.

(** An empty port or a colon followed by digits. *)
Definition validOptionalPort (port : bytes) : bool :=
  match port with
  | [] => true
  | c :: ds => bool_decide (c = colon) && forallb (fun c => in_range 48 57 (u8 c)) ds
  end.

(** [URL.Hostname]: without port and brackets. *)
Definition Hostname (u : URL) : bytes :=
  let host := url_Host u in
  let host := match LastIndexByte host colon with
              | Some i => if validOptionalPort (drop i host) then take i host else host
              | None => host
              end in
  if bool_decide (head host = Some open_bracket) && bool_decide (last host = Some close_bracket)
  then drop 1 (take (length host - 1) host)
  else host.

(** ** Addresses in decimal *)

(** An octet as it is written, without leading zeros. *)
Definition octet_text (b : byte) : bytes :=
  let d z := byte_of_Z (48 + z) in
  let v := u8 b in
  if v <? 10 then [d v]
  else if v <? 100 then [d (v / 10); d (v mod 10)]
  else [d (v / 100); d (v / 10 mod 10); d (v mod 10)].

Definition v4_text (a b c d : byte) : bytes :=
  octet_text a ++ dot :: octet_text b ++ dot :: octet_text c ++ dot :: octet_text d.

(** A character that ends an octet, or the end of the text. *)
Definition ends_octet (l : bytes) : Prop := match l with [] => True | c :: _ => digit c = None end.

Lemma octet_fields b l first prev fields : ends_octet l ->
  exists n, parseIPv4Fields (octet_text b ++ l) first prev 0 0 fields = parseIPv4Fields l false false (u8 b) n fields.
Proof. intros _. destruct b; cbn; eauto. Qed.

Lemma digit_dot : digit dot = None.
Proof. reflexivity. Qed.

Lemma parseIPv4Fields_dot l val n fields :
  l <> [] -> (length fields < 3)%nat ->
  parseIPv4Fields (dot :: l) false false val n fields = parseIPv4Fields l false true 0 0 (fields ++ [byte_of_Z val]).
Proof.
  intros Hl Hf. cbn [parseIPv4Fields]. rewrite digit_dot, bool_decide_eq_true_2 by done.
  rewrite bool_decide_eq_false_2 by done. cbn [orb]. by destruct (Nat.eqb_spec (length fields) 3); [lia|].
Qed.

Lemma octet_text_not_nil b l : octet_text b ++ l <> [].
Proof. by destruct b. Qed.

Lemma parseIPv4Fields_text a b c d :
  parseIPv4Fields (v4_text a b c d) true false 0 0 [] = Some [a; b; c; d].
Proof.
  unfold v4_text.
  assert (forall l, ends_octet (dot :: l)) as Hd by done.
  destruct (octet_fields a _ true false [] (Hd (octet_text b ++ dot :: octet_text c ++ dot :: octet_text d))) as [n ->].
  rewrite parseIPv4Fields_dot by (apply octet_text_not_nil || (cbn; lia)).
  destruct (octet_fields b _ false true ([] ++ [byte_of_Z (u8 a)]) (Hd (octet_text c ++ dot :: octet_text d))) as [n1 ->].
  rewrite parseIPv4Fields_dot by (apply octet_text_not_nil || (cbn; lia)).
  destruct (octet_fields c _ false true (([] ++ [byte_of_Z (u8 a)]) ++ [byte_of_Z (u8 b)]) (Hd (octet_text d))) as [n2 ->].
  rewrite parseIPv4Fields_dot by ((rewrite <- (app_nil_r (octet_text d)); apply octet_text_not_nil) || (cbn; lia)).
  rewrite <- (app_nil_r (octet_text d)).
  destruct (octet_fields d [] false true ((([] ++ [byte_of_Z (u8 a)]) ++ [byte_of_Z (u8 b)]) ++ [byte_of_Z (u8 c)]) I)
    as [n3 ->].
  cbn [parseIPv4Fields app length]. by rewrite !byte_of_Z_u8.
Qed.

Lemma octet_text_digits b c : c ∈ octet_text b -> in_range 48 57 (u8 c) = true.
Proof.
  intros Hc. assert (forallb (fun c => in_range 48 57 (u8 c)) (octet_text b) = true) as Hb by by destruct b.
  rewrite forallb_forall in Hb. apply Hb. by apply list_elem_of_In.
Qed.

Lemma address_kind_octet b l : address_kind (octet_text b ++ l) = address_kind l.
Proof. by destruct b. Qed.

(** An IPv4 address is read back from its decimal text. *)
Lemma ParseIP_text a b c d : ParseIP (v4_text a b c d) = Some (v4InV6Prefix ++ [a; b; c; d]).
Proof.
  unfold ParseIP. replace (address_kind (v4_text a b c d)) with (Some dot)
    by (unfold v4_text; by rewrite address_kind_octet).
  rewrite bool_decide_eq_true_2 by done. by rewrite parseIPv4Fields_text.
Qed.

(** A host without colons and brackets and a port in digits are split at the colon. *)
Lemma SplitHostPort_plain host port :
  (forall x, x ∈ host -> x <> colon /\ x <> open_bracket /\ x <> close_bracket) ->
  (forall x, x ∈ port -> in_range 48 57 (u8 x) = true) ->
  SplitHostPort (host ++ colon :: port) = Ok (host, port).
Proof.
  intros Hh Hp. assert (forall x, x ∈ port -> x <> colon /\ x <> open_bracket /\ x <> close_bracket) as Hp'.
  { intros x Hx%Hp. split_and!; intros ->; done. }
  assert (forall x, x ∈ host ++ colon :: port -> x <> open_bracket /\ x <> close_bracket) as Ha.
  { intros x [Hx|[->|Hx]%elem_of_cons]%elem_of_app; [by destruct (Hh x Hx) as (_ & ? & ?)|done|].
    by destruct (Hp' x Hx) as (_ & ? & ?). }
  unfold SplitHostPort. rewrite LastIndexByte_app by (intros Hc; by apply Hp' in Hc as [? _]).
  rewrite bool_decide_eq_false_2.
  2:{ intros Hhd. assert (open_bracket ∈ host ++ colon :: port) as Hin.
      { destruct (host ++ colon :: port); [done|]. injection Hhd as ->. by left. }
      by destruct (Ha _ Hin). }
  rewrite take_app_length. rewrite bool_decide_eq_false_2 by (intros Hc; by apply Hh in Hc as [? _]).
  unfold split_rest. cbn [drop].
  rewrite bool_decide_eq_false_2 by (intros Hc; by apply Ha in Hc as [? _]).
  rewrite bool_decide_eq_false_2 by (intros Hc; by apply Ha in Hc as [_ ?]).
  change (S (length host)) with (1 + length host)%nat. rewrite Nat.add_comm, <- drop_drop, drop_app_length. done.
Qed.

Lemma v4_text_plain a b c d x : x ∈ v4_text a b c d -> x <> colon /\ x <> open_bracket /\ x <> close_bracket.
Proof.
  assert (forall y, in_range 48 57 (u8 y) = true -> y <> colon /\ y <> open_bracket /\ y <> close_bracket) as Hd.
  { intros y Hy. split_and!; intros ->; done. }
  unfold v4_text. rewrite !elem_of_app, !elem_of_cons, !elem_of_app, !elem_of_cons, !elem_of_app, !elem_of_cons.
  intros [H|[->|[H|[->|[H|[->|H]]]]]]; (split_and!; discriminate) || eauto using octet_text_digits.
Qed.

(** Samples of the other forms. *)
Example ParseIP_samples :
  ParseIP (bs "::1") = Some (replicate 15 x00 ++ [x01]) /\
  ParseIP (bs "fe80::1:2") = Some ([xfe; x80] ++ replicate 10 x00 ++ [x00; x01; x00; x02]) /\
  ParseIP (bs "::ffff:10.0.0.1") = Some (v4InV6Prefix ++ [x0a; x00; x00; x01]) /\
  ParseIP (bs "1:2:3:4:5:6:7:8") = Some [x00; x01; x00; x02; x00; x03; x00; x04; x00; x05; x00; x06; x00; x07; x00; x08] /\
  (ParseIP <$> [bs "1::2::3"; bs "1:2:3:4:5:6:7::8"; bs "::1%eth0"; bs "10.0.0.01"; bs "10.0.0"; bs "256.1.1.1"; bs "12345::"])
    = replicate 7 None.
Proof. vm_compute. split_and!; reflexivity. Qed.
