(* ===== verification/Lan.v ===== *)
(** Discovery on the local network ([transport/lan/lan.go]): the subnets of the interfaces,
    the addresses that are probed, and the result of a scan. *)
From Stdlib Require Import String.
From S2P Require Import Prelude Text Net.

Definition Port : Z := 14786.
Definition port_text : bytes := bs "14786".

(** What an interface reports: [IPNet] and [IPAddr] addresses, and others. *)
Inductive iface_addr := IPNet (ip : bytes) | IPAddr (ip : bytes) | other_addr.
Record iface := { if_loopback : bool; if_up : bool; if_addrs : result (list iface_addr) }.

Definition addr_To4 (a : iface_addr) : option bytes :=
  match a with IPNet ip | IPAddr ip => To4 ip | other_addr => None end.

(** The state of the loop of [localSubnets]: local addresses and subnets, by their first
    three bytes; [seen] is the set of the subnets so far. *)
Definition add_addr (st : list bytes * list bytes) (a : iface_addr) : list bytes * list bytes :=
  match addr_To4 a with
  | None => st
  | Some ip =>
      let key := take 3 ip in
      (st.1 ++ [ip], if bool_decide (key ∈ st.2) then st.2 else st.2 ++ [key])
  end.

Definition localSubnets (ifaces : result (list iface)) : result (list bytes * list bytes) :=
  match ifaces with
  | Err e => Err e
  | Ok l =>
      Ok (foldl (fun st i =>
        if if_loopback i || negb (if_up i) then st
        else match if_addrs i with Err _ => st | Ok addrs => foldl add_addr st addrs end) ([], []) l)
  end.

Definition isLocal (ip : bytes) (localIPs : list bytes) : bool := existsb (fun l => bool_decide (l = ip)) localIPs.

(** The text of an address of four bytes, [IP.String]. *)
Definition ip_text (ip : bytes) : bytes :=
  match ip with [a; b; c; d] => v4_text a b c d | _ => [] end.

Definition host_port (ip : bytes) : bytes := ip_text ip ++ colon :: port_text.

(** Hosts 1 to 254 of a subnet. *)
Definition subnet_hosts (subnet : bytes) : list bytes :=
  (fun i => subnet ++ [byte_of_Z (Z.of_nat i)]) <$> seq 1 254.

Definition targets (localIPs subnets : list bytes) : list bytes :=
  host_port <$> filter (fun ip => isLocal ip localIPs = false) (subnets ≫= subnet_hosts).

(** The probes run concurrently: [order] is the order in which those that were started
    end, [answers] says which are accepted. *)
Definition probeAddrs (order : list bytes) (answers : bytes -> bool) : list bytes :=
  filter (fun a => answers a = true) order.

(** [schedule] gives that order for the targets. *)
Definition Scan (ifaces : result (list iface)) (schedule : list bytes -> list bytes) (answers : bytes -> bool)
    (ctx : option error) : result (list bytes) :=
  match localSubnets ifaces with
  | Err e => Err e
  | Ok (localIPs, subnets) =>
      let found := probeAddrs (schedule (targets localIPs subnets)) answers in
      match ctx with Some e => Err e | None => Ok found end
  end.

(** ** Theorems *)

(** The IPv4 addresses of the interfaces that are up and not loopback. *)
Definition own_addresses (l : list iface) : list bytes :=
  l ≫= fun i => if if_loopback i || negb (if_up i) then []
                else match if_addrs i with Err _ => [] | Ok addrs => omap addr_To4 addrs end.

(** What the loop has gathered after some addresses. *)
Definition gathered (ips : list bytes) (st : list bytes * list bytes) : Prop :=
  st.1 = ips /\ NoDup st.2 /\ forall key, key ∈ st.2 <-> exists ip, ip ∈ ips /\ key = take 3 ip.

Lemma add_addrs_gathered addrs ips st : gathered ips st ->
  gathered (ips ++ omap addr_To4 addrs) (foldl add_addr st addrs).
Proof.
  revert ips st. induction addrs as [|a addrs IH]; intros ips st Hg; cbn [foldl omap list_omap]; [by rewrite app_nil_r|].
  assert (gathered (ips ++ option_list (addr_To4 a)) (add_addr st a)) as Hg'.
  { unfold add_addr. destruct (addr_To4 a) as [ip|]; cbn [option_list]; [|by rewrite app_nil_r].
    destruct Hg as (<- & Hn & Hk). unfold gathered. cbn [fst snd]. split; [done|]. case_bool_decide as Hin.
    - split; [done|]. intros key. rewrite Hk. setoid_rewrite elem_of_app. setoid_rewrite list_elem_of_singleton.
      apply Hk in Hin as (ip' & Hip & E). split; [naive_solver|]. intros (x & [Hx| ->] & ->); [by exists x|].
      by exists ip'.
    - split; [apply NoDup_app; split_and!; [done|intros x Hx ->%list_elem_of_singleton; done|apply NoDup_singleton]|].
      intros key. rewrite elem_of_app, Hk, list_elem_of_singleton. setoid_rewrite elem_of_app.
      setoid_rewrite list_elem_of_singleton. naive_solver. }
  specialize (IH _ _ Hg'). rewrite <- app_assoc in IH. by destruct (addr_To4 a).
Qed.

Lemma localSubnets_gathered l : exists st, localSubnets (Ok l) = Ok st /\ gathered (own_addresses l) st.
Proof.
  unfold localSubnets. eexists. split; [reflexivity|].
  assert (gathered [] ([], [])) as H0'.
  { split_and!; [done|constructor|]. intros key. split; [by intros ?%not_elem_of_nil|intros (ip & ?%not_elem_of_nil & _); done]. }
  change (own_addresses l) with ([] ++ own_addresses l). revert H0'. generalize (@nil bytes) at 1 4 as ips.
  generalize (([], []) : list bytes * list bytes) as st.
  induction l as [|i l IH]; intros st ips Hg; cbn [foldl]; [by rewrite app_nil_r|].
  unfold own_addresses. cbn [mbind list_bind]. fold (own_addresses l). rewrite app_assoc. apply IH.
  destruct (if_loopback i || negb (if_up i)); [by rewrite app_nil_r|].
  destruct (if_addrs i); [by apply add_addrs_gathered|by rewrite app_nil_r].
Qed.

Lemma To4_length ip ip4 : To4 ip = Some ip4 -> length ip4 = 4%nat.
Proof.
  unfold To4. destruct (Nat.eqb_spec (length ip) 4) as [E|_]; [by intros [= <-]|].
  destruct (Nat.eqb_spec (length ip) 16) as [E|_]; cbn [andb]; [|done].
  case_bool_decide; [|done]. intros [= <-]. rewrite length_drop. lia.
Qed.

Lemma own_addresses_length l ip : ip ∈ own_addresses l -> length ip = 4%nat.
Proof.
  unfold own_addresses. intros (i & Hin & _)%list_elem_of_bind. destruct (if_loopback i || negb (if_up i)); [by apply not_elem_of_nil in Hin|].
  destruct (if_addrs i) as [addrs|]; [|by apply not_elem_of_nil in Hin].
  apply list_elem_of_omap in Hin as (a & _ & Ha). unfold addr_To4 in Ha. destruct a; [by apply To4_length in Ha|by apply To4_length in Ha|done].
Qed.

(** A host of a subnet is read back from its address, so addresses name hosts. *)
Lemma host_port_parses ip : length ip = 4%nat ->
  exists host, SplitHostPort (host_port ip) = Ok (host, port_text) /\ ParseIP host = Some (v4InV6Prefix ++ ip).
Proof.
  intros Hl. destruct ip as [|a [|b [|c [|d [|]]]]]; try discriminate. exists (v4_text a b c d). split.
  - unfold host_port, ip_text. apply SplitHostPort_plain; [apply v4_text_plain|].
    apply Forall_forall. unfold port_text. by repeat constructor.
  - apply ParseIP_text.
Qed.

Lemma host_port_inj ip1 ip2 : length ip1 = 4%nat -> length ip2 = 4%nat -> host_port ip1 = host_port ip2 -> ip1 = ip2.
Proof.
  intros (h1 & S1 & P1)%host_port_parses (h2 & S2 & P2)%host_port_parses E. rewrite E, S2 in S1.
  apply (inj Ok) in S1 as [<- _]%pair_eq. rewrite P2 in P1. apply (inj Some) in P1. by apply app_inv_head in P1.
Qed.

Lemma subnet_hosts_elem key ip : ip ∈ subnet_hosts key <-> exists i, 1 <= i <= 254 /\ ip = key ++ [byte_of_Z i].
Proof.
  unfold subnet_hosts. rewrite list_elem_of_fmap. split.
  - intros (n & -> & Hn%elem_of_seq). exists (Z.of_nat n). split; [lia|done].
  - intros (i & Hi & ->). exists (Z.to_nat i). rewrite Z2Nat.id by lia. split; [done|]. apply elem_of_seq. lia.
Qed.

Lemma NoDup_subnet_hosts key : NoDup (subnet_hosts key).
Proof.
  unfold subnet_hosts. apply NoDup_fmap_2_strong; [|apply NoDup_seq].
  intros m n Hm%elem_of_seq Hn%elem_of_seq E%app_inv_head. injection E as E%(f_equal u8).
  rewrite !u8_byte_of_Z, !Z.mod_small in E by lia. lia.
Qed.

Lemma isLocal_elem ip ips : isLocal ip ips = true <-> ip ∈ ips.
Proof.
  unfold isLocal. rewrite existsb_exists. setoid_rewrite bool_decide_eq_true. setoid_rewrite <- list_elem_of_In.
  naive_solver.
Qed.

Lemma targets_spec l ips keys : gathered (own_addresses l) (ips, keys) ->
  NoDup (targets ips keys) /\
  forall hp, hp ∈ targets ips keys <-> exists own i, own ∈ own_addresses l /\ 1 <= i <= 254 /\
    ((take 3 own ++ [byte_of_Z i]) ∉ own_addresses l) /\ hp = host_port (take 3 own ++ [byte_of_Z i]).
Proof.
  intros (E & Hn & Hk). cbn [fst snd] in *. subst ips.
  assert (forall key, key ∈ keys -> length key = 3%nat) as Hlen.
  { intros key (ip & Hip%own_addresses_length & ->)%Hk. rewrite length_take. lia. }
  assert (forall ip, ip ∈ keys ≫= subnet_hosts -> length ip = 4%nat) as Hlen4.
  { intros ip (key & (i & _ & ->)%subnet_hosts_elem & Hkey%Hlen)%list_elem_of_bind. rewrite length_app, Hkey. done. }
  split.
  - unfold targets. apply NoDup_fmap_2_strong.
    + intros x y [_ Hx%Hlen4]%list_elem_of_filter [_ Hy%Hlen4]%list_elem_of_filter. by apply host_port_inj.
    + apply NoDup_filter, NoDup_bind; [|intros; apply NoDup_subnet_hosts|done].
      intros k1 k2 y H1%Hlen H2%Hlen (i & _ & ->)%subnet_hosts_elem (j & _ & E)%subnet_hosts_elem.
      apply (f_equal (take 3)) in E. rewrite !take_app_le in E by lia. by rewrite !take_ge in E by lia.
  - intros hp. unfold targets. rewrite list_elem_of_fmap. split.
    + intros (ip & -> & [Hl (key & (i & Hi & ->)%subnet_hosts_elem & (own & Hown & ->)%Hk)%list_elem_of_bind]%list_elem_of_filter).
      exists own, i. split_and!; [done|lia|lia|intros Hc%isLocal_elem; congruence|done].
    + intros (own & i & Hown & Hi & Hl & ->). exists (take 3 own ++ [byte_of_Z i]). split; [done|].
      apply list_elem_of_filter. split.
      * destruct (isLocal _ _) eqn:El; [by apply isLocal_elem in El|done].
      * apply list_elem_of_bind. exists (take 3 own). split; [|apply Hk; by exists own].
        apply subnet_hosts_elem. by exists i.
Qed.

(** C33: A scan finds exactly the other hosts of the /24 subnets of this machine that answer:
    an address is found when it answers and its first three bytes are those of an IPv4 address
    of an interface that is up and not loopback, its last is 1 to 254, and it is none of the
    machine's own; each is found once, in whatever order the probes end, and its text reads
    back as the address and the port. *)
Theorem Scan_complete l schedule answers :
  (forall ts, schedule ts ≡ₚ ts) ->
  exists found, Scan (Ok l) schedule answers None = Ok found /\ NoDup found /\
    (forall hp, hp ∈ found <-> answers hp = true /\ exists own i, own ∈ own_addresses l /\ 1 <= i <= 254 /\
       ((take 3 own ++ [byte_of_Z i]) ∉ own_addresses l) /\ hp = host_port (take 3 own ++ [byte_of_Z i])) /\
    (forall hp, hp ∈ found -> exists host ip, SplitHostPort hp = Ok (host, port_text) /\
       ParseIP host = Some (v4InV6Prefix ++ ip) /\ length ip = 4%nat).
Proof.
  intros Hs. destruct (localSubnets_gathered l) as ([ips keys] & E & Hg). destruct (targets_spec l ips keys Hg) as [Hn Ht].
  unfold Scan. rewrite E. eexists. split; [reflexivity|]. unfold probeAddrs.
  assert (forall hp, hp ∈ filter (fun a => answers a = true) (schedule (targets ips keys)) <->
    answers hp = true /\ hp ∈ targets ips keys) as He by (intros hp; by rewrite list_elem_of_filter, Hs).
  split_and!.
  - apply NoDup_filter. by rewrite Hs.
  - intros hp. by rewrite He, Ht.
  - intros hp [_ (own & i & Hown & _ & _ & ->)%Ht]%He. apply own_addresses_length in Hown.
    assert (length (take 3 own ++ [byte_of_Z i]) = 4%nat) as Hl by (rewrite length_app, length_take, Hown; done).
    destruct (host_port_parses _ Hl) as (host & Hp & Hi). by exists host, (take 3 own ++ [byte_of_Z i]).
Qed.

Module LanDemo.
Definition lo : iface := {| if_loopback := true; if_up := true; if_addrs := Ok [IPNet [x7f; x00; x00; x01]] |}.
Definition eth : iface := {| if_loopback := false; if_up := true; if_addrs := Ok [IPNet (v4InV6Prefix ++ [xc0; xa8; x01; x14]); other_addr] |}.

Lemma Scan_complete_witness : exists found,
  Scan (Ok [lo; eth]) reverse (fun hp => bool_decide (hp ∈ [bs "192.168.1.7:14786"; bs "10.0.0.1:14786"])) None = Ok found /\
  bs "192.168.1.7:14786" ∈ found.
Proof.
  destruct (Scan_complete [lo; eth] reverse (fun hp => bool_decide (hp ∈ [bs "192.168.1.7:14786"; bs "10.0.0.1:14786"])))
    as (found & E & _ & Hf & _); [intros ts; apply reverse_Permutation|].
  exists found. split; [exact E|]. apply Hf. split; [vm_compute; reflexivity|].
  exists [xc0; xa8; x01; x14], 7. split_and!; [apply list_elem_of_here|discriminate|discriminate| |vm_compute; reflexivity].
  replace (own_addresses [lo; eth]) with [[xc0; xa8; x01; x14]] by (vm_compute; reflexivity).
  intros Hc%list_elem_of_singleton. vm_compute in Hc. discriminate.
Defined.
End LanDemo.
