(* ===== verification/IdPow.v ===== *)
(** Identity proof of work ([client/idpow.go]): gift messages, the stamp in the header
    line of a message, the work factor of a stamp for a key, and the mining loop. *)
From Stdlib Require Import String.
From S2P Require Import Prelude Codec Block Text.

Definition idPowArgonTime : Z := 1.
Definition idPowArgonMemory : Z := 64 * 1024.
Definition idPowArgonThreads : Z := 1.
Definition idPowArgonKeyLen : Z := 32.
Definition idPowStampSize : nat := 16.
Definition idPowSalt : bytes := bs "sneakernet-idpow-v1".
Definition PowGiftPrefix : bytes := bs "snk-pow-gift:".
Definition snkPrefix : bytes := bs "snk:".

Definition FormatPowGift (stamp : bytes) : bytes := PowGiftPrefix ++ b64_encode RawURLEncoding stamp.

Definition ParsePowGift (content : bytes) : option bytes :=
  let s := TrimSpace content in
  if negb (HasPrefix s PowGiftPrefix) then None
  else
    match b64_decode RawURLEncoding (TrimSpace (drop (length PowGiftPrefix) s)) with
    | Err _ => None
    | Ok [] => None
    | Ok stamp => Some stamp
    end.

(** [idPowLeadingZeroBits], with its accumulator. *)
Fixpoint idPowLeadingZeroBits_from (count : Z) (b : bytes) : Z :=
  match b with
  | [] => count
  | v :: b' =>
      let lz := LeadingZeros8 (u8 v) in
      if lz <? 8 then count + lz else idPowLeadingZeroBits_from (count + lz) b'
  end.
Definition idPowLeadingZeroBits (b : bytes) : Z := idPowLeadingZeroBits_from 0 b.

(** It counts what the proof of work of blocks counts. *)
Lemma idPowLeadingZeroBits_eq b : idPowLeadingZeroBits b = leadingZeroBits b.
Proof.
  unfold idPowLeadingZeroBits. enough (forall n, idPowLeadingZeroBits_from n b = n + leadingZeroBits b) as -> by lia.
  induction b as [|v b IH]; intros n; cbn [idPowLeadingZeroBits_from leadingZeroBits]; [lia|].
  destruct (_ <? 8); [done|]. rewrite IH. lia.
Qed.

Section IdPow.
Context `{Hashes}.

Definition IdentityWorkFactor (stamp pubkey : bytes) : Z :=
  let input := replicate (length stamp + 32) x00 in
  let input := copy_at 0 stamp input in
  let input := copy_at (length stamp) pubkey input in
  let hash := argon2_IDKey input idPowSalt idPowArgonTime idPowArgonMemory idPowArgonThreads idPowArgonKeyLen in
  idPowLeadingZeroBits hash.

(** [nil, 0] is [None]. *)
Definition ParseSnkStamp (content senderPub : bytes) : option (bytes * Z) :=
  let line := match IndexByte content x0a with Some nl => take nl content | None => content end in
  match IndexByte line x20 with
  | None => None
  | Some spaceIdx =>
      let snkPart := take spaceIdx line in
      let stampStr := TrimSpace (drop (spaceIdx + 1) line) in
      match LastIndexByte snkPart x2f with
      | None => None
      | Some slashIdx =>
          if negb (HasPrefix snkPart snkPrefix) then None
          else
            match b64_decode RawURLEncoding (drop (slashIdx + 1) snkPart) with
            | Err _ => None
            | Ok pubBytes =>
                if negb (length pubBytes =? 32)%nat || negb (bool_decide (pubBytes = senderPub)) then None
                else
                  match b64_decode RawURLEncoding stampStr with
                  | Err _ => None
                  | Ok [] => None
                  | Ok stamp => Some (stamp, IdentityWorkFactor stamp senderPub)
                  end
            end
      end
  end.

(** What one round of the mining loop sees: the branch its [select] takes, and in the
    default branch the outcome of [rand.Read]. *)
Inductive idpow_round :=
  | ir_ctx_done (err : error)
  | ir_deadline
  | ir_default (rand : result bytes).

Fixpoint MineIdentityPoW_loop (pubkey best : bytes) (bestBits : Z) (rounds : list idpow_round)
    : option (bytes * Z * option error) :=
  match rounds with
  | [] => None
  | ir_ctx_done err :: _ => Some (best, bestBits, Some err)
  | ir_deadline :: _ => Some (best, bestBits, None)
  | ir_default (Err err) :: _ => Some (best, bestBits, Some err)
  | ir_default (Ok stamp) :: rounds' =>
      let wf := IdentityWorkFactor stamp pubkey in
      if bestBits <? wf then MineIdentityPoW_loop pubkey (copy_at 0 stamp best) wf rounds'
      else MineIdentityPoW_loop pubkey best bestBits rounds'
  end.

(** [first] is the outcome of the read that stands in for a missing seed. *)
Definition MineIdentityPoW (pubkey seed : bytes) (first : result bytes) (rounds : list idpow_round)
    : option (bytes * Z * option error) :=
  let best := replicate idPowStampSize x00 in
  if (length seed =? idPowStampSize)%nat
  then
    let best := copy_at 0 seed best in
    MineIdentityPoW_loop pubkey best (IdentityWorkFactor best pubkey) rounds
  else
    match first with
    | Err err => Some ([], 0, Some err)
    | Ok best => MineIdentityPoW_loop pubkey best (IdentityWorkFactor best pubkey) rounds
    end.
End IdPow.

(** ** Lemmas *)

Lemma PowGiftPrefix_solid : forallb ascii_solid PowGiftPrefix = true.
Proof. by vm_compute. Qed.

Lemma FormatPowGift_solid stamp : forallb ascii_solid (FormatPowGift stamp) = true.
Proof. unfold FormatPowGift. by rewrite forallb_app, PowGiftPrefix_solid, (proj1 (b64_encode_solid stamp)). Qed.

Lemma TrimSpace_b64 l : TrimSpace (b64_encode RawURLEncoding l) = b64_encode RawURLEncoding l.
Proof.
  destruct (b64_encode RawURLEncoding l) as [|b t] eqn:E; [done|].
  rewrite <- (app_nil_r (b :: t)) at 1. rewrite <- (app_nil_l ((b :: t) ++ [])).
  apply TrimSpace_around; [done|done|done|]. rewrite <- E. apply b64_encode_solid.
Qed.

(** A gift is recognised: the text of a gift, with any ASCII space around it, gives
    the stamp back, unless the stamp is empty. *)
Theorem gift_roundtrip stamp ws1 ws2 :
  forallb ascii_space ws1 = true -> forallb ascii_space ws2 = true ->
  ParsePowGift (ws1 ++ FormatPowGift stamp ++ ws2) = match stamp with [] => None | _ => Some stamp end.
Proof.
  intros H1 H2. unfold ParsePowGift. rewrite TrimSpace_around; [|done|done|done|apply FormatPowGift_solid].
  unfold FormatPowGift. rewrite HasPrefix_app. cbn [negb].
  rewrite drop_app_length, TrimSpace_b64, rawurl_roundtrip. by destruct stamp.
Qed.

Lemma gift_roundtrip_witness :
  ParsePowGift ([x20; x0a] ++ FormatPowGift [x01; x02] ++ [x0a]) = Some [x01; x02].
Proof. exact (gift_roundtrip [x01; x02] [x20; x0a] [x0a] eq_refl eq_refl). Defined.

(** The header line of a message. *)
Definition snk_header (name pub stamp : bytes) : bytes :=
  snkPrefix ++ name ++ [x2f] ++ b64_encode RawURLEncoding pub ++ [x20] ++ b64_encode RawURLEncoding stamp.

Lemma solid_not_in l c : forallb ascii_solid l = true -> ascii_solid c = false -> c ∉ l.
Proof.
  intros Hl Hc Hin. rewrite forallb_forall in Hl.
  by rewrite (Hl c (proj1 (list_elem_of_In _ _) Hin)) in Hc.
Qed.

(** The stamp in the header of a message is found.  A first line [snk:name/key stamp],
    where the (escaped) name has neither space nor line break, yields the stamp with its
    work factor for the sender whose key it names, and nothing for any other sender. *)
Theorem snk_header_parses `{Hashes} name pub stamp rest senderPub :
  x20 ∉ name -> x0a ∉ name -> length pub = 32%nat -> stamp <> [] ->
  (rest = [] \/ exists body, rest = x0a :: body) ->
  ParseSnkStamp (snk_header name pub stamp ++ rest) senderPub
  = if decide (pub = senderPub) then Some (stamp, IdentityWorkFactor stamp senderPub) else None.
Proof.
  intros Hsp Hnl Hpub Hst Hrest. unfold ParseSnkStamp.
  destruct (b64_encode_solid pub) as [Hb1 Hb1']. destruct (b64_encode_solid stamp) as [Hb2 _].
  set (hd := snk_header name pub stamp).
  assert (x0a ∉ hd) as Hhd.
  { unfold hd, snk_header. rewrite !not_elem_of_app. split_and!; [by apply solid_not_in|done| |by apply solid_not_in| |by apply solid_not_in];
      by apply not_elem_of_cons; split; [|apply not_elem_of_nil]. }
  assert ((match IndexByte (hd ++ rest) x0a with Some nl => take nl (hd ++ rest) | None => hd ++ rest end) = hd) as ->.
  { destruct Hrest as [->|[body ->]].
    - rewrite app_nil_r. by rewrite (proj2 (IndexByte_None hd x0a)).
    - rewrite IndexByte_app by done. apply take_app_length. }
  set (part := snkPrefix ++ name ++ [x2f] ++ b64_encode RawURLEncoding pub).
  assert (hd = part ++ x20 :: b64_encode RawURLEncoding stamp) as ->
    by (unfold hd, part, snk_header; by rewrite <- !app_assoc).
  assert (x20 ∉ part) as Hpart.
  { unfold part. rewrite !not_elem_of_app. split_and!; [by apply solid_not_in|done| |by apply solid_not_in].
    by apply not_elem_of_cons; split; [|apply not_elem_of_nil]. }
  rewrite IndexByte_app by done. rewrite take_app_length.
  rewrite drop_app_ge by lia. replace (length part + 1 - length part)%nat with 1%nat by lia. rewrite skipn_cons, drop_0.
  rewrite TrimSpace_b64, rawurl_roundtrip. cbn zeta.
  assert (part = (snkPrefix ++ name) ++ x2f :: b64_encode RawURLEncoding pub) as Ep
    by (unfold part; by rewrite <- app_assoc).
  rewrite Ep at 1. rewrite LastIndexByte_app by done. unfold part at 1. rewrite HasPrefix_app. cbn [negb].
  rewrite Ep, drop_app_ge by lia. replace (_ + 1 - _)%nat with 1%nat by lia. rewrite skipn_cons, drop_0.
  rewrite rawurl_roundtrip, Hpub, Nat.eqb_refl. cbn [negb orb].
  case_bool_decide; case_decide; try done. by destruct stamp.
Qed.

Lemma snk_header_parses_witness :
  @ParseSnkStamp ref_Hashes (snk_header (bs "al%20ice") (replicate 32 x05) [x01; x02] ++ x0a :: bs "hi") (replicate 32 x05)
  = Some ([x01; x02], @IdentityWorkFactor ref_Hashes [x01; x02] (replicate 32 x05)).
Proof.
  refine (@snk_header_parses ref_Hashes (bs "al%20ice") (replicate 32 x05) [x01; x02] (x0a :: bs "hi") (replicate 32 x05) _ _ eq_refl _ _).
  - by apply (bool_decide_unpack _); vm_compute.
  - by apply (bool_decide_unpack _); vm_compute.
  - discriminate.
  - right. eexists. reflexivity.
Defined.

(** ** Mining *)

(** The stamps drawn before the loop stopped. *)
Fixpoint drawn (rounds : list idpow_round) : list bytes :=
  match rounds with
  | ir_default (Ok s) :: rounds' => s :: drawn rounds'
  | _ => []
  end.

Lemma MineIdentityPoW_loop_spec `{Hashes} pubkey best rounds :
  length best = idPowStampSize -> Forall (fun s => length s = idPowStampSize) (drawn rounds) ->
  match MineIdentityPoW_loop pubkey best (IdentityWorkFactor best pubkey) rounds with
  | None => length (drawn rounds) = length rounds
  | Some (s, wf, _) =>
      wf = IdentityWorkFactor s pubkey /\ (s = best \/ s ∈ drawn rounds) /\ IdentityWorkFactor best pubkey <= wf /\
      Forall (fun s' => IdentityWorkFactor s' pubkey <= wf) (drawn rounds)
  end.
Proof.
  revert best. induction rounds as [|r rounds IH]; intros best Hb HF; cbn [MineIdentityPoW_loop drawn]; [done|].
  destruct r as [err| |[s|err]]; cbn [drawn] in *.
  1,2,4: split_and!; [done|by left|lia|constructor].
  apply Forall_cons in HF as [Hs HF]. rewrite copy_at_whole by congruence.
  destruct (Z.ltb_spec (IdentityWorkFactor best pubkey) (IdentityWorkFactor s pubkey)) as [Hlt|Hge].
  - specialize (IH s Hs HF). destruct (MineIdentityPoW_loop pubkey s _ rounds) as [[[s' wf] oe]|]; [|cbn; lia].
    destruct IH as (-> & Hin & Hle & Hall). split_and!; [done| |lia|constructor; [lia|done]].
    destruct Hin as [->|]; right; [apply list_elem_of_here|by apply list_elem_of_further].
  - specialize (IH best Hb HF). destruct (MineIdentityPoW_loop pubkey best _ rounds) as [[[s' wf] oe]|]; [|cbn; lia].
    destruct IH as (-> & Hin & Hle & Hall). split_and!; [done| |lia|constructor; [lia|done]].
    destruct Hin as [->|]; [by left|right; by apply list_elem_of_further].
Qed.

(** Mining an identity stamp returns the best: the stamp that is returned has the
    returned work factor, which is at least that of the seed when there is one and of
    every stamp drawn, and it is the seed or one that was drawn; the loop runs on only
    while every round drew a stamp. *)
Theorem MineIdentityPoW_best `{Hashes} pubkey seed first rounds :
  (forall s, first = Ok s -> length s = idPowStampSize) ->
  Forall (fun s => length s = idPowStampSize) (drawn rounds) ->
  let has_seed := length seed = idPowStampSize in
  match MineIdentityPoW pubkey seed first rounds with
  | None => length (drawn rounds) = length rounds
  | Some ([], wf, err) => ~ has_seed /\ wf = 0 /\ exists e, first = Err e /\ err = Some e
  | Some (s, wf, _) =>
      wf = IdentityWorkFactor s pubkey /\ (has_seed -> IdentityWorkFactor seed pubkey <= wf) /\
      ((has_seed /\ s = seed) \/ first = Ok s \/ s ∈ drawn rounds) /\
      Forall (fun s' => IdentityWorkFactor s' pubkey <= wf) (drawn rounds)
  end.
Proof.
  intros Hfirst HF. cbn zeta. unfold MineIdentityPoW.
  assert (forall best, length best = idPowStampSize ->
    match MineIdentityPoW_loop pubkey best (IdentityWorkFactor best pubkey) rounds with
    | None => length (drawn rounds) = length rounds
    | Some (s, wf, _) => s <> [] /\ wf = IdentityWorkFactor s pubkey /\ (s = best \/ s ∈ drawn rounds) /\
        IdentityWorkFactor best pubkey <= wf /\ Forall (fun s' => IdentityWorkFactor s' pubkey <= wf) (drawn rounds)
    end) as Hloop.
  { intros best Hb. pose proof (MineIdentityPoW_loop_spec pubkey best rounds Hb HF) as Hl.
    destruct (MineIdentityPoW_loop _ _ _ _) as [[[s wf] oe]|]; [|done]. destruct Hl as (-> & Hin & Hrest).
    split_and!; try done; try apply Hrest. rewrite Forall_forall in HF.
    destruct Hin as [->|Hin%HF]; [by destruct best|by destruct s]. }
  destruct (Nat.eqb_spec (length seed) idPowStampSize) as [Hs|Hs].
  - rewrite copy_at_whole by by rewrite length_replicate. specialize (Hloop seed Hs).
    destruct (MineIdentityPoW_loop _ _ _ _) as [[[[|b s] wf] oe]|]; [by destruct Hloop| |done].
    destruct Hloop as (_ & -> & Hin & Hle & Hall). split_and!; [done|done| |done]. destruct Hin as [->|]; auto.
  - destruct first as [best|e]; [|eauto 6]. specialize (Hloop best (Hfirst best eq_refl)).
    destruct (MineIdentityPoW_loop _ _ _ _) as [[[[|b s] wf] oe]|]; [by destruct Hloop| |done].
    destruct Hloop as (_ & -> & Hin & Hle & Hall). split_and!; [done|done| |done]. destruct Hin as [->|]; auto.
Qed.

Lemma MineIdentityPoW_best_witness : exists wf,
  @MineIdentityPoW ref_Hashes (replicate 32 x05) (replicate 16 x01) (Err ErrEOF)
    [ir_default (Ok (replicate 16 x00)); ir_deadline] = Some (replicate 16 x00, wf, None) /\
  @IdentityWorkFactor ref_Hashes (replicate 16 x01) (replicate 32 x05) <= wf.
Proof.
  pose proof (@MineIdentityPoW_best ref_Hashes (replicate 32 x05) (replicate 16 x01) (Err ErrEOF)
    [ir_default (Ok (replicate 16 x00)); ir_deadline] ltac:(discriminate) ltac:(repeat constructor)) as Hm.
  cbn zeta in Hm.
  destruct (@MineIdentityPoW ref_Hashes (replicate 32 x05) (replicate 16 x01) (Err ErrEOF)
    [ir_default (Ok (replicate 16 x00)); ir_deadline]) as [[[s wf] oe]|] eqn:E.
  - vm_compute in E. injection E as <- <- <-. eexists. split; [reflexivity|].
    destruct Hm as (_ & Hm & _). exact (Hm eq_refl).
  - vm_compute in E. discriminate E.
Defined.
