(* ===== verification/Crypto.v ===== *)
(** Encryption of messages ([client/crypto.go]): direct messages under an ephemeral
    X25519 exchange, channel messages under a shared key, and the trial decryption of
    blocks.  The primitives are parameters; random draws are arguments. *)
From Stdlib Require Import String.
From S2P Require Import Prelude Codec Block Message.

(** ** Primitives *)

(** [filippo.io/edwards25519], [crypto/ecdh] (X25519), SHA-512 and XChaCha20-Poly1305. *)
Class Primitives := {
  EdPoint : Type;
  XPub : Type;
  XPriv : Type;
  edwards_SetBytes : bytes -> result EdPoint;
  edwards_BytesMontgomery : EdPoint -> bytes;
  x25519_NewPublicKey : bytes -> result XPub;
  x25519_NewPrivateKey : bytes -> result XPriv;
  XPub_Bytes : XPub -> bytes;
  XPriv_PublicKey : XPriv -> XPub;
  XPriv_ECDH : XPriv -> XPub -> result bytes;
  sha512_Sum512 : bytes -> bytes;
  chacha_NewX : bytes -> option error;
  chacha_Seal (key nonce plain : bytes) : bytes;
  chacha_Open (key nonce ct : bytes) : result bytes;
}.

(** [scalar[0] &= 248; scalar[31] &= 127; scalar[31] |= 64] *)
Definition clamp (scalar : bytes) : bytes :=
  let scalar := <[0%nat := byte_of_Z (Z.land (u8 (scalar !!! 0%nat)) 248)]> scalar in
  let scalar := <[31%nat := byte_of_Z (Z.land (u8 (scalar !!! 31%nat)) 127)]> scalar in
  <[31%nat := byte_of_Z (Z.lor (u8 (scalar !!! 31%nat)) 64)]> scalar.

(** The scalar of the X25519 key derived from an Ed25519 private key, whose first
    half is the seed. *)
Definition x25519_scalar `{Primitives} (edPriv : bytes) : bytes :=
  clamp (slice 0 32 (sha512_Sum512 (slice 0 32 edPriv))).

(** Two encodings that differ at most in bit 255. *)
Definition same_point (a b : bytes) : Prop :=
  take 31 a = take 31 b /\ Z.land (u8 (a !!! 31%nat)) 127 = Z.land (u8 (b !!! 31%nat)) 127.

Class PrimitivesLaws `{Primitives, Ed25519} : Prop := {
  XPub_Bytes_length p : length (XPub_Bytes p) = 32%nat;
  NewPublicKey_Bytes p : x25519_NewPublicKey (XPub_Bytes p) = Ok p;
  NewPublicKey_32 b : length b = 32%nat -> exists p, x25519_NewPublicKey b = Ok p /\ XPub_Bytes p = b;
  NewPrivateKey_32 b : length b = 32%nat -> exists k, x25519_NewPrivateKey b = Ok k;
  (* Diffie-Hellman, and RFC 7748: bit 255 of a point is masked *)
  ECDH_comm a b : XPriv_ECDH a (XPriv_PublicKey b) = XPriv_ECDH b (XPriv_PublicKey a);
  ECDH_mask a p q : same_point (XPub_Bytes p) (XPub_Bytes q) -> XPriv_ECDH a p = XPriv_ECDH a q;
  (* the birational map takes the Ed25519 public key to the X25519 one; of a key that is a
     seed followed by its public key, as in [Ed25519Laws] *)
  Montgomery_agrees sk k : length sk = 64%nat -> x25519_NewPrivateKey (x25519_scalar sk) = Ok k ->
    exists pt, edwards_SetBytes (ed25519_Public sk) = Ok pt /\
      edwards_BytesMontgomery pt = XPub_Bytes (XPriv_PublicKey k);
  sha512_length m : length (sha512_Sum512 m) = 64%nat;
  NewX_32 key : length key = 32%nat -> chacha_NewX key = None;
  Seal_length key nonce m : length (chacha_Seal key nonce m) = (length m + tagSize)%nat;
  Open_Seal key nonce m : chacha_Open key nonce (chacha_Seal key nonce m) = Ok m;
  Open_length key nonce ct m : chacha_Open key nonce ct = Ok m -> (length m + tagSize)%nat = length ct;
}.

(** ** Definitions of the file *)

Definition magicV1 : bytes := [x53; x4e; x4b; x01].
Definition v1MagicSize : nat := 4.
Definition v1HeaderSize : nat := v1MagicSize + 2.
Definition v1MaxContent : nat := plaintextSize - v1HeaderSize.
Definition channelSaltSize : nat := pubKeySize.

Arguments v1MaxContent : simpl never.

Section Crypto.
Context `{Primitives, Hashes, Ed25519}.

Definition EdPubToX25519 (edPub : bytes) : result XPub :=
  p ← edwards_SetBytes edPub;
  x25519_NewPublicKey (edwards_BytesMontgomery p).

Definition edPrivToX25519 (edPriv : bytes) : result XPriv :=
  x25519_NewPrivateKey (x25519_scalar edPriv).

(** What the random source yields for one encryption. *)
Record draws := {
  dr_key : result XPriv;
  dr_nonce : result bytes;
  dr_noise : result byte;
}.

(** The payload without its noise bit. *)
Definition mask_noise (payload : Payload) (noise : byte) : Payload :=
  <[31%nat := byte_of_Z (Z.lor (Z.land (u8 (payload !!! 31%nat)) 127) (Z.land (u8 noise) 128))]> payload.

Definition encryptPlain (dr : draws) (recipientPub : XPub) (plain : bytes) : result Payload :=
  ephemeral ← dr_key dr;
  shared ← XPriv_ECDH ephemeral recipientPub;
  let key := sha256_Sum256 shared in
  match chacha_NewX key with
  | Some e => Err e
  | None =>
      nonce ← dr_nonce dr;
      let ct := chacha_Seal key nonce plain in
      let payload := replicate PayloadSize x00 in
      let payload := copy_at 0 (take pubKeySize (XPub_Bytes (XPriv_PublicKey ephemeral))) payload in
      noise ← dr_noise dr;
      let payload := mask_noise payload noise in
      let payload := copy_at pubKeySize nonce payload in
      Ok (copy_at ciphertextOffset ct payload)
  end.

Definition Encrypt (dr : draws) (recipientEdPub : bytes) (mp : MessagePayload) : result Payload :=
  recipientPub ← EdPubToX25519 recipientEdPub;
  plain ← EncodePayload mp;
  encryptPlain dr recipientPub plain.

Definition EncryptSigned (dr : draws) (recipientEdPub : bytes) (mp : MessagePayload) (sigKey : bytes)
    : result Payload :=
  recipientPub ← EdPubToX25519 recipientEdPub;
  plain ← EncodePayload mp;
  encryptPlain dr recipientPub (SignPayload plain sigKey).

(** Draws of a channel encryption. *)
Record channel_draws := { cd_salt : result bytes; cd_nonce : result bytes }.

Definition encryptChannelPlain (dr : channel_draws) (channelKey plain : bytes) : result Payload :=
  salt ← cd_salt dr;
  let blockKey := sha256_Sum256 (channelKey ++ salt) in
  match chacha_NewX blockKey with
  | Some e => Err e
  | None =>
      nonce ← cd_nonce dr;
      let ct := chacha_Seal blockKey nonce plain in
      let payload := replicate PayloadSize x00 in
      let payload := copy_at 0 salt payload in
      let payload := copy_at channelSaltSize nonce payload in
      Ok (copy_at ciphertextOffset ct payload)
  end.

Definition EncryptChannel (dr : channel_draws) (channelKey : bytes) (mp : MessagePayload) : result Payload :=
  plain ← EncodePayload mp;
  encryptChannelPlain dr channelKey plain.

Definition EncryptChannelSigned (dr : channel_draws) (channelKey : bytes) (mp : MessagePayload)
    (sigKey : bytes) : result Payload :=
  plain ← EncodePayload mp;
  encryptChannelPlain dr channelKey (SignPayload plain sigKey).

(** ** Trial decryption *)

Definition not_ours {A} : result A := Err ErrNotOurMessage.

(** Any failure becomes [ErrNotOurMessage]. *)
Definition or_not_ours {A} (r : result A) : result A :=
  match r with Ok a => Ok a | Err _ => not_ours end.

(** The acceptance of a decrypted v3 plaintext. *)
Definition accept_v3 (buf : bytes) : result MessagePayload :=
  match DecodePayload buf with
  | Err _ => not_ours
  | Ok mp => if negb (IsAnonymous mp) && negb (VerifySignature buf) then not_ours else Ok mp
  end.

Definition tryDecryptChannel (channelKey : bytes) (payload : Payload) : result MessagePayload :=
  let blockKey := sha256_Sum256 (channelKey ++ slice 0 channelSaltSize payload) in
  match chacha_NewX blockKey with
  | Some _ => not_ours
  | None =>
      plain ← or_not_ours (chacha_Open blockKey
        (slice channelSaltSize (ciphertextOffset - channelSaltSize) payload) (drop ciphertextOffset payload));
      if negb (length plain =? plaintextSize)%nat then not_ours else accept_v3 plain
  end.

(** A message of format v1. *)
Definition accept_v1 (plain : bytes) : result MessagePayload :=
  if (length plain <? v1HeaderSize)%nat then not_ours
  else
    let msgLen := le_decode (slice v1MagicSize 2 plain) in
    if (Z.of_nat v1MaxContent <? msgLen) || (Z.of_nat (length plain) <? Z.of_nat v1HeaderSize + msgLen)
    then not_ours
    else Ok {|
      MsgType := MsgTypeText; Flags := 0; Timestamp := 0; SenderPub := zero_pub;
      Signature := replicate 64 x00; ThreadRefs := replicate threadCount zero_ref;
      Content := slice v1HeaderSize (Z.to_nat msgLen) plain;
      mp_Channel := []; SentTo := []; DecryptedBy := [] |}.

(** The conversion of the plaintext to an array takes its first [plaintextSize] bytes;
    that there are as many follows from the length of the ciphertext. *)
Definition tryDecrypt (edPriv : bytes) (payload : Payload) : result MessagePayload :=
  privKey ← or_not_ours (edPrivToX25519 edPriv);
  ephPub ← or_not_ours (x25519_NewPublicKey (slice 0 pubKeySize payload));
  shared ← or_not_ours (XPriv_ECDH privKey ephPub);
  let key := sha256_Sum256 shared in
  match chacha_NewX key with
  | Some _ => not_ours
  | None =>
      plain ← or_not_ours (chacha_Open key (slice pubKeySize nonceSize payload)
                             (drop ciphertextOffset payload));
      if (length plain <? 4)%nat then not_ours
      else
        let magic4 := take 4 plain in
        if decide (magic4 = MagicV3) then accept_v3 (take plaintextSize plain)
        else if decide (magic4 = magicV1) then accept_v1 plain
        else not_ours
  end.
End Crypto.
