(* ===== verification/CryptoFacts.v ===== *)
(** Round trips and authenticity of message encryption. *)
From Stdlib Require Import String.
From S2P Require Import Prelude Codec Block Message MessageFacts Crypto.

(** ** The block layout *)

Lemma pubKeySize_le : (ciphertextOffset + (plaintextSize + tagSize) = PayloadSize)%nat.
Proof.
  pose proof plaintextSize_Z. pose proof PayloadSize_Z.
  unfold ciphertextOffset, pubKeySize, nonceSize, tagSize. lia.
Qed.

(** A payload made of three parts: salt or key, nonce, ciphertext. *)
Definition block_of (head nonce ct : bytes) : Payload := concat [head; nonce; ct].
Definition block_lens : list nat := [pubKeySize; nonceSize; (plaintextSize + tagSize)%nat].

Section Blocks.
Context (hd nonce ct : bytes).
Context (Hh : length hd = pubKeySize) (Hn : length nonce = nonceSize)
        (Hct : length ct = (plaintextSize + tagSize)%nat).

Lemma block_fields : fields block_lens [hd; nonce; ct].
Proof using All. unfold fields, block_lens. cbn. by rewrite Hh, Hn, Hct. Qed.

Lemma block_is_payload : is_Payload (block_of hd nonce ct).
Proof using All.
  unfold is_Payload, block_of. cbn [concat]. rewrite !length_app, Hh, Hn, Hct. cbn [length].
  pose proof pubKeySize_le. unfold ciphertextOffset in *. lia.
Qed.

Lemma block_head : slice 0 pubKeySize (block_of hd nonce ct) = hd.
Proof using All. by apply (slice_field 0 _ _ _ _ _ block_fields). Qed.

Lemma block_nonce : slice pubKeySize nonceSize (block_of hd nonce ct) = nonce.
Proof using All. by apply (slice_field 1 _ _ _ _ _ block_fields). Qed.

Lemma block_ct : drop ciphertextOffset (block_of hd nonce ct) = ct.
Proof using All.
  unfold block_of. cbn [concat]. rewrite app_nil_r, app_assoc. rewrite drop_app_length'; [done|].
  by rewrite length_app, Hh, Hn.
Qed.

(** The three writes into a zero buffer. *)
Lemma block_writes :
  copy_at ciphertextOffset ct (copy_at pubKeySize nonce (copy_at 0 hd (replicate PayloadSize x00)))
  = block_of hd nonce ct.
Proof using All.
  assert (replicate PayloadSize x00 = concat ((fun n => replicate n x00) <$> block_lens)) as ->.
  { by rewrite concat_zeros. }
  pose proof (fields_zeros block_lens) as Hf.
  destruct (copy_field 0 0 hd _ _ Hf) as [-> Hf1]; [by rewrite Hh|done|].
  destruct (copy_field 1 pubKeySize nonce _ _ Hf1) as [-> Hf2]; [by rewrite Hn|done|].
  destruct (copy_field 2 ciphertextOffset ct _ _ Hf2) as [-> _]; [by rewrite Hct|done|]. done.
Qed.
End Blocks.

(** Changing bit 255 of the first field. *)
Lemma copy_head_insert (hd : bytes) b k :
  length hd = pubKeySize -> (pubKeySize <= k)%nat ->
  <[31%nat := b]> (copy_at 0 hd (replicate k x00)) = copy_at 0 (<[31%nat := b]> hd) (replicate k x00).
Proof.
  intros Hh Hk. unfold copy_at. rewrite take_0, Nat.sub_0_r, length_replicate. cbn [app].
  rewrite !take_ge by (rewrite ?length_insert; lia). rewrite length_insert.
  apply insert_app_l. rewrite Hh. unfold pubKeySize. lia.
Qed.

Definition with_noise (hd : bytes) (noise : byte) : bytes :=
  <[31%nat := byte_of_Z (Z.lor (Z.land (u8 (hd !!! 31%nat)) 127) (Z.land (u8 noise) 128))]> hd.

Lemma with_noise_same_point hd noise : length hd = 32%nat -> same_point (with_noise hd noise) hd.
Proof.
  intros Hh. unfold same_point, with_noise. split; [by rewrite take_insert_ge by lia|].
  rewrite list_lookup_total_insert_eq by lia. rewrite u8_byte_of_Z.
  change 256 with (2 ^ 8). rewrite <- Z.land_ones by lia.
  apply Z.bits_inj'. intros n Hn. rewrite !Z.land_spec, Z.lor_spec, !Z.land_spec.
  change 127 with (Z.ones 7). rewrite !Z.testbit_ones_nonneg by lia.
  destruct (Z.ltb_spec n 7) as [Hlt|]; [|by rewrite !andb_false_r].
  assert (Z.testbit 128 n = false) as ->.
  { change 128 with (2 ^ 7). rewrite Z.pow2_bits_eqb by lia. by apply Z.eqb_neq; lia. }
  rewrite (proj2 (Z.ltb_lt n 8)) by lia. by rewrite !andb_true_r, andb_false_r, orb_false_r.
Qed.

(** ** Encryption yields a block, decryption opens it *)

Lemma accept_plaintext mp sig : wf_payload mp -> (length (Content mp) <= V3MaxContent)%nat ->
  length sig = 64%nat -> take 4 (plaintext mp sig) = MagicV3.
Proof.
  intros Hw Hc Hs. change (take 4 (plaintext mp sig)) with (slice 0 4 (plaintext mp sig)).
  by apply (plaintext_field mp Hw sig 0).
Qed.

Section Opening.
Context `{PrimitivesLaws, !Ed25519Laws} `{HashesLaws}.

Lemma encryptPlain_block eph rp shared nonce noise plain :
  length nonce = nonceSize -> is_plain plain -> XPriv_ECDH eph rp = Ok shared ->
  encryptPlain {| dr_key := Ok eph; dr_nonce := Ok nonce; dr_noise := Ok noise |} rp plain
  = Ok (block_of (with_noise (XPub_Bytes (XPriv_PublicKey eph)) noise) nonce
          (chacha_Seal (sha256_Sum256 shared) nonce plain)).
Proof using All.
  intros Hn Hp Hsh. unfold encryptPlain. cbn [dr_key dr_nonce dr_noise mbind result_bind]. rewrite Hsh.
  cbn [mbind result_bind]. rewrite NewX_32 by apply sha256_length. cbn zeta. f_equal.
  set (pub := XPub_Bytes (XPriv_PublicKey eph)).
  assert (length pub = 32%nat) as Hpub by apply XPub_Bytes_length.
  rewrite (take_ge pub) by by rewrite Hpub.
  assert (32 <= PayloadSize)%nat as Hle by (pose proof pubKeySize_le; unfold ciphertextOffset, pubKeySize in *; lia).
  assert (mask_noise (copy_at 0 pub (replicate PayloadSize x00)) noise
          = copy_at 0 (with_noise pub noise) (replicate PayloadSize x00)) as ->.
  { unfold mask_noise, with_noise. rewrite <- copy_head_insert by done. do 5 f_equal.
    unfold copy_at. rewrite take_0, Nat.sub_0_r, length_replicate. cbn [app].
    rewrite take_ge by (rewrite Hpub; lia). apply lookup_total_app_l. rewrite Hpub. lia. }
  apply block_writes; [|done|by rewrite Seal_length, Hp].
  unfold with_noise. by rewrite length_insert.
Qed.

Lemma encryptChannelPlain_block salt nonce channelKey plain :
  length salt = channelSaltSize -> length nonce = nonceSize -> is_plain plain ->
  encryptChannelPlain {| cd_salt := Ok salt; cd_nonce := Ok nonce |} channelKey plain
  = Ok (block_of salt nonce (chacha_Seal (sha256_Sum256 (channelKey ++ salt)) nonce plain)).
Proof using All.
  intros Hs Hn Hp. unfold encryptChannelPlain. cbn [cd_salt cd_nonce mbind result_bind].
  rewrite NewX_32 by apply sha256_length. cbn zeta. f_equal.
  apply block_writes; [done|done|by rewrite Seal_length, Hp].
Qed.

(** The key agreement seen by the recipient. *)
Lemma recipient_agrees sk rp eph noise shared :
  length sk = 64%nat -> EdPubToX25519 (ed25519_Public sk) = Ok rp -> XPriv_ECDH eph rp = Ok shared ->
  exists k p, edPrivToX25519 sk = Ok k /\
    x25519_NewPublicKey (with_noise (XPub_Bytes (XPriv_PublicKey eph)) noise) = Ok p /\
    XPriv_ECDH k p = Ok shared.
Proof using All.
  intros Hsk Hrp Hsh.
  assert (length (x25519_scalar sk) = 32%nat) as Hlen.
  { unfold x25519_scalar, clamp. rewrite !length_insert, length_slice, sha512_length. done. }
  destruct (NewPrivateKey_32 _ Hlen) as [k Hk]. exists k.
  destruct (Montgomery_agrees sk k Hsk Hk) as (pt & Hpt & Hm).
  unfold EdPubToX25519 in Hrp. rewrite Hpt in Hrp. cbn [mbind result_bind] in Hrp.
  rewrite Hm, NewPublicKey_Bytes in Hrp. apply (inj Ok) in Hrp as <-.
  pose proof (XPub_Bytes_length (XPriv_PublicKey eph)) as Hpub.
  destruct (NewPublicKey_32 (with_noise (XPub_Bytes (XPriv_PublicKey eph)) noise)) as (p & Hp & Hb).
  { unfold with_noise. by rewrite length_insert. }
  exists p. split_and!; [done|done|].
  rewrite (ECDH_mask k p (XPriv_PublicKey eph)); [by rewrite ECDH_comm|].
  rewrite Hb. by apply with_noise_same_point.
Qed.

Lemma tryDecrypt_block sk rp eph shared nonce noise plain :
  length sk = 64%nat -> length nonce = nonceSize -> is_plain plain -> take 4 plain = MagicV3 ->
  EdPubToX25519 (ed25519_Public sk) = Ok rp -> XPriv_ECDH eph rp = Ok shared ->
  tryDecrypt sk (block_of (with_noise (XPub_Bytes (XPriv_PublicKey eph)) noise) nonce
                   (chacha_Seal (sha256_Sum256 shared) nonce plain)) = accept_v3 plain.
Proof using All.
  intros Hsk Hn Hp Hm Hrp Hsh.
  destruct (recipient_agrees sk rp eph noise shared Hsk Hrp Hsh) as (k & p & Hk & Hpp & Hkp).
  assert (length (with_noise (XPub_Bytes (XPriv_PublicKey eph)) noise) = pubKeySize) as Hh
    by (unfold with_noise; rewrite length_insert; apply XPub_Bytes_length).
  assert (forall key, length (chacha_Seal key nonce plain) = (plaintextSize + tagSize)%nat) as Hct
    by (intros; by rewrite Seal_length, Hp).
  unfold tryDecrypt. rewrite Hk. cbn [or_not_ours mbind result_bind].
  rewrite block_head, Hpp by done. cbn [or_not_ours mbind result_bind]. rewrite Hkp.
  cbn [or_not_ours mbind result_bind]. cbn zeta. rewrite NewX_32 by apply sha256_length.
  rewrite block_nonce, block_ct, Open_Seal by done. cbn [or_not_ours mbind result_bind].
  pose proof plaintextSize_Z. rewrite (proj2 (Nat.ltb_ge _ _)) by (rewrite Hp; lia).
  rewrite Hm, decide_True by done. by rewrite take_ge by by rewrite Hp.
Qed.

Lemma tryDecryptChannel_block channelKey salt nonce plain :
  length salt = channelSaltSize -> length nonce = nonceSize -> is_plain plain ->
  tryDecryptChannel channelKey
    (block_of salt nonce (chacha_Seal (sha256_Sum256 (channelKey ++ salt)) nonce plain)) = accept_v3 plain.
Proof using All.
  intros Hs Hn Hp.
  assert (forall key, length (chacha_Seal key nonce plain) = (plaintextSize + tagSize)%nat) as Hct
    by (intros; by rewrite Seal_length, Hp).
  unfold tryDecryptChannel. unfold channelSaltSize in *. rewrite block_head by done.
  cbn zeta. rewrite NewX_32 by apply sha256_length.
  change (ciphertextOffset - pubKeySize)%nat with nonceSize.
  rewrite block_nonce, block_ct, Open_Seal by done. cbn [or_not_ours mbind result_bind].
  rewrite Hp, Nat.eqb_refl. done.
Qed.

(** What the recipient accepts of the encoding of a message. *)
Lemma accept_anonymous mp : wf_payload mp -> (length (Content mp) <= V3MaxContent)%nat ->
  IsAnonymous mp = true -> accept_v3 (plaintext mp (Signature mp)) = Ok (wire mp).
Proof using All.
  intros Hw Hc Ha. unfold accept_v3. rewrite Decode_plaintext by (done || apply Hw).
  unfold IsAnonymous in *. cbn [with_signature SenderPub]. by rewrite Ha.
Qed.

Lemma accept_signed mp key : wf_payload mp -> (length (Content mp) <= V3MaxContent)%nat ->
  length key = 64%nat -> SenderPub mp = ed25519_Public key ->
  accept_v3 (SignPayload (plaintext mp (Signature mp)) key)
  = Ok (with_signature mp (ed25519_Sign key (plaintext mp (replicate 64 x00)))).
Proof using All.
  intros Hw Hc Hk Hpub. assert (length (Signature mp) = 64%nat) as Hs by apply Hw.
  rewrite Sign_plaintext by done. set (sig := ed25519_Sign _ _).
  assert (length sig = 64%nat) as Hsig by by apply ed25519_Sign_length.
  unfold accept_v3. rewrite Decode_plaintext by done. unfold IsAnonymous. cbn [with_signature SenderPub].
  case_bool_decide as Hz; cbn [negb andb]; [done|].
  unfold sig. by rewrite Verify_plaintext.
Qed.

(** *** Direct messages *)

Section Direct.
Context (sk : bytes) (rp : XPub) (eph : XPriv) (shared nonce : bytes) (noise : byte) (mp : MessagePayload).
Context (Hsk : length sk = 64%nat) (Hrp : EdPubToX25519 (ed25519_Public sk) = Ok rp) (Hsh : XPriv_ECDH eph rp = Ok shared).
Context (Hn : length nonce = nonceSize) (Hw : wf_payload mp) (Hc : (length (Content mp) <= V3MaxContent)%nat).
#[local] Abbreviation dr := {| dr_key := Ok eph; dr_nonce := Ok nonce; dr_noise := Ok noise |}.
#[local] Abbreviation sealed plain := (block_of (with_noise (XPub_Bytes (XPriv_PublicKey eph)) noise)
  nonce (chacha_Seal (sha256_Sum256 shared) nonce plain)).

Lemma sealed_is_payload plain : is_plain plain -> is_Payload (sealed plain).
Proof using All.
  intros Hp. apply block_is_payload; [|done|by rewrite Seal_length, Hp].
  unfold with_noise. rewrite length_insert. apply XPub_Bytes_length.
Qed.

Lemma Encrypt_delivers : IsAnonymous mp = true ->
  exists payload, Encrypt dr (ed25519_Public sk) mp = Ok payload /\ is_Payload payload /\
    tryDecrypt sk payload = Ok (wire mp).
Proof using All.
  intros Ha. assert (length (Signature mp) = 64%nat) as Hs by apply Hw.
  assert (is_plain (plaintext mp (Signature mp))) as Hpl by by apply length_plaintext.
  eexists. unfold Encrypt. rewrite Hrp. cbn [mbind result_bind].
  rewrite EncodePayload_plaintext by done. cbn [mbind result_bind].
  rewrite (encryptPlain_block eph rp shared) by auto. split_and!; [done|by apply sealed_is_payload|].
  rewrite (tryDecrypt_block sk rp) by (auto using accept_plaintext). by apply accept_anonymous.
Qed.

Lemma EncryptSigned_delivers sigKey : length sigKey = 64%nat -> SenderPub mp = ed25519_Public sigKey ->
  exists payload sig, EncryptSigned dr (ed25519_Public sk) mp sigKey = Ok payload /\ is_Payload payload /\
    tryDecrypt sk payload = Ok (with_signature mp sig).
Proof using All.
  intros Hk Hpub. assert (length (Signature mp) = 64%nat) as Hs by apply Hw.
  pose proof (accept_signed mp sigKey Hw Hc Hk Hpub) as Hacc. rewrite Sign_plaintext in Hacc by done.
  assert (length (ed25519_Sign sigKey (plaintext mp (replicate 64 x00))) = 64%nat) as Hsig
    by by apply ed25519_Sign_length.
  assert (is_plain (plaintext mp (ed25519_Sign sigKey (plaintext mp (replicate 64 x00))))) as Hpl by by apply length_plaintext.
  eexists _, _. unfold EncryptSigned. rewrite Hrp. cbn [mbind result_bind].
  rewrite EncodePayload_plaintext by done. cbn [mbind result_bind]. rewrite Sign_plaintext by done.
  rewrite (encryptPlain_block eph rp shared) by auto. split_and!; [done|by apply sealed_is_payload|].
  rewrite (tryDecrypt_block sk rp) by (auto using accept_plaintext). exact Hacc.
Qed.
End Direct.

(** ** The contract *)

(** C6: A direct message arrives.  When the draws succeed and the exchange is not
    degenerate, a message that fits is encrypted into one payload, and decrypting that
    with the recipient's key, whatever the noise bit, gives the message: unsigned when
    it has no sender, and with the signature of its sender when it is signed. *)
Theorem direct_message_roundtrip sk rp eph shared nonce noise mp :
  length sk = 64%nat -> EdPubToX25519 (ed25519_Public sk) = Ok rp -> XPriv_ECDH eph rp = Ok shared ->
  length nonce = nonceSize -> wf_payload mp -> Z.of_nat (length (Content mp)) <= 3656 ->
  let dr := {| dr_key := Ok eph; dr_nonce := Ok nonce; dr_noise := Ok noise |} in
  (IsAnonymous mp = true ->
     exists payload, Encrypt dr (ed25519_Public sk) mp = Ok payload /\ is_Payload payload /\
       tryDecrypt sk payload = Ok (wire mp)) /\
  (forall sigKey, length sigKey = 64%nat -> SenderPub mp = ed25519_Public sigKey ->
     exists payload sig, EncryptSigned dr (ed25519_Public sk) mp sigKey = Ok payload /\ is_Payload payload /\
       tryDecrypt sk payload = Ok (with_signature mp sig)).
Proof using All.
  intros Hsk Hrp Hsh Hn Hw Hc. pose proof V3MaxContent_Z as HV.
  assert (length (Content mp) <= V3MaxContent)%nat as Hc' by lia.
  split; [by eapply Encrypt_delivers|intros sigKey; by eapply EncryptSigned_delivers].
Qed.

(** A channel message arrives: whatever salt and nonce are drawn, decrypting the
    payload under the same channel key gives the message back. *)
Theorem channel_message_roundtrip channelKey salt nonce mp :
  length salt = channelSaltSize -> length nonce = nonceSize -> wf_payload mp ->
  Z.of_nat (length (Content mp)) <= 3656 ->
  let dr := {| cd_salt := Ok salt; cd_nonce := Ok nonce |} in
  (IsAnonymous mp = true ->
     exists payload, EncryptChannel dr channelKey mp = Ok payload /\ is_Payload payload /\
       tryDecryptChannel channelKey payload = Ok (wire mp)) /\
  (forall sigKey, length sigKey = 64%nat -> SenderPub mp = ed25519_Public sigKey ->
     exists payload sig, EncryptChannelSigned dr channelKey mp sigKey = Ok payload /\ is_Payload payload /\
       tryDecryptChannel channelKey payload = Ok (with_signature mp sig)).
Proof using All.
  intros Hsl Hn Hw Hc. pose proof V3MaxContent_Z as HV.
  assert (length (Signature mp) = 64%nat) as Hs by apply Hw.
  assert (length (Content mp) <= V3MaxContent)%nat as Hc' by lia. cbn zeta.
  assert (forall sig, length sig = 64%nat -> is_plain (plaintext mp sig)) as Hpl
    by (intros; by apply length_plaintext).
  assert (forall plain, is_plain plain -> is_Payload (block_of salt nonce
    (chacha_Seal (sha256_Sum256 (channelKey ++ salt)) nonce plain))) as Hblk
    by (intros plain Hp; apply block_is_payload; [done|done|by rewrite Seal_length, Hp]).
  split.
  - intros Ha. eexists. unfold EncryptChannel.
    rewrite EncodePayload_plaintext by done. cbn [mbind result_bind].
    rewrite encryptChannelPlain_block by auto. split_and!; [done|by apply Hblk, Hpl|].
    rewrite tryDecryptChannel_block by auto. by apply accept_anonymous.
  - intros sigKey Hk Hpub. pose proof (accept_signed mp sigKey Hw Hc' Hk Hpub) as Hacc.
    rewrite Sign_plaintext in Hacc by done.
    assert (length (ed25519_Sign sigKey (plaintext mp (replicate 64 x00))) = 64%nat) as Hsig
      by by apply ed25519_Sign_length.
    eexists _, _. unfold EncryptChannelSigned.
    rewrite EncodePayload_plaintext by done. cbn [mbind result_bind]. rewrite Sign_plaintext by done.
    rewrite encryptChannelPlain_block by auto. split_and!; [done|by apply Hblk, Hpl|].
    rewrite tryDecryptChannel_block by auto. exact Hacc.
Qed.
End Opening.

(** A message is authentic when it names no sender, or when the signature it carries
    is that of the sender it names over the plaintext it was decoded from. *)
Definition authentic `{Ed25519} (mp : MessagePayload) : Prop :=
  IsAnonymous mp = true \/
  exists plain, is_plain plain /\ DecodePayload plain = Ok mp /\
    ed25519_Verify (SenderPub mp) (clear_signature plain) (Signature mp) = true.

Section Authenticity.
Context `{PrimitivesLaws, Hashes}.

Lemma accept_v3_authentic plain mp :
  is_plain plain -> accept_v3 plain = Ok mp -> wf_payload mp /\ authentic mp.
Proof using Type.
  intros Hp. unfold accept_v3. destruct (DecodePayload plain) as [mp'|] eqn:E; [|done].
  destruct (negb (IsAnonymous mp') && negb (VerifySignature plain)) eqn:Ev; [done|].
  intros <-%(inj Ok). split; [by apply (DecodePayload_wf plain)|].
  destruct (IsAnonymous mp') eqn:Ea; [by left|]. right. exists plain. split_and!; [done|done|].
  cbn [negb andb] in Ev. apply negb_false_iff in Ev. unfold VerifySignature in Ev.
  case_decide; [done|].
  unfold clear_signature in Ev at 1. rewrite slice_copy_at_before in Ev; [|done|].
  - unfold DecodePayload in E. repeat case_match; try done. by apply (inj Ok) in E as <-.
  - unfold is_plain in Hp. pose proof plaintextSize_Z. lia.
Qed.

Lemma accept_v1_anonymous plain mp : accept_v1 plain = Ok mp -> wf_payload mp /\ IsAnonymous mp = true.
Proof using Type.
  unfold accept_v1. destruct (_ <? _)%nat; [done|]. cbn zeta. destruct (_ || _); [done|].
  intros <-%(inj Ok). split; [|by apply bool_decide_eq_true].
  split_and!; cbn [MsgType Flags Timestamp]; unfold in_s64, MsgTypeText; try lia; try reflexivity.
  cbn [ThreadRefs]. apply Forall_replicate. reflexivity.
Qed.

Lemma Open_is_plain key nonce payload plain :
  is_Payload payload -> chacha_Open key nonce (drop ciphertextOffset payload) = Ok plain -> is_plain plain.
Proof using All.
  intros Hp Ho. apply Open_length in Ho. rewrite length_drop, Hp in Ho.
  unfold is_plain. pose proof pubKeySize_le. unfold tagSize, ciphertextOffset, pubKeySize, nonceSize in *. lia.
Qed.

(** C13: Nothing forged is delivered.  Whatever payload is tried with whatever key, the
    result is a well-formed message that names no sender or carries the valid signature
    of the sender it names, or the one error [ErrNotOurMessage]. *)
Theorem decryption_authentic payload :
  is_Payload payload ->
  (forall edPriv, match tryDecrypt edPriv payload with
     | Ok mp => wf_payload mp /\ authentic mp
     | Err e => e = ErrNotOurMessage end) /\
  (forall channelKey, match tryDecryptChannel channelKey payload with
     | Ok mp => wf_payload mp /\ authentic mp
     | Err e => e = ErrNotOurMessage end).
Proof using All.
  intros Hp.
  assert (forall buf, match accept_v3 buf with Ok _ => True | Err e => e = ErrNotOurMessage end) as H3.
  { intros buf. unfold accept_v3. destruct (DecodePayload buf); [|done]. by destruct (_ && _). }
  assert (forall buf, match accept_v1 buf with Ok _ => True | Err e => e = ErrNotOurMessage end) as H1'.
  { intros buf. unfold accept_v1. destruct (_ <? _)%nat; [done|]. cbn zeta. by destruct (_ || _). }
  split; intros key.
  - unfold tryDecrypt. destruct (edPrivToX25519 key) as [k|]; cbn [or_not_ours not_ours mbind result_bind]; [|done].
    destruct (x25519_NewPublicKey _) as [e|]; cbn [or_not_ours not_ours mbind result_bind]; [|done].
    destruct (XPriv_ECDH k e) as [sh|]; cbn [or_not_ours not_ours mbind result_bind]; [|done]. cbn zeta.
    destruct (chacha_NewX _); [done|].
    destruct (chacha_Open _ _ _) as [plain|] eqn:Ho; cbn [or_not_ours not_ours mbind result_bind]; [|done].
    pose proof (Open_is_plain _ _ _ _ Hp Ho) as Hpl. destruct (_ <? _)%nat; [done|].
    rewrite (take_ge plain plaintextSize) by by rewrite Hpl.
    case_decide; [|case_decide; [|done]].
    + specialize (H3 plain). destruct (accept_v3 plain) eqn:E; [|done]. by eapply accept_v3_authentic.
    + specialize (H1' plain). destruct (accept_v1 plain) eqn:E; [|done].
      apply accept_v1_anonymous in E as [? ?]. split; [done|by left].
  - unfold tryDecryptChannel. cbn zeta. destruct (chacha_NewX _); [done|].
    destruct (chacha_Open _ _ _) as [plain|] eqn:Ho; cbn [or_not_ours not_ours mbind result_bind]; [|done].
    pose proof (Open_is_plain _ _ _ _ Hp Ho) as Hpl. rewrite Hpl, Nat.eqb_refl. cbn [negb].
    specialize (H3 plain). destruct (accept_v3 plain) eqn:E; [|done]. by eapply accept_v3_authentic.
Qed.
End Authenticity.

(** ** At concrete inputs *)

(** A toy group: a public key is the masked private key, the shared secret the sum. *)
Definition mask255 (b : bytes) : bytes :=
  pad_to 31 b ++ [byte_of_Z (Z.land (u8 (b !!! 31%nat)) 127)].

Definition toy_point : Type := dsig (fun b : bytes => length b = 32%nat).

Lemma length_mask255 b : length (mask255 b) = 32%nat.
Proof. unfold mask255. by rewrite length_app, length_pad_to. Qed.

Definition ref_Primitives : Primitives := {|
  EdPoint := bytes;
  XPub := toy_point;
  XPriv := bytes;
  edwards_SetBytes b := Ok b;
  edwards_BytesMontgomery p := mask255 (clamp (slice 0 32 (pad_to 64 p)));
  x25519_NewPublicKey b := match decide (length b = 32%nat) with left H => Ok (dexist b H) | right _ => Err (ErrText "key size") end;
  x25519_NewPrivateKey b := Ok b;
  XPub_Bytes p := proj1_sig p;
  XPriv_PublicKey k := dexist (mask255 k) (length_mask255 k);
  XPriv_ECDH a p := Ok (be_encode 33 (be_decode (mask255 a) + be_decode (mask255 (proj1_sig p))));
  sha512_Sum512 m := pad_to 64 m;
  chacha_NewX key := if decide (length key = 32%nat) then None else Some (ErrText "key size");
  chacha_Seal key nonce plain := plain ++ pad_to tagSize key;
  chacha_Open key nonce ct :=
    let n := (length ct - tagSize)%nat in
    if decide ((tagSize <= length ct)%nat /\ drop n ct = pad_to tagSize key) then Ok (take n ct)
    else Err (ErrText "open");
|}.

Lemma mask255_same a b : length a = 32%nat -> length b = 32%nat -> same_point a b -> mask255 a = mask255 b.
Proof.
  intros Ha Hb [H1 H2]. unfold mask255, pad_to. rewrite H2. f_equal.
  rewrite !take_app. rewrite H1, Ha, Hb. done.
Qed.

Lemma mask255_idem b : mask255 (mask255 b) = mask255 b.
Proof.
  assert (Z.land (u8 (mask255 b !!! 31%nat)) 127 = Z.land (u8 (b !!! 31%nat)) 127) as Hl.
  { unfold mask255. rewrite lookup_total_app_r by by rewrite length_pad_to.
    rewrite length_pad_to, Nat.sub_diag. cbn [lookup_total list_lookup_total]. rewrite u8_byte_of_Z.
    change 256 with (2 ^ 8). rewrite <- Z.land_ones, <- !Z.land_assoc by lia. f_equal. }
  unfold mask255 at 1. rewrite Hl. unfold mask255 at 2. f_equal.
  unfold mask255, pad_to at 1. rewrite <- app_assoc. by rewrite take_app_le, take_ge by by rewrite length_pad_to.
Qed.

#[local] Existing Instances ref_Ed25519 ref_Ed25519Laws ref_Hashes ref_HashesLaws.

Lemma ref_PrimitivesLaws : @PrimitivesLaws ref_Primitives ref_Ed25519.
Proof.
  split; cbn [EdPoint XPub XPriv edwards_SetBytes edwards_BytesMontgomery x25519_NewPublicKey
    x25519_NewPrivateKey XPub_Bytes XPriv_PublicKey XPriv_ECDH sha512_Sum512 chacha_NewX chacha_Seal
    chacha_Open ref_Primitives].
  - intros p. exact (proj2_dsig p).
  - intros p. rewrite (decide_True_pi (proj2_dsig p)). f_equal. by apply dsig_eq.
  - intros b Hb. rewrite (decide_True_pi Hb). by eexists.
  - intros b _. by eexists.
  - intros a b. cbn [proj1_sig dexist]. rewrite !mask255_idem. do 2 f_equal. lia.
  - intros a p q Hpq. by rewrite (mask255_same _ _ (proj2_dsig p) (proj2_dsig q) Hpq).
  - intros sk k Hsk Hk. apply (inj Ok) in Hk as <-. eexists. split; [done|].
    cbn [proj1_sig dexist]. unfold x25519_scalar. cbn [sha512_Sum512]. do 4 f_equal.
    cbn [ed25519_Public ref_Ed25519]. unfold pad_to, slice. rewrite drop_0. by rewrite take_app_le by lia.
  - intros m. apply length_pad_to.
  - intros key Hk. by rewrite decide_True.
  - intros key nonce m. by rewrite length_app, length_pad_to.
  - intros key nonce m. rewrite length_app, length_pad_to, Nat.add_sub.
    rewrite decide_True by (rewrite drop_app_length; split; [lia|done]). by rewrite take_app_length.
  - intros key nonce ct m. cbn zeta. case_decide as Hd; [|done]. intros <-%(inj Ok).
    rewrite length_take. destruct Hd. lia.
Qed.

Module CryptoDemo.
#[local] Existing Instances ref_Primitives ref_PrimitivesLaws.

Definition sk : bytes := replicate 64 x07.
Definition eph : XPriv := replicate 32 x09.
Definition scalar : XPriv := x25519_scalar sk.
Definition nonce : bytes := replicate 24 x01.
Definition anon : MessagePayload := {|
  MsgType := 0; Flags := 0; Timestamp := 1700000000; SenderPub := zero_pub;
  Signature := replicate 64 x00; ThreadRefs := replicate 8 zero_ref; Content := bs "hello";
  mp_Channel := []; SentTo := []; DecryptedBy := [] |}.

Lemma anon_wf : wf_payload anon.
Proof. split_and!; cbn; unfold in_s64; try lia; try reflexivity. repeat constructor. Qed.

Lemma direct_message_roundtrip_witness : exists rp shared,
  EdPubToX25519 (ed25519_Public sk) = Ok rp /\ XPriv_ECDH eph rp = Ok shared /\
  exists payload,
    Encrypt {| dr_key := Ok eph; dr_nonce := Ok nonce; dr_noise := Ok xff |} (ed25519_Public sk) anon
    = Ok payload /\ tryDecrypt sk payload = Ok anon.
Proof.
  destruct (Montgomery_agrees sk scalar eq_refl eq_refl) as (pt & Hpt & Hm).
  eexists _, _. assert (EdPubToX25519 (ed25519_Public sk) = Ok (XPriv_PublicKey scalar)) as Hrp.
  { unfold EdPubToX25519. rewrite Hpt. cbn [mbind result_bind]. rewrite Hm. apply NewPublicKey_Bytes. }
  split; [exact Hrp|]. split; [reflexivity|].
  destruct (proj1 (direct_message_roundtrip sk _ eph _ nonce xff anon eq_refl Hrp eq_refl eq_refl anon_wf
    ltac:(cbn; lia)) eq_refl) as (payload & He & _ & Ht).
  exists payload. split; [exact He|exact Ht].
Defined.

Lemma channel_message_roundtrip_witness : exists payload,
  EncryptChannel {| cd_salt := Ok (replicate 32 x05); cd_nonce := Ok nonce |} (replicate 32 x06) anon
  = Ok payload /\ tryDecryptChannel (replicate 32 x06) payload = Ok anon.
Proof.
  destruct (proj1 (channel_message_roundtrip (replicate 32 x06) (replicate 32 x05) nonce anon eq_refl eq_refl
    anon_wf ltac:(cbn; lia)) eq_refl) as (payload & He & _ & Ht).
  exists payload. split; [exact He|exact Ht].
Defined.

Lemma decryption_authentic_witness :
  match tryDecrypt sk ref_payload with Ok mp => wf_payload mp /\ authentic mp | Err e => e = ErrNotOurMessage end.
Proof. destruct (decryption_authentic ref_payload ref_payload_ok) as [Hd _]. exact (Hd sk). Defined.
End CryptoDemo.
