(* ===== verification/MessageStore.v ===== *)
(** The message store ([client/store.go]): rows of decrypted messages and the checkpoint
    of the last scrape.  The database is a parameter: one operation per SQL statement of
    the file, with what the statement means as laws. *)
From Stdlib Require Import String.
From S2P Require Import Prelude Codec Block Message MessageFacts.

(** ** The database *)

(** A row of the table [messages]; a nullable column is an option. *)
Record row := {
  row_id : Z;
  row_block_id : bytes;
  row_content : bytes;
  row_received_at : Z;
  row_sender_pub : option bytes;
  row_thread_refs : option bytes;
  row_sent_at : option Z;
  row_msg_type : Z;
  row_channel : bytes;
  row_sent_to : option bytes;
  row_decrypted_by : bytes;
}.

Class MessageDB (D : Type) := {
  (* CREATE TABLE IF NOT EXISTS ..., INSERT OR IGNORE INTO checkpoint *)
  db_create : D -> D * result unit;
  (* SELECT COUNT(..) FROM pragma_table_info('messages') WHERE name = ? *)
  db_count_column : bytes -> D -> result Z;
  (* ALTER TABLE messages ADD COLUMN *)
  db_add_column : bytes -> D -> D * result unit;
  (* INSERT OR IGNORE INTO messages: the rows affected.  The id of the row is chosen by the database *)
  db_insert : row -> D -> D * result Z;
  (* SELECT ... WHERE block_id = ? *)
  db_select_block : bytes -> D -> result (option row);
  (* SELECT ... WHERE id > ? ORDER BY received_at ASC *)
  db_select_after : Z -> D -> result (list row);
  (* SELECT since_unix FROM checkpoint WHERE id = 1 *)
  db_get_since : D -> result Z;
  (* UPDATE checkpoint SET since_unix = ? WHERE id = 1 *)
  db_set_since : Z -> D -> D * result unit;
}.

(** The row as the database stores it. *)
Definition with_id (i : Z) (r : row) : row := {|
  row_id := i; row_block_id := row_block_id r; row_content := row_content r;
  row_received_at := row_received_at r; row_sender_pub := row_sender_pub r;
  row_thread_refs := row_thread_refs r; row_sent_at := row_sent_at r; row_msg_type := row_msg_type r;
  row_channel := row_channel r; row_sent_to := row_sent_to r; row_decrypted_by := row_decrypted_by r |}.

(** A statement that fails changes nothing; any statement may fail. *)
Class MessageDBLaws (D : Type) `{MessageDB D} := {
  db_rows : D -> list row;
  db_since : D -> Z;
  db_columns : D -> list bytes;
  db_insert_spec r d d' res : db_insert r d = (d', res) ->
    db_since d' = db_since d /\ db_columns d' = db_columns d /\
    match res with
    | Err _ => db_rows d' = db_rows d
    | Ok n =>
        if decide (row_block_id r ∈ row_block_id <$> db_rows d)
        then n = 0 /\ db_rows d' = db_rows d
        else n = 1 /\ exists i, (forall r', r' ∈ db_rows d -> row_id r' < i) /\ db_rows d' = db_rows d ++ [with_id i r]
    end;
  db_select_block_spec b d o : db_select_block b d = Ok o ->
    match o with
    | Some r => r ∈ db_rows d /\ row_block_id r = b
    | None => b ∉ row_block_id <$> db_rows d
    end;
  db_select_after_spec a d l : db_select_after a d = Ok l ->
    l ≡ₚ filter (fun r => a < row_id r) (db_rows d) /\
    StronglySorted (fun x y => row_received_at x <= row_received_at y) l;
  db_unique d : NoDup (row_block_id <$> db_rows d);
  db_get_since_spec d z : db_get_since d = Ok z -> z = db_since d;
  db_set_since_spec z d d' res : db_set_since z d = (d', res) ->
    db_rows d' = db_rows d /\ db_columns d' = db_columns d /\
    db_since d' = match res with Ok _ => z | Err _ => db_since d end;
  db_create_spec d d' res : db_create d = (d', res) ->
    db_rows d' = db_rows d /\ db_since d' = db_since d /\ forall c, c ∈ db_columns d -> c ∈ db_columns d';
  db_count_column_spec c d n : db_count_column c d = Ok n -> n = if decide (c ∈ db_columns d) then 1 else 0;
  db_add_column_spec c d d' res : db_add_column c d = (d', res) ->
    db_rows d' = db_rows d /\ db_since d' = db_since d /\
    db_columns d' = match res with Ok _ => db_columns d ++ [c] | Err _ => db_columns d end;
}.

(** ** Helpers of the file *)

(** [zeroToNil] *)
Fixpoint all_zero (b : bytes) : bool :=
  match b with
  | [] => true
  | v :: b' => if bool_decide (v <> x00) then false else all_zero b'
  end.
Definition zeroToNil (b : bytes) : option bytes := if all_zero b then None else Some b.

Definition zeroInt64 (v : Z) : option Z := if v =? 0 then None else Some v.

Definition encodeThreadRefs (refs : list bytes) : option bytes :=
  if decide (refs = replicate threadCount zero_ref) then None
  else Some (foldl (fun buf i => copy_at (i * 32) (nth i refs zero_ref) buf) (replicate 256 x00) (seq 0 threadCount)).

Definition decodeThreadRefs (b : bytes) : list bytes :=
  if (length b <? 256)%nat then replicate threadCount zero_ref
  else (fun i => copy_at 0 (slice (i * 32) 32 b) zero_ref) <$> seq 0 threadCount.

(** ** Messages *)

(** [SentAt] is [None] for the zero time. *)
Record StoredMessage := {
  sm_ID : Z;
  sm_BlockID : ID;
  sm_SenderPub : bytes;
  sm_ThreadRefs : list bytes;
  sm_SentAt : option Z;
  sm_MsgType : Z;
  sm_Content : bytes;
  sm_Channel : bytes;
  sm_ReceivedAt : Z;
  sm_SentTo : option bytes;
  sm_DecryptedBy : bytes;
}.

(** A NULL blob is scanned as a nil slice. *)
Definition scan_blob (o : option bytes) : bytes := default [] o.

Definition scanMessage (r : row) : StoredMessage := {|
  sm_ID := row_id r;
  sm_BlockID := copy_at 0 (row_block_id r) (replicate IDSize x00);
  sm_SenderPub := copy_at 0 (scan_blob (row_sender_pub r)) zero_pub;
  sm_ThreadRefs := decodeThreadRefs (scan_blob (row_thread_refs r));
  sm_SentAt := time_Unix <$> row_sent_at r;
  sm_MsgType := row_msg_type r mod 256;
  sm_Content := row_content r;
  sm_Channel := row_channel r;
  sm_ReceivedAt := time_Unix (row_received_at r);
  sm_SentTo := row_sent_to r;
  sm_DecryptedBy := row_decrypted_by r;
|}.

Section MessageStore.
Context {D : Type} `{MessageDB D}.

Definition addCols : list bytes :=
  [bs "sender_pub"; bs "thread_refs"; bs "sent_at"; bs "msg_type"; bs "channel"; bs "sent_to"; bs "decrypted_by"].

Fixpoint migrate_cols (cols : list bytes) (db : D) : D * result unit :=
  match cols with
  | [] => (db, Ok tt)
  | col :: cols' =>
      match db_count_column col db with
      | Err e => (db, Err (ErrWrap "client: migrate check column" e))
      | Ok count =>
          if count =? 0 then
            match db_add_column col db with
            | (db, Err e) => (db, Err (ErrWrap "client: migrate add column" e))
            | (db, Ok _) => migrate_cols cols' db
            end
          else migrate_cols cols' db
      end
  end.

Definition migrate (db : D) : D * result unit :=
  match db_create db with
  | (db, Err e) => (db, Err e)
  | (db, Ok _) => migrate_cols addCols db
  end.

(** [OpenMessageStore]: [opened] is the outcome of [sql.Open]; the handle is closed when the
    migration fails. *)
Definition OpenMessageStore (opened : result D) : result D :=
  db ← opened;
  match migrate db with
  | (_, Err e) => Err e
  | (db, Ok _) => Ok db
  end.

(** The zero time is [None]. *)
Definition GetCheckpoint (db : D) : result (option Z) :=
  match db_get_since db with
  | Err e => Err (ErrWrap "client: get checkpoint" e)
  | Ok unix => if unix =? 0 then Ok None else Ok (Some (time_Unix unix))
  end.

Definition SetCheckpoint (t : Z) (db : D) : D * result unit :=
  match db_set_since (Unix t) db with
  | (db, Err e) => (db, Err (ErrWrap "client: set checkpoint" e))
  | (db, Ok _) => (db, Ok tt)
  end.

(** The values bound to the parameters of the insertion. *)
Definition message_row (now : Z) (blockID : ID) (mp : MessagePayload) : row := {|
  row_id := 0;
  row_block_id := blockID;
  row_content := Content mp;
  row_received_at := Unix now;
  row_sender_pub := zeroToNil (SenderPub mp);
  row_thread_refs := encodeThreadRefs (ThreadRefs mp);
  row_sent_at := zeroInt64 (Timestamp mp);
  row_msg_type := MsgType mp;
  row_channel := mp_Channel mp;
  row_sent_to := zeroToNil (SentTo mp);
  row_decrypted_by := DecryptedBy mp;
|}.

Definition SaveMessage (now : Z) (blockID : ID) (mp : MessagePayload) (db : D) : D * result bool :=
  match db_insert (message_row now blockID mp) db with
  | (db, Err e) => (db, Err (ErrWrap "client: save message" e))
  | (db, Ok n) => (db, Ok (0 <? n))
  end.

Definition GetMessage (blockID : ID) (db : D) : result (option StoredMessage) :=
  match db_select_block blockID db with
  | Err e => Err (ErrWrap "client: get message" e)
  | Ok o => Ok (scanMessage <$> o)
  end.

Definition ListMessagesAfter (afterID : Z) (db : D) : result (list StoredMessage) :=
  match db_select_after afterID db with
  | Err e => Err (ErrWrap "client: list messages" e)
  | Ok rows => Ok (scanMessage <$> rows)
  end.

Definition ListMessages (db : D) : result (list StoredMessage) := ListMessagesAfter 0 db.
End MessageStore.

(** ** Lemmas *)

Lemma all_zero_spec b : all_zero b = true <-> b = replicate (length b) x00.
Proof.
  induction b as [|v b IH]; cbn [all_zero length replicate]; [done|].
  case_bool_decide as Hv; split; try done.
  - intros [= -> _]. done.
  - intros Hb%IH. f_equal; [by destruct (decide (v = x00))|done].
  - intros [= _ Hb]. by apply IH.
Qed.

(** A field that is NULL when zero is read back into a zeroed array as it was. *)
Lemma zeroToNil_scan b : copy_at 0 (scan_blob (zeroToNil b)) (replicate (length b) x00) = b.
Proof.
  unfold zeroToNil. destruct (all_zero b) eqn:E; cbn [scan_blob default from_option].
  - apply all_zero_spec in E. rewrite E at 2. unfold copy_at. by rewrite take_nil.
  - apply copy_at_whole. by rewrite length_replicate.
Qed.

Lemma threadRefs_fields refs :
  length refs = threadCount -> Forall (fun r => length r = 32%nat) refs ->
  foldl (fun buf i => copy_at (i * 32) (nth i refs zero_ref) buf) (replicate 256 x00) (seq 0 threadCount) = concat refs.
Proof.
  intros Hl HF.
  destruct refs as [|r0 [|r1 [|r2 [|r3 [|r4 [|r5 [|r6 [|r7 [|? refs]]]]]]]]]; try done. clear Hl.
  repeat match goal with H : Forall _ (_ :: _) |- _ => apply Forall_cons in H as [? H] end.
  change (replicate 256 x00) with (concat ((fun n => replicate n x00) <$> replicate 8 32%nat)).
  pose proof (fields_zeros (replicate 8 32%nat)) as Hf.
  unfold threadCount. cbn [foldl seq nth].
  destruct (copy_field 0 (0 * 32) r0 _ _ Hf) as [-> Hf0]; [cbn; congruence|done|].
  destruct (copy_field 1 (1 * 32) r1 _ _ Hf0) as [-> Hf1]; [cbn; congruence|done|].
  destruct (copy_field 2 (2 * 32) r2 _ _ Hf1) as [-> Hf2]; [cbn; congruence|done|].
  destruct (copy_field 3 (3 * 32) r3 _ _ Hf2) as [-> Hf3]; [cbn; congruence|done|].
  destruct (copy_field 4 (4 * 32) r4 _ _ Hf3) as [-> Hf4]; [cbn; congruence|done|].
  destruct (copy_field 5 (5 * 32) r5 _ _ Hf4) as [-> Hf5]; [cbn; congruence|done|].
  destruct (copy_field 6 (6 * 32) r6 _ _ Hf5) as [-> Hf6]; [cbn; congruence|done|].
  destruct (copy_field 7 (7 * 32) r7 _ _ Hf6) as [-> Hf7]; [cbn; congruence|done|]. done.
Qed.

Lemma threadRefs_roundtrip refs :
  length refs = threadCount -> Forall (fun r => length r = 32%nat) refs ->
  decodeThreadRefs (scan_blob (encodeThreadRefs refs)) = refs.
Proof.
  intros Hl HF. unfold encodeThreadRefs. case_decide as Hz; cbn [scan_blob default from_option]; [by subst|].
  rewrite threadRefs_fields by done. unfold decodeThreadRefs, id.
  assert (fields (replicate 8 32%nat) refs) as Hf.
  { unfold fields. symmetry. apply replicate_as_Forall. split; [by rewrite length_fmap|].
    apply Forall_fmap. by eapply Forall_impl; [apply HF|]. }
  assert (length (concat refs) = 256%nat) as Hlen.
  { rewrite <- (firstn_all refs) at 1. rewrite length_concat_take, Hf, Hl. done. }
  rewrite (proj2 (Nat.ltb_ge _ _)) by lia.
  apply list_eq_same_length with threadCount; [done|by rewrite length_fmap, length_seq|].
  intros i x y Hi Hx Hy. rewrite list_lookup_fmap, lookup_seq_lt in Hx by done. cbn in Hx. injection Hx as <-.
  rewrite Forall_lookup in HF.
  rewrite (slice_field i (i * 32) 32 _ _ y Hf Hy).
  - apply copy_at_whole. by eapply HF.
  - unfold threadCount in Hi. do 8 (destruct i as [|i]; [done|]). lia.
  - symmetry. by eapply HF.
Qed.

(** What the store keeps of a message of the block [id] saved at [now]. *)
Definition stored (i now : Z) (id : ID) (mp : MessagePayload) : StoredMessage := {|
  sm_ID := i;
  sm_BlockID := id;
  sm_SenderPub := SenderPub mp;
  sm_ThreadRefs := ThreadRefs mp;
  sm_SentAt := if Timestamp mp =? 0 then None else Some (time_Unix (Timestamp mp));
  sm_MsgType := MsgType mp;
  sm_Content := Content mp;
  sm_Channel := mp_Channel mp;
  sm_ReceivedAt := time_Unix (Unix now);
  sm_SentTo := zeroToNil (SentTo mp);
  sm_DecryptedBy := DecryptedBy mp;
|}.

Lemma scan_message_row i now id mp : is_ID id -> wf_payload mp ->
  scanMessage (with_id i (message_row now id mp)) = stored i now id mp.
Proof.
  intros Hid (Ht & _ & _ & Hp & _ & Hn & HF). unfold scanMessage, stored, message_row, with_id.
  cbn [row_id row_block_id row_content row_received_at row_sender_pub row_thread_refs row_sent_at row_msg_type
    row_channel row_sent_to row_decrypted_by].
  f_equal.
  - apply copy_at_whole. by rewrite length_replicate.
  - unfold zero_pub. rewrite <- Hp. apply zeroToNil_scan.
  - by apply threadRefs_roundtrip.
  - unfold zeroInt64. by destruct (Timestamp mp =? 0).
  - by apply Z.mod_small.
Qed.

Section Contract.
Context {D : Type} `{MessageDBLaws D}.

(** Saving a message: the first message of a block is stored, with every field as it
    was sent except a zero time, which is absent; a second message of the same block is
    reported as such and changes nothing; a failure changes nothing; the checkpoint is
    never touched.  What was stored is what [GetMessage] finds. *)
Theorem SaveMessage_spec now id mp db :
  is_ID id -> wf_payload mp ->
  let '(db', res) := SaveMessage now id mp db in
  db_since db' = db_since db /\
  match res with
  | Err _ => db_rows db' = db_rows db
  | Ok true => (id ∉ (row_block_id <$> db_rows db)) /\
      (exists i, (forall r, r ∈ db_rows db -> row_id r < i) /\
        (scanMessage <$> db_rows db') = (scanMessage <$> db_rows db) ++ [stored i now id mp] /\
      forall o, GetMessage id db' = Ok o -> o = Some (stored i now id mp))
  | Ok false => id ∈ (row_block_id <$> db_rows db) /\ db_rows db' = db_rows db
  end.
Proof using All.
  intros Hid Hw. unfold SaveMessage. destruct (db_insert (message_row now id mp) db) as [db' [n|e]] eqn:E.
  - apply db_insert_spec in E as (Hs & _ & E). split; [done|]. cbn [row_block_id message_row] in E.
    case_decide as Hin.
    + destruct E as [-> Hr]. by split.
    + destruct E as (-> & i & Hi & Hr). change (0 <? 1) with true. cbv iota. split; [done|]. exists i. split_and!; [done| |].
      * by rewrite Hr, fmap_app, <- scan_message_row.
      * unfold GetMessage. intros o. destruct (db_select_block id db') as [ro|] eqn:Es; [|done].
        intros <-%(inj Ok). apply db_select_block_spec in Es. destruct ro as [r|]; cbn.
        -- destruct Es as [Hr' Hb]. f_equal. rewrite <- scan_message_row by done. f_equal.
           rewrite Hr in Hr'. apply elem_of_app in Hr' as [Hr'|Hr'%list_elem_of_singleton]; [|done].
           exfalso. apply Hin. rewrite <- Hb. by apply list_elem_of_fmap_2.
        -- exfalso. apply Es. rewrite Hr, fmap_app. apply elem_of_app. right. by apply list_elem_of_singleton.
  - by apply db_insert_spec in E as (Hs & _ & E).
Qed.

(** Listing: every stored message with an id above the given one is listed once, in
    the order of receipt, as it was saved. *)
Theorem ListMessagesAfter_spec a db l :
  ListMessagesAfter a db = Ok l ->
  l ≡ₚ filter (fun m => a < sm_ID m) (scanMessage <$> db_rows db) /\
  StronglySorted (fun x y => sm_ReceivedAt x <= sm_ReceivedAt y) l.
Proof using All.
  unfold ListMessagesAfter. destruct (db_select_after a db) as [rows|] eqn:E; [|done].
  intros <-%(inj Ok). apply db_select_after_spec in E as [Hp Hs]. split.
  - rewrite Hp. clear Hp Hs. induction (db_rows db) as [|r rs IH]; [done|].
    rewrite fmap_cons, !filter_cons. cbn [sm_ID scanMessage]. case_decide; [|done]. by rewrite fmap_cons, IH.
  - clear Hp. induction Hs as [|r rs Hs IH Hr]; [constructor|]. rewrite fmap_cons. constructor; [done|].
    apply Forall_fmap. eapply Forall_impl; [apply Hr|]. intros r' Hr'. cbv beta in Hr'.
    change (time_Unix (row_received_at r) <= time_Unix (row_received_at r')). unfold time_Unix, second. lia.
Qed.

(** The checkpoint read after it was set is the time set, to the second; before the
    first scrape there is none.  Neither operation touches the messages. *)
Theorem checkpoint_roundtrip t db db' res :
  SetCheckpoint t db = (db', res) ->
  db_rows db' = db_rows db /\
  match res with
  | Err _ => db_since db' = db_since db
  | Ok _ => forall o, GetCheckpoint db' = Ok o ->
      o = if Unix t =? 0 then None else Some (time_Unix (Unix t))
  end.
Proof using All.
  unfold SetCheckpoint. destruct (db_set_since (Unix t) db) as [d r] eqn:E. apply db_set_since_spec in E as (Hr & _ & Hs).
  destruct r; intros [= <- <-]; (split; [done|]); [|done].
  intros o. unfold GetCheckpoint. destruct (db_get_since d) as [z|] eqn:Eg; [|done].
  apply db_get_since_spec in Eg. rewrite Hs in Eg. subst z. by destruct (Unix t =? 0); intros <-%(inj Ok).
Qed.

Lemma migrate_cols_spec cols db db' res : migrate_cols cols db = (db', res) ->
  db_rows db' = db_rows db /\ db_since db' = db_since db /\
  (forall c, c ∈ db_columns db -> c ∈ db_columns db') /\
  (is_ok res = true -> forall c, c ∈ cols -> c ∈ db_columns db').
Proof using All.
  revert db. induction cols as [|col cols IH]; intros db; cbn [migrate_cols].
  - intros [= <- <-]. split_and!; try done. intros _ c Hc. by apply not_elem_of_nil in Hc.
  - destruct (db_count_column col db) as [n|e] eqn:Ec; [|by intros [= <- <-]].
    apply db_count_column_spec in Ec. case_decide as Hin; subst n; cbn [Z.eqb].
    + intros (Hr & Hs & Hm & Ha)%IH. split_and!; try done. intros Hok c [->|Hc]%elem_of_cons; auto.
    + destruct (db_add_column col db) as [d1 [[]|e]] eqn:Ea; apply db_add_column_spec in Ea as (Hr1 & Hs1 & Hc1).
      * intros (Hr & Hs & Hm & Ha)%IH. rewrite Hc1 in Hm. split_and!; try congruence.
        -- intros c Hc. apply Hm, elem_of_app. by left.
        -- intros Hok c [->|Hc]%elem_of_cons; [|auto]. apply Hm, elem_of_app. right. by apply list_elem_of_singleton.
      * intros [= <- <-]. split_and!; try done. intros c. by rewrite Hc1.
Qed.

(** A database that has the columns is left alone. *)
Lemma migrate_cols_done cols db :
  (forall c, c ∈ cols -> c ∈ db_columns db) -> (forall c, is_ok (db_count_column c db) = true) ->
  migrate_cols cols db = (db, Ok tt).
Proof using All.
  intros Hc Hok. induction cols as [|col cols IH]; cbn [migrate_cols]; [done|].
  destruct (db_count_column col db) as [n|e] eqn:Ec; [|specialize (Hok col); by rewrite Ec in Hok].
  apply db_count_column_spec in Ec. rewrite decide_True in Ec by (apply Hc; apply list_elem_of_here). subst n.
  cbn [Z.eqb]. apply IH. intros c Hc'. apply Hc. by apply list_elem_of_further.
Qed.

(** Opening a store: a migration keeps every message and the checkpoint, also when it
    fails half way; when it succeeds every column exists, and going over the columns
    again adds nothing. *)
Theorem migrate_idempotent db db' res :
  migrate db = (db', res) ->
  db_rows db' = db_rows db /\ db_since db' = db_since db /\
  (is_ok res = true -> (forall c, c ∈ addCols -> c ∈ db_columns db') /\
     ((forall c, is_ok (db_count_column c db') = true) -> migrate_cols addCols db' = (db', Ok tt))).
Proof using All.
  unfold migrate. destruct (db_create db) as [d1 [[]|e]] eqn:E; apply db_create_spec in E as (Hr1 & Hs1 & _).
  - intros (Hr & Hs & _ & Ha)%migrate_cols_spec. split_and!; try congruence. intros Hok. split; [auto|].
    intros Hcount. apply migrate_cols_done; auto.
  - intros [= <- <-]. done.
Qed.
End Contract.

(** ** A reference database *)

Definition unique_rows : Type := dsig (fun l : list row => NoDup (row_block_id <$> l)).

Record RefDB := { rd_rows : unique_rows; rd_since : Z; rd_columns : list bytes }.

Definition ref_rows (d : RefDB) : list row := proj1_sig (rd_rows d).

Definition next_row_id (l : list row) : Z := foldr (fun r i => Z.max (row_id r + 1) i) 1 l.

Lemma next_row_id_fresh l r : r ∈ l -> row_id r < next_row_id l.
Proof.
  induction l as [|x l IH]; intros Hin; [by apply not_elem_of_nil in Hin|].
  cbn [next_row_id foldr]. fold (next_row_id l). apply elem_of_cons in Hin as [->|Hin%IH]; lia.
Qed.

Definition received_le (x y : row) : Prop := row_received_at x <= row_received_at y.
#[local] Instance received_le_dec x y : Decision (received_le x y).
Proof. unfold received_le. apply _. Defined.

#[local] Instance received_le_trans : Transitive received_le.
Proof. unfold received_le. intros x y z. lia. Qed.
#[local] Instance received_le_total : Total received_le.
Proof. unfold received_le. intros x y. lia. Qed.

#[export] Instance ref_MessageDB : MessageDB RefDB := {
  db_create d := (d, Ok tt);
  db_count_column c d := Ok (if decide (c ∈ rd_columns d) then 1 else 0);
  db_add_column c d := ({| rd_rows := rd_rows d; rd_since := rd_since d; rd_columns := rd_columns d ++ [c] |}, Ok tt);
  db_insert r d :=
    let l := ref_rows d ++ [with_id (next_row_id (ref_rows d)) r] in
    match decide (NoDup (row_block_id <$> l)) with
    | left Hn => ({| rd_rows := dexist l Hn; rd_since := rd_since d; rd_columns := rd_columns d |}, Ok 1)
    | right _ => (d, Ok 0)
    end;
  db_select_block b d := Ok (snd <$> list_find (fun r => row_block_id r = b) (ref_rows d));
  db_select_after a d := Ok (merge_sort received_le (filter (fun r => a < row_id r) (ref_rows d)));
  db_get_since d := Ok (rd_since d);
  db_set_since z d := ({| rd_rows := rd_rows d; rd_since := z; rd_columns := rd_columns d |}, Ok tt);
}.

#[export] Instance ref_MessageDBLaws : MessageDBLaws RefDB.
Proof.
  refine {| db_rows := ref_rows; db_since := rd_since; db_columns := rd_columns |};
    cbn [db_create db_count_column db_add_column db_insert db_select_block db_select_after db_get_since
         db_set_since ref_MessageDB].
  - intros r d d' res. cbn zeta. pose proof (proj2_dsig (rd_rows d)) as Hu. fold (ref_rows d) in Hu.
    case_match eqn:E; intros [= <- <-]; (split_and!; [done|done|]); cbn [ref_rows rd_rows].
    + pose proof n as Hn. rewrite fmap_app in Hn. apply NoDup_app in Hn as (_ & Hn & _).
      rewrite decide_False.
      * split; [done|]. eexists. split; [apply next_row_id_fresh|done].
      * intros Hin. apply (Hn _ Hin). by apply list_elem_of_singleton.
    + rewrite decide_True; [done|]. destruct (decide (row_block_id r ∈ row_block_id <$> ref_rows d)) as [|Hnin]; [done|].
      exfalso. apply n. rewrite fmap_app. apply NoDup_app. split_and!; [done| |apply NoDup_singleton].
      intros b Hb Hb'%list_elem_of_singleton. cbn in Hb'. by subst b.
  - intros b d o. intros <-%(inj Ok). destruct (list_find _ _) as [[i r]|] eqn:E; cbn.
    + apply list_find_Some in E as (Hi & Hb & _). split; [by eapply list_elem_of_lookup_2|done].
    + apply list_find_None in E. intros (r & -> & Hr)%list_elem_of_fmap. rewrite Forall_forall in E. by apply (E r).
  - intros a d l <-%(inj Ok). split; [apply merge_sort_Permutation|].
    apply (StronglySorted_merge_sort received_le).
  - intros d. apply (proj2_dsig (rd_rows d)).
  - intros d z. by intros <-%(inj Ok).
  - intros z d d' res [= <- <-]. done.
  - intros d d' res [= <- <-]. done.
  - intros c d n. by intros <-%(inj Ok).
  - intros c d d' res [= <- <-]. done.
Defined.

Module MessageStoreDemo.
Import MessageFacts.MessageDemo.

Definition no_rows : unique_rows := dexist [] (NoDup_nil_2 (A:=bytes)).
Definition fresh : RefDB := {| rd_rows := no_rows; rd_since := 0; rd_columns := [] |}.

Lemma SaveMessage_spec_witness : exists db',
  SaveMessage 5 ref_id hello fresh = (db', Ok true) /\ db_since db' = 0.
Proof.
  pose proof (SaveMessage_spec 5 ref_id hello fresh eq_refl hello_wf) as Hs.
  destruct (SaveMessage 5 ref_id hello fresh) as [db' res] eqn:E. exists db'.
  assert (res = Ok true) as -> by (vm_compute in E; congruence).
  split; [reflexivity|]. exact (proj1 Hs).
Defined.

Lemma ListMessagesAfter_spec_witness : exists l, ListMessagesAfter 0 fresh = Ok l /\ l ≡ₚ [].
Proof. eexists. split; [reflexivity|]. exact (proj1 (ListMessagesAfter_spec 0 fresh _ eq_refl)). Defined.

Lemma checkpoint_roundtrip_witness : exists db',
  SetCheckpoint (time_Unix 9) fresh = (db', Ok tt) /\ db_rows db' = [].
Proof. eexists. split; [reflexivity|]. exact (proj1 (checkpoint_roundtrip (time_Unix 9) fresh _ _ eq_refl)). Defined.

Lemma migrate_idempotent_witness : exists db', migrate fresh = (db', Ok tt) /\ db_rows db' = [].
Proof. eexists. split; [reflexivity|]. exact (proj1 (migrate_idempotent fresh _ _ eq_refl)). Defined.
End MessageStoreDemo.
