(* ===== verification/Keystore.v ===== *)
(** The keystore ([client/keystore.go]): named identities, channels and contacts, the
    encrypted file they are kept in, and the exchange of single identities.  JSON, the
    key derivation and the cipher are parameters; random draws are arguments.  [None]
    stands for a panic of a library call. *)
From Stdlib Require Import String.
From S2P Require Import Prelude Codec Block Message Text Crypto.

Definition kdfSaltSize : nat := 32.
Definition kdfTime : Z := 2.
Definition kdfMemory : Z := 64 * 1024.
Definition kdfThreads : Z := 4.
Definition kdfKeyLen : Z := 32.
Definition keystoreVersion : Z := 2.

(** ** Data *)

Record Identity := { id_Name : bytes; id_SignKey : bytes; id_IDPowStamp : bytes }.
Record Channel := { ch_Name : bytes; ch_Key : bytes }.
Record Contact := { co_Name : bytes; co_PublicKey : bytes }.

Definition PublicKey `{Ed25519} (i : Identity) : bytes := ed25519_Public (id_SignKey i).

Record Keystore := {
  ks_masterKey : bytes;
  ks_salt : bytes;
  ks_kdfTime : Z;
  ks_kdfMemory : Z;
  ks_kdfThreads : Z;
  ks_identities : list Identity;
  ks_channels : list Channel;
  ks_contacts : list Contact;
}.

Definition set_identities (l : list Identity) (k : Keystore) : Keystore := {|
  ks_masterKey := ks_masterKey k; ks_salt := ks_salt k; ks_kdfTime := ks_kdfTime k;
  ks_kdfMemory := ks_kdfMemory k; ks_kdfThreads := ks_kdfThreads k;
  ks_identities := l; ks_channels := ks_channels k; ks_contacts := ks_contacts k |}.
Definition set_channels (l : list Channel) (k : Keystore) : Keystore := {|
  ks_masterKey := ks_masterKey k; ks_salt := ks_salt k; ks_kdfTime := ks_kdfTime k;
  ks_kdfMemory := ks_kdfMemory k; ks_kdfThreads := ks_kdfThreads k;
  ks_identities := ks_identities k; ks_channels := l; ks_contacts := ks_contacts k |}.
Definition set_contacts (l : list Contact) (k : Keystore) : Keystore := {|
  ks_masterKey := ks_masterKey k; ks_salt := ks_salt k; ks_kdfTime := ks_kdfTime k;
  ks_kdfMemory := ks_kdfMemory k; ks_kdfThreads := ks_kdfThreads k;
  ks_identities := ks_identities k; ks_channels := ks_channels k; ks_contacts := l |}.

(** *** The file *)

Record identityRecord := {
  ir_Name : bytes;
  ir_Nonce : bytes;
  ir_Ciphertext : bytes;
  ir_SignNonce : bytes;
  ir_SignCiphertext : bytes;
  ir_IDPowStamp : bytes;
}.
Record channelRecord := { cr_Name : bytes; cr_Nonce : bytes; cr_Ciphertext : bytes }.
Record contactRecord := { tr_Name : bytes; tr_PublicKey : bytes; tr_SigningPublicKey : bytes }.

Record keystoreFile := {
  kf_Version : Z;
  kf_Salt : bytes;
  kf_KDFTime : Z;
  kf_KDFMemory : Z;
  kf_KDFThreads : Z;
  kf_Verify : bytes;
  kf_Identities : list identityRecord;
  kf_Channels : list channelRecord;
  kf_Contacts : list contactRecord;
}.

Record IdentityExport := {
  ie_Version : Z;
  ie_Name : bytes;
  ie_Salt : bytes;
  ie_KDFTime : Z;
  ie_KDFMemory : Z;
  ie_KDFThreads : Z;
  ie_Nonce : bytes;
  ie_Ciphertext : bytes;
}.

(** [encoding/json] on the two structures. *)
Class KeystoreJson := {
  json_MarshalIndent_file : keystoreFile -> result bytes;
  json_Unmarshal_file : bytes -> result keystoreFile;
  json_Marshal_export : IdentityExport -> result bytes;
  json_Unmarshal_export : bytes -> result IdentityExport;
}.

(** ** Names *)

Definition name_empty : error := ErrText "client: name must not be empty".
Definition name_too_long : error := ErrText "client: name must not exceed 64 characters".
Definition name_invalid : error := ErrText "client: name contains invalid character".

Definition validateName (name : bytes) : option error :=
  let rs := runes name in
  if (length rs =? 0)%nat then Some name_empty
  else if (64 <? length rs)%nat then Some name_too_long
  else if existsb (fun r => (r =? 47) || IsControl r) rs then Some name_invalid
  else None.

(** ** Lookup and removal by the first match *)

Definition find_first {A} (p : A -> bool) (l : list A) : option A := snd <$> list_find (fun x => p x = true) l.

Fixpoint remove_first {A} (p : A -> bool) (l : list A) : option (list A) :=
  match l with
  | [] => None
  | x :: l' => if p x then Some l' else (fun r => x :: r) <$> remove_first p l'
  end.

Fixpoint update_first {A} (p : A -> bool) (f : A -> A) (l : list A) : list A :=
  match l with
  | [] => []
  | x :: l' => if p x then f x :: l' else x :: update_first p f l'
  end.

Definition named (name : bytes) (i : Identity) : bool := bool_decide (id_Name i = name).
Definition channel_named (name : bytes) (c : Channel) : bool := bool_decide (ch_Name c = name).
Definition has_key (pub : bytes) (c : Contact) : bool := bool_decide (co_PublicKey c = pub).

Definition get (k : Keystore) (name : bytes) : option Identity := find_first (named name) (ks_identities k).
Definition getChannel (k : Keystore) (name : bytes) : option Channel :=
  find_first (channel_named name) (ks_channels k).

Definition exists_error (name : bytes) : error := ErrText "client: identity already exists".
Definition not_found_error (name : bytes) : error := ErrText "client: identity not found".
Definition channel_exists_error (name : bytes) : error := ErrText "client: channel already exists".
Definition bad_key_length : error := ErrText "client: invalid public key length".
Definition contact_exists_error : error := ErrText "client: contact with that public key already exists".

(** ** Operations in memory *)

(** [gen] is the outcome of [ed25519.GenerateKey]. *)
Definition Add (name : bytes) (gen : result bytes) (k : Keystore) : Keystore * result Identity :=
  match validateName name with
  | Some e => (k, Err e)
  | None =>
      match get k name with
      | Some _ => (k, Err (exists_error name))
      | None =>
          match gen with
          | Err e => (k, Err e)
          | Ok signKey =>
              let id := {| id_Name := name; id_SignKey := signKey; id_IDPowStamp := [] |} in
              (set_identities (ks_identities k ++ [id]) k, Ok id)
          end
      end
  end.

Definition SetIdentityPoW (name stamp : bytes) (k : Keystore) : Keystore * option error :=
  match get k name with
  | None => (k, Some (not_found_error name))
  | Some _ =>
      (set_identities (update_first (named name)
         (fun i => {| id_Name := id_Name i; id_SignKey := id_SignKey i; id_IDPowStamp := stamp |})
         (ks_identities k)) k, None)
  end.

Definition Remove (name : bytes) (k : Keystore) : Keystore * bool :=
  match remove_first (named name) (ks_identities k) with
  | Some l => (set_identities l k, true)
  | None => (k, false)
  end.

Definition ListIdentities (k : Keystore) : list Identity := ks_identities k.
Definition GetIdentity (k : Keystore) (name : bytes) : option Identity := get k name.

Definition AddChannel `{Hashes} (name passphrase : bytes) (k : Keystore) : Keystore * result Channel :=
  match getChannel k name with
  | Some _ => (k, Err (channel_exists_error name))
  | None =>
      let ch := {| ch_Name := name; ch_Key := sha256_Sum256 passphrase |} in
      (set_channels (ks_channels k ++ [ch]) k, Ok ch)
  end.

Definition RemoveChannel (name : bytes) (k : Keystore) : Keystore * bool :=
  match remove_first (channel_named name) (ks_channels k) with
  | Some l => (set_channels l k, true)
  | None => (k, false)
  end.

Definition Channels (k : Keystore) : list Channel := ks_channels k.

Definition AddContact (name pubKey : bytes) (k : Keystore) : Keystore * result Contact :=
  match validateName name with
  | Some e => (k, Err e)
  | None =>
      if negb (length pubKey =? 32)%nat then (k, Err bad_key_length)
      else if existsb (has_key pubKey) (ks_contacts k) then (k, Err contact_exists_error)
      else
        let c := {| co_Name := name; co_PublicKey := pubKey |} in
        (set_contacts (ks_contacts k ++ [c]) k, Ok c)
  end.

Definition RemoveContact (pubKey : bytes) (k : Keystore) : Keystore * bool :=
  match remove_first (has_key pubKey) (ks_contacts k) with
  | Some l => (set_contacts l k, true)
  | None => (k, false)
  end.

Definition RenameContact (pubKey newName : bytes) (k : Keystore) : Keystore * result bool :=
  match validateName newName with
  | Some e => (k, Err e)
  | None =>
      if existsb (has_key pubKey) (ks_contacts k) then
        (set_contacts (update_first (has_key pubKey)
           (fun c => {| co_Name := newName; co_PublicKey := co_PublicKey c |}) (ks_contacts k)) k, Ok true)
      else (k, Ok false)
  end.

Definition ListContacts (k : Keystore) : list Contact := ks_contacts k.

(** ** Cryptography *)

Section Sealed.
Context `{Primitives, Hashes}.

(** [argon2.IDKey] panics without at least one round and one thread. *)
Definition deriveKey (password salt : bytes) (time memory threads : Z) : option bytes :=
  if (time <? 1) || (threads <? 1) then None
  else Some (argon2_IDKey password salt time memory threads kdfKeyLen).

Definition ksEncrypt (masterKey : bytes) (nonce : result bytes) (plaintext : bytes) : result (bytes * bytes) :=
  match chacha_NewX masterKey with
  | Some e => Err e
  | None => n ← nonce; Ok (n, chacha_Seal masterKey n plaintext)
  end.

Definition decryption_failed : error := ErrText "decryption failed".

(** [Open] panics on a nonce of the wrong length. *)
Definition ksDecrypt (masterKey nonce ciphertext : bytes) : option (result bytes) :=
  match chacha_NewX masterKey with
  | Some e => Some (Err e)
  | None =>
      if negb (length nonce =? nonceSize)%nat then None
      else Some (match chacha_Open masterKey nonce ciphertext with
                 | Ok plain => Ok plain
                 | Err _ => Err decryption_failed
                 end)
  end.

Definition NewKeystore (salt : result bytes) (password : bytes) : option (result Keystore) :=
  match salt with
  | Err e => Some (Err e)
  | Ok salt =>
      (fun key => Ok {| ks_masterKey := key; ks_salt := salt; ks_kdfTime := kdfTime;
                        ks_kdfMemory := kdfMemory; ks_kdfThreads := kdfThreads;
                        ks_identities := []; ks_channels := []; ks_contacts := [] |})
      <$> deriveKey password salt kdfTime kdfMemory kdfThreads
  end.

Definition ChangePassword (salt : result bytes) (newPassword : bytes) (k : Keystore)
    : option (Keystore * option error) :=
  match salt with
  | Err e => Some (k, Some e)
  | Ok salt =>
      (fun key => ({| ks_masterKey := key; ks_salt := salt; ks_kdfTime := ks_kdfTime k;
                      ks_kdfMemory := ks_kdfMemory k; ks_kdfThreads := ks_kdfThreads k;
                      ks_identities := ks_identities k; ks_channels := ks_channels k;
                      ks_contacts := ks_contacts k |}, None))
      <$> deriveKey newPassword salt (ks_kdfTime k) (ks_kdfMemory k) (ks_kdfThreads k)
  end.

Definition VerifyPassword (password : bytes) (k : Keystore) : option bool :=
  (fun derived => bool_decide (derived = ks_masterKey k))
  <$> deriveKey password (ks_salt k) (ks_kdfTime k) (ks_kdfMemory k) (ks_kdfThreads k).

(** *** Single identities *)

Context `{KeystoreJson}.

Definition ExportIdentity (name exportPassword : bytes) (salt nonce : result bytes) (k : Keystore)
    : option (result bytes) :=
  match get k name with
  | None => Some (Err (not_found_error name))
  | Some id =>
      match salt with
      | Err e => Some (Err e)
      | Ok salt =>
          (fun exportKey =>
             '(nonce, ct) ← ksEncrypt exportKey nonce (id_SignKey id);
             json_Marshal_export {|
               ie_Version := 1; ie_Name := id_Name id;
               ie_Salt := salt; ie_KDFTime := kdfTime; ie_KDFMemory := kdfMemory; ie_KDFThreads := kdfThreads;
               ie_Nonce := nonce; ie_Ciphertext := ct |})
          <$> deriveKey exportPassword salt kdfTime kdfMemory kdfThreads
      end
  end.

Definition import_invalid : error := ErrText "client: import identity: invalid bundle".
Definition import_version : error := ErrText "client: import identity: unsupported version".
Definition import_password : error := ErrText "client: import identity: wrong password or corrupted bundle".
Definition import_key_size : error := ErrText "client: import identity: invalid key size".

Definition ImportIdentity (data exportPassword : bytes) (k : Keystore) : option (Keystore * result Identity) :=
  match json_Unmarshal_export data with
  | Err _ => Some (k, Err import_invalid)
  | Ok b =>
      if negb (ie_Version b =? 1) then Some (k, Err import_version)
      else
        match deriveKey exportPassword (ie_Salt b) (ie_KDFTime b) (ie_KDFMemory b) (ie_KDFThreads b) with
        | None => None
        | Some exportKey =>
            match ksDecrypt exportKey (ie_Nonce b) (ie_Ciphertext b) with
            | None => None
            | Some (Err _) => Some (k, Err import_password)
            | Some (Ok privBytes) =>
                if negb (length privBytes =? 64)%nat then Some (k, Err import_key_size)
                else
                  match validateName (ie_Name b) with
                  | Some e => Some (k, Err e)
                  | None =>
                      match get k (ie_Name b) with
                      | Some _ => Some (k, Err (exists_error (ie_Name b)))
                      | None =>
                          let id := {| id_Name := ie_Name b; id_SignKey := privBytes; id_IDPowStamp := [] |} in
                          Some (set_identities (ks_identities k ++ [id]) k, Ok id)
                      end
                  end
            end
        end
  end.
End Sealed.

(** ** The file on disk *)

Abbreviation disk := (gmap bytes bytes).

(** The faults of one save: the write of the temporary file may fail and leave some
    content behind, and the rename may fail. *)
Record save_io := { io_write : option (error * bytes); io_rename : option error }.
Definition no_faults : save_io := {| io_write := None; io_rename := None |}.

Definition keystoreCanary : bytes := bs "sneakernet-keystore-v1".
Definition tmp_path (path : bytes) : bytes := path ++ bs ".tmp".

Section Files.
Context `{Primitives, Hashes, KeystoreJson}.

Definition save_error (e : error) : error := ErrWrap "client: save keystore" e.

(** The records of the identities; [draw] numbers the nonces drawn. *)
Fixpoint seal_identities (key : bytes) (nonces : nat -> result bytes) (draw : nat) (l : list Identity)
    : result (list identityRecord) :=
  match l with
  | [] => Ok []
  | id :: l' =>
      match ksEncrypt key (nonces draw) (id_SignKey id) with
      | Err e => Err (save_error e)
      | Ok (sNonce, sCT) =>
          rs ← seal_identities key nonces (S draw) l';
          Ok ({| ir_Name := id_Name id; ir_Nonce := []; ir_Ciphertext := []; ir_SignNonce := sNonce;
                 ir_SignCiphertext := sCT; ir_IDPowStamp := id_IDPowStamp id |} :: rs)
      end
  end.

Fixpoint seal_channels (key : bytes) (nonces : nat -> result bytes) (draw : nat) (l : list Channel)
    : result (list channelRecord) :=
  match l with
  | [] => Ok []
  | ch :: l' =>
      match ksEncrypt key (nonces draw) (ch_Key ch) with
      | Err e => Err (save_error e)
      | Ok (nonce, ct) =>
          rs ← seal_channels key nonces (S draw) l';
          Ok ({| cr_Name := ch_Name ch; cr_Nonce := nonce; cr_Ciphertext := ct |} :: rs)
      end
  end.

Definition contact_record (c : Contact) : contactRecord :=
  {| tr_Name := co_Name c; tr_PublicKey := co_PublicKey c; tr_SigningPublicKey := [] |}.

(** The structure that is marshalled. *)
Definition keystore_file (nonces : nat -> result bytes) (k : Keystore) : result keystoreFile :=
  match ksEncrypt (ks_masterKey k) (nonces 0%nat) keystoreCanary with
  | Err e => Err (save_error e)
  | Ok (vNonce, vCT) =>
      ids ← seal_identities (ks_masterKey k) nonces 1 (ks_identities k);
      chs ← seal_channels (ks_masterKey k) nonces (1 + length (ks_identities k)) (ks_channels k);
      Ok {| kf_Version := keystoreVersion; kf_Salt := ks_salt k; kf_KDFTime := ks_kdfTime k;
            kf_KDFMemory := ks_kdfMemory k; kf_KDFThreads := ks_kdfThreads k; kf_Verify := vNonce ++ vCT;
            kf_Identities := ids; kf_Channels := chs; kf_Contacts := contact_record <$> ks_contacts k |}
  end.

Definition Save (nonces : nat -> result bytes) (io : save_io) (path : bytes) (k : Keystore) (fs : disk)
    : disk * result unit :=
  match keystore_file nonces k with
  | Err e => (fs, Err e)
  | Ok f =>
      match json_MarshalIndent_file f with
      | Err e => (fs, Err (save_error e))
      | Ok data =>
          let tmp := tmp_path path in
          match io_write io with
          | Some (e, partial) => (<[tmp := partial]> fs, Err (save_error e))
          | None =>
              let fs := <[tmp := data]> fs in
              match io_rename io with
              | Some e => (delete tmp fs, Err (save_error e))
              | None => (<[path := data]> (delete tmp fs), Ok tt)
              end
          end
      end
  end.

Definition load_error (e : error) : error := ErrWrap "client: load keystore" e.
Definition load_version : error := ErrText "client: unsupported keystore version".
Definition load_verify : error := ErrText "client: load keystore: missing or truncated verify field".
Definition load_password : error := ErrText "client: load keystore: wrong password or corrupted data".
Definition load_channel : error := ErrText "client: load keystore: wrong password or corrupted channel".
Definition load_channel_key : error := ErrText "client: load keystore: invalid channel key length".
Definition load_migration (e : error) : error := ErrWrap "client: load keystore: persist migration" e.
Definition load_generate (e : error) : error := ErrWrap "client: load keystore: generate sign key" e.

Definition nonempty (b : bytes) : bool := (0 <? length b)%nat.

(** The identities of a file, and whether a key had to be generated; [gens n] is the
    outcome of [ed25519.GenerateKey] for the record that [n] others follow. *)
Fixpoint open_identities (key : bytes) (gens : nat -> result bytes) (l : list identityRecord)
    : option (result (list Identity * bool)) :=
  match l with
  | [] => Some (Ok ([], false))
  | rec :: l' =>
      let signKey :=
        if nonempty (ir_SignNonce rec) && nonempty (ir_SignCiphertext rec) then
          (fun r => match r with Ok k => Ok (k, false) | Err _ => Err load_password end)
          <$> ksDecrypt key (ir_SignNonce rec) (ir_SignCiphertext rec)
        else Some (match gens (length l') with Ok k => Ok (k, true) | Err e => Err (load_generate e) end) in
      match signKey with
      | None => None
      | Some (Err e) => Some (Err e)
      | Some (Ok (k, fresh)) =>
          match open_identities key gens l' with
          | Some (Ok (ids, fresh')) =>
              Some (Ok ({| id_Name := ir_Name rec; id_SignKey := k; id_IDPowStamp := ir_IDPowStamp rec |} :: ids,
                        fresh || fresh'))
          | r => r
          end
      end
  end.

Fixpoint open_channels (key : bytes) (l : list channelRecord) : option (result (list Channel)) :=
  match l with
  | [] => Some (Ok [])
  | rec :: l' =>
      match ksDecrypt key (cr_Nonce rec) (cr_Ciphertext rec) with
      | None => None
      | Some (Err _) => Some (Err load_channel)
      | Some (Ok keyBytes) =>
          if negb (length keyBytes =? 32)%nat then Some (Err load_channel_key)
          else
            match open_channels key l' with
            | Some (Ok chs) => Some (Ok ({| ch_Name := cr_Name rec; ch_Key := keyBytes |} :: chs))
            | r => r
            end
      end
  end.

Definition open_contact (rec : contactRecord) : option Contact :=
  let pub := if (length (tr_SigningPublicKey rec) =? 32)%nat then tr_SigningPublicKey rec else tr_PublicKey rec in
  if negb (length pub =? 32)%nat then None else Some {| co_Name := tr_Name rec; co_PublicKey := pub |}.

Definition LoadKeystore (gens nonces : nat -> result bytes) (io : save_io) (path password : bytes) (fs : disk)
    : option (disk * result Keystore) :=
  match fs !! path with
  | None => Some (fs, Err (load_error ErrNotExist))
  | Some data =>
      match json_Unmarshal_file data with
      | Err e => Some (fs, Err (load_error e))
      | Ok f =>
          if negb (kf_Version f =? 1) && negb (kf_Version f =? keystoreVersion) then Some (fs, Err load_version)
          else
            match deriveKey password (kf_Salt f) (kf_KDFTime f) (kf_KDFMemory f) (kf_KDFThreads f) with
            | None => None
            | Some masterKey =>
                if (length (kf_Verify f) <=? nonceSize)%nat then Some (fs, Err load_verify)
                else
                  match ksDecrypt masterKey (take nonceSize (kf_Verify f)) (drop nonceSize (kf_Verify f)) with
                  | None => None
                  | Some (Err _) => Some (fs, Err load_password)
                  | Some (Ok canary) =>
                      if negb (bool_decide (canary = keystoreCanary)) then Some (fs, Err load_password)
                      else
                        match open_identities masterKey gens (kf_Identities f) with
                        | None => None
                        | Some (Err e) => Some (fs, Err e)
                        | Some (Ok (ids, fresh)) =>
                            let k := {| ks_masterKey := masterKey; ks_salt := kf_Salt f;
                                        ks_kdfTime := kf_KDFTime f; ks_kdfMemory := kf_KDFMemory f;
                                        ks_kdfThreads := kf_KDFThreads f; ks_identities := ids;
                                        ks_channels := []; ks_contacts := [] |} in
                            let needsSave := (kf_Version f <? keystoreVersion) || fresh in
                            let '(fs, saved) := if needsSave then Save nonces io path k fs else (fs, Ok tt) in
                            match saved with
                            | Err e => Some (fs, Err (load_migration e))
                            | Ok _ =>
                                match open_channels masterKey (kf_Channels f) with
                                | None => None
                                | Some (Err e) => Some (fs, Err e)
                                | Some (Ok chs) =>
                                    Some (fs, Ok (set_contacts (omap open_contact (kf_Contacts f)) (set_channels chs k)))
                                end
                            end
                        end
                  end
            end
      end
  end.
End Files.
