(* ===== verification/KeystoreFacts.v ===== *)
(** What the keystore guarantees: names, uniqueness, the file and the exchange of
    identities. *)
From Stdlib Require Import String.
From S2P Require MessageFacts CryptoFacts.
From S2P Require Import Prelude Codec Block Message Text Crypto Keystore.

(** ** Names *)

(** A name that is accepted is safe: it is not empty and at most 256 bytes, and holds
    neither a slash nor an ASCII control byte; and every printable ASCII name of 1 to 64
    bytes without a slash is accepted. *)
Theorem validateName_safe name :
  (validateName name = None ->
     (1 <= length name <= 256)%nat /\ (x2f ∉ name) /\ Forall (fun b => 32 <= u8 b /\ u8 b <> 127) name) /\
  ((1 <= length name <= 64)%nat -> Forall (fun b => 32 <= u8 b < 127 /\ u8 b <> 47) name ->
     validateName name = None).
Proof.
  unfold validateName. pose proof (runes_length name) as Hl. split.
  - destruct (Nat.eqb_spec (length (runes name)) 0) as [|Hn]; [done|].
    destruct (Nat.ltb_spec 64 (length (runes name))); [done|]. destruct (existsb _ _) eqn:E; [done|]. intros _.
    assert (forall b, b ∈ name -> is_ascii b = true -> u8 b <> 47 /\ IsControl (u8 b) = false) as Hb.
    { intros b Hb Ha. pose proof (runes_ascii name b Hb Ha) as Hr%list_elem_of_In.
      rewrite <- not_true_iff_false, existsb_exists in E.
      destruct (decide (u8 b = 47)) as [H47|H47]; [exfalso; apply E; exists (u8 b); by rewrite H47 in *|].
      destruct (IsControl (u8 b)) eqn:Ec; [|done]. exfalso. apply E. exists (u8 b). by rewrite Ec, orb_true_r. }
    split_and!; [lia|lia| |].
    + intros Hin. by destruct (Hb x2f Hin eq_refl).
    + apply Forall_forall. intros b Hin. pose proof (u8_range b).
      destruct (is_ascii b) eqn:Ea; [|unfold is_ascii in Ea; apply Z.ltb_ge in Ea; lia].
      destruct (Hb b Hin Ea) as [_ Hc]. unfold IsControl, in_range in Hc. lia.
  - intros Hlen HF. assert (runes name = u8 <$> name) as ->.
    { unfold runes. clear Hl Hlen. induction HF as [|b name Hb HF IH]; [done|].
      cbn [length runes_fuel]. rewrite DecodeRune_ascii by (unfold is_ascii; apply Z.ltb_lt; lia).
      rewrite skipn_cons, drop_0, IH. done. }
    rewrite length_fmap. rewrite (proj2 (Nat.eqb_neq _ _)) by lia. rewrite (proj2 (Nat.ltb_ge _ _)) by lia.
    destruct (existsb _ _) eqn:E; [|done]. apply existsb_exists in E as (r & Hr & Hc).
    apply list_elem_of_In, list_elem_of_fmap in Hr as (b & -> & Hb). rewrite Forall_forall in HF.
    specialize (HF b Hb). unfold IsControl, in_range in Hc. lia.
Qed.

Lemma validateName_safe_witness :
  validateName (bs "Alice B.") = None /\ x2f ∉ bs "Alice B.".
Proof.
  assert (validateName (bs "Alice B.") = None) as Hv.
  { apply (proj2 (validateName_safe (bs "Alice B."))); [cbn; lia|]. repeat constructor; vm_compute; discriminate. }
  split; [exact Hv|]. exact (proj1 (proj2 (proj1 (validateName_safe (bs "Alice B.")) Hv))).
Defined.

(** ** First matches *)

Section First.
Context {A : Type} (p : A -> bool).

Lemma find_first_None l : find_first p l = None <-> Forall (fun x => p x = false) l.
Proof.
  unfold find_first. rewrite fmap_None, list_find_None. apply Forall_iff. intros x. apply not_true_iff_false.
Qed.

Lemma find_first_Some l x : find_first p l = Some x -> x ∈ l /\ p x = true.
Proof.
  unfold find_first. rewrite fmap_Some. intros ([i y] & (Hi & Hp & _)%list_find_Some & ->).
  split; [by eapply list_elem_of_lookup_2|done].
Qed.

Lemma remove_first_None l : remove_first p l = None <-> Forall (fun x => p x = false) l.
Proof.
  induction l as [|x l IH]; cbn [remove_first]; [by split; [constructor|]|].
  rewrite Forall_cons. destruct (p x) eqn:Hp; [naive_solver|]. rewrite fmap_None, IH. naive_solver.
Qed.

Lemma remove_first_Some l l' : remove_first p l = Some l' ->
  exists l1 x l2, l = l1 ++ x :: l2 /\ l' = l1 ++ l2 /\ p x = true /\ Forall (fun y => p y = false) l1.
Proof.
  revert l'. induction l as [|x l IH]; intros l'; cbn [remove_first]; [done|].
  destruct (p x) eqn:Hp.
  - intros <-%(inj Some). by exists [], x, l.
  - rewrite fmap_Some. intros (r & (l1 & y & l2 & -> & -> & Hy & HF)%IH & ->).
    exists (x :: l1), y, l2. split_and!; [done|done|done|by constructor].
Qed.

Lemma remove_first_sublist l l' : remove_first p l = Some l' -> sublist l' l.
Proof.
  intros (l1 & x & l2 & -> & -> & _)%remove_first_Some.
  apply sublist_app; [done|]. by apply sublist_cons.
Qed.

(** An update that keeps [g]. *)
Lemma update_first_fmap {B} (g : A -> B) f l : (forall x, g (f x) = g x) -> g <$> update_first p f l = g <$> l.
Proof.
  intros Hg. induction l as [|x l IH]; cbn [update_first]; [done|].
  destruct (p x); rewrite !fmap_cons; [by rewrite Hg|by rewrite IH].
Qed.

Lemma update_first_Forall (P : A -> Prop) f l : (forall x, P x -> P (f x)) -> Forall P l -> Forall P (update_first p f l).
Proof.
  intros Hf. induction 1 as [|x l Hx HF IH]; cbn [update_first]; [constructor|].
  destruct (p x); constructor; auto.
Qed.
End First.

Lemma existsb_false_Forall {A} (p : A -> bool) l : existsb p l = false -> Forall (fun x => p x = false) l.
Proof.
  induction l as [|x l IH]; cbn [existsb]; [constructor|]. intros [? ?]%orb_false_iff. constructor; auto.
Qed.

Lemma Forall_key_nin {A B} `{EqDecision B} (g : A -> B) (b : B) l :
  Forall (fun x => bool_decide (g x = b) = false) l -> b ∉ g <$> l.
Proof.
  intros HF (x & -> & Hx)%list_elem_of_fmap. rewrite Forall_forall in HF. specialize (HF x Hx).
  by apply bool_decide_eq_false in HF.
Qed.

Lemma NoDup_snoc {A} (l : list A) x : NoDup l -> x ∉ l -> NoDup (l ++ [x]).
Proof.
  intros Hl Hx. apply NoDup_app. split_and!; [done| |apply NoDup_singleton].
  intros y Hy ->%list_elem_of_singleton. done.
Qed.

(** ** Well-formed keystores *)

Record wf_keystore (k : Keystore) : Prop := {
  wf_identity_names : NoDup (id_Name <$> ks_identities k);
  wf_identities : Forall (fun i => validateName (id_Name i) = None /\ length (id_SignKey i) = 64%nat) (ks_identities k);
  wf_channel_names : NoDup (ch_Name <$> ks_channels k);
  wf_channels : Forall (fun c => length (ch_Key c) = 32%nat) (ks_channels k);
  wf_contact_keys : NoDup (co_PublicKey <$> ks_contacts k);
  wf_contacts : Forall (fun c => validateName (co_Name c) = None /\ length (co_PublicKey c) = 32%nat) (ks_contacts k);
}.

(** One operation on a keystore in memory, successful or not. *)
Inductive ks_step `{Primitives, Hashes, KeystoreJson} : Keystore -> Keystore -> Prop :=
  | step_Add name gen k : (forall key, gen = Ok key -> length key = 64%nat) -> ks_step k (fst (Add name gen k))
  | step_SetIdentityPoW name stamp k : ks_step k (fst (SetIdentityPoW name stamp k))
  | step_Remove name k : ks_step k (fst (Remove name k))
  | step_AddChannel name pass k : ks_step k (fst (AddChannel name pass k))
  | step_RemoveChannel name k : ks_step k (fst (RemoveChannel name k))
  | step_AddContact name pub k : ks_step k (fst (AddContact name pub k))
  | step_RemoveContact pub k : ks_step k (fst (RemoveContact pub k))
  | step_RenameContact pub name k : ks_step k (fst (RenameContact pub name k))
  | step_ChangePassword salt pass k k' e : ChangePassword salt pass k = Some (k', e) -> ks_step k k'
  | step_ImportIdentity data pass k k' r : ImportIdentity data pass k = Some (k', r) -> ks_step k k'.

Lemma wf_set_identities k l : wf_keystore k -> NoDup (id_Name <$> l) ->
  Forall (fun i => validateName (id_Name i) = None /\ length (id_SignKey i) = 64%nat) l ->
  wf_keystore (set_identities l k).
Proof. intros [] ??. by split. Qed.
Lemma wf_set_channels k l : wf_keystore k -> NoDup (ch_Name <$> l) ->
  Forall (fun c => length (ch_Key c) = 32%nat) l -> wf_keystore (set_channels l k).
Proof. intros [] ??. by split. Qed.
Lemma wf_set_contacts k l : wf_keystore k -> NoDup (co_PublicKey <$> l) ->
  Forall (fun c => validateName (co_Name c) = None /\ length (co_PublicKey c) = 32%nat) l ->
  wf_keystore (set_contacts l k).
Proof. intros [] ??. by split. Qed.

Lemma wf_add_identity k i : wf_keystore k -> validateName (id_Name i) = None -> length (id_SignKey i) = 64%nat ->
  get k (id_Name i) = None -> wf_keystore (set_identities (ks_identities k ++ [i]) k).
Proof.
  intros Hk Hn Hs Hg. pose proof Hk as []. apply wf_set_identities; [done| |].
  - rewrite fmap_app. apply NoDup_snoc; [done|]. apply find_first_None in Hg. by apply Forall_key_nin in Hg.
  - apply Forall_app. split; [done|]. by repeat constructor.
Qed.

Lemma Forall_sublist {A} (P : A -> Prop) l1 l2 : sublist l1 l2 -> Forall P l2 -> Forall P l1.
Proof. intros (k & Hp)%sublist_submseteq%submseteq_Permutation. rewrite Hp. by intros [? _]%Forall_app. Qed.

Lemma ks_step_wf `{PrimitivesLaws, HashesLaws, KeystoreJson} k k' : wf_keystore k -> ks_step k k' -> wf_keystore k'.
Proof.
  intros Hk Hstep. pose proof Hk as [].
  destruct Hstep as [name gen k Hg|name stamp k|name k|name pass k|name k|name pub k|pub k|pub name k
                    |salt pass k k' e Hs|data pass k k' r Hs].
  - unfold Add. destruct (validateName name) eqn:Hv; [done|]. destruct (get k name) eqn:Hget; [done|].
    destruct gen as [key|]; [|done]. apply wf_add_identity; auto.
  - unfold SetIdentityPoW. destruct (get k name); [|done]. apply wf_set_identities; [done| |].
    + by rewrite update_first_fmap.
    + by apply update_first_Forall.
  - unfold Remove. destruct (remove_first _ _) as [l|] eqn:E; [|done]. apply remove_first_sublist in E.
    apply wf_set_identities; [done| |by eapply Forall_sublist].
    eapply sublist_NoDup; [|by apply fmap_sublist]. done.
  - unfold AddChannel. destruct (getChannel k name) eqn:Hget; [done|]. apply wf_set_channels; [done| |].
    + rewrite fmap_app. apply NoDup_snoc; [done|]. apply find_first_None in Hget. by apply Forall_key_nin in Hget.
    + apply Forall_app. split; [done|]. repeat constructor. apply sha256_length.
  - unfold RemoveChannel. destruct (remove_first _ _) as [l|] eqn:E; [|done]. apply remove_first_sublist in E.
    apply wf_set_channels; [done| |by eapply Forall_sublist].
    eapply sublist_NoDup; [|by apply fmap_sublist]. done.
  - unfold AddContact. destruct (validateName name) eqn:Hv; [done|]. destruct (Nat.eqb_spec (length pub) 32); [|done].
    cbn [negb]. destruct (existsb _ _) eqn:E; [done|]. apply existsb_false_Forall in E.
    apply wf_set_contacts; [done| |].
    + rewrite fmap_app. apply NoDup_snoc; [done|]. by apply Forall_key_nin in E.
    + apply Forall_app. split; [done|]. by repeat constructor.
  - unfold RemoveContact. destruct (remove_first _ _) as [l|] eqn:E; [|done]. apply remove_first_sublist in E.
    apply wf_set_contacts; [done| |by eapply Forall_sublist].
    eapply sublist_NoDup; [|by apply fmap_sublist]. done.
  - unfold RenameContact. destruct (validateName name) eqn:Hv; [done|]. destruct (existsb _ _); [|done].
    apply wf_set_contacts; [done| |].
    + by rewrite update_first_fmap.
    + apply update_first_Forall; [|done]. intros c [_ ?]. done.
  - unfold ChangePassword in Hs. destruct salt as [salt|]; [|by injection Hs as <- <-].
    destruct (deriveKey _ _ _ _ _); [|done]. injection Hs as <- <-. by split.
  - unfold ImportIdentity in Hs. destruct (json_Unmarshal_export data) as [b|]; [|by injection Hs as <- <-].
    destruct (negb (ie_Version b =? 1)); [by injection Hs as <- <-|]. destruct (deriveKey _ _ _ _ _); [|done].
    destruct (ksDecrypt _ _ _) as [[priv|]|]; [|by injection Hs as <- <-|done].
    destruct (Nat.eqb_spec (length priv) 64); [|by injection Hs as <- <-]. cbn [negb] in Hs.
    destruct (validateName (ie_Name b)) eqn:Hv; [by injection Hs as <- <-|].
    destruct (get k (ie_Name b)) eqn:Hget; [by injection Hs as <- <-|]. injection Hs as <- <-.
    by apply wf_add_identity.
Qed.

(** C23: Every operation keeps the keystore well-formed: names of identities and of
    channels and public keys of contacts stay unique, names stay valid (those of
    identities and contacts), and keys keep their sizes; so any sequence of operations
    from a new keystore yields a well-formed one. *)
Theorem keystore_invariant `{PrimitivesLaws, HashesLaws, KeystoreJson} k k' :
  wf_keystore k -> rtc ks_step k k' -> wf_keystore k'.
Proof. intros Hk Hr. induction Hr as [|k1 k2 k3 Hstep _ IH]; [done|]. apply IH. by eapply ks_step_wf. Qed.

(** ** JSON *)

(** Structures that JSON represents faithfully: integers in the range of their Go type
    and names of valid UTF-8. *)
Definition int_ok (z : Z) : Prop := in_s64 z.
Definition u32_ok (z : Z) : Prop := 0 <= z < 2 ^ 32.
Definition u8_ok (z : Z) : Prop := 0 <= z < 256.

Record file_ok (f : keystoreFile) : Prop := {
  fo_version : int_ok (kf_Version f);
  fo_kdf : u32_ok (kf_KDFTime f) /\ u32_ok (kf_KDFMemory f) /\ u8_ok (kf_KDFThreads f);
  fo_identities : Forall (fun r => utf8_valid (ir_Name r) = true) (kf_Identities f);
  fo_channels : Forall (fun r => utf8_valid (cr_Name r) = true) (kf_Channels f);
  fo_contacts : Forall (fun r => utf8_valid (tr_Name r) = true) (kf_Contacts f);
}.

Record export_ok (b : IdentityExport) : Prop := {
  eo_version : int_ok (ie_Version b);
  eo_kdf : u32_ok (ie_KDFTime b) /\ u32_ok (ie_KDFMemory b) /\ u8_ok (ie_KDFThreads b);
  eo_name : utf8_valid (ie_Name b) = true;
}.

(** What is marshalled can be unmarshalled. *)
Class KeystoreJsonLaws `{KeystoreJson} : Prop := {
  json_file_roundtrip f : file_ok f ->
    exists data, json_MarshalIndent_file f = Ok data /\ json_Unmarshal_file data = Ok f;
  json_export_roundtrip b : export_ok b ->
    exists data, json_Marshal_export b = Ok data /\ json_Unmarshal_export data = Ok b;
}.

(** A keystore whose names are valid UTF-8 and whose parameters have their Go types. *)
Definition storable (k : Keystore) : Prop :=
  u32_ok (ks_kdfTime k) /\ u32_ok (ks_kdfMemory k) /\ u8_ok (ks_kdfThreads k) /\
  Forall (fun i => utf8_valid (id_Name i) = true) (ks_identities k) /\
  Forall (fun c => utf8_valid (ch_Name c) = true) (ks_channels k) /\
  Forall (fun c => utf8_valid (co_Name c) = true) (ks_contacts k).

Definition nonces_ok (nonces : nat -> result bytes) : Prop :=
  forall i, exists n, nonces i = Ok n /\ length n = nonceSize.

(** ** Sealing and opening *)

Section Sealing.
Context `{PrimitivesLaws, HashesLaws, KeystoreJsonLaws}.
Context (key : bytes) (Hkey : length key = 32%nat).
Lemma ksDecrypt_sealed n plain : length n = nonceSize ->
  ksDecrypt key n (chacha_Seal key n plain) = Some (Ok plain).
Proof using All. intros Hn. unfold ksDecrypt. rewrite NewX_32 by done. by rewrite Hn, Nat.eqb_refl, Open_Seal. Qed.

Lemma nonempty_sealed n plain : length n = nonceSize ->
  nonempty n && nonempty (chacha_Seal key n plain) = true.
Proof using All.
  intros Hn. unfold nonempty. rewrite Seal_length, Hn. unfold tagSize.
  apply andb_true_iff. split; [done|apply Nat.ltb_lt; lia].
Qed.

Context (nonces : nat -> result bytes) (Hnonces : nonces_ok nonces).

Lemma ksEncrypt_ok i plain : exists n, length n = nonceSize /\
  ksEncrypt key (nonces i) plain = Ok (n, chacha_Seal key n plain).
Proof using All.
  destruct (Hnonces i) as (n & Hn & Hl). exists n. split; [done|]. unfold ksEncrypt.
  by rewrite NewX_32, Hn.
Qed.

Lemma identities_roundtrip gens ids draw : exists rs, seal_identities key nonces draw ids = Ok rs /\
  ir_Name <$> rs = id_Name <$> ids /\ open_identities key gens rs = Some (Ok (ids, false)).
Proof using All.
  revert draw. induction ids as [|i ids IH]; intros draw; cbn [seal_identities]; [by exists []|].
  destruct (ksEncrypt_ok draw (id_SignKey i)) as (n & Hn & ->).
  destruct (IH (S draw)) as (rs & -> & Hname & Ho). eexists. split; [done|].
  split; [by rewrite !fmap_cons, Hname|]. cbn [open_identities ir_SignNonce ir_SignCiphertext ir_Name ir_IDPowStamp].
  rewrite nonempty_sealed, ksDecrypt_sealed by done. cbn. rewrite Ho. by destruct i.
Qed.

Lemma channels_roundtrip chs draw : Forall (fun c => length (ch_Key c) = 32%nat) chs ->
  exists rs, seal_channels key nonces draw chs = Ok rs /\
  cr_Name <$> rs = ch_Name <$> chs /\ open_channels key rs = Some (Ok chs).
Proof using All.
  intros HF. revert draw. induction HF as [|c chs Hc HF IH]; intros draw; cbn [seal_channels]; [by exists []|].
  destruct (ksEncrypt_ok draw (ch_Key c)) as (n & Hn & ->).
  destruct (IH (S draw)) as (rs & -> & Hname & Ho). eexists. split; [done|].
  split; [by rewrite !fmap_cons, Hname|]. cbn [open_channels cr_Nonce cr_Ciphertext cr_Name].
  rewrite ksDecrypt_sealed by done. rewrite Hc, Nat.eqb_refl. cbn [negb]. rewrite Ho. by destruct c.
Qed.
End Sealing.

Lemma contacts_roundtrip cs : Forall (fun c => length (co_PublicKey c) = 32%nat) cs ->
  omap open_contact (contact_record <$> cs) = cs.
Proof.
  induction 1 as [|c cs Hc HF IH]; [done|]. rewrite fmap_cons. cbn [omap list_omap].
  unfold open_contact at 1. cbn. rewrite Hc. cbn. f_equal; [by destruct c|done].
Qed.

Lemma Forall_names {A B} (f : A -> bytes) (g : B -> bytes) l l' :
  f <$> l = g <$> l' -> Forall (fun x => utf8_valid (g x) = true) l' -> Forall (fun x => utf8_valid (f x) = true) l.
Proof.
  intros E HF. assert (Forall (fun n => utf8_valid n = true) (f <$> l)) as Hf by (rewrite E; by apply Forall_fmap).
  by apply Forall_fmap in Hf.
Qed.

(** ** The file *)

Section File.
Context `{PrimitivesLaws, HashesLaws, KeystoreJsonLaws}.
Context (k : Keystore) (Hst : storable k) (Hkey : length (ks_masterKey k) = 32%nat).
Context (Hch : Forall (fun c => length (ch_Key c) = 32%nat) (ks_channels k)).
Context (Hco : Forall (fun c => length (co_PublicKey c) = 32%nat) (ks_contacts k)).
Context (nonces : nat -> result bytes) (Hnonces : nonces_ok nonces).

(** What is written for [k]. *)
Lemma keystore_file_ok : exists f data n,
  keystore_file nonces k = Ok f /\ json_MarshalIndent_file f = Ok data /\ json_Unmarshal_file data = Ok f /\
  kf_Version f = keystoreVersion /\ kf_Salt f = ks_salt k /\ kf_KDFTime f = ks_kdfTime k /\
  kf_KDFMemory f = ks_kdfMemory k /\ kf_KDFThreads f = ks_kdfThreads k /\
  length n = nonceSize /\ kf_Verify f = n ++ chacha_Seal (ks_masterKey k) n keystoreCanary /\
  (forall gens, open_identities (ks_masterKey k) gens (kf_Identities f) = Some (Ok (ks_identities k, false))) /\
  open_channels (ks_masterKey k) (kf_Channels f) = Some (Ok (ks_channels k)) /\
  omap open_contact (kf_Contacts f) = ks_contacts k.
Proof using All.
  destruct Hst as (Ht & Hm & Hth & Hui & Huc & Hut). unfold keystore_file.
  destruct (ksEncrypt_ok (ks_masterKey k) Hkey nonces Hnonces 0 keystoreCanary) as (n & Hn & ->).
  destruct (identities_roundtrip (ks_masterKey k) Hkey nonces Hnonces (fun _ => Err ErrEOF) (ks_identities k) 1)
    as (ids & Hids & Hin & _). rewrite Hids. cbn [mbind result_bind].
  destruct (channels_roundtrip (ks_masterKey k) Hkey nonces Hnonces (ks_channels k) (1 + length (ks_identities k)))
    as (chs & -> & Hcn & Hoc); [done|]. cbn [mbind result_bind].
  set (f := {| kf_Version := keystoreVersion |}).
  destruct (json_file_roundtrip f) as (data & Hd & Hu).
  { split; cbn.
    - split; [discriminate|reflexivity].
    - done.
    - by eapply Forall_names.
    - by eapply Forall_names.
    - apply Forall_fmap. eapply Forall_impl; [apply Hut|]. done. }
  exists f, data, n. split_and!; try done.
  - intros gens. cbn [kf_Identities f].
    destruct (identities_roundtrip (ks_masterKey k) Hkey nonces Hnonces gens (ks_identities k) 1) as (ids' & Hids' & _ & Ho).
    rewrite Hids in Hids'. by apply (inj Ok) in Hids' as <-.
  - cbn [kf_Contacts f]. by apply contacts_roundtrip.
Qed.

(** A disk that holds the file of [k] is loaded as [k] and left alone. *)
Lemma LoadKeystore_saved password path fs f data gens nonces' io :
  deriveKey password (ks_salt k) (ks_kdfTime k) (ks_kdfMemory k) (ks_kdfThreads k) = Some (ks_masterKey k) ->
  keystore_file nonces k = Ok f -> json_MarshalIndent_file f = Ok data -> fs !! path = Some data ->
  LoadKeystore gens nonces' io path password fs = Some (fs, Ok k).
Proof using All.
  intros Hd Hf Hm Hfs.
  destruct keystore_file_ok as (f' & data' & n & Hf' & Hm' & Hu & Hv & Hs & Ht & Hmem & Hth & Hn & Hver & Hids & Hchs & Hcs).
  rewrite Hf in Hf'. apply (inj Ok) in Hf' as <-. rewrite Hm in Hm'. apply (inj Ok) in Hm' as <-.
  unfold LoadKeystore. rewrite Hfs, Hu, Hv. cbn [negb andb Z.eqb keystoreVersion].
  rewrite Hs, Ht, Hmem, Hth, Hd, Hver. rewrite length_app, Hn, Seal_length. unfold tagSize.
  rewrite (proj2 (Nat.leb_gt _ _)) by lia. rewrite <- Hn, take_app_length, drop_app_length.
  rewrite (ksDecrypt_sealed _ Hkey) by done. rewrite bool_decide_eq_true_2 by done. cbn [negb].
  rewrite Hids, Hchs, Hcs. cbn [orb Z.ltb Z.compare Pos.compare Pos.compare_cont keystoreVersion].
  by destruct k.
Qed.
End File.

Lemma tmp_path_ne path : tmp_path path <> path.
Proof. unfold tmp_path. intros E%(f_equal length). rewrite length_app in E. cbn in E. lia. Qed.

Lemma Save_cases `{Primitives, KeystoreJson} nonces io path k fs fs' r :
  Save nonces io path k fs = (fs', r) ->
  (forall p, p <> path -> p <> tmp_path path -> fs' !! p = fs !! p) /\
  match r with
  | Err _ => fs' !! path = fs !! path
  | Ok _ => exists f data, keystore_file nonces k = Ok f /\ json_MarshalIndent_file f = Ok data /\
      fs' !! path = Some data /\ fs' !! tmp_path path = None
  end.
Proof.
  pose proof (tmp_path_ne path) as Hne. unfold Save. destruct (keystore_file nonces k) as [f|e]; [|by intros [= <- <-]].
  destruct (json_MarshalIndent_file f) as [data|e] eqn:Em; [|by intros [= <- <-]].
  destruct (io_write io) as [[e left_over]|]; [|destruct (io_rename io) as [e|]]; intros [<- <-]%pair_eq.
  - split; [intros p ??|]; by rewrite lookup_insert_ne.
  - split; [intros p ??|]; by rewrite lookup_delete_ne, lookup_insert_ne.
  - split; [intros p ??|].
    + by rewrite lookup_insert_ne, lookup_delete_ne, lookup_insert_ne.
    + exists f, data. split_and!; [done|done|by rewrite lookup_insert_eq|].
      by rewrite lookup_insert_ne, lookup_delete_eq.
Qed.

(** Saving is atomic.  Whichever step fails, the file at the path is what it was; when
    the save succeeds it is the whole new file, and no temporary file is left.  No other
    file is touched. *)
Theorem Save_atomic `{Primitives, KeystoreJson} nonces io path k fs :
  let '(fs', r) := Save nonces io path k fs in
  (forall p, p <> path -> p <> tmp_path path -> fs' !! p = fs !! p) /\
  match r with
  | Err _ => fs' !! path = fs !! path
  | Ok _ => exists f data, keystore_file nonces k = Ok f /\ json_MarshalIndent_file f = Ok data /\
      fs' !! path = Some data /\ fs' !! tmp_path path = None
  end.
Proof. destruct (Save nonces io path k fs) as [fs' r] eqn:E. by apply Save_cases in E. Qed.

Section Roundtrip.
Context `{PrimitivesLaws, HashesLaws, KeystoreJsonLaws}.

Lemma deriveKey_length password salt time memory threads key :
  deriveKey password salt time memory threads = Some key -> length key = 32%nat.
Proof using All.
  unfold deriveKey. destruct (_ || _); [done|]. intros <-%(inj Some). unfold kdfKeyLen. by rewrite argon2_length.
Qed.

(** A save without a fault writes the file of the keystore. *)
Lemma Save_succeeds nonces path k fs :
  wf_keystore k -> storable k -> nonces_ok nonces -> length (ks_masterKey k) = 32%nat ->
  exists f data fs', keystore_file nonces k = Ok f /\ json_MarshalIndent_file f = Ok data /\
    Save nonces no_faults path k fs = (fs', Ok tt) /\ fs' !! path = Some data.
Proof using All.
  intros [] Hst Hn Hkey.
  assert (Forall (fun c => length (co_PublicKey c) = 32%nat) (ks_contacts k)) as Hco
    by (eapply Forall_impl; [done|]; by intros c [_ ?]).
  destruct (keystore_file_ok k Hst Hkey wf_channels0 Hco nonces Hn) as (f & data & n & Hf & Hm & _).
  eexists _, _, _. split; [done|]. split; [done|]. split; [unfold Save; by rewrite Hf, Hm|apply lookup_insert_eq].
Qed.

(** C15: A keystore survives the disk.  Saved without a fault and loaded with the password
    its key was derived from, it is the same keystore: identities with their stamps,
    channels and contacts, in their order; and loading leaves the disk alone. *)
Theorem save_load_roundtrip password nonces path k fs :
  wf_keystore k -> storable k -> nonces_ok nonces ->
  deriveKey password (ks_salt k) (ks_kdfTime k) (ks_kdfMemory k) (ks_kdfThreads k) = Some (ks_masterKey k) ->
  exists fs', Save nonces no_faults path k fs = (fs', Ok tt) /\
    forall gens nonces' io, LoadKeystore gens nonces' io path password fs' = Some (fs', Ok k).
Proof using All.
  intros Hwf Hst Hn Hd. pose proof (deriveKey_length _ _ _ _ _ _ Hd) as Hkey.
  destruct (Save_succeeds nonces path k fs Hwf Hst Hn Hkey) as (f & data & fs' & Hf & Hm & Hs & Hl).
  exists fs'. split; [exact Hs|]. intros gens nonces' io. destruct Hwf.
  eapply LoadKeystore_saved; try done. eapply Forall_impl; [done|]. by intros c [_ ?].
Qed.

(** The migration of an old keystore loses its channels and contacts.  Loading a file
    of version 1 returns them, but what it wrote back to the disk is a keystore without
    any, and that is what the next load returns. *)
Theorem migration_drops_contacts gens nonces io gens' nonces' io' path password fs fs' k data f :
  fs !! path = Some data -> json_Unmarshal_file data = Ok f -> kf_Version f = 1 ->
  LoadKeystore gens nonces io path password fs = Some (fs', Ok k) -> storable k -> nonces_ok nonces ->
  ks_contacts k = omap open_contact (kf_Contacts f) /\
  LoadKeystore gens' nonces' io' path password fs' = Some (fs', Ok (set_contacts [] (set_channels [] k))).
Proof using All.
  intros Hfs Hu Hv Hload Hst Hn. unfold LoadKeystore in Hload. rewrite Hfs, Hu, Hv in Hload.
  cbn [negb andb Z.eqb Pos.eqb] in Hload.
  destruct (deriveKey _ _ _ _ _) as [key|] eqn:Hd; [|done]. destruct (_ <=? _)%nat; [done|].
  destruct (ksDecrypt _ _ _) as [[canary|]|]; [|done|done]. destruct (negb _); [done|].
  destruct (open_identities _ _ _) as [[[ids fresh]|]|]; [|done|done].
  change (1 <? keystoreVersion) with true in Hload. cbn [orb] in Hload.
  set (k0 := {| ks_masterKey := key |}) in *.
  destruct (Save nonces io path k0 fs) as [fs1 [[]|e]] eqn:Es; [|done].
  destruct (open_channels _ _) as [[chs|]|]; [|done|done].
  apply (inj Some) in Hload. injection Hload as <- <-. split; [done|].
  apply Save_cases in Es as (_ & f' & data' & Hf' & Hm' & Hfs' & _).
  assert (storable k0) as Hst0.
  { destruct Hst as (Ht & Hm & Hth & Hui & _ & _). by split_and!. }
  change (set_contacts [] (set_channels [] (set_contacts _ _))) with k0.
  pose proof (deriveKey_length _ _ _ _ _ _ Hd) as Hkey.
  by eapply (LoadKeystore_saved k0 Hst0 Hkey (Forall_nil_2 _) (Forall_nil_2 _) nonces Hn).
Qed.

(** An identity can be carried from one keystore to another: what is exported under a
    password is imported under it, with its name and its key but without its stamp,
    unless the name is taken. *)
Theorem export_import_roundtrip name password salt nonce k k' id :
  get k name = Some id -> validateName name = None -> length (id_SignKey id) = 64%nat -> utf8_valid name = true ->
  length nonce = nonceSize ->
  exists data, ExportIdentity name password (Ok salt) (Ok nonce) k = Some (Ok data) /\
    ImportIdentity data password k' =
      let id' := {| id_Name := name; id_SignKey := id_SignKey id; id_IDPowStamp := [] |} in
      match get k' name with
      | Some _ => Some (k', Err (exists_error name))
      | None => Some (set_identities (ks_identities k' ++ [id']) k', Ok id')
      end.
Proof using All.
  intros Hget Hval Hlen Hutf Hn.
  assert (id_Name id = name) as Hname by (by apply find_first_Some in Hget as [_ ?%bool_decide_eq_true]).
  unfold ExportIdentity. rewrite Hget, Hname.
  destruct (deriveKey password salt kdfTime kdfMemory kdfThreads) as [key|] eqn:Hd; [|done].
  pose proof (deriveKey_length _ _ _ _ _ _ Hd) as Hkey.
  unfold ksEncrypt. cbn [fmap option_fmap option_map]. rewrite NewX_32 by done. cbn [mbind result_bind].
  destruct (json_export_roundtrip {| ie_Version := 1; ie_Name := name; ie_Salt := salt; ie_KDFTime := kdfTime;
    ie_KDFMemory := kdfMemory; ie_KDFThreads := kdfThreads; ie_Nonce := nonce;
    ie_Ciphertext := chacha_Seal key nonce (id_SignKey id) |}) as (data & Hm & Hu).
  { split; cbn; [split; [discriminate|reflexivity]| |done].
    unfold u32_ok, u8_ok, kdfTime, kdfMemory, kdfThreads. lia. }
  exists data. split; [by rewrite Hm|]. unfold ImportIdentity. rewrite Hu.
  cbn [ie_Version ie_Name ie_Salt ie_KDFTime ie_KDFMemory ie_KDFThreads ie_Nonce ie_Ciphertext negb Z.eqb Pos.eqb].
  rewrite Hd, (ksDecrypt_sealed key Hkey) by done. rewrite Hlen, Nat.eqb_refl. cbn [negb]. rewrite Hval. by destruct (get k' name).
Qed.

(** A crafted bundle can stop the program: an import panics exactly when the bundle
    parses, has version 1 and asks for less than one round or thread of the key
    derivation or has a nonce of the wrong length. *)
Theorem ImportIdentity_panics data password k :
  ImportIdentity data password k = None <->
  exists b, json_Unmarshal_export data = Ok b /\ ie_Version b = 1 /\
    (ie_KDFTime b < 1 \/ ie_KDFThreads b < 1 \/ length (ie_Nonce b) <> nonceSize).
Proof using All.
  unfold ImportIdentity. split.
  - destruct (json_Unmarshal_export data) as [b|]; [|done].
    destruct (Z.eqb_spec (ie_Version b) 1); [|done]. cbn [negb]. intros Hi. exists b. split_and!; [done|done|].
    destruct (deriveKey _ _ _ _ _) as [key|] eqn:Hd.
    + pose proof (deriveKey_length _ _ _ _ _ _ Hd). unfold ksDecrypt in Hi. rewrite NewX_32 in Hi by done.
      destruct (Nat.eqb_spec (length (ie_Nonce b)) nonceSize); [|auto]. cbn [negb] in Hi. exfalso.
      destruct (chacha_Open _ _ _); [|done]. repeat (case_match; try done).
    + unfold deriveKey in Hd. destruct (Z.ltb_spec (ie_KDFTime b) 1); [auto|].
      destruct (Z.ltb_spec (ie_KDFThreads b) 1); [auto|done].
  - intros (b & -> & -> & Hb). cbn [negb Z.eqb Pos.eqb].
    destruct (deriveKey _ _ _ _ _) as [key|] eqn:Hd; [|done].
    pose proof (deriveKey_length _ _ _ _ _ _ Hd). unfold ksDecrypt. rewrite NewX_32 by done.
    unfold deriveKey in Hd. destruct (Z.ltb_spec (ie_KDFTime b) 1); [done|].
    destruct (Z.ltb_spec (ie_KDFThreads b) 1); [done|]. destruct Hb as [?|[?|?]]; [lia|lia|].
    by rewrite (proj2 (Nat.eqb_neq _ _)).
Qed.
End Roundtrip.

(** ** At concrete inputs *)

(** Records as tuples. *)
Definition identity_tuple (r : identityRecord) :=
  (ir_Name r, ir_Nonce r, ir_Ciphertext r, ir_SignNonce r, ir_SignCiphertext r, ir_IDPowStamp r).
Definition channel_tuple (r : channelRecord) := (cr_Name r, cr_Nonce r, cr_Ciphertext r).
Definition contact_tuple (r : contactRecord) := (tr_Name r, tr_PublicKey r, tr_SigningPublicKey r).
Definition file_tuple (f : keystoreFile) :=
  (kf_Version f, kf_Salt f, kf_KDFTime f, kf_KDFMemory f, kf_KDFThreads f, kf_Verify f,
   identity_tuple <$> kf_Identities f, channel_tuple <$> kf_Channels f, contact_tuple <$> kf_Contacts f).
Definition export_tuple (b : IdentityExport) :=
  (ie_Version b, ie_Name b, ie_Salt b, ie_KDFTime b, ie_KDFMemory b, ie_KDFThreads b, ie_Nonce b, ie_Ciphertext b).

Definition tuple_identity (t : bytes * bytes * bytes * bytes * bytes * bytes) : identityRecord :=
  let '(a, b, c, d, e, f) := t in {| ir_Name := a; ir_Nonce := b; ir_Ciphertext := c; ir_SignNonce := d;
    ir_SignCiphertext := e; ir_IDPowStamp := f |}.
Definition tuple_channel (t : bytes * bytes * bytes) : channelRecord :=
  let '(a, b, c) := t in {| cr_Name := a; cr_Nonce := b; cr_Ciphertext := c |}.
Definition tuple_contact (t : bytes * bytes * bytes) : contactRecord :=
  let '(a, b, c) := t in {| tr_Name := a; tr_PublicKey := b; tr_SigningPublicKey := c |}.

Definition ref_KeystoreJson : KeystoreJson := {|
  json_MarshalIndent_file f := Ok (pos_bytes (encode (file_tuple f)));
  json_Unmarshal_file b :=
    match decode (bytes_pos b) with
    | Some (v, s, t, m, th, ver, ids, chs, cs) =>
        Ok {| kf_Version := v; kf_Salt := s; kf_KDFTime := t; kf_KDFMemory := m; kf_KDFThreads := th;
              kf_Verify := ver; kf_Identities := tuple_identity <$> ids; kf_Channels := tuple_channel <$> chs;
              kf_Contacts := tuple_contact <$> cs |}
    | None => Err (ErrText "json")
    end;
  json_Marshal_export b := Ok (pos_bytes (encode (export_tuple b)));
  json_Unmarshal_export b :=
    match decode (bytes_pos b) with
    | Some (v, n, s, t, m, th, no, ct) =>
        if utf8_valid n
        then Ok {| ie_Version := v; ie_Name := n; ie_Salt := s; ie_KDFTime := t; ie_KDFMemory := m;
                   ie_KDFThreads := th; ie_Nonce := no; ie_Ciphertext := ct |}
        else Err (ErrText "json")
    | None => Err (ErrText "json")
    end;
|}.

Lemma fmap_inverse {A B} (f : A -> B) (g : B -> A) (l : list A) : (forall x, g (f x) = x) -> g <$> (f <$> l) = l.
Proof. intros Hg. rewrite <- list_fmap_compose. rewrite <- (list_fmap_id l) at 2. apply list_fmap_ext. intros i x _. apply Hg. Qed.

Lemma ref_Unmarshal_file f :
  @json_Unmarshal_file ref_KeystoreJson (pos_bytes (encode (file_tuple f))) = Ok f.
Proof.
  cbn [json_Unmarshal_file ref_KeystoreJson]. rewrite bytes_pos_bytes, decode_encode.
  unfold file_tuple. rewrite !fmap_inverse by by intros []. by destruct f.
Qed.

Lemma ref_Unmarshal_export b :
  utf8_valid (ie_Name b) = true ->
  @json_Unmarshal_export ref_KeystoreJson (pos_bytes (encode (export_tuple b))) = Ok b.
Proof.
  intros Hn. cbn [json_Unmarshal_export ref_KeystoreJson]. rewrite bytes_pos_bytes, decode_encode. unfold export_tuple. rewrite Hn. by destruct b.
Qed.

Lemma ref_KeystoreJsonLaws : @KeystoreJsonLaws ref_KeystoreJson.
Proof.
  split.
  - intros f _. eexists. split; [reflexivity|]. apply ref_Unmarshal_file.
  - intros b Hb. eexists. split; [reflexivity|]. apply ref_Unmarshal_export, Hb.
Qed.

Module KeystoreDemo.
Import MessageFacts CryptoFacts.
#[local] Existing Instances ref_KeystoreJson ref_KeystoreJsonLaws ref_Primitives ref_PrimitivesLaws
  ref_Hashes ref_HashesLaws ref_Ed25519 ref_Ed25519Laws.

Definition password : bytes := bs "secret".
Definition salt : bytes := replicate 32 x03.
Definition master : bytes := argon2_IDKey password salt 2 65536 4 32.
Definition alice : Identity := {| id_Name := bs "alice"; id_SignKey := replicate 64 x07; id_IDPowStamp := replicate 16 x09 |}.
Definition bob : Contact := {| co_Name := bs "bob"; co_PublicKey := replicate 32 x08 |}.
Definition news : Channel := {| ch_Name := bs "news"; ch_Key := replicate 32 x06 |}.
Definition keys : Keystore := {|
  ks_masterKey := master; ks_salt := salt; ks_kdfTime := 2; ks_kdfMemory := 65536; ks_kdfThreads := 4;
  ks_identities := [alice]; ks_channels := [news]; ks_contacts := [bob] |}.
Definition nonces (i : nat) : result bytes := Ok (replicate 24 (byte_of_Z (Z.of_nat i))).
Definition path : bytes := bs "keystore.json".

Lemma nonces_all_ok : nonces_ok nonces.
Proof. intros i. eexists. split; [reflexivity|]. apply length_replicate. Qed.

Lemma keys_wf : wf_keystore keys.
Proof.
  split; cbn [ks_identities ks_channels ks_contacts keys fmap list_fmap];
    try apply NoDup_singleton; repeat constructor; vm_compute; reflexivity.
Qed.

Lemma keys_storable : storable keys.
Proof. split_and!; try (repeat constructor; vm_compute; (reflexivity || discriminate)); vm_compute; (reflexivity || discriminate). Qed.

Lemma keystore_invariant_witness : wf_keystore (fst (Add (bs "carol") (Ok (replicate 64 x05)) keys)).
Proof.
  apply (keystore_invariant keys _ keys_wf), rtc_once, step_Add.
  intros key Hkey. injection Hkey as <-. reflexivity.
Defined.

Lemma save_load_roundtrip_witness : exists fs',
  Save nonces no_faults path keys ∅ = (fs', Ok tt) /\
  LoadKeystore (fun _ => Err ErrEOF) nonces no_faults path password fs' = Some (fs', Ok keys).
Proof.
  destruct (save_load_roundtrip password nonces path keys ∅ keys_wf keys_storable nonces_all_ok eq_refl)
    as (fs' & H1 & H2).
  exists fs'. split; [exact H1|exact (H2 _ _ _)].
Defined.

(** A file of version 1 with one contact. *)
Definition old_file : keystoreFile := {|
  kf_Version := 1; kf_Salt := salt; kf_KDFTime := 2; kf_KDFMemory := 65536; kf_KDFThreads := 4;
  kf_Verify := replicate 24 x00 ++ chacha_Seal master (replicate 24 x00) keystoreCanary;
  kf_Identities := []; kf_Channels := [];
  kf_Contacts := [{| tr_Name := bs "bob"; tr_PublicKey := replicate 32 x01; tr_SigningPublicKey := replicate 32 x08 |}] |}.
Definition old_data : bytes := pos_bytes (encode (file_tuple old_file)).
Definition old_keys : Keystore := {|
  ks_masterKey := master; ks_salt := salt; ks_kdfTime := 2; ks_kdfMemory := 65536; ks_kdfThreads := 4;
  ks_identities := []; ks_channels := []; ks_contacts := [bob] |}.

Lemma old_keys_storable : storable old_keys.
Proof. split_and!; try (repeat constructor; vm_compute; (reflexivity || discriminate)); vm_compute; (reflexivity || discriminate). Qed.

Lemma old_load : exists fs',
  LoadKeystore (fun _ => Err ErrEOF) nonces no_faults path password {[ path := old_data ]} = Some (fs', Ok old_keys).
Proof.
  unfold LoadKeystore. rewrite lookup_singleton_eq. unfold old_data. rewrite ref_Unmarshal_file.
  eexists. reflexivity.
Qed.

Lemma migration_drops_contacts_witness : exists fs',
  LoadKeystore (fun _ => Err ErrEOF) nonces no_faults path password {[ path := old_data ]} = Some (fs', Ok old_keys) /\
  LoadKeystore (fun _ => Err ErrEOF) nonces no_faults path password fs'
  = Some (fs', Ok (set_contacts [] (set_channels [] old_keys))).
Proof.
  destruct old_load as [fs' Hl]. exists fs'. split; [exact Hl|].
  exact (proj2 (migration_drops_contacts _ nonces no_faults (fun _ => Err ErrEOF) nonces no_faults path password
    {[ path := old_data ]} fs' old_keys old_data old_file (lookup_singleton_eq path old_data)
    (ref_Unmarshal_file old_file) eq_refl Hl old_keys_storable nonces_all_ok)).
Defined.

Lemma export_import_roundtrip_witness : exists data,
  ExportIdentity (bs "alice") password (Ok salt) (Ok (replicate 24 x00)) keys = Some (Ok data) /\
  option_map snd (ImportIdentity data password keys) = Some (Err (exists_error (bs "alice"))).
Proof.
  destruct (export_import_roundtrip (bs "alice") password salt (replicate 24 x00) keys keys alice
    eq_refl eq_refl eq_refl eq_refl eq_refl) as (data & H1 & H2).
  exists data. split; [exact H1|]. rewrite H2. reflexivity.
Defined.
(** A bundle that asks for no round of the key derivation. *)
Definition bad_bundle : IdentityExport := {|
  ie_Version := 1; ie_Name := bs "mallory"; ie_Salt := salt; ie_KDFTime := 0; ie_KDFMemory := 65536;
  ie_KDFThreads := 4; ie_Nonce := replicate 24 x00; ie_Ciphertext := [] |}.

Lemma ImportIdentity_panics_witness :
  ImportIdentity (pos_bytes (encode (export_tuple bad_bundle))) password keys = None.
Proof.
  apply (ImportIdentity_panics _ password keys). exists bad_bundle.
  split; [by apply ref_Unmarshal_export|]. split; [reflexivity|]. left. reflexivity.
Defined.
End KeystoreDemo.
