(* ===== verification/Client.v ===== *)
(** The scraper ([client/client.go]): it pages through the blocks of a store, tries every
    key on each, saves what opens and advances the checkpoint. *)
From Stdlib Require Import String.
From S2P Require MessageFacts CryptoFacts KeystoreFacts FlatFile FlatFileFacts.
From S2P Require Import Prelude Codec Block Store Message IdPow Crypto Keystore MessageStore.

Definition scrapePageSize : Z := 100.

(** The annotations a scrape adds to a message. *)
Definition with_channel (c : bytes) (mp : MessagePayload) : MessagePayload := {|
  MsgType := MsgType mp; Flags := Flags mp; Timestamp := Timestamp mp; SenderPub := SenderPub mp;
  Signature := Signature mp; ThreadRefs := ThreadRefs mp; Content := Content mp;
  mp_Channel := c; SentTo := SentTo mp; DecryptedBy := DecryptedBy mp |}.
Definition with_decrypted_by (n : bytes) (mp : MessagePayload) : MessagePayload := {|
  MsgType := MsgType mp; Flags := Flags mp; Timestamp := Timestamp mp; SenderPub := SenderPub mp;
  Signature := Signature mp; ThreadRefs := ThreadRefs mp; Content := Content mp;
  mp_Channel := mp_Channel mp; SentTo := SentTo mp; DecryptedBy := n |}.

(** The state of a scrape: the database, the messages found, and the gifts handed to the
    callback, latest first. *)
Record scrape_state (D : Type) := {
  sc_db : D;
  sc_found : Z;
  sc_gifts : list (bytes * bytes);
}.
Arguments sc_db {D}. Arguments sc_found {D}. Arguments sc_gifts {D}. Arguments Build_scrape_state {D}.

Section Scrape.
Context `{Primitives, Hashes, Ed25519}.

(** *** The keys *)

Fixpoint try_identities (ids : list Identity) (payload : Payload) : option (MessagePayload * bytes) :=
  match ids with
  | [] => None
  | id :: ids' =>
      match tryDecrypt (id_SignKey id) payload with
      | Ok mp => Some (mp, id_Name id)
      | Err _ => try_identities ids' payload
      end
  end.

Fixpoint try_channels (chs : list Channel) (payload : Payload) : option (MessagePayload * bytes) :=
  match chs with
  | [] => None
  | ch :: chs' =>
      match tryDecryptChannel (ch_Key ch) payload with
      | Ok mp => Some (with_channel (ch_Name ch) mp, [])
      | Err _ => try_channels chs' payload
      end
  end.

Definition tryAllKeys (ids : list Identity) (chs : list Channel) (payload : Payload) : option (MessagePayload * bytes) :=
  match try_identities ids payload with
  | Some r => Some r
  | None => try_channels chs payload
  end.

Context {S : Type} `{Store S} {D : Type} `{MessageDB D}.
Context (ids : list Identity) (chs : list Channel).
(** The times of the calls: the store's clock, the clock of a save, and [scanStart]. *)
Context (now_store now_save scanStart : Z) (blocks : S).
(** Whether the callback for a gift returns, given that gift and, after it, those before. *)
Context (returns : list (bytes * bytes) -> bool).

(** How a scrape is left that a callback does not return to. *)
Definition ErrNoReturn : error := ErrText "callback does not return".

Definition is_nil (b : bytes) : bool := bool_decide (b = []).

(** What a block is: nothing for us, a gift, or a message to save. *)
Inductive verdict :=
  | v_skip
  | v_gift (identityName stamp : bytes)
  | v_message (mp : MessagePayload).

Definition classify (payload : Payload) : verdict :=
  match tryAllKeys ids chs payload with
  | None => v_skip
  | Some (mp, identityName) =>
      let mp := with_decrypted_by identityName mp in
      match (if negb (is_nil identityName) && is_nil (mp_Channel mp) then ParsePowGift (Content mp) else None) with
      | Some stamp => v_gift identityName stamp
      | None => v_message mp
      end
  end.

(** The body of the loop over the references of a page. *)
Definition scrape_ref (ref : BlockRef) (st : scrape_state D) : scrape_state D * option error :=
  match store_Get now_store blocks (br_ID ref) with
  | Err _ => (st, None)
  | Ok (_, payload) =>
      match classify payload with
      | v_skip => (st, None)
      | v_gift name stamp =>
          let gifts := (name, stamp) :: sc_gifts st in
          ({| sc_db := sc_db st; sc_found := sc_found st; sc_gifts := gifts |}, if returns gifts then None else Some ErrNoReturn)
      | v_message mp =>
          match SaveMessage now_save (br_ID ref) mp (sc_db st) with
          | (db, Err e) => ({| sc_db := db; sc_found := sc_found st; sc_gifts := sc_gifts st |}, Some e)
          | (db, Ok inserted) =>
              ({| sc_db := db; sc_found := if inserted then sc_found st + 1 else sc_found st;
                  sc_gifts := sc_gifts st |}, None)
          end
      end
  end.

Fixpoint scrape_refs (refs : list BlockRef) (st : scrape_state D) : scrape_state D * option error :=
  match refs with
  | [] => (st, None)
  | ref :: refs' =>
      match scrape_ref ref st with
      | (st, Some e) => (st, Some e)
      | (st, None) => scrape_refs refs' st
      end
  end.

(** [ctx] gives the state of the context at the top of each page. *)
Fixpoint scrape_pages (fuel : nat) (ctx : nat -> option error) (since : Z) (pageToken : bytes) (st : scrape_state D)
    : option (scrape_state D * option error) :=
  match fuel with
  | O => None
  | Datatypes.S fuel' =>
      match ctx fuel' with
      | Some e => Some (st, Some e)
      | None =>
          match store_ListBlocks now_store blocks pageToken scrapePageSize 0 since with
          | Err e => Some (st, Some e)
          | Ok (nextToken, refs) =>
              match scrape_refs refs st with
              | (st, Some e) => Some (st, Some e)
              | (st, None) =>
                  if decide (nextToken = []) then Some (st, None)
                  else scrape_pages fuel' ctx since nextToken st
              end
          end
      end
  end.

Definition Scrape (fuel : nat) (ctx : nat -> option error) (db : D) : option (scrape_state D * option error) :=
  let st := {| sc_db := db; sc_found := 0; sc_gifts := [] |} in
  match GetCheckpoint db with
  | Err e => Some (st, Some e)
  | Ok since =>
      match scrape_pages fuel ctx (default time_zero since) [] st with
      | Some (st, None) =>
          let '(db, r) := SetCheckpoint scanStart (sc_db st) in
          Some ({| sc_db := db; sc_found := sc_found st; sc_gifts := sc_gifts st |},
                match r with Ok _ => None | Err e => Some e end)
      | r => r
      end
  end.
End Scrape.

(** ** The keys are all tried *)

(** A block is opened by the first identity that can, in the order of the keystore,
    and by the first channel that can only when no identity does; it is skipped exactly
    when no key opens it. *)
Theorem tryAllKeys_spec `{Primitives, Hashes, Ed25519} ids chs payload :
  match tryAllKeys ids chs payload with
  | Some (mp, name) =>
      (exists ids1 id ids2, ids = ids1 ++ id :: ids2 /\ name = id_Name id /\ tryDecrypt (id_SignKey id) payload = Ok mp /\
         Forall (fun i => is_ok (tryDecrypt (id_SignKey i) payload) = false) ids1) \/
      (name = [] /\ Forall (fun i => is_ok (tryDecrypt (id_SignKey i) payload) = false) ids /\
       exists chs1 ch chs2 mp', chs = chs1 ++ ch :: chs2 /\ mp = with_channel (ch_Name ch) mp' /\
         tryDecryptChannel (ch_Key ch) payload = Ok mp' /\
         Forall (fun c => is_ok (tryDecryptChannel (ch_Key c) payload) = false) chs1)
  | None =>
      Forall (fun i => is_ok (tryDecrypt (id_SignKey i) payload) = false) ids /\
      Forall (fun c => is_ok (tryDecryptChannel (ch_Key c) payload) = false) chs
  end.
Proof.
  unfold tryAllKeys.
  assert (match try_identities ids payload with
    | Some (mp, name) => exists ids1 id ids2, ids = ids1 ++ id :: ids2 /\ name = id_Name id /\
        tryDecrypt (id_SignKey id) payload = Ok mp /\ Forall (fun i => is_ok (tryDecrypt (id_SignKey i) payload) = false) ids1
    | None => Forall (fun i => is_ok (tryDecrypt (id_SignKey i) payload) = false) ids end) as Hi.
  { induction ids as [|id ids' IH]; cbn [try_identities]; [constructor|].
    destruct (tryDecrypt (id_SignKey id) payload) as [mp|e] eqn:E; [by exists [], id, ids'|].
    destruct (try_identities ids' payload) as [[mp name]|]; [|constructor; [by rewrite E|done]].
    destruct IH as (ids1 & id' & ids2 & -> & -> & Ht & HF). exists (id :: ids1), id', ids2.
    split_and!; [done|done|done|]. constructor; [by rewrite E|done]. }
  assert (match try_channels chs payload with
    | Some (mp, name) => name = [] /\ exists chs1 ch chs2 mp', chs = chs1 ++ ch :: chs2 /\ mp = with_channel (ch_Name ch) mp' /\
        tryDecryptChannel (ch_Key ch) payload = Ok mp' /\
        Forall (fun c => is_ok (tryDecryptChannel (ch_Key c) payload) = false) chs1
    | None => Forall (fun c => is_ok (tryDecryptChannel (ch_Key c) payload) = false) chs end) as Hc.
  { clear Hi. induction chs as [|ch chs' IH]; cbn [try_channels]; [constructor|].
    destruct (tryDecryptChannel (ch_Key ch) payload) as [mp|e] eqn:E; [split; [done|]; by exists [], ch, chs', mp|].
    destruct (try_channels chs' payload) as [[mp name]|]; [|constructor; [by rewrite E|done]].
    destruct IH as (-> & chs1 & ch' & chs2 & mp' & -> & -> & Ht & HF). split; [done|].
    exists (ch :: chs1), ch', chs2, mp'. split_and!; [done|done|done|]. constructor; [by rewrite E|done]. }
  destruct (try_identities ids payload) as [[mp name]|]; [by left|].
  destruct (try_channels chs payload) as [[mp name]|]; [right; tauto|done].
Qed.

(** ** What a scrape does to the database *)

Section Database.
Context `{Primitives, Hashes, Ed25519} {S : Type} `{Store S} {D : Type} `{MessageDBLaws D}.
Context (ids : list Identity) (chs : list Channel) (now_store now_save scanStart : Z) (blocks : S).
Context (returns : list (bytes * bytes) -> bool).

#[local] Abbreviation ids_of db := (row_block_id <$> db_rows db).

Lemma SaveMessage_rows now id mp (db : D) :
  let '(db', r) := SaveMessage now id mp db in
  db_since db' = db_since db /\
  (exists new, db_rows db' = db_rows db ++ new /\ Forall (fun r => exists i, r = with_id i (message_row now id mp)) new) /\
  (forall b, r = Ok b -> id ∈ ids_of db' /\
     Z.of_nat (length (db_rows db')) = Z.of_nat (length (db_rows db)) + (if b then 1 else 0)).
Proof using All.
  unfold SaveMessage. destruct (db_insert (message_row now id mp) db) as [db' [n|e]] eqn:E;
    apply db_insert_spec in E as (Hs & _ & E).
  - split; [done|]. case_decide as Hin.
    + destruct E as [-> Hr]. rewrite Hr. split; [exists []; by rewrite app_nil_r|]. intros b <-%(inj Ok). split; [done|].
      change (0 <? 0) with false. cbv iota. lia.
    + destruct E as (-> & i & _ & Hr). rewrite Hr. split; [eexists; split; [done|]; apply Forall_singleton; eauto|]. intros b <-%(inj Ok).
      change (0 <? 1) with true. cbv iota. split.
      * rewrite fmap_app. apply elem_of_app. right. by apply list_elem_of_singleton.
      * rewrite length_app. cbn. lia.
  - split; [done|]. split; [exists []; by rewrite app_nil_r|done].
Qed.

(** A row a scrape may add: a message of a block of the store that one of the keys opens. *)
Definition from_store (r : row) : Prop :=
  exists i id stamp payload mp, store_Get now_store blocks id = Ok (stamp, payload) /\
    classify ids chs payload = v_message mp /\ r = with_id i (message_row now_save id mp).

(** The progress of a scrape between two states. *)
Definition grows (st st' : scrape_state D) : Prop :=
  db_since (sc_db st') = db_since (sc_db st) /\
  (exists new, db_rows (sc_db st') = db_rows (sc_db st) ++ new /\ Forall from_store new) /\
  (Z.of_nat (length (db_rows (sc_db st'))) - sc_found st' = Z.of_nat (length (db_rows (sc_db st))) - sc_found st).

Lemma grows_refl st : grows st st.
Proof using All. split_and!; [done|exists []; by rewrite app_nil_r|done]. Qed.

Lemma grows_trans st1 st2 st3 : grows st1 st2 -> grows st2 st3 -> grows st1 st3.
Proof using All.
  intros (Hs1 & (n1 & Hn1 & F1) & Hf1) (Hs2 & (n2 & Hn2 & F2) & Hf2). split_and!; [congruence| |lia].
  exists (n1 ++ n2). split; [by rewrite Hn2, Hn1, app_assoc|by apply Forall_app].
Qed.

Lemma grows_elem st st' id : grows st st' -> id ∈ ids_of (sc_db st) -> id ∈ ids_of (sc_db st').
Proof using All. intros (_ & (new & -> & _) & _) Hin. rewrite fmap_app. apply elem_of_app. by left. Qed.

(** A message of the given block is in the database. *)
Definition handled (db : D) (id : ID) : Prop :=
  forall stamp payload mp, store_Get now_store blocks id = Ok (stamp, payload) ->
    classify ids chs payload = v_message mp -> id ∈ ids_of db.

#[local] Abbreviation scrape_one := (scrape_ref ids chs now_store now_save blocks returns).
#[local] Abbreviation scrape_page := (scrape_refs ids chs now_store now_save blocks returns).

Lemma scrape_ref_grows ref st :
  let '(st', e) := scrape_one ref st in
  db_since (sc_db st') = db_since (sc_db st) /\
  (e = None -> grows st st' /\ handled (sc_db st') (br_ID ref)).
Proof using All.
  unfold scrape_ref. destruct (store_Get now_store blocks (br_ID ref)) as [[stamp payload]|e] eqn:Eg;
    [|split; [done|]; intros _; split; [apply grows_refl|]; by intros ?????; rewrite Eg in *].
  destruct (classify ids chs payload) as [|name s|mp] eqn:Ec.
  - split; [done|]. intros _. split; [apply grows_refl|]. intros s p mp' Hg Hc. rewrite Eg in Hg. by injection Hg as <- <-; rewrite Ec in Hc.
  - split; [done|]. intros _. split.
    + split_and!; cbn; [done|exists []; by rewrite app_nil_r|done].
    + intros s' p mp' Hg Hc. rewrite Eg in Hg. injection Hg as <- <-. by rewrite Ec in Hc.
  - pose proof (SaveMessage_rows now_save (br_ID ref) mp (sc_db st)) as Hs.
    destruct (SaveMessage now_save (br_ID ref) mp (sc_db st)) as [db' [b|e]]; destruct Hs as (Hs1 & Hs2 & Hs3); cbn [sc_db].
    + split; [done|]. intros _. destruct (Hs3 b eq_refl) as [Hin Hlen]. split; [|by intros ????].
      split_and!; cbn [sc_db sc_found]; [done| |destruct b; lia]. destruct Hs2 as (new & Hn & HF). exists new. split; [done|].
      eapply Forall_impl; [exact HF|]. intros r [i ->]. exists i, (br_ID ref), stamp, payload, mp. done.
    + by split.
Qed.

Lemma scrape_refs_grows refs st :
  let '(st', e) := scrape_page refs st in
  db_since (sc_db st') = db_since (sc_db st) /\
  (e = None -> grows st st' /\ Forall (fun r => handled (sc_db st') (br_ID r)) refs).
Proof using All.
  revert st. induction refs as [|r refs IH]; intros st; cbn [scrape_refs].
  - split; [done|]. intros _. split; [apply grows_refl|constructor].
  - pose proof (scrape_ref_grows r st) as Hr. destruct (scrape_one r st) as [st1 [e|]]; destruct Hr as [Hs1 Hr]; [by split|].
    destruct (Hr eq_refl) as [Hg1 Hh1]. specialize (IH st1).
    destruct (scrape_page refs st1) as [st2 e]. destruct IH as [Hs2 IH]. split; [congruence|]. intros He.
    destruct (IH He) as [Hg2 Hh2]. split; [by eapply grows_trans|]. constructor; [|done].
    intros s p mp Hget Hc. eapply grows_elem; [done|]. by eapply Hh1.
Qed.

(** *** All pages *)

Lemma Unix_time_zero_s64 : in_s64 (Unix time_zero).
Proof using Type. split; vm_compute; congruence. Qed.

Context (HL : StoreLaws S) (Hinv : store_inv blocks).

Lemma scrape_pages_spec fuel ctx since token cur st :
  in_s64 (Unix since) -> valid_token (store_index blocks) token cur ->
  (length (remaining (store_index blocks) 0 (Unix since) cur) < fuel)%nat ->
  exists st' e, scrape_pages ids chs now_store now_save blocks returns fuel ctx since token st = Some (st', e) /\
    db_since (sc_db st') = db_since (sc_db st) /\
    (e = None -> grows st st' /\
       Forall (fun en => handled (sc_db st') (cur_id (en_cursor en))) (remaining (store_index blocks) 0 (Unix since) cur)).
Proof using All.
  intros Hsince. revert token cur st. induction fuel as [|fuel IH]; intros token cur st Htok Hf; [lia|].
  cbn [scrape_pages]. destruct (ctx fuel) as [e|]; [by exists st, (Some e)|].
  destruct (store_ListBlocks now_store blocks token scrapePageSize 0 since) as [[next refs]|e] eqn:El;
    [|by exists st, (Some e)].
  pose proof (scrape_refs_grows refs st) as Hg. destruct (scrape_page refs st) as [st1 [e|]]; destruct Hg as [Hs1 Hg];
    [by exists st1, (Some e)|]. destruct (Hg eq_refl) as [Hg1 Hh1].
  assert (forall ens, ref_view <$> refs = entry_view <$> ens -> forall st2, grows st1 st2 ->
    Forall (fun en => handled (sc_db st2) (cur_id (en_cursor en))) ens) as Hens.
  { intros ens Hv st2 Hg2. apply Forall_forall. intros en Hen. assert (entry_view en ∈ ref_view <$> refs) as Hin
      by (rewrite Hv; by apply list_elem_of_fmap_2).
    apply list_elem_of_fmap in Hin as (r & Hr & Hin). rewrite Forall_forall in Hh1. specialize (Hh1 r Hin).
    injection Hr as Hid _. rewrite Hid. intros s p mp Hget Hc. eapply grows_elem; [done|]. by eapply Hh1. }
  destruct (page_step now_store blocks scrapePageSize 0 since Hinv eq_refl Hsince _ _ _ _ Htok El)
    as [[-> Hv]|(en & -> & Hen & Hv & Hlt)].
  - exists st1, None. split_and!; [done|done|]. intros _. split; [done|]. apply Hens; [done|apply grows_refl].
  - rewrite decide_False by apply encodeCursor_not_nil.
    destruct (IH (encodeCursor (en_cursor en)) (Some (en_cursor en)) st1) as (st' & e & -> & Hs' & Hok);
      [by constructor|lia|].
    exists st', e. split_and!; [done|congruence|]. intros He. destruct (Hok He) as [Hg' Hh'].
    split; [by eapply grows_trans|].
    set (rest := remaining (store_index blocks) 0 (Unix since)) in *.
    apply Forall_forall. intros x Hx. rewrite Forall_forall in Hh'.
    assert (entry_view x ∈ (ref_view <$> refs) ++ (entry_view <$> rest (Some (en_cursor en)))) as Hin
      by (rewrite <- Hv; by apply list_elem_of_fmap_2).
    apply elem_of_app in Hin as [Hin|Hin].
    + apply list_elem_of_fmap in Hin as (r & Hr & Hin). rewrite Forall_forall in Hh1. specialize (Hh1 r Hin).
      injection Hr as Hid _. rewrite Hid. intros s p mp Hget Hc. eapply grows_elem; [done|]. by eapply Hh1.
    + apply list_elem_of_fmap in Hin as (y & Hy & Hin). injection Hy as Hid _. rewrite Hid. by apply Hh'.
Qed.

(** The time a scrape starts from. *)
Definition scrape_since (db : D) : Z := if db_since db =? 0 then Unix time_zero else db_since db.

(** How a scrape runs: it ends; without an error it has handled all blocks since the checkpoint. *)
Lemma Scrape_runs fuel ctx db :
  in_s64 (db_since db) -> (length (store_index blocks) < fuel)%nat ->
  exists st e, Scrape ids chs now_store now_save scanStart blocks returns fuel ctx db = Some (st, e) /\
    match e with
    | Some _ => db_since (sc_db st) = db_since db
    | None => db_since (sc_db st) = Unix scanStart /\
        (exists new, db_rows (sc_db st) = db_rows db ++ new /\ sc_found st = Z.of_nat (length new) /\ Forall from_store new) /\
        Forall (fun en => handled (sc_db st) (cur_id (en_cursor en))) (remaining (store_index blocks) 0 (scrape_since db) None)
    end.
Proof using All.
  intros Hr Hf. unfold Scrape, GetCheckpoint. destruct (db_get_since db) as [z|e] eqn:Ez; [|by eexists _, _].
  apply db_get_since_spec in Ez. subst z.
  set (since := default time_zero (if db_since db =? 0 then None else Some (time_Unix (db_since db)))).
  assert (Unix since = scrape_since db) as Hsince.
  { unfold since, scrape_since. destruct (db_since db =? 0); [done|]. cbn. apply Unix_time_Unix. }
  assert (in_s64 (Unix since)) as Hs64.
  { rewrite Hsince. unfold scrape_since. destruct (db_since db =? 0); [apply Unix_time_zero_s64|exact Hr]. }
  assert ((if db_since db =? 0 then Ok None else Ok (Some (time_Unix (db_since db))))
    = Ok (if db_since db =? 0 then None else Some (time_Unix (db_since db)))) as -> by by destruct (db_since db =? 0).
  fold since.
  destruct (scrape_pages_spec fuel ctx since [] None {| sc_db := db; sc_found := 0; sc_gifts := [] |} Hs64 (token_start _))
    as (st & e & Hp & Hdb & Hok).
  { eapply Nat.le_lt_trans; [apply length_filter|done]. }
  cbn [sc_db] in Hdb. rewrite Hp. destruct e as [e|]; [by eexists _, _|].
  destruct (Hok eq_refl) as [(Hgs & (new & Hnew & HF) & Hcount) Hh]. cbn [sc_db sc_found] in *. rewrite Hsince in Hh.
  unfold SetCheckpoint. destruct (db_set_since (Unix scanStart) (sc_db st)) as [db' r] eqn:Eset.
  apply db_set_since_spec in Eset as (Hrows & _ & Hset). destruct r as [[]|e]; eexists _, _; (split; [done|]); cbn [sc_db sc_found].
  - split_and!; [done| |].
    + exists new. split_and!; [congruence| |done]. rewrite Hnew, length_app in Hcount. lia.
    + eapply Forall_impl; [exact Hh|]. intros en Hen s p mp Hget Hcl. rewrite Hrows. by eapply Hen.
  - congruence.
Qed.

(** A scrape that ends without an error has the message of every block it can open. *)
Lemma Scrape_finds fuel ctx db en stamp payload mp :
  in_s64 (db_since db) -> (length (store_index blocks) < fuel)%nat ->
  en ∈ store_index blocks -> scrape_since db <= cur_createdAt (en_cursor en) -> 0 <= en_wf en ->
  store_Get now_store blocks (cur_id (en_cursor en)) = Ok (stamp, payload) -> classify ids chs payload = v_message mp ->
  (cur_id (en_cursor en) ∉ ids_of db) ->
  exists st e, Scrape ids chs now_store now_save scanStart blocks returns fuel ctx db = Some (st, e) /\
    (e = None -> exists i, with_id i (message_row now_save (cur_id (en_cursor en)) mp) ∈ db_rows (sc_db st)).
Proof using All.
  intros Hr Hf Hen Hc Hwf Hget Hcl Hnew. destruct (Scrape_runs fuel ctx db Hr Hf) as (st & e & E & He). exists st, e. split; [exact E|].
  intros ->. destruct He as (_ & (new & Hrows & _ & HF) & Hall). rewrite Forall_forall in Hall; rewrite Forall_forall in HF.
  assert (cur_id (en_cursor en) ∈ ids_of (sc_db st)) as Hin.
  { eapply (Hall en); [|done|done]. apply list_elem_of_filter. split; [|done].
    unfold listed, meets. cbn [after]. rewrite andb_true_l, andb_true_iff, !Z.leb_le. done. }
  rewrite Hrows, fmap_app in Hin. apply elem_of_app in Hin as [|(r & Hi & Hrow)%list_elem_of_fmap]; [done|].
  destruct (HF r Hrow) as (i & id & s & p & m & Hg & Hm & ->). cbn in Hi. subst id. rewrite Hget in Hg. apply (inj Ok), pair_eq in Hg as [<- <-].
  rewrite Hcl in Hm. injection Hm as <-. exists i. rewrite Hrows. apply elem_of_app. by right.
Qed.

(** C3: A scrape loses no message and invents none.  It ends within one page more than there
    are blocks.  When it reports no error, every block created since the last checkpoint that
    can be read and holds a message for one of the keys is in the database, every row it added
    is the message of a block of the store, the count it returns is the number of rows added,
    and the checkpoint is the time the scrape began.  When it reports an error, or the callback
    for a gift does not return, the checkpoint is what it was, so that the next scrape starts
    over from there. *)
Theorem Scrape_complete fuel ctx db :
  in_s64 (db_since db) -> (length (store_index blocks) < fuel)%nat ->
  exists st e, Scrape ids chs now_store now_save scanStart blocks returns fuel ctx db = Some (st, e) /\
    match e with
    | Some _ => db_since (sc_db st) = db_since db
    | None =>
        db_since (sc_db st) = Unix scanStart /\
        (exists new, db_rows (sc_db st) = db_rows db ++ new /\ sc_found st = Z.of_nat (length new) /\ Forall from_store new) /\
        forall en, en ∈ store_index blocks ->
          (if db_since db =? 0 then Unix time_zero else db_since db) <= cur_createdAt (en_cursor en) ->
          0 <= en_wf en -> handled (sc_db st) (cur_id (en_cursor en))
    end.
Proof using All.
  intros Hr Hf. destruct (Scrape_runs fuel ctx db Hr Hf) as (st & e & E & He). exists st, e. split; [exact E|].
  destruct e as [e|]; [done|]. destruct He as (Hs & Hnew & Hall). split_and!; [done|done|].
  intros en Hen Hc Hwf. rewrite Forall_forall in Hall. apply Hall, list_elem_of_filter. split; [|done].
  unfold listed, meets. cbn [after]. rewrite andb_true_l, andb_true_iff, !Z.leb_le. unfold scrape_since. lia.
Qed.
End Database.

(** ** At concrete inputs *)

Module ClientDemo.
Import MessageFacts CryptoFacts KeystoreFacts FlatFile FlatFileFacts FlatFileFacts.Demo MessageStoreDemo.
#[local] Existing Instances ref_Primitives ref_Hashes ref_HashesLaws ref_Ed25519 ref_GoFloat.

Lemma Scrape_complete_witness : exists st,
  Scrape [KeystoreDemo.alice] [KeystoreDemo.news] 0 5 (time_Unix 9) one (fun _ => true) 2 (fun _ => None) fresh = Some (st, None) /\
  db_since (sc_db st) = Unix (time_Unix 9).
Proof.
  destruct (Scrape_complete [KeystoreDemo.alice] [KeystoreDemo.news] 0 5 (time_Unix 9) one (fun _ => true) FlatFile_StoreLaws one_inv
    2 (fun _ => None) fresh) as (st & e & Hs & He).
  - split; vm_compute; congruence.
  - change (store_index one) with (flat_index one). rewrite one_index. cbn. lia.
  - exists st. destruct e as [e|].
    + exfalso. vm_compute in Hs. discriminate Hs.
    + split; [exact Hs|exact (proj1 He)].
Defined.
End ClientDemo.
