(* ===== verification/Bluetooth.v ===== *)
(** The Bluetooth block exchange ([transport/bluetooth/session.go]): frames, the sender
    and the receiver of a session, the channel that joins them and the exchange of relay
    URLs.  The sender reads a snapshot of the store. *)
From Stdlib Require Import String.
From S2P Require Import Prelude Codec Block Store Bloom.

Definition frameBloom : byte := x01.
Definition frameBlock : byte := x02.
Definition frameDone : byte := x03.
Definition framePeers : byte := x04.

Definition maxGossipPeers : nat := 20.
Definition maxFrameLen : Z := Z.shiftl 1 20.
Definition blockFrameSize : nat := StampSize + PayloadSize.

Arguments blockFrameSize : simpl never.

(** ** Streams *)

(** An [io.Writer] over a connection that breaks after [w_room] more bytes, if ever. *)
Record Writer := { w_out : bytes; w_room : option nat }.

Definition broken_pipe : error := ErrText "write: broken pipe".

Definition Write (p : bytes) (w : Writer) : Writer * result unit :=
  match w_room w with
  | None => ({| w_out := w_out w ++ p; w_room := None |}, Ok tt)
  | Some n =>
      if (length p <=? n)%nat
      then ({| w_out := w_out w ++ p; w_room := Some (n - length p)%nat |}, Ok tt)
      else ({| w_out := w_out w ++ take n p; w_room := Some 0%nat |}, Err broken_pipe)
  end.

(** An [io.Reader]: the bytes still to come, and how the stream ends. *)
Record Reader := { rd_data : bytes; rd_end : error }.

Definition ErrUnexpectedEOF : error := ErrText "unexpected EOF".

(** [io.ReadFull] of [n] bytes, [n] positive. *)
Definition ReadFull (n : nat) (r : Reader) : result bytes * Reader :=
  let rest := {| rd_data := drop n (rd_data r); rd_end := rd_end r |} in
  if (n <=? length (rd_data r))%nat then (Ok (take n (rd_data r)), rest)
  else (Err (if decide (rd_end r = ErrEOF /\ rd_data r <> []) then ErrUnexpectedEOF else rd_end r), rest).

(** ** Frames *)

(** [type: 1][length: 4 BE][data: length] *)
Definition frame_header (ftype : byte) (data : bytes) : bytes :=
  ftype :: be_encode 4 (to_u32 (Z.of_nat (length data))).

Definition writeFrame (ftype : byte) (data : bytes) (w : Writer) : Writer * result unit :=
  match Write (frame_header ftype data) w with
  | (w, Err e) => (w, Err e)
  | (w, Ok _) => if (0 <? length data)%nat then Write data w else (w, Ok tt)
  end.

Definition frame_too_large : error := ErrText "bluetooth: frame too large".

Definition readFrame (r : Reader) : result (byte * bytes) * Reader :=
  match ReadFull 5 r with
  | (Err e, r) => (Err e, r)
  | (Ok header, r) =>
      let ftype := header !!! 0%nat in
      let length := be_decode (slice 1 4 header) in
      if maxFrameLen <? length then (Err frame_too_large, r)
      else if length =? 0 then (Ok (ftype, []), r)
      else
        match ReadFull (Z.to_nat length) r with
        | (Err e, r) => (Err e, r)
        | (Ok data, r) => (Ok (ftype, data), r)
        end
  end.

(** ** The sender *)

(** What the [select] on the context and the channel of filters yields. *)
Inductive bloom_event :=
  | ev_Done
  | ev_Closed
  | ev_Bloom (pb : Bloom).

Section Sender.
Context {S : Type} `{Store S}.
Context (now : Z) (store : S).

Definition block_frame (stamp : Stamp) (payload : Payload) : bytes :=
  let frame := replicate blockFrameSize x00 in
  let frame := copy_at 0 stamp frame in
  copy_at StampSize payload frame.

(** The body of the loop over the references of a page. *)
Fixpoint send_refs (peerBloom : Bloom) (refs : list BlockRef) (w : Writer) : Writer * result unit :=
  match refs with
  | [] => (w, Ok tt)
  | ref :: refs' =>
      if Has peerBloom (br_ID ref) (br_WorkFactor ref) then send_refs peerBloom refs' w
      else
        match store_Get now store (br_ID ref) with
        | Err _ => send_refs peerBloom refs' w
        | Ok (stamp, payload) =>
            match writeFrame frameBlock (block_frame stamp payload) w with
            | (w, Err e) => (w, Err (ErrWrap "bluetooth send: write block" e))
            | (w, Ok _) => send_refs peerBloom refs' w
            end
        end
  end.

(** The loop over the pages; [ctx] tells whether the context is done at the top of each. *)
Fixpoint send_pages (fuel : nat) (ctx : nat -> bool) (peerBloom : Bloom) (pageToken : bytes) (w : Writer)
    : option (Writer * result unit) :=
  match fuel with
  | O => None
  | Datatypes.S fuel' =>
      if ctx fuel' then Some (w, Ok tt)
      else
        match store_ListBlocks now store pageToken 100 0 time_zero with
        | Err _ => Some (w, Ok tt)
        | Ok (next, refs) =>
            match send_refs peerBloom refs w with
            | (w, Err e) => Some (w, Err e)
            | (w, Ok _) =>
                if decide (next = []) then Some (w, Ok tt)
                else send_pages fuel' ctx peerBloom next w
            end
        end
  end.

(** [bloom_fuel] bounds the pages of the filter's construction, [fuel] those sent. *)
Definition runSend (bloom_fuel fuel : nat) (ctx : nat -> bool) (ev : bloom_event) (w : Writer)
    : option (Writer * result unit) :=
  match BloomOfStore now store bloom_fuel with
  | None => None
  | Some (Err e) => Some (w, Err (ErrWrap "bluetooth send: build bloom" e))
  | Some (Ok bloom) =>
      match writeFrame frameBloom (Bytes bloom) w with
      | (w, Err e) => Some (w, Err (ErrWrap "bluetooth send: write bloom" e))
      | (w, Ok _) =>
          match ev with
          | ev_Done => Some (fst (writeFrame frameDone [] w), Err ErrCanceled)
          | ev_Closed => Some (w, Ok tt)
          | ev_Bloom peerBloom =>
              match send_pages fuel ctx peerBloom [] w with
              | None => None
              | Some (w, Err e) => Some (w, Err e)
              | Some (w, Ok _) => Some (writeFrame frameDone [] w)
              end
          end
      end
  end.
End Sender.

(** ** The receiver *)

(** What the receiver does to the channel of filters. *)
Inductive chan_action :=
  | ch_send (pb : Bloom)
  | ch_close.

Definition bad_block_size (n : nat) : error := ErrText "bluetooth recv: bad block frame size".
Definition unknown_frame (t : byte) : error := ErrText "bluetooth recv: unknown frame type".

Section Receiver.
Context {S : Type} `{Store S}.
Context (now : Z).

(** The loop of [runRecv]: the final store, the actions on the channel in order, and
    the result.  Every round but the last reads a frame, so the fuel that suffices is
    the number of bytes to come and one. *)
Fixpoint recv_loop (fuel : nat) (r : Reader) (store : S) (bloomDelivered : bool)
    : option (S * list chan_action * result unit) :=
  match fuel with
  | O => None
  | Datatypes.S fuel' =>
      match readFrame r with
      | (Err e, _) => Some (store, if bloomDelivered then [] else [ch_close], Err e)
      | (Ok (ftype, data), r) =>
          if decide (ftype = frameBloom) then
            match BloomFromBytes data with
            | Err e => Some (store, [ch_close], Err (ErrWrap "bluetooth recv: parse bloom" e))
            | Ok pb =>
                '(store', acts, res) ← recv_loop fuel' r store true;
                Some (store', ch_send pb :: acts, res)
            end
          else if decide (ftype = frameBlock) then
            if negb (length data =? blockFrameSize)%nat
            then Some (store, [], Err (bad_block_size (length data)))
            else
              let stamp := copy_at 0 (take StampSize data) (replicate StampSize x00) in
              let payload := copy_at 0 (drop StampSize data) (replicate PayloadSize x00) in
              recv_loop fuel' r (fst (store_Put now stamp payload TagBluetooth store)) bloomDelivered
          else if decide (ftype = frameDone) then Some (store, [], Ok tt)
          else Some (store, [], Err (unknown_frame ftype))
      end
  end.

Definition runRecv (r : Reader) (store : S) : option (S * list chan_action * result unit) :=
  recv_loop (Datatypes.S (length (rd_data r))) r store false.
End Receiver.

(** ** The channel that joins them

    [Run] starts both sides and waits for both.  The sender receives from the channel,
    whose capacity is one, exactly once; the receiver acts on it in its order. *)

Record rendezvous := {
  rv_event : option bloom_event;   (* what the sender received, if it no longer waits *)
  rv_acts : list chan_action;      (* what the receiver has still to do *)
  rv_buf : list Bloom;
  rv_closed : bool;
}.

Definition rv_start (acts : list chan_action) : rendezvous :=
  {| rv_event := None; rv_acts := acts; rv_buf := []; rv_closed := false |}.

Definition chan_cap : nat := 1.

(** Steps while the context is not done. *)
Inductive rv_step : rendezvous -> rendezvous -> Prop :=
  | rv_recv_send ev pb acts buf closed :
      (length buf < chan_cap)%nat ->
      rv_step {| rv_event := ev; rv_acts := ch_send pb :: acts; rv_buf := buf; rv_closed := closed |}
              {| rv_event := ev; rv_acts := acts; rv_buf := buf ++ [pb]; rv_closed := closed |}
  | rv_recv_close ev acts buf closed :
      rv_step {| rv_event := ev; rv_acts := ch_close :: acts; rv_buf := buf; rv_closed := closed |}
              {| rv_event := ev; rv_acts := acts; rv_buf := buf; rv_closed := true |}
  | rv_sender_gets acts pb buf closed :
      rv_step {| rv_event := None; rv_acts := acts; rv_buf := pb :: buf; rv_closed := closed |}
              {| rv_event := Some (ev_Bloom pb); rv_acts := acts; rv_buf := buf; rv_closed := closed |}
  | rv_sender_closed acts :
      rv_step {| rv_event := None; rv_acts := acts; rv_buf := []; rv_closed := true |}
              {| rv_event := Some ev_Closed; rv_acts := acts; rv_buf := []; rv_closed := true |}.

Definition rv_stuck (st : rendezvous) : Prop := forall st', ~ rv_step st st'.

(** ** Relay URLs

    [encoding/json] of a list of strings. *)
Class JsonStrings := {
  json_Marshal_strings : list bytes -> bytes;
  json_Unmarshal_strings : bytes -> list bytes;
}.

(** The connection carries the frame written by this side and the one read from the
    peer; [w] writes, [r] reads. *)
Definition exchangePeers `{JsonStrings} (knownPeers : list bytes) (w : Writer) (r : Reader) : list bytes :=
  let knownPeers := if (maxGossipPeers <? length knownPeers)%nat then take maxGossipPeers knownPeers else knownPeers in
  let data := json_Marshal_strings knownPeers in
  let '(_, written) := writeFrame framePeers data w in
  let '(readRes, _) := readFrame r in
  match written, readRes with
  | Ok _, Ok (ftype, peerData) => if decide (ftype = framePeers) then json_Unmarshal_strings peerData else []
  | _, _ => []
  end.

(** [Run], from how its two sides end: the exchange of URLs comes only after both ended
    without an error. *)
Definition Run `{JsonStrings} (recvErr sendErr : result unit) (knownPeers : list bytes) (w : Writer) (r : Reader)
    : result (list bytes) :=
  _ ← recvErr;
  _ ← sendErr;
  Ok (exchangePeers knownPeers w r).
