(* ===== verification/BluetoothFacts.v ===== *)
(** Frames survive the wire; a session delivers what the peer lacks; how the two sides
    of a session wait for each other. *)
From Stdlib Require Import String.
From S2P Require FlatFile FlatFileFacts.
From S2P Require Import Prelude Codec Block Store Bloom Bluetooth.

(** ** Frames *)

Definition frame (ftype : byte) (data : bytes) : bytes := frame_header ftype data ++ data.

Definition fits (data : bytes) : Prop := Z.of_nat (length data) <= maxFrameLen.

Definition open_writer (out : bytes) : Writer := {| w_out := out; w_room := None |}.

Lemma writeFrame_open t d out : writeFrame t d (open_writer out) = (open_writer (out ++ frame t d), Ok tt).
Proof.
  unfold writeFrame, Write, open_writer, frame. cbn [w_room w_out].
  destruct (Nat.ltb_spec 0 (length d)) as [|Hl]; [by rewrite app_assoc|].
  destruct d; [by rewrite app_nil_r|cbn in Hl; lia].
Qed.

Lemma length_frame_header t d : length (frame_header t d) = 5%nat.
Proof. unfold frame_header. cbn [length]. by rewrite length_be_encode. Qed.

Lemma ReadFull_app l rest e n : length l = n ->
  ReadFull n {| rd_data := l ++ rest; rd_end := e |} = (Ok l, {| rd_data := rest; rd_end := e |}).
Proof.
  intros <-. unfold ReadFull. cbn [rd_data rd_end]. rewrite length_app.
  rewrite (proj2 (Nat.leb_le _ _)) by lia. by rewrite take_app_length, drop_app_length.
Qed.

Lemma ReadFull_short l e n : (length l < n)%nat ->
  ReadFull n {| rd_data := l; rd_end := e |}
  = (Err (if decide (e = ErrEOF /\ l <> []) then ErrUnexpectedEOF else e), {| rd_data := []; rd_end := e |}).
Proof.
  intros Hl. unfold ReadFull. cbn [rd_data rd_end].
  rewrite (proj2 (Nat.leb_gt _ _)) by lia. by rewrite drop_ge by lia.
Qed.

Lemma header_fields t d : fits d ->
  frame_header t d !!! 0%nat = t /\ be_decode (slice 1 4 (frame_header t d)) = Z.of_nat (length d).
Proof.
  unfold fits, maxFrameLen. change (Z.shiftl 1 20) with 1048576. intros Hf. split; [done|].
  unfold frame_header.
  change (t :: be_encode 4 (to_u32 (Z.of_nat (length d))))
    with ([t] ++ be_encode 4 (to_u32 (Z.of_nat (length d)))).
  rewrite slice_app_r by done. change (1 - length [t])%nat with 0%nat.
  rewrite slice_all by apply length_be_encode. rewrite be_u32_roundtrip; unfold to_u32.
  - apply Z.mod_small. lia.
  - apply Z.mod_pos_bound. lia.
Qed.

Lemma readFrame_frame t d rest e : fits d ->
  readFrame {| rd_data := frame t d ++ rest; rd_end := e |} = (Ok (t, d), {| rd_data := rest; rd_end := e |}).
Proof.
  intros Hf. destruct (header_fields t d Hf) as [Ht Hl]. unfold readFrame, frame.
  rewrite <- app_assoc, ReadFull_app by apply length_frame_header. cbn zeta. rewrite Ht, Hl.
  unfold fits in Hf. rewrite (proj2 (Z.ltb_ge _ _)) by lia.
  destruct (Z.eqb_spec (Z.of_nat (length d)) 0) as [Hz|Hz].
  - destruct d; [done|cbn in Hz; lia].
  - by rewrite ReadFull_app by lia.
Qed.

(** A frame cut short yields an error. *)
Lemma readFrame_prefix t d n e : fits d -> (n < length (frame t d))%nat ->
  exists err r, readFrame {| rd_data := take n (frame t d); rd_end := e |} = (Err err, r).
Proof.
  intros Hf Hn. pose proof (length_frame_header t d) as Hh. destruct (header_fields t d Hf) as [Ht Hl].
  unfold frame in *. rewrite length_app, Hh in Hn. unfold readFrame.
  destruct (decide (n < 5)%nat) as [Hs|Hs].
  - rewrite ReadFull_short by (rewrite length_take; lia). eauto.
  - rewrite take_app_ge by (rewrite Hh; lia). rewrite ReadFull_app by done. cbn zeta. rewrite Ht, Hl.
    unfold fits in Hf. rewrite (proj2 (Z.ltb_ge _ _)) by lia. rewrite (proj2 (Z.eqb_neq _ _)) by lia.
    rewrite ReadFull_short by (rewrite length_take; lia). eauto.
Qed.

Lemma Write_prefix p w : exists k,
  w_out (fst (Write p w)) = w_out w ++ take k p /\
  (snd (Write p w) = Ok tt -> w_out (fst (Write p w)) = w_out w ++ p) /\
  (snd (Write p w) <> Ok tt -> (k < length p)%nat).
Proof.
  unfold Write. destruct (w_room w) as [n|]; [destruct (Nat.leb_spec (length p) n)|].
  - exists (length p). cbn [fst snd w_out]. by rewrite firstn_all.
  - exists n. cbn [fst snd w_out]. split_and!; [done|done|lia].
  - exists (length p). cbn [fst snd w_out]. by rewrite firstn_all.
Qed.

(** What is on the wire after a write that failed is a proper prefix of the frame. *)
Lemma writeFrame_prefix t d w :
  match writeFrame t d w with
  | (w', Ok _) => w_out w' = w_out w ++ frame t d
  | (w', Err _) => exists n, (n < length (frame t d))%nat /\ w_out w' = w_out w ++ take n (frame t d)
  end.
Proof.
  pose proof (length_frame_header t d) as Hh. unfold writeFrame, frame.
  destruct (Write_prefix (frame_header t d) w) as (k & Hk & Hok & Hlt).
  destruct (Write (frame_header t d) w) as [w1 [[]|e]] eqn:E1; cbn [fst snd] in *.
  - specialize (Hok eq_refl). destruct (Nat.ltb_spec 0 (length d)) as [Hd|Hd]; cbn [fst snd].
    + destruct (Write_prefix d w1) as (k' & Hk' & Hok' & Hlt').
      destruct (Write d w1) as [w2 [[]|e]]; cbn [fst snd] in *.
      * by rewrite (Hok' eq_refl), Hok, app_assoc.
      * exists (5 + k')%nat. specialize (Hlt' ltac:(done)). rewrite length_app, Hh. split; [lia|].
        rewrite Hk', Hok, <- app_assoc. done.
    + rewrite Hok. destruct d; [by rewrite app_nil_r|cbn in Hd; lia].
  - specialize (Hlt ltac:(done)). exists k. rewrite length_app. split; [lia|].
    rewrite Hk. f_equal. by rewrite take_app_le by lia.
Qed.

(** ** What the sender writes *)

Section Sending.
Context {S : Type} `{StoreLaws S}.
Context (now : Z) (store : S) (pb : Bloom).

(** The blocks of a listing that the peer's filter does not report and that can be read. *)
Definition to_send (l : list (ID * Z)) : list (Stamp * Payload) :=
  omap (fun v => if Has pb v.1 v.2 then None
                 else match store_Get now store v.1 with Ok sp => Some sp | Err _ => None end) l.

Definition block_frames (l : list (Stamp * Payload)) : bytes :=
  concat ((fun sp => frame frameBlock (block_frame sp.1 sp.2)) <$> l).

Lemma block_frames_app l1 l2 : block_frames (l1 ++ l2) = block_frames l1 ++ block_frames l2.
Proof. unfold block_frames. by rewrite fmap_app, concat_app. Qed.

Lemma to_send_app l1 l2 : to_send (l1 ++ l2) = to_send l1 ++ to_send l2.
Proof. apply omap_app. Qed.

Lemma send_refs_open refs out :
  send_refs now store pb refs (open_writer out)
  = (open_writer (out ++ block_frames (to_send (ref_view <$> refs))), Ok tt).
Proof using Type.
  revert out. induction refs as [|r refs IH]; intros out; cbn [send_refs].
  - cbn. by rewrite app_nil_r.
  - rewrite fmap_cons. change (ref_view r :: (ref_view <$> refs)) with ([ref_view r] ++ (ref_view <$> refs)).
    rewrite to_send_app, block_frames_app. unfold to_send at 1, ref_view at 1. cbn [omap list_omap fst snd].
    destruct (Has pb (br_ID r) (br_WorkFactor r)); [by rewrite IH|].
    destruct (store_Get now store (br_ID r)) as [[s p]|]; [|by rewrite IH].
    rewrite writeFrame_open, IH. unfold block_frames at 2. cbn [fmap list_fmap concat fst snd].
    by rewrite app_nil_r, <- app_assoc.
Qed.

#[local] Abbreviation lister := (fun token => store_ListBlocks now store token 100 0 time_zero).
#[local] Abbreviation collect_refs := (fun r acc => acc ++ to_send [ref_view r]).

Lemma visit_collect refs acc :
  foldl (fun acc r => collect_refs r acc) acc refs = acc ++ to_send (ref_view <$> refs).
Proof using Type.
  revert acc. induction refs as [|r refs IH]; intros acc; cbn [foldl]; [by rewrite app_nil_r|].
  rewrite IH, <- app_assoc, <- to_send_app. done.
Qed.

(** On a connection that holds, while the context is not done, the sender's loop is the
    paging loop that collects the blocks to send. *)
Lemma send_pages_open fuel token out acc :
  send_pages now store fuel (fun _ => false) pb token (open_writer (out ++ block_frames acc))
  = match page_loop lister (fun _ acc => Ok acc) (fun r acc => Ok (collect_refs r acc)) fuel token acc with
    | None => None
    | Some (Ok acc') => Some (open_writer (out ++ block_frames acc'), Ok tt)
    | Some (Err e) => Some (open_writer (out ++ block_frames acc), Err e)
    end.
Proof using Type.
  revert token acc. induction fuel as [|fuel IH]; intros token acc; cbn [send_pages page_loop]; [done|].
  destruct (store_ListBlocks now store token 100 0 time_zero) as [[next refs]|e]; [|done].
  rewrite send_refs_open, visit_all_pure, visit_collect.
  rewrite <- app_assoc, <- block_frames_app. case_decide; [done|]. rewrite IH.
  destruct (page_loop _ _ _ fuel next _) as [[acc'|e]|] eqn:E; [done| |done]. exfalso.
  clear -E. revert next acc E. 
  (* no visit fails *)
  enough (forall n t acc, page_loop lister (fun _ acc => Ok acc) (fun r acc => Ok (collect_refs r acc)) n t acc
    <> Some (Err e)) as Hn by (intros next acc E; by apply Hn in E).
  intros n. induction n as [|n IHn]; intros t acc; cbn [page_loop]; [done|].
  destruct (store_ListBlocks now store t 100 0 time_zero) as [[next' refs']|]; [|done].
  rewrite visit_all_pure. case_decide; [done|apply IHn].
Qed.

Context (Hinv : store_inv store).
Context (Hok : forall limit t c, valid_token (store_index store) t c ->
   is_ok (store_ListBlocks now store t limit 0 time_zero) = true).

(** The blocks of the whole listing. *)
Definition wanted : list (Stamp * Payload) :=
  to_send (entry_view <$> remaining (store_index store) 0 (Unix time_zero) None).

Lemma session_wanted_elem s p : (s, p) ∈ wanted <->
  exists en, en ∈ store_index store /\ meets 0 (Unix time_zero) en = true /\
    Has pb (cur_id (en_cursor en)) (en_wf en) = false /\
    store_Get now store (cur_id (en_cursor en)) = Ok (s, p).
Proof using Type.
  unfold wanted, to_send. rewrite list_elem_of_omap. split.
  - intros (v & (en & -> & [Hm Hen]%list_elem_of_filter)%list_elem_of_fmap & Hv).
    exists en. cbn [entry_view fst snd] in Hv. unfold listed in Hm. cbn [after] in Hm.
    destruct (Has pb _ _) eqn:Eh; [done|]. split_and!; [done|by apply andb_true_iff in Hm as [_ ?]|done|].
    by destruct (store_Get _ _ _); [apply (inj Some) in Hv as ->|].
  - intros (en & Hen & Hm & Hh & Hg). exists (entry_view en). cbn [entry_view fst snd]. rewrite Hh, Hg.
    split; [|done]. apply list_elem_of_fmap. exists en. split; [done|]. by apply list_elem_of_filter.
Qed.

Lemma runSend_open bf f :
  (length (store_index store) < bf)%nat -> (length (store_index store) < f)%nat ->
  runSend now store bf f (fun _ => false) (ev_Bloom pb) (open_writer [])
  = Some (open_writer (frame frameBloom (Bytes (index_Bloom (store_index store)))
                       ++ block_frames wanted ++ frame frameDone []), Ok tt).
Proof using All.
  intros Hbf Hf. unfold runSend. rewrite BloomOfStore_index; [|done|exact (Hok 500)|done].
  rewrite writeFrame_open. cbn [app]. set (fb := frame frameBloom _).
  pose proof (send_pages_open f [] fb []) as E. change (block_frames []) with (@nil byte) in E.
  rewrite app_nil_r in E. rewrite E.
  destruct (page_loop_complete (fun _ acc => Ok acc) (fun r acc => Ok (collect_refs r acc)) now store 100 0
    time_zero Hinv ltac:(lia) ltac:(by vm_compute) f [] (fun r acc => collect_refs r acc)) as (refs & Hv & Hl);
    [done|intros t c Ht; by apply (Hok 100 t c)| |].
  { eapply Nat.le_lt_trans; [apply length_filter|done]. }
  cbv beta in *. rewrite Hl, visit_collect, Hv. cbn [app]. rewrite writeFrame_open. by rewrite app_assoc.
Qed.
End Sending.

(** ** What the receiver makes of it *)

Lemma blockFrameSize_Z : Z.of_nat blockFrameSize = 4100.
Proof. unfold blockFrameSize, StampSize. pose proof PayloadSize_Z. lia. Qed.

Lemma fits_small d : Z.of_nat (length d) <= 8192 -> fits d.
Proof. unfold fits, maxFrameLen. change (Z.shiftl 1 20) with 1048576. lia. Qed.

Section Block_frame.
Context (s : Stamp) (p : Payload) (Hs : is_Stamp s) (Hp : is_Payload p).

Lemma block_frame_eq : block_frame s p = s ++ p.
Proof using All.
  unfold block_frame, blockFrameSize. rewrite replicate_add.
  change (replicate StampSize x00 ++ replicate PayloadSize x00)
    with ([] ++ replicate StampSize x00 ++ replicate PayloadSize x00).
  rewrite copy_at_mid by (by rewrite ?length_replicate). cbn [app].
  rewrite <- (app_nil_r (replicate PayloadSize x00)).
  rewrite copy_at_mid by (by rewrite ?length_replicate). by rewrite app_nil_r.
Qed.

Lemma length_block_frame : length (block_frame s p) = blockFrameSize.
Proof using All. rewrite block_frame_eq, length_app. unfold is_Stamp, is_Payload in *. unfold blockFrameSize. lia. Qed.

Lemma block_frame_read :
  copy_at 0 (take StampSize (block_frame s p)) (replicate StampSize x00) = s /\
  copy_at 0 (drop StampSize (block_frame s p)) (replicate PayloadSize x00) = p.
Proof using All.
  rewrite block_frame_eq. unfold is_Stamp, is_Payload in *. rewrite <- Hs at 1 3.
  rewrite take_app_length, drop_app_length. split; by apply copy_at_whole; rewrite length_replicate.
Qed.
End Block_frame.

Section Receiving.
Context {S : Type} `{Store S}.
Context (now : Z).

Definition put_blocks (l : list (Stamp * Payload)) (store : S) : S :=
  foldl (fun s sp => fst (store_Put now sp.1 sp.2 TagBluetooth s)) store l.

Lemma recv_blocks l rest e fuel store d :
  Forall (fun sp => is_Stamp sp.1 /\ is_Payload sp.2) l -> (length l < fuel)%nat ->
  recv_loop now fuel {| rd_data := block_frames l ++ frame frameDone [] ++ rest; rd_end := e |} store d
  = Some (put_blocks l store, [], Ok tt).
Proof.
  intros HF. revert fuel store. induction HF as [|[s p] l [Hs Hp] HF IH]; intros fuel store Hf;
    (destruct fuel as [|fuel]; [cbn in Hf; lia|]); cbn [recv_loop].
  - cbn [block_frames fmap list_fmap concat app]. by rewrite readFrame_frame by by apply fits_small.
  - cbn [block_frames fmap list_fmap concat]. rewrite <- app_assoc. cbn [fst snd] in *.
    rewrite readFrame_frame by (apply fits_small; rewrite length_block_frame, blockFrameSize_Z by done; lia).
    rewrite decide_False, decide_True by done. rewrite length_block_frame, Nat.eqb_refl by done. cbn [negb].
    destruct (block_frame_read s p Hs Hp) as [-> ->]. apply IH. cbn in Hf. lia.
Qed.

Lemma length_block_frames l : (length l <= length (block_frames l))%nat.
Proof.
  induction l as [|sp l IH]; [done|]. unfold block_frames in *. cbn [fmap list_fmap concat length].
  rewrite length_app. unfold frame at 1. rewrite length_app, length_frame_header. lia.
Qed.

Lemma runRecv_session b l rest e store :
  wf_Bloom b -> Forall (fun sp => is_Stamp sp.1 /\ is_Payload sp.2) l ->
  runRecv now {| rd_data := (frame frameBloom (Bytes b) ++ block_frames l ++ frame frameDone []) ++ rest;
                 rd_end := e |} store
  = Some (put_blocks l store, [ch_send b], Ok tt).
Proof.
  intros Hb HF. unfold runRecv. rewrite <- !app_assoc. cbn [rd_data recv_loop].
  rewrite readFrame_frame.
  - rewrite decide_True by done. rewrite (proj2 (BloomFromBytes_Ok (Bytes b) b)).
    + rewrite recv_blocks; [done|done|]. rewrite !length_app. pose proof (length_block_frames l).
      unfold frame at 1. rewrite length_app, length_frame_header. lia.
    + rewrite Bytes_bits by done. split; [done|by destruct b].
  - apply fits_small. rewrite Bytes_bits by done. rewrite Hb, bloomBytes_Z. lia.
Qed.
End Receiving.

(** ** Delivery *)

(** C8: A session delivers.  Over a connection that holds, what the sender writes is
    accepted by the receiver: it hands over the filter of the sender's store, which
    reports every block of the sender, and stores one after the other exactly the
    blocks of the sender's listing that the given filter does not report and that can
    still be read.  With the filter of a store [peer] nothing is sent that the peer
    lists at the same or a higher work factor. *)
Theorem session_delivers {SA SB SC} `{StoreLaws SA} `{Store SB} `{StoreLaws SC}
    nowA nowB (a : SA) (b : SB) (peer : SC) bf f rest e :
  store_inv a ->
  (forall limit t c, valid_token (store_index a) t c ->
     is_ok (store_ListBlocks nowA a t limit 0 time_zero) = true) ->
  (forall id s p, store_Get nowA a id = Ok (s, p) -> is_Stamp s /\ is_Payload p) ->
  (length (store_index a) < bf)%nat -> (length (store_index a) < f)%nat ->
  let pb := index_Bloom (store_index peer) in
  exists w bloom l,
    runSend nowA a bf f (fun _ => false) (ev_Bloom pb) (open_writer []) = Some (w, Ok tt) /\
    runRecv nowB {| rd_data := w_out w ++ rest; rd_end := e |} b
      = Some (put_blocks nowB l b, [ch_send bloom], Ok tt) /\
    (forall s p, (s, p) ∈ l <-> exists en, en ∈ store_index a /\ meets 0 (Unix time_zero) en = true /\
       Has pb (cur_id (en_cursor en)) (en_wf en) = false /\
       store_Get nowA a (cur_id (en_cursor en)) = Ok (s, p)) /\
    (forall en k, en ∈ store_index a -> Unix time_zero <= cur_createdAt (en_cursor en) ->
       0 <= k <= en_wf en -> Has bloom (cur_id (en_cursor en)) k = true) /\
    (forall en en', en ∈ store_index a -> en' ∈ store_index peer ->
       Unix time_zero <= cur_createdAt (en_cursor en') ->
       cur_id (en_cursor en) = cur_id (en_cursor en') -> 0 <= en_wf en <= en_wf en' ->
       Has pb (cur_id (en_cursor en)) (en_wf en) = true).
Proof.
  intros Hinv Hok Hget Hbf Hf. cbn zeta. set (pb := index_Bloom (store_index peer)).
  pose proof (session_wanted_elem nowA a pb) as Hw.
  eexists _, _, (wanted nowA a pb). split; [by apply runSend_open|]. cbn [w_out open_writer].
  split; [apply runRecv_session; [apply wf_index_Bloom|]|split_and!].
  - apply Forall_forall. intros [s p] (en & _ & _ & _ & Hg)%Hw. by eapply Hget.
  - done.
  - intros. by apply Has_index_Bloom.
  - intros en en' _ Hen' Hc -> Hk. by apply Has_index_Bloom.
Qed.

(** A frame of at most 1 MiB is read back as it was written, whatever follows it; and
    when the connection breaks while it is written, what reached the wire is not read
    as a frame. *)
Theorem frame_roundtrip t d :
  fits d ->
  (forall w w' rest e, writeFrame t d w = (w', Ok tt) ->
     exists sent, w_out w' = w_out w ++ sent /\
       readFrame {| rd_data := sent ++ rest; rd_end := e |} = (Ok (t, d), {| rd_data := rest; rd_end := e |})) /\
  (forall w w' e err, writeFrame t d w = (w', Err err) ->
     exists sent, w_out w' = w_out w ++ sent /\
       exists err' r, readFrame {| rd_data := sent; rd_end := e |} = (Err err', r)).
Proof.
  intros Hf. split; intros w w'; pose proof (writeFrame_prefix t d w) as Hp.
  - intros rest e E. rewrite E in Hp. exists (frame t d). split; [done|]. by apply readFrame_frame.
  - intros e err E. rewrite E in Hp. destruct Hp as (n & Hn & Ho). exists (take n (frame t d)).
    split; [done|]. by apply readFrame_prefix.
Qed.

(** ** The receiver ends *)

Lemma ReadFull_consumes n r x r' : ReadFull n r = (Ok x, r') ->
  (length (rd_data r') + n)%nat = length (rd_data r).
Proof.
  unfold ReadFull. destruct (Nat.leb_spec n (length (rd_data r))); [|done].
  intros [= _ <-]. cbn [rd_data]. rewrite length_drop. lia.
Qed.

Lemma readFrame_consumes r x r' : readFrame r = (Ok x, r') ->
  (length (rd_data r') + 5 <= length (rd_data r))%nat.
Proof.
  unfold readFrame. destruct (ReadFull 5 r) as [[h|] r1] eqn:E1; [|done]. apply ReadFull_consumes in E1.
  cbn zeta. destruct (_ <? _); [done|]. destruct (_ =? _).
  - intros [= _ <-]. lia.
  - destruct (ReadFull _ r1) as [[d|] r2] eqn:E2; [|done]. apply ReadFull_consumes in E2.
    intros [= _ <-]. lia.
Qed.

(** The filters received in order, then possibly a close. *)
Definition chan_shape (acts : list chan_action) (sends : list Bloom) (closes : bool) : Prop :=
  acts = (ch_send <$> sends) ++ (if closes then [ch_close] else []).

Lemma recv_loop_ends {S} `{Store S} now fuel r (store : S) d :
  (length (rd_data r) < fuel)%nat ->
  exists store' acts res sends closes,
    recv_loop now fuel r store d = Some (store', acts, res) /\ chan_shape acts sends closes /\
    (closes = true -> is_ok res = false).
Proof.
  revert r store d. induction fuel as [|fuel IH]; intros r store d Hf; [lia|]. cbn [recv_loop].
  destruct (readFrame r) as [[[t data]|e] r'] eqn:Er.
  - apply readFrame_consumes in Er. case_decide; [|case_decide; [|case_decide]].
    + destruct (BloomFromBytes data) as [pb|e]; [|by eexists _, _, _, [], true].
      destruct (IH r' store true ltac:(lia)) as (s' & acts & res & sends & cl & -> & Hs & Hc).
      eexists _, _, _, (pb :: sends), cl. split_and!; [done| |done]. by rewrite Hs.
    + destruct (negb _); [by eexists _, _, _, [], false|]. apply IH. lia.
    + by eexists _, _, _, [], false.
    + by eexists _, _, _, [], false.
  - destruct d; [by eexists _, _, _, [], false|by eexists _, _, _, [], true].
Qed.

(** ** The rendezvous *)

Definition rv_inv (sends : list Bloom) (closes : bool) (st : rendezvous) : Prop :=
  exists taken rest,
    sends = taken ++ rv_buf st ++ rest /\ (length (rv_buf st) <= chan_cap)%nat /\
    (if rv_closed st then closes = true /\ rest = [] /\ rv_acts st = []
     else chan_shape (rv_acts st) rest closes) /\
    match rv_event st with
    | None => taken = []
    | Some (ev_Bloom b) => taken = [b]
    | Some ev_Closed => taken = [] /\ sends = [] /\ closes = true
    | Some ev_Done => False
    end.

Lemma rv_inv_step sends closes st st' : rv_inv sends closes st -> rv_step st st' -> rv_inv sends closes st'.
Proof.
  intros (taken & rest & Hs & Hl & Hc & He) Hstep.
  destruct Hstep as [ev pb acts buf closed Hb|ev acts buf closed|acts pb buf closed|acts];
    cbn [rv_event rv_acts rv_buf rv_closed] in *.
  - destruct closed; [by destruct Hc as (_ & _ & ?)|]. unfold chan_shape in Hc.
    destruct rest as [|r rest]; [by destruct closes|]. cbn in Hc. injection Hc as <- Hc.
    exists taken, rest. cbn [rv_event rv_acts rv_buf rv_closed]. split_and!; try done.
    + by rewrite Hs, <- app_assoc.
    + rewrite length_app. cbn. lia.
  - destruct closed; [by destruct Hc as (_ & _ & ?)|]. unfold chan_shape in Hc.
    destruct rest as [|r rest]; [|done]. destruct closes; [|done]. cbn in Hc. injection Hc as ->.
    exists taken, []. by split_and!.
  - subst taken. exists [pb], rest. cbn [rv_event rv_acts rv_buf rv_closed] in *. split_and!; try done.
    unfold chan_cap in *. cbn in Hl. lia.
  - subst taken. destruct Hc as (-> & -> & ->). exists [], []. by split_and!.
Qed.

(** C29: How the two sides of a session wait.  When the receiver hands over the filters
    [sends] and then possibly closes the channel, no run is longer than its actions and
    one.  A run that cannot go on has released the sender, with the first filter or with
    the close, unless the receiver neither sent nor closed: then the sender waits for
    ever.  The receiver is left blocked exactly when the peer sent three filters or more. *)
Theorem rendezvous_outcomes sends closes acts st n :
  chan_shape acts sends closes -> nsteps rv_step n (rv_start acts) st ->
  (n <= length acts + 1)%nat /\
  (rv_stuck st ->
     rv_event st = match sends with b :: _ => Some (ev_Bloom b)
                   | [] => if closes then Some ev_Closed else None end /\
     (rv_acts st <> [] <-> (3 <= length sends)%nat)).
Proof.
  intros Hsh Hn. split.
  - set (size st := (length (rv_acts st) + (match rv_event st with None => 1 | Some _ => 0 end))%nat).
    enough (n + size st <= size (rv_start acts))%nat by (unfold size in *; cbn in *; lia).
    clear Hsh. induction Hn as [st|n st1 st2 st3 Hstep Hn IH]; [lia|].
    enough (size st2 + 1 <= size st1)%nat by lia. unfold size.
    destruct Hstep; cbn; destruct ev || idtac; cbn; lia.
  - intros Hst.
    assert (rv_inv sends closes st) as (taken & rest & Hs & Hl & Hc & He).
    { assert (rv_inv sends closes (rv_start acts)) as H0 by (exists [], sends; cbn; unfold chan_cap; split_and!; (done || lia)).
      clear -H0 Hn. induction Hn; [done|]. eauto using rv_inv_step. }
    destruct st as [ev acts' buf closed]. cbn [rv_event rv_acts rv_buf rv_closed] in *. unfold chan_shape in Hc.
    destruct ev as [[| |b]|]; [done| | |].
    + destruct He as (-> & -> & ->). split; [done|]. destruct buf; [|done]. destruct rest; [|done].
      destruct closed; [destruct Hc as (_ & _ & ->); split; [done|cbn; lia]|]. exfalso.
      cbn in Hc. rewrite Hc in Hst. eapply Hst. constructor.
    + subst taken sends. split; [done|]. cbn [app]. destruct acts' as [|[pb|] acts'].
      * split; [done|]. destruct closed; [destruct Hc as (_ & -> & _)|destruct rest; [|done]];
          rewrite ?length_app; cbn; rewrite ?length_app; cbn; unfold chan_cap in *; lia.
      * split; [|done]. intros _. destruct (decide (length buf < chan_cap)%nat); [exfalso; eapply Hst; by constructor|].
        destruct closed; [by destruct Hc as (_ & _ & ?)|]. destruct rest; [by destruct closes|].
        unfold chan_cap in *. cbn. rewrite length_app. cbn. lia.
      * exfalso. eapply Hst. constructor.
    + subst taken. cbn [app] in Hs. destruct buf as [|pb buf]; [|exfalso; eapply Hst; constructor].
      destruct closed; [destruct Hc as (_ & -> & ->); exfalso; eapply Hst; constructor|].
      cbn [app] in Hs. subst rest. destruct sends as [|b sends].
      * destruct closes; cbn in Hc; subst acts'; [exfalso; eapply Hst; constructor|]. split; [done|]. split; [done|cbn; lia].
      * exfalso. cbn in Hc. rewrite Hc in Hst. eapply Hst. constructor. unfold chan_cap. cbn. lia.
Qed.

(** The receiver ends whatever it reads, and acts on the channel by handing over
    filters in order and then at most one close, which only an error brings.  A session
    whose peer opens with a block frame of the wrong size ends for the receiver, which
    leaves the channel open and empty: no run releases the sender. *)
Theorem runRecv_ends {S} `{Store S} now r (store : S) :
  (exists store' acts res sends closes,
     runRecv now r store = Some (store', acts, res) /\ chan_shape acts sends closes /\
     (closes = true -> is_ok res = false)) /\
  (forall data rest, rd_data r = frame frameBlock data ++ rest -> fits data -> length data <> blockFrameSize ->
     runRecv now r store = Some (store, [], Err (bad_block_size (length data))) /\
     forall st, rtc rv_step (rv_start []) st -> rv_event st = None).
Proof.
  split; [apply recv_loop_ends; lia|]. intros data rest Hr Hf Hl. split.
  - destruct r as [rd e]. cbn [rd_data] in Hr. subst rd. unfold runRecv. cbn [recv_loop rd_data].
    rewrite readFrame_frame by done. rewrite decide_False, decide_True by done.
    by rewrite (proj2 (Nat.eqb_neq _ _)).
  - intros st Hst. inversion Hst as [|x y z Hstep]; [done|]. inversion Hstep.
Qed.

(** ** At concrete inputs *)

Module BluetoothDemo.
Import FlatFile FlatFileFacts FlatFileFacts.Demo.
#[local] Existing Instances ref_Hashes ref_HashesLaws ref_GoFloat.

(** A store with one readable block of work factor 7. *)
Definition full : FlatFileStore :=
  {| files := {[ FlatFile.blockPath ref_id := file1 ++ ref_payload ]}; storageLimit := 9000; env := io_ok |}.

Lemma full_inv : store_inv full.
Proof.
  intros p id [d Hd] Hn. cbn [files full] in Hd. apply lookup_singleton_Some in Hd as [<- _].
  rewrite name_blockPath, name_id_hex in Hn by reflexivity. by injection Hn as <-.
Qed.

Lemma empty_inv : store_inv empty.
Proof. intros p id [d Hd] Hn. cbn [files empty] in Hd. by rewrite lookup_empty in Hd. Qed.

Lemma full_index : store_index full
  = [{| en_cursor := {| cur_createdAt := 1000; cur_id := ref_id |}; en_wf := 7 |}].
Proof. vm_compute. reflexivity. Qed.

Lemma full_answers limit t c :
  valid_token (store_index full) t c -> is_ok (store_ListBlocks 0 full t limit 0 time_zero) = true.
Proof.
  intros Htok. cbn [store_ListBlocks FlatFile_Store]. unfold ListBlocks.
  rewrite (parse_page_token_valid full t c Htok). cbn. by destruct (collect _ _ _ _ _).
Qed.

Lemma full_get id s p : store_Get 0 full id = Ok (s, p) -> is_Stamp s /\ is_Payload p.
Proof.
  cbn [store_Get FlatFile_Store]. unfold FlatFile.Get. destruct (os_Open _ _) as [d|e]; [|by destruct (IsNotExist e)].
  unfold FlatFile.ReadFull. case_decide as E; [done|]. intros [= <- <-]. unfold is_Stamp, is_Payload, flatHeaderSize in *.
  rewrite !length_slice, length_take. unfold StampSize in *. lia.
Qed.

Lemma session_delivers_witness :
  exists w bloom l,
    runSend 0 full 2 2 (fun _ => false) (ev_Bloom (index_Bloom (store_index empty))) (open_writer [])
      = Some (w, Ok tt) /\
    runRecv 5 {| rd_data := w_out w ++ []; rd_end := ErrEOF |} empty
      = Some (put_blocks 5 l empty, [ch_send bloom], Ok tt) /\
    ([x01; x02; x03; x04], ref_payload) ∈ l.
Proof.
  assert (forall n : nat, (1 < n)%nat -> (length (store_index full) < n)%nat) as Hl
    by (intros n Hn; rewrite full_index; exact Hn).
  destruct (session_delivers 0 5 full empty empty 2 2 [] ErrEOF full_inv full_answers full_get
    (Hl 2%nat ltac:(lia)) (Hl 2%nat ltac:(lia))) as (w & bloom & l & H1 & H2 & H3 & _ & _).
  exists w, bloom, l. split; [exact H1|]. split; [exact H2|]. apply H3.
  exists {| en_cursor := {| cur_createdAt := 1000; cur_id := ref_id |}; en_wf := 7 |}.
  rewrite full_index. split; [apply list_elem_of_here|]. split_and!; vm_compute; reflexivity.
Defined.

Lemma frame_roundtrip_witness : exists w' sent,
  writeFrame frameDone [x07] (open_writer []) = (w', Ok tt) /\ w_out w' = [] ++ sent /\
  readFrame {| rd_data := sent ++ [x08]; rd_end := ErrEOF |}
  = (Ok (frameDone, [x07]), {| rd_data := [x08]; rd_end := ErrEOF |}).
Proof.
  destruct (writeFrame frameDone [x07] (open_writer [])) as [w' [[]|e]] eqn:Hw; [|vm_compute in Hw; discriminate Hw].
  destruct (proj1 (frame_roundtrip frameDone [x07] ltac:(unfold fits, maxFrameLen; discriminate))
    (open_writer []) w' [x08] ErrEOF Hw) as (sent & H1 & H2).
  exists w', sent. split; [reflexivity|]. split; [exact H1|exact H2].
Defined.

Lemma rendezvous_outcomes_witness :
  rv_event {| rv_event := Some (ev_Bloom empty_Bloom); rv_acts := []; rv_buf := []; rv_closed := false |}
  = Some (ev_Bloom empty_Bloom).
Proof.
  refine (proj1 (proj2 (rendezvous_outcomes [empty_Bloom] false [ch_send empty_Bloom]
    {| rv_event := Some (ev_Bloom empty_Bloom); rv_acts := []; rv_buf := []; rv_closed := false |}
    2 eq_refl _) _)).
  - eapply nsteps_l; [apply rv_recv_send; unfold chan_cap; cbn; lia|].
    eapply nsteps_l; [apply rv_sender_gets|apply nsteps_O].
  - intros st Hst. inversion Hst.
Defined.

Lemma runRecv_ends_witness : exists store',
  runRecv 0 {| rd_data := frame frameBlock [x01]; rd_end := ErrEOF |} empty
  = Some (store', [], Err (bad_block_size 1)).
Proof.
  exists empty. refine (proj1 (proj2 (runRecv_ends 0 {| rd_data := frame frameBlock [x01]; rd_end := ErrEOF |} empty)
    [x01] [] _ _ _)).
  - symmetry. apply app_nil_r.
  - unfold fits, maxFrameLen. discriminate.
  - unfold blockFrameSize, StampSize. pose proof PayloadSize_Z. cbn [length]. lia.
Defined.
End BluetoothDemo.
