(* ===== verification/Relay.v ===== *)
(** The relay protocol ([transport/relay/server.go], [client.go]): the handlers of a relay
    over a store, the client that talks to one through a transport, and the pull and push
    of whole stores.  JSON bodies, the parsing of addresses and the transport are
    parameters. *)
From Stdlib Require Import String.
From S2P Require Import Prelude Codec Block Store Bloom Text Net.

(** ** Bodies and messages *)

(** [encoding/json] on the structures of the protocol. *)
Class RelayJson := {
  enc_delta : bytes * Z * Z -> bytes;             (* bloom, pow_floor, since *)
  dec_delta : bytes -> result (bytes * Z * Z);
  enc_ids : list bytes -> bytes;
  dec_ids : bytes -> result (list bytes);
  enc_put : bytes * Z -> bytes;                   (* id, work_factor *)
  dec_put_id : bytes -> result bytes;
  enc_pow : Z -> bytes;
  dec_pow : bytes -> result Z;
  enc_peers : list bytes -> bytes;
  dec_peers : bytes -> result (list bytes);
  enc_url : bytes -> bytes;
  dec_url : bytes -> bytes;                       (* best effort: what the field holds afterwards *)
  enc_error : string -> bytes;
}.

Definition ascii_text (b : bytes) : Prop := Forall (fun c => u8 c < 128) b.

Class RelayJsonLaws `{RelayJson} : Prop := {
  delta_roundtrip b p s : ascii_text b -> in_s64 p -> in_s64 s -> dec_delta (enc_delta (b, p, s)) = Ok (b, p, s);
  ids_roundtrip l : Forall ascii_text l -> dec_ids (enc_ids l) = Ok l;
  put_roundtrip i w : ascii_text i -> dec_put_id (enc_put (i, w)) = Ok i;
  pow_roundtrip z : in_s64 z -> dec_pow (enc_pow z) = Ok z;
  peers_roundtrip l : Forall ascii_text l -> dec_peers (enc_peers l) = Ok l;
  url_roundtrip u : ascii_text u -> dec_url (enc_url u) = u;
}.

Inductive method := GET | POST.

(** The paths of the protocol. *)
Inductive path :=
  | path_block_id (hexID : bytes)
  | path_block
  | path_delta
  | path_pow_limit
  | path_peers
  | path_hello.

(** A request; [rq_broken] is the error its body ends with when the connection breaks. *)
Record Request := {
  rq_method : method; rq_path : path; rq_body : bytes; rq_broken : option error; rq_remote : bytes
}.
Record Response := { rs_status : Z; rs_body : bytes }.

Definition StatusOK : Z := 200.
Definition StatusBadRequest : Z := 400.
Definition StatusForbidden : Z := 403.
Definition StatusNotFound : Z := 404.
Definition StatusInternalServerError : Z := 500.

Definition blockSize : nat := StampSize + PayloadSize.
Arguments blockSize : simpl never.

(** ** Origin of a block *)

Definition ip_tag (ip : option bytes) : Tag :=
  match ip with
  | Some ip => if is_local ip then TagLan else TagGlobal
  | None => TagGlobal
  end.

Definition tagFromRemoteAddr (addr : bytes) : Tag :=
  let host := match SplitHostPort addr with Ok (h, _) => h | Err _ => addr end in
  ip_tag (ParseIP host).

Definition tagForURL `{UrlParse} (rawURL : bytes) : Tag :=
  match url_Parse rawURL with
  | Err _ => TagGlobal
  | Ok u => ip_tag (ParseIP (Hostname u))
  end.

(** ** The server *)

(** [sv_median] is the method [MedianWorkFactor] of the store, when it has one; [sv_geoip]
    the classifier, when one is set; [sv_peerSource] what the source of peers returns, when
    there is one; [sv_added] the URLs handed to the adder of peers, latest first, when
    there is one. *)
Record Server (S : Type) := {
  sv_store : S;
  sv_powFloor : Z;
  sv_median : option (S -> result Z);
  sv_geoip : option (bytes -> Tag);
  sv_peerSource : option (list bytes);
  sv_added : option (list bytes);
}.
Arguments sv_store {S}. Arguments sv_powFloor {S}. Arguments sv_median {S}. Arguments sv_geoip {S}.
Arguments sv_peerSource {S}. Arguments sv_added {S}. Arguments Build_Server {S}.

(** [NewServer] of a store whose median is [median], if it has one, and the setters. *)
Definition NewServer {S} (median : option (S -> result Z)) (store : S) (powFloor : Z) : Server S := {|
  sv_store := store; sv_powFloor := powFloor; sv_median := median; sv_geoip := None; sv_peerSource := None; sv_added := None |}.
Definition SetPeerSource {S} (urls : list bytes) (s : Server S) : Server S := {|
  sv_store := sv_store s; sv_powFloor := sv_powFloor s; sv_median := sv_median s; sv_geoip := sv_geoip s;
  sv_peerSource := Some urls; sv_added := sv_added s |}.
Definition SetPeerAdder {S} (s : Server S) : Server S := {|
  sv_store := sv_store s; sv_powFloor := sv_powFloor s; sv_median := sv_median s; sv_geoip := sv_geoip s;
  sv_peerSource := sv_peerSource s; sv_added := Some [] |}.
Definition SetGeoIP {S} (tag : bytes -> Tag) (s : Server S) : Server S := {|
  sv_store := sv_store s; sv_powFloor := sv_powFloor s; sv_median := sv_median s; sv_geoip := Some tag;
  sv_peerSource := sv_peerSource s; sv_added := sv_added s |}.

Definition with_store {S} (s : Server S) (st : S) : Server S := {|
  sv_store := st; sv_powFloor := sv_powFloor s; sv_median := sv_median s; sv_geoip := sv_geoip s;
  sv_peerSource := sv_peerSource s; sv_added := sv_added s |}.
Definition with_added {S} (s : Server S) (l : option (list bytes)) : Server S := {|
  sv_store := sv_store s; sv_powFloor := sv_powFloor s; sv_median := sv_median s; sv_geoip := sv_geoip s;
  sv_peerSource := sv_peerSource s; sv_added := l |}.

Section Server.
Context `{Hashes, RelayJson} {S : Type} `{Store S}.
Context (now : Z).

Definition serverError (status : Z) (msg : string) : Response :=
  {| rs_status := status; rs_body := enc_error msg |}.
Definition http_Error (msg : string) (status : Z) : Response :=
  {| rs_status := status; rs_body := bs msg ++ [x0a] |}.

Definition handleGet (s : Server S) (hexID : bytes) : Response :=
  match hex_decode hexID with
  | Err _ => http_Error "invalid block id" StatusBadRequest
  | Ok idBytes =>
      if negb (length idBytes =? IDSize)%nat then http_Error "invalid block id" StatusBadRequest
      else
        match store_Get now (sv_store s) idBytes with
        | Err e =>
            if errors_Is e ErrNotFound then http_Error "not found" StatusNotFound
            else http_Error "internal error" StatusInternalServerError
        | Ok (stamp, payload) => {| rs_status := StatusOK; rs_body := stamp ++ payload |}
        end
  end.

Definition origin_tag (s : Server S) (remote : bytes) : Tag :=
  match sv_geoip s with
  | Some g => g remote
  | None => tagFromRemoteAddr remote
  end.

(** The body is read up to one byte more than a block. *)
Definition handlePut (s : Server S) (rq : Request) : Server S * Response :=
  let body := take (blockSize + 1) (rq_body rq) in
  if bool_decide (is_Some (rq_broken rq)) && (length (rq_body rq) <? blockSize + 1)%nat
  then (s, http_Error "read error" StatusBadRequest)
  else if negb (length body =? blockSize)%nat
  then (s, serverError StatusBadRequest "body must be exactly 2052 bytes (stamp+payload)")
  else
    let stamp := copy_at 0 (take StampSize body) (replicate StampSize x00) in
    let payload := copy_at 0 (drop StampSize body) (replicate PayloadSize x00) in
    let wf := WorkFactor stamp payload in
    if wf <? sv_powFloor s then (s, serverError StatusForbidden "insufficient proof of work")
    else
      let tag := origin_tag s (rq_remote rq) in
      match store_Put now stamp payload tag (sv_store s) with
      | (st, Err _) => (with_store s st, serverError StatusInternalServerError "storage error")
      | (st, Ok id) =>
          (with_store s st, {| rs_status := StatusOK; rs_body := enc_put (hex_encode id, wf) |})
      end.

(** The loop of [handleDelta]: the hexadecimal ids the filter does not report. *)
Definition delta_ids (s : Server S) (bloom : Bloom) (powFloor since : Z) (fuel : nat) : option (result (list bytes)) :=
  page_loop (fun token => store_ListBlocks now (sv_store s) token 500 powFloor since)
    (fun err _ => Err err)
    (fun ref ids => Ok (if Has bloom (br_ID ref) (br_WorkFactor ref) then ids else ids ++ [hex_encode (br_ID ref)]))
    fuel [] [].

Definition handleDelta (s : Server S) (body : bytes) (fuel : nat) : option Response :=
  match dec_delta body with
  | Err _ => Some (serverError StatusBadRequest "invalid JSON")
  | Ok (bloom64, reqFloor, reqSince) =>
      match b64_decode StdEncoding bloom64 with
      | Err _ => Some (serverError StatusBadRequest "invalid bloom encoding")
      | Ok bloomData =>
          match BloomFromBytes bloomData with
          | Err _ => Some (serverError StatusBadRequest "relay: bloom: expected bytes, got")
          | Ok bloom =>
              let powFloor := if reqFloor <? sv_powFloor s then sv_powFloor s else reqFloor in
              let since := time_Unix reqSince in
              match delta_ids s bloom powFloor since fuel with
              | None => None
              | Some (Err _) => Some (serverError StatusInternalServerError "store error")
              | Some (Ok ids) => Some {| rs_status := StatusOK; rs_body := enc_ids ids |}
              end
          end
      end
  end.

Definition handlePowLimit (s : Server S) : Response :=
  match sv_median s with
  | Some median =>
      match median (sv_store s) with
      | Err _ => serverError StatusInternalServerError "store error"
      | Ok m => {| rs_status := StatusOK; rs_body := enc_pow (m - 1) |}
      end
  | None => {| rs_status := StatusOK; rs_body := enc_pow (sv_powFloor s) |}
  end.

Definition handlePeers (s : Server S) : Response :=
  {| rs_status := StatusOK; rs_body := enc_peers (default [] (sv_peerSource s)) |}.

Definition handleHello (s : Server S) (body : bytes) : Server S * Response :=
  let url := dec_url body in
  let s := match sv_added s with
           | Some l => if bool_decide (url <> []) then with_added s (Some (url :: l)) else s
           | None => s
           end in
  (s, handlePeers s).

(** The routes of the protocol; anything else is left to other handlers. *)
Definition serve (fuel : nat) (rq : Request) (s : Server S) : option (Server S * Response) :=
  match rq_method rq, rq_path rq with
  | GET, path_block_id hexID => Some (s, handleGet s hexID)
  | POST, path_block => Some (handlePut s rq)
  | POST, path_delta => (fun rs => (s, rs)) <$> handleDelta s (rq_body rq) fuel
  | GET, path_pow_limit => Some (s, handlePowLimit s)
  | GET, path_peers => Some (s, handlePeers s)
  | POST, path_hello => Some (handleHello s (rq_body rq))
  | _, _ => None
  end.
End Server.

(** ** The client *)

(** What the transport brings back: the response, and the error its body ends with when
    the connection breaks. *)
Record Reply := { rp_status : Z; rp_body : bytes; rp_broken : option error }.

(** A client; [rc_bad_url] is the error of making a request when the base URL is invalid. *)
Record RelayClient := { rc_tag : Tag; rc_bad_url : option error }.

Definition NewClient `{UrlParse} (bad : option error) (baseURL : bytes) : RelayClient :=
  {| rc_tag := tagForURL baseURL; rc_bad_url := bad |}.

Definition request (m : method) (p : path) (body : bytes) : Request :=
  {| rq_method := m; rq_path := p; rq_body := body; rq_broken := None; rq_remote := [] |}.

Section Client.
Context `{RelayJson} {W : Type}.
(** The transport: it changes the world, the relay included, and yields a reply or fails. *)
Context (do : Request -> W -> W * result Reply).
Context (c : RelayClient).

(** [NewRequestWithContext], [Do], and the error of the latter wrapped. *)
Definition round_trip (what : string) (rq : Request) (w : W) : W * result Reply :=
  match rc_bad_url c with
  | Some e => (w, Err e)
  | None =>
      match do rq w with
      | (w, Err e) => (w, Err (ErrWrap what e))
      | r => r
      end
  end.

Definition get_read : error -> error := ErrWrap "relay get: read".
Definition get_short : error := ErrText "relay get: short response".
Definition bad_status (what : string) : error := ErrText what.

Definition Get (id : ID) (w : W) : W * result (Stamp * Payload) :=
  match round_trip "relay get" (request GET (path_block_id (hex_encode id)) []) w with
  | (w, Err e) => (w, Err e)
  | (w, Ok rp) =>
      (w,
       if rp_status rp =? StatusNotFound then Err ErrNotFound
       else if negb (rp_status rp =? StatusOK) then Err (bad_status "relay get: status")
       else
         let body := take blockSize (rp_body rp) in
         match (if (length (rp_body rp) <? blockSize)%nat then rp_broken rp else None) with
         | Some e => Err (get_read e)
         | None =>
             if negb (length body =? blockSize)%nat then Err get_short
             else Ok (copy_at 0 (take StampSize body) (replicate StampSize x00),
                      copy_at 0 (drop StampSize body) (replicate PayloadSize x00))
         end)
  end.

Definition put_body (stamp : Stamp) (payload : Payload) : bytes :=
  let body := replicate blockSize x00 in
  let body := copy_at 0 stamp body in
  copy_at StampSize payload body.

(** An id in hexadecimal, as the responses carry them. *)
Definition parse_id (s : bytes) : option ID :=
  match hex_decode s with
  | Ok b => if (length b =? IDSize)%nat then Some b else None
  | Err _ => None
  end.

Definition put_invalid_id : error := ErrText "relay put: invalid id in response".

Definition Put (stamp : Stamp) (payload : Payload) (w : W) : W * result ID :=
  match round_trip "relay put" (request POST path_block (put_body stamp payload)) w with
  | (w, Err e) => (w, Err e)
  | (w, Ok rp) =>
      (w,
       if negb (rp_status rp =? StatusOK) then Err (bad_status "relay put: status")
       else
         match dec_put_id (rp_body rp) with
         | Err e => Err (ErrWrap "relay put: decode response" e)
         | Ok s => match parse_id s with Some id => Ok id | None => Err put_invalid_id end
         end)
  end.

Definition delta_invalid_id : error := ErrText "relay delta: invalid id".

Fixpoint parse_ids (l : list bytes) : result (list ID) :=
  match l with
  | [] => Ok []
  | s :: l' =>
      match parse_id s with
      | None => Err delta_invalid_id
      | Some id => ids ← parse_ids l'; Ok (id :: ids)
      end
  end.

Definition Delta (bloom : Bloom) (powFloor since : Z) (w : W) : W * result (list ID) :=
  let body := enc_delta (b64_encode StdEncoding (Bytes bloom), powFloor, Unix since) in
  match round_trip "relay delta" (request POST path_delta body) w with
  | (w, Err e) => (w, Err e)
  | (w, Ok rp) =>
      (w,
       if negb (rp_status rp =? StatusOK) then Err (bad_status "relay delta: status")
       else
         match dec_ids (rp_body rp) with
         | Err e => Err (ErrWrap "relay delta: decode" e)
         | Ok l => parse_ids l
         end)
  end.

Definition peers_reply (what : string) (r : W * result Reply) : W * result (list bytes) :=
  match r with
  | (w, Err e) => (w, Err e)
  | (w, Ok rp) =>
      (w, if negb (rp_status rp =? StatusOK) then Err (bad_status (what ++ ": status"))
          else match dec_peers (rp_body rp) with Err e => Err (ErrWrap (what ++ ": decode") e) | Ok l => Ok l end)
  end.

Definition Hello (myURL : bytes) (w : W) : W * result (list bytes) :=
  let body := if bool_decide (myURL <> []) then enc_url myURL else bs "{}" in
  peers_reply "relay hello" (round_trip "relay hello" (request POST path_hello body) w).

Definition GetPeers (w : W) : W * result (list bytes) :=
  peers_reply "relay peers" (round_trip "relay peers" (request GET path_peers []) w).

Definition GetPowLimit (w : W) : W * result Z :=
  match round_trip "relay pow-limit" (request GET path_pow_limit []) w with
  | (w, Err e) => (w, Err e)
  | (w, Ok rp) =>
      (w, if negb (rp_status rp =? StatusOK) then Err (bad_status "relay pow-limit: status")
          else match dec_pow (rp_body rp) with Err e => Err (ErrWrap "relay pow-limit: decode" e) | Ok z => Ok z end)
  end.

(** ** Synchronisation

    [ctx] gives the state of the context before each block pulled, and at the top of each
    page pushed. *)
Context {L : Type} `{Store L} (now : Z).

(** The loop over the missing ids; the ids stored so far come first. *)
Fixpoint pull_blocks (ctx : nat -> option error) (missing : list ID) (local : L) (stored : list ID) (w : W)
    : W * L * (list ID * option error) :=
  match missing with
  | [] => (w, local, (stored, None))
  | id :: missing' =>
      match ctx (length missing') with
      | Some e => (w, local, (stored, Some e))
      | None =>
          match Get id w with
          | (w, Err _) => pull_blocks ctx missing' local stored w
          | (w, Ok (stamp, payload)) =>
              match store_Put now stamp payload (rc_tag c) local with
              | (local, Err e) => (w, local, (stored, Some (ErrWrap "relay pull: store block" e)))
              | (local, Ok storedID) => pull_blocks ctx missing' local (stored ++ [storedID]) w
              end
          end
      end
  end.

Definition Pull (fuel : nat) (ctx : nat -> option error) (local : L) (powFloor since : Z) (w : W)
    : option (W * L * (list ID * option error)) :=
  match BloomOfStore now local fuel with
  | None => None
  | Some (Err e) => Some (w, local, ([], Some (ErrWrap "relay pull: build bloom" e)))
  | Some (Ok bloom) =>
      match Delta bloom powFloor since w with
      | (w, Err e) => Some (w, local, ([], Some (ErrWrap "relay pull: delta" e)))
      | (w, Ok missing) => Some (pull_blocks ctx missing local [] w)
      end
  end.

Fixpoint push_refs (skip : list ID) (local : L) (refs : list BlockRef) (uploaded : Z) (w : W) : W * Z :=
  match refs with
  | [] => (w, uploaded)
  | ref :: refs' =>
      if bool_decide (br_ID ref ∈ skip) then push_refs skip local refs' uploaded w
      else
        match store_Get now local (br_ID ref) with
        | Err _ => push_refs skip local refs' uploaded w
        | Ok (stamp, payload) =>
            match Put stamp payload w with
            | (w, Err _) => push_refs skip local refs' uploaded w
            | (w, Ok _) => push_refs skip local refs' (uploaded + 1) w
            end
        end
  end.

Fixpoint push_pages (fuel : nat) (ctx : nat -> option error) (skip : list ID) (local : L) (powFloor since : Z)
    (pageToken : bytes) (uploaded : Z) (w : W) : option (W * (Z * option error)) :=
  match fuel with
  | O => None
  | Datatypes.S fuel' =>
      match ctx fuel' with
      | Some e => Some (w, (uploaded, Some e))
      | None =>
          match store_ListBlocks now local pageToken 100 powFloor since with
          | Err e => Some (w, (uploaded, Some (ErrWrap "relay push: list" e)))
          | Ok (next, refs) =>
              let '(w, uploaded) := push_refs skip local refs uploaded w in
              if decide (next = []) then Some (w, (uploaded, None))
              else push_pages fuel' ctx skip local powFloor since next uploaded w
          end
      end
  end.

Definition Push (fuel : nat) (ctx : nat -> option error) (skip : list ID) (local : L) (powFloor since : Z) (w : W)
    : option (W * (Z * option error)) :=
  match GetPowLimit w with
  | (w, Err e) => Some (w, (0, Some (ErrWrap "relay push" e)))
  | (w, Ok relayPow) =>
      let powFloor := if powFloor <? relayPow then relayPow else powFloor in
      push_pages fuel ctx skip local powFloor since [] 0 w
  end.
End Client.
