(* ===== verification/GeoIP.v ===== *)
(** The classification of addresses by region ([transport/relay/geoip.go]): the regions a
    relay is configured with, the lookup of an address, and the database on disk with its
    download and its refresh.  The reader of the database is a parameter. *)
From Stdlib Require Import String.
From S2P Require Import Prelude Codec Block Text Net Store Bloom Relay.

Record regionSpec := { country : bytes; subdivision : bytes }.

(** A record of the database, as far as it is looked at. *)
Record City := { IsoCode : bytes; Subdivisions : list bytes }.

Abbreviation Reader := (bytes -> result City).

(** [geoip2.Open] on the content of a file. *)
Class Geoip2 := geoip2_Open : bytes -> result Reader.

Record GeoIP := { dbPath : bytes; refresh : Z; regions : list regionSpec; reader : option Reader }.

Definition hyphen : byte := x2d.

Definition region_of (r : bytes) : regionSpec :=
  match IndexByte r hyphen with
  | Some idx => {| country := take idx r; subdivision := drop (S idx) r |}
  | None => {| country := r; subdivision := [] |}
  end.

(** The loop of [NewGeoIP]. *)
Definition parse_regions `{UnicodeUpper} (l : list bytes) : list regionSpec :=
  omap (fun r => let r := ToUpper (TrimSpace r) in if bool_decide (r = []) then None else Some (region_of r)) l.

Definition NewGeoIP `{UnicodeUpper} (path : bytes) (l : list bytes) (refreshInterval : Z) : GeoIP :=
  {| dbPath := path; refresh := refreshInterval; regions := parse_regions l; reader := None |}.

(** ** The lookup *)

Definition region_matches (code : bytes) (subdiv : bytes) (spec : regionSpec) : bool :=
  bool_decide (country spec = code)
  && (bool_decide (subdivision spec = []) || bool_decide (subdivision spec = subdiv)).

Definition isRegional (g : GeoIP) (ip : bytes) : bool :=
  match regions g with
  | [] => false
  | _ =>
      match reader g with
      | None => false
      | Some r =>
          match r ip with
          | Err _ => false
          | Ok rec =>
              let subdiv := default [] (head (Subdivisions rec)) in
              existsb (region_matches (IsoCode rec) subdiv) (regions g)
          end
      end
  end.

Definition GeoTag (g : GeoIP) (addr : bytes) : Tag :=
  let host := match SplitHostPort addr with Ok (h, _) => h | Err _ => addr end in
  match ParseIP host with
  | None => TagGlobal
  | Some ip => if is_local ip then TagLan else if isRegional g ip then TagRegional else TagGlobal
  end.

(** ** The database on disk *)

Abbreviation files := (gmap bytes bytes).

(** What happens during a download: the reply with the bytes that arrive and the error
    that ends them, and the errors of creating, closing and renaming the file. *)
Record download_io := {
  dl_get : result (Z * bytes * option error);
  dl_create : option error;
  dl_close : option error;
  dl_rename : option error;
}.

Definition dl_tmp (g : GeoIP) : bytes := dbPath g ++ bs ".tmp".

Definition download (io : download_io) (g : GeoIP) (fs : files) : files * result unit :=
  match dl_get io with
  | Err e => (fs, Err e)
  | Ok (status, body, broken) =>
      match dl_create io with
      | Some e => (fs, Err e)
      | None =>
          let fs := <[dl_tmp g := body]> fs in
          match broken with
          | Some e => (delete (dl_tmp g) fs, Err e)
          | None =>
              match dl_close io with
              | Some e => (delete (dl_tmp g) fs, Err e)
              | None =>
                  match dl_rename io with
                  | Some e => (fs, Err e)
                  | None => (<[dbPath g := body]> (delete (dl_tmp g) fs), Ok tt)
                  end
              end
          end
      end
  end.

(** [mtime] is the time of the last change when the file can be examined. *)
Definition ensureFresh (now : Z) (mtime : option Z) (io : download_io) (g : GeoIP) (fs : files)
    : files * result unit :=
  match mtime with
  | Some t => if now - t <? refresh g then (fs, Ok tt) else download io g fs
  | None => download io g fs
  end.

Definition with_reader (g : GeoIP) (r : Reader) : GeoIP :=
  {| dbPath := dbPath g; refresh := refresh g; regions := regions g; reader := Some r |}.

Section Database.
Context `{Geoip2}.

Definition load (g : GeoIP) (fs : files) : GeoIP * result unit :=
  match fs !! dbPath g with
  | None => (g, Err ErrNotExist)
  | Some data =>
      match geoip2_Open data with
      | Err e => (g, Err e)
      | Ok r => (with_reader g r, Ok tt)
      end
  end.

(** What [Start] does before it launches the refresh: its errors are only logged. *)
Definition Start (now : Z) (mtime : option Z) (io : download_io) (g : GeoIP) (fs : files) : GeoIP * files :=
  let '(fs, _) := ensureFresh now mtime io g fs in
  let '(g, _) := load g fs in (g, fs).

(** One tick of the refresh. *)
Definition refresh_tick (io : download_io) (g : GeoIP) (fs : files) : GeoIP * files :=
  match download io g fs with
  | (fs, Err _) => (g, fs)
  | (fs, Ok _) => let '(g, _) := load g fs in (g, fs)
  end.

(** The ticks of a run. *)
Definition refresh_ticks (ios : list download_io) (g : GeoIP) (fs : files) : GeoIP * files :=
  foldl (fun st io => refresh_tick io st.1 st.2) (g, fs) ios.

(** ** Theorems *)

(** The configured region that an address is in, by the record of the database. *)
Definition in_region (g : GeoIP) (ip : bytes) : Prop :=
  exists r rec spec, reader g = Some r /\ r ip = Ok rec /\ spec ∈ regions g /\
    country spec = IsoCode rec /\ (subdivision spec = [] \/ subdivision spec = default [] (head (Subdivisions rec))).

Lemma isRegional_spec g ip : isRegional g ip = true <-> in_region g ip.
Proof using Type.
  unfold isRegional, in_region. destruct (regions g) as [|s0 l0] eqn:El.
  - split; [done|]. intros (r & rec & spec & _ & _ & Hs & _). by apply not_elem_of_nil in Hs.
  - rewrite <- El. destruct (reader g) as [r|]; [|split; [done|by intros (r & ? & ? & ? & _)]].
    destruct (r ip) as [rec|] eqn:Er; [|split; [done|intros (r' & rec & spec & [= <-] & E & _); by rewrite Er in E]]. rewrite existsb_exists. unfold region_matches. split.
    + intros (spec & Hin & Hm). rewrite andb_true_iff, orb_true_iff, !bool_decide_eq_true in Hm.
      exists r, rec, spec. rewrite list_elem_of_In. naive_solver.
    + intros (r' & rec' & spec & [= <-] & E & Hin & Hc & Hs). rewrite Er in E. apply (inj Ok) in E as <-.
      exists spec. rewrite <- list_elem_of_In. split; [done|].
      rewrite andb_true_iff, orb_true_iff, !bool_decide_eq_true. done.
Qed.

(** An address is tagged as on the local network exactly when a relay without regions
    would, as regional exactly when it is not and the database places it in a configured
    region, as a country or as its first subdivision, and as global otherwise. *)
Theorem GeoTag_spec g addr :
  let host := match SplitHostPort addr with Ok (h, _) => h | Err _ => addr end in
  (GeoTag g addr = TagLan <-> tagFromRemoteAddr addr = TagLan) /\
  (GeoTag g addr = TagRegional <-> exists ip, ParseIP host = Some ip /\ is_local ip = false /\ in_region g ip) /\
  (GeoTag g addr = TagLan \/ GeoTag g addr = TagRegional \/ GeoTag g addr = TagGlobal) /\
  (reader g = None \/ regions g = [] -> GeoTag g addr = tagFromRemoteAddr addr).
Proof using Type.
  intros host. unfold GeoTag, tagFromRemoteAddr, ip_tag. fold host.
  destruct (ParseIP host) as [ip|].
  2:{ split_and!; [done|split; [done|by intros (ip & ? & _)]|by right; right|done]. }
  assert (reader g = None \/ regions g = [] -> isRegional g ip = false) as Hn.
  { unfold isRegional. intros [->| ->]; [by destruct (regions g)|done]. }
  pose proof (isRegional_spec g ip) as Hr.
  destruct (is_local ip) eqn:El.
  { split_and!; [done|split; [done|]|by left|done]. intros (ip' & [= <-] & E & _). congruence. }
  destruct (isRegional g ip) eqn:Er.
  - split_and!; [done|split; [|done]|by right; left|by intros Hx%Hn]. intros _. exists ip. by rewrite <- Hr.
  - split_and!; [done|split; [done|]|by right; right|done].
    intros (ip' & [= <-] & _ & Hin). apply Hr in Hin. congruence.
Qed.

(** Whatever fails during a download, the cached database is the old one or exactly the
    bytes of the reply; no error leaves it changed; every other file but the temporary one
    is untouched; and the status of the reply is not looked at, so the page of an HTTP
    error replaces the database too. *)
Theorem download_atomic io g fs :
  let '(fs', r) := download io g fs in
  (fs' !! dbPath g = fs !! dbPath g \/
   exists status body, dl_get io = Ok (status, body, None) /\ fs' !! dbPath g = Some body) /\
  (is_ok r = false -> fs' !! dbPath g = fs !! dbPath g) /\
  (forall p, p <> dbPath g -> p <> dl_tmp g -> fs' !! p = fs !! p) /\
  (forall status body, dl_get io = Ok (status, body, None) -> dl_create io = None -> dl_close io = None ->
     dl_rename io = None -> r = Ok tt /\ fs' !! dbPath g = Some body).
Proof using Type.
  assert (dbPath g <> dl_tmp g) as Hne.
  { unfold dl_tmp. intros E%(f_equal length). rewrite length_app in E. cbn in E. lia. }
  unfold download.
  destruct (dl_get io) as [[[status body] broken]|e]; [|split_and!; by (left || intros)].
  destruct (dl_create io) as [e|]; [split_and!; by (left || intros)|].
  assert (forall p, p <> dl_tmp g -> <[dl_tmp g := body]> fs !! p = fs !! p) as Hi by (intros; by apply lookup_insert_ne).
  assert (forall p, p <> dl_tmp g -> delete (dl_tmp g) (<[dl_tmp g := body]> fs) !! p = fs !! p) as Hd
    by (intros; rewrite lookup_delete_ne by done; auto).
  destruct broken as [e|]; [split_and!; auto; by intros|].
  destruct (dl_close io) as [e|]; [split_and!; auto; by intros|].
  destruct (dl_rename io) as [e|]; [split_and!; auto; by intros|].
  split_and!.
  - right. exists status, body. by rewrite lookup_insert_eq.
  - done.
  - intros p Hp Ht. rewrite lookup_insert_ne by done. auto.
  - intros ? ? [= -> ->] _ _ _. by rewrite lookup_insert_eq.
Qed.

(** A relay that has a reader keeps one: after any number of refreshes, whatever they
    download, the reader is the one it had or comes from the body of one of the replies;
    path, interval and regions never change. *)
Theorem refresh_keeps_reader ios g fs :
  let '(g', _) := refresh_ticks ios g fs in
  (reader g' = reader g \/
   exists io status body r, io ∈ ios /\ dl_get io = Ok (status, body, None) /\ geoip2_Open body = Ok r /\
     reader g' = Some r) /\
  dbPath g' = dbPath g /\ refresh g' = refresh g /\ regions g' = regions g.
Proof using Type.
  unfold refresh_ticks. revert g fs. induction ios as [|io ios IH]; intros g fs; cbn [foldl]; [by split_and!; [left|..]|].
  specialize (IH (refresh_tick io g fs).1 (refresh_tick io g fs).2).
  rewrite <- surjective_pairing in IH. cbn [fst snd] in *.
  destruct (foldl _ _ _) as [g' fs'].
  destruct IH as (Hr & E1 & E2 & E3).
  assert ((reader (refresh_tick io g fs).1 = reader g \/
           exists status body r, dl_get io = Ok (status, body, None) /\ geoip2_Open body = Ok r /\
             reader (refresh_tick io g fs).1 = Some r) /\
          dbPath (refresh_tick io g fs).1 = dbPath g /\ refresh (refresh_tick io g fs).1 = refresh g /\
          regions (refresh_tick io g fs).1 = regions g) as (Hr1 & F1 & F2 & F3).
  { unfold refresh_tick.
    destruct (download io g fs) as [fs1 [[]|e]] eqn:Ed; cbn [fst snd]; [|by split_and!; [left|..]].
    unfold load. destruct (fs1 !! dbPath g) as [data|] eqn:El; [|by split_and!; [left|..]].
    destruct (geoip2_Open data) as [r|] eqn:Eo; [|by split_and!; [left|..]].
    split_and!; [|done..]. right. cbn [fst with_reader reader].
    assert (exists status, dl_get io = Ok (status, data, None)) as [status Hs].
    { unfold download in Ed. destruct (dl_get io) as [[[status body] broken]|]; [|done]. exists status.
      destruct (dl_create io); [done|]. destruct broken; [done|]. destruct (dl_close io); [done|].
      destruct (dl_rename io); [done|]. apply pair_eq in Ed as [<- _]. rewrite lookup_insert_eq in El.
      by apply (inj Some) in El as <-. }
    by exists status, data, r. }
  split_and!; [|congruence..].
  destruct Hr as [Hr|(io' & status & body & r & Hin & Hrest)].
  - destruct Hr1 as [Hr1|(status & body & r & H1 & H2 & H3)]; [left; congruence|].
    right. exists io, status, body, r. split_and!; [by left|done|done|congruence].
  - right. exists io', status, body, r. split; [by right|done].
Qed.
End Database.
