(* ===== verification/GeoRun.v ===== *)
(** The classifier of [transport/relay/geoip.go] as it runs: the goroutine that [Start]
    launches replaces the reader of the database at every tick and closes the old one, while
    the requests of a relay look addresses up with the reader they have taken. *)
From Stdlib Require Import String.
From S2P Require Import Prelude Codec Block Text Net Relay GeoIP.

(** The readers are numbered in the order in which they are opened; [gr_closed] holds those
    that were closed.  A lookup in flight has an address and the reader it has taken. *)
Record lookup := { lk_ip : bytes; lk_handle : nat; lk_reader : Reader }.
Record running := {
  gr_geo : GeoIP;
  gr_files : files;
  gr_opened : nat;
  gr_closed : gset nat;
  gr_lookups : list lookup;
  gr_cancelled : bool;
  gr_returned : bool;
}.

Inductive event :=
  | ev_tick (io : download_io)
  | ev_cancel
  | ev_return
  | ev_take (ip : bytes)
  | ev_use (i : nat).

(** What an event shows: nothing, the answer of a lookup, or that it asks a reader that is
    closed. *)
Inductive shown := nothing | answer (ip : bytes) (regional : bool) | asks_closed (ip : bytes).

Definition non_positive_interval : error := ErrText "non-positive interval for NewTicker".

Definition with_lookups (s : running) (l : list lookup) : running :=
  {| gr_geo := gr_geo s; gr_files := gr_files s; gr_opened := gr_opened s; gr_closed := gr_closed s; gr_lookups := l;
     gr_cancelled := gr_cancelled s; gr_returned := gr_returned s |}.
Definition with_files (s : running) (fs : files) : running :=
  {| gr_geo := gr_geo s; gr_files := fs; gr_opened := gr_opened s; gr_closed := gr_closed s; gr_lookups := gr_lookups s;
     gr_cancelled := gr_cancelled s; gr_returned := gr_returned s |}.
Definition with_end (s : running) (returned : bool) : running :=
  {| gr_geo := gr_geo s; gr_files := gr_files s; gr_opened := gr_opened s; gr_closed := gr_closed s; gr_lookups := gr_lookups s;
     gr_cancelled := true; gr_returned := returned |}.
(** The next reader takes the place of the current one, which is closed. *)
Definition with_next (s : running) (g : GeoIP) : running :=
  {| gr_geo := g; gr_files := gr_files s; gr_opened := S (gr_opened s);
     gr_closed := match reader (gr_geo s) with Some _ => {[ pred (gr_opened s) ]} ∪ gr_closed s | None => gr_closed s end;
     gr_lookups := gr_lookups s; gr_cancelled := gr_cancelled s; gr_returned := gr_returned s |}.

(** What follows the lock in [isRegional]: the record of the address and the loop over the
    configured regions. *)
Definition regional_by (g : GeoIP) (r : Reader) (ip : bytes) : bool :=
  match r ip with
  | Err _ => false
  | Ok rec => existsb (region_matches (IsoCode rec) (default [] (head (Subdivisions rec)))) (regions g)
  end.

Lemma isRegional_by g r ip : regions g <> [] -> reader g = Some r -> isRegional g ip = regional_by g r ip.
Proof. unfold isRegional, regional_by. intros Hn ->. by destruct (regions g). Qed.

Section Run.
Context `{Geoip2}.

(** [Start]: the goroutine panics when the interval is not positive. *)
Definition launch (now : Z) (mtime : option Z) (io : download_io) (g : GeoIP) (fs : files) : result running :=
  let '(g, fs) := Start now mtime io g fs in
  if refresh g <=? 0 then Err non_positive_interval
  else Ok {| gr_geo := g; gr_files := fs; gr_opened := match reader g with Some _ => 1 | None => 0 end; gr_closed := ∅;
             gr_lookups := []; gr_cancelled := false; gr_returned := false |}.

(** [load] while requests are served. *)
Definition reload (s : running) : running :=
  match load (gr_geo s) (gr_files s) with
  | (_, Err _) => s
  | (g, Ok _) => with_next s g
  end.

(** One step: [None] when the event is not possible. *)
Definition step (ev : event) (s : running) : option (running * shown) :=
  match ev with
  | ev_tick io =>
      if gr_returned s then None
      else match download io (gr_geo s) (gr_files s) with
           | (fs, Err _) => Some (with_files s fs, nothing)
           | (fs, Ok _) => Some (reload (with_files s fs), nothing)
           end
  | ev_cancel => Some (with_end s (gr_returned s), nothing)
  | ev_return => if gr_cancelled s && negb (gr_returned s) then Some (with_end s true, nothing) else None
  | ev_take ip =>
      match regions (gr_geo s), reader (gr_geo s) with
      | _ :: _, Some r =>
          Some (with_lookups s (gr_lookups s ++ [{| lk_ip := ip; lk_handle := pred (gr_opened s); lk_reader := r |}]), nothing)
      | _, _ => Some (s, answer ip false)
      end
  | ev_use i =>
      match gr_lookups s !! i with
      | None => None
      | Some l =>
          Some (with_lookups s (delete i (gr_lookups s)),
                if bool_decide (lk_handle l ∈ gr_closed s) then asks_closed (lk_ip l)
                else answer (lk_ip l) (regional_by (gr_geo s) (lk_reader l) (lk_ip l)))
      end
  end.

Fixpoint steps (evs : list event) (s : running) : option (running * list shown) :=
  match evs with
  | [] => Some (s, [])
  | ev :: evs' =>
      match step ev s with
      | None => None
      | Some (s, o) => match steps evs' s with Some (s, os) => Some (s, o :: os) | None => None end
      end
  end.

(** ** What is kept *)

(** The readers opened are the current one and those before it, which are closed; a lookup
    whose reader is the current one has taken it. *)
Definition tidy_readers (s : running) : Prop :=
  match reader (gr_geo s) with
  | None => gr_opened s = 0%nat /\ gr_closed s = ∅ /\ gr_lookups s = []
  | Some r => exists k, gr_opened s = S k /\ (forall h, h ∈ gr_closed s <-> (h < k)%nat) /\
      Forall (fun l => (lk_handle l <= k)%nat /\ (lk_handle l = k -> lk_reader l = r)) (gr_lookups s)
  end /\ (regions (gr_geo s) = [] -> gr_lookups s = []).

Lemma launch_tidy now mtime io g fs s : reader g = None -> launch now mtime io g fs = Ok s -> tidy_readers s.
Proof using Type.
  unfold launch. intros _. destruct (Start now mtime io g fs) as [g' fs']. destruct (_ <=? _); [done|]. intros E%(inj Ok). subst s.
  unfold tidy_readers. cbn. split; [|done]. destruct (reader g'); [|done]. exists 0%nat. split_and!; [done| |constructor].
  intros h. split; [by intros ?%elem_of_empty|lia].
Qed.

Lemma step_tidy ev s s' o : tidy_readers s -> step ev s = Some (s', o) -> tidy_readers s'.
Proof using Type.
  intros Ht. pose proof Ht as [Hs Hn]. destruct ev as [io| | |ip|i]; cbn [step].
  - destruct (gr_returned s); [done|]. destruct (download _ _ _) as [fs [[]|e]]; intros [<- _]%(inj Some)%pair_eq; [|exact Ht].
    unfold reload, load. cbn [with_files gr_geo gr_files]. destruct (fs !! _) as [d|]; [|exact Ht]. destruct (geoip2_Open d) as [r|]; [|exact Ht].
    unfold tidy_readers. cbn. split; [|done]. unfold tidy_readers in Hs. destruct (reader (gr_geo s)) as [r0|].
    + destruct Hs as (k & -> & Hc & HF). exists (S k). split_and!; [done| |].
      * intros h. rewrite elem_of_union, elem_of_singleton, Hc. cbn. lia.
      * eapply Forall_impl; [exact HF|]. intros l [Hl _]. split; lia.
    + destruct Hs as (-> & -> & ->). exists 0%nat. split_and!; [done| |constructor]. intros h. split; [by intros ?%elem_of_empty|lia].
  - intros [<- _]%(inj Some)%pair_eq. exact Ht.
  - destruct (_ && _); [|done]. intros [<- _]%(inj Some)%pair_eq. exact Ht.
  - destruct (regions (gr_geo s)) as [|sp l] eqn:Er; [intros [<- _]%(inj Some)%pair_eq; exact Ht|].
    destruct (reader (gr_geo s)) as [r|] eqn:Ed; intros [<- _]%(inj Some)%pair_eq; [|exact Ht]. unfold tidy_readers. cbn. rewrite Ed, Er.
    split; [|done]. destruct Hs as (k & -> & Hc & HF). exists k. split_and!; [done|done|]. apply Forall_app. split; [done|].
    apply Forall_singleton. cbn. split; [lia|done].
  - destruct (gr_lookups s !! i) as [l|] eqn:El; [|done]. intros [<- _]%(inj Some)%pair_eq. unfold tidy_readers. cbn.
    destruct (reader (gr_geo s)) as [r|]; [|by destruct Hs as (_ & _ & Hs); rewrite Hs in El].
    split; [|intros Hr; by rewrite (Hn Hr) in El]. destruct Hs as (k & Ho & Hc & HF). exists k. split_and!; [done|done|]. by apply Forall_delete.
Qed.

Lemma steps_tidy evs s s' os : tidy_readers s -> steps evs s = Some (s', os) -> tidy_readers s'.
Proof using Type.
  revert s os. induction evs as [|ev evs IH]; intros s os Ht; cbn [steps]; [by intros [<- _]%(inj Some)%pair_eq|].
  destruct (step ev s) as [[s1 o]|] eqn:E; [|done]. destruct (steps evs s1) as [[s2 os']|] eqn:Es; [|done].
  intros [<- _]%(inj Some)%pair_eq. eapply IH; [by eapply step_tidy|exact Es].
Qed.

(** A lookup asks a closed reader exactly when the reader was replaced after the lookup took
    it; otherwise it answers as the classifier does at the moment it takes. *)
Lemma use_current s i l : tidy_readers s -> gr_lookups s !! i = Some l ->
  step (ev_use i) s = Some (with_lookups s (delete i (gr_lookups s)),
    if decide (S (lk_handle l) = gr_opened s) then answer (lk_ip l) (isRegional (gr_geo s) (lk_ip l)) else asks_closed (lk_ip l)).
Proof using Type.
  intros [Hs Hn] Hl. cbn [step]. rewrite Hl. do 2 f_equal. destruct (reader (gr_geo s)) as [r|] eqn:Er;
    [|by destruct Hs as (_ & _ & Hs); rewrite Hs in Hl].
  destruct Hs as (k & -> & Hc & HF). rewrite Forall_forall in HF. destruct (HF l) as [Hk Hr]; [by eapply list_elem_of_lookup_2|].
  assert (regions (gr_geo s) <> []) as Hne by (intros Hx; by rewrite (Hn Hx) in Hl).
  destruct (decide (S (lk_handle l) = S k)) as [[= E]|Hd].
  - rewrite bool_decide_false by (rewrite Hc; lia). by rewrite (isRegional_by _ r _ Hne Er), (Hr E).
  - rewrite bool_decide_true; [done|]. rewrite Hc. lia.
Qed.

(** The classifier as it runs.  It starts unless the interval is not positive, in which case
    the goroutine panics.  Whatever the order of refreshes, lookups and the end: every reader
    that was opened but the current one is closed, and the current one is not; a refresh does
    to the classifier and the files what it does alone; a lookup that no refresh overtakes
    answers as the classifier of the moment, and one that a refresh overtakes asks a reader
    that is closed; and once the goroutine has returned no refresh happens. *)
Theorem geoip_runs now mtime io g fs evs s os :
  reader g = None ->
  match launch now mtime io g fs with
  | Err e => e = non_positive_interval /\ refresh g <= 0
  | Ok s0 => 0 < refresh g /\ (gr_geo s0, gr_files s0) = Start now mtime io g fs /\
      (steps evs s0 = Some (s, os) ->
         (forall h, (h < gr_opened s)%nat -> (h ∈ gr_closed s <-> S h <> gr_opened s)) /\
         (forall io', match step (ev_tick io') s with
            | Some (s', _) => gr_returned s = false /\ (gr_geo s', gr_files s') = refresh_tick io' (gr_geo s) (gr_files s)
            | None => gr_returned s = true
            end) /\
         forall i l, gr_lookups s !! i = Some l ->
           step (ev_use i) s = Some (with_lookups s (delete i (gr_lookups s)),
             if decide (S (lk_handle l) = gr_opened s) then answer (lk_ip l) (isRegional (gr_geo s) (lk_ip l)) else asks_closed (lk_ip l)))
  end.
Proof using Type.
  intros Hg. pose proof (launch_tidy now mtime io g fs) as Ht. unfold launch in *.
  destruct (Start now mtime io g fs) as [g' fs'] eqn:Es. assert (refresh g' = refresh g) as Hr.
  { unfold Start in Es. destruct (ensureFresh _ _ _ _ _) as [fs1 r1]. unfold load in Es. destruct (fs1 !! dbPath g) as [d|]; [destruct (geoip2_Open d)|];
      by apply pair_eq in Es as [<- _]. }
  rewrite Hr in *. destruct (Z.leb_spec (refresh g) 0); [done|]. split; [done|]. split; [done|]. intros E.
  pose proof (steps_tidy _ _ _ _ (Ht _ Hg eq_refl) E) as Htidy. split_and!.
  - intros h Hh. pose proof Htidy as [Hs _]. destruct (reader (gr_geo s)); [|destruct Hs as (Hs & _); lia].
    destruct Hs as (k & Ho & Hc & _). rewrite Hc. lia.
  - intros io'. cbn [step]. destruct (gr_returned s); [done|]. unfold refresh_tick. destruct (download _ _ _) as [fs1 [[]|e]]; [|done].
    split; [done|]. unfold reload. cbn [with_files gr_geo gr_files]. unfold load. destruct (fs1 !! _) as [d|]; [destruct (geoip2_Open d)|]; done.
  - intros i l Hl. by apply use_current.
Qed.
End Run.

(** ** At concrete inputs *)

Module GeoRunDemo.
(** Every database says that an address is in the country the database is named after. *)
#[local] Instance ref_Geoip2 : Geoip2 := fun data => Ok (fun _ => Ok {| IsoCode := data; Subdivisions := [] |}).

Definition arrives (body : bytes) : download_io := {| dl_get := Ok (200, body, None); dl_create := None; dl_close := None; dl_rename := None |}.
Definition georgia : GeoIP := {| dbPath := bs "geo"; refresh := hour; regions := [{| country := bs "GE"; subdivision := [] |}]; reader := None |}.

(** A refresh between the taking of the reader and its use. *)
Definition overtaken : list event := [ev_take (bs "ip"); ev_tick (arrives (bs "US")); ev_use 0].

Definition overtaken_run : option (running * list shown) :=
  match launch 0 None (arrives (bs "GE")) georgia ∅ with Ok s => steps overtaken s | Err _ => None end.

(** A lookup can ask a reader that has been closed. *)
Lemma closed_in_use : snd <$> overtaken_run = Some [nothing; nothing; asks_closed (bs "ip")].
Proof. vm_compute. reflexivity. Qed.

Lemma geoip_runs_witness : match launch 0 None (arrives (bs "GE")) georgia ∅ with
  | Err _ => False
  | Ok s0 => (gr_geo s0, gr_files s0) = Start 0 None (arrives (bs "GE")) georgia ∅
  end.
Proof.
  pose proof (geoip_runs 0 None (arrives (bs "GE")) georgia ∅ [] (Build_running georgia ∅ 0 ∅ [] false false) [] eq_refl) as Hr.
  destruct (launch _ _ _ _ _) as [s0|e]; [exact (proj1 (proj2 Hr))|]. destruct Hr as [_ Hr]. vm_compute in Hr. by apply Hr.
Defined.
End GeoRunDemo.
