(* ===== verification/Sync.v ===== *)
(** Copying one store into another ([syncStores] of [cmd/snk/main.go], which the USB loop
    and the mass-storage command run), against an interface that says when a store merges
    what it is given; the flat-file store implements it. *)
From Stdlib Require Import String.
From S2P Require FlatFile FlatFileFacts.
From S2P Require Import Prelude Codec Block Store.

(** The counters of a copy and its first error. *)
Record tally := { t_copied : Z; t_skipped : Z; t_errs : Z; t_firstErr : option error }.
Definition tally0 : tally := {| t_copied := 0; t_skipped := 0; t_errs := 0; t_firstErr := None |}.

Definition one_copied (t : tally) : tally :=
  {| t_copied := t_copied t + 1; t_skipped := t_skipped t; t_errs := t_errs t; t_firstErr := t_firstErr t |}.
Definition one_skipped (t : tally) : tally :=
  {| t_copied := t_copied t; t_skipped := t_skipped t + 1; t_errs := t_errs t; t_firstErr := t_firstErr t |}.
Definition one_error (e : error) (t : tally) : tally :=
  {| t_copied := t_copied t; t_skipped := t_skipped t; t_errs := t_errs t + 1;
     t_firstErr := match t_firstErr t with Some f => Some f | None => Some e end |}.

Section Sync.
Context `{Hashes} {S : Type} `{Store S} {D : Type} `{Store D} (now : Z).

(** The body of the loop over the references of a page. *)
Definition sync_ref (src : S) (ref : BlockRef) (st : D * tally) : D * tally :=
  let '(dst, t) := st in
  match store_Get now src (br_ID ref) with
  | Err e => (dst, one_error (ErrWrap "get" e) t)
  | Ok (stamp, payload) =>
      let put :=
        match store_Put now stamp payload TagPhysical dst with
        | (dst, Err e) => (dst, one_error (ErrWrap "put" e) t)
        | (dst, Ok _) => (dst, one_copied t)
        end in
      match store_Has now dst (br_ID ref) with
      | Err e => (dst, one_error (ErrWrap "has" e) t)
      | Ok true =>
          match store_GetWorkFactor now dst (br_ID ref) with
          | Err _ => (dst, one_skipped t)
          | Ok dstWF => if br_WorkFactor ref <=? dstWF then (dst, one_skipped t) else put
          end
      | Ok false => put
      end
  end.

(** The whole copy; the error is that of a listing, the others are only counted. *)
Definition syncStores (fuel : nat) (src : S) (dst : D) : option (D * tally * option error) :=
  match page_loop (fun token => store_ListBlocks now src token 500 0 time_zero)
          (fun e st => Ok (st.1, Some (ErrWrap "list blocks" e)))
          (fun ref st => Ok (sync_ref src ref st.1, None)) fuel [] ((dst, tally0), None) with
  | Some (Ok r) => Some r
  | _ => None
  end.
End Sync.
Arguments sync_ref : simpl never.

(** ** A store that merges *)

(** While [mt_inv] holds the store answers, a [Put] succeeds and records the larger work
    factor under the id of the payload, and nothing else is changed. *)
Class MergeTarget (D : Type) `{Hashes, Store D} := {
  mt_inv : D -> Prop;
  mt_Has now d id : mt_inv d -> is_ID id -> store_Has now d id = Ok (is_ok (store_GetWorkFactor now d id));
  mt_Put now d stamp payload tag : mt_inv d -> 0 <= Unix now < 2 ^ 63 -> is_Stamp stamp -> is_Payload payload -> is_Tag tag ->
    let '(d', r) := store_Put now stamp payload tag d in
    r = Ok (ComputeID payload) /\ mt_inv d' /\
    store_GetWorkFactor now d' (ComputeID payload)
      = Ok (match store_GetWorkFactor now d (ComputeID payload) with
            | Ok w => Z.max w (WorkFactor stamp payload)
            | Err _ => WorkFactor stamp payload
            end) /\
    forall id, is_ID id -> id <> ComputeID payload -> store_GetWorkFactor now d' id = store_GetWorkFactor now d id;
}.

Section Merge.
Context `{HashesLaws} {S : Type} `{StoreLaws S} {D : Type} `{MergeTarget D} (now : Z) (Hnow : 0 <= Unix now < 2 ^ 63).
Context (src : S) (Hinv : store_inv src).
Context (Hok : forall t cur, valid_token (store_index src) t cur ->
  is_ok (store_ListBlocks now src t 500 0 time_zero) = true).
(** Blocks are found under the id of their payload, and the index knows their work factor. *)
Context (Hhonest : forall en stamp payload, en ∈ store_index src ->
  store_Get now src (cur_id (en_cursor en)) = Ok (stamp, payload) ->
  is_Stamp stamp /\ is_Payload payload /\ ComputeID payload = cur_id (en_cursor en) /\
  en_wf en = WorkFactor stamp payload).

Definition gettable (en : entry) : bool := is_ok (store_Get now src (cur_id (en_cursor en))).

(** The destination holds the block of an entry at its work factor or a larger one. *)
Definition settled (d : D) (en : entry) : Prop :=
  exists w, store_GetWorkFactor now d (cur_id (en_cursor en)) = Ok w /\ en_wf en <= w.

(** Nothing recorded is lost. *)
Definition no_loss (d d' : D) : Prop :=
  forall id w, is_ID id -> store_GetWorkFactor now d id = Ok w ->
  exists w', store_GetWorkFactor now d' id = Ok w' /\ w <= w'.

Lemma no_loss_refl d : no_loss d d.
Proof using Type. intros id w _ E. exists w. split; [done|lia]. Qed.

Lemma no_loss_trans d1 d2 d3 : no_loss d1 d2 -> no_loss d2 d3 -> no_loss d1 d3.
Proof using Type.
  intros H12 H23 id w Hid (w2 & E2 & L2)%H12; [|done]. destruct (H23 id w2 Hid E2) as (w3 & E3 & L3).
  exists w3. split; [done|lia].
Qed.

Lemma settled_no_loss d d' en : is_ID (cur_id (en_cursor en)) -> settled d en -> no_loss d d' -> settled d' en.
Proof using Type.
  intros Hid (w & E & L) Hg. destruct (Hg _ _ Hid E) as (w' & E' & L'). exists w'. split; [done|lia].
Qed.

Lemma index_is_ID en : en ∈ store_index src -> is_ID (cur_id (en_cursor en)).
Proof using Hinv.
  intros Hen. pose proof (store_index_wf _ Hinv) as HF. rewrite Forall_forall in HF. by apply (HF en Hen).
Qed.

(** A [Put] of a block of the source. *)
Lemma put_entry en d stamp payload : mt_inv d -> en ∈ store_index src ->
  store_Get now src (cur_id (en_cursor en)) = Ok (stamp, payload) ->
  exists d' i, store_Put now stamp payload TagPhysical d = (d', Ok i) /\ mt_inv d' /\ settled d' en /\ no_loss d d' /\
    forall x, is_ID x -> x <> cur_id (en_cursor en) -> store_GetWorkFactor now d' x = store_GetWorkFactor now d x.
Proof using Hnow Hhonest.
  intros Hd Hen Eg. destruct (Hhonest en stamp payload Hen Eg) as (Hs & Hp & Hc & Hw).
  pose proof (mt_Put now d stamp payload TagPhysical Hd Hnow Hs Hp is_Tag_physical) as Hput.
  destruct (store_Put now stamp payload TagPhysical d) as [d' [i|e]]; destruct Hput as (Hr & Hd' & Hg & Ho); [|done].
  rewrite Hc in Hg, Ho. exists d', i. split_and!; [done|done| | |done].
  - eexists. split; [exact Hg|]. destruct (store_GetWorkFactor now d _); lia.
  - intros x w Hx E. destruct (decide (x = cur_id (en_cursor en))) as [->|Hne].
    + rewrite E in Hg. eexists. split; [exact Hg|lia].
    + rewrite Ho by done. by apply no_loss_refl.
Qed.

Lemma sync_ref_spec r en d t : mt_inv d -> en ∈ store_index src -> ref_view r = entry_view en ->
  let '(d', t') := sync_ref now src r (d, t) in
  mt_inv d' /\ (gettable en = true -> settled d' en) /\ no_loss d d' /\
  (forall x, is_ID x -> x <> cur_id (en_cursor en) -> store_GetWorkFactor now d' x = store_GetWorkFactor now d x) /\
  t_errs t' = t_errs t + (if gettable en then 0 else 1) /\
  t_copied t' + t_skipped t' + t_errs t' = t_copied t + t_skipped t + t_errs t + 1 /\
  ((gettable en = true -> settled d en) -> d' = d /\ t_copied t' = t_copied t).
Proof using Hnow Hinv Hhonest.
  intros Hd Hen [= Hid Hwf]. unfold sync_ref, gettable. rewrite Hid, Hwf. pose proof (index_is_ID en Hen) as HID.
  pose proof (no_loss_refl d) as Hgr.
  destruct (store_Get now src (cur_id (en_cursor en))) as [[stamp payload]|e] eqn:Eg.
  2:{ cbn [is_ok one_error t_errs t_copied t_skipped]. split_and!; auto; lia. }
  destruct (put_entry en d stamp payload Hd Hen Eg) as (d' & i & Ep & Hd' & Hset & Hgr' & Ho).
  rewrite (mt_Has now d _ Hd HID). cbn [is_ok].
  destruct (store_GetWorkFactor now d (cur_id (en_cursor en))) as [w|e] eqn:Ew; cbn [is_ok].
  - destruct (Z.leb_spec (en_wf en) w) as [Hle|Hlt].
    + cbn [one_skipped t_errs t_copied t_skipped]. split_and!; auto; [|lia|lia]. intros _. by exists w.
    + rewrite Ep. cbn [one_copied t_errs t_copied t_skipped]. split_and!; auto; [lia|lia|].
      intros Hs. destruct (Hs eq_refl) as (w' & E & L). rewrite Ew in E. apply (inj Ok) in E. lia.
  - rewrite Ep. cbn [one_copied t_errs t_copied t_skipped]. split_and!; auto; [lia|lia|].
    intros Hs. destruct (Hs eq_refl) as (w' & E & L). by rewrite Ew in E.
Qed.

(** The copy of a list of references. *)
Definition sync_all (refs : list BlockRef) (st : D * tally) : D * tally :=
  foldl (fun st r => sync_ref now src r st) st refs.

Lemma sync_all_spec refs ens d t : mt_inv d -> ref_view <$> refs = entry_view <$> ens ->
  Forall (.∈ store_index src) ens ->
  let '(d', t') := sync_all refs (d, t) in
  mt_inv d' /\ (forall en, en ∈ ens -> gettable en = true -> settled d' en) /\ no_loss d d' /\
  (forall x, is_ID x -> (x ∉ (fun en => cur_id (en_cursor en)) <$> ens) ->
     store_GetWorkFactor now d' x = store_GetWorkFactor now d x) /\
  t_errs t' = t_errs t + Z.of_nat (length (filter (fun en => gettable en = false) ens)) /\
  t_copied t' + t_skipped t' + t_errs t' = t_copied t + t_skipped t + t_errs t + Z.of_nat (length ens) /\
  ((forall en, en ∈ ens -> gettable en = true -> settled d en) -> d' = d /\ t_copied t' = t_copied t).
Proof using Hnow Hinv Hhonest.
  revert ens d t. induction refs as [|r refs IH]; intros [|en ens] d t Hd Hv HF; try discriminate.
  - cbn. split_and!; try done; try lia; [by intros en ?%not_elem_of_nil|apply no_loss_refl].
  - rewrite !fmap_cons in Hv. injection Hv as Hid Hwf Hv. apply Forall_cons in HF as [Hen HF].
    unfold sync_all. cbn [foldl]. fold (sync_all refs (sync_ref now src r (d, t))).
    assert (ref_view r = entry_view en) as Hr by (unfold ref_view, entry_view; congruence).
    pose proof (sync_ref_spec r en d t Hd Hen Hr) as Hone.
    destruct (sync_ref now src r (d, t)) as [d1 t1]. destruct Hone as (Hd1 & S1 & G1 & O1 & E1 & C1 & N1).
    specialize (IH ens d1 t1 Hd1 Hv HF). destruct (sync_all refs (d1, t1)) as [d2 t2].
    destruct IH as (Hd2 & S2 & G2 & O2 & E2 & C2 & N2). split_and!.
    + done.
    + intros en' [->|Hin]%elem_of_cons Hg; [|by apply S2]. eapply settled_no_loss; [by apply index_is_ID|by apply S1|done].
    + by eapply no_loss_trans.
    + intros x Hx. rewrite fmap_cons, not_elem_of_cons. intros [Hne Hnin]. by rewrite O2, O1.
    + rewrite E2, E1. rewrite filter_cons. destruct (gettable en); [rewrite decide_False by done; lia|].
      rewrite decide_True by done. cbn [length]. lia.
    + cbn [length]. lia.
    + intros Hs. destruct (N1 (Hs en ltac:(by left))) as [-> <-]. apply N2. intros en' Hin. apply Hs. by right.
Qed.

(** *** Nothing else is gained *)

(** What a copy can leave behind for an id: what was there, or the work factor of an entry. *)
Definition no_gain (ens : list entry) (d d' : D) : Prop :=
  forall x w, is_ID x -> store_GetWorkFactor now d' x = Ok w ->
  store_GetWorkFactor now d x = Ok w \/ exists en, en ∈ ens /\ cur_id (en_cursor en) = x /\ en_wf en = w.

Lemma sync_ref_no_gain r en d t : mt_inv d -> en ∈ store_index src -> ref_view r = entry_view en ->
  no_gain [en] d (sync_ref now src r (d, t)).1.
Proof using Hnow Hinv Hhonest.
  intros Hd Hen [= Hid Hwf] x w Hx. unfold sync_ref. rewrite Hid, Hwf. pose proof (index_is_ID en Hen) as HID.
  destruct (store_Get now src (cur_id (en_cursor en))) as [[stamp payload]|e] eqn:Eg; [|by left].
  destruct (Hhonest en stamp payload Hen Eg) as (Hs & Hp & Hc & Hw).
  pose proof (mt_Put now d stamp payload TagPhysical Hd Hnow Hs Hp is_Tag_physical) as Hput. rewrite Hc in Hput.
  rewrite (mt_Has now d _ Hd HID). cbn [is_ok].
  destruct (store_Put now stamp payload TagPhysical d) as [d' [i|e]]; destruct Hput as (Hr & _ & Hg & Ho); [|done].
  destruct (store_GetWorkFactor now d (cur_id (en_cursor en))) as [v|e] eqn:Ev; cbn [is_ok].
  - destruct (Z.leb_spec (en_wf en) v); [by left|]. cbn [fst]. intros E.
    destruct (decide (x = cur_id (en_cursor en))) as [->|Hne]; [|left; by rewrite <- Ho].
    right. exists en. split_and!; [by left|done|]. rewrite Hg in E. apply (inj Ok) in E. lia.
  - cbn [fst]. intros E. destruct (decide (x = cur_id (en_cursor en))) as [->|Hne]; [|left; by rewrite <- Ho].
    right. exists en. split_and!; [by left|done|]. rewrite Hg in E. apply (inj Ok) in E. lia.
Qed.

(** What a copy keeps: whatever every [Put] of a block keeps. *)
Lemma sync_all_keeps (Q : D -> Prop) refs ens d t :
  (forall d stamp payload, Q d -> is_Stamp stamp -> is_Payload payload ->
     (exists en, en ∈ store_index src /\ cur_id (en_cursor en) = ComputeID payload /\
        store_Get now src (cur_id (en_cursor en)) = Ok (stamp, payload)) ->
     Q (store_Put now stamp payload TagPhysical d).1) ->
  mt_inv d -> ref_view <$> refs = entry_view <$> ens -> Forall (.∈ store_index src) ens ->
  Q d -> Q (sync_all refs (d, t)).1 /\ no_gain ens d (sync_all refs (d, t)).1.
Proof using Hnow Hinv Hhonest.
  intros HQ. revert ens d t. induction refs as [|r refs IH]; intros [|en ens] d t Hd Hv HF Hq; try discriminate.
  { split; [done|]. intros x w _ E. by left. }
  rewrite !fmap_cons in Hv. injection Hv as Hid Hwf Hv. apply Forall_cons in HF as [Hen HF].
  unfold sync_all. cbn [foldl]. fold (sync_all refs (sync_ref now src r (d, t))).
  assert (ref_view r = entry_view en) as Hr by (unfold ref_view, entry_view; congruence).
  pose proof (sync_ref_spec r en d t Hd Hen Hr) as Hone. pose proof (sync_ref_no_gain r en d t Hd Hen Hr) as Hg.
  assert (Q (sync_ref now src r (d, t)).1) as Hq1.
  { unfold sync_ref. destruct (store_Get now src (br_ID r)) as [[stamp payload]|e] eqn:Eg; [|done]. rewrite Hid in Eg.
    destruct (Hhonest en stamp payload Hen Eg) as (Hs & Hp & Hc & _).
    specialize (HQ d stamp payload Hq Hs Hp (ex_intro _ en (conj Hen (conj (eq_sym Hc) Eg)))).
    destruct (store_Has _ _ _) as [[]|]; [destruct (store_GetWorkFactor _ _ _); [destruct (_ <=? _)|]| |]; try done;
      by destruct (store_Put _ _ _ _ _) as [d' []]. }
  destruct (sync_ref now src r (d, t)) as [d1 t1]. destruct Hone as (Hd1 & _).
  destruct (IH ens d1 t1 Hd1 Hv HF Hq1) as [Hq2 Hg2]. split; [exact Hq2|]. intros x w Hx E.
  destruct (Hg2 x w Hx E) as [E1|(en' & Hin & E1)]; [|right; exists en'; split; [by right|done]].
  destruct (Hg x w Hx E1) as [E2|(en' & ->%list_elem_of_singleton & E2)]; [by left|]. right. exists en. split; [by left|done].
Qed.

Lemma sync_fold refs st :
  foldl (fun s r => (sync_ref now src r s.1, None : option error)) (st, None) refs = (sync_all refs st, None).
Proof using Type.
  revert st. induction refs as [|r refs IH]; intros st; cbn [foldl]; [done|]. by rewrite IH.
Qed.

(** The entries a copy visits. *)
Definition visited : list entry := remaining (store_index src) 0 (Unix time_zero) None.

Lemma visited_elem en : en ∈ visited <-> en ∈ store_index src /\ meets 0 (Unix time_zero) en = true.
Proof using Type.
  unfold visited, remaining, listed. rewrite list_elem_of_filter. cbn [after andb]. apply and_comm.
Qed.

Lemma syncStores_all fuel dst : (length (store_index src) < fuel)%nat -> exists refs,
  ref_view <$> refs = entry_view <$> visited /\
  syncStores now fuel src dst = Some (sync_all refs (dst, tally0), None).
Proof using Hinv Hok.
  intros Hf. destruct (page_loop_complete
    (fun e (st : D * tally * option error) => Ok (st.1, Some (ErrWrap "list blocks" e)))
    (fun ref st => Ok (sync_ref now src ref st.1, None)) now src 500 0 time_zero Hinv ltac:(lia) ltac:(by vm_compute)
    fuel ((dst, tally0), None) (fun ref st => (sync_ref now src ref st.1, None)))
    as (refs & Hv & Hl); [done|done| |].
  { eapply Nat.le_lt_trans; [apply length_filter|done]. }
  exists refs. split; [exact Hv|]. unfold syncStores. rewrite Hl. by rewrite sync_fold.
Qed.

(** A copy completes and merges.  When the source answers and serves its blocks under
    their ids, and the destination takes what it is given, the copy ends without error; every
    block of the source that can be read is then in the destination at its work factor or a
    larger one; nothing the destination held is lost and no other id is touched; each
    visited block is counted once, as copied, skipped or unreadable; and a second copy
    writes nothing. *)
Theorem syncStores_merges fuel dst :
  (length (store_index src) < fuel)%nat -> mt_inv dst ->
  exists d t, syncStores now fuel src dst = Some (d, t, None) /\ mt_inv d /\
    (forall en, en ∈ store_index src -> meets 0 (Unix time_zero) en = true -> gettable en = true -> settled d en) /\
    no_loss dst d /\
    (forall id, is_ID id -> (forall en, en ∈ store_index src -> cur_id (en_cursor en) <> id) ->
       store_GetWorkFactor now d id = store_GetWorkFactor now dst id) /\
    t_errs t = Z.of_nat (length (filter (fun en => gettable en = false) visited)) /\
    t_copied t + t_skipped t + t_errs t = Z.of_nat (length visited) /\
    exists t', syncStores now fuel src d = Some (d, t', None) /\ t_copied t' = 0.
Proof using All.
  intros Hf Hd. destruct (syncStores_all fuel dst Hf) as (refs & Hv & E).
  assert (Forall (.∈ store_index src) visited) as HF.
  { apply Forall_forall. by intros en [Hen _]%visited_elem. }
  pose proof (sync_all_spec refs visited dst tally0 Hd Hv HF) as Hall.
  destruct (sync_all refs (dst, tally0)) as [d t]. destruct Hall as (Hd1 & S1 & G1 & O1 & E1 & C1 & _).
  exists d, t. split_and!; [done|done| |done| |exact E1|exact C1|].
  - intros en Hen Hm Hg. apply S1; [|done]. by apply visited_elem.
  - intros id Hid Hn. apply O1; [done|]. intros (en & -> & [Hen _]%visited_elem)%list_elem_of_fmap. by apply (Hn en Hen).
  - destruct (syncStores_all fuel d Hf) as (refs' & Hv' & E').
    pose proof (sync_all_spec refs' visited d tally0 Hd1 Hv' HF) as Hall.
    destruct (sync_all refs' (d, tally0)) as [d' t']. destruct Hall as (_ & _ & _ & _ & _ & _ & N).
    destruct (N S1) as [-> Hc]. exists t'. split; [done|exact Hc].
Qed.
End Merge.

(** ** The flat-file store merges *)

Section Flat.
Import FlatFile FlatFileFacts.
Context `{GoSort, HashesLaws, GoFloat}.

(** A healthy volume without a limit. *)
Definition open_volume (s : FlatFileStore) : Prop := env s = io_ok /\ storageLimit s <= 0 /\ readable s.

Lemma readHeader_volume s id : open_volume s -> is_ID id ->
  (files s !! blockPath id = None /\ readHeader s (blockPath id) = Err ErrNotExist) \/
  exists h, readHeader s (blockPath id) = Ok h.
Proof using Type.
  intros (Henv & _ & Hr) Hid. unfold readHeader, os_Open. rewrite Henv. cbn [io_open io_ok].
  destruct (files s !! blockPath id) as [d|] eqn:E; [right|by left].
  pose proof (Hr _ _ (block_name_blockPath id Hid) E) as Hl. unfold ReadFull. case_decide; [lia|eauto].
Qed.

Lemma GetWorkFactor_volume s id w :
  GetWorkFactor s id = Ok w <-> exists h, readHeader s (blockPath id) = Ok h /\ w = h_wf h.
Proof using Type.
  unfold GetWorkFactor. destruct (readHeader s (blockPath id)) as [h|e].
  - split; [intros [= <-]; by exists h|intros (h' & [= <-] & ->); done].
  - destruct (IsNotExist e); split; try done; by intros (h' & ? & _).
Qed.

Lemma GetWorkFactor_lookup s1 s2 id : env s1 = io_ok -> env s2 = io_ok ->
  files s1 !! blockPath id = files s2 !! blockPath id -> GetWorkFactor s1 id = GetWorkFactor s2 id.
Proof using Type.
  intros E1 E2 Hf. unfold GetWorkFactor, readHeader, os_Open. by rewrite E1, E2, Hf.
Qed.

Lemma Put_volume now stamp payload tag s : open_volume s -> is_Stamp stamp -> is_Payload payload ->
  let id := ComputeID payload in
  let wf := WorkFactor stamp payload in
  exists s', Put now stamp payload tag s = (s', Ok id) /\ open_volume s' /\
    GetWorkFactor s' id = Ok (match GetWorkFactor s id with Ok w => Z.max w wf | Err _ => wf end) /\
    forall i, is_ID i -> i <> id -> GetWorkFactor s' i = GetWorkFactor s i.
Proof using All.
  intros (Henv & Hlim & Hr) Hs Hp id wf.
  pose proof (fun p => Put_files now stamp payload tag Hs Hp s p) as Hfiles.
  destruct (Put_ok now stamp payload tag Hs Hp s Henv) as (s' & E & Hs'). rewrite E in Hfiles.
  assert (env s' = io_ok /\ storageLimit s' <= 0) as [Henv' Hlim'].
  { destruct (Hfiles _ (block_name_blockPath _ (ComputeID_is_ID payload))) as (-> & -> & _). done. }
  assert (open_volume s') as Hv'.
  { split_and!; [done|done|]. intros p d Hb Hd.
    destruct (Hfiles p Hb) as (_ & _ & [(_ & _ & Hd')|[Hd'|[Hd' _]]]); rewrite Hd' in Hd.
    - apply (inj Some) in Hd as <-. rewrite length_encode_file. lia.
    - by apply (Hr p).
    - done. }
  exists s'. split_and!; [done|done| |]; destruct (keep_existing s (blockPath id) wf) eqn:Ek; fold id wf in Hs'.
  - rewrite Ek in Hs'. subst s'. apply keep_existing_iff in Ek as (h & Hh & Hle); [|done].
    assert (GetWorkFactor s id = Ok (h_wf h)) as -> by (apply GetWorkFactor_volume; eauto). f_equal. lia.
  - rewrite Ek in Hs'. destruct Hs' as [Hfile _].
    destruct (Get_Put_new now stamp payload tag Hs Hp s' Henv' Hfile) as [_ Hwf]. fold id wf in Hwf. rewrite Hwf. f_equal.
    destruct (GetWorkFactor s id) as [w|] eqn:Ew; [|done]. apply GetWorkFactor_volume in Ew as (h & Hh & ->).
    destruct (Z.le_gt_cases wf (h_wf h)); [|lia].
    assert (keep_existing s (blockPath id) wf = true); [|congruence]. apply keep_existing_iff; eauto.
  - rewrite Ek in Hs'. by subst s'.
  - rewrite Ek in Hs'. destruct Hs' as [_ Hf]. intros i Hi Hne. apply GetWorkFactor_lookup; [done|done|].
    rewrite Hf, lookup_insert_ne, lookup_delete_ne.
    + unfold enforce_limit. by rewrite (proj2 (Z.ltb_ge _ _)).
    + apply tmpPath_ne; apply block_name_blockPath; [apply ComputeID_is_ID|done].
    + by intros ?%blockPath_inj.
Qed.

#[export] Program Instance FlatFile_MergeTarget : MergeTarget FlatFileStore := { mt_inv := open_volume }.
Next Obligation.
  intros now s id Hv Hid. cbn [store_Has store_GetWorkFactor FlatFile_Store]. unfold Has, GetWorkFactor.
    destruct (readHeader_volume s id Hv Hid) as [[_ ->]|[h ->]]; done.
Qed.
Next Obligation.
  intros now s stamp payload tag Hv _ Hs Hp _. cbn [store_Put store_GetWorkFactor FlatFile_Store].
    destruct (Put_volume now stamp payload tag s Hv Hs Hp) as (s' & -> & Hv' & Hg & Ho). done.
Qed.
End Flat.

Module SyncDemo.
Import FlatFile FlatFileFacts FlatFileFacts.Demo.
#[local] Existing Instances ref_Hashes ref_HashesLaws ref_GoFloat.

(** An empty volume without a limit, and one with a block put there. *)
Definition volume : FlatFileStore := {| files := ∅; storageLimit := 0; env := io_ok |}.
Definition source : FlatFileStore := fst (Put 0 ref_stamp ref_payload TagLan volume).

Lemma source_files p d : files source !! p = Some d ->
  p = blockPath (ComputeID ref_payload) /\ d = encode_file ref_stamp (WorkFactor ref_stamp ref_payload) (Unix 0)
    (Unix (0 + TTLFromWorkFactor (WorkFactor ref_stamp ref_payload))) ref_payload.
Proof.
  destruct (Put_ok 0 ref_stamp ref_payload TagLan ref_stamp_ok ref_payload_ok volume eq_refl) as (s' & E & Hs').
  unfold source. rewrite E. cbn [fst].
  replace (keep_existing volume (blockPath (ComputeID ref_payload)) (WorkFactor ref_stamp ref_payload)) with false in Hs'
    by (unfold keep_existing, os_Open; cbn [env volume io_open io_ok files]; by rewrite lookup_empty).
  destruct Hs' as [_ ->]. change (files (enforce_limit volume)) with (∅ : gmap path bytes). rewrite delete_empty.
  intros [[<- <-]|[_ Hl]]%lookup_insert_Some; [done|by rewrite lookup_empty in Hl].
Qed.

Lemma source_env : env source = io_ok.
Proof. vm_compute. reflexivity. Qed.

Lemma source_inv : store_inv source.
Proof.
  intros p id [d Hd] Hn. apply source_files in Hd as [-> _].
  rewrite name_blockPath, name_id_hex in Hn by apply ComputeID_is_ID. by injection Hn as <-.
Qed.

Lemma source_answers t cur : valid_token (store_index source) t cur ->
  is_ok (store_ListBlocks 0 source t 500 0 time_zero) = true.
Proof.
  intros Htok. cbn [store_ListBlocks FlatFile_Store]. unfold ListBlocks.
  rewrite (parse_page_token_valid source t cur Htok). unfold WalkDir. rewrite source_env. cbn [io_walk io_ok mbind result_bind].
  by destruct (collect _ _ _ _ _).
Qed.

Lemma source_index : store_index source = [{| en_cursor := {| cur_createdAt := 0; cur_id := ComputeID ref_payload |};
  en_wf := WorkFactor ref_stamp ref_payload |}].
Proof. vm_compute. reflexivity. Qed.

Lemma source_length : (length (store_index source) < 2)%nat.
Proof. rewrite source_index. cbn. lia. Qed.

Lemma source_honest en stamp payload : en ∈ store_index source ->
  store_Get 0 source (cur_id (en_cursor en)) = Ok (stamp, payload) ->
  is_Stamp stamp /\ is_Payload payload /\ ComputeID payload = cur_id (en_cursor en) /\ en_wf en = WorkFactor stamp payload.
Proof.
  rewrite source_index. intros ->%list_elem_of_singleton. cbn [en_cursor cur_id en_wf].
  assert (store_Get 0 source (ComputeID ref_payload) = Ok (ref_stamp, ref_payload)) as -> by (vm_compute; reflexivity).
  intros [<- <-]%(inj Ok)%pair_eq. by split_and!; [apply ref_stamp_ok|apply ref_payload_ok|..].
Qed.

Lemma volume_inv : mt_inv volume.
Proof. split_and!; [done|done|]. intros p d _ Hd. cbn [files volume] in Hd. by rewrite lookup_empty in Hd. Qed.

Lemma syncStores_merges_witness : exists d t,
  syncStores 0 2 source volume = Some (d, t, None) /\ t_copied t + t_skipped t + t_errs t = 1.
Proof.
  destruct (syncStores_merges 0 ltac:(by vm_compute) source source_inv source_answers source_honest 2 volume source_length volume_inv)
    as (d & t & E & _ & _ & _ & _ & _ & Hc & _).
  exists d, t. split; [exact E|]. rewrite Hc. vm_compute. reflexivity.
Defined.
End SyncDemo.
