(* ===== verification/Exchange.v ===== *)
(** Stores that exchange blocks: the interface that every transport and every copy relies on,
    [Source] for what is read and [Exchange] for what takes blocks as well, with the
    implementations by the flat-file store and by the key-value store without a limit. *)
From Stdlib Require Import String.
From S2P Require FlatFile FlatFileFacts Badger BadgerFacts BadgerEvict BadgerSpec.
From S2P Require Import Prelude Codec Block Store Sync.

#[local] Existing Instances FlatFile.FlatFile_Store FlatFileFacts.FlatFile_StoreLaws.

(** ** The interface *)

(** A store that lists and serves blocks, and whose index says what it holds. *)
Class Source (S : Type) `{Hashes, Store S, !StoreLaws S} := {
  src_inv : S -> Prop;
  src_store_inv s : src_inv s -> store_inv s;
  src_lists now s limit floor since t c : src_inv s -> valid_token (store_index s) t c ->
    is_ok (store_ListBlocks now s t limit floor since) = true;
  src_honest now s en : src_inv s -> en ∈ store_index s ->
    meets 0 (Unix time_zero) en = true /\
    exists stamp payload, store_Get now s (cur_id (en_cursor en)) = Ok (stamp, payload) /\ is_Stamp stamp /\ is_Payload payload /\
      ComputeID payload = cur_id (en_cursor en) /\ en_wf en = WorkFactor stamp payload;
  src_index now s id w : src_inv s -> is_ID id ->
    (store_GetWorkFactor now s id = Ok w <-> exists en, en ∈ store_index s /\ cur_id (en_cursor en) = id /\ en_wf en = w);
  src_still now now' s id : src_inv s -> is_ID id -> store_GetWorkFactor now s id = store_GetWorkFactor now' s id;
  src_unique s : src_inv s -> NoDup ((fun en => cur_id (en_cursor en)) <$> store_index s);
}.

(** The entry of a block stored at a time. *)
Definition put_entry_at `{Hashes} (now : Z) (stamp : Stamp) (payload : Payload) : entry :=
  {| en_cursor := {| cur_createdAt := Unix now; cur_id := ComputeID payload |}; en_wf := WorkFactor stamp payload |}.

(** A source that takes blocks as well: what a [Put] adds to the index is the entry of the
    block, and what can be read afterwards could be read before or is the block. *)
Class Exchange (S : Type) `{Source S, !MergeTarget S} := {
  ex_inv : S -> Prop;
  ex_src_inv s : ex_inv s -> src_inv s;
  ex_mt_inv s : ex_inv s -> mt_inv s;
  ex_Put now s stamp payload tag :
    ex_inv s -> 0 <= Unix now < 2 ^ 63 -> is_Stamp stamp -> is_Payload payload -> is_Tag tag ->
    let s' := (store_Put now stamp payload tag s).1 in
    ex_inv s' /\
    (forall en, en ∈ store_index s' -> en ∈ store_index s \/ en = put_entry_at now stamp payload) /\
    forall now' id sp, is_ID id -> store_Get now' s' id = Ok sp ->
      store_Get now' s id = Ok sp \/ (id = ComputeID payload /\ sp = (stamp, payload));
}.

Lemma ex_takes {S} `{Exchange S} now (s : S) stamp payload tag :
  ex_inv s -> 0 <= Unix now < 2 ^ 63 -> is_Stamp stamp -> is_Payload payload -> is_Tag tag ->
  let '(s', r) := store_Put now stamp payload tag s in is_ok r = true /\ ex_inv s'.
Proof.
  intros Hs Hnow Hst Hp Ht. pose proof (mt_Put now s stamp payload tag (ex_mt_inv s Hs) Hnow Hst Hp Ht) as Hmt.
  pose proof (proj1 (ex_Put now s stamp payload tag Hs Hnow Hst Hp Ht)) as Hex.
  destruct (store_Put now stamp payload tag s) as [s' r]. split; [by rewrite (proj1 Hmt)|exact Hex].
Qed.

(** What a store holds under an id, and the better of two. *)
Definition holds {S} `{Store S} (now : Z) (s : S) (id : ID) : option Z :=
  match store_GetWorkFactor now s id with Ok w => Some w | Err _ => None end.
Definition better (a b : option Z) : option Z := union_with (fun x y => Some (Z.max x y)) a b.

Lemma better_comm a b : better a b = better b a.
Proof. destruct a, b; cbn; try done. by rewrite Z.max_comm. Qed.
Lemma better_assoc a b c : better a (better b c) = better (better a b) c.
Proof. destruct a, b, c; cbn; try done. by rewrite Z.max_assoc. Qed.
Lemma better_idem a : better a a = a.
Proof. destruct a; cbn; try done. by rewrite Z.max_id. Qed.
Lemma better_absorb a b : better a (better a b) = better a b.
Proof. by rewrite better_assoc, better_idem. Qed.

Lemma holds_Some {S} `{Store S} now (s : S) id w : holds now s id = Some w <-> store_GetWorkFactor now s id = Ok w.
Proof. unfold holds. destruct (store_GetWorkFactor now s id); split; congruence. Qed.

(** ** An exact copy *)

Section Copy.
Context `{HashesLaws} {S : Type} `{!Store S, !StoreLaws S, !Source S}.
Context {D : Type} `{!Store D, !StoreLaws D, !Source D, !MergeTarget D, !Exchange D}.
Context (now : Z) (Hnow : 0 <= Unix now < 2 ^ 63).

(** The copy makes the destination the better of both, for every id. *)
Lemma syncStores_keeps (Q : D -> Prop) fuel (src : S) (dst : D) :
  (forall d stamp payload, ex_inv d -> Q d -> is_Stamp stamp -> is_Payload payload ->
     (exists en, en ∈ store_index src /\ cur_id (en_cursor en) = ComputeID payload /\
        store_Get now src (cur_id (en_cursor en)) = Ok (stamp, payload)) ->
     Q (store_Put now stamp payload TagPhysical d).1) -> Q dst ->
  src_inv src -> ex_inv dst -> (length (store_index src) < fuel)%nat ->
  exists d t, syncStores now fuel src dst = Some (d, t, None) /\ ex_inv d /\ Q d /\
    forall id, is_ID id -> holds now d id = better (holds now dst id) (holds now src id).
Proof using All.
  intros HQ HQd Hs Hd Hf. pose proof (src_store_inv _ Hs) as Hsi. pose proof (ex_mt_inv _ Hd) as Hdm.
  assert (forall t c, valid_token (store_index src) t c -> is_ok (store_ListBlocks now src t 500 0 time_zero) = true) as Hok
    by (intros t c; by apply (src_lists now src 500 0 time_zero t c Hs)).
  assert (forall en stamp payload, en ∈ store_index src -> store_Get now src (cur_id (en_cursor en)) = Ok (stamp, payload) ->
    is_Stamp stamp /\ is_Payload payload /\ ComputeID payload = cur_id (en_cursor en) /\ en_wf en = WorkFactor stamp payload) as Hh.
  { intros en stamp payload Hen Hg. destruct (src_honest now src en Hs Hen) as (_ & stamp' & payload' & Hg' & Hrest).
    rewrite Hg in Hg'. apply (inj Ok), pair_eq in Hg' as [<- <-]. exact Hrest. }
  destruct (syncStores_all now src Hsi Hok fuel dst Hf) as (refs & Hv & E).
  assert (Forall (.∈ store_index src) (visited src)) as HF by (apply Forall_forall; by intros en [Hen _]%visited_elem).
  pose proof (sync_all_spec now Hnow src Hsi Hh refs (visited src) dst tally0 Hdm Hv HF) as Hall.
  destruct (sync_all_keeps now Hnow src Hsi Hh (fun d => ex_inv d /\ Q d) refs (visited src) dst tally0) as [[Hq HQ'] Hg]; [|done..|].
  { intros d stamp payload [Hi Hq] Hst Hp Hin. split; [by apply ex_Put; [..|apply is_Tag_physical]|by apply HQ]. }
  destruct (sync_all now src refs (dst, tally0)) as [d t]. destruct Hall as (_ & S1 & G1 & _). cbn [fst] in *.
  exists d, t. split; [exact E|]. split; [exact Hq|]. split; [exact HQ'|]. intros id Hid.
  assert (forall w, holds now src id = Some w -> exists w', holds now d id = Some w' /\ w <= w') as Hup.
  { intros w Hw. apply holds_Some, (src_index now src id w Hs Hid) in Hw as (en & Hen & <- & <-).
    destruct (src_honest now src en Hs Hen) as (Hm & stamp & payload & Hget & _).
    destruct (S1 en) as (w & Hw & Hle); [by apply visited_elem|unfold gettable; by rewrite Hget|].
    exists w. split; [by apply holds_Some|done]. }
  assert (forall w, holds now dst id = Some w -> exists w', holds now d id = Some w' /\ w <= w') as Hup'.
  { intros w Hw. apply holds_Some in Hw. destruct (G1 id w Hid Hw) as (w' & Hw' & Hle). exists w'. split; [by apply holds_Some|done]. }
  assert (forall w, holds now d id = Some w -> holds now dst id = Some w \/ holds now src id = Some w) as Hdown.
  { intros w Hw. apply holds_Some in Hw. destruct (Hg id w Hid Hw) as [Hw'|(en & [Hen _]%visited_elem & <- & <-)]; [left; by apply holds_Some|].
    right. apply holds_Some, (src_index now src _ _ Hs Hid). by exists en. }
  destruct (holds now d id) as [w|].
  - destruct (Hdown w eq_refl) as [Hw|Hw]; rewrite Hw in *.
    + destruct (holds now src id) as [v|]; cbn; [|done]. destruct (Hup v eq_refl) as (? & [= <-] & ?). f_equal. lia.
    + destruct (holds now dst id) as [v|]; cbn; [|done]. destruct (Hup' v eq_refl) as (? & [= <-] & ?). f_equal. lia.
  - destruct (holds now src id) as [v|]; [by destruct (Hup v eq_refl) as (? & ? & _)|].
    destruct (holds now dst id) as [v|]; [by destruct (Hup' v eq_refl) as (? & ? & _)|]. done.
Qed.

Lemma syncStores_exact fuel (src : S) (dst : D) :
  src_inv src -> ex_inv dst -> (length (store_index src) < fuel)%nat ->
  exists d t, syncStores now fuel src dst = Some (d, t, None) /\ ex_inv d /\
    forall id, is_ID id -> holds now d id = better (holds now dst id) (holds now src id).
Proof using All.
  intros Hs Hd Hf. destruct (syncStores_keeps (fun _ => True) fuel src dst) as (d & t & E & Hi & _ & Hh); try done. by exists d, t.
Qed.
End Copy.

(** ** The flat-file store can be exchanged *)

Section Flat.
Import FlatFile FlatFileFacts.
Context `{GoSort, HashesLaws, GoFloat}.

(** A volume written by [Put] only: every block file is the file of a block, at the path of
    its id, with the work factor of the block. *)
Definition sound_volume (s : FlatFileStore) : Prop :=
  open_volume s /\ tidy s /\
  forall id d, is_ID id -> files s !! blockPath id = Some d ->
  exists stamp payload created expires, is_Stamp stamp /\ is_Payload payload /\ ComputeID payload = id /\
    Unix time_zero <= created < 2 ^ 63 /\
    d = encode_file stamp (WorkFactor stamp payload) created expires payload.

Lemma encode_file_expires stamp wf created expires payload :
  encode_file stamp wf created expires payload = encode_file stamp wf created (to_s64 expires) payload.
Proof using Type.
  unfold encode_file. replace (to_u64 (to_s64 expires)) with (to_u64 expires); [done|].
  unfold to_u64, to_s64. case_match; Z.div_mod_to_equations; lia.
Qed.

Lemma volume_header s id : sound_volume s -> is_ID id -> forall d, files s !! blockPath id = Some d ->
  exists stamp payload created expires, is_Stamp stamp /\ is_Payload payload /\ ComputeID payload = id /\
    Unix time_zero <= created /\ Get s id = Ok (stamp, payload) /\
    readHeader s (blockPath id) = Ok {| h_stamp := stamp; h_wf := WorkFactor stamp payload;
                                        h_createdAt := created; h_expiresAt := expires |}.
Proof using Type*.
  intros ((Henv & _ & _) & _ & Hs) Hid d Hd. destruct (Hs id d Hid Hd) as (stamp & payload & c & e & Hst & Hp & Hc & Hr & ->).
  rewrite encode_file_expires in Hd. exists stamp, payload, c, (to_s64 e).
  split_and!; [done|done|done|lia|..].
  - erewrite Get_file; [|done|exact Hd|apply length_encode_file].
    by rewrite encode_file_stamp, encode_file_payload.
  - apply readHeader_Ok. rewrite Henv. split; [done|]. eexists. split_and!; [exact Hd|rewrite length_encode_file; lia|].
    symmetry. apply encode_file_header; [done|done|pose proof (WorkFactor_range stamp payload); lia| |apply to_s64_range].
    unfold in_s64. assert (Unix time_zero = -62135596800) by (vm_compute; reflexivity). lia.
Qed.

(** A block file after a [Put] was there before or is that of the block. *)
Lemma Put_block_file now stamp payload tag s id d : is_Stamp stamp -> is_Payload payload -> is_ID id ->
  files (Put now stamp payload tag s).1 !! blockPath id = Some d ->
  files s !! blockPath id = Some d \/
  (id = ComputeID payload /\
   d = encode_file stamp (WorkFactor stamp payload) (Unix now) (Unix (now + TTLFromWorkFactor (WorkFactor stamp payload))) payload).
Proof using Type*.
  intros Hst Hp Hid. pose proof (Put_files now stamp payload tag Hst Hp s _ (block_name_blockPath id Hid)) as Hf.
  destruct (Put now stamp payload tag s) as [s' r]. cbn [fst]. intros Hd.
  destruct Hf as (_ & _ & [(Hpath & _ & Hf)|[Hf|[Hf _]]]); rewrite Hf in Hd; [|by left|done].
  apply (inj Some) in Hd as <-. apply blockPath_inj in Hpath as ->. by right.
Qed.

Lemma Put_sound now stamp payload tag s : sound_volume s -> 0 <= Unix now < 2 ^ 63 -> is_Stamp stamp -> is_Payload payload ->
  sound_volume (Put now stamp payload tag s).1.
Proof using Type*.
  intros (Hv & Ht & Hs) Hnow Hst Hp. split_and!.
  - by destruct (Put_volume now stamp payload tag s Hv Hst Hp) as (s' & -> & Hv' & _).
  - by apply flat_tidy_preserved.
  - intros id d Hid [Hd|[-> ->]]%Put_block_file; [by apply Hs| |done..].
    assert (Unix time_zero = -62135596800) by (vm_compute; reflexivity).
    exists stamp, payload, (Unix now), (Unix (now + TTLFromWorkFactor (WorkFactor stamp payload))). split_and!; [done|done|done|lia|tauto|done].
Qed.

Lemma sound_env s : sound_volume s -> env s = io_ok.
Proof using Type. by intros ((Henv & _) & _). Qed.

Lemma Put_sound_index now stamp payload tag s en : sound_volume s -> 0 <= Unix now < 2 ^ 63 -> is_Stamp stamp -> is_Payload payload ->
  en ∈ flat_index (Put now stamp payload tag s).1 -> en ∈ flat_index s \/ en = put_entry_at now stamp payload.
Proof using Type*.
  intros Hs Hnow Hst Hp. pose proof (Put_sound now stamp payload tag s Hs Hnow Hst Hp) as Hs'.
  intros (id & h & Hid & (_ & d & Hd & Hlen & ->)%readHeader_Ok & ->)%flat_index_elem; [|apply Hs'].
  apply Put_block_file in Hd as [Hd|[-> ->]]; [| |done..].
  - left. apply flat_index_elem; [apply Hs|]. eexists id, _. split_and!; [done| |done].
    apply readHeader_Ok. rewrite (sound_env s Hs). eauto.
  - right. unfold put_entry_at. rewrite encode_file_expires, encode_file_header; [done|done|done|pose proof (WorkFactor_range stamp payload); lia|
      unfold in_s64; lia|apply to_s64_range].
Qed.

Lemma Put_sound_Get now stamp payload tag s id sp : sound_volume s -> 0 <= Unix now < 2 ^ 63 -> is_Stamp stamp -> is_Payload payload ->
  is_ID id -> Get (Put now stamp payload tag s).1 id = Ok sp ->
  Get s id = Ok sp \/ (id = ComputeID payload /\ sp = (stamp, payload)).
Proof using Type*.
  intros Hs Hnow Hst Hp Hid Hg. pose proof (sound_env _ (Put_sound now stamp payload tag s Hs Hnow Hst Hp)) as Henv.
  destruct (files (Put now stamp payload tag s).1 !! blockPath id) as [d|] eqn:Hd.
  - destruct (Put_block_file now stamp payload tag s id d Hst Hp Hid Hd) as [Hd'|[-> ->]].
    + left. rewrite <- Hg. unfold Get, os_Open. by rewrite Henv, (sound_env s Hs), Hd, Hd'.
    + right. split; [done|]. rewrite (Get_file _ _ _ Henv Hd (length_encode_file _ _ _ _ _)) in Hg.
      rewrite encode_file_stamp, encode_file_payload in Hg by done. by apply (inj Ok) in Hg.
  - unfold Get, os_Open in Hg. by rewrite Henv, Hd in Hg.
Qed.

Lemma volume_index s en : sound_volume s -> en ∈ flat_index s ->
  exists stamp payload, Get s (cur_id (en_cursor en)) = Ok (stamp, payload) /\ is_Stamp stamp /\ is_Payload payload /\
    ComputeID payload = cur_id (en_cursor en) /\ en_wf en = WorkFactor stamp payload /\
    Unix time_zero <= cur_createdAt (en_cursor en) /\ GetWorkFactor s (cur_id (en_cursor en)) = Ok (en_wf en).
Proof using Type*.
  intros Hs. pose proof Hs as (_ & Ht & _). intros (id & h & Hid & Hh & ->)%flat_index_elem; [|done]. cbn [en_cursor cur_id en_wf cur_createdAt].
  pose proof Hh as (_ & d & Hd & _)%readHeader_Ok. destruct (volume_header s id Hs Hid d Hd) as (st & p & c & e & ? & ? & ? & ? & Hg & Hh').
  rewrite Hh in Hh'. apply (inj Ok) in Hh' as ->. cbn [h_wf h_createdAt].
  exists st, p. split_and!; try done. apply GetWorkFactor_volume. eauto.
Qed.

#[export] Program Instance FlatFile_Source : Source FlatFileStore := { src_inv := sound_volume }.
Next Obligation. by intros s (_ & Ht & _). Qed.
Next Obligation.
  intros now s limit floor since t c ((Henv & _) & Ht & _) Htok. cbn [store_ListBlocks FlatFile_Store]. unfold ListBlocks.
  rewrite (parse_page_token_valid s t c Htok). unfold WalkDir. rewrite Henv. cbn [io_walk io_ok mbind result_bind].
  by destruct (collect _ _ _ _ _).
Qed.
Next Obligation.
  intros now s en Hs Hen. destruct (volume_index s en Hs Hen) as (st & p & Hg & ? & ? & ? & Hw & Hc & _). split; [|by exists st, p].
  unfold meets. rewrite andb_true_iff, !Z.leb_le. split; [|done]. rewrite Hw. apply WorkFactor_range.
Qed.
Next Obligation.
  intros now s id w Hs Hid. cbn [store_GetWorkFactor FlatFile_Store store_index FlatFile_StoreLaws]. split.
  - intros (h & Hh & ->)%GetWorkFactor_volume. eexists. split_and!; [apply flat_index_elem; [apply Hs|eauto]|done|done].
  - intros (en & Hen & <- & <-). by destruct (volume_index s en Hs Hen) as (? & ? & _ & _ & _ & _ & _ & _ & ?).
Qed.
Next Obligation. done. Qed.
Next Obligation.
  intros s Hs. cbn [store_index FlatFile_StoreLaws]. pose proof (flat_index_sorted s (proj1 (proj2 Hs))) as Hsort.
  apply NoDup_fmap_2_strong; [|by eapply (StronglySorted_NoDup _ _ (fun x Hx => eq_true_false_abs _ Hx (lex_ltb_irrefl _)))].
  intros x y Hx%flat_index_elem Hy%flat_index_elem; [|apply Hs..]. destruct Hx as (i & h & Hi & Hh & ->), Hy as (j & k & Hj & Hk & ->).
  cbn. intros ->. rewrite Hh in Hk. apply (inj Ok) in Hk as ->. done.
Qed.

#[export] Program Instance FlatFile_Exchange : Exchange FlatFileStore := { ex_inv := sound_volume }.
Next Obligation. done. Qed.
Next Obligation. by intros s (Hv & _). Qed.
Next Obligation.
  intros now s stamp payload tag Hs Hnow Hst Hp _. cbn zeta. split_and!; [by apply Put_sound|by intros en; apply Put_sound_index|].
  intros now2 id sp. by apply Put_sound_Get.
Qed.
End Flat.

(** ** The key-value store can be exchanged when it has no limit *)

Section KeyValue.
Import Badger BadgerFacts.
Context `{BadgerLaws, HashesLaws, GoSort, GoFloat, GoMapRange}.

(** Nothing fails while reading. *)
Class ReadsSucceed : Prop := {
  reads_Get t k e : txn_Get t k = Err e -> e = ErrKeyNotFound;
  reads_Value t k it : txn_Get t k = Ok it -> is_ok (item_Value it) = true;
  reads_Iterate t pre start k it : (k, it) ∈ txn_Iterate t pre start -> is_ok (item_Value it) = true;
}.
Context `{!ReadsSucceed}.

(** A database that represents blocks under their ids, with their work factors. *)
Definition sound_map (bl : gmap ID stored) : Prop :=
  forall id r, bl !! id = Some r -> ComputeID (st_payload r) = id /\ st_wf r = WorkFactor (st_stamp r) (st_payload r).
Definition sound_db (s : BadgerStore) : Prop := exists bl, rep (db_map (db s)) bl /\ sound_map bl.

Lemma list_loop_answers limit powFloor since items refs last :
  Forall (fun it => is_ok (item_Value it.2) = true) items -> is_ok (list_loop limit powFloor since items refs last) = true.
Proof using Type.
  revert refs last. induction items as [|[k it] items IH]; intros refs last HF; cbn [list_loop]; [done|].
  apply Forall_cons in HF as [Hit HF]. case_match; [done|]. case_match; [by apply IH|]. case_match; [by apply IH|].
  cbn [snd] in Hit. destruct (item_Value it) as [v|]; [|done]. cbn [mbind result_bind].
  destruct (decode_trav v). case_match; by apply IH.
Qed.

Lemma skip_cursor_elem cur (items : list (bytes * Item)) it : it ∈ skip_cursor cur items -> it ∈ items.
Proof using Type.
  unfold skip_cursor. destruct cur as [c|]; [|done]. destruct items as [|[k i] items]; [done|].
  case_match; [by right|done].
Qed.

Lemma badger_lists now s bl limit floor since t c : rep (db_map (db s)) bl -> valid_token (badger_index (db_map (db s))) t c ->
  is_ok (ListBlocks now s t limit floor since) = true.
Proof using Type*.
  intros Hrep Htok. unfold ListBlocks.
  assert ((if decide (t = []) then Ok None else Some <$> decodeCursor t) = Ok c) as ->.
  { destruct Htok as [|e He]; [done|]. rewrite decide_False by apply encodeCursor_not_nil.
    destruct (badger_index_entry _ _ Hrep e He) as [Hid Hc].
    rewrite cursor_roundtrip; [done|]. split; [unfold in_s64, in_created in *; lia|done]. }
  cbn [mbind result_bind]. set (items := skip_cursor _ _).
  assert (Forall (fun it : bytes * Item => is_ok (item_Value it.2) = true) items) as HF.
  { apply Forall_forall. intros [k it] Hit%skip_cursor_elem. by eapply reads_Iterate. }
  pose proof (list_loop_answers limit floor (if Unix since <? 0 then 0 else Unix since) items [] zero_cursor HF) as Hok.
  by destruct (list_loop _ _ _ _ _ _) as [[refs last]|].
Qed.

(** Reading an id finds its block, or there is none. *)
Lemma badger_answers now s bl id : rep (db_map (db s)) bl -> is_ID id ->
  match bl !! id with
  | Some r => Get now s id = Ok (st_stamp r, st_payload r) /\ GetWorkFactor now s id = Ok (st_wf r)
  | None => GetWorkFactor now s id = Err ErrNotFound
  end.
Proof using Type*.
  intros Hrep Hid. pose proof (Get_spec now s bl Hrep id Hid) as Hg. pose proof (GetWorkFactor_spec now s bl Hrep id Hid) as Hw.
  pose proof (txn_Get_block _ bl id (start_rep now s bl Hrep) Hid) as Hb.
  destruct (bl !! id) as [r|] eqn:El.
  - destruct (txn_Get (NewTransaction now (db s)) (blockKey id)) as [it|e] eqn:Et.
    + destruct Hb as (r' & Hr' & Hwf & Hv). injection Hr' as <-. pose proof (reads_Value _ _ _ Et) as Hok.
      destruct (item_Value it) as [v|e] eqn:Ev; [|done]. pose proof (Hv v eq_refl) as ->.
      unfold Get, GetWorkFactor in *. rewrite Et in *. rewrite Ev in *. cbn [mbind result_bind] in *.
      rewrite decode_block_val by done. split; [done|]. rewrite length_block_val.
      rewrite (proj2 (Nat.ltb_ge _ _)) by (unfold blockValHeaderSize; lia). by rewrite block_val_wf.
    + pose proof (reads_Get _ _ _ Et) as ->. done.
  - unfold GetWorkFactor in *. destruct (txn_Get (NewTransaction now (db s)) (blockKey id)) as [it|e] eqn:Et.
    + destruct Hb as (r' & Hr' & _). done.
    + by pose proof (reads_Get _ _ _ Et) as ->.
Qed.

#[export] Program Instance Badger_Source : Source BadgerStore := { src_inv := sound_db }.
Next Obligation. intros s (bl & Hrep & _). by exists bl. Qed.
Next Obligation. intros now s limit floor since t c (bl & Hrep & _) Ht. by eapply badger_lists. Qed.
Next Obligation.
  intros now s en (bl & Hrep & Hs) (id & r & Hl & ->)%(badger_index_elem _ _ Hrep). cbn [stored_entry en_cursor cur_id en_wf].
  destruct (rep_wf _ _ Hrep id r Hl) as (Hid & Hst & Hp & Hw & Hc & _). destruct (Hs id r Hl) as [Hcid Hwf].
  pose proof (badger_answers now s bl id Hrep Hid) as Ha. rewrite Hl in Ha. destruct Ha as [Hg _].
  split; [|by exists (st_stamp r), (st_payload r)]. unfold meets, stored_entry. cbn [en_cursor cur_createdAt en_wf]. rewrite andb_true_iff, !Z.leb_le.
  unfold in_created in Hc. assert (Unix time_zero = -62135596800) by (vm_compute; reflexivity). lia.
Qed.
Next Obligation.
  intros now s id w (bl & Hrep & Hs) Hid. pose proof (badger_answers now s bl id Hrep Hid) as Ha.
  cbn [store_GetWorkFactor Badger_Store store_index Badger_StoreLaws]. setoid_rewrite (badger_index_elem _ _ Hrep). split.
  - intros Hw. destruct (bl !! id) as [r|] eqn:El; [|congruence]. exists (stored_entry id r).
    split_and!; [by exists id, r|done|]. destruct Ha as [_ Ha]. cbn. congruence.
  - intros (en & (id' & r & Hl & ->) & <- & <-). cbn in *. rewrite Hl in Ha. apply Ha.
Qed.
Next Obligation.
  intros now now' s id (bl & Hrep & _) Hid. pose proof (badger_answers now s bl id Hrep Hid) as Ha.
  pose proof (badger_answers now' s bl id Hrep Hid) as Hb. cbn [store_GetWorkFactor Badger_Store].
  destruct (bl !! id); [by rewrite (proj2 Ha), (proj2 Hb)|congruence].
Qed.
Next Obligation.
  intros s (bl & Hrep & _). cbn [store_index Badger_StoreLaws].
  pose proof (badger_index_sorted _ _ Hrep) as Hsort. apply NoDup_fmap_2_strong.
  - intros x y (i & r & Hi & ->)%(badger_index_elem _ _ Hrep) (j & r' & Hj & ->)%(badger_index_elem _ _ Hrep). cbn. intros ->. congruence.
  - by eapply (StronglySorted_NoDup _ _ (fun x Hx => eq_true_false_abs _ Hx (lex_ltb_irrefl _))).
Qed.

(** Nothing fails while writing. *)
Class WritesSucceed : Prop := {
  writes_Set t k v ttl : is_ok (txn_SetEntry t k v ttl) = true;
  writes_Delete t k e : txn_Delete t k = Err e -> e = ErrKeyNotFound;
  writes_Commit d t : snd (txn_Commit d t) = None;
}.
Context `{!WritesSucceed}.

(** A database without tombstones. *)
Definition no_tombs (s : BadgerStore) : Prop := forall k, starts tombPrefix k -> db_map (db s) !! k = None.

(** A store without a limit never evicts, so there never are tombstones. *)
Definition unlimited (s : BadgerStore) : Prop := sound_db s /\ storageLimit s <= 0 /\ no_tombs s.

Lemma no_tombs_tombed now s id : no_tombs s -> tombed now (db_map (db s)) id = false.
Proof using Type. intros Hn. unfold tombed, live. by rewrite lookup_omap, (Hn _ (starts_tomb id)). Qed.

Lemma write_block_succeeds id stamp wf created tag payload t :
  is_ok (write_block id stamp wf created tag payload t) = true.
Proof using All.
  unfold write_block. pose proof (writes_Set t (blockKey id) (encodeBlockVal stamp wf created tag payload) None) as Hset.
  destruct (txn_SetEntry t _ _ None) as [t1|]; [|done]. apply writes_Set.
Qed.

Lemma put_body_succeeds now id stamp wf tag payload t : is_ok (put_body now id stamp wf tag payload t) = true.
Proof using All.
  unfold put_body. destruct (txn_Get t (tombKey id)) as [?|e] eqn:E; [done|]. apply reads_Get in E as ->.
  destruct (txn_Get t (blockKey id)) as [it|e] eqn:E; [|apply reads_Get in E as ->; apply write_block_succeeds].
  pose proof (reads_Value _ _ _ E) as Hv. destruct (item_Value it) as [v|]; [|done]. cbn [mbind result_bind].
  destruct (inspect_existing v wf) as [old|]; [|done].
  destruct (txn_Delete t _) as [t'|e] eqn:Ed; [|apply writes_Delete in Ed as ->]; apply write_block_succeeds.
Qed.

Lemma unlimited_Put_ok now stamp payload tag s : storageLimit s <= 0 ->
  exists d, Put now stamp payload tag s = (with_db s d, Ok (ComputeID payload)).
Proof using All.
  intros Hl. unfold Put, db_Update. pose proof (put_body_succeeds now (ComputeID payload) stamp (WorkFactor stamp payload) tag payload
    (NewTransaction now (db s))) as Hb.
  destruct (put_body _ _ _ _ _ _ _) as [t|]; [|done]. pose proof (writes_Commit (db s) t) as Hc.
  destruct (txn_Commit (db s) t) as [d [e|]]; [done|]. cbn [storageLimit with_db]. rewrite (proj2 (Z.ltb_ge _ _)) by done. eauto.
Qed.

(** A [Put] keeps the better of the block and what is there. *)
Lemma unlimited_Put now stamp payload tag s bl :
  rep (db_map (db s)) bl -> storageLimit s <= 0 -> no_tombs s -> 0 <= Unix now < 2 ^ 63 ->
  is_Stamp stamp -> is_Payload payload -> is_Tag tag ->
  exists d, Put now stamp payload tag s = (with_db s d, Ok (ComputeID payload)) /\
    rep (db_map d) (abs_put false (ComputeID payload) (BadgerEvict.new_block now stamp payload tag) bl) /\ no_tombs (with_db s d).
Proof using Type*.
  intros Hrep Hl Hn Hnow Hst Hp Ht. destruct (unlimited_Put_ok now stamp payload tag s Hl) as (d & E). exists d. split; [done|].
  pose proof (BadgerEvict.Put_spec now stamp payload tag s _ _ bl Hrep Hst Hp Ht Hnow E) as (_ & vs & _ & Hvs & Hr & Htombs).
  rewrite (Hvs Hl) in Hr, Htombs. rewrite no_tombs_tombed in Hr by done. cbn [db with_db] in *. split; [exact Hr|].
  intros k Hk. cbn [db with_db]. rewrite (proj2 Htombs k Hk); [by apply Hn|]. apply not_elem_of_nil.
Qed.

Lemma abs_put_lookup id r bl i :
  abs_put false id r bl !! i = if decide (i = id) then
      Some (match bl !! id with Some old => if st_wf r <=? st_wf old then old else r | None => r end)
    else bl !! i.
Proof using Type.
  unfold abs_put. case_decide as Hd.
  - subst i. destruct (bl !! id) as [old|] eqn:E; [case_match; [by rewrite E|]|]; by rewrite lookup_insert_eq.
  - destruct (bl !! id); [case_match; [done|]|]; by rewrite lookup_insert_ne.
Qed.

#[export] Program Instance Badger_MergeTarget : MergeTarget BadgerStore := { mt_inv := unlimited }.
Next Obligation.
  intros now s id ((bl & Hrep & _) & _ & Hn) Hid. pose proof (badger_answers now s bl id Hrep Hid) as Ha.
  cbn [store_Has store_GetWorkFactor Badger_Store].
  assert (is_ok (Has now s id) = true) as Hok.
  { unfold Has. destruct (txn_Get _ (blockKey id)) as [|e] eqn:E; [done|]. apply reads_Get in E as ->.
    destruct (txn_Get _ (tombKey id)) as [|e] eqn:E; [done|]. by apply reads_Get in E as ->. }
  destruct (Has now s id) as [b|] eqn:Eh; [|done]. apply (Has_spec now s bl Hrep) in Eh as ->; [|done].
  rewrite no_tombs_tombed, orb_false_r by done. destruct (bl !! id) as [r|]; [by rewrite (proj2 Ha)|by rewrite Ha].
Qed.
Next Obligation.
  intros now s stamp payload tag ((bl & Hrep & Hs) & Hl & Hn) Hnow Hst Hp Ht. cbn [store_Put store_GetWorkFactor Badger_Store].
  destruct (unlimited_Put now stamp payload tag s bl Hrep Hl Hn Hnow Hst Hp Ht) as (d & -> & Hrep' & Hn').
  pose proof (fun i => badger_answers now (with_db s d) _ i Hrep') as Ha. setoid_rewrite abs_put_lookup in Ha.
  pose proof (fun i => badger_answers now s _ i Hrep) as Hb. split_and!; [done| | |].
  - split_and!; [|done|done]. eexists. split; [exact Hrep'|]. intros i r. rewrite abs_put_lookup. case_decide as Hd; [|apply Hs].
    subst i. intros Hr%(inj Some). destruct (bl !! ComputeID payload) as [old|] eqn:E; [destruct (_ <=? _)|];
      subst r; [by apply Hs|done|done].
  - specialize (Ha _ (ComputeID_is_ID payload)). rewrite decide_True in Ha by done. destruct Ha as [_ ->].
    specialize (Hb _ (ComputeID_is_ID payload)). destruct (bl !! ComputeID payload) as [old|]; [|by rewrite Hb].
    destruct Hb as [_ ->]. f_equal. cbn [BadgerEvict.new_block st_wf]. destruct (Z.leb_spec (WorkFactor stamp payload) (st_wf old)); cbn; lia.
  - intros i Hi Hne. specialize (Ha i Hi). specialize (Hb i Hi). rewrite decide_False in Ha by done.
    destruct (bl !! i); [by rewrite (proj2 Ha), (proj2 Hb)|congruence].
Qed.

#[export] Program Instance Badger_Exchange : Exchange BadgerStore := { ex_inv := unlimited }.
Next Obligation. by intros s (Hs & _). Qed.
Next Obligation. done. Qed.
Next Obligation.
  intros now s stamp payload tag Hs Hnow Hst Hp Ht. cbn zeta. pose proof Hs as ((bl & Hrep & Hsm) & Hl & Hn).
  pose proof (mt_Put now s stamp payload tag Hs Hnow Hst Hp Ht) as Hmt. cbn [store_Put Badger_Store store_index Badger_StoreLaws store_Get] in *.
  destruct (unlimited_Put now stamp payload tag s bl Hrep Hl Hn Hnow Hst Hp Ht) as (d & E & Hrep' & Hn'). rewrite E in *.
  cbn [fst]. split_and!; [apply Hmt| |].
  - intros en (i & r & Hi & ->)%(badger_index_elem _ _ Hrep'). rewrite abs_put_lookup in Hi. case_decide as Hd.
    + subst i. apply (inj Some) in Hi. destruct (bl !! ComputeID payload) as [old|] eqn:El; [destruct (_ <=? _)|].
      * left. apply (badger_index_elem _ _ Hrep). subst old. by exists (ComputeID payload), r.
      * right. by subst r.
      * right. by subst r.
    + left. apply (badger_index_elem _ _ Hrep). by exists i, r.
  - intros now' i sp Hi Hg. pose proof (badger_answers now' (with_db s d) _ i Hrep' Hi) as Ha.
    pose proof (badger_answers now' s bl i Hrep Hi) as Hb. rewrite abs_put_lookup in Ha. case_decide as Hd.
    + subst i. destruct Ha as [Ha _]. rewrite Hg in Ha. apply (inj Ok) in Ha as ->.
      destruct (bl !! ComputeID payload) as [old|]; [destruct (_ <=? _); [left; apply Hb|]|]; by right.
    + left. destruct (bl !! i) as [r|] eqn:El; [destruct Ha as [Ha _], Hb as [Hb _]; congruence|].
      exfalso. pose proof (Get_spec now' (with_db s d) _ Hrep' i Hi) as Hs'. rewrite Hg in Hs'. destruct Hs' as (r & Hr & _).
      rewrite abs_put_lookup, decide_False, El in Hr by done. done.
Qed.
End KeyValue.

