(* ===== verification/Volumes.v ===== *)
(** Volumes of mass storage ([cmd/snk/main.go]): the loop over USB volumes and the
    mass-storage command, proved against the interface of stores that exchange blocks. *)
From Stdlib Require Import String.
From S2P Require FlatFile FlatFileFacts Index IndexFacts Badger BadgerFacts BadgerSpec.
From S2P Require Import Prelude Codec Block Store Sync Exchange.

#[local] Existing Instances FlatFile.FlatFile_Store FlatFileFacts.FlatFile_StoreLaws.

(** ** The code *)

(** One entry of the directory of volumes: whether it is a directory, whether the marker
    file is there, and how opening it as a store ends. *)
Record usb_entry := { ue_dir : bool; ue_marked : bool; ue_volume : result FlatFile.FlatFileStore }.

Definition with_volume (e : usb_entry) (v : FlatFile.FlatFileStore) : usb_entry :=
  {| ue_dir := ue_dir e; ue_marked := ue_marked e; ue_volume := Ok v |}.

Section Usb.
Context `{GoSort, Hashes, GoFloat} {S : Type} `{Store S}.

(** One round of the loop over the entries: errors of either copy are logged only. *)
Definition usb_visit (now : Z) (fuel : nat) (e : usb_entry) (store : S) : option (usb_entry * S) :=
  if negb (ue_dir e) then Some (e, store)
  else if negb (ue_marked e) then Some (e, store)
  else
    match ue_volume e with
    | Err _ => Some (e, store)
    | Ok usb =>
        '(store, _, _) ← syncStores now fuel usb store;
        '(usb, _, _) ← syncStores now fuel store usb;
        Some (with_volume e usb, store)
    end.

Fixpoint usb_visits (now : Z) (fuel : nat) (entries : list usb_entry) (store : S) : option (list usb_entry * S) :=
  match entries with
  | [] => Some ([], store)
  | e :: entries' =>
      '(e, store) ← usb_visit now fuel e store;
      '(l, store) ← usb_visits now fuel entries' store;
      Some (e :: l, store)
  end.

(** A tick of [usbSyncLoop]; [entries] is the outcome of reading the directory. *)
Definition usb_tick (now : Z) (fuel : nat) (entries : result (list usb_entry)) (store : S)
    : option (result (list usb_entry) * S) :=
  match entries with
  | Err _ => Some (entries, store)
  | Ok l => '(l, store) ← usb_visits now fuel l store; Some (Ok l, store)
  end.


End Usb.

(** ** The loop over volumes converges *)

Section Converge.
Context `{GoSort, HashesLaws, GoFloat} {S : Type} `{!Store S, !StoreLaws S, !Source S, !MergeTarget S, !Exchange S}.

(** The volume of an entry the loop visits. *)
Definition volume_of (e : usb_entry) : option FlatFile.FlatFileStore :=
  if ue_dir e && ue_marked e then match ue_volume e with Ok v => Some v | Err _ => None end else None.

Definition entry_ok (e : usb_entry) : Prop := forall v, volume_of e = Some v -> ex_inv v.
Definition entry_holds (now : Z) (e : usb_entry) (id : ID) : option Z :=
  match volume_of e with Some v => holds now v id | None => None end.

(** Everything there is under an id: in the store and on the volumes. *)
Definition total (now : Z) (l : list usb_entry) (store : S) (id : ID) : option Z :=
  foldl better (holds now store id) ((fun e => entry_holds now e id) <$> l).

(** The entry after a visit: what the loop passes over it leaves alone. *)
Definition visited_entry (e e' : usb_entry) : Prop :=
  ue_dir e' = ue_dir e /\ ue_marked e' = ue_marked e /\ (volume_of e = None -> e' = e) /\
  (is_Some (volume_of e) -> is_Some (volume_of e')).

(** [ids] covers what a store holds; then its index is no longer than [ids]. *)
Definition within (ids : list ID) (f : ID -> option Z) : Prop := forall id, is_ID id -> is_Some (f id) -> id ∈ ids.

Lemma index_length {T} `{!Store T, !StoreLaws T, !Source T} now ids (s : T) :
  src_inv s -> within ids (holds now s) -> (length (store_index s) <= length ids)%nat.
Proof using Type.
  intros Hs Hw. rewrite <- (length_fmap (fun en => cur_id (en_cursor en))).
  apply submseteq_length, NoDup_submseteq; [by apply src_unique|].
  intros id (en & -> & Hen)%list_elem_of_fmap. pose proof (store_index_wf s (src_store_inv s Hs)) as HF.
  rewrite Forall_forall in HF. destruct (HF en Hen) as [_ Hid]. apply Hw; [done|]. exists (en_wf en).
  apply holds_Some, (src_index now s); [done|done|]. by exists en.
Qed.

Lemma within_better ids f g : within ids f -> within ids g -> within ids (fun id => better (f id) (g id)).
Proof using Type.
  intros Hf Hg id Hid [w Hw]. destruct (f id) eqn:E; [by apply Hf; [|rewrite E]|].
  destruct (g id) eqn:E'; [by apply Hg; [|rewrite E']|]. done.
Qed.

Lemma within_ext ids f g : (forall id, is_ID id -> g id = f id) -> within ids f -> within ids g.
Proof using Type. intros He Hf id Hid Hg. apply Hf; [done|]. by rewrite <- He. Qed.

Lemma foldl_better l a b : foldl better (better a b) l = better a (foldl better b l).
Proof using Type. revert b. induction l as [|x l IH]; intros b; cbn; [done|]. by rewrite <- better_assoc, IH. Qed.

Lemma foldl_better_absorb l a : Forall (fun b => better a b = a) l -> foldl better a l = a.
Proof using Type. induction 1 as [|b l Hb _ IH]; cbn; [done|]. by rewrite Hb. Qed.

(** Work factors on record do not depend on the time. *)
Lemma holds_still {T} `{!Store T, !StoreLaws T, !Source T} now now' (s : T) id :
  src_inv s -> is_ID id -> holds now s id = holds now' s id.
Proof using Type. intros Hs Hid. unfold holds. by rewrite (src_still now now' s id Hs Hid). Qed.

Lemma entry_holds_still now now' e id : entry_ok e -> is_ID id -> entry_holds now e id = entry_holds now' e id.
Proof using Type.
  intros He Hid. unfold entry_holds. destruct (volume_of e) as [v|] eqn:Ev; [|done].
  apply holds_still; [by apply ex_src_inv, He|done].
Qed.

Section Round.
Context (now : Z) (Hnow : 0 <= Unix now < 2 ^ 63) (ids : list ID) (fuel : nat) (Hfuel : (length ids < fuel)%nat).

(** A visit leaves the store and the volume with the better of both. *)
Lemma usb_visit_exact e store : entry_ok e -> ex_inv store ->
  within ids (holds now store) -> within ids (entry_holds now e) ->
  exists e' store', usb_visit now fuel e store = Some (e', store') /\ visited_entry e e' /\
    entry_ok e' /\ ex_inv store' /\
    (forall id, is_ID id -> holds now store' id = better (holds now store id) (entry_holds now e id)) /\
    (is_Some (volume_of e) -> forall id, is_ID id -> entry_holds now e' id = holds now store' id).
Proof using Hnow Hfuel Exchange0.
  intros He Hs Hws Hwe. unfold entry_ok, entry_holds, visited_entry in *. unfold usb_visit.
  destruct (volume_of e) as [v|] eqn:Ev.
  - unfold volume_of in Ev. destruct (ue_dir e) eqn:Ed; [|done]. destruct (ue_marked e) eqn:Em; [|done]. cbn [andb negb] in *.
    destruct (ue_volume e) as [v'|] eqn:Eu; [|done]. injection Ev as ->. specialize (He v eq_refl).
    destruct (syncStores_exact now Hnow fuel v store (ex_src_inv v He) Hs) as (s' & t & E & Hs' & Hh).
    { pose proof (index_length now ids v (ex_src_inv v He) Hwe). lia. }
    assert (within ids (holds now s')) as Hws'.
    { eapply within_ext; [exact Hh|]. by apply within_better. }
    destruct (syncStores_exact now Hnow fuel s' v (ex_src_inv s' Hs') He) as (v' & t' & E' & Hv' & Hh').
    { pose proof (index_length now ids s' (ex_src_inv s' Hs') Hws'). lia. }
    rewrite E. cbn [mbind option_bind]. rewrite E'. cbn [mbind option_bind].
    assert (volume_of (with_volume e v') = Some v') as Evol by (unfold volume_of; cbn; by rewrite Ed, Em).
    exists (with_volume e v'), s'. rewrite Evol.
    split_and!; [done|cbn; congruence|cbn; congruence|done|done|by intros ? [= <-]|done|done|].
    intros _ id Hid. by rewrite Hh', Hh, better_comm, <- better_assoc, better_idem.
  - exists e, store. split_and!; try done; [|by rewrite Ev|by intros id _; destruct (holds now store id)].
    unfold volume_of in Ev. destruct (ue_dir e); [|done]. destruct (ue_marked e); [|done]. cbn [andb negb] in *. by destruct (ue_volume e).
Qed.

Lemma total_cons e l store store' id :
  holds now store' id = better (holds now store id) (entry_holds now e id) ->
  total now l store' id = total now (e :: l) store id.
Proof using Type. unfold total. cbn. by intros ->. Qed.

(** A round over the volumes gathers everything in the store; each volume then holds what
    the store held when it was visited. *)
Lemma usb_visits_exact l store : Forall entry_ok l -> ex_inv store ->
  within ids (total now l store) ->
  exists l' store', usb_visits now fuel l store = Some (l', store') /\ Forall2 visited_entry l l' /\
    Forall entry_ok l' /\ ex_inv store' /\
    (forall id, is_ID id -> holds now store' id = total now l store id) /\
    Forall2 (fun e e' => is_Some (volume_of e) -> forall id, is_ID id ->
      better (entry_holds now e' id) (holds now store id) = entry_holds now e' id /\
      better (holds now store' id) (entry_holds now e' id) = holds now store' id) l l'.
Proof using Hnow Hfuel Exchange0.
  revert store. induction l as [|e l IH]; intros store Hl Hs Hw; cbn [usb_visits].
  { exists [], store. split_and!; try done; constructor. }
  apply Forall_cons in Hl as [He Hl].
  assert (forall id, better (better (holds now store id) (entry_holds now e id)) (total now (e :: l) store id) = total now (e :: l) store id) as Hab.
  { intros id. unfold total. cbn. by rewrite <- foldl_better, better_idem. }
  assert (within ids (holds now store) /\ within ids (entry_holds now e)) as [Hws Hwe].
  { split; intros id Hid [w Hi]; apply (Hw id Hid); rewrite <- Hab, Hi;
      destruct (total now (e :: l) store id), (holds now store id), (entry_holds now e id); cbn; eauto; done. }
  destruct (usb_visit_exact e store He Hs Hws Hwe) as (e' & s1 & E & Hv & He' & Hs1 & Hh & Hb).
  rewrite E. cbn [mbind option_bind].
  assert (forall id, is_ID id -> total now l s1 id = total now (e :: l) store id) as Ht
    by (intros id Hid; by apply total_cons, Hh).
  destruct (IH s1 Hl Hs1) as (l' & s' & E' & Hvs & Hl' & Hs' & Hh' & Hbs).
  { by eapply within_ext. }
  rewrite E'. cbn [mbind option_bind]. exists (e' :: l'), s'.
  assert (forall id, is_ID id -> holds now s' id = total now (e :: l) store id) as Hfin by (intros id Hid; by rewrite Hh', Ht).
  split_and!; [done|by constructor|by constructor|done|done|]. constructor.
  - intros Hsome id Hid. rewrite (Hb Hsome id Hid), (Hfin id Hid), (Hh id Hid).
    split; [|by rewrite better_comm, Hab]. rewrite better_comm. apply better_absorb.
  - eapply Forall2_impl; [exact Hbs|]. cbn. intros x y Hxy Hsome id Hid. destruct (Hxy Hsome id Hid) as [H1' H2'].
    split; [|done]. rewrite (Hh id Hid) in H1'. rewrite <- H1'.
    rewrite (better_comm (holds now store id)), better_assoc, <- (better_assoc _ (holds now store id)), better_idem. done.
Qed.
End Round.

(** The total is the largest work factor anything holds. *)
Lemma foldl_better_max l a w :
  foldl better a l = Some w <->
  (a = Some w \/ (Some w ∈ l)) /\ (forall v, a = Some v -> v <= w) /\ (forall v, Some v ∈ l -> v <= w).
Proof using Type.
  revert a. induction l as [|b l IH]; intros a; cbn [foldl].
  { split; [intros ->; split_and!; [by left|intros v [= ->]; lia|by intros v ?%elem_of_nil]|].
    by intros ([?|?%elem_of_nil] & _ & _). }
  rewrite IH. setoid_rewrite elem_of_cons. destruct a as [x|], b as [y|]; cbn.
  - split.
    + intros (Ho & Hm & Hl). specialize (Hm _ eq_refl). split_and!; [|intros v [= <-]; lia|intros v [[= <-]|?]; [lia|auto]].
      destruct Ho as [[= <-]|?]; [|by auto]. destruct (Z.max_spec x y) as [[_ ->]|[_ ->]]; auto.
    + intros (Ho & Hm & Hl). pose proof (Hm _ eq_refl). pose proof (Hl y ltac:(by left)).
      split_and!; [|intros v [= <-]; lia|by auto]. destruct Ho as [[= ->]|[[= ->]|?]]; [left; f_equal; lia..|by right].
  - split; [intros (Ho & Hm & Hl); split_and!; [destruct Ho; auto|done|]; intros v [?|?]; [done|auto]|].
    intros ([?|[?|?]] & Hm & Hl); split_and!; auto; done.
  - split; [intros (Ho & Hm & Hl); split_and!; [destruct Ho; auto|done|]; intros v [[= <-]|?]; auto|].
    intros ([?|[?|?]] & Hm & Hl); split_and!; auto; done.
  - split; [intros (Ho & Hm & Hl); split_and!; [destruct Ho; auto|done|]; intros v [?|?]; [done|auto]|].
    intros ([?|[?|?]] & Hm & Hl); split_and!; auto; done.
Qed.

Lemma total_max now l store id w :
  total now l store id = Some w <->
  (holds now store id = Some w \/ exists e, e ∈ l /\ entry_holds now e id = Some w) /\
  (forall v, holds now store id = Some v -> v <= w) /\ (forall e v, e ∈ l -> entry_holds now e id = Some v -> v <= w).
Proof using Type.
  unfold total. rewrite foldl_better_max. setoid_rewrite list_elem_of_fmap. split.
  - intros ([?|(e & E & He)] & Hm & Hl); (split_and!; [eauto|done|]; intros x v Hx Ev; apply Hl; eauto).
  - intros ([?|(e & He & E)] & Hm & Hl); (split_and!; [eauto|done|]; intros v (x & Ev & Hx); eapply Hl; eauto).
Qed.

(** C35: Two rounds of the loop over USB volumes bring every store to the same state.  Whatever
    the store and the marked, openable volumes held at first, after the second round the store
    and each of those volumes hold the same blocks, each at the largest work factor any of them
    had; entries without the marker, or that are no directory, or that cannot be opened, are
    left alone.  No floor of proof of work is looked at, in spite of docs/security.md and
    docs/scalability.md. *)
Theorem usb_converges now1 now2 ids fuel l store :
  0 <= Unix now1 < 2 ^ 63 -> 0 <= Unix now2 < 2 ^ 63 -> Forall entry_ok l -> ex_inv store ->
  within ids (total now1 l store) -> (length ids < fuel)%nat ->
  exists l1 s1 l2 s2, usb_tick now1 fuel (Ok l) store = Some (Ok l1, s1) /\
    usb_tick now2 fuel (Ok l1) s1 = Some (Ok l2, s2) /\
    Forall2 visited_entry l l1 /\ Forall2 visited_entry l1 l2 /\
    forall id, is_ID id -> holds now2 s2 id = total now1 l store id /\
      forall e v, e ∈ l2 -> volume_of e = Some v -> holds now2 v id = total now1 l store id.
Proof using All.
  intros Hn1 Hn2 Hl Hs Hw Hf. unfold usb_tick.
  destruct (usb_visits_exact now1 Hn1 ids fuel Hf l store Hl Hs Hw) as (l1 & s1 & E1 & V1 & Hl1 & Hs1 & H1' & B1).
  assert (forall id, is_ID id -> total now2 l1 s1 id = holds now2 s1 id) as Ht.
  { intros id Hid. unfold total. apply foldl_better_absorb, Forall_forall. intros x (e' & -> & He')%list_elem_of_fmap.
    rewrite Forall_forall in Hl1. rewrite (entry_holds_still now2 now1), (holds_still now2 now1 s1) by (auto || by apply ex_src_inv).
    apply list_elem_of_lookup in He' as [i Hi]. destruct (Forall2_lookup_r _ _ _ _ _ B1 Hi) as (e & He & Hb).
    destruct (Forall2_lookup_lr _ _ _ _ _ _ V1 He Hi) as (_ & _ & Hnone & _).
    destruct (volume_of e) as [v|] eqn:Ev; [by apply Hb|]. rewrite (Hnone eq_refl). unfold entry_holds. rewrite Ev.
    by destruct (holds now1 s1 id). }
  destruct (usb_visits_exact now2 Hn2 ids fuel Hf l1 s1 Hl1 Hs1) as (l2 & s2 & E2 & V2 & Hl2 & Hs2 & H2' & B2).
  { eapply within_ext; [|exact Hw]. intros id Hid. by rewrite Ht, (holds_still now2 now1 s1), H1' by (done || by apply ex_src_inv). }
  exists l1, s1, l2, s2. split_and!; [by rewrite E1|by rewrite E2|done|done|]. intros id Hid.
  assert (holds now2 s1 id = total now1 l store id) as Hs1t by (by rewrite (holds_still now2 now1 s1), H1' by (done || by apply ex_src_inv)).
  assert (holds now2 s2 id = total now1 l store id) as Hs2t by (by rewrite H2', Ht, Hs1t).
  split; [done|]. intros e' v He' Ev. apply list_elem_of_lookup in He' as [i Hi].
  destruct (Forall2_lookup_r _ _ _ _ _ B2 Hi) as (e & He & Hb). destruct (Forall2_lookup_lr _ _ _ _ _ _ V2 He Hi) as (_ & _ & Hnone & _).
  destruct (volume_of e) as [v0|] eqn:Ev0; [|rewrite (Hnone eq_refl) in Ev; congruence].
  destruct (Hb ltac:(done) id Hid) as [Ha Hc]. unfold entry_holds in Ha, Hc. rewrite Ev in Ha, Hc.
  rewrite Hs1t in Ha. rewrite Hs2t in Hc. by rewrite <- Ha, better_comm.
Qed.
End Converge.

(** ** The mass-storage command *)

Section MassStorage.
Import FlatFile FlatFileFacts.
Context `{GoSort, HashesLaws, GoFloat} `{!Index.Zlib, !Index.ZlibLaws}.
Context {S : Type} `{!Store S, !StoreLaws S, !Source S}.




End MassStorage.

(** ** At concrete inputs *)

Module VolumesDemo.
Import FlatFile FlatFileFacts FlatFileFacts.Demo SyncDemo IndexFacts.IndexDemo.
#[local] Existing Instances ref_Hashes ref_HashesLaws ref_GoFloat ref_Zlib ref_ZlibLaws.

Lemma volume_sound : sound_volume volume.
Proof. split_and!; [apply volume_inv|intros p id [d Hd]|intros id d _ Hd]; cbn in Hd; by rewrite lookup_empty in Hd. Qed.

Lemma source_sound : sound_volume source.
Proof. apply Put_sound; [apply volume_sound|vm_compute; split; [discriminate|reflexivity]|apply ref_stamp_ok|apply ref_payload_ok]. Qed.

(** A stick with a block, a directory without the marker, and an empty store. *)
Definition stick : usb_entry := {| ue_dir := true; ue_marked := true; ue_volume := Ok source |}.
Definition photos : usb_entry := {| ue_dir := true; ue_marked := false; ue_volume := Err ErrNotExist |}.

Lemma sticks_ok : Forall entry_ok [stick; photos].
Proof.
  apply Forall_cons; split; [|by apply Forall_singleton; intros v].
  intros v Hv. change (Some source = Some v) in Hv. apply (inj Some) in Hv as <-. apply source_sound.
Qed.


Lemma source_holds : holds 0 source (ComputeID ref_payload) = Some (WorkFactor ref_stamp ref_payload).
Proof.
  apply holds_Some, (src_index 0 source); [apply source_sound|apply ComputeID_is_ID|].
  eexists. split; [rewrite source_index; by left|done].
Qed.

(** The key-value store of a node with the same block. *)
Section Node.
Import Badger BadgerFacts BadgerSpec.
#[local] Existing Instances ref_Badger ref_BadgerLaws ref_GoMapRange.





#[local] Instance node_reads : ReadsSucceed.
Proof.
  split; [|done|done]. intros t k e. cbn. by destruct (live t.1 t.2 !! k); intros [= <-].
Qed.

#[local] Instance node_writes : WritesSucceed.
Proof. split; [done|done|done]. Qed.

(** The store of a node that has just been opened. *)
Definition new_node : BadgerStore := {| db := (∅ : kv) : @DB ref_Badger; storageLimit := 0; reservations := ∅; medianWF := 0 |}.

Lemma new_node_ok : unlimited new_node.
Proof. split_and!; [exists ∅; split; [apply rep_empty|done]|done|done]. Qed.

Lemma new_node_holds id : is_ID id -> holds 0 new_node id = None.
Proof.
  intros Hid. unfold holds. pose proof (badger_answers 0 new_node ∅ id rep_empty Hid) as Ha. rewrite lookup_empty in Ha.
  cbn [store_GetWorkFactor Badger_Store]. by rewrite Ha.
Qed.

Lemma sticks_within : within [ComputeID ref_payload] (total 0 [stick; photos] new_node).
Proof.
  intros id Hid [w Hw]. apply total_max in Hw as ([Hw|(e & He & Hw)] & _ & _); [by rewrite new_node_holds in Hw|].
  apply elem_of_cons in He as [->| ->%list_elem_of_singleton]; [|done].
  change (holds 0 source id = Some w) in Hw. apply holds_Some, (src_index 0 source) in Hw as (en & Hen & <- & _); [|apply source_sound|done].
  rewrite source_index in Hen. apply list_elem_of_singleton in Hen as ->. by left.
Qed.

Lemma usb_converges_witness : exists l1 s1 l2 s2,
  usb_tick 0 2 (Ok [stick; photos]) new_node = Some (Ok l1, s1) /\ usb_tick 0 2 (Ok l1) s1 = Some (Ok l2, s2) /\
  holds 0 s2 (ComputeID ref_payload) = Some (WorkFactor ref_stamp ref_payload).
Proof.
  assert (0 <= Unix 0 < 2 ^ 63) as Hn by (vm_compute; split; [discriminate|reflexivity]).
  destruct (usb_converges 0 0 [ComputeID ref_payload] 2 [stick; photos] new_node) as (l1 & s1 & l2 & s2 & E1 & E2 & _ & _ & Hall);
    [exact Hn|exact Hn|exact sticks_ok|exact new_node_ok|exact sticks_within|cbn; lia|].
  exists l1, s1, l2, s2. split; [exact E1|]. split; [exact E2|].
  destruct (Hall (ComputeID ref_payload) (ComputeID_is_ID _)) as [-> _]. apply total_max.
  split; [right; exists stick; split; [by left|apply source_holds]|].
  split; [intros v; by rewrite (new_node_holds _ (ComputeID_is_ID _))|].
  intros e v He. apply elem_of_cons in He as [->| ->%list_elem_of_singleton]; [|done]. change (holds 0 source (ComputeID ref_payload) = Some v -> v <= WorkFactor ref_stamp ref_payload).
  rewrite source_holds. intros <-%(inj Some). lia.
Defined.



End Node.
End VolumesDemo.
