(* ===== verification/FanIn.v ===== *)
(** Discovery as a running system: the loop of [transport/lan/lan.go] that scans the
    network, the goroutines of [mergePeers] in [cmd/snk/main.go] that merge what several
    sources find, and the channels between them, as a step function. *)
From Stdlib Require Import String.
From S2P Require Import Prelude Block Lan.

(** ** Channels *)

(** A buffered channel. *)
Record chan := { ch_buf : list bytes; ch_cap : nat; ch_closed : bool }.

Definition make_chan (cap : nat) : chan := {| ch_buf := []; ch_cap := cap; ch_closed := false |}.
Definition with_buf (c : chan) (l : list bytes) : chan := {| ch_buf := l; ch_cap := ch_cap c; ch_closed := ch_closed c |}.

Definition send_on_closed : error := ErrText "send on closed channel".
Definition close_of_closed : error := ErrText "close of closed channel".

(** [None]: the operation blocks; an error is a panic. *)
Definition send (a : bytes) (c : chan) : option (result chan) :=
  if ch_closed c then Some (Err send_on_closed)
  else if (length (ch_buf c) <? ch_cap c)%nat then Some (Ok (with_buf c (ch_buf c ++ [a])))
  else None.

(** The value received, or none from a closed and empty channel. *)
Definition receive (c : chan) : option (option bytes * chan) :=
  match ch_buf c with
  | a :: l => Some (Some a, with_buf c l)
  | [] => if ch_closed c then Some (None, c) else None
  end.

Definition close (c : chan) : result chan :=
  if ch_closed c then Err close_of_closed
  else Ok {| ch_buf := ch_buf c; ch_cap := ch_cap c; ch_closed := true |}.

(** ** The loop of [Discover] *)

(** Where it stands: in a scan, sending the addresses that are left, waiting, or returned.
    During the first scan there is no ticker yet. *)
Inductive disc_pc :=
  | d_scan (first : bool)
  | d_send (first : bool) (a : bytes) (rest : list bytes)
  | d_wait
  | d_end.
Record disc := { d_pc : disc_pc; d_out : chan }.

(** What can happen next: a scan ends, one of the cases of a [select] is taken. *)
Inductive disc_event :=
  | ev_scanned (ifaces : result (list iface)) (schedule : list bytes -> list bytes) (answers : bytes -> bool)
  | ev_offer
  | ev_stop
  | ev_tick.

Definition ctx_err (ctx : bool) : option error := if ctx then Some (ErrText "context canceled") else None.

Definition Discover : disc := {| d_pc := d_scan true; d_out := make_chan 16 |}.

Definition non_positive_interval : error := ErrText "non-positive interval for NewTicker".

Section Fan.
Context (interval : Z).

(** After a scan: after the first one the ticker is made, which panics unless the interval is
    positive. *)
Definition wait_for (first : bool) (c : chan) : result disc :=
  if first && (interval <=? 0) then Err non_positive_interval else Ok {| d_pc := d_wait; d_out := c |}.

Definition sending (first : bool) (l : list bytes) (c : chan) : result disc :=
  match l with
  | [] => wait_for first c
  | a :: rest => Ok {| d_pc := d_send first a rest; d_out := c |}
  end.

Definition disc_step (ctx : bool) (ev : disc_event) (d : disc) : option (result disc) :=
  match d_pc d, ev with
  | d_scan first, ev_scanned ifaces schedule answers =>
      Some (match Scan ifaces schedule answers (ctx_err ctx) with
            | Err _ => wait_for first (d_out d)
            | Ok addrs => if ctx then wait_for first (d_out d) else sending first addrs (d_out d)
            end)
  | d_send first a rest, ev_offer =>
      r ← send a (d_out d);
      Some (c ← r; sending first rest c)
  | d_send first _ _, ev_stop => if ctx then Some (wait_for first (d_out d)) else None
  | d_wait, ev_tick => Some (Ok {| d_pc := d_scan false; d_out := d_out d |})
  | d_wait, ev_stop => if ctx then Some (c ← close (d_out d); Ok {| d_pc := d_end; d_out := c |}) else None
  | _, _ => None
  end.

(** ** [mergePeers] *)

(** A forwarding goroutine: at the outer [select], at the inner one, or returned. *)
Inductive fwd_pc := f_recv | f_send (addr : bytes) | f_end.

Inductive fwd_event := ev_take_in | ev_pass_on | ev_return.

(** The step of a forwarder: itself, its source and the common channel. *)
Definition fwd_step (ctx : bool) (ev : fwd_event) (f : fwd_pc) (src out : chan) : option (result (fwd_pc * chan * chan)) :=
  match f, ev with
  | f_recv, ev_take_in =>
      '(v, src) ← receive src;
      Some (Ok (match v with Some addr => f_send addr | None => f_end end, src, out))
  | f_send addr, ev_pass_on =>
      r ← send addr out;
      Some (out ← r; Ok (f_recv, src, out))
  | f_recv, ev_return | f_send _, ev_return => if ctx then Some (Ok (f_end, src, out)) else None
  | _, _ => None
  end.

(** The whole: the context, the sources with their forwarders, the common channel, and
    whether the goroutine that waits for the forwarders has closed it. *)
Record fan := { y_ctx : bool; y_srcs : list (disc * fwd_pc); y_out : chan; y_closer : bool }.

Definition mergePeers (sources : list disc) : fan :=
  {| y_ctx := false; y_srcs := (fun d => (d, f_recv)) <$> sources; y_out := make_chan 16; y_closer := false |}.

Inductive action :=
  | a_cancel
  | a_disc (i : nat) (ev : disc_event)
  | a_fwd (i : nat) (ev : fwd_event)
  | a_close
  | a_take.

Definition with_src (y : fan) (i : nat) (s : disc * fwd_pc) : fan :=
  {| y_ctx := y_ctx y; y_srcs := <[i := s]> (y_srcs y); y_out := y_out y; y_closer := y_closer y |}.
Definition with_out (y : fan) (c : chan) : fan :=
  {| y_ctx := y_ctx y; y_srcs := y_srcs y; y_out := c; y_closer := y_closer y |}.

Definition ended (f : fwd_pc) : bool := match f with f_end => true | _ => false end.

(** [None]: the action cannot happen now; an error is a panic. *)
Definition step (a : action) (y : fan) : option (result fan) :=
  match a with
  | a_cancel => Some (Ok {| y_ctx := true; y_srcs := y_srcs y; y_out := y_out y; y_closer := y_closer y |})
  | a_disc i ev =>
      '(d, f) ← y_srcs y !! i;
      r ← disc_step (y_ctx y) ev d;
      Some (d ← r; Ok (with_src y i (d, f)))
  | a_fwd i ev =>
      '(d, f) ← y_srcs y !! i;
      r ← fwd_step (y_ctx y) ev f (d_out d) (y_out y);
      Some ('(f, c, out) ← r; Ok (with_out (with_src y i ({| d_pc := d_pc d; d_out := c |}, f)) out))
  | a_close =>
      if y_closer y || negb (forallb (fun s => ended s.2) (y_srcs y)) then None
      else Some (c ← close (y_out y);
                 Ok {| y_ctx := y_ctx y; y_srcs := y_srcs y; y_out := c; y_closer := true |})
  | a_take => '(_, c) ← receive (y_out y); Some (Ok (with_out y c))
  end.

(** ** Runs *)

(** Actions one after the other; [None] when one of them cannot happen. *)
Fixpoint exec (acts : list action) (y : fan) : option (result fan) :=
  match acts with
  | [] => Some (Ok y)
  | a :: acts' => match step a y with Some (Ok y') => exec acts' y' | r => r end
  end.

(** What passes through the channels: an address sent by a source, passed on by its
    forwarder, taken by the tracker. *)
Inductive obs := offered (i : nat) (a : bytes) | passed (i : nat) (a : bytes) | taken (a : bytes).

Definition observe (a : action) (y : fan) : list obs :=
  match a with
  | a_disc i ev_offer => match y_srcs y !! i with Some ({| d_pc := d_send _ x _ |}, _) => [offered i x] | _ => [] end
  | a_fwd i ev_pass_on => match y_srcs y !! i with Some (_, f_send x) => [passed i x] | _ => [] end
  | a_take => match ch_buf (y_out y) with x :: _ => [taken x] | [] => [] end
  | _ => []
  end.

Fixpoint trace (acts : list action) (y : fan) : list obs :=
  match acts with
  | [] => []
  | a :: acts' => match step a y with Some (Ok y') => observe a y ++ trace acts' y' | _ => [] end
  end.

Definition offered_by (i : nat) (tr : list obs) : list bytes :=
  omap (fun o => match o with offered j a => if decide (j = i) then Some a else None | _ => None end) tr.
Definition passed_by (i : nat) (tr : list obs) : list bytes :=
  omap (fun o => match o with passed j a => if decide (j = i) then Some a else None | _ => None end) tr.
Definition all_passed (tr : list obs) : list bytes := omap (fun o => match o with passed _ a => Some a | _ => None end) tr.
Definition all_taken (tr : list obs) : list bytes := omap (fun o => match o with taken a => Some a | _ => None end) tr.

(** ** Safety *)

Context (Hpos : 0 < interval).

Lemma wait_for_ok first c : wait_for first c = Ok {| d_pc := d_wait; d_out := c |}.
Proof. unfold wait_for. rewrite (proj2 (Z.leb_gt _ _)) by done. by rewrite andb_false_r. Qed.

(** Where a source goes on when these addresses are left, and its step without the panic. *)
Definition next_pc (first : bool) (l : list bytes) : disc_pc :=
  match l with [] => d_wait | a :: rest => d_send first a rest end.

Definition disc_plain (ctx : bool) (ev : disc_event) (d : disc) : option (result disc) :=
  match d_pc d, ev with
  | d_scan first, ev_scanned ifaces schedule answers =>
      Some (Ok {| d_pc := match Scan ifaces schedule answers (ctx_err ctx) with
                          | Err _ => d_wait
                          | Ok addrs => if ctx then d_wait else next_pc first addrs
                          end;
                  d_out := d_out d |})
  | d_send first a rest, ev_offer =>
      r ← send a (d_out d);
      Some (c ← r; Ok {| d_pc := next_pc first rest; d_out := c |})
  | d_send _ _ _, ev_stop => if ctx then Some (Ok {| d_pc := d_wait; d_out := d_out d |}) else None
  | d_wait, ev_tick => Some (Ok {| d_pc := d_scan false; d_out := d_out d |})
  | d_wait, ev_stop => if ctx then Some (c ← close (d_out d); Ok {| d_pc := d_end; d_out := c |}) else None
  | _, _ => None
  end.

Lemma disc_step_plain ctx ev d : disc_step ctx ev d = disc_plain ctx ev d.
Proof.
  assert (forall first l c, sending first l c = Ok {| d_pc := next_pc first l; d_out := c |}) as Hs
    by (intros first [|a l] c; cbn; [apply wait_for_ok|done]).
  unfold disc_step, disc_plain. destruct (d_pc d), ev; try done.
  - destruct (Scan _ _ _ _); [|by rewrite wait_for_ok]. destruct ctx; [by rewrite wait_for_ok|by rewrite Hs].
  - destruct (send a (d_out d)) as [[c|e]|]; [|done..]. cbn. by rewrite Hs.
  - by rewrite wait_for_ok.
Qed.


Definition src_ok (ctx : bool) (s : disc * fwd_pc) : Prop :=
  (ch_closed (d_out s.1) = true <-> d_pc s.1 = d_end) /\ (d_pc s.1 = d_end -> ctx = true) /\ (s.2 = f_end -> ctx = true).

Definition fan_ok (y : fan) : Prop :=
  (forall i s, y_srcs y !! i = Some s -> src_ok (y_ctx y) s) /\
  ch_closed (y_out y) = y_closer y /\
  (y_closer y = true -> forall i s, y_srcs y !! i = Some s -> s.2 = f_end).

Lemma send_inv a c r : send a c = Some r -> ch_closed c = false ->
  r = Ok (with_buf c (ch_buf c ++ [a])) /\ (length (ch_buf c) < ch_cap c)%nat.
Proof.
  unfold send. intros E Hc. rewrite Hc in E. revert E. destruct (Nat.ltb_spec (length (ch_buf c)) (ch_cap c)); [|done]. by intros [= <-].
Qed.

Lemma receive_inv c v c' : receive c = Some (v, c') ->
  ch_closed c' = ch_closed c /\
  match v with Some a => ch_buf c = a :: ch_buf c' | None => ch_buf c = [] /\ ch_closed c = true /\ c' = c end.
Proof.
  unfold receive. destruct (ch_buf c) as [|a l] eqn:E; [|by intros [= <- <-]].
  destruct (ch_closed c) eqn:Ec; [|done]. by intros [= <- <-].
Qed.

(** A source after an insertion. *)
Lemma srcs_insert (P : disc * fwd_pc -> Prop) (l : list (disc * fwd_pc)) (i : nat) s s0 :
  l !! i = Some s0 -> (forall (j : nat) x, l !! j = Some x -> P x) -> P s ->
  forall (j : nat) x, <[i := s]> l !! j = Some x -> P x.
Proof.
  intros Hi Hall Hs j x [(-> & <- & _)|[_ Hx]]%list_lookup_insert_Some; [done|by eapply Hall].
Qed.

Lemma disc_step_ok ctx ev d f r : src_ok ctx (d, f) -> disc_step ctx ev d = Some r ->
  exists d', r = Ok d' /\ src_ok ctx (d', f).
Proof.
  intros (Hc & Hd & Hf). rewrite disc_step_plain; unfold disc_plain, src_ok in *. cbn [fst snd] in *.
  destruct (d_pc d) as [first|first a rest| |] eqn:Ep, ev; try done.
  - intros [= <-]. eexists. split; [done|]. cbn. destruct (Scan _ _ _ _) as [[|]|], ctx; cbn; naive_solver.
  - destruct (ch_closed (d_out d)) eqn:Ecl; [naive_solver|].
    intros (r' & E & [= <-])%bind_Some. apply send_inv in E as [-> _]; [|done].
    eexists. split; [done|]. cbn. destruct rest; cbn; naive_solver.
  - destruct ctx; [|done]. intros [= <-]. eexists. split; [done|]. cbn. naive_solver.
  - destruct ctx; [|done]. destruct (ch_closed (d_out d)) eqn:Ecl; [naive_solver|]. unfold close. rewrite Ecl.
    intros [= <-]. eexists. split; [done|]. cbn. naive_solver.
  - intros [= <-]. eexists. split; [done|]. cbn. naive_solver.
Qed.

(** No action panics, and a closed channel stays unused. *)
Lemma fan_step_ok a y r : fan_ok y -> step a y = Some r -> exists y', r = Ok y' /\ fan_ok y'.
Proof.
  intros (Hs & Ho & Hc) E. destruct a as [|i ev|i ev| |]; cbn [step] in E.
  - injection E as <-. eexists. split; [done|]. split_and!; [|done|done]. cbn. intros i s Hi.
    destruct (Hs i s Hi) as (H1 & H2 & H3). split_and!; auto; tauto.
  - apply bind_Some in E as ([d f] & Hi & E). apply bind_Some in E as (r' & Ed & [= <-]).
    destruct (disc_step_ok _ _ _ f _ (Hs i _ Hi) Ed) as (d' & -> & Hd'). eexists. split; [done|].
    split_and!; cbn [with_src y_srcs y_ctx y_out y_closer].
    + by eapply srcs_insert.
    + done.
    + intros Hcl. eapply (srcs_insert (fun s => s.2 = f_end)); [exact Hi|by apply Hc|]. apply (Hc Hcl i _ Hi).
  - apply bind_Some in E as ([d f] & Hi & E). apply bind_Some in E as (r' & Ed & [= <-]).
    pose proof (Hs i _ Hi) as Hsrc. unfold fwd_step in Ed.
    destruct (y_closer y) eqn:Ecl. { pose proof (Hc eq_refl i _ Hi) as Hf. cbn in Hf. subst f. by destruct ev. }
    assert (forall c' f' out', ch_closed c' = ch_closed (d_out d) -> ch_closed out' = false ->
      (f' = f_end -> y_ctx y = true) ->
      fan_ok (with_out (with_src y i ({| d_pc := d_pc d; d_out := c' |}, f')) out')) as Hgo.
    { intros c' f' out' Hc' Hout' Hf'. split_and!; cbn; rewrite ?Ecl; [|done|done].
      eapply srcs_insert; [exact Hi|done|]. destruct Hsrc as (H1 & H2 & _). split_and!; cbn in *; [by rewrite Hc'|done|done]. }
    destruct f as [|addr|], ev; try done.
    + apply bind_Some in Ed as ([v c'] & Er & [= <-]). apply receive_inv in Er as [Hcc Hv].
      eexists. split; [done|]. apply Hgo; [done|done|]. destruct v; [done|]. intros _.
      destruct Hv as (_ & Hcl & _). destruct Hsrc as (H1 & H2 & _). cbn in *. tauto.
    + destruct (y_ctx y) eqn:Ectx; [|done]. injection Ed as <-. eexists. split; [done|]. by apply Hgo.
    + apply bind_Some in Ed as (r'' & Er & [= <-]). apply send_inv in Er as [-> _]; [|done].
      eexists. split; [done|]. by apply Hgo.
    + destruct (y_ctx y) eqn:Ectx; [|done]. injection Ed as <-. eexists. split; [done|]. by apply Hgo.
  - destruct (y_closer y) eqn:Ecl; [done|]. destruct (forallb _ _) eqn:Ef; [|done]. cbn in E. injection E as <-.
    unfold close. rewrite Ho. eexists. split; [done|]. split_and!; cbn; [done|done|]. intros _ i s Hi.
    rewrite forallb_forall in Ef. assert (In s (y_srcs y)) as Hin by (apply list_elem_of_In; by eapply list_elem_of_lookup_2).
    specialize (Ef s Hin). by destruct s as [d []].
  - apply bind_Some in E as ([v c] & Er & [= <-]). apply receive_inv in Er as [Hcc _].
    eexists. split; [done|]. split_and!; cbn; [done|congruence|done].
Qed.

(** ** Order *)

(** What a forwarder holds, or dropped when it returned. *)
Definition between (f : fwd_pc) (kept : list bytes) : Prop :=
  match f with f_recv => kept = [] | f_send a => kept = [a] | f_end => (length kept <= 1)%nat end.

Definition src_hist (tr : list obs) (i : nat) (s : disc * fwd_pc) : Prop :=
  exists kept, between s.2 kept /\ offered_by i tr = passed_by i tr ++ kept ++ ch_buf (d_out s.1).

Definition hist (y : fan) (tr : list obs) : Prop :=
  (forall i s, y_srcs y !! i = Some s -> src_hist tr i s) /\ all_taken tr ++ ch_buf (y_out y) = all_passed tr.

(** What a source has sent meanwhile does not concern the others. *)
Lemma src_hist_frame tr o i s : offered_by i o = [] -> passed_by i o = [] -> src_hist tr i s -> src_hist (tr ++ o) i s.
Proof.
  unfold src_hist, offered_by, passed_by. intros Eo Ep (kept & Hb & E). exists kept. split; [done|].
  by rewrite !omap_app, Eo, Ep, E, !app_nil_r.
Qed.

Lemma offered_one i j a : offered_by i [offered j a] = if decide (j = i) then [a] else [].
Proof. unfold offered_by. cbn. by case_decide. Qed.
Lemma passed_one i j a : passed_by i [passed j a] = if decide (j = i) then [a] else [].
Proof. unfold passed_by. cbn. by case_decide. Qed.

(** One source changes. *)
Lemma hist_src y i s0 s tr o out' : y_srcs y !! i = Some s0 -> hist y tr ->
  (forall j, j <> i -> offered_by j o = [] /\ passed_by j o = []) ->
  src_hist (tr ++ o) i s -> all_taken (tr ++ o) ++ ch_buf out' = all_passed (tr ++ o) ->
  hist (with_out (with_src y i s) out') (tr ++ o).
Proof.
  intros Hi [Hs _] Ho Hsi Hout. split; [|done]. cbn. intros j x [(-> & <- & _)|[Hne Hx]]%list_lookup_insert_Some; [done|].
  destruct (Ho j ltac:(congruence)). apply src_hist_frame; auto.
Qed.

Lemma with_out_same y : with_out y (y_out y) = y.
Proof. by destruct y. Qed.

Lemma hist_disc y i d f ev d' tr : fan_ok y -> hist y tr -> y_srcs y !! i = Some (d, f) ->
  disc_step (y_ctx y) ev d = Some (Ok d') -> hist (with_src y i (d', f)) (tr ++ observe (a_disc i ev) y).
Proof.
  intros Hok Hh Hi E. rewrite <- (with_out_same (with_src y i (d', f))). cbn [y_out with_src].
  destruct (proj1 Hok i _ Hi) as (Hcl & _ & _). cbn in Hcl. pose proof (proj1 Hh i _ Hi) as (kept & Hb & Ek). cbn in Hb, Ek.
  cbn [observe]. destruct d as [pc c]. cbn in *. rewrite disc_step_plain in E; unfold disc_plain in E. cbn in E.
  assert (d_pc d' = d_pc d' -> ch_buf (d_out d') = ch_buf c -> hist (with_out (with_src y i (d', f)) (y_out y)) (tr ++ [])) as Hsame.
  { intros _ Eb. eapply hist_src; [exact Hi|done|by intros|exists kept; cbn; rewrite Eb, app_nil_r; by split|rewrite app_nil_r; apply Hh]. }
  destruct pc as [first|first a rest| |], ev; try done.
  - injection E as <-. by apply Hsame.
  - rewrite Hi. apply bind_Some in E as (r & Es & E).
    destruct (ch_closed c) eqn:Ecl; [naive_solver|]. apply send_inv in Es as [-> _]; [|done]. cbn in E. injection E as <-.
    eapply hist_src; [exact Hi|done|intros j Hj; rewrite offered_one, decide_False by congruence; done| |].
    + exists kept. split; [done|]. unfold offered_by, passed_by in *. rewrite !omap_app, Ek. cbn. rewrite decide_True by done.
      cbn. by rewrite app_nil_r, <- !app_assoc.
    + unfold all_taken, all_passed. rewrite !omap_app. cbn. rewrite !app_nil_r. apply Hh.
  - destruct (y_ctx y); [|done]. injection E as <-. by apply Hsame.
  - destruct (y_ctx y); [|done]. unfold close in E. destruct (ch_closed c); [done|]. cbn in E. injection E as <-. by apply Hsame.
  - injection E as <-. by apply Hsame.
Qed.

Lemma hist_fwd y i d f ev f' c' out' tr : fan_ok y -> hist y tr -> y_srcs y !! i = Some (d, f) ->
  fwd_step (y_ctx y) ev f (d_out d) (y_out y) = Some (Ok (f', c', out')) ->
  hist (with_out (with_src y i ({| d_pc := d_pc d; d_out := c' |}, f')) out') (tr ++ observe (a_fwd i ev) y).
Proof.
  intros Hok Hh Hi E. pose proof (proj1 Hh i _ Hi) as (kept & Hb & Ek). cbn [fst snd] in Hb, Ek.
  assert (y_closer y = true -> f = f_end) as Hend by (intros Hc; apply (proj2 (proj2 Hok) Hc i _ Hi)).
  destruct Hok as (_ & Hcl & _). cbn [observe]. unfold fwd_step in E.
  destruct f as [|addr|], ev; try done; cbn in Hb.
  - apply bind_Some in E as ([v c] & Er & E). apply receive_inv in Er as [_ Hv].
    assert (out' = y_out y /\ c' = c) as [-> ->] by (by destruct v; injection E as <- <- <-). subst kept.
    eapply hist_src; [exact Hi|done|by intros| |rewrite app_nil_r; apply Hh]. rewrite app_nil_r.
    destruct v as [a|]; injection E as <-.
    + exists [a]. split; [done|]. cbn. by rewrite Ek, Hv.
    + destruct Hv as (Hv & _ & ->). exists []. split; [cbn; lia|]. cbn. by rewrite Ek.
  - destruct (y_ctx y); [|done]. injection E as <- <- <-. subst kept.
    eapply hist_src; [exact Hi|done|by intros| |rewrite app_nil_r; apply Hh]. rewrite app_nil_r. exists []. split; [cbn; lia|done].
  - apply bind_Some in E as (r & Es & E). rewrite Hi.
    destruct (ch_closed (y_out y)) eqn:Ecl; [exfalso; rewrite <- Hcl in Hend; by discriminate Hend|].
    apply send_inv in Es as [-> _]; [|done]. cbn in E. injection E as <- <- <-. subst kept.
    eapply hist_src; [exact Hi|done|intros j Hj; rewrite passed_one, decide_False by congruence; done| |].
    + exists []. split; [done|]. unfold offered_by, passed_by in *. rewrite !omap_app, Ek. cbn. rewrite decide_True by done.
      cbn. by rewrite app_nil_r, <- !app_assoc.
    + unfold all_taken, all_passed. rewrite !omap_app. cbn. rewrite app_nil_r, app_assoc. f_equal. apply Hh.
  - destruct (y_ctx y); [|done]. injection E as <- <- <-. subst kept.
    eapply hist_src; [exact Hi|done|by intros| |rewrite app_nil_r; apply Hh]. rewrite app_nil_r. exists [addr]. split; [cbn; lia|done].
Qed.

Lemma hist_step a y y' tr : fan_ok y -> hist y tr -> step a y = Some (Ok y') -> hist y' (tr ++ observe a y).
Proof.
  intros Hok Hh E. destruct a as [|i ev|i ev| |]; cbn [step] in E.
  - injection E as <-. cbn. rewrite app_nil_r. exact Hh.
  - apply bind_Some in E as ([d f] & Hi & E). apply bind_Some in E as ([d'|e] & Ed & E); [|done]. cbn in E. injection E as <-.
    by eapply hist_disc.
  - apply bind_Some in E as ([d f] & Hi & E). apply bind_Some in E as ([[[f' c'] out']|e] & Ed & E); [|done]. cbn in E. injection E as <-.
    by eapply hist_fwd.
  - destruct (_ || _); [done|]. unfold close in E. destruct (ch_closed (y_out y)); [done|]. cbn in E. injection E as <-.
    cbn. rewrite app_nil_r. exact Hh.
  - apply bind_Some in E as ([v c] & Er & E). injection E as <-. apply receive_inv in Er as [_ Hv]. cbn [observe].
    destruct v as [a|].
    + rewrite Hv. split; cbn.
      * intros i s Hi. apply src_hist_frame; [done|done|by apply Hh].
      * pose proof (proj2 Hh) as E. unfold all_taken, all_passed in *. rewrite !omap_app. cbn.
        by rewrite app_nil_r, <- app_assoc, <- E, Hv.
    + destruct Hv as (Hv & _ & ->). rewrite Hv, app_nil_r, with_out_same. exact Hh.
Qed.

(** ** Termination *)

(** Nothing is under way: the sources wait and the channels are empty. *)
Definition at_rest (y : fan) : Prop :=
  y_ctx y = false /\ ch_buf (y_out y) = [] /\
  forall i d f, y_srcs y !! i = Some (d, f) -> d_pc d = d_wait /\ ch_buf (d_out d) = [] /\ f = f_recv.

(** The steps a source, its forwarder and the closer have left once the context is done. *)
Definition disc_work (d : disc) : nat :=
  match d_pc d with d_scan _ => 2 | d_send _ _ rest => 4 + 3 * length rest | d_wait => 1 | d_end => 0 end + 2 * length (ch_buf (d_out d)).
Definition fwd_work (f : fwd_pc) : nat := match f with f_recv => 1 | f_send _ => 2 | f_end => 0 end.
Definition work (y : fan) : nat :=
  sum_list_with (fun s => disc_work s.1 + fwd_work s.2)%nat (y_srcs y) + (if y_closer y then 0 else 1).

(** Ticks of the timers, what the tracker does and the cancellation come from outside. *)
Definition is_tick (a : action) : bool := match a with a_disc _ ev_tick => true | _ => false end.
Definition internal (a : action) : bool :=
  match a with a_cancel | a_take => false | a_disc _ ev_tick => false | _ => true end.
Definition count (p : action -> bool) (acts : list action) : nat := length (filter (fun a => p a = true) acts).

Definition all_ended (y : fan) : Prop :=
  y_closer y = true /\ forall i d f, y_srcs y !! i = Some (d, f) -> d_pc d = d_end /\ f = f_end.

Lemma sum_insert {A} (g : A -> nat) (l : list A) (i : nat) x0 x : l !! i = Some x0 ->
  (sum_list_with g (<[i := x]> l) + g x0 = sum_list_with g l + g x)%nat.
Proof.
  revert i. induction l as [|y l IH]; intros [|i] Hi; try done; cbn in *.
  - injection Hi as ->. lia.
  - rewrite <- !Nat.add_assoc. f_equal. exact (IH i Hi).
Qed.

Lemma disc_step_work ev d d' f : disc_step true ev d = Some (Ok d') -> src_ok true (d, f) ->
  (disc_work d' + (if is_tick (a_disc 0 ev) then 0 else 1) <= disc_work d + (if is_tick (a_disc 0 ev) then 1 else 0))%nat.
Proof.
  intros E (Hc & _). destruct d as [pc c]. cbn in Hc. rewrite disc_step_plain in E; unfold disc_plain in E. cbn in E. unfold disc_work.
  destruct pc as [first|first a rest| |], ev; try done; cbn.
  - injection E as <-. cbn. destruct (Scan _ _ _ _); cbn; lia.
  - apply bind_Some in E as (r & Es & E). destruct (ch_closed c) eqn:Ecl; [naive_solver|].
    apply send_inv in Es as [-> _]; [|done]. injection E as <-. cbn. rewrite length_app. destruct rest; cbn; lia.
  - injection E as <-. cbn. lia.
  - unfold close in E. destruct (ch_closed c); [done|]. injection E as <-. cbn. lia.
  - injection E as <-. cbn. lia.
Qed.

Lemma fwd_step_work ev f d out f' c' out' : fwd_step true ev f (d_out d) out = Some (Ok (f', c', out')) ->
  (disc_work {| d_pc := d_pc d; d_out := c' |} + fwd_work f' < disc_work d + fwd_work f)%nat.
Proof.
  intros E. destruct d as [pc c]. unfold fwd_step in E. cbn [d_out d_pc] in *. unfold disc_work. cbn [d_out d_pc].
  destruct f as [|a|], ev; try done.
  - apply bind_Some in E as ([v c2] & Er & E). apply receive_inv in Er as [_ Hv]. destruct v as [a|]; injection E as <- <- <-.
    + rewrite Hv. cbn. lia.
    + destruct Hv as (_ & _ & ->). cbn. lia.
  - injection E as <- <- <-. cbn. lia.
  - apply bind_Some in E as (r & _ & E). destruct r; [|done]. injection E as <- <- <-. cbn. lia.
  - injection E as <- <- <-. cbn. lia.
Qed.

Lemma step_work a y y' : fan_ok y -> y_ctx y = true -> step a y = Some (Ok y') ->
  y_ctx y' = true /\ (work y' + (if internal a then 1 else 0) <= work y + (if is_tick a then 1 else 0))%nat.
Proof.
  intros Hok Hctx E. destruct a as [|i ev|i ev| |]; cbn [step] in E.
  - injection E as <-. cbn. split; [done|]. unfold work. cbn. lia.
  - apply bind_Some in E as ([d f] & Hi & E). apply bind_Some in E as ([d'|e] & Ed & E); [|done]. injection E as <-.
    rewrite Hctx in Ed. pose proof (proj1 Hok i _ Hi) as Hsrc. rewrite Hctx in Hsrc.
    pose proof (disc_step_work _ _ _ f Ed Hsrc) as Hw. split; [done|]. unfold work. cbn [with_src y_srcs y_closer].
    pose proof (sum_insert (fun s => disc_work s.1 + fwd_work s.2)%nat _ i _ (d', f) Hi) as Hsum. cbn in Hsum.
    destruct ev; cbn in *; lia.
  - apply bind_Some in E as ([d f] & Hi & E). apply bind_Some in E as ([[[f' c'] out']|e] & Ed & E); [|done]. injection E as <-.
    rewrite Hctx in Ed. pose proof (fwd_step_work _ _ _ _ _ _ _ Ed) as Hw. split; [done|]. unfold work. cbn [with_src with_out y_srcs y_closer].
    pose proof (sum_insert (fun s => disc_work s.1 + fwd_work s.2)%nat _ i _ ({| d_pc := d_pc d; d_out := c' |}, f') Hi) as Hsum.
    cbn [fst snd] in Hsum. cbn [internal is_tick]. lia.
  - destruct (y_closer y) eqn:Ec; [done|]. destruct (forallb _ _); [|done]. cbn in E. unfold close in E.
    destruct (ch_closed (y_out y)); [done|]. injection E as <-. split; [done|]. unfold work. cbn. rewrite Ec. lia.
  - apply bind_Some in E as ([v c] & _ & E). injection E as <-. split; [done|]. unfold work. cbn. lia.
Qed.

(** A goroutine that has not returned can go on. *)
Lemma disc_progress d : d_pc d <> d_end -> exists ev r, ev <> ev_tick /\ disc_step true ev d = Some r.
Proof.
  intros Hne. destruct d as [[first|first a rest| |] c]; [..|done].
  - eexists (ev_scanned (Err ErrEOF) id (fun _ => false)), _. split; [done|reflexivity].
  - eexists ev_stop, _. split; [done|reflexivity].
  - eexists ev_stop, _. split; [done|reflexivity].
Qed.

Lemma progress y : fan_ok y -> y_ctx y = true ->
  all_ended y \/ exists a y', internal a = true /\ step a y = Some (Ok y').
Proof.
  intros Hok Hctx.
  assert (forall a r, internal a = true -> step a y = Some r -> exists a y', internal a = true /\ step a y = Some (Ok y')) as Hgo.
  { intros a r Hi E. destruct (fan_step_ok a y r Hok E) as (y' & -> & _). eauto. }
  destruct (decide (Forall (fun s => ended s.2 = true) (y_srcs y))) as [Hf|Hf].
  - destruct (y_closer y) eqn:Ec.
    + destruct (decide (Forall (fun s => ch_closed (d_out s.1) = true) (y_srcs y))) as [Hd|Hd].
      * left. split; [done|]. intros i d f Hi. rewrite Forall_lookup in Hd, Hf. specialize (Hd i _ Hi). specialize (Hf i _ Hi).
        split; [by apply (proj1 Hok i _ Hi)|by destruct f].
      * right. apply not_Forall_Exists, Exists_exists in Hd as ([d f] & Hin & Hd); [|apply _].
        apply list_elem_of_lookup in Hin as [i Hi]. destruct (disc_progress d) as (ev & r & Hev & E).
        { intros Hpc. apply Hd. by apply (proj1 Hok i _ Hi). }
        eapply (Hgo (a_disc i ev)); [by destruct ev|]. cbn. rewrite Hi. cbn. rewrite Hctx, E. reflexivity.
    + right. eapply (Hgo a_close); [done|]. cbn. rewrite Ec.
      assert (forallb (fun s : disc * fwd_pc => ended s.2) (y_srcs y) = true) as ->; [|reflexivity].
      apply forallb_forall. intros s Hin%list_elem_of_In. rewrite Forall_forall in Hf. by apply Hf.
  - right. apply not_Forall_Exists, Exists_exists in Hf as ([d f] & Hin & Hf); [|apply _].
    apply list_elem_of_lookup in Hin as [i Hi]. eapply (Hgo (a_fwd i ev_return)); [done|]. cbn. rewrite Hi. cbn. rewrite Hctx.
    destruct f; [reflexivity..|by destruct Hf].
Qed.

(** ** Where addresses come from *)

Section Found.
Context (F : bytes -> Prop).

Definition src_found (s : disc * fwd_pc) : Prop :=
  match d_pc s.1 with d_send _ a rest => F a /\ Forall F rest | _ => True end /\
  Forall F (ch_buf (d_out s.1)) /\ match s.2 with f_send a => F a | _ => True end.
Definition fan_found (y : fan) : Prop := Forall src_found (y_srcs y) /\ Forall F (ch_buf (y_out y)).

Definition obs_addr (o : obs) : bytes := match o with offered _ a | passed _ a | taken a => a end.

(** The scan of an action finds addresses of this kind only. *)
Definition scans (a : action) : Prop :=
  match a with
  | a_disc _ (ev_scanned ifaces schedule answers) => forall l, Scan ifaces schedule answers None = Ok l -> Forall F l
  | _ => True
  end.

Lemma send_found a c r : send a c = Some (Ok r) -> F a -> Forall F (ch_buf c) -> Forall F (ch_buf r).
Proof.
  unfold send. destruct (ch_closed c); [done|]. case_match; [|done]. intros [= <-] Ha Hc. by apply Forall_app_2; [|apply Forall_singleton].
Qed.

Lemma receive_found c v c' : receive c = Some (v, c') -> Forall F (ch_buf c) ->
  Forall F (ch_buf c') /\ match v with Some a => F a | None => True end.
Proof.
  intros [_ Hv]%receive_inv Hc. destruct v as [a|]; [|by destruct Hv as (_ & _ & ->)].
  rewrite Hv in Hc. by apply Forall_cons in Hc as [? ?].
Qed.

Lemma next_found first l : Forall F l -> match next_pc first l with d_send _ a rest => F a /\ Forall F rest | _ => True end.
Proof. destruct l; cbn; [done|]. by rewrite Forall_cons. Qed.

Lemma disc_found ctx ev d f d' i : scans (a_disc i ev) -> src_found (d, f) -> disc_step ctx ev d = Some (Ok d') -> src_found (d', f).
Proof.
  intros Hsc (Hp & Hb & Hf) E. rewrite disc_step_plain in E; unfold disc_plain, src_found in *. cbn [fst snd] in *. destruct (d_pc d) as [first|first a rest| |], ev; try done.
  - injection E as <-. cbn [d_pc d_out]. split_and!; [|done|done]. cbn in Hsc. destruct ctx; cbn [ctx_err].
    + by destruct (Scan ifaces schedule answers (Some _)).
    + destruct (Scan _ _ _ None) as [l|]; [|done]. by apply next_found, Hsc.
  - apply bind_Some in E as ([c|e] & Es & E); [|done]. injection E as <-. cbn [d_pc d_out].
    split_and!; [by apply next_found, Hp|eapply send_found; [exact Es|apply Hp|done]|done].
  - destruct ctx; [|done]. by injection E as <-.
  - destruct ctx; [|done]. unfold close in E. destruct (ch_closed _); [done|]. by injection E as <-.
  - by injection E as <-.
Qed.

Lemma step_found a y y' : scans a -> fan_found y -> step a y = Some (Ok y') ->
  fan_found y' /\ Forall (fun o => F (obs_addr o)) (observe a y).
Proof.
  intros Hsc [Hs Ho] E. destruct a as [|i ev|i ev| |]; cbn [step] in E.
  - injection E as <-. split; [done|constructor].
  - apply bind_Some in E as ([d f] & Hi & E). apply bind_Some in E as ([d'|e] & Ed & E); [|done]. injection E as <-.
    pose proof (Forall_lookup_1 _ _ _ _ Hs Hi) as Hd. split.
    + split; [|done]. apply Forall_insert; [done|by eapply disc_found].
    + destruct ev; try constructor. cbn. rewrite Hi. destruct d as [[] c]; try constructor; [|constructor]. apply Hd.
  - apply bind_Some in E as ([d f] & Hi & E). apply bind_Some in E as ([[[f' c'] out']|e] & Ed & E); [|done]. injection E as <-.
    pose proof (Forall_lookup_1 _ _ _ _ Hs Hi) as (Hp & Hb & Hf). cbn [fst snd] in *. split.
    + enough (Forall F (ch_buf c') /\ Forall F (ch_buf out') /\ match f' with f_send a => F a | _ => True end) as (Hc' & Hout' & Hf')
        by (split; [apply Forall_insert; [done|by split_and!]|done]).
      unfold fwd_step in Ed. destruct f as [|a|], ev; try done.
      * apply bind_Some in Ed as ([v c] & Er & Ed). injection Ed as <- <- <-.
        destruct (receive_found _ _ _ Er Hb). by destruct v.
      * destruct (y_ctx y); [|done]. by injection Ed as <- <- <-.
      * apply bind_Some in Ed as ([c|e] & Es & Ed); [|done]. injection Ed as <- <- <-. split_and!; [done|by eapply send_found|done].
      * destruct (y_ctx y); [|done]. by injection Ed as <- <- <-.
    + destruct ev; try constructor. cbn. rewrite Hi. destruct f; try constructor; [done|constructor].
  - destruct (_ || _); [done|]. unfold close in E. destruct (ch_closed _); [done|]. injection E as <-. split; [done|constructor].
  - apply bind_Some in E as ([v c] & Er & E). injection E as <-. destruct (receive_found _ _ _ Er Ho) as [Hc _]. split; [done|].
    cbn. destruct (ch_buf (y_out y)); [constructor|]. apply Forall_cons in Ho as [Hb _]. by constructor.
Qed.

Lemma exec_found acts y y' : Forall scans acts -> fan_found y -> exec acts y = Some (Ok y') ->
  Forall (fun o => F (obs_addr o)) (trace acts y).
Proof.
  intros Hsc. revert y. induction Hsc as [|a acts Ha _ IH]; intros y Hy E; cbn [trace exec] in *; [constructor|].
  destruct (step a y) as [[y1|e]|] eqn:Es; [|done..]. destruct (step_found a y y1 Ha Hy Es) as [Hy1 Ho].
  apply Forall_app_2; [done|]. by apply IH.
Qed.
End Found.

(** ** What the scans found *)

(** The addresses the scans of a source found, one scan after the other. *)
Definition scan_results (i : nat) (acts : list action) : list bytes :=
  acts ≫= fun a => match a with
                   | a_disc j (ev_scanned ifaces schedule answers) =>
                       if decide (j = i) then match Scan ifaces schedule answers None with Ok l => l | Err _ => [] end else []
                   | _ => []
                   end.

(** What a source has still to send. *)
Definition to_send (d : disc) : list bytes := match d_pc d with d_send _ a rest => a :: rest | _ => [] end.

Lemma to_send_next first l c : to_send {| d_pc := next_pc first l; d_out := c |} = l.
Proof. by destruct l. Qed.

Lemma step_ctx a y y' : step a y = Some (Ok y') -> y_ctx y = true -> y_ctx y' = true.
Proof.
  intros E Hc. destruct a as [|i ev|i ev| |]; cbn [step] in E.
  - by injection E as <-.
  - apply bind_Some in E as ([d f] & Hi & E). apply bind_Some in E as ([d'|e] & Ed & E); [|done]. by injection E as <-.
  - apply bind_Some in E as ([d f] & Hi & E). apply bind_Some in E as ([[[f' c'] out']|e] & Ed & E); [|done]. by injection E as <-.
  - destruct (_ || _); [done|]. unfold close in E. destruct (ch_closed _); [done|]. by injection E as <-.
  - apply bind_Some in E as ([v c] & Er & E). by injection E as <-.
Qed.

Lemma exec_ctx acts y y' : exec acts y = Some (Ok y') -> y_ctx y = true -> y_ctx y' = true.
Proof.
  revert y. induction acts as [|a acts IH]; intros y E Hc; [by injection E as <-|]. cbn in E.
  destruct (step a y) as [[y1|e]|] eqn:Es; [|done..]. apply (IH y1); [done|by eapply step_ctx].
Qed.

(** A step before the context is cancelled: what it finds and what it sends. *)
Lemma disc_step_sends ev d d' i f y : disc_step false ev d = Some (Ok d') -> y_srcs y !! i = Some (d, f) ->
  to_send d ++ scan_results i [a_disc i ev] = offered_by i (observe (a_disc i ev) y) ++ to_send d'.
Proof.
  intros E Hi. rewrite disc_step_plain in E; unfold disc_plain in E. cbn [observe]. unfold scan_results, to_send.
  destruct d as [[first|first a rest| |] c], ev; try done; cbn [d_pc d_out] in *.
  - injection E as <-. cbn [mbind list_bind app]. rewrite decide_True by done. cbn [ctx_err d_pc].
    destruct (Scan _ _ _ None) as [l|]; [|done]. by destruct l; cbn; rewrite ?app_nil_r.
  - apply bind_Some in E as ([c'|e] & Es & E); [|done]. injection E as <-. rewrite Hi. cbn [mbind list_bind].
    rewrite offered_one, decide_True by done. cbn. by destruct rest; cbn; rewrite ?app_nil_r.
  - by injection E as <-.
Qed.

Lemma step_sends a y y' i d f : y_ctx y' = false -> step a y = Some (Ok y') -> y_srcs y !! i = Some (d, f) ->
  exists d' f', y_srcs y' !! i = Some (d', f') /\
    to_send d ++ scan_results i [a] = offered_by i (observe a y) ++ to_send d'.
Proof.
  intros Hc' E Hi. assert (y_ctx y = false) as Hc.
  { destruct (y_ctx y) eqn:Ec; [|done]. by rewrite (step_ctx a y y' E Ec) in Hc'. }
  assert (forall l : list bytes, l ++ [] = [] ++ l) as Hnil by (intros; by rewrite app_nil_r).
  destruct a as [|j ev|j ev| |]; cbn [step] in E.
  - by injection E as <-.
  - apply bind_Some in E as ([d0 f0] & Hj & E). apply bind_Some in E as ([d'|e] & Ed & E); [|done]. injection E as <-.
    rewrite Hc in Ed. destruct (decide (j = i)) as [->|Hne].
    + rewrite Hi in Hj. injection Hj as <- <-. exists d', f. split; [|by eapply disc_step_sends].
      cbn. apply list_lookup_insert_eq. by eapply lookup_lt_Some.
    + exists d, f. split; [cbn; by rewrite list_lookup_insert_ne|].
      assert (scan_results i [a_disc j ev] = []) as -> by (unfold scan_results; destruct ev; cbn; [by rewrite decide_False|done..]).
      assert (offered_by i (observe (a_disc j ev) y) = []) as ->; [|apply Hnil].
      cbn [observe]. destruct ev; try done. rewrite Hj. destruct d0 as [[first|first x rest| |] c]; try done.
      by rewrite offered_one, decide_False.
  - apply bind_Some in E as ([d0 f0] & Hj & E). apply bind_Some in E as ([[[f' c'] out']|e] & Ed & E); [|done]. injection E as <-.
    assert (offered_by i (observe (a_fwd j ev) y) = []) as -> by (cbn [observe]; destruct ev; try done; rewrite Hj; by destruct f0).
    destruct (decide (j = i)) as [->|Hne].
    + rewrite Hi in Hj. injection Hj as <- <-. exists {| d_pc := d_pc d; d_out := c' |}, f'.
      split; [cbn; apply list_lookup_insert_eq; by eapply lookup_lt_Some|apply Hnil].
    + exists d, f. split; [cbn; by rewrite list_lookup_insert_ne|apply Hnil].
  - destruct (_ || _); [done|]. unfold close in E. destruct (ch_closed _); [done|]. injection E as <-. exists d, f. split; [done|apply Hnil].
  - apply bind_Some in E as ([v c] & Er & E). injection E as <-. exists d, f. split; [done|].
    cbn [observe]. destruct (ch_buf (y_out y)); apply Hnil.
Qed.

Lemma exec_sends acts y y' i d f : y_ctx y' = false -> exec acts y = Some (Ok y') -> y_srcs y !! i = Some (d, f) ->
  exists d' f', y_srcs y' !! i = Some (d', f') /\
    to_send d ++ scan_results i acts = offered_by i (trace acts y) ++ to_send d'.
Proof.
  intros Hc'. revert y d f. induction acts as [|a acts IH]; intros y d f E Hi.
  { injection E as <-. exists d, f. split; [done|]. cbn. by rewrite app_nil_r. }
  cbn in E. destruct (step a y) as [[y1|e]|] eqn:Es; [|done..].
  assert (y_ctx y1 = false) as Hc1 by (destruct (y_ctx y1) eqn:Ec; [by rewrite (exec_ctx acts y1 y' E Ec) in Hc'|done]).
  destruct (step_sends a y y1 i d f Hc1 Es Hi) as (d1 & f1 & Hi1 & E1).
  destruct (IH y1 d1 f1 E Hi1) as (d' & f' & Hi' & E'). exists d', f'. split; [done|].
  cbn [trace]. rewrite Es. unfold offered_by in *. rewrite omap_app, <- app_assoc, <- E', app_assoc, <- E1, <- app_assoc.
  f_equal. unfold scan_results. cbn [mbind list_bind]. by rewrite app_nil_r.
Qed.

(** ** The theorems *)

Section Runs.
Context (n : nat).
#[local] Abbreviation start := (mergePeers (replicate n Discover)).

Lemma start_src i s : y_srcs start !! i = Some s -> s = (Discover, f_recv).
Proof. cbn. rewrite list_lookup_fmap, fmap_Some. by intros (d & [-> _]%lookup_replicate & ->). Qed.

Lemma start_ok : fan_ok start.
Proof. split_and!; [|done|done]. intros i s ->%start_src. by repeat split. Qed.

Lemma exec_cons a acts y r : exec (a :: acts) y = Some r -> fan_ok y ->
  exists y1, step a y = Some (Ok y1) /\ fan_ok y1 /\ exec acts y1 = Some r.
Proof.
  cbn. intros E Hok. destruct (step a y) as [r1|] eqn:Es; [|done]. destruct (fan_step_ok a y r1 Hok Es) as (y1 & -> & Hok1). eauto.
Qed.

Lemma exec_ok acts y r : fan_ok y -> exec acts y = Some r -> exists y', r = Ok y' /\ fan_ok y'.
Proof.
  revert y. induction acts as [|a acts IH]; intros y Hok E; [injection E as <-; eauto|].
  destruct (exec_cons _ _ _ _ E Hok) as (y1 & _ & Hok1 & E1). eauto.
Qed.

Lemma exec_hist acts y y' tr : fan_ok y -> hist y tr -> exec acts y = Some (Ok y') -> hist y' (tr ++ trace acts y).
Proof.
  revert y tr. induction acts as [|a acts IH]; intros y tr Hok Hh E; [injection E as <-; cbn; by rewrite app_nil_r|].
  destruct (exec_cons _ _ _ _ E Hok) as (y1 & Es & Hok1 & E1). cbn [trace]. rewrite Es, app_assoc.
  apply IH; [done|by eapply hist_step|done].
Qed.

Lemma exec_work acts y y' : fan_ok y -> y_ctx y = true -> exec acts y = Some (Ok y') ->
  (work y' + count internal acts <= work y + count is_tick acts)%nat.
Proof.
  revert y. induction acts as [|a acts IH]; intros y Hok Hc E; [injection E as <-; unfold count; rewrite !filter_nil; cbn [length]; lia|].
  destruct (exec_cons _ _ _ _ E Hok) as (y1 & Es & Hok1 & E1). destruct (step_work a y y1 Hok Hc Es) as [Hc1 Hw].
  specialize (IH y1 Hok1 Hc1 E1). unfold count in *. rewrite !filter_cons. destruct (internal a), (is_tick a); repeat case_decide; try congruence; cbn [length]; lia.
Qed.

Lemma step_length a y y' : step a y = Some (Ok y') -> length (y_srcs y') = length (y_srcs y).
Proof.
  intros E. destruct a as [|i ev|i ev| |]; cbn [step] in E.
  - by injection E as <-.
  - apply bind_Some in E as ([d f] & Hi & E). apply bind_Some in E as ([d'|e] & Ed & E); [|done]. injection E as <-. apply length_insert.
  - apply bind_Some in E as ([d f] & Hi & E). apply bind_Some in E as ([[[f' c'] out']|e] & Ed & E); [|done]. injection E as <-. apply length_insert.
  - destruct (_ || _); [done|]. unfold close in E. destruct (ch_closed _); [done|]. by injection E as <-.
  - apply bind_Some in E as ([v c] & Er & E). by injection E as <-.
Qed.

Lemma exec_length acts y y' : exec acts y = Some (Ok y') -> length (y_srcs y') = length (y_srcs y).
Proof.
  revert y. induction acts as [|a acts IH]; intros y E; [by injection E as <-|]. cbn in E.
  destruct (step a y) as [[y1|e]|] eqn:Es; [|done..]. by rewrite (IH y1 E), (step_length a y y1 Es).
Qed.

Lemma exec_complete acts y : exec acts start = Some (Ok y) -> y_ctx y = false -> forall i d f, y_srcs y !! i = Some (d, f) ->
  scan_results i acts = offered_by i (trace acts start) ++ to_send d.
Proof.
  intros E Hc i d f Hi. pose proof (lookup_lt_Some _ _ _ Hi) as Hlt. rewrite (exec_length _ _ _ E) in Hlt.
  apply lookup_lt_is_Some in Hlt as [s0 Hs0]. pose proof (start_src _ _ Hs0) as ->.
  destruct (exec_sends acts start y i Discover f_recv Hc E Hs0) as (d' & f' & Hi' & Es).
  rewrite Hi in Hi'. injection Hi' as <- <-. exact Es.
Qed.

(** What is observed concerns the sources there are. *)
Lemma exec_passed acts y y' : exec acts y = Some (Ok y') ->
  forall i a, passed i a ∈ trace acts y -> (i < length (y_srcs y))%nat.
Proof.
  revert y. induction acts as [|x acts IH]; intros y E i a Hin; cbn [trace exec] in *; [by apply not_elem_of_nil in Hin|].
  destruct (step x y) as [[y1|e]|] eqn:Es; [|done..]. apply elem_of_app in Hin as [Hin|Hin].
  - destruct x as [|j ev|j ev| |]; cbn [observe] in Hin; try by apply not_elem_of_nil in Hin.
    + destruct ev; try by apply not_elem_of_nil in Hin. destruct (y_srcs y !! j) as [[[[] c] f]|]; try by apply not_elem_of_nil in Hin.
      by apply list_elem_of_singleton in Hin.
    + destruct ev; try by apply not_elem_of_nil in Hin. destruct (y_srcs y !! j) as [[d []]|] eqn:Ej; try by apply not_elem_of_nil in Hin.
      apply list_elem_of_singleton in Hin as [= -> ->]. by eapply lookup_lt_Some.
    + destruct (ch_buf (y_out y)); [by apply not_elem_of_nil in Hin|]. by apply list_elem_of_singleton in Hin.
  - rewrite <- (step_length x y y1 Es). by eapply IH.
Qed.

Lemma all_passed_one tr : (forall i a, passed i a ∈ tr -> (i < 1)%nat) -> all_passed tr = passed_by 0 tr.
Proof.
  unfold all_passed, passed_by. induction tr as [|o tr IH]; intros Hi; [done|]. cbn.
  rewrite IH by (intros i a Hin; apply (Hi i a); by right).
  destruct o as [j a|j a|a]; [done| |done]. pose proof (Hi j a ltac:(by left)). by rewrite decide_True by lia.
Qed.

(** With one source at rest, the tracker has taken exactly what the scans found. *)
Lemma rest_taken acts y : n = 1%nat -> exec acts start = Some (Ok y) -> at_rest y ->
  all_taken (trace acts start) = scan_results 0 acts.
Proof.
  intros Hn E (Hc & Ho & Hr).
  destruct (exec_hist acts start y [] start_ok) as [Hs Hout]; [|done|].
  { split; [|done]. intros i s ->%start_src. by exists []. }
  cbn [app] in Hs, Hout. rewrite Ho, app_nil_r in Hout. rewrite Hout.
  assert (length (y_srcs start) = 1%nat) as Hl by (cbn; rewrite length_fmap, length_replicate; done).
  rewrite all_passed_one by (intros i a Hin; rewrite <- Hl; by eapply exec_passed).
  destruct (y_srcs y) as [|[d f] l] eqn:El; [by rewrite <- (exec_length _ _ _ E), El in Hl|].
  destruct (Hr 0%nat d f eq_refl) as (Hpc & Hb & ->).
  destruct (Hs 0%nat (d, f_recv)) as (kept & Hk & Eo); [done|]. cbn in Hk, Eo. subst kept.
  rewrite Hb in Eo. cbn in Eo. rewrite app_nil_r in Eo. rewrite <- Eo.
  rewrite (exec_complete acts y E Hc 0%nat d f_recv) by by rewrite El. unfold to_send. by rewrite Hpc, app_nil_r.
Qed.

(** Without a source it takes nothing. *)
Lemma none_taken acts y : n = 0%nat -> exec acts start = Some (Ok y) -> all_taken (trace acts start) = [].
Proof.
  intros Hn E. destruct (exec_hist acts start y [] start_ok) as [_ Hout]; [|done|].
  { split; [|done]. intros i s ->%start_src. by exists []. }
  cbn [app] in Hout. destruct (all_taken (trace acts start)) as [|x l] eqn:Et; [done|]. exfalso.
  assert (x ∈ all_passed (trace acts start)) as Hx by (rewrite <- Hout; by left).
  apply list_elem_of_omap in Hx as (o & Ho & Hox). destruct o as [|i a|]; try done.
  pose proof (exec_passed _ _ _ E i a Ho) as Hlt. cbn in Hlt. rewrite length_fmap, length_replicate, Hn in Hlt. lia.
Qed.

(** Discovery never uses a channel it must not use.  When the interval between scans is
    positive, in no order of events does a goroutine panic: none sends on a closed channel or
    closes one twice.  The merged channel is closed only when every forwarder has returned,
    and, when there is a source, only after the context was cancelled. *)
Theorem fan_in_safe acts r : exec acts start = Some r ->
  exists y, r = Ok y /\
    (ch_closed (y_out y) = true -> (forall i d f, y_srcs y !! i = Some (d, f) -> f = f_end) /\ (y_srcs y = [] \/ y_ctx y = true)).
Proof.
  intros E. destruct (exec_ok _ _ _ start_ok E) as (y & -> & Hs & Ho & Hc). exists y. split; [done|]. rewrite Ho. intros Hcl.
  split; [intros i d f Hi; by apply (Hc Hcl i _ Hi)|]. destruct (y_srcs y) as [|s l] eqn:El; [by left|right].
  apply (Hs 0%nat s); [done|]. by apply (Hc Hcl 0%nat s).
Qed.

(** C37: Discovery delivers what the scans find, in order.  At any moment of any run, what the
    tracker took, followed by what waits in the merged channel, is what the forwarders passed
    on, in the order in which they did; what a source sent is what its forwarder passed on,
    then what it holds (or, once cancelled, dropped: at most one address), then what waits in
    the source's channel; until the cancellation, what the scans of a source found is what it
    sent and what it has still to send; and every address was found by one of the scans. *)
Theorem fan_in_delivers acts y : exec acts start = Some (Ok y) ->
  let tr := trace acts start in
  all_taken tr ++ ch_buf (y_out y) = all_passed tr /\
  (forall i d f, y_srcs y !! i = Some (d, f) ->
     exists kept, between f kept /\ offered_by i tr = passed_by i tr ++ kept ++ ch_buf (d_out d)) /\
  (y_ctx y = false -> forall i d f, y_srcs y !! i = Some (d, f) -> scan_results i acts = offered_by i tr ++ to_send d) /\
  forall o, o ∈ tr -> exists i ifaces schedule answers l,
    a_disc i (ev_scanned ifaces schedule answers) ∈ acts /\ Scan ifaces schedule answers None = Ok l /\ obs_addr o ∈ l.
Proof.
  intros E tr. destruct (exec_hist acts start y [] start_ok) as [Hs Ho]; [|done|].
  { split; [|done]. intros i s ->%start_src. by exists []. }
  split_and!; [done|intros i d f Hi; by apply (Hs i _ Hi)|by eapply exec_complete|].
  set (F := fun a => exists i ifaces schedule answers l,
    a_disc i (ev_scanned ifaces schedule answers) ∈ acts /\ Scan ifaces schedule answers None = Ok l /\ a ∈ l).
  assert (Forall (fun o => F (obs_addr o)) tr) as HF; [|by rewrite Forall_forall in HF].
  apply (exec_found F acts start y); [| |done].
  - apply Forall_forall. intros [|i ev| | |] Ha; try done. destruct ev; try done. intros l El.
    apply Forall_forall. intros a Hal. exists i, ifaces, schedule, answers, l. done.
  - split; [|constructor]. apply Forall_forall. intros s [i ->%start_src]%list_elem_of_lookup. by split_and!; try constructor.
Qed.

(** C38: Cancelling ends discovery.  From any state with the context cancelled, as long as a
    goroutine has not returned one of them can go on, whatever the tracker does; and however
    the steps are ordered, there are no more of them than the work left, besides one for each
    tick of a timer.  So all of them return and the merged channel is closed. *)
Theorem fan_in_stops acts y : exec acts start = Some (Ok y) -> y_ctx y = true ->
  (all_ended y \/ exists a y', internal a = true /\ step a y = Some (Ok y')) /\
  forall acts' y', exec acts' y = Some (Ok y') -> (work y' + count internal acts' <= work y + count is_tick acts')%nat.
Proof.
  intros E Hc. destruct (exec_ok _ _ _ start_ok E) as (y1 & Hy & Hok). injection Hy as <-.
  split; [by apply progress|]. intros acts' y' E'. by apply exec_work.
Qed.
End Runs.

End Fan.

(** With an interval that is not positive the end of the first scan panics. *)
Lemma interval_panics interval n schedule answers e : interval <= 0 ->
  exec interval [a_disc 0 (ev_scanned (Err e) schedule answers)] (mergePeers (replicate (S n) Discover))
  = Some (Err non_positive_interval).
Proof. intros Hi. cbn. unfold wait_for. by rewrite (proj2 (Z.leb_le _ _)). Qed.

(** ** At a concrete input *)

Module FanInDemo.
Import LanDemo.

(** One source: a scan that finds one relay, whose address reaches the tracker; then the
    context is cancelled and everything returns. *)
Definition hit : bytes := bs "192.168.1.7:14786".
Definition scan : disc_event := ev_scanned (Ok [lo; eth]) id (fun hp => bool_decide (hp = hit)).
Definition found_acts : list action :=
  [a_disc 0 scan; a_disc 0 ev_offer; a_fwd 0 ev_take_in; a_fwd 0 ev_pass_on; a_take].
Definition stop_acts : list action :=
  [a_cancel; a_disc 0 ev_stop; a_fwd 0 ev_take_in; a_close].

Definition every : Z := 300 * second.
Lemma every_pos : 0 < every.
Proof. reflexivity. Qed.

Definition begin : fan := mergePeers (replicate 1 Discover).
Definition reached (acts : list action) : fan :=
  match exec every acts begin with Some (Ok y) => y | _ => begin end.

Lemma found_exec : exec every found_acts begin = Some (Ok (reached found_acts)).
Proof. vm_compute. reflexivity. Qed.
Lemma stop_exec : exec every (found_acts ++ stop_acts) begin = Some (Ok (reached (found_acts ++ stop_acts))).
Proof. vm_compute. reflexivity. Qed.
Lemma cancel_exec : exec every (found_acts ++ [a_cancel]) begin = Some (Ok (reached (found_acts ++ [a_cancel]))).
Proof. vm_compute. reflexivity. Qed.
Lemma rest_exec : exec every (tail stop_acts) (reached (found_acts ++ [a_cancel])) = Some (Ok (reached (found_acts ++ stop_acts))).
Proof. vm_compute. reflexivity. Qed.

Lemma fan_in_safe_witness : ch_closed (y_out (reached (found_acts ++ stop_acts))) = true /\
  y_ctx (reached (found_acts ++ stop_acts)) = true.
Proof.
  destruct (fan_in_safe every every_pos 1 _ _ stop_exec) as (y & Hy & Hcl). apply (inj Ok) in Hy as <-.
  assert (ch_closed (y_out (reached (found_acts ++ stop_acts))) = true) as Hc by (vm_compute; reflexivity).
  split; [exact Hc|]. destruct (proj2 (Hcl Hc)) as [Hnil|Hctx]; [vm_compute in Hnil; discriminate|exact Hctx].
Defined.

Lemma fan_in_delivers_witness : all_taken (trace every found_acts begin) = [hit] /\
  all_taken (trace every found_acts begin) ++ ch_buf (y_out (reached found_acts)) = all_passed (trace every found_acts begin).
Proof.
  split; [vm_compute; reflexivity|]. exact (proj1 (fan_in_delivers every every_pos 1 _ _ found_exec)).
Defined.

Lemma fan_in_stops_witness : (work (reached (found_acts ++ stop_acts)) + 3 <= work (reached (found_acts ++ [a_cancel])))%nat.
Proof.
  pose proof (proj2 (fan_in_stops every every_pos 1 _ _ cancel_exec ltac:(vm_compute; reflexivity)) _ _ rest_exec) as Hw.
  replace (count internal (tail stop_acts)) with 3%nat in Hw by (vm_compute; reflexivity).
  replace (count is_tick (tail stop_acts)) with 0%nat in Hw by (vm_compute; reflexivity).
  rewrite Nat.add_0_r in Hw. exact Hw.
Defined.
End FanInDemo.
