(* ===== verification/RelayFacts.v ===== *)
(** A client and a relay joined by a transport that delivers: single requests, the set
    difference, pulling and pushing. *)
From Stdlib Require Import String.
From S2P Require FlatFile FlatFileFacts BluetoothFacts.
From S2P Require Import Prelude Codec Block Store Bloom Text Net Relay.

(** ** The text in bodies is ASCII *)

Lemma hex_digit_ascii v : u8 (hex_digit v) < 128.
Proof.
  unfold hex_digit. pose proof (Z.mod_pos_bound v 16 ltac:(lia)) as Hv.
  assert (forallb (fun c => u8 c <? 128) hex_digits = true) as Hd by (vm_compute; reflexivity).
  rewrite forallb_forall in Hd. apply Z.ltb_lt, Hd, nth_In. change (length hex_digits) with 16%nat. lia.
Qed.

Lemma hex_encode_ascii l : ascii_text (hex_encode l).
Proof. induction l as [|b l IH]; cbn [hex_encode]; repeat constructor; auto using hex_digit_ascii. Qed.

Lemma b64_char_ascii v : u8 (b64_char StdEncoding v) < 128.
Proof.
  unfold b64_char. pose proof (Z.mod_pos_bound v 64 ltac:(lia)) as Hv.
  assert (forallb (fun c => u8 c <? 128) (enc_alphabet StdEncoding) = true) as Hd by (vm_compute; reflexivity).
  rewrite forallb_forall in Hd. apply Z.ltb_lt, Hd, nth_In. change (length (enc_alphabet StdEncoding)) with 64%nat. lia.
Qed.

Lemma b64_encode_ascii l : ascii_text (b64_encode StdEncoding l).
Proof.
  assert (u8 pad_char < 128) as Hp by reflexivity.
  induction l as [|a|a b|a b c l IH] using list_ind3; cbn [b64_encode b64_pad StdEncoding enc_padded replicate app];
    repeat constructor; auto using b64_char_ascii.
Qed.

(** ** The origin of a block *)

(** The number of an IPv4 address. *)
Definition v4_number (a b c d : byte) : Z := ((u8 a * 256 + u8 b) * 256 + u8 c) * 256 + u8 d.

(** 10.0.0.0/8, 172.16.0.0/12, 192.168.0.0/16, 127.0.0.0/8 and 169.254.0.0/16. *)
Definition lan_v4 (n : Z) : bool :=
  in_range (10 * 2^24) (11 * 2^24 - 1) n || in_range (172 * 2^24 + 16 * 2^16) (172 * 2^24 + 32 * 2^16 - 1) n
  || in_range (192 * 2^24 + 168 * 2^16) (192 * 2^24 + 169 * 2^16 - 1) n
  || in_range (127 * 2^24) (128 * 2^24 - 1) n
  || in_range (169 * 2^24 + 254 * 2^16) (169 * 2^24 + 255 * 2^16 - 1) n.

Lemma land_240 b : (Z.land (u8 b) 240 =? 16) = in_range 16 31 (u8 b).
Proof. by destruct b. Qed.

Lemma is_local_v4 a b c d : is_local [a; b; c; d] = lan_v4 (v4_number a b c d).
Proof.
  unfold is_local, IsPrivate, IsLoopback, IsLinkLocalUnicast, lan_v4, v4_number, at_. cbn [To4 length Nat.eqb nth].
  rewrite land_240. unfold in_range. pose proof (u8_range a). pose proof (u8_range b). pose proof (u8_range c).
  pose proof (u8_range d). apply eq_true_iff_eq. rewrite ?orb_true_iff, ?andb_true_iff, ?Z.eqb_eq, ?Z.leb_le. lia.
Qed.

(** fc00::/7, fe80::/10 and ::1. *)
Lemma is_local_v6 ip : length ip = 16%nat -> take 12 ip <> v4InV6Prefix ->
  let n := at_ ip 0 * 256 + at_ ip 1 in
  is_local ip = in_range (252 * 256) (254 * 256 - 1) n || in_range (254 * 256 + 128) (254 * 256 + 191) n
                || bool_decide (ip = replicate 15 x00 ++ [x01]).
Proof.
  intros Hl Hn n. unfold is_local, IsPrivate, IsLoopback, IsLinkLocalUnicast, To4. rewrite Hl. cbn [Nat.eqb andb].
  rewrite bool_decide_eq_false_2 by done. unfold n, at_, in_range.
  assert ((Z.land (u8 (nth 0 ip x00)) 254 =? 252) = in_range 252 253 (u8 (nth 0 ip x00))) as ->
    by by destruct (nth 0 ip x00).
  assert ((Z.land (u8 (nth 1 ip x00)) 192 =? 128) = in_range 128 191 (u8 (nth 1 ip x00))) as ->
    by by destruct (nth 1 ip x00).
  pose proof (u8_range (nth 0 ip x00)). pose proof (u8_range (nth 1 ip x00)). unfold in_range.
  apply eq_true_iff_eq. rewrite ?orb_true_iff, ?andb_true_iff, ?Z.eqb_eq, ?Z.leb_le, ?bool_decide_eq_true.
  intuition lia.
Qed.

(** A request from an IPv4 address, written in decimal with its port, gives the tag of
    the local network exactly when the address is in 10.0.0.0/8, 172.16.0.0/12,
    192.168.0.0/16, 127.0.0.0/8 or 169.254.0.0/16; an address of sixteen bytes exactly when it
    is in fc00::/7 or fe80::/10 or is ::1. *)
Theorem remote_tag_ranges a b c d port ip :
  (forall x, x ∈ port -> in_range 48 57 (u8 x) = true) -> length ip = 16%nat -> take 12 ip <> v4InV6Prefix ->
  let n := at_ ip 0 * 256 + at_ ip 1 in
  tagFromRemoteAddr (v4_text a b c d ++ colon :: port) = (if lan_v4 (v4_number a b c d) then TagLan else TagGlobal) /\
  ip_tag (Some ip) = if in_range (252 * 256) (254 * 256 - 1) n || in_range (254 * 256 + 128) (254 * 256 + 191) n
                        || bool_decide (ip = replicate 15 x00 ++ [x01]) then TagLan else TagGlobal.
Proof.
  intros Hp Hl Hn n. split.
  - unfold tagFromRemoteAddr. rewrite SplitHostPort_plain by (done || apply v4_text_plain).
    rewrite ParseIP_text. unfold ip_tag. by rewrite <- is_local_v4.
  - unfold ip_tag. by rewrite is_local_v6.
Qed.

Lemma remote_tag_ranges_witness :
  tagFromRemoteAddr (bs "192.168.1.20:8081") = TagLan /\ tagFromRemoteAddr (bs "172.32.0.1:8081") = TagGlobal /\
  ip_tag (ParseIP (bs "fd00::1")) = TagLan.
Proof.
  assert (forall x, x ∈ bs "8081" -> in_range 48 57 (u8 x) = true) as Hp by (apply Forall_forall; by repeat constructor).
  destruct (remote_tag_ranges xc0 xa8 x01 x14 (bs "8081") ([xfd] ++ replicate 14 x00 ++ [x01]) Hp eq_refl) as [H1 H2];
    [done|].
  destruct (remote_tag_ranges xac x20 x00 x01 (bs "8081") ([xfd] ++ replicate 14 x00 ++ [x01]) Hp eq_refl) as [H3 _];
    [done|].
  split_and!; [exact H1|exact H3|exact H2].
Defined.

(** ** One request *)

Section Direct.
Context `{HashesLaws, RelayJsonLaws} {S : Type} `{Store S}.
Context (now : Z) (fuel : nat).

Definition no_reply : error := ErrText "no reply".

(** The transport that hands each request to the relay; the world is the relay. *)
Definition direct (rq : Request) (s : Server S) : Server S * result Reply :=
  match serve now fuel rq s with
  | Some (s', rs) => (s', Ok {| rp_status := rs_status rs; rp_body := rs_body rs; rp_broken := None |})
  | None => (s, Err no_reply)
  end.

Context (c : RelayClient) (Hc : rc_bad_url c = None).

(** What the store of a relay is relied on for. *)
Definition store_sizes : Prop :=
  (forall st id s p, store_Get now st id = Ok (s, p) -> is_Stamp s /\ is_Payload p) /\
  (forall st stamp payload tag st' id, store_Put now stamp payload tag st = (st', Ok id) -> is_ID id).

Lemma wire_size_Z : Z.of_nat blockSize = 4100.
Proof. unfold blockSize, StampSize. pose proof PayloadSize_Z. lia. Qed.

Lemma split_block (stamp : Stamp) (payload : Payload) :
  is_Stamp stamp -> is_Payload payload ->
  length (stamp ++ payload) = blockSize /\
  copy_at 0 (take StampSize (stamp ++ payload)) (replicate StampSize x00) = stamp /\
  copy_at 0 (drop StampSize (stamp ++ payload)) (replicate PayloadSize x00) = payload.
Proof.
  intros Hs Hp. unfold is_Stamp, is_Payload in *. rewrite <- Hs at 1 3. rewrite take_app_length, drop_app_length.
  rewrite length_app. split_and!; [unfold blockSize; lia|..]; by apply copy_at_whole; rewrite length_replicate.
Qed.

Lemma put_body_eq (stamp : Stamp) (payload : Payload) :
  is_Stamp stamp -> is_Payload payload -> put_body stamp payload = stamp ++ payload.
Proof.
  intros Hs Hp. unfold put_body, blockSize. rewrite replicate_add.
  change (replicate StampSize x00 ++ replicate PayloadSize x00)
    with ([] ++ replicate StampSize x00 ++ replicate PayloadSize x00).
  rewrite copy_at_mid by (by rewrite ?length_replicate). cbn [app].
  rewrite <- (app_nil_r (replicate PayloadSize x00)).
  rewrite copy_at_mid by (by rewrite ?length_replicate). by rewrite app_nil_r.
Qed.

Lemma round_trip_direct what rq s :
  round_trip direct c what rq s =
  match serve now fuel rq s with
  | Some (s', rs) => (s', Ok {| rp_status := rs_status rs; rp_body := rs_body rs; rp_broken := None |})
  | None => (s, Err (ErrWrap what no_reply))
  end.
Proof using Hc. unfold round_trip, direct. rewrite Hc. by destruct (serve now fuel rq s) as [[s' rs]|]. Qed.

Lemma parse_id_hex id : is_ID id -> parse_id (hex_encode id) = Some id.
Proof. intros Hid. unfold parse_id. by rewrite hex_roundtrip, Hid, Nat.eqb_refl. Qed.

(** Fetching a block from a relay yields what the relay's store holds: the block, or
    [ErrNotFound] when the store does not have it, or a failure; the relay is unchanged. *)
Theorem relay_Get_spec id s :
  is_ID id -> store_sizes ->
  Get direct c id s =
  (s, match store_Get now (sv_store s) id with
      | Ok sp => Ok sp
      | Err e => if errors_Is e ErrNotFound then Err ErrNotFound else Err (bad_status "relay get: status")
      end).
Proof using All.
  intros Hid [Hg _]. unfold Get. rewrite round_trip_direct. cbn [serve request rq_method rq_path].
  unfold handleGet. rewrite hex_roundtrip, Hid, Nat.eqb_refl. cbn [negb].
  destruct (store_Get now (sv_store s) id) as [[stamp payload]|e] eqn:E.
  - destruct (Hg _ _ _ _ E) as [Hs Hp]. destruct (split_block stamp payload Hs Hp) as (Hl & E1 & E2).
    cbn [rs_status rs_body rp_status rp_body rp_broken]. change (StatusOK =? StatusNotFound) with false.
    rewrite Z.eqb_refl. cbn [negb]. rewrite take_ge by by rewrite Hl.
    rewrite Hl, Nat.eqb_refl. cbn [negb]. rewrite E1, E2. by destruct (_ <? _)%nat.
  - by destruct (errors_Is e ErrNotFound).
Qed.

(** Offering a block to a relay: it is refused, and nothing changes, exactly when its
    work factor is below the floor of the relay; otherwise it is stored under the tag of
    the address it came from and the client learns its id, or that the store failed. *)
Theorem relay_Put_spec stamp payload s :
  is_Stamp stamp -> is_Payload payload -> store_sizes ->
  Put direct c stamp payload s =
  if WorkFactor stamp payload <? sv_powFloor s then (s, Err (bad_status "relay put: status"))
  else
    let '(st, r) := store_Put now stamp payload (origin_tag s []) (sv_store s) in
    (with_store s st, match r with Ok id => Ok id | Err _ => Err (bad_status "relay put: status") end).
Proof using All.
  intros Hs Hp [_ Hput]. unfold Put. rewrite round_trip_direct. cbn [serve request rq_method rq_path].
  unfold handlePut. cbn [request rq_body rq_broken rq_remote]. rewrite bool_decide_eq_false_2 by by intros [].
  cbn [andb]. rewrite put_body_eq by done. destruct (split_block stamp payload Hs Hp) as (Hl & E1 & E2).
  rewrite (take_ge _ (blockSize + 1)) by (rewrite Hl; lia). rewrite Hl, Nat.eqb_refl. cbn [negb]. rewrite E1, E2.
  destruct (_ <? _); [done|].
  destruct (store_Put now stamp payload (origin_tag s []) (sv_store s)) as [st [id|e]] eqn:E; [|done].
  cbn [rs_status rs_body rp_status rp_body]. rewrite Z.eqb_refl. cbn [negb].
  assert (is_ID id) as Hid by by eapply Hput.
  rewrite put_roundtrip; [by rewrite parse_id_hex|].
  apply hex_encode_ascii.
Qed.

End Direct.

(** ** The set difference *)

(** The ids of the listed blocks that a filter does not report. *)
Definition lacking (bloom : Bloom) (l : list (ID * Z)) : list ID :=
  fst <$> filter (fun v => Has bloom v.1 v.2 = false) l.

Lemma lacking_elem bloom l id : id ∈ lacking bloom l <-> exists wf, (id, wf) ∈ l /\ Has bloom id wf = false.
Proof.
  unfold lacking. rewrite list_elem_of_fmap. split.
  - intros ([i wf] & -> & [Hh Hin]%list_elem_of_filter). by exists wf.
  - intros (wf & Hin & Hh). exists (id, wf). split; [done|]. by apply list_elem_of_filter.
Qed.

Lemma visit_lacking bloom refs acc :
  foldl (fun ids r => if Has bloom (br_ID r) (br_WorkFactor r) then ids else ids ++ [hex_encode (br_ID r)]) acc refs
  = acc ++ (hex_encode <$> lacking bloom (ref_view <$> refs)).
Proof.
  revert acc. induction refs as [|r refs IH]; intros acc; cbn [foldl]; [by rewrite app_nil_r|].
  rewrite IH. unfold lacking. rewrite fmap_cons, filter_cons. cbn [ref_view fst snd].
  destruct (Has bloom (br_ID r) (br_WorkFactor r)); [by rewrite decide_False|].
  rewrite decide_True by done. by rewrite !fmap_cons, <- app_assoc.
Qed.

Section Difference.
Context `{HashesLaws, RelayJsonLaws} {S : Type} `{StoreLaws S}.
Context (now : Z) (fuel : nat) (c : RelayClient) (Hc : rc_bad_url c = None).
Context (s : Server S) (Hinv : store_inv (sv_store s)).
Context (Hok : forall limit floor since t cur, valid_token (store_index (sv_store s)) t cur ->
  is_ok (store_ListBlocks now (sv_store s) t limit floor since) = true).
Context (Hfuel : (length (store_index (sv_store s)) < fuel)%nat).

(** The entries a request for the difference considers. *)
Definition considered (powFloor since : Z) : list entry :=
  remaining (store_index (sv_store s)) (Z.max powFloor (sv_powFloor s)) (Unix since) None.

Lemma delta_ids_spec bloom floor since : in_s64 (Unix since) ->
  delta_ids now s bloom floor since fuel
  = Some (Ok (hex_encode <$> lacking bloom (entry_view <$> remaining (store_index (sv_store s)) floor (Unix since) None))).
Proof using Hinv Hok Hfuel.
  intros Hs. unfold delta_ids.
  destruct (page_loop_complete (fun err _ => Err err)
    (fun ref ids => Ok (if Has bloom (br_ID ref) (br_WorkFactor ref) then ids else ids ++ [hex_encode (br_ID ref)]))
    now (sv_store s) 500 floor since Hinv ltac:(lia) Hs fuel []
    (fun ref ids => if Has bloom (br_ID ref) (br_WorkFactor ref) then ids else ids ++ [hex_encode (br_ID ref)]))
    as (refs & Hv & Hl); [done|intros t cur Ht; by apply (Hok 500 floor since t cur)| |].
  { eapply Nat.le_lt_trans; [apply length_filter|done]. }
  rewrite Hl, visit_lacking, Hv. done.
Qed.

Lemma parse_ids_hex ids : Forall is_ID ids -> parse_ids (hex_encode <$> ids) = Ok ids.
Proof.
  induction 1 as [|id ids Hid HF IH]; [done|]. rewrite fmap_cons. cbn [parse_ids].
  rewrite parse_id_hex by done. by rewrite IH.
Qed.

Lemma index_ids en : en ∈ store_index (sv_store s) -> is_ID (cur_id (en_cursor en)).
Proof using Hinv.
  intros Hen. pose proof (store_index_wf _ Hinv) as HF. rewrite Forall_forall in HF. by apply (HF en Hen).
Qed.

Lemma Delta_direct bloom powFloor since : wf_Bloom bloom -> in_s64 powFloor -> in_s64 (Unix since) ->
  Delta (direct now fuel) c bloom powFloor since s
  = (s, Ok (lacking bloom (entry_view <$> considered powFloor since))).
Proof using All.
  intros Hb Hp Hs. unfold Delta. rewrite round_trip_direct by done. cbn [serve request rq_method rq_path rq_body].
  unfold handleDelta. rewrite delta_roundtrip by (done || apply b64_encode_ascii). rewrite std_roundtrip.
  rewrite (proj2 (BloomFromBytes_Ok (Bytes bloom) bloom)) by (rewrite Bytes_bits by done; split; [done|by destruct bloom]).
  assert ((if powFloor <? sv_powFloor s then sv_powFloor s else powFloor) = Z.max powFloor (sv_powFloor s)) as ->
    by (destruct (Z.ltb_spec powFloor (sv_powFloor s)); lia).
  rewrite delta_ids_spec by by rewrite Unix_time_Unix. rewrite Unix_time_Unix.
  cbn [fmap option_fmap option_map rs_status rs_body rp_status rp_body]. rewrite Z.eqb_refl. cbn [negb].
  fold (considered powFloor since). rewrite ids_roundtrip.
  - rewrite parse_ids_hex; [done|]. apply Forall_forall.
    intros id (wf & (en & [= -> ->] & [_ Hen]%list_elem_of_filter)%list_elem_of_fmap & _)%lacking_elem. by apply index_ids.
  - apply Forall_fmap, Forall_forall. intros id _. apply hex_encode_ascii.
Qed.

(** *** Pulling *)

Context {L : Type} `{StoreLaws L} (local : L) (Hlocal : store_inv local).
Context (Hlok : forall t cur, valid_token (store_index local) t cur ->
  is_ok (store_ListBlocks now local t 500 0 time_zero) = true).
Context (Hlfuel : (length (store_index local) < fuel)%nat).
Context (Hsizes : store_sizes (S:=S) now).
(** Some invariant of the local store under which it takes blocks. *)
Context (P : L -> Prop) (HP : P local).
Context (Hput : forall stamp payload st, P st -> is_Stamp stamp -> is_Payload payload ->
  let '(st', r) := store_Put now stamp payload (rc_tag c) st in is_ok r = true /\ P st').

Definition put_all (l : list (Stamp * Payload)) (st : L) : L :=
  foldl (fun st sp => fst (store_Put now sp.1 sp.2 (rc_tag c) st)) st l.

Definition readable (ids : list ID) : list (Stamp * Payload) :=
  omap (fun id => match store_Get now (sv_store s) id with Ok sp => Some sp | Err _ => None end) ids.

Lemma pull_blocks_direct ids st stored : Forall is_ID ids -> P st -> exists stored',
  pull_blocks (direct now fuel) c now (fun _ => None) ids st stored s
    = (s, put_all (readable ids) st, (stored ++ stored', None)) /\
  length stored' = length (readable ids).
Proof using All.
  intros HF. revert st stored. induction HF as [|id ids Hid HF IH]; intros st stored Hst; cbn [pull_blocks].
  - exists []. by rewrite app_nil_r.
  - rewrite relay_Get_spec by done. unfold readable. cbn [omap list_omap].
    destruct (store_Get now (sv_store s) id) as [[stamp payload]|e] eqn:Eg.
    + destruct (proj1 Hsizes _ _ _ _ Eg) as [Hs Hp]. specialize (Hput stamp payload st Hst Hs Hp).
      destruct (store_Put now stamp payload (rc_tag c) st) as [st' [sid|e]] eqn:E; destruct Hput as [Hr Hst']; [|done].
      destruct (IH st' (stored ++ [sid]) Hst') as (stored' & -> & Hlen). exists (sid :: stored').
      cbn [put_all foldl fst snd]. rewrite E. split; [by rewrite <- app_assoc|]. cbn [length]. by rewrite Hlen.
    + destruct (IH st stored Hst) as (stored' & He & Hlen). exists stored'. by destruct (errors_Is e ErrNotFound).
Qed.

(** The ids a pull asks for, and what it runs to. *)
Definition wanted (powFloor since : Z) : list ID :=
  lacking (index_Bloom (store_index local)) (entry_view <$> considered powFloor since).

Lemma wanted_elem powFloor since id :
  id ∈ wanted powFloor since <-> exists en, en ∈ store_index (sv_store s) /\ cur_id (en_cursor en) = id /\
    meets (Z.max powFloor (sv_powFloor s)) (Unix since) en = true /\ Has (index_Bloom (store_index local)) id (en_wf en) = false.
Proof using Type.
  unfold wanted. rewrite lacking_elem. split.
  - intros (wf & (en & [= -> ->] & [Hm Hen]%list_elem_of_filter)%list_elem_of_fmap & Hh). exists en.
    unfold listed in Hm. cbn [after] in Hm. apply andb_true_iff in Hm as [_ Hm]. done.
  - intros (en & Hen & <- & Hm & Hh). exists (en_wf en). split; [|done]. apply list_elem_of_fmap. exists en. split; [done|].
    by apply list_elem_of_filter.
Qed.

Lemma readable_elem ids stamp payload :
  (stamp, payload) ∈ readable ids <-> exists id, id ∈ ids /\ store_Get now (sv_store s) id = Ok (stamp, payload).
Proof using Type.
  unfold readable. rewrite list_elem_of_omap. split; intros (id & Hid & Hg); exists id; (split; [done|]).
  - by destruct (store_Get _ _ _) as [sp|]; [apply (inj Some) in Hg as ->|].
  - by rewrite Hg.
Qed.

Lemma Pull_direct powFloor since :
  in_s64 powFloor -> in_s64 (Unix since) ->
  exists stored, Pull (direct now fuel) c now fuel (fun _ => None) local powFloor since s
      = Some (s, put_all (readable (wanted powFloor since)) local, (stored, None)) /\
    length stored = length (readable (wanted powFloor since)).
Proof using All.
  intros Hp Hs. assert (Forall is_ID (wanted powFloor since)) as HF.
  { apply Forall_forall. intros id (en & Hen & <- & _)%wanted_elem. by apply index_ids. }
  destruct (pull_blocks_direct (wanted powFloor since) local [] HF HP) as (stored & Hpull & Hlen). exists stored.
  split; [|done]. unfold Pull. rewrite BloomOfStore_index by done. rewrite Delta_direct by (done || apply wf_index_Bloom).
  fold (wanted powFloor since). by rewrite Hpull.
Qed.

(** C14: A pull brings over what is missing.  When the relay answers and the local store
    takes what it is given, a pull stores exactly the blocks of the relay at or above both
    floors and since the given time that the filter of the local store does not report
    and that can still be read; it leaves the relay unchanged; and no block is fetched that
    the local store lists at the same or a higher work factor. *)
Theorem relay_Pull_complete powFloor since :
  in_s64 powFloor -> in_s64 (Unix since) ->
  let bloom := index_Bloom (store_index local) in
  exists l stored,
    Pull (direct now fuel) c now fuel (fun _ => None) local powFloor since s
      = Some (s, put_all l local, (stored, None)) /\ length stored = length l /\
    (forall stamp payload, (stamp, payload) ∈ l <-> exists en, en ∈ store_index (sv_store s) /\
       meets (Z.max powFloor (sv_powFloor s)) (Unix since) en = true /\
       Has bloom (cur_id (en_cursor en)) (en_wf en) = false /\
       store_Get now (sv_store s) (cur_id (en_cursor en)) = Ok (stamp, payload)) /\
    (forall en en', en ∈ store_index (sv_store s) -> en' ∈ store_index local ->
       cur_id (en_cursor en) = cur_id (en_cursor en') -> Unix time_zero <= cur_createdAt (en_cursor en') ->
       0 <= en_wf en <= en_wf en' -> Has bloom (cur_id (en_cursor en)) (en_wf en) = true).
Proof using All.
  intros Hp Hs bloom. destruct (Pull_direct powFloor since Hp Hs) as (stored & Hpull & Hlen).
  exists (readable (wanted powFloor since)), stored. split_and!; [done|done| |].
  - intros stamp payload. rewrite readable_elem. setoid_rewrite wanted_elem. split.
    + intros (id & (en & Hen & <- & Hm & Hh) & Hg). by exists en.
    + intros (en & Hen & Hm & Hh & Hg). exists (cur_id (en_cursor en)). split; [by exists en|done].
  - intros en en' _ Hen' -> Hc' Hk. by apply Has_index_Bloom.
Qed.
End Difference.

(** ** The advertised floor *)

Section Floor.
Context `{HashesLaws, RelayJsonLaws} {S : Type} `{Store S}.
Context (now : Z) (fuel : nat) (c : RelayClient) (Hc : rc_bad_url c = None).

(** What a relay advertises as its floor. *)
Definition advertised (s : Server S) : result Z :=
  match sv_median s with
  | Some median => match median (sv_store s) with Ok m => Ok (m - 1) | Err e => Err e end
  | None => Ok (sv_powFloor s)
  end.

Lemma GetPowLimit_direct s z : advertised s = Ok z -> in_s64 z ->
  GetPowLimit (direct now fuel) c s = (s, Ok z).
Proof using All.
  unfold advertised. intros Ha Hz. unfold GetPowLimit. rewrite round_trip_direct by done.
  cbn [serve request rq_method rq_path]. unfold handlePowLimit.
  destruct (sv_median s) as [median|].
  - destruct (median (sv_store s)) as [m|]; [|done]. injection Ha as <-. cbn [rs_status rs_body rp_status rp_body].
    rewrite Z.eqb_refl. cbn [negb]. by rewrite pow_roundtrip.
  - injection Ha as <-. cbn [rs_status rs_body rp_status rp_body]. rewrite Z.eqb_refl. cbn [negb].
    by rewrite pow_roundtrip.
Qed.

(** The advertised floor is not the floor.  A relay whose store knows its median
    advertises the median less one, which is -1 while the store is not half full, whatever
    the configured floor; so a block at the advertised floor is refused whenever it is
    below the configured one. *)
Theorem pow_limit_understates stamp payload m median (s : Server S) :
  sv_median s = Some median -> median (sv_store s) = Ok m -> in_s64 (m - 1) ->
  is_Stamp stamp -> is_Payload payload -> store_sizes (S:=S) now ->
  m - 1 <= WorkFactor stamp payload < sv_powFloor s ->
  GetPowLimit (direct now fuel) c s = (s, Ok (m - 1)) /\
  Put (direct now fuel) c stamp payload s = (s, Err (bad_status "relay put: status")).
Proof using All.
  intros Hmed Hm Hz Hs Hp Hsz Hwf. split.
  - apply GetPowLimit_direct; [|done]. unfold advertised. by rewrite Hmed, Hm.
  - rewrite relay_Put_spec by done. rewrite (proj2 (Z.ltb_lt _ _)) by lia. done.
Qed.
End Floor.

(** ** Pushing *)

Section Pushing.
Context `{HashesLaws, RelayJsonLaws} {S : Type} `{Store S} {L : Type} `{StoreLaws L}.
Context (now : Z) (fuel : nat) (c : RelayClient) (Hc : rc_bad_url c = None).
Context (local : L) (Hlocal : store_inv local).
Context (Hlok : forall floor since t cur, valid_token (store_index local) t cur ->
  is_ok (store_ListBlocks now local t 100 floor since) = true).
Context (Hlfuel : (length (store_index local) < fuel)%nat).

(** The blocks of a listing that are offered. *)
Definition offered (skip : list ID) (l : list (ID * Z)) : list (Stamp * Payload) :=
  omap (fun v => if bool_decide (v.1 ∈ skip) then None
                 else match store_Get now local v.1 with Ok sp => Some sp | Err _ => None end) l.

(** Offering blocks one after the other, counting those that are taken. *)
Definition offer_all (l : list (Stamp * Payload)) (st : Server S * Z) : Server S * Z :=
  foldl (fun st sp => let '(s, r) := Put (direct now fuel) c sp.1 sp.2 st.1 in
                      (s, if is_ok r then st.2 + 1 else st.2)) st l.

Lemma offer_all_app l1 l2 st : offer_all (l1 ++ l2) st = offer_all l2 (offer_all l1 st).
Proof using Type. apply foldl_app. Qed.

Lemma offered_cons skip v l : offered skip (v :: l) = offered skip [v] ++ offered skip l.
Proof using Type. exact (omap_app _ [v] l). Qed.

(** Offering one reference after the other. *)
Lemma offer_fold skip refs st :
  foldl (fun s r => offer_all (offered skip [ref_view r]) s) st refs = offer_all (offered skip (ref_view <$> refs)) st.
Proof using Type.
  revert st. induction refs as [|r refs IH]; intros st; [done|].
  cbn [foldl]. by rewrite IH, fmap_cons, (offered_cons _ _ (_ <$> refs)), offer_all_app.
Qed.

Lemma push_refs_offer skip refs n s :
  push_refs (direct now fuel) c now skip local refs n s = offer_all (offered skip (ref_view <$> refs)) (s, n).
Proof using Type.
  revert n s. induction refs as [|r refs IH]; intros n s; cbn [push_refs]; [done|].
  rewrite fmap_cons. unfold offered. cbn [omap list_omap ref_view fst snd].
  case_bool_decide; [apply IH|]. destruct (store_Get now local (br_ID r)) as [[stamp payload]|]; [|apply IH].
  cbn [offer_all foldl fst snd]. destruct (Put (direct now fuel) c stamp payload s) as [s' [id|e]]; apply IH.
Qed.

Lemma push_pages_loop skip floor since k token st0 st :
  page_loop (fun token => store_ListBlocks now local token 100 floor since) (fun err _ => Err err)
    (fun r st => Ok (offer_all (offered skip [ref_view r]) st)) k token st0 = Some (Ok st) ->
  push_pages (direct now fuel) c now k (fun _ => None) skip local floor since token st0.2 st0.1
  = Some (st.1, (st.2, None)).
Proof using Type.
  revert token st0. induction k as [|k IH]; intros token st0; cbn [page_loop push_pages]; [done|].
  destruct (store_ListBlocks now local token 100 floor since) as [[next refs]|e]; [|done].
  rewrite visit_all_pure, push_refs_offer.
  rewrite offer_fold, <- surjective_pairing.
  destruct (offer_all _ _) as [s1 n1] eqn:E. case_decide; [by intros [= <-]|]. apply (IH next (s1, n1)).
Qed.

(** The blocks a push offers. *)
Definition offers (skip : list ID) (floor since : Z) : list (Stamp * Payload) :=
  offered skip (entry_view <$> remaining (store_index local) floor (Unix since) None).

(** The entries of the local index that a push is to offer, in the order of the index. *)
Definition asked_for (skip : list ID) (floor since : Z) : list entry :=
  filter (fun en => meets floor (Unix since) en = true /\ cur_id (en_cursor en) ∉ skip) (store_index local).

(** The block of an entry, when it can still be read. *)
Definition read_entry (en : entry) : option (Stamp * Payload) :=
  match store_Get now local (cur_id (en_cursor en)) with Ok sp => Some sp | Err _ => None end.

Lemma offers_asked skip floor since : offers skip floor since = omap read_entry (asked_for skip floor since).
Proof using Type.
  unfold offers, offered, asked_for, remaining. erewrite (list_filter_iff _ (fun en => meets floor (Unix since) en = true)) by (intros x; by unfold listed, after).
  generalize (store_index local). intros l. induction l as [|en l IH]; [done|]. rewrite !filter_cons.
  destruct (decide (meets floor (Unix since) en = true)) as [Hm|Hm]; [|rewrite decide_False by (intros []; done); exact IH].
  rewrite fmap_cons. cbn [omap list_omap entry_view fst]. rewrite IH. case_bool_decide as Hsk.
  - rewrite decide_False by (intros [? Hx]; done). done.
  - rewrite decide_True by done. cbn [omap list_omap]. replace (read_entry en) with (match store_Get now local (cur_id (en_cursor en)) with Ok sp => Some sp | Err _ => None end) by done. by destruct (store_Get _ _ _).
Qed.

Lemma offers_elem skip floor since stamp payload :
  (stamp, payload) ∈ offers skip floor since <-> exists en, en ∈ store_index local /\
    meets floor (Unix since) en = true /\ (cur_id (en_cursor en) ∉ skip) /\
    store_Get now local (cur_id (en_cursor en)) = Ok (stamp, payload).
Proof using Type.
  rewrite offers_asked, list_elem_of_omap. unfold asked_for, read_entry. split.
  - intros (en & [[Hm Hsk] Hen]%list_elem_of_filter & Hg). exists en. split_and!; [done..|].
    destruct (store_Get _ _ _) as [sp|]; [by apply (inj Some) in Hg as ->|done].
  - intros (en & Hen & Hm & Hsk & Hg). exists en. rewrite Hg. split; [by apply list_elem_of_filter|done].
Qed.

(** No entry is in the index twice. *)
Lemma asked_for_NoDup skip floor since : NoDup (asked_for skip floor since).
Proof using Type*.
  apply NoDup_filter. pose proof (store_index_sorted _ Hlocal) as Hs. clear - Hs.
  revert Hs. generalize (store_index local). intros l Hs. induction Hs as [|en l Hs IH HF]; constructor; [|done].
  intros Hin. rewrite Forall_forall in HF. apply HF in Hin. by rewrite lex_ltb_irrefl in Hin.
Qed.

Lemma Push_direct skip powFloor since z s :
  advertised s = Ok z -> in_s64 z -> in_s64 (Unix since) ->
  Push (direct now fuel) c now fuel (fun _ => None) skip local powFloor since s
  = (let '(s', n) := offer_all (offers skip (Z.max powFloor z) since) (s, 0) in Some (s', (n, None))).
Proof using All.
  intros Ha Hz Hs. set (floor := Z.max powFloor z).
  destruct (page_loop_complete (fun err _ => Err err) (fun r st => Ok (offer_all (offered skip [ref_view r]) st))
    now local 100 floor since Hlocal ltac:(lia) Hs fuel (s, 0) (fun r st => offer_all (offered skip [ref_view r]) st))
    as (refs & Hv & Hl); [done|intros t cur Ht; by apply (Hlok floor since t cur)| |].
  { eapply Nat.le_lt_trans; [apply length_filter|done]. }
  unfold Push. rewrite (GetPowLimit_direct now fuel c Hc s z Ha Hz).
  assert ((if powFloor <? z then z else powFloor) = floor) as ->
    by (unfold floor; destruct (Z.ltb_spec powFloor z); lia).
  apply push_pages_loop in Hl. cbn [fst snd] in Hl. rewrite Hl.
  rewrite offer_fold. unfold offers. rewrite Hv. by destruct (offer_all _ _).
Qed.

(** C20: A push offers everything the relay asks for, once.  When the local store answers,
    what is offered is, for each entry of the local index in its order that is at or above
    the floor of the caller and the one the relay advertises, since the given time and not
    to be skipped, the block of it if it can still be read: as many uploads as there are
    such entries, each of which is in the index once.  The push returns without error the
    number of uploads the relay answered with success. *)
Theorem relay_Push_complete skip powFloor since z s :
  advertised s = Ok z -> in_s64 z -> in_s64 (Unix since) ->
  let asked := asked_for skip (Z.max powFloor z) since in
  NoDup asked /\
  Push (direct now fuel) c now fuel (fun _ => None) skip local powFloor since s
  = (let '(s', n) := offer_all (omap read_entry asked) (s, 0) in Some (s', (n, None))).
Proof using All.
  intros Ha Hz Hs asked. split; [apply asked_for_NoDup|]. unfold asked. rewrite <- offers_asked. by apply Push_direct.
Qed.

End Pushing.

(** ** At concrete inputs *)

Definition ref_RelayJson : RelayJson := {|
  enc_delta := ser; dec_delta := deser;
  enc_ids := ser; dec_ids := deser;
  enc_put := ser; dec_put_id b := fst <$> (deser b : result (bytes * Z));
  enc_pow := ser; dec_pow := deser;
  enc_peers := ser; dec_peers := deser;
  enc_url := ser; dec_url b := match deser b with Ok u => u | Err _ => [] end;
  enc_error msg := bs msg;
|}.

Lemma ref_RelayJsonLaws : @RelayJsonLaws ref_RelayJson.
Proof.
  split; intros; cbn [enc_delta dec_delta enc_ids dec_ids enc_put dec_put_id enc_pow dec_pow enc_peers dec_peers
    enc_url dec_url ref_RelayJson]; by rewrite deser_ser.
Qed.

Module RelayDemo.
Import FlatFile FlatFileFacts FlatFileFacts.Demo BluetoothFacts.BluetoothDemo.
#[local] Existing Instances ref_Hashes ref_HashesLaws ref_GoFloat ref_RelayJson ref_RelayJsonLaws.

Definition relay : Server FlatFileStore := {|
  sv_store := full; sv_powFloor := 5; sv_median := None; sv_geoip := None; sv_peerSource := None; sv_added := None |}.
Definition client : RelayClient := {| rc_tag := TagLan; rc_bad_url := None |}.

Lemma flat_sizes : store_sizes (S:=FlatFileStore) 0.
Proof.
  split.
  - intros st id s p. cbn [store_Get FlatFile_Store]. unfold FlatFile.Get.
    destruct (os_Open _ _) as [d|e]; [|by destruct (IsNotExist e)].
    unfold FlatFile.ReadFull. case_decide as E; [done|]. intros [= <- <-]. unfold is_Stamp, is_Payload, flatHeaderSize in *.
    rewrite !length_slice, length_take. unfold StampSize in *. lia.
  - intros st stamp payload tag st' id. cbn [store_Put FlatFile_Store]. unfold FlatFile.Put.
    destruct (keep_existing _ _ _); [intros [_ Hid]%pair_eq; apply (inj Ok) in Hid as <-; apply ComputeID_is_ID|].
    destruct (io_mkdir _ _); [done|]. destruct (io_write _ _) as [[e written]|]; [done|].
    destruct (io_rename _ _); [done|]. intros [_ Hid]%pair_eq. apply (inj Ok) in Hid as <-. apply ComputeID_is_ID.
Qed.

Lemma flat_takes stamp payload (st : FlatFileStore) :
  env st = io_ok -> is_Stamp stamp -> is_Payload payload ->
  let '(st', r) := store_Put 0 stamp payload (rc_tag client) st in is_ok r = true /\ env st' = io_ok.
Proof.
  intros Henv Hs Hp. cbn [store_Put FlatFile_Store].
  destruct (Put_ok 0 stamp payload (rc_tag client) Hs Hp st Henv) as (st' & E & _).
  pose proof (Put_files 0 stamp payload (rc_tag client) Hs Hp st (blockPath ref_id) eq_refl) as Hf.
  rewrite E in *. destruct Hf as (He & _). split; [done|congruence].
Qed.

Lemma lists (st : FlatFileStore) limit floor since t cur :
  st = full \/ st = empty -> valid_token (store_index st) t cur -> is_ok (store_ListBlocks 0 st t limit floor since) = true.
Proof.
  intros [->| ->] Htok; cbn [store_ListBlocks FlatFile_Store]; unfold FlatFile.ListBlocks;
    rewrite (parse_page_token_valid _ t cur Htok); cbn; by destruct (collect _ _ _ _ _).
Qed.

Lemma full_length : (length (store_index full) < 2)%nat.
Proof. rewrite full_index. cbn. lia. Qed.
Lemma empty_length : (length (store_index empty) < 2)%nat.
Proof. vm_compute. lia. Qed.
Lemma zero_s64 : in_s64 0.
Proof. split; discriminate || reflexivity. Qed.

Lemma relay_Get_spec_witness :
  Relay.Get (direct 0 2) client ref_id relay = (relay, Ok ([x01; x02; x03; x04], ref_payload)).
Proof.
  rewrite (relay_Get_spec 0 2 client eq_refl ref_id relay eq_refl flat_sizes).
  vm_compute. reflexivity.
Defined.

Lemma relay_Put_spec_witness :
  snd (Relay.Put (direct 0 2) client ref_stamp ref_payload relay) = Err (bad_status "relay put: status") \/
  is_ok (snd (Relay.Put (direct 0 2) client ref_stamp ref_payload relay)) = true.
Proof.
  rewrite (relay_Put_spec 0 2 client eq_refl ref_stamp ref_payload relay ref_stamp_ok ref_payload_ok flat_sizes).
  destruct (_ <? _); [left; reflexivity|].
  destruct (store_Put _ _ _ _ _) as [st [id|e]]; [right; reflexivity|left; reflexivity].
Defined.

Lemma relay_Pull_complete_witness : exists l stored,
  Relay.Pull (direct 0 2) client 0 2 (fun _ => None) empty 0 0 relay = Some (relay, put_all 0 client l empty, (stored, None)) /\
  ([x01; x02; x03; x04], ref_payload) ∈ l.
Proof.
  destruct (relay_Pull_complete 0 2 client eq_refl relay full_inv
    (fun limit floor since t cur => lists full limit floor since t cur (or_introl eq_refl)) full_length
    empty empty_inv (fun t cur => lists empty 500 0 time_zero t cur (or_intror eq_refl)) empty_length flat_sizes
    (fun st => env st = io_ok) eq_refl flat_takes 0 0 zero_s64 Unix_0_s64) as (l & stored & H1 & _ & H3 & _).
  exists l, stored. split; [exact H1|]. apply H3.
  exists {| en_cursor := {| cur_createdAt := 1000; cur_id := ref_id |}; en_wf := 7 |}.
  change (sv_store relay) with full. rewrite full_index. split; [apply list_elem_of_here|].
  split_and!; vm_compute; reflexivity.
Defined.

Lemma relay_Push_complete_witness :
  Relay.Push (direct 0 2) client 0 2 (fun _ => None) [] full 0 0 relay
  = (let '(s', n) := offer_all 0 2 client [([x01; x02; x03; x04], ref_payload)] (relay, 0) in Some (s', (n, None))).
Proof.
  destruct (relay_Push_complete 0 2 client eq_refl full full_inv
    (fun floor since t cur => lists full 100 floor since t cur (or_introl eq_refl)) full_length
    [] 0 0 5 relay eq_refl ltac:(split; discriminate || reflexivity) Unix_0_s64) as [_ H1].
  rewrite H1. unfold asked_for. rewrite full_index. vm_compute (omap _ _). reflexivity.
Defined.

(** A relay that is empty advertises -1 and refuses what is below its floor. *)
Definition empty_relay : Server FlatFileStore := {|
  sv_store := empty; sv_powFloor := 300; sv_median := Some (fun _ => Ok 0); sv_geoip := None;
  sv_peerSource := None; sv_added := None |}.

Lemma pow_limit_understates_witness :
  Relay.GetPowLimit (direct 0 2) client empty_relay = (empty_relay, Ok (-1)) /\
  Relay.Put (direct 0 2) client ref_stamp ref_payload empty_relay = (empty_relay, Err (bad_status "relay put: status")).
Proof.
  apply (pow_limit_understates 0 2 client eq_refl ref_stamp ref_payload 0 (fun _ => Ok 0) empty_relay eq_refl eq_refl).
  - split; discriminate || reflexivity.
  - exact ref_stamp_ok.
  - exact ref_payload_ok.
  - exact flat_sizes.
  - pose proof (WorkFactor_range ref_stamp ref_payload). cbn [sv_powFloor empty_relay]. lia.
Defined.
End RelayDemo.
