(* ===== verification/Peers.v ===== *)
(** The peers of a node and of a relay ([cmd/snk/main.go]): the tracker with its backoff,
    the file it survives restarts in, the synchronisation with one peer, the rounds, and
    the helpers that read peers and sizes from the command line. *)
From Stdlib Require Import String.
From S2P Require Import Prelude Codec Block Store Bloom Text Net GeoIP Relay.

(** ** Text *)

Definition comma : byte := x2c.
Definition slash : byte := x2f.

Definition splitPeers (s : bytes) : list bytes :=
  omap (fun p => let p := TrimSpace p in if bool_decide (p <> []) then Some p else None) (Split s comma).

(** *** [parseBytes] *)

Definition cannot_parse : error := ErrText "cannot parse".

(** The leading digits of a text. *)
Fixpoint leading_digits (s : bytes) : list Z :=
  match s with
  | [] => []
  | c :: s' => match digit c with Some d => d :: leading_digits s' | None => [] end
  end.

Definition digits_value (ds : list Z) : Z := foldl (fun v d => v * 10 + d) 0 ds.

(** [fmt.Sscanf] with ["%d"] into an [int64], on a text without leading space: a sign,
    digits, and anything after them. *)
Definition Sscanf_d (s : bytes) : result Z :=
  let '(neg, s) := match s with
                   | c :: s' => if bool_decide (c = x2d) then (true, s')
                                else if bool_decide (c = x2b) then (false, s') else (false, s)
                   | [] => (false, s)
                   end in
  match leading_digits s with
  | [] => Err cannot_parse
  | ds =>
      let v := if neg : bool then - digits_value ds else digits_value ds in
      if (- 2 ^ 63 <=? v) && (v <? 2 ^ 63) then Ok v else Err cannot_parse
  end.

Definition suffixes : list (bytes * Z) :=
  [(bs "TB", 2 ^ 40); (bs "GB", 2 ^ 30); (bs "MB", 2 ^ 20); (bs "KB", 2 ^ 10)].

(** The loop over the suffixes. *)
Fixpoint parse_suffix (s upper : bytes) (l : list (bytes * Z)) : option (result Z) :=
  match l with
  | [] => None
  | (suffix, mult) :: l' =>
      if HasSuffix upper suffix then
        let numStr := TrimSpace (take (length s - length suffix) s) in
        Some (match Sscanf_d numStr with Err _ => Err cannot_parse | Ok n => Ok (to_s64 (n * mult)) end)
      else parse_suffix s upper l'
  end.

Definition parseBytes `{UnicodeUpper} (s : bytes) : result Z :=
  let s := TrimSpace s in
  if bool_decide (s = []) || bool_decide (s = bs "0") then Ok 0
  else
    match parse_suffix s (ToUpper s) suffixes with
    | Some r => r
    | None => Sscanf_d s
    end.

(** ** URLs of peers *)

Definition http_prefix : bytes := bs "http://".
Definition https_prefix : bytes := bs "https://".

Definition peerURL `{UrlParse} (hostport : bytes) : bytes :=
  let full :=
    if HasPrefix hostport http_prefix || HasPrefix hostport https_prefix then
      match url_Parse hostport with
      | Ok u => bool_decide (url_Host u <> [])
      | Err _ => false
      end
    else false in
  if full then TrimRight hostport slash
  else
    let port := match SplitHostPort hostport with Ok (_, p) => p | Err _ => [] end in
    if bool_decide (port = bs "443") then https_prefix ++ hostport else http_prefix ++ hostport.

Definition isPublicURL `{UrlParse} (rawURL : bytes) : bool :=
  match url_Parse rawURL with
  | Err _ => false
  | Ok u =>
      match ParseIP (Hostname u) with
      | None => true
      | Some ip => negb (IsPrivate ip) && negb (IsLoopback ip) && negb (IsLinkLocalUnicast ip)
      end
  end.

(** ** The tracker *)

Definition maxPeers : nat := 200.
Definition maxBackoffRounds : Z := 64.

Record peerState := { skipRounds : Z; failures : Z; pullSince : Z; pushSince : Z }.
Definition new_peer : peerState := {| skipRounds := 0; failures := 0; pullSince := time_zero; pushSince := time_zero |}.

(** [started] says whether [run] has set the context that [SyncNow] uses. *)
Record peerTracker := {
  known : gmap bytes peerState;
  advertiseURL : bytes;
  peersFile : bytes;
  started : bool;
}.

Definition newPeerTracker : peerTracker :=
  {| known := ∅; advertiseURL := []; peersFile := []; started := false |}.

Definition with_known (pt : peerTracker) (m : gmap bytes peerState) : peerTracker :=
  {| known := m; advertiseURL := advertiseURL pt; peersFile := peersFile pt; started := started pt |}.

Definition addPeer (u : bytes) (pt : peerTracker) : peerTracker * bool :=
  if bool_decide (advertiseURL pt <> []) && bool_decide (u = advertiseURL pt) then (pt, false)
  else
    match known pt !! u with
    | None => if (size (known pt) <? maxPeers)%nat then (with_known pt (<[u := new_peer]> (known pt)), true) else (pt, false)
    | Some _ => (pt, false)
    end.

(** [1 << n] on an [int]: a shift by a negative count panics. *)
Definition shift_one (n : Z) : option Z :=
  if n <? 0 then None else Some (if 64 <=? n then 0 else to_s64 (2 ^ n)).

(** A peer after a pull that failed, and after one that did not. *)
Definition pull_failed (st : peerState) : option peerState :=
  let f := to_s64 (failures st + 1) in
  match shift_one f with
  | None => None
  | Some rounds =>
      let rounds := if maxBackoffRounds <? rounds then maxBackoffRounds else rounds in
      Some {| skipRounds := rounds; failures := f; pullSince := pullSince st; pushSince := pushSince st |}
  end.

Definition pull_succeeded (pullStart : Z) (st : peerState) : peerState :=
  {| skipRounds := 0; failures := 0; pullSince := pullStart; pushSince := pushSince st |}.

Definition push_succeeded (pushStart : Z) (st : peerState) : peerState :=
  {| skipRounds := skipRounds st; failures := failures st; pullSince := pullSince st; pushSince := pushStart |}.

(** The critical sections of [syncOne]. *)
Definition record_pull (u : bytes) (err : option error) (pullStart : Z) (pt : peerTracker) : option peerTracker :=
  match known pt !! u with
  | None => Some pt
  | Some st =>
      match err with
      | Some _ => (fun st => with_known pt (<[u := st]> (known pt))) <$> pull_failed st
      | None => Some (with_known pt (<[u := pull_succeeded pullStart st]> (known pt)))
      end
  end.

Definition record_push (u : bytes) (pushStart : Z) (pt : peerTracker) : peerTracker :=
  match known pt !! u with
  | None => pt
  | Some st => with_known pt (<[u := push_succeeded pushStart st]> (known pt))
  end.

(** The peers that are gossiped.  The order of a map's iteration, here and below, is an
    argument: a list of the keys. *)
Definition nonPenalizedPeers `{UrlParse} (order : list bytes) (pt : peerTracker) : list bytes :=
  filter (fun u => match known pt !! u with
                   | Some st => bool_decide (skipRounds st = 0) && isPublicURL u
                   | None => false
                   end = true) order.

(** The peers [SyncNow] synchronises with, each in a goroutine of its own. *)
Definition SyncNow (order : list bytes) (pt : peerTracker) : list bytes :=
  let ready := filter (fun u => match known pt !! u with
                                | Some st => bool_decide (skipRounds st = 0)
                                | None => false
                                end = true) order in
  if started pt then ready else [].

(** *** Rounds *)

(** The first loop of a round: who is ready, and one round less for the others. *)
Definition tick_peer (u : bytes) (acc : gmap bytes peerState * list bytes) : gmap bytes peerState * list bytes :=
  let '(m, ready) := acc in
  match m !! u with
  | None => (m, ready)
  | Some st =>
      if 0 <? skipRounds st then
        (<[u := {| skipRounds := skipRounds st - 1; failures := failures st;
                   pullSince := pullSince st; pushSince := pushSince st |}]> m, ready)
      else (m, ready ++ [u])
  end.

Definition tick (order : list bytes) (pt : peerTracker) : peerTracker * list bytes :=
  let '(m, ready) := foldl (fun acc u => tick_peer u acc) (known pt, []) order in (with_known pt m, ready).

(** When a peer was pulled from. *)
Definition pulled_at (m : gmap bytes peerState) (u : bytes) : Z :=
  match m !! u with Some st => pullSince st | None => time_zero end.

Definition pick_oldest (m : gmap bytes peerState) (first : bytes) (rest : list bytes) : bytes :=
  foldl (fun pick u => if pulled_at m u <? pulled_at m pick then u else pick) first rest.

Definition select_peers (rotate : bool) (m : gmap bytes peerState) (ready : list bytes) : list bytes :=
  match ready with
  | first :: rest => if rotate then [pick_oldest m first rest] else ready
  | [] => ready
  end.

(** *** The file of peers *)

Class PeersJson := { enc_peers_file : list bytes -> result bytes; dec_peers_file : bytes -> result (list bytes) }.
Class PeersJsonLaws `{PeersJson} : Prop := {
  peers_file_roundtrip l data : Forall ascii_text l -> enc_peers_file l = Ok data -> dec_peers_file data = Ok l;
}.

(** The faults of one save: writing the temporary file, which may leave a part of it, and
    the rename. *)
Record save_faults := { sf_write : option (error * option bytes); sf_rename : option error }.

Definition peers_tmp (pt : peerTracker) : bytes := peersFile pt ++ bs ".tmp".

Definition savePeers `{PeersJson} (order : list bytes) (io : save_faults) (pt : peerTracker) (fs : files) : files :=
  if bool_decide (peersFile pt = []) then fs
  else
    match enc_peers_file order with
    | Err _ => fs
    | Ok data =>
        match sf_write io with
        | Some (_, Some partial) => <[peers_tmp pt := partial]> fs
        | Some (_, None) => fs
        | None =>
            match sf_rename io with
            | Some _ => <[peers_tmp pt := data]> fs
            | None => <[peersFile pt := data]> (delete (peers_tmp pt) fs)
            end
        end
    end.

(** [read] is the error of reading the file, if there is one. *)
Definition loadPeers `{PeersJson} (read : option error) (fs : files) (pt : peerTracker) : peerTracker :=
  if bool_decide (peersFile pt = []) then pt
  else
    match read, fs !! peersFile pt with
    | None, Some data =>
        match dec_peers_file data with
        | Err _ => pt
        | Ok l => foldl (fun pt u => fst (addPeer u pt)) pt l
        end
    | _, _ => pt
    end.

(** ** Synchronising with a peer *)

Section SyncOne.
Context `{Hashes, RelayJson, UrlParse, PeersJson} {S : Type} `{Store S} {N : Type}.
(** The network: what a request to a base URL does and brings back; [bad_url] is the error
    of making a request to one. *)
Context (net : bytes -> Request -> N -> N * result Reply) (bad_url : bytes -> option error).

(** What the goroutines of a node share: the tracker, the store, the network and the file
    of peers; [w_spawned] are the peers for which a goroutine was started, in order. *)
Record world := {
  w_tracker : peerTracker;
  w_store : S;
  w_net : N;
  w_files : files;
  w_spawned : list bytes;
}.

(** The readings of the clock, the state of the context during the pull and the push, the
    order of iteration and the faults of the file system for one call. *)
Record moment := {
  mo_pullStart : Z;
  mo_now : Z;
  mo_pushStart : Z;
  mo_pull_ctx : nat -> option error;
  mo_push_ctx : nat -> option error;
  mo_order : peerTracker -> list bytes;
  mo_faults : save_faults;
}.

Definition with_tracker (w : world) (pt : peerTracker) : world :=
  {| w_tracker := pt; w_store := w_store w; w_net := w_net w; w_files := w_files w; w_spawned := w_spawned w |}.
Definition with_net (w : world) (n : N) : world :=
  {| w_tracker := w_tracker w; w_store := w_store w; w_net := n; w_files := w_files w; w_spawned := w_spawned w |}.

(** The loop over the peers a peer knows: tracker, new peers and their number. *)
Fixpoint gossip (peers : list bytes) (pt : peerTracker) : peerTracker * list bytes :=
  match peers with
  | [] => (pt, [])
  | p :: peers' =>
      let p := peerURL p in
      let '(pt, added) := addPeer p pt in
      let '(pt, l) := gossip peers' pt in
      (pt, if added : bool then p :: l else l)
  end.

(** The part after a pull that succeeded: the greeting. *)
Definition greet (mo : moment) (u : bytes) (c : RelayClient) (w : world) : world :=
  let pt := w_tracker w in
  let '(n, r) := Hello (net u) c (advertiseURL pt) (w_net w) in
  let w := with_net w n in
  match r with
  | Err _ => w
  | Ok gossipPeers =>
      let '(pt, added) := gossip gossipPeers pt in
      {| w_tracker := pt; w_store := w_store w; w_net := n;
         w_files := if bool_decide (added = []) then w_files w else savePeers (mo_order mo pt) (mo_faults mo) pt (w_files w);
         w_spawned := w_spawned w ++ added |}
  end.

(** [None]: the shift of the backoff panicked, or the fuel of the pages ran out. *)
Definition syncOne (fuel : nat) (mo : moment) (u : bytes) (powFloor : Z) (w : world) : option world :=
  match known (w_tracker w) !! u with
  | None => Some w
  | Some st =>
      let c := NewClient (bad_url u) u in
      match Pull (net u) c (mo_now mo) fuel (mo_pull_ctx mo) (w_store w) powFloor (pullSince st) (w_net w) with
      | None => None
      | Some (n, store, (pulledIDs, err)) =>
          match record_pull u err (mo_pullStart mo) (w_tracker w) with
          | None => None
          | Some pt =>
              let w := {| w_tracker := pt; w_store := store; w_net := n; w_files := w_files w;
                          w_spawned := w_spawned w |} in
              match err with
              | Some _ => Some w
              | None =>
                  let w := greet mo u c w in
                  match Push (net u) c (mo_now mo) fuel (mo_push_ctx mo) pulledIDs (w_store w) powFloor (pushSince st)
                          (w_net w) with
                  | None => None
                  | Some (n, (_, err)) =>
                      let w := with_net w n in
                      match err with
                      | Some _ => Some w
                      | None => Some (with_tracker w (record_push u (mo_pushStart mo) (w_tracker w)))
                      end
                  end
              end
          end
      end
  end.

(** ** Rounds and events *)

(** The second loop of a round; [ctx] is the state of the context before each peer. *)
Fixpoint sync_each (fuel : nat) (mo : nat -> moment) (ctx : nat -> option error) (powFloor : Z) (l : list bytes) (w : world)
    : option world :=
  match l with
  | [] => Some w
  | u :: l' =>
      match ctx (length l') with
      | Some _ => Some w
      | None =>
          match syncOne fuel (mo (length l')) u powFloor w with
          | None => None
          | Some w => sync_each fuel mo ctx powFloor l' w
          end
      end
  end.

Definition doSync (fuel : nat) (order : list bytes) (mo : nat -> moment) (ctx : nat -> option error) (powFloor : Z)
    (rotate : bool) (w : world) : option world :=
  let '(pt, ready) := tick order (w_tracker w) in
  let toSync := select_peers rotate (known pt) ready in
  sync_each fuel mo ctx powFloor toSync (with_tracker w pt).

(** The start of [run]: cached and static peers. *)
Definition run_start (read : option error) (staticPeers : list bytes) (w : world) : world :=
  let pt := w_tracker w in
  let pt := {| known := known pt; advertiseURL := advertiseURL pt; peersFile := peersFile pt; started := true |} in
  let pt := loadPeers read (w_files w) pt in
  let l := peerURL <$> staticPeers in
  {| w_tracker := foldl (fun pt u => fst (addPeer u pt)) pt l; w_store := w_store w; w_net := w_net w;
     w_files := w_files w; w_spawned := w_spawned w ++ l |}.

(** What the loop of [run] waits for: a discovered address, or the ticker. *)
Inductive run_event :=
  | ev_address (addr : bytes) (mo : moment)
  | ev_ticker (order : list bytes) (mo : nat -> moment) (ctx : nat -> option error).

Definition run_step (fuel : nat) (powFloor : Z) (rotate : bool) (ev : run_event) (w : world) : option world :=
  match ev with
  | ev_address addr mo =>
      let u := peerURL addr in
      let '(pt, added) := addPeer u (w_tracker w) in
      Some (if added : bool then
              {| w_tracker := pt; w_store := w_store w; w_net := w_net w;
                 w_files := savePeers (mo_order mo pt) (mo_faults mo) pt (w_files w); w_spawned := w_spawned w ++ [u] |}
            else with_tracker w pt)
  | ev_ticker order mo ctx => doSync fuel order mo ctx powFloor rotate w
  end.
End SyncOne.
Arguments world : clear implicits.

(** ** The tracker under concurrency *)

(** The goroutines of a node change the tracker in critical sections of its lock only; a
    run of them is a sequence of these, in any order. *)
Inductive tracker_step : peerTracker -> peerTracker -> Prop :=
  | step_add pt u : tracker_step pt (fst (addPeer u pt))
  | step_pull pt u err pullStart pt' : record_pull u err pullStart pt = Some pt' -> tracker_step pt pt'
  | step_push pt u pushStart : tracker_step pt (record_push u pushStart pt)
  | step_tick pt order : iterates order (known pt) -> tracker_step pt (fst (tick order pt)).

(** After so many sections. *)
Inductive tracker_run : nat -> peerTracker -> peerTracker -> Prop :=
  | run_nil pt : tracker_run 0 pt pt
  | run_cons n pt1 pt2 pt3 : tracker_run n pt1 pt2 -> tracker_step pt2 pt3 -> tracker_run (Datatypes.S n) pt1 pt3.
