(* ===== verification/PeersFacts.v ===== *)
(** Facts about the peers of a node: the tracker under any interleaving, the backoff, the
    rotation, the file of peers, one synchronisation, and sizes. *)
From Stdlib Require Import String.
From S2P Require FlatFile FlatFileFacts BluetoothFacts RelayFacts.
From S2P Require Import Prelude Codec Block Store Bloom Text Net Lan GeoIP Relay Peers.

(** ** The backoff *)

Lemma shift_one_spec n : 0 <= n -> shift_one n =
  Some (if n <=? 62 then 2 ^ n else if n =? 63 then - 2 ^ 63 else 0).
Proof.
  intros Hn. unfold shift_one. rewrite (proj2 (Z.ltb_ge n 0)) by done.
  destruct (Z.leb_spec n 62).
  - rewrite (proj2 (Z.leb_gt 64 n)) by lia. rewrite to_s64_id; [done|].
    pose proof (Z.pow_le_mono_r 2 n 62 ltac:(lia) ltac:(lia)). pose proof (Z.pow_pos_nonneg 2 n ltac:(lia) Hn).
    unfold in_s64. lia.
  - destruct (Z.eqb_spec n 63) as [->|]; [done|]. by rewrite (proj2 (Z.leb_le 64 n)) by lia.
Qed.

(** The rounds a peer is passed over after its [f]-th failure in a row. *)
Definition backoff (f : Z) : Z := if f <=? 62 then Z.min (2 ^ f) maxBackoffRounds else if f =? 63 then - 2 ^ 63 else 0.

Lemma pull_failed_spec st : 0 <= failures st < 2 ^ 63 - 1 ->
  pull_failed st = Some {| skipRounds := backoff (failures st + 1); failures := failures st + 1;
                           pullSince := pullSince st; pushSince := pushSince st |}.
Proof.
  intros Hf. unfold pull_failed. rewrite to_s64_id by (unfold in_s64; lia). rewrite shift_one_spec by lia.
  unfold backoff, maxBackoffRounds. destruct (Z.leb_spec (failures st + 1) 62).
  - destruct (Z.ltb_spec 64 (2 ^ (failures st + 1))); do 2 f_equal; lia.
  - by destruct (Z.eqb_spec (failures st + 1) 63).
Qed.

(** Each failed pull doubles the rounds a peer is passed over, up to 64, and keeps both
    its times; a pull that succeeds clears both counters.  But the shift overflows: the 63rd
    failure in a row gives a negative number of rounds, with which the peer is tried in every
    round yet never gossiped, and from the 64th on there is no backoff at all. *)
Theorem backoff_spec u st e t pt :
  known pt !! u = Some st -> 0 <= failures st < 2 ^ 63 - 1 ->
  let f := failures st + 1 in
  (exists pt', record_pull u (Some e) t pt = Some pt' /\
     known pt' !! u = Some {| skipRounds := if f <=? 5 then 2 ^ f else if f <=? 62 then 64 else if f =? 63 then - 2 ^ 63 else 0;
                              failures := f; pullSince := pullSince st; pushSince := pushSince st |} /\
     (forall v, v <> u -> known pt' !! v = known pt !! v)) /\
  (exists pt', record_pull u None t pt = Some pt' /\
     known pt' !! u = Some {| skipRounds := 0; failures := 0; pullSince := t; pushSince := pushSince st |} /\
     (forall v, v <> u -> known pt' !! v = known pt !! v)).
Proof.
  intros Hst Hf f. unfold record_pull. rewrite Hst. split.
  - rewrite pull_failed_spec by done. cbn [fmap option_fmap option_map]. eexists. split; [reflexivity|].
    cbn [known with_known]. split; [|by intros v Hv; rewrite lookup_insert_ne].
    rewrite lookup_insert_eq. do 2 f_equal. unfold backoff, maxBackoffRounds. fold f.
    destruct (Z.leb_spec f 62); [|by destruct (Z.leb_spec f 5); [lia|]].
    destruct (Z.leb_spec f 5).
    + pose proof (Z.pow_le_mono_r 2 f 5 ltac:(lia) ltac:(lia)). lia.
    + pose proof (Z.pow_le_mono_r 2 6 f ltac:(lia) ltac:(lia)). lia.
  - eexists. split; [reflexivity|]. cbn [known with_known]. split; [by rewrite lookup_insert_eq|].
    by intros v Hv; rewrite lookup_insert_ne.
Qed.

(** ** One round *)

Definition one_round_less (st : peerState) : peerState :=
  if 0 <? skipRounds st then
    {| skipRounds := skipRounds st - 1; failures := failures st; pullSince := pullSince st; pushSince := pushSince st |}
  else st.

Lemma tick_fold_lookup order m ready v :
  NoDup order ->
  (foldl (fun acc u => tick_peer u acc) (m, ready) order).1 !! v
  = (if bool_decide (v ∈ order) then one_round_less <$> m !! v else m !! v).
Proof.
  revert m ready. induction order as [|u order IH]; intros m ready Hn; cbn [foldl]; [done|].
  apply NoDup_cons in Hn as [Hu Hn]. unfold tick_peer at 2. destruct (m !! u) as [st|] eqn:E.
  - destruct (Z.ltb_spec 0 (skipRounds st)) as [Hs|Hs]; rewrite IH by done.
    + destruct (decide (v = u)) as [->|Hv].
      * rewrite bool_decide_eq_false_2 by done. rewrite bool_decide_eq_true_2 by by left.
        rewrite lookup_insert_eq, E. cbn. unfold one_round_less. by rewrite (proj2 (Z.ltb_lt _ _)).
      * rewrite lookup_insert_ne by done. by rewrite (bool_decide_ext (v ∈ u :: order) (v ∈ order))
          by (rewrite elem_of_cons; naive_solver).
    + destruct (decide (v = u)) as [->|Hv].
      * rewrite bool_decide_eq_false_2 by done. rewrite bool_decide_eq_true_2 by by left.
        rewrite E. cbn. unfold one_round_less. by rewrite (proj2 (Z.ltb_ge _ _)).
      * by rewrite (bool_decide_ext (v ∈ u :: order) (v ∈ order)) by (rewrite elem_of_cons; naive_solver).
  - rewrite IH by done. destruct (decide (v = u)) as [->|Hv].
    + rewrite bool_decide_eq_false_2 by done. rewrite bool_decide_eq_true_2 by by left. by rewrite E.
    + by rewrite (bool_decide_ext (v ∈ u :: order) (v ∈ order)) by (rewrite elem_of_cons; naive_solver).
Qed.

Definition is_ready (m : gmap bytes peerState) (u : bytes) : bool :=
  match m !! u with Some st => negb (0 <? skipRounds st) | None => false end.

Lemma tick_fold_ready order m ready :
  NoDup order ->
  (foldl (fun acc u => tick_peer u acc) (m, ready) order).2 = ready ++ filter (fun u => is_ready m u = true) order.
Proof.
  revert m ready. induction order as [|u order IH]; intros m ready Hn; cbn [foldl]; [by rewrite app_nil_r|].
  apply NoDup_cons in Hn as [Hu Hn]. rewrite filter_cons. unfold tick_peer at 2.
  assert (is_ready m u = match m !! u with Some st => negb (0 <? skipRounds st) | None => false end) as Eu by done.
  destruct (m !! u) as [st|]; [|by rewrite IH, decide_False by (done || by rewrite Eu)].
  destruct (0 <? skipRounds st); cbn [negb] in Eu.
  - rewrite IH, decide_False by (done || by rewrite Eu). f_equal. apply filter_ext. intros v Hv.
    unfold is_ready. rewrite lookup_insert_ne; [done|]. by intros ->.
  - rewrite IH, decide_True by (done || by rewrite Eu). by rewrite <- app_assoc.
Qed.

Lemma tick_spec order pt : iterates order (known pt) ->
  known (tick order pt).1 = one_round_less <$> known pt /\
  (tick order pt).2 = filter (fun u => is_ready (known pt) u = true) order.
Proof.
  intros [Hn Ho]. unfold tick.
  pose proof (tick_fold_ready order (known pt) [] Hn) as Hr.
  pose proof (fun v => tick_fold_lookup order (known pt) [] v Hn) as Hl.
  destruct (foldl _ _ _) as [m ready]. cbn [fst snd] in *. split; [|done]. cbn [known with_known]. apply map_eq.
  intros v. rewrite Hl, lookup_fmap. case_bool_decide as Hv; [done|].
  destruct (known pt !! v) as [st|] eqn:E; [|done]. exfalso. apply Hv, Ho. by rewrite E.
Qed.

(** ** The invariant of the tracker *)

Definition peer_ok (n : Z) (st : peerState) : Prop :=
  0 <= failures st <= n /\ (failures st <= 62 -> 0 <= skipRounds st <= Z.min (2 ^ failures st) maxBackoffRounds) /\
  (failures st = 0 -> skipRounds st = 0).

Record tracker_ok (n : Z) (pt : peerTracker) : Prop := {
  ok_size : (size (known pt) <= maxPeers)%nat;
  ok_self : advertiseURL pt <> [] -> known pt !! advertiseURL pt = None;
  ok_peers : map_Forall (fun _ st => peer_ok n st) (known pt);
}.

Lemma new_peer_ok n : 0 <= n -> peer_ok n new_peer.
Proof. intros Hn. unfold peer_ok, maxBackoffRounds. split_and!; cbn; [lia|lia|lia|done]. Qed.

Lemma peer_ok_mono n m st : n <= m -> peer_ok n st -> peer_ok m st.
Proof. intros Hnm (H1 & H2 & H3). split_and!; [lia|lia|auto..]. Qed.

Lemma addPeer_spec u pt :
  let '(pt', added) := addPeer u pt in
  pt' = (if added then with_known pt (<[u := new_peer]> (known pt)) else pt) /\
  (added = true <-> ~ (advertiseURL pt <> [] /\ u = advertiseURL pt) /\ known pt !! u = None /\ (size (known pt) < maxPeers)%nat).
Proof.
  unfold addPeer. destruct (bool_decide (advertiseURL pt <> []) && bool_decide (u = advertiseURL pt)) eqn:E.
  - apply andb_true_iff in E as [E1%bool_decide_eq_true E2%bool_decide_eq_true]. split; [done|]. split; [done|].
    intros [Hn _]. by destruct Hn.
  - assert (~ (advertiseURL pt <> [] /\ u = advertiseURL pt)) as Hn.
    { intros [H1 H2]. rewrite !bool_decide_eq_true_2 in E by done. done. }
    destruct (known pt !! u) as [st|]; [split; [done|]; split; [done|]; by intros (_ & ? & _)|].
    destruct (Nat.ltb_spec (size (known pt)) maxPeers); split; try done. split; [done|]. intros (_ & _ & Hlt). lia.
Qed.

Lemma addPeer_ok n u pt : 0 <= n -> tracker_ok n pt -> tracker_ok n (fst (addPeer u pt)).
Proof.
  intros Hn [H1 H2 H3]. pose proof (addPeer_spec u pt) as Ha. destruct (addPeer u pt) as [pt' added].
  destruct Ha as [-> Ha]. cbn [fst]. destruct added; [|done]. destruct (proj1 Ha eq_refl) as (Hs & Hu & Hsz). split.
  - cbn [known with_known]. rewrite map_size_insert_None by done. lia.
  - cbn [known with_known advertiseURL]. intros Hne. rewrite lookup_insert_ne by (intros ->; by apply Hs). auto.
  - cbn [known with_known]. apply map_Forall_insert_2; [by apply new_peer_ok|done].
Qed.

Lemma update_ok n m u st pt : n <= m -> tracker_ok n pt -> is_Some (known pt !! u) -> peer_ok m st ->
  tracker_ok m (with_known pt (<[u := st]> (known pt))).
Proof.
  intros Hnm [H1 H2 H3] Hu Hst. split.
  - cbn [known with_known]. by rewrite map_size_insert_Some.
  - cbn [known with_known advertiseURL]. intros Hne. rewrite lookup_insert_ne; [auto|]. intros ->. rewrite H2 in Hu by done. by destruct Hu.
  - cbn [known with_known]. apply map_Forall_insert_2; [done|]. eapply map_Forall_impl; [exact H3|].
    intros. by eapply peer_ok_mono.
Qed.

Lemma tracker_ok_mono n m pt : n <= m -> tracker_ok n pt -> tracker_ok m pt.
Proof.
  intros Hnm [H1 H2 H3]. split; [done|done|]. eapply map_Forall_impl; [exact H3|]. intros. by eapply peer_ok_mono.
Qed.

Lemma backoff_bounds f : 1 <= f <= 62 -> 0 <= backoff f <= Z.min (2 ^ f) maxBackoffRounds.
Proof.
  intros Hf. unfold backoff, maxBackoffRounds. rewrite (proj2 (Z.leb_le f 62)) by lia.
  pose proof (Z.pow_pos_nonneg 2 f ltac:(lia) ltac:(lia)). lia.
Qed.

Lemma failed_ok n st st' : 0 <= n < 2 ^ 63 - 1 -> peer_ok n st -> pull_failed st = Some st' -> peer_ok (n + 1) st'.
Proof.
  intros Hn (H1 & H2 & H3). rewrite pull_failed_spec by lia. intros [= <-]. split_and!; cbn [failures skipRounds].
  - lia.
  - lia.
  - intros Hf. apply backoff_bounds. lia.
  - lia.
Qed.

Lemma one_round_less_ok n st : peer_ok n st -> peer_ok n (one_round_less st).
Proof.
  intros (H1 & H2 & H3). unfold one_round_less. destruct (Z.ltb_spec 0 (skipRounds st)); [|done].
  split_and!; cbn [failures skipRounds]; [lia|lia|lia|intros E%H3; lia].
Qed.

Lemma record_pull_ok n u err t pt pt' : 0 <= n < 2 ^ 63 - 1 -> tracker_ok n pt ->
  record_pull u err t pt = Some pt' -> tracker_ok (n + 1) pt'.
Proof.
  intros Hn Hpt. unfold record_pull. destruct (known pt !! u) as [st|] eqn:E.
  2:{ intros [= <-]. eapply tracker_ok_mono; [|done]. lia. }
  pose proof (ok_peers _ _ Hpt u st E) as Hst. destruct err as [e|].
  - destruct (pull_failed st) as [st'|] eqn:Ef; [|done]. intros [= <-].
    eapply update_ok; [|done|by rewrite E|idtac].
    2:{ eapply failed_ok. exact Hn. exact Hst. exact Ef. } lia.
  - intros [= <-]. eapply update_ok; [|done|by rewrite E|]; [lia|]. unfold peer_ok, maxBackoffRounds. split_and!; cbn; lia.
Qed.

Lemma record_push_ok n u t pt : tracker_ok n pt -> tracker_ok n (record_push u t pt).
Proof.
  intros Hpt. unfold record_push. destruct (known pt !! u) as [st|] eqn:E; [|done].
  eapply update_ok; [|done|by rewrite E|]; [lia|]. exact (ok_peers _ _ Hpt u st E).
Qed.

Lemma tick_ok n order pt : iterates order (known pt) -> tracker_ok n pt -> tracker_ok n (fst (tick order pt)).
Proof.
  intros Ho [H1 H2 H3]. destruct (tick_spec order pt Ho) as [Hk _].
  assert (advertiseURL (fst (tick order pt)) = advertiseURL pt) as Ha.
  { unfold tick. by destruct (foldl _ _ _). }
  split; rewrite ?Ha, Hk.
  - by rewrite map_size_fmap.
  - intros Hne. rewrite lookup_fmap, H2 by done. done.
  - apply map_Forall_fmap. eapply map_Forall_impl; [exact H3|]. intros u st. apply one_round_less_ok.
Qed.

Lemma step_ok n pt pt' : 0 <= n < 2 ^ 63 - 1 -> tracker_ok n pt -> tracker_step pt pt' -> tracker_ok (n + 1) pt'.
Proof.
  intros Hn Hpt Hs. revert Hpt. destruct Hs as [pt1 u|pt1 u err t pt2 Hr|pt1 u t|pt1 order Ho]; intros Hpt.
  - apply (tracker_ok_mono n); [lia|]. apply addPeer_ok; [lia|done].
  - by eapply record_pull_ok.
  - apply (tracker_ok_mono n); [lia|]. by apply record_push_ok.
  - apply (tracker_ok_mono n); [lia|]. by apply tick_ok.
Qed.

Lemma step_keeps pt pt' u : tracker_step pt pt' ->
  advertiseURL pt' = advertiseURL pt /\ (is_Some (known pt !! u) -> is_Some (known pt' !! u)).
Proof.
  intros [pt1 v|pt1 v err t pt2 Hr|pt1 v t|pt1 order Ho].
  - pose proof (addPeer_spec v pt1) as Ha. destruct (addPeer v pt1) as [pt2 added]. destruct Ha as [-> _]. cbn [fst].
    destruct added; [|done]. split; [done|]. intros Hu. cbn [known with_known]. apply lookup_insert_is_Some'. by right.
  - unfold record_pull in Hr. destruct (known pt1 !! v) as [st|]; [|by injection Hr as <-].
    destruct err as [e|]; [destruct (pull_failed st); [|done]|]; injection Hr as <-; (split; [done|]);
      intros Hu; cbn [known with_known]; apply lookup_insert_is_Some'; by right.
  - unfold record_push. destruct (known pt1 !! v) as [st|]; [|done]. split; [done|]. intros Hu. cbn [known with_known].
    apply lookup_insert_is_Some'. by right.
  - destruct (tick_spec order pt1 Ho) as [Hk _]. rewrite Hk, lookup_fmap. split.
    + unfold tick. by destruct (foldl _ _ _).
    + intros [st ->]. by eexists.
Qed.

(** C18: Under any interleaving of the critical sections of the goroutines of a node, from a
    tracker without peers, there are never more than 200 peers, the node's own address is
    never one of them, no peer is ever dropped, the failures of a peer are at most the
    sections that ran, a peer with at most 62 failures in a row is passed over for at most
    64 rounds, one without failures for none, and no section panics (before 2^63 of them). *)
Theorem tracker_invariant n pt0 pt :
  tracker_run n pt0 pt -> known pt0 = ∅ -> Z.of_nat n < 2 ^ 63 - 1 ->
  tracker_ok (Z.of_nat n) pt /\ advertiseURL pt = advertiseURL pt0 /\
  (forall u err t, is_Some (record_pull u err t pt)) /\
  (forall m pt' u, tracker_run m pt pt' -> is_Some (known pt !! u) -> is_Some (known pt' !! u)).
Proof.
  intros Hrun H0' Hn.
  assert (tracker_ok (Z.of_nat n) pt /\ advertiseURL pt = advertiseURL pt0) as [Hok Ha].
  { induction Hrun as [pt|n pt1 pt2 pt3 Hrun IH Hstep].
    - split; [|done]. split; rewrite H0'; [rewrite map_size_empty; lia|done|apply map_Forall_empty].
    - destruct (IH H0') as [IHok IHa]; [lia|]. destruct (step_keeps _ _ [] Hstep) as [E _].
      split; [|congruence]. replace (Z.of_nat (S n)) with (Z.of_nat n + 1) by lia. eapply step_ok; [|done|done]. lia. }
  split_and!; [done|done| |].
  - intros u err t. unfold record_pull. destruct (known pt !! u) as [st|] eqn:E; [|done]. destruct err; [|done].
    pose proof (ok_peers _ _ Hok u st E) as (Hf & _). rewrite pull_failed_spec by lia. done.
  - intros m pt' u Hr. clear -Hr. induction Hr as [|m pt1 pt2 pt3 Hr IH Hs]; [done|]. intros Hu%IH. by apply (step_keeps _ _ u Hs).
Qed.

(** ** How long a peer is passed over *)

(** So many rounds, with the peers that are ready in each. *)
Fixpoint rounds (orders : list (list bytes)) (pt : peerTracker) : peerTracker * list (list bytes) :=
  match orders with
  | [] => (pt, [])
  | order :: orders' =>
      let '(pt, ready) := tick order pt in
      let '(pt, readies) := rounds orders' pt in (pt, ready :: readies)
  end.

Lemma tick_keys order pt u : iterates order (known pt) ->
  is_Some (known pt !! u) <-> is_Some (known (tick order pt).1 !! u).
Proof. intros Ho. rewrite (proj1 (tick_spec order pt Ho)), lookup_fmap. by rewrite fmap_is_Some. Qed.

Lemma tick_ready order pt u : iterates order (known pt) ->
  u ∈ (tick order pt).2 <-> exists st, known pt !! u = Some st /\ skipRounds st <= 0.
Proof.
  intros Ho. rewrite (proj2 (tick_spec order pt Ho)), list_elem_of_filter. unfold is_ready. destruct Ho as [_ Ho]. rewrite Ho.
  destruct (known pt !! u) as [st|].
  - rewrite negb_true_iff, Z.ltb_ge. split; [intros [H1 _]; by exists st|]. intros (st' & [= <-] & H1). by split.
  - split; [by intros []|]. by intros (st' & ? & _).
Qed.

(** A peer that is to be passed over for [n] rounds is not ready in the next [n] rounds
    and is ready in the one after, in whatever order the peers are gone through: every peer
    is tried again. *)
Theorem backoff_passes u st orders last pt :
  known pt !! u = Some st -> 0 <= skipRounds st -> length orders = Z.to_nat (skipRounds st) ->
  Forall (fun order => iterates order (known pt)) (last :: orders) ->
  let '(pt', readies) := rounds orders pt in
  Forall (fun ready => u ∉ ready) readies /\ u ∈ (tick last pt').2.
Proof.
  revert pt st. induction orders as [|order orders IH]; intros pt st Hu Hs Hlen HF; cbn [rounds].
  - apply Forall_cons in HF as [Hl _]. split; [constructor|]. apply tick_ready; [done|]. exists st. split; [done|].
    cbn in Hlen. lia.
  - rewrite !Forall_cons in HF. destruct HF as (Hl & Ho & HF). cbn [length] in Hlen.
    pose proof (proj1 (tick_spec order pt Ho)) as Hk. pose proof (fun v => tick_keys order pt v Ho) as Hkeys.
    assert (u ∉ (tick order pt).2) as Hnot.
    { rewrite tick_ready by done. intros (st' & E & Hle). rewrite Hu in E. injection E as <-. lia. }
    destruct (tick order pt) as [pt1 ready]. cbn [fst snd] in *.
    assert (known pt1 !! u = Some (one_round_less st)) as Hu1 by (by rewrite Hk, lookup_fmap, Hu).
    specialize (IH pt1 (one_round_less st) Hu1). unfold one_round_less in IH.
    rewrite (proj2 (Z.ltb_lt 0 (skipRounds st))) in IH by lia. cbn [skipRounds] in IH.
    specialize (IH ltac:(lia) ltac:(lia)). destruct (rounds orders pt1) as [pt' readies].
    destruct IH as [H1 H2].
    { apply (Forall_impl (fun o => iterates o (known pt))); [by apply Forall_cons|]. intros o. by apply iterates_keys. }
    split; [by apply Forall_cons|done].
Qed.

(** ** The rotation *)

Lemma pick_oldest_spec m first rest :
  pick_oldest m first rest ∈ first :: rest /\
  forall v, v ∈ first :: rest -> pulled_at m (pick_oldest m first rest) <= pulled_at m v.
Proof.
  unfold pick_oldest. revert first. induction rest as [|u rest IH]; intros first; cbn [foldl].
  - split; [by left|]. by intros v ->%list_elem_of_singleton.
  - destruct (Z.ltb_spec (pulled_at m u) (pulled_at m first)) as [Hlt|Hge].
    + destruct (IH u) as [H1 H2]. split; [by right|]. intros v [->|Hv]%elem_of_cons; [|by apply H2].
      specialize (H2 u ltac:(by left)). lia.
    + destruct (IH first) as [H1 H2]. split; [rewrite !elem_of_cons in *; tauto|].
      intros v [->|[->|Hv]%elem_of_cons]%elem_of_cons; [by apply H2; left| |by apply H2; right].
      specialize (H2 first ltac:(by left)). lia.
Qed.

(** Rounds of the rotation in which every pull succeeds, at the given times: the peers in
    the order in which they are synchronised. *)
Fixpoint rotation (l : list (list bytes * Z)) (pt : peerTracker) : list bytes :=
  match l with
  | [] => []
  | (order, t) :: l' =>
      let '(pt, ready) := tick order pt in
      match select_peers true (known pt) ready with
      | [u] => u :: rotation l' (default pt (record_pull u None t pt))
      | _ => rotation l' pt
      end
  end.

(** A round without backoff changes nothing but the choice. *)
Lemma tick_idle order pt : iterates order (known pt) -> map_Forall (fun _ st => skipRounds st = 0) (known pt) ->
  known (tick order pt).1 = known pt /\ (tick order pt).2 = order.
Proof.
  intros Ho H0'. destruct (tick_spec order pt Ho) as [-> ->]. split.
  - apply map_eq. intros u. rewrite lookup_fmap. destruct (known pt !! u) as [st|] eqn:E; [|done]. cbn. f_equal.
    unfold one_round_less. by rewrite (H0' u st E).
  - apply filter_Forall_id, Forall_forall. intros u Hu. unfold is_ready. apply Ho in Hu as [st E]. rewrite E.
    by rewrite (H0' u st E).
Qed.

(** There is a peer left that is not among fewer of them. *)
Lemma one_left (order l : list bytes) : NoDup order -> (length l < length order)%nat -> exists u, u ∈ order /\ (u ∉ l).
Proof.
  intros Hn Hl. destruct (decide (Forall (fun u => u ∈ l) order)) as [HF|HF].
  - exfalso. rewrite Forall_forall in HF. apply (NoDup_submseteq order l Hn) in HF. apply submseteq_length in HF. lia.
  - apply not_Forall_Exists in HF; [|intros ?; apply _]. by apply Exists_exists in HF as (u & Hu & Hnu); exists u.
Qed.

Lemma rotation_picks l pt T0 before :
  map_Forall (fun _ st => skipRounds st = 0) (known pt) ->
  NoDup before -> (forall u, u ∈ before -> T0 < pulled_at (known pt) u) ->
  (forall u, is_Some (known pt !! u) -> (u ∉ before) -> pulled_at (known pt) u <= T0) ->
  Forall (fun o => iterates o.1 (known pt) /\ T0 < o.2) l -> (length before + length l <= size (known pt))%nat ->
  NoDup (before ++ rotation l pt) /\ length (rotation l pt) = length l /\
  forall u, u ∈ rotation l pt -> is_Some (known pt !! u).
Proof.
  revert pt before. induction l as [|[order t] l IH]; intros pt before H0' Hnd Hb Hnb HF Hlen; cbn [rotation].
  { rewrite app_nil_r. split_and!; [done|done|by intros u ?%not_elem_of_nil]. }
  apply Forall_cons in HF as [[Ho Ht] HF]. cbn [fst snd] in Ho, Ht.
  destruct (tick_idle order pt Ho H0') as [Hk Hr]. destruct (tick order pt) as [pt1 ready]. cbn [fst snd] in Hk, Hr. subst ready.
  cbn [length] in Hlen.
  destruct (one_left order before) as (v & Hv & Hvb); [apply Ho|rewrite (iterates_length _ _ Ho); lia|].
  destruct order as [|first rest]; [by apply not_elem_of_nil in Hv|]. cbn [select_peers].
  destruct (pick_oldest_spec (known pt1) first rest) as [Hin Hmin]. set (u := pick_oldest _ _ _) in *.
  assert (is_Some (known pt !! u)) as Hu by by apply Ho.
  assert (u ∉ before) as Hub.
  { intros Hc%Hb. specialize (Hmin v Hv). rewrite Hk in Hmin.
    assert (pulled_at (known pt) v <= T0) by (apply Hnb; [by apply Ho|done]). lia. }
  destruct Hu as [st Est]. unfold record_pull. rewrite Hk, Est. cbn [default from_option id].
  set (pt2 := with_known pt1 _).
  assert (known pt2 = <[u := pull_succeeded t st]> (known pt)) as Hk2 by done.
  assert (forall x, is_Some (known pt !! x) <-> is_Some (known pt2 !! x)) as Hkeys.
  { intros x. rewrite Hk2, lookup_insert_is_Some'. split; [by right|]. intros [<-|]; [by rewrite Est|done]. }
  destruct (IH pt2 (before ++ [u])) as (H1 & H2 & H3).
  - rewrite Hk2. apply map_Forall_insert_2; done.
  - apply NoDup_app. split_and!; [done|by intros x Hx ->%list_elem_of_singleton|apply NoDup_singleton].
  - intros x [Hx|Hx]%elem_of_app; unfold pulled_at; rewrite Hk2.
    + rewrite lookup_insert_ne by (by intros ->). by apply Hb.
    + apply list_elem_of_singleton in Hx as ->. by rewrite lookup_insert_eq.
  - intros x Hx Hxb. rewrite elem_of_app, list_elem_of_singleton in Hxb. unfold pulled_at. rewrite Hk2.
    rewrite lookup_insert_ne by (intros <-; tauto). apply Hnb; [by apply Hkeys|tauto].
  - eapply Forall_impl; [exact HF|]. intros o [Hi Hlt]. split; [by eapply iterates_keys|done].
  - rewrite Hk2, map_size_insert_Some by (by rewrite Est). rewrite length_app. cbn [length]. lia.
  - rewrite <- app_assoc in H1. split_and!; [done|cbn [length]; lia|].
    intros x [->|Hx]%elem_of_cons; [by rewrite Est|]. by apply Hkeys, H3.
Qed.

(** C24: The rotation is fair.  When no peer is backed off and pulls succeed, a node with [n]
    peers synchronises with each of them exactly once in [n] rounds, in whatever order the
    map is gone through in each. *)
Theorem rotation_fair l pt T0 order :
  map_Forall (fun _ st => skipRounds st = 0 /\ pullSince st <= T0) (known pt) -> iterates order (known pt) ->
  Forall (fun o => iterates o.1 (known pt) /\ T0 < o.2) l -> length l = size (known pt) ->
  rotation l pt ≡ₚ order.
Proof.
  intros H0' Ho HF Hlen. destruct (rotation_picks l pt T0 []) as (Hn & Hl & Hk).
  - eapply map_Forall_impl; [exact H0'|]. by intros ? ? [? _].
  - constructor.
  - by intros u ?%not_elem_of_nil.
  - intros u [st E] _. unfold pulled_at. rewrite E. by apply (H0' u st E).
  - done.
  - cbn [length]. lia.
  - apply submseteq_length_Permutation.
    + apply NoDup_submseteq; [done|]. intros u Hu. by apply Ho, Hk.
    + rewrite Hl, Hlen, (iterates_length _ _ Ho). lia.
Qed.

(** ** The file of peers *)

Lemma add_all_keys l pt :
  NoDup l -> (forall u, u ∈ l -> known pt !! u = None /\ u <> advertiseURL pt) ->
  (size (known pt) + length l <= maxPeers)%nat ->
  forall u, is_Some (known (foldl (fun pt u => fst (addPeer u pt)) pt l) !! u) <-> is_Some (known pt !! u) \/ u ∈ l.
Proof.
  revert pt. induction l as [|v l IH]; intros pt Hn Hl Hs u; cbn [foldl].
  { split; [by left|]. by intros [?|?%not_elem_of_nil]. }
  apply NoDup_cons in Hn as [Hv Hn]. destruct (Hl v ltac:(by left)) as [Hk Ha]. cbn [length] in Hs.
  pose proof (addPeer_spec v pt) as Hadd. destruct (addPeer v pt) as [pt1 added]. destruct Hadd as [-> Hadd]. cbn [fst].
  rewrite (proj2 Hadd) by (split_and!; [by intros [_ ?]|done|lia]). rewrite IH; [|done| |].
  - cbn [known with_known]. rewrite lookup_insert_is_Some', elem_of_cons.
    split; [intros [[->|]|]; auto|]. intros [|[->|]]; auto.
  - intros x Hx. cbn [known with_known advertiseURL]. rewrite lookup_insert_ne by (by intros ->). apply Hl. by right.
  - cbn [known with_known]. rewrite map_size_insert_None by done. lia.
Qed.

Definition no_save_faults : save_faults := {| sf_write := None; sf_rename := None |}.

(** The peers survive a restart: a tracker saved without faults and loaded by a fresh
    one that does not advertise one of them itself knows exactly the same peers; and
    whatever fails during a save, the file is the old one or the complete new one. *)
Theorem peers_file_survives `{PeersJsonLaws} order pt fs data fresh :
  iterates order (known pt) -> Forall ascii_text order -> enc_peers_file order = Ok data ->
  peersFile pt <> [] -> peersFile fresh = peersFile pt -> known fresh = ∅ -> (size (known pt) <= maxPeers)%nat ->
  known pt !! advertiseURL fresh = None ->
  (forall u, is_Some (known (loadPeers None (savePeers order no_save_faults pt fs) fresh) !! u) <-> is_Some (known pt !! u)) /\
  (forall io, savePeers order io pt fs !! peersFile pt = fs !! peersFile pt \/
              savePeers order io pt fs !! peersFile pt = Some data).
Proof.
  intros Ho Ha He Hf Hff Hk Hs Hadv. unfold savePeers. rewrite bool_decide_eq_false_2 by done. rewrite He. split.
  - cbn [no_save_faults sf_write sf_rename]. unfold loadPeers. rewrite Hff, bool_decide_eq_false_2 by done.
    rewrite lookup_insert_eq, (peers_file_roundtrip order data Ha He). intros u. rewrite add_all_keys; rewrite ?Hk.
    + rewrite lookup_empty. rewrite (proj2 Ho u). split; [by intros [[]|]|by right].
    + apply Ho.
    + intros v Hv. rewrite lookup_empty. split; [done|]. intros ->. apply Ho in Hv. rewrite Hadv in Hv. by destruct Hv.
    + rewrite map_size_empty, (iterates_length _ _ Ho). lia.
  - assert (peers_tmp pt <> peersFile pt) as Hne.
    { unfold peers_tmp. intros E%(f_equal length). rewrite length_app in E. cbn in E. lia. }
    intros io. destruct (sf_write io) as [[e [partial|]]|].
    + left. by rewrite lookup_insert_ne.
    + by left.
    + destruct (sf_rename io); [left; by rewrite lookup_insert_ne|right; by rewrite lookup_insert_eq].
Qed.

(** ** Addresses found on the local network *)

(** What a scan of the local network finds becomes the URL of a peer on plain HTTP. *)
Theorem peerURL_lan `{UrlParse} ip : length ip = 4%nat -> peerURL (host_port ip) = http_prefix ++ host_port ip.
Proof.
  intros Hl. destruct (host_port_parses ip Hl) as (host & Hsplit & _). unfold peerURL.
  assert (forall p, p = http_prefix \/ p = https_prefix -> HasPrefix (host_port ip) p = false) as Hp.
  { intros p Hp. unfold HasPrefix. apply bool_decide_eq_false. intros E.
    assert (head (host_port ip) = Some x68) as Hh.
    { destruct Hp as [-> | ->]; destruct (host_port ip) as [|c l]; try discriminate; cbn in E; by injection E as -> _. }
    destruct ip as [|a [|b [|c [|d [|]]]]]; try discriminate. unfold host_port, ip_text, v4_text in Hh. clear -Hh.
    by destruct a. }
  rewrite !Hp by auto. cbn [orb]. rewrite Hsplit. by rewrite bool_decide_eq_false_2.
Qed.

(** ** Sizes *)

Lemma leading_digits_app ds l : Forall (fun c => in_range 48 57 (u8 c) = true) ds ->
  match l with c :: _ => in_range 48 57 (u8 c) = false | [] => True end ->
  leading_digits (ds ++ l) = (fun c => u8 c - 48) <$> ds.
Proof.
  intros HF Hl. induction HF as [|c ds Hc HF IH]; cbn [app leading_digits fmap list_fmap].
  - destruct l as [|c l]; [done|]. cbn [leading_digits]. unfold digit. by rewrite Hl.
  - unfold digit. by rewrite Hc, IH.
Qed.

(** The number that digits stand for. *)
Definition digits_number (ds : bytes) : Z := digits_value ((fun c => u8 c - 48) <$> ds).

Lemma digits_value_nonneg l v : 0 <= v -> Forall (fun d => 0 <= d) l -> 0 <= foldl (fun v d => v * 10 + d) v l.
Proof. revert v. induction l as [|d l IH]; intros v Hv HF; cbn [foldl]; [done|]. apply Forall_cons in HF as [Hd HF]. apply IH; [lia|done]. Qed.

Lemma Sscanf_digits ds l : ds <> [] -> Forall (fun c => in_range 48 57 (u8 c) = true) ds ->
  match l with c :: _ => in_range 48 57 (u8 c) = false | [] => True end ->
  Sscanf_d (ds ++ l) = if digits_number ds <? 2 ^ 63 then Ok (digits_number ds) else Err cannot_parse.
Proof.
  intros Hne HF Hl. pose proof (leading_digits_app ds l HF Hl) as E. unfold Sscanf_d.
  destruct ds as [|c ds]; [done|]. pose proof (Forall_inv HF) as Hc. cbn [app] in *.
  rewrite !bool_decide_eq_false_2 by (intros ->; done). rewrite E. cbn [fmap list_fmap].
  change (digits_value (u8 c - 48 :: ((fun c => u8 c - 48) <$> ds))) with (digits_number (c :: ds)).
  assert (0 <= digits_number (c :: ds)) as Hn.
  { apply digits_value_nonneg; [lia|]. apply Forall_fmap. eapply Forall_impl; [exact HF|]. intros x Hx.
    unfold in_range in Hx. cbn. lia. }
  by rewrite (proj2 (Z.leb_le _ _)) by lia.
Qed.

Lemma HasSuffix_app l p p' : length p = length p' -> HasSuffix (l ++ p) p' = bool_decide (p = p').
Proof.
  intros Hl. unfold HasSuffix. rewrite length_app, <- Hl.
  rewrite (proj2 (Nat.leb_le _ _)) by lia. cbn [andb]. replace (length l + length p - length p)%nat with (length l) by lia.
  by rewrite drop_app_length.
Qed.

Lemma suffixes_length p : p ∈ suffixes -> length p.1 = 2%nat.
Proof. unfold suffixes. rewrite !elem_of_cons. intros [->|[->|[->|[->|[]%not_elem_of_nil]]]]; done. Qed.

(** The loop finds the suffix that is there. *)
Lemma parse_suffix_app s l name mult :
  (name, mult) ∈ suffixes -> length s = (length l + 2)%nat ->
  parse_suffix s (l ++ name) suffixes
  = Some (match Sscanf_d (TrimSpace (take (length l) s)) with Err _ => Err cannot_parse | Ok n => Ok (to_s64 (n * mult)) end).
Proof.
  intros Hin Hl. unfold suffixes in *. rewrite !elem_of_cons in Hin.
  destruct Hin as [[= -> ->]|[[= -> ->]|[[= -> ->]|[[= -> ->]|[]%not_elem_of_nil]]]]; cbn [parse_suffix];
    rewrite !HasSuffix_app by done; repeat (rewrite bool_decide_eq_false_2 by done);
    rewrite bool_decide_eq_true_2 by done; (replace (length s - _)%nat with (length l) by (cbn; lia)); done.
Qed.

Lemma digits_solid ds : Forall (fun c => in_range 48 57 (u8 c) = true) ds -> forallb ascii_solid ds = true.
Proof.
  intros HF. apply forallb_forall. intros c Hc%list_elem_of_In. rewrite Forall_forall in HF. specialize (HF c Hc).
  by destruct c.
Qed.

Lemma solid_ascii s : forallb ascii_solid s = true -> forallb is_ascii s = true.
Proof.
  rewrite !forallb_forall. intros Hs c Hc. specialize (Hs c Hc). unfold ascii_solid in Hs.
  by apply andb_true_iff in Hs as [? _].
Qed.

Lemma TrimSpace_solid s : forallb ascii_solid s = true -> TrimSpace s = s.
Proof.
  intros Hs. destruct s as [|b s]; [done|]. pose proof (TrimSpace_around [] (b :: s) [] eq_refl eq_refl) as E.
  cbn [app] in E. rewrite app_nil_r in E. by apply E.
Qed.

(** C34: A size is read as its leading digits times its unit, in a 64-bit integer that wraps:
    spaces around it, upper or lower case and anything between the digits and the unit are
    accepted, so ["1.5GB"] is one gigabyte and ["8388608TB"] is negative; digits beyond 64
    bits are refused. *)
Theorem parseBytes_spec `{UnicodeUpper} ws1 ds junk suf ws2 name mult :
  forallb ascii_space ws1 = true -> forallb ascii_space ws2 = true ->
  ds <> [] -> Forall (fun c => in_range 48 57 (u8 c) = true) ds ->
  forallb ascii_solid junk = true -> match junk with c :: _ => in_range 48 57 (u8 c) = false | [] => True end ->
  (name, mult) ∈ suffixes -> upper_byte <$> suf = name ->
  let n := digits_number ds in
  parseBytes (ws1 ++ (ds ++ junk ++ suf) ++ ws2)
    = (if n <? 2 ^ 63 then Ok (to_s64 (n * mult)) else Err cannot_parse) /\
  parseBytes (ws1 ++ ds ++ ws2) = (if n <? 2 ^ 63 then Ok n else Err cannot_parse).
Proof.
  intros Hw1 Hw2 Hne Hds Hj Hjd Hin Hsuf n.
  assert (length suf = 2%nat) as Hsl.
  { pose proof (suffixes_length _ Hin) as E. cbn [fst] in E. by rewrite <- Hsuf, length_fmap in E. }
  assert (forallb ascii_solid suf = true) as Hss.
  { destruct suf as [|a [|b [|]]]; try discriminate. unfold suffixes in Hin. rewrite !elem_of_cons, <- Hsuf in Hin. clear -Hin.
    destruct Hin as [E|[E|[E|[E|E%not_elem_of_nil]]]]; [..|done];
      apply pair_eq in E as [E _]; cbn in E; injection E as Ea Eb; destruct a; try discriminate Ea;
      destruct b; try discriminate Eb; done. }
  pose proof (digits_solid ds Hds) as Hdsol.
  assert (forallb ascii_solid (ds ++ junk) = true) as Hdj by (rewrite forallb_app; by rewrite Hdsol, Hj).
  assert (forallb ascii_solid (ds ++ junk ++ suf) = true) as Hall by (rewrite app_assoc, forallb_app; by rewrite Hdj, Hss).
  assert (forall s, forallb ascii_solid s = true -> s <> [] -> TrimSpace (ws1 ++ s ++ ws2) = s) as Ht
    by (intros; by apply TrimSpace_around).
  split.
  - unfold parseBytes. rewrite Ht; [|done|by destruct ds].
    assert ((2 < length (ds ++ junk ++ suf))%nat) as Hlen.
    { rewrite !length_app. destruct ds; [done|]. cbn [length]. lia. }
    rewrite !bool_decide_eq_false_2 by (intros E; rewrite E in Hlen; cbn in Hlen; lia). cbn [orb].
    unfold ToUpper. rewrite solid_ascii by done. rewrite app_assoc, fmap_app, Hsuf.
    rewrite (parse_suffix_app _ _ name mult) by (done || rewrite length_fmap, length_app; lia).
    rewrite length_fmap, take_app_length, TrimSpace_solid by done.
    rewrite Sscanf_digits by done. fold n. by destruct (n <? 2 ^ 63).
  - unfold parseBytes. rewrite Ht by done. rewrite bool_decide_eq_false_2 by done. cbn [orb].
    case_bool_decide as E0; [subst ds; done|].
    unfold ToUpper. rewrite solid_ascii by done.
    assert (forall p, p ∈ suffixes -> HasSuffix (upper_byte <$> ds) p.1 = false) as Hno.
    { intros p Hp. unfold HasSuffix. apply andb_false_iff. right. apply bool_decide_eq_false. intros E.
      assert (x42 ∈ upper_byte <$> ds) as (c & Ec & Hc)%list_elem_of_fmap.
      { rewrite <- (take_drop (length (upper_byte <$> ds) - length p.1) (upper_byte <$> ds)). apply elem_of_app. right.
        rewrite E. clear -Hp. unfold suffixes in Hp. rewrite !elem_of_cons in Hp.
        destruct Hp as [->|[->|[->|[->|[]%not_elem_of_nil]]]]; cbn; by right; left. }
      rewrite Forall_forall in Hds. specialize (Hds c Hc). clear -Ec Hds. by destruct c. }
    assert (parse_suffix ds (upper_byte <$> ds) suffixes = None) as ->.
    { revert Hno. generalize suffixes. clear. intros l Hno. induction l as [|[p m] l IH]; [done|]. cbn [parse_suffix].
      pose proof (Hno (p, m) ltac:(by left)) as E. cbn [fst] in E. rewrite E. apply IH. intros q Hq. apply Hno. by right. }
    rewrite <- (app_nil_r ds) at 1. by rewrite Sscanf_digits.
Qed.

(** The rest of [parseBytes] on concrete sizes: ["1.5GB"], [" 512mb "], and the overflow. *)
Lemma parseBytes_spec_witness : exists up : UnicodeUpper,
  parseBytes (bs "1.5GB") = Ok (2 ^ 30) /\ parseBytes (bs " 512mb ") = Ok (2 ^ 29) /\
  parseBytes (bs "8388608TB") = Ok (- 2 ^ 63) /\ parseBytes (bs "4096") = Ok 4096.
Proof.
  exists (fun b => b). set (up := (fun b => b) : UnicodeUpper).
  assert (forall s, forallb (fun c => in_range 48 57 (u8 c)) s = true -> Forall (fun c => in_range 48 57 (u8 c) = true) s) as Hd
    by (intros s Hs; apply Forall_forall; intros c Hc; rewrite forallb_forall in Hs; apply Hs, list_elem_of_In, Hc).
  destruct (parseBytes_spec [] (bs "1") (bs ".5") (bs "GB") [] (bs "GB") (2 ^ 30)) as [H1 _];
    try reflexivity; [discriminate|by apply Hd|right; left|].
  destruct (parseBytes_spec [x20] (bs "512") [] (bs "mb") [x20] (bs "MB") (2 ^ 20)) as [H2 _];
    try reflexivity; [discriminate|by apply Hd|right; right; left|].
  destruct (parseBytes_spec [] (bs "8388608") [] (bs "TB") [] (bs "TB") (2 ^ 40)) as [H3 _];
    try reflexivity; [discriminate|by apply Hd|left|].
  destruct (parseBytes_spec [] (bs "4096") [] (bs "TB") [] (bs "TB") (2 ^ 40)) as [_ H4];
    try reflexivity; [discriminate|by apply Hd|left|].
  split; [exact H1|]. split; [exact H2|]. split; [exact H3|exact H4].
Defined.

(** ** At concrete inputs *)

Definition ref_PeersJson : PeersJson := {| enc_peers_file l := Ok (ser l); dec_peers_file := deser |}.

Lemma ref_PeersJsonLaws : @PeersJsonLaws ref_PeersJson.
Proof. split. intros l data _ E. apply (inj Ok) in E as <-. apply deser_ser. Qed.

Module PeersDemo.
#[local] Existing Instances ref_PeersJson ref_PeersJsonLaws.

Definition url_a : bytes := bs "http://a".
Definition url_b : bytes := bs "http://b".
Definition flaky (f : Z) : peerState := {| skipRounds := 1; failures := f; pullSince := 0; pushSince := 0 |}.
Definition one_peer (f : Z) : peerTracker := with_known newPeerTracker {[ url_a := flaky f ]}.

Definition two_peers : peerTracker := {|
  known := <[url_a := new_peer]> {[ url_b := new_peer ]}; advertiseURL := []; peersFile := bs "peers.json"; started := false |}.

Lemma two_peers_iterates : iterates [url_a; url_b] (known two_peers) /\ iterates [url_b; url_a] (known two_peers).
Proof.
  assert (forall u, is_Some (known two_peers !! u) <-> u = url_a \/ u = url_b) as Hk.
  { intros u. cbn [known two_peers]. rewrite lookup_insert_is_Some', lookup_singleton_is_Some. intuition congruence. }
  split; split.
  - apply NoDup_cons. split; [|apply NoDup_singleton]. by intros ?%list_elem_of_singleton.
  - intros u. by rewrite Hk, elem_of_cons, list_elem_of_singleton.
  - apply NoDup_cons. split; [|apply NoDup_singleton]. by intros ?%list_elem_of_singleton.
  - intros u. rewrite Hk, elem_of_cons, list_elem_of_singleton. tauto.
Qed.

Lemma two_peers_fresh : map_Forall (fun _ st => skipRounds st = 0 /\ pullSince st <= 0) (known two_peers).
Proof. cbn [known two_peers]. apply map_Forall_insert_2; [by split|]. apply map_Forall_singleton. by split. Qed.

Lemma one_peer_iterates f : iterates [url_a] (known (one_peer f)).
Proof.
  split; [apply NoDup_singleton|]. intros u. cbn [known one_peer with_known].
  rewrite list_elem_of_singleton, lookup_singleton_is_Some. intuition congruence.
Qed.

(** The 63rd failure. *)
Lemma backoff_spec_witness : exists pt', record_pull url_a (Some ErrEOF) 0 (one_peer 62) = Some pt' /\
  skipRounds (default new_peer (known pt' !! url_a)) = - 2 ^ 63.
Proof.
  destruct (backoff_spec url_a (flaky 62) ErrEOF 0 (one_peer 62)) as [(pt' & E & L & _) _];
    [reflexivity|split; discriminate || reflexivity|].
  exists pt'. split; [exact E|]. rewrite L. reflexivity.
Defined.

Lemma tracker_invariant_witness : exists pt,
  tracker_run 2 newPeerTracker pt /\ tracker_ok 2 pt /\ is_Some (record_pull url_a (Some ErrEOF) 0 pt).
Proof.
  set (pt1 := fst (addPeer url_a newPeerTracker)).
  assert (tracker_run 2 newPeerTracker (record_push url_a 5 pt1)) as Hr
    by (eapply run_cons; [eapply run_cons; [apply run_nil|apply step_add]|apply step_push]).
  destruct (tracker_invariant 2 newPeerTracker (record_push url_a 5 pt1) Hr eq_refl eq_refl) as (H1 & _ & H2 & _).
  exists (record_push url_a 5 pt1). split; [exact Hr|]. split; [exact H1|apply H2].
Defined.

Lemma backoff_passes_witness :
  (url_a ∉ (tick [url_a] (one_peer 3)).2) /\ url_a ∈ (tick [url_a] (tick [url_a] (one_peer 3)).1).2.
Proof.
  pose proof (backoff_passes url_a (flaky 3) [[url_a]] [url_a] (one_peer 3) eq_refl ltac:(discriminate) eq_refl
    ltac:(apply Forall_cons; split; [|apply Forall_singleton]; apply one_peer_iterates)) as Hp.
  cbn [rounds] in Hp. destruct (tick [url_a] (one_peer 3)) as [pt1 ready]. destruct Hp as [H1 H2].
  split; [exact (Forall_inv H1)|exact H2].
Defined.

Lemma rotation_fair_witness : rotation [([url_b; url_a], 7); ([url_a; url_b], 8)] two_peers ≡ₚ [url_a; url_b].
Proof.
  apply (rotation_fair _ two_peers 0); [exact two_peers_fresh|apply two_peers_iterates| |reflexivity].
  apply Forall_cons; split; [|apply Forall_singleton]; (split; [apply two_peers_iterates|reflexivity]).
Defined.

Lemma peers_file_survives_witness :
  is_Some (known (loadPeers None (savePeers [url_a; url_b] no_save_faults two_peers ∅)
                   {| known := ∅; advertiseURL := bs "http://c"; peersFile := bs "peers.json"; started := false |}) !! url_b).
Proof.
  apply (proj1 (peers_file_survives [url_a; url_b] two_peers ∅ (ser [url_a; url_b])
    {| known := ∅; advertiseURL := bs "http://c"; peersFile := bs "peers.json"; started := false |}
    ltac:(apply two_peers_iterates) ltac:(repeat constructor) eq_refl ltac:(discriminate) eq_refl eq_refl
    ltac:(vm_compute; lia) ltac:(reflexivity))).
  exists new_peer. reflexivity.
Defined.

Lemma peerURL_lan_witness : exists p : UrlParse,
  peerURL (host_port [xc0; xa8; x01; x14]) = bs "http://192.168.1.20:14786".
Proof.
  exists (fun _ => Err ErrNotFound). exact (@peerURL_lan (fun _ => Err ErrNotFound) [xc0; xa8; x01; x14] eq_refl).
Defined.
End PeersDemo.
