(* ===== verification/PeersSync.v ===== *)
(** One synchronisation of a node with a peer: what it does to the tracker on every path,
    what gossip adds, and what a relay that refuses blocks costs. *)
From Stdlib Require Import String.
From S2P Require FlatFile FlatFileFacts BluetoothFacts RelayFacts.
From S2P Require Import Prelude Codec Block Store Bloom Text Net GeoIP Relay Peers PeersFacts.

(** ** Gossip *)

Lemma gossip_spec `{UrlParse} peers pt :
  let '(pt', added) := gossip peers pt in
  NoDup added /\ advertiseURL pt' = advertiseURL pt /\ peersFile pt' = peersFile pt /\ started pt' = started pt /\
  (forall v, v ∈ added -> known pt !! v = None /\ known pt' !! v = Some new_peer) /\
  (forall v, (v ∉ added) -> known pt' !! v = known pt !! v).
Proof.
  revert pt. induction peers as [|p peers IH]; intros pt; cbn [gossip].
  { split_and!; try done; [constructor|by intros v ?%not_elem_of_nil]. }
  pose proof (addPeer_spec (peerURL p) pt) as Ha. destruct (addPeer (peerURL p) pt) as [pt1 added].
  destruct Ha as [-> Ha]. specialize (IH (if added then with_known pt (<[peerURL p := new_peer]> (known pt)) else pt)).
  destruct (gossip peers _) as [pt' l]. destruct IH as (Hn & E1 & E2 & E3 & Hl & Ho). destruct added.
  - destruct (proj1 Ha eq_refl) as (_ & Hp & _). cbn [known with_known advertiseURL peersFile started] in *.
    assert (peerURL p ∉ l) as Hpl.
    { intros Hin. apply Hl in Hin as [Hin _]. by rewrite lookup_insert_eq in Hin. }
    split_and!; [by apply NoDup_cons|done|done|done| |].
    + intros v [->|Hv]%elem_of_cons; [split; [done|]; by rewrite Ho, lookup_insert_eq|].
      destruct (Hl v Hv) as [H1 H2]. split; [|done]. rewrite lookup_insert_ne in H1; [done|]. by intros <-.
    + intros v Hv. rewrite not_elem_of_cons in Hv. destruct Hv as [Hne Hv]. rewrite Ho by done. by rewrite lookup_insert_ne.
  - done.
Qed.

(** The node's own address. *)
Definition own_address (pt : peerTracker) (v : bytes) : Prop := advertiseURL pt <> [] /\ v = advertiseURL pt.

Lemma gossip_grows `{UrlParse} peers pt : known pt ⊆ known (gossip peers pt).1.
Proof.
  pose proof (gossip_spec peers pt) as Hg. destruct (gossip peers pt) as [pt' added]. destruct Hg as (_ & _ & _ & _ & Hadd & Hkeep).
  apply map_subseteq_spec. intros v st Hv. cbn [fst]. rewrite Hkeep; [done|]. intros [Hn _]%Hadd. congruence.
Qed.

(** Whom gossip adds: the peers that are told, but for the node itself, while there is room. *)
Lemma gossip_meets `{UrlParse} peers pt :
  let '(pt', added) := gossip peers pt in
  (forall v, v ∈ added -> v ∈ peerURL <$> peers /\ ~ own_address pt v) /\
  (forall v, v ∈ peerURL <$> peers ->
     is_Some (known pt' !! v) \/ own_address pt v \/ (maxPeers <= size (known pt'))%nat).
Proof.
  revert pt. induction peers as [|p peers IH]; intros pt; cbn [gossip].
  { split; by intros v ?%not_elem_of_nil. }
  pose proof (addPeer_spec (peerURL p) pt) as Ha. destruct (addPeer (peerURL p) pt) as [pt1 added].
  destruct Ha as [-> Ha]. set (pt1 := if added then _ else _).
  assert (forall v, own_address pt1 v <-> own_address pt v) as Hown by (intros v; unfold pt1, own_address; by destruct added).
  specialize (IH pt1). pose proof (gossip_grows peers pt1) as Hsub. destruct (gossip peers pt1) as [pt' l].
  cbn [fst] in Hsub. destruct IH as [Hl Hm]. rewrite fmap_cons. split.
  - intros v Hv. assert (added = true /\ v = peerURL p \/ v ∈ l) as [[-> ->]|Hin]
      by (destruct added; [apply elem_of_cons in Hv as []|]; auto).
    + split; [left|apply (proj1 (proj1 Ha eq_refl))].
    + destruct (Hl v Hin) as [H1 H2]. rewrite Hown in H2. split; [by right|done].
  - intros v [->|Hv]%elem_of_cons; [|destruct (Hm v Hv) as [?|[?%Hown|?]]; auto]. destruct added.
    + left. assert (known pt1 !! peerURL p = Some new_peer) as Hk by apply lookup_insert_eq.
      eexists. exact (lookup_weaken _ _ _ _ Hk Hsub).
    + destruct (decide (advertiseURL pt <> [] /\ peerURL p = advertiseURL pt)) as [?|Hno]; [auto|].
      destruct (known pt !! peerURL p) as [st|] eqn:Hk; [left; eexists; exact (lookup_weaken _ _ _ _ Hk Hsub)|].
      right; right. apply map_subseteq_size in Hsub. unfold pt1 in Hsub.
      destruct (Nat.le_gt_cases maxPeers (size (known pt))); [lia|]. by discriminate (proj2 Ha (conj Hno (conj eq_refl H0))).
Qed.

(** ** Pushing through any transport *)

Section AnyTransport.
Context `{RelayJson} {W : Type} (do : Request -> W -> W * result Reply) (c : RelayClient).
Context {L : Type} `{StoreLaws L} (now : Z) (skip : list ID) (local : L).

Lemma push_refs_app l1 l2 n w :
  push_refs do c now skip local (l1 ++ l2) n w
  = (let '(w', n') := push_refs do c now skip local l1 n w in push_refs do c now skip local l2 n' w').
Proof using Type.
  revert n w. induction l1 as [|r l1 IH]; intros n w; cbn [app push_refs]; [done|].
  case_bool_decide; [apply IH|]. destruct (store_Get now local (br_ID r)) as [[stamp payload]|]; [|apply IH].
  destruct (Relay.Put do c stamp payload w) as [w' [id|e]]; apply IH.
Qed.

Lemma push_fold refs st :
  foldl (fun s r => push_refs do c now skip local [r] s.2 s.1) st refs = push_refs do c now skip local refs st.2 st.1.
Proof using Type.
  revert st. induction refs as [|r refs IH]; intros [w n]; cbn [foldl]; [done|].
  rewrite IH. change (r :: refs) with ([r] ++ refs). rewrite push_refs_app. cbn [fst snd].
  by destruct (push_refs do c now skip local [r] n w).
Qed.

Lemma push_pages_walk floor since k token st0 st :
  page_loop (fun token => store_ListBlocks now local token 100 floor since) (fun err _ => Err err)
    (fun r s => Ok (push_refs do c now skip local [r] s.2 s.1)) k token st0 = Some (Ok st) ->
  push_pages do c now k (fun _ => None) skip local floor since token st0.2 st0.1 = Some (st.1, (st.2, None)).
Proof using Type.
  revert token st0. induction k as [|k IH]; intros token st0; cbn [page_loop push_pages]; [done|].
  destruct (store_ListBlocks now local token 100 floor since) as [[next refs]|e]; [|done].
  rewrite visit_all_pure, push_fold.
  destruct (push_refs do c now skip local refs st0.2 st0.1) as [w1 n1] eqn:E. case_decide; [by intros [= <-]|].
  apply (IH next (w1, n1)).
Qed.

(** A push that is told a floor and whose listings succeed ends without error, whatever the
    relay answers to each block. *)
Lemma Push_walk fuel floor since z w w1 :
  GetPowLimit do c w = (w1, Ok z) -> store_inv local -> in_s64 (Unix since) ->
  (forall t cur, valid_token (store_index local) t cur ->
     is_ok (store_ListBlocks now local t 100 (Z.max floor z) since) = true) ->
  (length (store_index local) < fuel)%nat ->
  exists refs, ref_view <$> refs = entry_view <$> remaining (store_index local) (Z.max floor z) (Unix since) None /\
    Push do c now fuel (fun _ => None) skip local floor since w
    = (let '(w', n) := push_refs do c now skip local refs 0 w1 in Some (w', (n, None))).
Proof using Type.
  intros Hp Hinv Hs Hok Hf.
  destruct (page_loop_complete (fun err _ => Err err) (fun r s => Ok (push_refs do c now skip local [r] s.2 s.1))
    now local 100 (Z.max floor z) since Hinv ltac:(lia) Hs fuel (w1, 0)
    (fun r s => push_refs do c now skip local [r] s.2 s.1)) as (refs & Hv & Hl); [done|done| |].
  { eapply Nat.le_lt_trans; [apply length_filter|done]. }
  exists refs. split; [exact Hv|]. unfold Push. rewrite Hp.
  assert ((if floor <? z then z else floor) = Z.max floor z) as -> by (destruct (Z.ltb_spec floor z); lia).
  apply push_pages_walk in Hl. cbn [fst snd] in Hl. rewrite Hl, push_fold. by destruct (push_refs _ _ _ _ _ _ _ _).
Qed.

Lemma push_refs_refused refs n w :
  (forall stamp payload w, is_ok (snd (Relay.Put do c stamp payload w)) = false) ->
  snd (push_refs do c now skip local refs n w) = n.
Proof using Type.
  intros Hr. revert n w. induction refs as [|r refs IH]; intros n w; cbn [push_refs]; [done|].
  case_bool_decide; [apply IH|]. destruct (store_Get now local (br_ID r)) as [[stamp payload]|]; [|apply IH].
  specialize (Hr stamp payload w). destruct (Relay.Put do c stamp payload w) as [w' [id|e]]; [done|]. apply IH.
Qed.
End AnyTransport.

(** ** One synchronisation *)

Section One.
Context `{Hashes, RelayJson, UrlParse, PeersJson} {S : Type} `{Store S} {N : Type}.
Context (net : bytes -> Request -> N -> N * result Reply) (bad_url : bytes -> option error).

(** Whom a peer told of. *)
Definition told (r : result (list bytes)) : list bytes := match r with Ok l => peerURL <$> l | Err _ => [] end.

(** The greeting keeps the store, and of the tracker all but the peers it adds, which are
    those that were told and are new; the file is saved when there are such. *)
Lemma greet_spec mo u c (w : world S N) : exists r added,
  let w' := greet net mo u c w in
  Hello (net u) c (advertiseURL (w_tracker w)) (w_net w) = (w_net w', r) /\
  w_store w' = w_store w /\ w_spawned w' = w_spawned w ++ added /\ NoDup added /\
  (forall v, v ∈ added -> known (w_tracker w) !! v = None /\ known (w_tracker w') !! v = Some new_peer) /\
  (forall v, (v ∉ added) -> known (w_tracker w') !! v = known (w_tracker w) !! v) /\
  (forall v, v ∈ added -> v ∈ told r /\ ~ own_address (w_tracker w) v) /\
  (forall v, v ∈ told r ->
     is_Some (known (w_tracker w') !! v) \/ own_address (w_tracker w) v \/ (maxPeers <= size (known (w_tracker w')))%nat) /\
  peersFile (w_tracker w') = peersFile (w_tracker w) /\
  w_files w' = (if bool_decide (added = []) then w_files w
                else savePeers (mo_order mo (w_tracker w')) (mo_faults mo) (w_tracker w') (w_files w)).
Proof using Type.
  unfold greet. destruct (Hello (net u) c (advertiseURL (w_tracker w)) (w_net w)) as [n [l|e]].
  - pose proof (gossip_spec l (w_tracker w)) as Hg. pose proof (gossip_meets l (w_tracker w)) as Hm.
    destruct (gossip l (w_tracker w)) as [pt added]. destruct Hg as (Hn & _ & Hfile & _ & Hadd & Hkeep). destruct Hm as [H1' H2'].
    exists (Ok l), added. cbn [told w_net w_store w_spawned w_tracker w_files]. by split_and!.
  - exists (Err e), []. cbn [told with_net w_net w_store w_spawned w_tracker w_files]. rewrite app_nil_r.
    split_and!; try done; try (by intros v ?%not_elem_of_nil). constructor.
Qed.

(** The end of a synchronisation: the result of the push. *)
Lemma syncOne_end mo u (w2 w' : world S N) n2 (perr : option error) st :
  known (w_tracker w2) !! u = Some (pull_succeeded (mo_pullStart mo) st) ->
  match perr with
  | Some _ => Some (with_net w2 n2)
  | None => Some (with_tracker (with_net w2 n2) (record_push u (mo_pushStart mo) (w_tracker (with_net w2 n2))))
  end = Some w' ->
  w_store w' = w_store w2 /\ w_net w' = n2 /\ w_spawned w' = w_spawned w2 /\ w_files w' = w_files w2 /\
  (forall v, v <> u -> known (w_tracker w') !! v = known (w_tracker w2) !! v) /\
  dom (known (w_tracker w')) = dom (known (w_tracker w2)) /\
  known (w_tracker w') !! u = Some {| skipRounds := 0; failures := 0; pullSince := mo_pullStart mo;
    pushSince := match perr with None => mo_pushStart mo | Some _ => pushSince st end |}.
Proof using Type.
  intros Hu. destruct perr as [e|]; intros <-%(inj Some); cbn [with_net with_tracker w_store w_net w_spawned w_files w_tracker]; [done|].
  unfold record_push. rewrite Hu. cbn [known with_known]. split_and!; try done.
  - intros v Hv. by rewrite lookup_insert_ne.
  - apply dom_insert_lookup_L. by rewrite Hu.
  - by rewrite lookup_insert_eq.
Qed.

(** C21: One synchronisation, on every path.  It pulls since the time of the last pull that
    succeeded.  When the pull fails, the peer is backed off and neither time moves, nothing is
    pushed, nobody is met and the file stays.  When it succeeds, the counters are cleared and
    the time of the pull becomes the start of this one; the peer is then greeted with the
    node's own address, and of the peers it tells of those are added that are new and not the
    node itself, all of them unless the limit is reached; the file is saved once they are,
    and stays when there are none.  Then the blocks since the last push are offered but for
    those just pulled, and the time of the push moves only when that reports no error.
    Goroutines are started exactly for the peers that are new, and no other peer is changed. *)
Theorem syncOne_spec fuel mo u powFloor (w w' : world S N) st :
  known (w_tracker w) !! u = Some st -> 0 <= failures st < 2 ^ 63 - 1 ->
  syncOne net bad_url fuel mo u powFloor w = Some w' ->
  let c := NewClient (bad_url u) u in
  exists n ids err,
    Pull (net u) c (mo_now mo) fuel (mo_pull_ctx mo) (w_store w) powFloor (pullSince st) (w_net w)
      = Some (n, w_store w', (ids, err)) /\
    match err with
    | Some _ =>
        w_net w' = n /\ w_files w' = w_files w /\ w_spawned w' = w_spawned w /\
        w_tracker w' = with_known (w_tracker w)
          (<[u := {| skipRounds := backoff (failures st + 1); failures := failures st + 1;
                     pullSince := pullSince st; pushSince := pushSince st |}]> (known (w_tracker w)))
    | None => exists n1 r added met cnt perr,
        Hello (net u) c (advertiseURL (w_tracker w)) n = (n1, r) /\
        w_spawned w' = w_spawned w ++ added /\ NoDup added /\
        (forall v, v ∈ added -> v ∈ told r /\ ~ own_address (w_tracker w) v /\
           known (w_tracker w) !! v = None /\ known (w_tracker w') !! v = Some new_peer) /\
        (forall v, v ∈ told r -> is_Some (known (w_tracker w') !! v) \/ own_address (w_tracker w) v \/
           (maxPeers <= size (known (w_tracker w')))%nat) /\
        (forall v, (v ∉ added) -> v <> u -> known (w_tracker w') !! v = known (w_tracker w) !! v) /\
        dom (known met) = dom (known (w_tracker w')) /\ peersFile met = peersFile (w_tracker w) /\
        w_files w' = (if bool_decide (added = []) then w_files w else savePeers (mo_order mo met) (mo_faults mo) met (w_files w)) /\
        Push (net u) c (mo_now mo) fuel (mo_push_ctx mo) ids (w_store w') powFloor (pushSince st) n1
          = Some (w_net w', (cnt, perr)) /\
        known (w_tracker w') !! u = Some {| skipRounds := 0; failures := 0; pullSince := mo_pullStart mo;
          pushSince := match perr with None => mo_pushStart mo | Some _ => pushSince st end |}
    end.
Proof using Type.
  intros Hst Hf Hsync c. unfold syncOne in Hsync. rewrite Hst in Hsync. fold c in Hsync.
  destruct (Pull _ _ _ _ _ _ _ _ _) as [[[n store] [ids err]]|] eqn:Epull; [|done].
  destruct err as [e|].
  { unfold record_pull in Hsync. rewrite Hst, pull_failed_spec in Hsync by done.
    cbn [fmap option_fmap option_map] in Hsync. apply (inj Some) in Hsync as <-. by exists n, ids, (Some e). }
  unfold record_pull in Hsync. rewrite Hst in Hsync.
  set (w1 := {| w_tracker := _; w_store := store |}) in Hsync.
  destruct (greet_spec mo u c w1) as (r & added & Eh & E1 & E2 & Hn & Hadd & Hkeep & Hin & Htold & Hpf & Hfiles).
  set (w2 := greet net mo u c w1) in *.
  assert (known (w_tracker w1) !! u = Some (pull_succeeded (mo_pullStart mo) st)) as Hu1
    by (unfold w1; cbn [w_tracker known with_known]; by rewrite lookup_insert_eq).
  assert (u ∉ added) as Hua by (intros Hiu; apply Hadd in Hiu as [Hiu _]; congruence).
  assert (forall v, v <> u -> known (w_tracker w1) !! v = known (w_tracker w) !! v) as Hother
    by (intros v Hv; unfold w1; cbn [w_tracker known with_known]; by rewrite lookup_insert_ne).
  assert (known (w_tracker w2) !! u = Some (pull_succeeded (mo_pullStart mo) st)) as Hu2 by (by rewrite Hkeep).
  destruct (Push _ _ _ _ _ _ _ _ _ _) as [[n2 [cnt perr]]|] eqn:Epush; [|done].
  rewrite E1 in Epush. cbn [w1 w_store] in Epush. exists n, ids, None.
  destruct (syncOne_end mo u w2 w' n2 perr st Hu2 Hsync) as (F1 & F2 & F3 & F4 & F5 & F6 & F7).
  split; [by rewrite F1, E1|]. exists (w_net w2), r, added, (w_tracker w2), cnt, perr.
  split; [exact Eh|]. split; [by rewrite F3, E2|]. split; [exact Hn|]. split.
  { intros v Hv. destruct (Hin v Hv) as [Ht Ho]. destruct (Hadd v Hv) as [Ha Hb]. assert (v <> u) by (by intros ->).
    rewrite F5 by done. split_and!; [done|exact Ho| |done]. by rewrite <- Hother. }
  split. { intros v Hv. destruct (Htold v Hv) as [Hs|[Hs|Hs]]; [left|by right; left|right; right].
    - rewrite <- elem_of_dom, F6, elem_of_dom. exact Hs.
    - rewrite <- (size_dom (D := gset bytes) (known (w_tracker w'))), F6, size_dom. exact Hs. }
  split. { intros v Hv Hne. by rewrite F5, Hkeep, Hother. }
  split; [by rewrite F6|]. split; [by rewrite Hpf|]. split; [rewrite F4; exact Hfiles|]. split; [rewrite F1, F2, E1; exact Epush|exact F7].
Qed.
End One.

(** ** Blocks that a relay did not take *)

Section Refusals.
Context `{HashesLaws, RelayJson, UrlParse, PeersJson} {S : Type} `{StoreLaws S} {N : Type}.
Context (net : bytes -> Request -> N -> N * result Reply) (bad_url : bytes -> option error).

(** Blocks that a relay did not take are not offered again.  When the relay advertises a
    floor but every block is refused, or its connection is lost, the push still reports no
    error: the count is zero, the time of the push moves to its start, and the next push
    will only look at blocks created since. *)
Theorem refusals_forgotten fuel mo u powFloor (w : world S N) st n store ids :
  let c := NewClient (bad_url u) u in
  known (w_tracker w) !! u = Some st ->
  Pull (net u) c (mo_now mo) fuel (mo_pull_ctx mo) (w_store w) powFloor (pullSince st) (w_net w)
    = Some (n, store, (ids, None)) ->
  (forall n, exists n' z, GetPowLimit (net u) c n = (n', Ok z)) ->
  (forall stamp payload n, is_ok (snd (Relay.Put (net u) c stamp payload n)) = false) ->
  mo_push_ctx mo = (fun _ => None) -> store_inv store -> in_s64 (Unix (pushSince st)) ->
  (length (store_index store) < fuel)%nat ->
  (forall floor t cur, valid_token (store_index store) t cur ->
     is_ok (store_ListBlocks (mo_now mo) store t 100 floor (pushSince st)) = true) ->
  exists w' st', syncOne net bad_url fuel mo u powFloor w = Some w' /\ w_store w' = store /\
    known (w_tracker w') !! u = Some st' /\ failures st' = 0 /\ pushSince st' = mo_pushStart mo /\
    forall en floor, meets floor (Unix (pushSince st')) en = true -> Unix (mo_pushStart mo) <= cur_createdAt (en_cursor en).
Proof using Type.
  intros c Hst Hpull Hpow Hput Hctx Hinv Hs Hfuel Hok. unfold syncOne. rewrite Hst. fold c. rewrite Hpull.
  unfold record_pull. rewrite Hst. set (w1 := {| w_tracker := _; w_store := store |}).
  destruct (greet_spec net mo u c w1) as (r & added & _ & E1 & _ & _ & Hadd & Hkeep & _). set (w2 := greet net mo u c w1) in *.
  assert (known (w_tracker w1) !! u = Some (pull_succeeded (mo_pullStart mo) st)) as Hu1
    by (unfold w1; cbn [w_tracker known with_known]; by rewrite lookup_insert_eq).
  assert (u ∉ added) as Hua by (intros Hin; apply Hadd in Hin as [Hin _]; congruence).
  assert (known (w_tracker w2) !! u = Some (pull_succeeded (mo_pullStart mo) st)) as Hu2 by (by rewrite Hkeep).
  rewrite Hctx, E1. cbn [w1 w_store]. destruct (Hpow (w_net w2)) as (n1 & z & Hz).
  destruct (Push_walk (net u) c (mo_now mo) ids store fuel powFloor (pushSince st) z (w_net w2) n1 Hz Hinv Hs
    (fun t cur Ht => Hok _ t cur Ht) Hfuel) as (refs & _ & E). rewrite E.
  pose proof (push_refs_refused (net u) c (mo_now mo) ids store refs 0 n1 Hput) as Hr.
  destruct (push_refs _ _ _ _ _ _ _ _) as [n2 cnt]. cbn [with_net w_tracker].
  eexists _, (push_succeeded (mo_pushStart mo) (pull_succeeded (mo_pullStart mo) st)).
  split; [reflexivity|]. cbn [with_net with_tracker w_store w_tracker]. rewrite ?E1. unfold record_push. rewrite Hu2.
  cbn [known with_known w1 w_store]. split_and!; [done|by rewrite lookup_insert_eq|done|done|].
  intros en floor Hm. apply andb_true_iff in Hm as [_ Hm]. by apply Z.leb_le in Hm.
Qed.
End Refusals.

(** ** At concrete inputs *)

Module PeersSyncDemo.
Import FlatFile FlatFileFacts FlatFileFacts.Demo RelayFacts PeersDemo.
#[local] Existing Instances ref_Hashes ref_HashesLaws ref_GoFloat ref_RelayJson ref_PeersJson.
#[local] Instance ref_UrlParse : UrlParse := fun b => Ok {| url_Scheme := bs "http"; url_Host := drop 7 b |}.

(** A network without connection, and one whose relay has nothing and takes nothing. *)
Definition down (u : bytes) (rq : Request) (n : unit) : unit * result Reply := (n, Err ErrEOF).
Definition refusing (u : bytes) (rq : Request) (n : unit) : unit * result Reply :=
  (n, match rq_path rq with
      | path_delta => Ok {| rp_status := StatusOK; rp_body := enc_ids []; rp_broken := None |}
      | path_pow_limit => Ok {| rp_status := StatusOK; rp_body := enc_pow 0; rp_broken := None |}
      | _ => Ok {| rp_status := StatusForbidden; rp_body := []; rp_broken := None |}
      end).

Definition start : world FlatFileStore unit :=
  {| w_tracker := two_peers; w_store := empty; w_net := tt; w_files := ∅; w_spawned := [] |}.

Definition at_100 : moment := {|
  mo_pullStart := time_Unix 100; mo_now := time_Unix 100; mo_pushStart := time_Unix 101;
  mo_pull_ctx _ := None; mo_push_ctx _ := None; mo_order _ := []; mo_faults := no_save_faults |}.

(** One whose relay has nothing, takes nothing and tells of two peers, one of them known. *)
Definition url_c : bytes := bs "http://c".
Definition telling (u : bytes) (rq : Request) (n : unit) : unit * result Reply :=
  match rq_path rq with
  | path_hello => (n, Ok {| rp_status := StatusOK; rp_body := enc_peers [url_b; url_c]; rp_broken := None |})
  | _ => refusing u rq n
  end.

(** The peer that is new is added and saved, a goroutine is started for it, and the time
    of the pull moves. *)
Lemma syncOne_spec_witness : exists w' : world FlatFileStore unit,
  syncOne telling (fun _ => None) 2 at_100 url_a 0 start = Some w' /\ w_spawned w' = [url_c] /\
  known (w_tracker w') !! url_c = Some new_peer /\ is_Some (w_files w' !! bs "peers.json") /\
  exists st', known (w_tracker w') !! url_a = Some st' /\ pullSince st' = time_Unix 100 /\ failures st' = 0.
Proof.
  assert (0 <= failures new_peer < 2 ^ 63 - 1) as Hf by (split; discriminate || reflexivity).
  assert (match syncOne telling (fun _ => None) 2 at_100 url_a 0 start with Some w' => w_spawned w' | None => [] end = [url_c]) as Hs
    by (vm_compute; reflexivity).
  destruct (syncOne telling (fun _ => None) 2 at_100 url_a 0 start) as [w'|] eqn:E; [|discriminate Hs].
  destruct (syncOne_spec telling (fun _ => None) 2 at_100 url_a 0 start w' new_peer eq_refl
    Hf E) as (n & ids & err & Hp & Hend).
  exists w'. split; [reflexivity|].
  destruct err as [e|]; [apply (f_equal (fun o => match o with Some (_, _, (_, Some _)) => true | _ => false end)) in Hp; vm_compute in Hp; discriminate Hp|].
  destruct Hend as (n1 & r & added & met & cnt & perr & Hh & Hsp & Hnd & Hadd & Htold & _ & _ & Hmet & Hfiles & Hpush & Hu).
  assert (r = Ok [url_b; url_c]) as ->.
  { apply (f_equal snd) in Hh. vm_compute (snd (Hello _ _ _ _)) in Hh. exact (eq_sym Hh). }
  assert (told (Ok [url_b; url_c]) = [url_b; url_c]) as Et by (vm_compute; reflexivity). rewrite Et in Hadd, Htold.
  assert (added = [url_c]) as ->.
  { rewrite Hsp in Hs. exact Hs. }
  split; [exact Hsp|]. split; [apply Hadd; left|]. split.
  - rewrite Hfiles, bool_decide_false by discriminate. unfold savePeers. rewrite Hmet. cbn. eexists. apply lookup_insert_eq.
  - eexists. split; [exact Hu|]. split; reflexivity.
Defined.

Lemma empty_lists now limit floor since t cur : valid_token (store_index empty) t cur ->
  is_ok (store_ListBlocks now empty t limit floor since) = true.
Proof.
  intros Htok. cbn [store_ListBlocks FlatFile_Store]. unfold ListBlocks.
  rewrite (parse_page_token_valid empty t cur Htok). cbn. by destruct (collect _ _ _ _ _).
Qed.

Lemma refusals_forgotten_witness : exists w' st',
  syncOne refusing (fun _ => None) 2 at_100 url_a 0 start = Some w' /\
  known (w_tracker w') !! url_a = Some st' /\ pushSince st' = time_Unix 101.
Proof.
  destruct (refusals_forgotten refusing (fun _ => None) 2 at_100 url_a 0 start new_peer tt empty [])
    as (w' & st' & E & _ & Hk & _ & Hp & _).
  - reflexivity.
  - vm_compute. reflexivity.
  - intros []. exists tt, 0. vm_compute. reflexivity.
  - intros stamp payload []. reflexivity.
  - reflexivity.
  - exact BluetoothFacts.BluetoothDemo.empty_inv.
  - split; vm_compute; congruence.
  - vm_compute. lia.
  - intros. by eapply empty_lists.
  - exists w', st'. split; [exact E|]. split; [exact Hk|exact Hp].
Defined.
End PeersSyncDemo.
