(* ===== verification/Mobile.v ===== *)
(** The mobile engine ([mobile/peertracker.go], [mobile/engine.go]): the tracker of relays
    with its file, the round of synchronisation with the relay that waited longest, the
    relays learnt over Bluetooth, and the quota file. *)
From Stdlib Require Import String.
From S2P Require Badger.
From S2P Require Import Prelude Codec Block Store Bloom Text Net GeoIP Relay.

(** ** The tracker *)

Definition maxTrackedPeers : nat := 200.

(** The text of an error, which the entries keep. *)
Class GoErrorText := error_text : error -> bytes.

Record peerEntry := {
  pe_URL : bytes;
  pe_Source : bytes;
  pe_Blocked : bool;
  pe_AddedAt : Z;
  pe_LastSync : Z;
  pe_Failures : Z;
  pe_LastPulled : Z;
  pe_LastPushed : Z;
  pe_LastError : bytes;
}.

Definition new_entry (url source : bytes) (blocked : bool) (now : Z) : peerEntry := {|
  pe_URL := url; pe_Source := source; pe_Blocked := blocked; pe_AddedAt := now; pe_LastSync := time_zero;
  pe_Failures := 0; pe_LastPulled := 0; pe_LastPushed := 0; pe_LastError := [] |}.

Definition with_blocked (e : peerEntry) (b : bool) : peerEntry := {|
  pe_URL := pe_URL e; pe_Source := pe_Source e; pe_Blocked := b; pe_AddedAt := pe_AddedAt e; pe_LastSync := pe_LastSync e;
  pe_Failures := pe_Failures e; pe_LastPulled := pe_LastPulled e; pe_LastPushed := pe_LastPushed e; pe_LastError := pe_LastError e |}.

Record peerTracker := { peers : gmap bytes peerEntry; peers_path : bytes }.

Definition newPeerTracker (path : bytes) : peerTracker := {| peers := ∅; peers_path := path |}.
Definition with_peers (pt : peerTracker) (m : gmap bytes peerEntry) : peerTracker :=
  {| peers := m; peers_path := peers_path pt |}.

Definition slash : byte := x2f.

Definition normalizeURL `{UrlParse} (rawURL : bytes) : bytes :=
  let rawURL := TrimRight (TrimSpace rawURL) slash in
  if bool_decide (rawURL = []) then []
  else
    match url_Parse rawURL with
    | Err _ => []
    | Ok u =>
        if (bool_decide (url_Scheme u <> bs "http") && bool_decide (url_Scheme u <> bs "https"))
           || bool_decide (url_Host u = [])
        then [] else rawURL
    end.

Section Tracker.
Context `{UrlParse}.

Definition add (rawURL source : bytes) (now : Z) (pt : peerTracker) : peerTracker * bool :=
  let rawURL := normalizeURL rawURL in
  if bool_decide (rawURL = []) then (pt, false)
  else
    match peers pt !! rawURL with
    | Some _ => (pt, false)
    | None =>
        if (maxTrackedPeers <=? size (peers pt))%nat then (pt, false)
        else (with_peers pt (<[rawURL := new_entry rawURL source false now]> (peers pt)), true)
    end.

Definition remove (rawURL : bytes) (pt : peerTracker) : peerTracker :=
  let rawURL := normalizeURL rawURL in
  if bool_decide (rawURL = []) then pt else with_peers pt (delete rawURL (peers pt)).

Definition block (rawURL : bytes) (now : Z) (pt : peerTracker) : peerTracker :=
  let rawURL := normalizeURL rawURL in
  if bool_decide (rawURL = []) then pt
  else
    match peers pt !! rawURL with
    | Some e => with_peers pt (<[rawURL := with_blocked e true]> (peers pt))
    | None => with_peers pt (<[rawURL := new_entry rawURL (bs "manual") true now]> (peers pt))
    end.

Definition unblock (rawURL : bytes) (pt : peerTracker) : peerTracker :=
  let rawURL := normalizeURL rawURL in
  if bool_decide (rawURL = []) then pt
  else
    match peers pt !! rawURL with
    | Some e => with_peers pt (<[rawURL := with_blocked e false]> (peers pt))
    | None => pt
    end.
End Tracker.

Definition is_active (pt : peerTracker) (u : bytes) : bool :=
  match peers pt !! u with Some e => negb (pe_Blocked e) | None => false end.

(** The order of a map's iteration is an argument, here and below. *)
Definition activeURLs (order : list bytes) (pt : peerTracker) : list bytes :=
  filter (fun u => is_active pt u = true) order.

(** The state of the loop of [pickPeer]: the pick and its time, or [first]. *)
Definition consider (pt : peerTracker) (acc : option (bytes * Z)) (u : bytes) : option (bytes * Z) :=
  match peers pt !! u with
  | None => acc
  | Some e =>
      if pe_Blocked e then acc
      else
        match acc with
        | None => Some (u, pe_LastSync e)
        | Some (_, pickTime) => if pe_LastSync e <? pickTime then Some (u, pe_LastSync e) else acc
        end
  end.

Definition pickPeer (order : list bytes) (pt : peerTracker) : bytes :=
  match foldl (consider pt) None order with Some (pick, _) => pick | None => [] end.

Definition lastSync (rawURL : bytes) (pt : peerTracker) : Z :=
  match peers pt !! rawURL with Some e => pe_LastSync e | None => time_zero end.

Definition recordSuccess (rawURL : bytes) (pulled pushed : Z) (syncErr : bytes) (now : Z) (pt : peerTracker) : peerTracker :=
  match peers pt !! rawURL with
  | None => pt
  | Some e => with_peers pt (<[rawURL := {|
      pe_URL := pe_URL e; pe_Source := pe_Source e; pe_Blocked := pe_Blocked e; pe_AddedAt := pe_AddedAt e;
      pe_LastSync := now; pe_Failures := 0; pe_LastPulled := pulled; pe_LastPushed := pushed; pe_LastError := syncErr |}]> (peers pt))
  end.

Definition recordFailure (rawURL pullErr : bytes) (pt : peerTracker) : peerTracker :=
  match peers pt !! rawURL with
  | None => pt
  | Some e => with_peers pt (<[rawURL := {|
      pe_URL := pe_URL e; pe_Source := pe_Source e; pe_Blocked := pe_Blocked e; pe_AddedAt := pe_AddedAt e;
      pe_LastSync := pe_LastSync e; pe_Failures := to_s64 (pe_Failures e + 1); pe_LastPulled := pe_LastPulled e;
      pe_LastPushed := pe_LastPushed e; pe_LastError := pullErr |}]> (peers pt))
  end.

(** *** What the API shows *)

Record PeerInfo := {
  pi_URL : bytes; pi_Source : bytes; pi_Blocked : bool; pi_AddedAt : Z; pi_LastSync : option Z; pi_Failures : Z;
  pi_LastPulled : Z; pi_LastPushed : Z; pi_LastError : bytes;
}.

Definition peer_info (e : peerEntry) : PeerInfo := {|
  pi_URL := pe_URL e; pi_Source := pe_Source e; pi_Blocked := pe_Blocked e; pi_AddedAt := pe_AddedAt e;
  pi_LastSync := if pe_LastSync e =? time_zero then None else Some (pe_LastSync e);
  pi_Failures := pe_Failures e; pi_LastPulled := pe_LastPulled e; pi_LastPushed := pe_LastPushed e; pi_LastError := pe_LastError e |}.

Definition ListPeers (order : list bytes) (pt : peerTracker) : list PeerInfo :=
  omap (fun u => peer_info <$> peers pt !! u) order.

(** *** The file *)

(** [encoding/json] on the file of peers; what it keeps are entries of ASCII text. *)
Class EntriesJson := { enc_entries : list peerEntry -> result bytes; dec_entries : bytes -> result (list peerEntry) }.

Definition plain_entry (e : peerEntry) : Prop :=
  ascii_text (pe_URL e) /\ ascii_text (pe_Source e) /\ ascii_text (pe_LastError e).

Class EntriesJsonLaws `{EntriesJson} : Prop := {
  entries_roundtrip l data : Forall plain_entry l -> enc_entries l = Ok data -> dec_entries data = Ok l;
}.

(** The faults of one save: writing the temporary file, which may leave a part of it, and
    the rename. *)
Record save_faults := { sf_write : option (error * option bytes); sf_rename : option error }.

Definition tmp_of (pt : peerTracker) : bytes := peers_path pt ++ bs ".tmp".

Definition save `{EntriesJson} (order : list bytes) (io : save_faults) (pt : peerTracker) (fs : files) : files :=
  match enc_entries (omap (fun u => peers pt !! u) order) with
  | Err _ => fs
  | Ok data =>
      match sf_write io with
      | Some (_, Some partial) => <[tmp_of pt := partial]> fs
      | Some (_, None) => fs
      | None =>
          match sf_rename io with
          | Some _ => <[tmp_of pt := data]> fs
          | None => <[peers_path pt := data]> (delete (tmp_of pt) fs)
          end
      end
  end.

(** [read] is the error of reading the file, if there is one. *)
Definition load `{EntriesJson} (read : option error) (fs : files) (pt : peerTracker) : peerTracker :=
  match read, fs !! peers_path pt with
  | None, Some data =>
      match dec_entries data with
      | Err _ => pt
      | Ok l => with_peers pt (foldl (fun m e => <[pe_URL e := e]> m) (peers pt) l)
      end
  | _, _ => pt
  end.

(** ** The engine *)

Section Engine.
Context `{Hashes, RelayJson, UrlParse, EntriesJson, GoErrorText} {S : Type} `{Store S} {N : Type}.
Context (net : bytes -> Request -> N -> N * result Reply) (bad_url : bytes -> option error).

(** What an engine changes: tracker, store, network and files, and the number of Bluetooth
    sessions in progress, an [int32]. *)
Record engine := { e_pm : peerTracker; e_store : S; e_net : N; e_files : files; e_bt : Z }.

Definition with_pm (e : engine) (pt : peerTracker) : engine :=
  {| e_pm := pt; e_store := e_store e; e_net := e_net e; e_files := e_files e; e_bt := e_bt e |}.

(** The readings of the clock of one call, the state of the context, the order of iteration
    and the faults of the file system. *)
Record instant := {
  in_now : Z;          (* of the store and of entries that are added *)
  in_end : Z;          (* when the round is recorded *)
  in_pull_ctx : nat -> option error;
  in_push_ctx : nat -> option error;
  in_order : peerTracker -> list bytes;
  in_faults : save_faults;
}.

Definition save_pm (i : instant) (e : engine) : engine :=
  {| e_pm := e_pm e; e_store := e_store e; e_net := e_net e;
     e_files := save (in_order i (e_pm e)) (in_faults i) (e_pm e) (e_files e); e_bt := e_bt e |}.

Definition AddPeer (i : instant) (url : bytes) (e : engine) : engine * bool :=
  let '(pt, added) := add url (bs "manual") (in_now i) (e_pm e) in
  let e := with_pm e pt in
  (if added : bool then save_pm i e else e, added).

Definition RemovePeer (i : instant) (url : bytes) (e : engine) : engine := save_pm i (with_pm e (remove url (e_pm e))).
Definition BlockPeer (i : instant) (url : bytes) (e : engine) : engine := save_pm i (with_pm e (block url (in_now i) (e_pm e))).
Definition UnblockPeer (i : instant) (url : bytes) (e : engine) : engine := save_pm i (with_pm e (unblock url (e_pm e))).

(** Adding what a peer knows. *)
Definition add_all (source : bytes) (now : Z) (urls : list bytes) (pt : peerTracker) : peerTracker :=
  foldl (fun pt u => fst (add u source now pt)) pt urls.

(** [None]: the fuel of the pages ran out. *)
Definition doSyncRound (fuel : nat) (i : instant) (e : engine) : option engine :=
  let pick := pickPeer (in_order i (e_pm e)) (e_pm e) in
  if bool_decide (pick = []) then Some e
  else
    let c := NewClient (bad_url pick) pick in
    let since := lastSync pick (e_pm e) in
    match Pull (net pick) c (in_now i) fuel (in_pull_ctx i) (e_store e) 0 since (e_net e) with
    | None => None
    | Some (n, store, (pulledIDs, Some err)) =>
        Some {| e_pm := recordFailure pick (error_text err) (e_pm e); e_store := store; e_net := n;
                e_files := e_files e; e_bt := e_bt e |}
    | Some (n, store, (pulledIDs, None)) =>
        let '(n, hello) := Hello (net pick) c [] n in
        let pt := match hello with
                  | Ok gossipURLs => add_all (bs "gossip") (in_now i) gossipURLs (e_pm e)
                  | Err _ => e_pm e
                  end in
        match Push (net pick) c (in_now i) fuel (in_push_ctx i) pulledIDs store 0 since n with
        | None => None
        | Some (n, (cnt, err)) =>
            let '(pushed, syncErr) := match err with Some err => (0, error_text err) | None => (cnt, []) end in
            let pt := recordSuccess pick (Z.of_nat (length pulledIDs)) pushed syncErr (in_end i) pt in
            Some (save_pm i {| e_pm := pt; e_store := store; e_net := n; e_files := e_files e; e_bt := e_bt e |})
        end
    end.

(** A relay found on the local network. *)
Definition lan_found (i : instant) (addr : bytes) (e : engine) : engine :=
  let '(pt, added) := add (bs "http://" ++ addr) (bs "lan") (in_now i) (e_pm e) in
  let e := with_pm e pt in
  if added : bool then save_pm i e else e.

(** A relay that greets the server on the local network. *)
Definition lan_greeted (i : instant) (u : bytes) (e : engine) : engine :=
  with_pm e (fst (add u (bs "lan") (in_now i) (e_pm e))).

(** The end of a Bluetooth session, with what it discovered: each new relay is saved. *)
Definition bt_discovered (i : instant) (discovered : list bytes) (e : engine) : engine :=
  foldl (fun e u =>
    let '(pt, added) := add u (bs "bluetooth") (in_now i) (e_pm e) in
    let e := with_pm e pt in
    if added : bool then save_pm i e else e) e discovered.

Definition bt_count (d : Z) (e : engine) : engine :=
  {| e_pm := e_pm e; e_store := e_store e; e_net := e_net e; e_files := e_files e;
     e_bt := (let m := (e_bt e + d) mod 2 ^ 32 in if m <? 2 ^ 31 then m else m - 2 ^ 32) |}.

(** [session] is [bluetooth.Run] over the store: the store afterwards, what was discovered
    and the error. *)
Definition RunBluetoothSession (i : instant) (session : S -> list bytes -> S * (list bytes * option error)) (e : engine)
    : engine * option error :=
  let e := bt_count 1 e in
  let '(store, (discovered, err)) := session (e_store e) (activeURLs (in_order i (e_pm e)) (e_pm e)) in
  let e := {| e_pm := e_pm e; e_store := store; e_net := e_net e; e_files := e_files e; e_bt := e_bt e |} in
  (bt_count (-1) (bt_discovered i discovered e), err).

Definition ActiveBTSessions (e : engine) : Z := e_bt e.
End Engine.
Arguments engine : clear implicits.

(** ** The quota file *)

Section Quota.
Context `{Badger.Badger}.

Definition quota_tags (physicalReserveBytes bluetoothReserveBytes : Z) : gmap Tag Z :=
  <[TagPhysical := physicalReserveBytes]> (<[TagBluetooth := bluetoothReserveBytes]>
    {[ TagLan := Z.quot bluetoothReserveBytes 2 ]}).

(** [os.Truncate] on the quota file, whose size is [quota] when it exists: a file that does
    not exist is an error, which is ignored. *)
Definition syncQuotaFile (store : Badger.BadgerStore) (quota : option Z) : option Z :=
  let used := Badger.DiskUsageBytes store in
  let limit := Badger.StorageLimitBytes store in
  let remaining := to_s64 (limit - used) in
  let remaining := if remaining <? 0 then 0 else remaining in
  match quota with
  | None => None
  | Some _ => Some remaining
  end.

Definition ConfigureStorage (limitBytes physicalReserveBytes bluetoothReserveBytes : Z)
    (st : Badger.BadgerStore * option Z) : Badger.BadgerStore * option Z :=
  let '(store, quota) := st in
  if limitBytes <=? 0 then (store, quota)
  else
    let store := Badger.WithReservations (Badger.WithStorageLimit store limitBytes)
                   (quota_tags physicalReserveBytes bluetoothReserveBytes) in
    (store, syncQuotaFile store quota).
End Quota.
