(* ===== verification/MobileFacts.v ===== *)
(** Facts about the mobile engine: the well-formedness of its tracker, the choice of a relay,
    a round on every path, how an unreachable relay starves the others, the file, and the
    quota. *)
From Stdlib Require Import String.
From S2P Require Badger FlatFile FlatFileFacts BluetoothFacts RelayFacts.
From S2P Require Import Prelude Codec Block Store Bloom Text Net GeoIP Relay Mobile.

(** ** Normalised URLs *)

Lemma TrimRight_last s c : last (TrimRight s c) <> Some c.
Proof.
  induction s as [|b s IH]; cbn [TrimRight]; [done|]. destruct (TrimRight s c) as [|x l] eqn:E.
  - case_bool_decide; [done|]. cbn. by intros [= ->].
  - rewrite last_cons_cons. done.
Qed.

Section Tracked.
Context `{UrlParse}.

(** What every key of the tracker is: an HTTP URL with a host and without a final slash. *)
Definition normal (u : bytes) : Prop :=
  u <> [] /\ last u <> Some slash /\
  exists url, url_Parse u = Ok url /\ (url_Scheme url = bs "http" \/ url_Scheme url = bs "https") /\ url_Host url <> [].

Lemma normalizeURL_spec raw : normalizeURL raw <> [] ->
  normal (normalizeURL raw) /\ normalizeURL raw = TrimRight (TrimSpace raw) slash.
Proof using Type.
  unfold normalizeURL. set (u := TrimRight (TrimSpace raw) slash). case_bool_decide as Hu; [done|].
  destruct (url_Parse u) as [url|] eqn:E; [|done].
  destruct (_ || _) eqn:Ec; [done|]. intros _. apply orb_false_iff in Ec as [Es Eh].
  apply bool_decide_eq_false in Eh. split; [|done]. split_and!; [done|apply TrimRight_last|].
  exists url. split_and!; [done| |done]. apply andb_false_iff in Es as [Es|Es]; apply bool_decide_eq_false in Es;
    [left|right]; by apply dec_stable.
Qed.

(** ** The invariant of the tracker *)

(** The operations, as the API and the engine make them. *)
Inductive tracker_op :=
  | op_add (raw source : bytes) (now : Z)
  | op_remove (raw : bytes)
  | op_block (raw : bytes) (now : Z)
  | op_unblock (raw : bytes)
  | op_success (u : bytes) (pulled pushed : Z) (err : bytes) (now : Z)
  | op_failure (u err : bytes).

Definition apply_op (pt : peerTracker) (op : tracker_op) : peerTracker :=
  match op with
  | op_add raw source now => fst (add raw source now pt)
  | op_remove raw => remove raw pt
  | op_block raw now => block raw now pt
  | op_unblock raw => unblock raw pt
  | op_success u pulled pushed err now => recordSuccess u pulled pushed err now pt
  | op_failure u err => recordFailure u err pt
  end.

Definition is_block (op : tracker_op) : bool := match op with op_block _ _ => true | _ => false end.
Definition blocks_in (ops : list tracker_op) : nat := length (filter (fun op => is_block op = true) ops).

Record tracker_ok (extra : nat) (pt : peerTracker) : Prop := {
  ok_entries : map_Forall (fun u e => pe_URL e = u /\ normal u) (peers pt);
  ok_count : (size (peers pt) <= maxTrackedPeers + extra)%nat;
}.

Lemma mobile_tracker_ok_mono n m pt : (n <= m)%nat -> tracker_ok n pt -> tracker_ok m pt.
Proof using Type. intros Hnm [H1 H2]. split; [done|lia]. Qed.

(** Replacing an entry under its key. *)
Lemma replace_ok n pt u e : tracker_ok n pt -> is_Some (peers pt !! u) -> pe_URL e = u ->
  tracker_ok n (with_peers pt (<[u := e]> (peers pt))).
Proof using Type.
  intros [H1 H2] [e0 E0] He. split.
  - cbn [peers with_peers]. apply map_Forall_insert_2; [|done]. split; [done|]. by apply (H1 u e0).
  - cbn [peers with_peers]. rewrite map_size_insert_Some by by rewrite E0. lia.
Qed.

Lemma insert_ok n pt u e : tracker_ok n pt -> peers pt !! u = None -> pe_URL e = u -> normal u ->
  (size (peers pt) < maxTrackedPeers + n)%nat ->
  tracker_ok n (with_peers pt (<[u := e]> (peers pt))).
Proof using Type.
  intros [H1 H2] Hu He Hn Hs. split.
  - cbn [peers with_peers]. by apply map_Forall_insert_2.
  - cbn [peers with_peers]. rewrite map_size_insert_None by done. lia.
Qed.

Lemma apply_op_ok n pt op : tracker_ok n pt -> tracker_ok (n + (if is_block op then 1 else 0)) (apply_op pt op).
Proof using Type.
  intros Hpt. destruct op as [raw source now|raw|raw now|raw|u pulled pushed err now|u err]; cbn [apply_op is_block];
    rewrite ?Nat.add_0_r.
  - unfold add. case_bool_decide as E; [done|]. destruct (normalizeURL_spec raw E) as [Hn _].
    destruct (peers pt !! normalizeURL raw) eqn:Eu; [done|].
    destruct (Nat.leb_spec maxTrackedPeers (size (peers pt))); [done|]. apply insert_ok; try done. lia.
  - unfold remove. case_bool_decide; [done|]. destruct Hpt as [H1 H2]. split.
    + cbn [peers with_peers]. by apply map_Forall_delete.
    + cbn [peers with_peers]. etransitivity; [|exact H2]. apply map_subseteq_size, delete_subseteq.
  - unfold block. case_bool_decide as E; [apply (mobile_tracker_ok_mono n); [lia|done]|].
    destruct (normalizeURL_spec raw E) as [Hn _]. destruct (peers pt !! normalizeURL raw) as [e|] eqn:Eu.
    + apply (mobile_tracker_ok_mono n); [lia|]. apply replace_ok; [done|by rewrite Eu|]. by apply (ok_entries _ _ Hpt _ e).
    + apply insert_ok; [apply (mobile_tracker_ok_mono n); [lia|done]|done|done|done|]. pose proof (ok_count _ _ Hpt). lia.
  - unfold unblock. case_bool_decide as E; [done|]. destruct (peers pt !! normalizeURL raw) as [e|] eqn:Eu; [|done].
    apply replace_ok; [done|by rewrite Eu|]. by apply (ok_entries _ _ Hpt _ e).
  - unfold recordSuccess. destruct (peers pt !! u) as [e|] eqn:Eu; [|done].
    apply replace_ok; [done|by rewrite Eu|]. by apply (ok_entries _ _ Hpt _ e).
  - unfold recordFailure. destruct (peers pt !! u) as [e|] eqn:Eu; [|done].
    apply replace_ok; [done|by rewrite Eu|]. by apply (ok_entries _ _ Hpt _ e).
Qed.

(** Whatever is done to the tracker, every entry stays under its own URL, which is an
    HTTP URL with a host and without a final slash, and there are at most 200 relays and one
    more for each relay that was blocked before it was known: blocking does not look at the
    limit. *)
Theorem mobile_tracker_invariant ops path :
  let pt := foldl apply_op (newPeerTracker path) ops in
  map_Forall (fun u e => pe_URL e = u /\ normal u) (peers pt) /\
  (size (peers pt) <= maxTrackedPeers + blocks_in ops)%nat /\ peers_path pt = path.
Proof using Type.
  assert (forall n pt, tracker_ok n pt -> tracker_ok (n + blocks_in ops) (foldl apply_op pt ops)) as Hok.
  { induction ops as [|op ops IH]; intros n pt Hpt; cbn [foldl].
    - apply (mobile_tracker_ok_mono n); [lia|done].
    - specialize (IH _ _ (apply_op_ok n pt op Hpt)). unfold blocks_in in *. rewrite filter_cons.
      destruct (is_block op); cbn [decide decide_rel bool_eq_dec] in *; [rewrite decide_True by done|rewrite decide_False by done];
        cbn [length]; (eapply mobile_tracker_ok_mono; [|exact IH]; lia). }
  destruct (Hok 0%nat (newPeerTracker path)) as [H1 H2].
  { split; cbn [newPeerTracker peers]; [apply map_Forall_empty|rewrite map_size_empty; lia]. }
  split_and!; [done|done|]. clear. generalize (eq_refl path). 
  assert (forall pt, peers_path (foldl apply_op pt ops) = peers_path pt) as Hp; [|by rewrite Hp].
  induction ops as [|op ops IH]; intros pt; [done|]. cbn [foldl]. rewrite IH.
  destruct op; cbn [apply_op]; unfold add, remove, block, unblock, recordSuccess, recordFailure;
    repeat case_match; done.
Qed.
End Tracked.

(** ** The choice of a relay *)

(** What the loop has found after a prefix of the order. *)
Definition best (pt : peerTracker) (seen : list bytes) (acc : option (bytes * Z)) : Prop :=
  match acc with
  | None => forall v, v ∈ seen -> is_active pt v = false
  | Some (pick, t) =>
      pick ∈ seen /\ (exists e, peers pt !! pick = Some e /\ pe_Blocked e = false /\ t = pe_LastSync e) /\
      forall v e, v ∈ seen -> peers pt !! v = Some e -> pe_Blocked e = false -> t <= pe_LastSync e
  end.

(** A relay that the loop does not look at changes nothing. *)
Lemma best_skip pt seen acc u : is_active pt u = false -> best pt seen acc -> best pt (seen ++ [u]) acc.
Proof.
  intros Hu. unfold best. destruct acc as [[pick t]|].
  - intros (Hp & He & Hv). split_and!; [apply elem_of_app; by left|done|].
    intros v e [Hin| ->%list_elem_of_singleton]%elem_of_app Hve Hb; [by apply (Hv v)|].
    unfold is_active in Hu. by rewrite Hve, Hb in Hu.
  - intros Hv v [Hin| ->%list_elem_of_singleton]%elem_of_app; [by apply Hv|done].
Qed.

Lemma best_step pt seen acc u : best pt seen acc -> best pt (seen ++ [u]) (consider pt acc u).
Proof.
  intros Hb. unfold consider. destruct (peers pt !! u) as [e|] eqn:Eu.
  2:{ apply best_skip; [|done]. unfold is_active. by rewrite Eu. }
  destruct (pe_Blocked e) eqn:Eb.
  { apply best_skip; [|done]. unfold is_active. by rewrite Eu, Eb. }
  assert (u ∈ seen ++ [u]) as Hin by (apply elem_of_app; right; by apply list_elem_of_singleton).
  assert (forall t, t <= pe_LastSync e ->
    (forall v e', v ∈ seen -> peers pt !! v = Some e' -> pe_Blocked e' = false -> t <= pe_LastSync e') ->
    forall v e', v ∈ seen ++ [u] -> peers pt !! v = Some e' -> pe_Blocked e' = false -> t <= pe_LastSync e') as Hle.
  { intros t Ht Hv v e' [Hvin| ->%list_elem_of_singleton]%elem_of_app He' Hb'; [by apply (Hv v)|].
    assert (e' = e) as -> by congruence. done. }
  destruct acc as [[pick t]|].
  - destruct Hb as (Hp & He & Hv). destruct (Z.ltb_spec (pe_LastSync e) t).
    + split_and!; [done|by exists e|]. apply Hle; [done|]. intros v e' H1 H2 H3. specialize (Hv v e' H1 H2 H3). lia.
    + split_and!; [apply elem_of_app; by left|done|]. by apply Hle.
  - split_and!; [done|by exists e|]. apply Hle; [done|]. intros v e' H1 H2 H3. specialize (Hb v H1).
    unfold is_active in Hb. by rewrite H2, H3 in Hb.
Qed.

Lemma best_fold pt order : best pt order (foldl (consider pt) None order).
Proof.
  induction order as [|u order IH] using rev_ind; [by intros v ?%not_elem_of_nil|].
  rewrite foldl_app. cbn [foldl]. by apply best_step.
Qed.

(** In whatever order the relays are gone through, the pick is an active relay that no
    active relay has waited longer than; there is none only when no relay is active. *)
Theorem pickPeer_spec order pt :
  iterates order (peers pt) -> peers pt !! [] = None ->
  let pick := pickPeer order pt in
  (pick = [] <-> forall v, is_active pt v = false) /\
  (pick <> [] -> exists e, peers pt !! pick = Some e /\ pe_Blocked e = false /\
     forall v e', peers pt !! v = Some e' -> pe_Blocked e' = false -> pe_LastSync e <= pe_LastSync e').
Proof.
  intros Ho Hnil. pose proof (best_fold pt order) as Hb. unfold pickPeer.
  destruct (foldl (consider pt) None order) as [[pick t]|].
  - destruct Hb as (Hp & (e & He & Hbl & ->) & Hv). split.
    + split; [intros ->; congruence|]. intros Ha. specialize (Ha pick). unfold is_active in Ha. by rewrite He, Hbl in Ha.
    + intros _. exists e. split_and!; [done|done|]. intros v e' Hv' Hb'. apply (Hv v); [|done|done].
      apply Ho. by rewrite Hv'.
  - split; [|done]. split; [|done]. intros _ v. destruct (decide (v ∈ order)) as [Hin|Hin]; [by apply Hb|].
    unfold is_active. destruct (peers pt !! v) eqn:Ev; [|done]. destruct Hin. apply Ho. by rewrite Ev.
Qed.

(** ** A round *)

(** What gossip adds are new entries under normalised URLs; nothing that was known changes. *)
Lemma add_all_spec `{UrlParse} source now urls pt :
  let pt' := Mobile.add_all source now urls pt in
  peers_path pt' = peers_path pt /\
  (forall v e, peers pt !! v = Some e -> peers pt' !! v = Some e) /\
  (forall v e, peers pt' !! v = Some e -> peers pt !! v = Some e \/
     (peers pt !! v = None /\ e = new_entry v source false now /\ exists raw, raw ∈ urls /\ v = normalizeURL raw)).
Proof.
  revert pt. induction urls as [|raw urls IH]; intros pt; cbn [Mobile.add_all foldl].
  { split_and!; [done|done|by left]. }
  specialize (IH (fst (add raw source now pt))). destruct IH as (E & Hk & Hn). unfold Mobile.add_all in *.
  assert ((fst (add raw source now pt) = pt) \/ (peers pt !! normalizeURL raw = None /\
    fst (add raw source now pt) = with_peers pt (<[normalizeURL raw := new_entry (normalizeURL raw) source false now]> (peers pt))))
    as [Ha|[Hnone Ha]].
  { unfold add. case_bool_decide; [by left|]. destruct (peers pt !! _) eqn:Ep; [by left|].
    destruct (_ <=? _)%nat; [by left|by right]. }
  - rewrite Ha in *. split_and!; [done|done|]. intros v e Hv. destruct (Hn v e Hv) as [?|(H1 & H2 & raw' & H3 & H4)]; [by left|].
    right. split_and!; [done|done|]. exists raw'. split; [by right|done].
  - rewrite Ha in *. cbn [peers with_peers peers_path] in *. split_and!; [done| |].
    + intros v e Hv. apply Hk. rewrite lookup_insert_ne; [done|congruence].
    + intros v e Hv. destruct (Hn v e Hv) as [Hi|(H1 & H2 & raw' & H3 & H4)].
      * apply lookup_insert_Some in Hi as [[<- <-]|[_ Hi]]; [|by left].
        right. split_and!; [done|done|]. exists raw. split; [by left|done].
      * right. apply lookup_insert_None in H1 as [H1 _]. split_and!; [done|done|]. exists raw'. split; [by right|done].
Qed.

Section Rounds.
Context `{Hashes, RelayJson, UrlParse, EntriesJson, GoErrorText} {S : Type} `{Store S} {N : Type}.
Context (net : bytes -> Request -> N -> N * result Reply) (bad_url : bytes -> option error).

(** The entry of a relay after a round that pulled. *)
Definition synced (e : peerEntry) (pulled pushed : Z) (err : bytes) (now : Z) : peerEntry := {|
  pe_URL := pe_URL e; pe_Source := pe_Source e; pe_Blocked := pe_Blocked e; pe_AddedAt := pe_AddedAt e;
  pe_LastSync := now; pe_Failures := 0; pe_LastPulled := pulled; pe_LastPushed := pushed; pe_LastError := err |}.

Definition failed (e : peerEntry) (err : bytes) : peerEntry := {|
  pe_URL := pe_URL e; pe_Source := pe_Source e; pe_Blocked := pe_Blocked e; pe_AddedAt := pe_AddedAt e;
  pe_LastSync := pe_LastSync e; pe_Failures := to_s64 (pe_Failures e + 1); pe_LastPulled := pe_LastPulled e;
  pe_LastPushed := pe_LastPushed e; pe_LastError := err |}.

(** A round, on every path.  It talks to the relay picked, and to nobody when there is
    none.  A pull that fails leaves a failure and its text in the entry and no other trace
    in tracker and file.  After a pull that succeeds the relay is greeted, the relays it
    tells of are added as active and never synchronised, no other entry changes, the blocks
    since the last round are offered but for those just pulled, and the entry counts what
    moved; its time becomes the end of the round even when the push failed, so that no block
    created before that second is offered to this relay again. *)
Theorem mobile_round_spec fuel i (e e' : engine S N) :
  doSyncRound net bad_url fuel i e = Some e' ->
  let u := pickPeer (in_order i (e_pm e)) (e_pm e) in
  let c := NewClient (bad_url u) u in
  let since := lastSync u (e_pm e) in
  (u = [] /\ e' = e) \/
  (u <> [] /\ e_bt e' = e_bt e /\ exists n ids err,
    Pull (net u) c (in_now i) fuel (in_pull_ctx i) (e_store e) 0 since (e_net e) = Some (n, e_store e', (ids, err)) /\
    match err with
    | Some err =>
        e_net e' = n /\ e_files e' = e_files e /\
        forall v, peers (e_pm e') !! v = (if decide (v = u) then flip failed (error_text err) <$> peers (e_pm e) !! v
                                          else peers (e_pm e) !! v)
    | None =>
        exists n1 cnt perr,
          Push (net u) c (in_now i) fuel (in_push_ctx i) ids (e_store e') 0 since n1 = Some (e_net e', (cnt, perr)) /\
          e_files e' = save (in_order i (e_pm e')) (in_faults i) (e_pm e') (e_files e) /\
          (forall v en, v <> u -> peers (e_pm e) !! v = Some en -> peers (e_pm e') !! v = Some en) /\
          (forall v en, v <> u -> peers (e_pm e') !! v = Some en -> peers (e_pm e) !! v = None ->
             en = new_entry v (bs "gossip") false (in_now i) /\ exists raw, v = normalizeURL raw) /\
          forall en, peers (e_pm e) !! u = Some en ->
            peers (e_pm e') !! u = Some (synced en (Z.of_nat (length ids)) (match perr with None => cnt | _ => 0 end)
                                           (match perr with None => [] | Some err => error_text err end) (in_end i)) /\
            forall b floor, cur_createdAt (en_cursor b) < Unix (in_end i) ->
              meets floor (Unix (lastSync u (e_pm e'))) b = false
    end).
Proof using Type.
  intros Hround u c since. unfold doSyncRound in Hround. fold u c since in Hround.
  case_bool_decide as Hu; [left; split; [done|]; by apply (inj Some) in Hround|right]. split; [done|].
  destruct (Pull _ _ _ _ _ _ _ _ _) as [[[n store] [ids [err|]]]|] eqn:Epull; [| |done].
  - apply (inj Some) in Hround as <-. cbn [e_store e_net e_files e_pm e_bt]. split; [done|].
    exists n, ids, (Some err). split_and!; [done|done|done|].
    intros v. unfold recordFailure. case_decide as Hv; subst.
    + destruct (peers (e_pm e) !! u) as [en|] eqn:Een; [|by rewrite Een]. cbn [peers with_peers]. by rewrite lookup_insert_eq.
    + destruct (peers (e_pm e) !! u) as [en|] eqn:Een; [|done]. cbn [peers with_peers]. by rewrite lookup_insert_ne.
  - destruct (Hello _ _ _ _) as [n1 hello] eqn:Ehello.
    set (pt := match hello with Ok gossipURLs => _ | Err _ => _ end) in Hround.
    assert ((forall v e0, peers (e_pm e) !! v = Some e0 -> peers pt !! v = Some e0) /\
      (forall v e0, peers pt !! v = Some e0 -> peers (e_pm e) !! v = Some e0 \/
         (peers (e_pm e) !! v = None /\ e0 = new_entry v (bs "gossip") false (in_now i) /\ exists raw, v = normalizeURL raw)))
      as [Hkeep Hnew].
    { unfold pt. destruct hello as [urls|]; [|by split; [|left]].
      destruct (add_all_spec (bs "gossip") (in_now i) urls (e_pm e)) as (_ & Ha & Hb). split; [exact Ha|].
      intros v e0 Hv. destruct (Hb v e0 Hv) as [?|(? & ? & raw & _ & ?)]; [by left|right; split_and!; [done|done|by exists raw]]. }
    destruct (Push _ _ _ _ _ _ _ _ _ _) as [[n2 [cnt perr]]|] eqn:Epush; [|done].
    set (pushed := match perr with None => cnt | _ => 0 end). set (text := match perr with None => [] | Some err => error_text err end).
    assert (e' = save_pm i {| e_pm := recordSuccess u (Z.of_nat (length ids)) pushed text (in_end i) pt; e_store := store;
                              e_net := n2; e_files := e_files e; e_bt := e_bt e |}) as ->
      by (unfold pushed, text; destruct perr; by apply (inj Some) in Hround).
    cbn [save_pm e_store e_net e_files e_pm e_bt]. split; [done|]. exists n, ids, None. split; [done|]. exists n1, cnt, perr.
    assert (forall v, v <> u -> peers (recordSuccess u (Z.of_nat (length ids)) pushed text (in_end i) pt) !! v = peers pt !! v) as Hother.
    { intros v Hv. unfold recordSuccess. destruct (peers pt !! u); [|done]. cbn [peers with_peers]. by rewrite lookup_insert_ne. }
    split_and!; [done|done| | |].
    + intros v en Hv Hen. rewrite Hother by done. by apply Hkeep.
    + intros v en Hv Hen Hnone. rewrite Hother in Hen by done. destruct (Hnew v en Hen) as [?|(_ & ? & ?)]; [congruence|done].
    + intros en Hen. assert (peers (recordSuccess u (Z.of_nat (length ids)) pushed text (in_end i) pt) !! u
        = Some (synced en (Z.of_nat (length ids)) pushed text (in_end i))) as Hrec.
      { unfold recordSuccess. rewrite (Hkeep _ _ Hen). cbn [peers with_peers]. by rewrite lookup_insert_eq. }
      split; [exact Hrec|]. intros b floor Hb. unfold lastSync. rewrite Hrec. cbn [pe_LastSync synced].
      unfold meets. apply andb_false_iff. right. by apply Z.leb_gt.
Qed.

(** *** A relay that cannot be reached *)

(** Rounds one after the other. *)
Fixpoint rounds (fuel : nat) (is_ : list instant) (e : engine S N) : option (engine S N) :=
  match is_ with
  | [] => Some e
  | i :: is_ => e ← doSyncRound net bad_url fuel i e; rounds fuel is_ e
  end.
End Rounds.

(** The active relay [u] has waited longer than any other active one. *)
Definition oldest (u : bytes) (pt : peerTracker) : Prop :=
  u <> [] /\ peers pt !! [] = None /\ exists e, peers pt !! u = Some e /\ pe_Blocked e = false /\
  forall v e', v <> u -> peers pt !! v = Some e' -> pe_Blocked e' = false -> pe_LastSync e < pe_LastSync e'.

Lemma oldest_pick u order pt : oldest u pt -> iterates order (peers pt) -> pickPeer order pt = u.
Proof.
  intros (Hu & Hnil & e & He & Hb & Hless) Ho. pose proof (best_fold pt order) as Hbest. unfold pickPeer.
  assert (u ∈ order) as Hin by (apply Ho; by rewrite He).
  destruct (foldl (consider pt) None order) as [[pick t]|].
  - destruct Hbest as (Hp & (e' & He' & Hb' & ->) & Hv). destruct (decide (pick = u)) as [->|Hne]; [done|].
    specialize (Hv u e Hin He Hb). specialize (Hless pick e' Hne He' Hb'). lia.
  - specialize (Hbest u Hin). unfold is_active in Hbest. by rewrite He, Hb in Hbest.
Qed.

Section Starvation.
Context `{Hashes, RelayJson, UrlParse, EntriesJson, GoErrorText} {S : Type} `{StoreLaws S} {N : Type}.
Context (net : bytes -> Request -> N -> N * result Reply) (bad_url : bytes -> option error).
Context (fuel : nat) (store : S) (u : bytes).
Context (Hdown : forall rq n, is_ok (snd (net u rq n)) = false).
Context (Hinv : store_inv store) (Hfuel : (length (store_index store) < fuel)%nat).
Context (Hlists : forall now t c, valid_token (store_index store) t c -> is_ok (store_ListBlocks now store t 500 0 time_zero) = true).

Lemma Pull_down now ctx floor since n : exists n' err,
  Pull (net u) (NewClient (bad_url u) u) now fuel ctx store floor since n = Some (n', store, ([], Some err)).
Proof using All.
  unfold Pull. rewrite BloomOfStore_index by (first [done|exact (Hlists now)]). unfold Delta, round_trip.
  destruct (rc_bad_url _); [by eexists _, _|].
  specialize (Hdown (request POST path_delta (enc_delta (b64_encode StdEncoding (Bytes (index_Bloom (store_index store))), floor, Unix since))) n).
  destruct (net u _ n) as [n' [rp|err]]; [done|by eexists _, _].
Qed.

(** C31: A relay that cannot be reached starves the others.  If the active relay that has
    waited longest answers nothing, any number of rounds goes by without another relay being
    tried: its failures are counted, but its time stays, so it is picked again every time;
    the store and all other entries stay as they are.  (The desktop tracker backs off
    instead.) *)
Theorem failing_peer_starves is_ (e : engine S N) :
  oldest u (e_pm e) -> e_store e = store ->
  Forall (fun i => forall pt, iterates (in_order i pt) (peers pt)) is_ ->
  exists e', rounds net bad_url fuel is_ e = Some e' /\ oldest u (e_pm e') /\
    e_store e' = store /\ e_files e' = e_files e /\
    (forall v, v <> u -> peers (e_pm e') !! v = peers (e_pm e) !! v) /\
    lastSync u (e_pm e') = lastSync u (e_pm e) /\
    Forall (fun i => pickPeer (in_order i (e_pm e')) (e_pm e') = u) is_ /\
    forall f, pe_Failures <$> peers (e_pm e) !! u = Some f -> 0 <= f -> f + Z.of_nat (length is_) < 2 ^ 63 ->
      pe_Failures <$> peers (e_pm e') !! u = Some (f + Z.of_nat (length is_)).
Proof using All.
  revert e. induction is_ as [|i is_ IH]; intros e Hold Hst Ho.
  { exists e. split_and!; try done. intros f Hf _ _. cbn [length]. by rewrite Z.add_0_r. }
  apply Forall_cons in Ho as [Hi Ho]. pose proof (oldest_pick _ _ _ Hold (Hi (e_pm e))) as Hpick.
  destruct Hold as (Hu & Hnil & en & Hen & Hb & Hless).
  destruct (Pull_down (in_now i) (in_pull_ctx i) 0 (lastSync u (e_pm e)) (e_net e)) as (n' & err & Epull).
  set (e1 := {| e_pm := recordFailure u (error_text err) (e_pm e); e_store := store; e_net := n'; e_files := e_files e; e_bt := e_bt e |}).
  assert (doSyncRound net bad_url fuel i e = Some e1) as Er.
  { unfold doSyncRound. rewrite Hpick, bool_decide_eq_false_2 by done. cbv zeta. rewrite Hst, Epull. done. }
  assert (peers (e_pm e1) = <[u := failed en (error_text err)]> (peers (e_pm e))) as Hp1
    by (unfold e1, recordFailure; cbn [e_pm]; by rewrite Hen).
  assert (oldest u (e_pm e1)) as Hold1.
  { split_and!; [done|rewrite Hp1; by rewrite lookup_insert_ne|]. exists (failed en (error_text err)).
    rewrite Hp1. split_and!; [by rewrite lookup_insert_eq|done|].
    intros v e' Hv He' Hb'. rewrite lookup_insert_ne in He' by done. by apply (Hless v). }
  destruct (IH e1 Hold1 eq_refl Ho) as (e' & Hr & Hold' & Hst' & Hf' & Hother & Hlast & Hall & Hfail).
  exists e'. cbn [rounds]. rewrite Er. cbn [mbind option_bind]. split_and!; try done.
  - intros v Hv. rewrite Hother, Hp1 by done. by rewrite lookup_insert_ne.
  - rewrite Hlast. unfold lastSync. by rewrite Hp1, lookup_insert_eq, Hen.
  - apply Forall_cons. split; [|done]. by apply oldest_pick.
  - intros f Hf Hf0 Hlt. rewrite Hen in Hf. cbn [fmap option_fmap option_map] in Hf. apply (inj Some) in Hf as <-.
    cbn [length] in *. rewrite (Hfail (pe_Failures en + 1)); [f_equal; lia| |lia|lia].
    rewrite Hp1, lookup_insert_eq. cbn [fmap option_fmap option_map pe_Failures failed]. f_equal. apply to_s64_id. split; lia.
Qed.
End Starvation.

(** ** The file *)

Lemma load_keys (l : list peerEntry) (m : gmap bytes peerEntry) (v : bytes) :
  NoDup (pe_URL <$> l) ->
  foldl (fun m e => <[pe_URL e := e]> m) m l !! v
  = match list_find (fun e => pe_URL e = v) l with Some (_, e) => Some e | None => m !! v end.
Proof.
  revert m. induction l as [|e l IH]; intros m Hn; [done|]. rewrite fmap_cons in Hn. apply NoDup_cons in Hn as [He Hn].
  cbn [foldl list_find]. rewrite IH by done. case_decide as Hv.
  - subst v. assert (list_find (fun e' => pe_URL e' = pe_URL e) l = None) as ->; [|by rewrite lookup_insert_eq].
    apply list_find_None, Forall_forall. intros e' Hin E. destruct He. rewrite <- E. by apply list_elem_of_fmap_2.
  - destruct (list_find _ l) as [[k e']|]; [done|]. cbn. by rewrite lookup_insert_ne.
Qed.

(** The tracked relays survive a restart, entries and all; and whatever fails during a
    save, the file is the old one or the complete new one. *)
Theorem mobile_peers_file `{EntriesJsonLaws} order pt fs data fresh :
  iterates order (peers pt) -> map_Forall (fun u e => pe_URL e = u /\ plain_entry e) (peers pt) ->
  enc_entries (omap (fun u => peers pt !! u) order) = Ok data ->
  peers fresh = ∅ -> peers_path fresh = peers_path pt ->
  (forall v, peers (load None (save order {| sf_write := None; sf_rename := None |} pt fs) fresh) !! v = peers pt !! v) /\
  (forall io, save order io pt fs !! peers_path pt = fs !! peers_path pt \/
              save order io pt fs !! peers_path pt = Some data).
Proof.
  intros [Hnd Ho] Hwf Henc Hf Hp. unfold save. rewrite Henc. set (l := omap (fun u => peers pt !! u) order) in *.
  assert (pe_URL <$> l = order) as Hurls.
  { unfold l. assert (Forall (fun u => is_Some (peers pt !! u)) order) as Hall by (apply Forall_forall; intros u; by rewrite Ho).
    clear -Hall Hwf. induction Hall as [|u order [e He] _ IH]; [done|]. cbn [omap list_omap]. rewrite He, fmap_cons.
    f_equal; [|exact IH]. by apply (Hwf u e). }
  split.
  - cbn [sf_write sf_rename]. unfold load. rewrite Hp, lookup_insert_eq. rewrite (entries_roundtrip l data).
    + cbn [peers with_peers]. rewrite Hf. intros v. rewrite load_keys by by rewrite Hurls. rewrite lookup_empty.
      destruct (list_find _ l) as [[k e]|] eqn:E.
      * apply list_find_Some in E as (Hk & <- & _). apply list_elem_of_lookup_2, list_elem_of_omap in Hk as (u & _ & Hu).
        destruct (Hwf u e Hu) as [-> _]. done.
      * apply list_find_None in E. destruct (peers pt !! v) as [e|] eqn:Ev; [|done].
        assert (e ∈ l) as Hin by (apply list_elem_of_omap; exists v; split; [apply Ho; by rewrite Ev|done]).
        rewrite Forall_forall in E. by destruct (E e Hin (proj1 (Hwf v e Ev))).
    + apply Forall_forall. intros e (u & _ & Hu)%list_elem_of_omap. by apply (Hwf u e).
    + done.
  - assert (tmp_of pt <> peers_path pt) as Hne.
    { unfold tmp_of. intros E%(f_equal length). rewrite length_app in E. cbn in E. lia. }
    intros io. destruct (sf_write io) as [[err [partial|]]|].
    + left. by rewrite lookup_insert_ne.
    + by left.
    + destruct (sf_rename io); [left; by rewrite lookup_insert_ne|right; by rewrite lookup_insert_eq].
Qed.

(** ** Bluetooth sessions *)

(** A Bluetooth session is given the active relays; whatever it does, the count of
    sessions returns to what it was, the relays that were known stay as they are and those
    it discovered are added as active. *)
Theorem bt_session_spec `{Hashes, UrlParse, EntriesJson} {S N : Type} i
    (session : S -> list bytes -> S * (list bytes * option error)) (e : engine S N) :
  - 2 ^ 31 <= e_bt e < 2 ^ 31 ->
  let r := session (e_store e) (activeURLs (in_order i (e_pm e)) (e_pm e)) in
  let '(e', err) := RunBluetoothSession i session e in
  e_store e' = r.1 /\ err = r.2.2 /\ ActiveBTSessions e' = ActiveBTSessions e /\ e_net e' = e_net e /\
  e_pm e' = Mobile.add_all (bs "bluetooth") (in_now i) r.2.1 (e_pm e) /\
  (forall v en, peers (e_pm e) !! v = Some en -> peers (e_pm e') !! v = Some en).
Proof.
  intros Hb r. unfold RunBluetoothSession. cbn [bt_count e_store e_pm e_net e_files e_bt]. fold r.
  destruct r as [store [discovered err]]. cbn [fst snd].
  assert (forall e0 : engine S N, let e1 := bt_discovered i discovered e0 in
    e_store e1 = e_store e0 /\ e_bt e1 = e_bt e0 /\ e_net e1 = e_net e0 /\
    e_pm e1 = Mobile.add_all (bs "bluetooth") (in_now i) discovered (e_pm e0)) as Hd.
  { clear. unfold bt_discovered, Mobile.add_all. induction discovered as [|u l IH]; intros e0; [done|]. cbn [foldl].
    destruct (add u (bs "bluetooth") (in_now i) (e_pm e0)) as [pt added].
    cbn [fst]. destruct added.
    - destruct (IH (save_pm i (with_pm e0 pt))) as (E1 & E2 & E3 & E4). split_and!; assumption.
    - destruct (IH (with_pm e0 pt)) as (E1 & E2 & E3 & E4). split_and!; assumption. }
  specialize (Hd {| e_pm := e_pm e; e_store := store; e_net := e_net e; e_files := e_files e;
                    e_bt := (let m := (e_bt e + 1) mod 2 ^ 32 in if m <? 2 ^ 31 then m else m - 2 ^ 32) |}).
  destruct (bt_discovered i discovered _) as [pm' st' n' f' b']. cbn [e_store e_bt e_net e_pm bt_count ActiveBTSessions] in *.
  destruct Hd as (-> & -> & -> & ->). split_and!; try done.
  - assert (forall z, (if z mod 2 ^ 32 <? 2 ^ 31 then z mod 2 ^ 32 else z mod 2 ^ 32 - 2 ^ 32) mod 2 ^ 32 = z mod 2 ^ 32) as Hm.
    { intros z. destruct (_ <? _); [by rewrite Zmod_mod|]. rewrite Zminus_mod, Z_mod_same_full, Z.sub_0_r. by rewrite !Zmod_mod. }
    unfold ActiveBTSessions. cbn [e_bt]. rewrite <- (Zplus_mod_idemp_l _ (-1)), Hm, Zplus_mod_idemp_l.
    replace (e_bt e + 1 + -1) with (e_bt e) by lia. destruct (Z.ltb_spec (e_bt e mod 2 ^ 32) (2 ^ 31)) as [Hlt|Hge]; Z.to_euclidean_division_equations; lia.
  - apply add_all_spec.
Qed.

(** ** The quota *)

(** The quota file fills the budget.  When it exists and the blocks fit, its size and
    that of the store make up the limit exactly, and it is empty when they do not; but a
    file that does not exist is not created, so that setting a budget shows nothing until
    something else makes the file.  A limit that is not positive changes nothing. *)
Theorem quota_balloon `{Badger.Badger} limit physical bluetooth store quota :
  let '(store', quota') := ConfigureStorage limit physical bluetooth (store, quota) in
  let used := Badger.DiskUsageBytes store' in
  (limit <= 0 -> store' = store /\ quota' = quota) /\
  (0 < limit -> Badger.storageLimit store' = limit /\ Badger.db store' = Badger.db store /\
     Badger.StorageLimitBytes store' = limit /\
     Badger.reservations store' !! TagPhysical = Some physical /\
     Badger.reservations store' !! TagBluetooth = Some bluetooth /\
     Badger.reservations store' !! TagLan = Some (Z.quot bluetooth 2) /\
     (quota = None -> quota' = None) /\
     (forall size, quota = Some size -> limit < 2 ^ 63 -> 0 <= used < 2 ^ 63 -> quota' = Some (Z.max 0 (limit - used)))).
Proof.
  unfold ConfigureStorage. destruct (Z.leb_spec limit 0) as [Hl|Hl]; [split; [done|lia]|].
  split; [lia|]. intros _. set (store' := Badger.WithReservations _ _).
  assert (Badger.StorageLimitBytes store' = limit) as Hlim.
  { unfold Badger.StorageLimitBytes, store'. cbn. destruct (Z.eqb_spec limit 0); [lia|]. done. }
  split_and!; [done|done|done|done|done|done| |].
  - by intros ->.
  - intros size -> Hmax Hused. unfold syncQuotaFile. rewrite Hlim. rewrite to_s64_id by (split; lia).
    f_equal. destruct (Z.ltb_spec (limit - Badger.DiskUsageBytes store') 0); lia.
Qed.

(** ** At concrete inputs *)

#[local] Instance peerEntry_eq : EqDecision peerEntry.
Proof. solve_decision. Defined.

#[local] Program Instance peerEntry_countable : Countable peerEntry :=
  inj_countable'
    (fun e => (pe_URL e, pe_Source e, pe_Blocked e, (pe_AddedAt e, pe_LastSync e, pe_Failures e), (pe_LastPulled e, pe_LastPushed e, pe_LastError e)))
    (fun '(u, s, b, (a, l, f), (pl, ps, err)) => {|
       pe_URL := u; pe_Source := s; pe_Blocked := b; pe_AddedAt := a; pe_LastSync := l; pe_Failures := f;
       pe_LastPulled := pl; pe_LastPushed := ps; pe_LastError := err |}) _.
Next Obligation. by intros []. Qed.

Definition ref_EntriesJson : EntriesJson := {| enc_entries l := Ok (ser l); dec_entries := deser |}.
Lemma ref_EntriesJsonLaws : @EntriesJsonLaws ref_EntriesJson.
Proof. split. intros l data _ E. apply (inj Ok) in E as <-. apply deser_ser. Qed.

Module MobileDemo.
Import FlatFile FlatFileFacts FlatFileFacts.Demo RelayFacts.
#[local] Existing Instances ref_Hashes ref_HashesLaws ref_GoFloat ref_RelayJson ref_EntriesJson ref_EntriesJsonLaws.
#[local] Instance ref_UrlParse : UrlParse := fun b => Ok {| url_Scheme := bs "http"; url_Host := drop 7 b |}.
#[local] Instance ref_ErrorText : GoErrorText := fun _ => bs "error".

Definition url_a : bytes := bs "http://a".
Definition url_b : bytes := bs "http://b".
Definition entry_b : peerEntry := synced (new_entry url_b (bs "lan") false 1) 1 0 [] 500.

(** [url_a] has never been synchronised, [url_b] has. *)
Definition tracker : peerTracker :=
  {| peers := <[url_a := new_entry url_a (bs "manual") false 1]> {[ url_b := entry_b ]}; peers_path := bs "peers.json" |}.

Definition order_of (pt : peerTracker) : list bytes := fst <$> map_to_list (peers pt).
Lemma order_of_iterates pt : iterates (order_of pt) (peers pt).
Proof.
  split; [apply NoDup_fst_map_to_list|]. intros u. unfold order_of. rewrite list_elem_of_fmap. split.
  - intros ([v e] & -> & Hin%elem_of_map_to_list). by exists e.
  - intros [e He]. exists (u, e). split; [done|]. by apply elem_of_map_to_list.
Qed.

Definition now : instant := {|
  in_now := time_Unix 100; in_end := time_Unix 101; in_pull_ctx _ := None; in_push_ctx _ := None;
  in_order := order_of; in_faults := {| sf_write := None; sf_rename := None |} |}.

Definition down (u : bytes) (rq : Request) (n : unit) : unit * result Reply := (n, Err ErrEOF).
Definition phone : engine FlatFileStore unit := {| e_pm := tracker; e_store := empty; e_net := tt; e_files := ∅; e_bt := 0 |}.

Lemma tracker_cases v e : peers tracker !! v = Some e -> v = url_a \/ (v = url_b /\ e = entry_b).
Proof.
  cbn [peers tracker]. intros [[<- _]|[_ [<- <-]%lookup_singleton_Some]]%lookup_insert_Some; [by left|by right].
Qed.

Lemma tracker_oldest : oldest url_a tracker.
Proof.
  split_and!; [done|done|]. exists (new_entry url_a (bs "manual") false 1). split_and!; [done|done|].
  intros v e Hv He _. destruct (tracker_cases v e He) as [->|[_ ->]]; [done|]. vm_compute. reflexivity.
Qed.

Lemma pickPeer_spec_witness : pickPeer (order_of tracker) tracker <> [] /\ exists e, peers tracker !! pickPeer (order_of tracker) tracker = Some e.
Proof.
  destruct (pickPeer_spec (order_of tracker) tracker (order_of_iterates tracker) eq_refl) as [[Hn _] Hp].
  assert (pickPeer (order_of tracker) tracker <> []) as Hne.
  { intros E. specialize (Hn E url_a). discriminate Hn. }
  split; [exact Hne|]. destruct (Hp Hne) as (e & He & _). exists e. exact He.
Defined.

Lemma mobile_round_spec_witness : exists e' : engine FlatFileStore unit,
  doSyncRound down (fun _ => None) 2 now phone = Some e' /\ e_files e' = ∅ /\
  pe_Failures <$> peers (e_pm e') !! url_a = Some 1.
Proof.
  destruct (doSyncRound down (fun _ => None) 2 now phone) as [e'|] eqn:E; [|vm_compute in E; discriminate].
  exists e'. split; [reflexivity|]. pose proof (oldest_pick _ _ _ tracker_oldest (order_of_iterates tracker)) as Hpick.
  destruct (mobile_round_spec down (fun _ => None) 2 now phone e' E) as [[Hu _]|(_ & _ & n & ids & err & Hp & Herr)].
  - change (pickPeer (order_of tracker) tracker = []) in Hu. rewrite Hpick in Hu. discriminate Hu.
  - change (in_order now (e_pm phone)) with (order_of tracker) in *. change (e_pm phone) with tracker in *. rewrite Hpick in *.
    destruct err as [err|].
    + destruct Herr as (_ & Hf & Hk). split; [exact Hf|]. rewrite (Hk url_a). reflexivity.
    + vm_compute in Hp. discriminate Hp.
Defined.

Lemma failing_peer_starves_witness : exists e' : engine FlatFileStore unit,
  rounds down (fun _ => None) 2 [now; now; now] phone = Some e' /\ pe_Failures <$> peers (e_pm e') !! url_a = Some 3 /\
  peers (e_pm e') !! url_b = Some entry_b.
Proof.
  destruct (failing_peer_starves down (fun _ => None) 2 empty url_a ltac:(reflexivity) BluetoothFacts.BluetoothDemo.empty_inv
    ltac:(vm_compute; lia)
    ltac:(intros nw t cur Htok; cbn [store_ListBlocks FlatFile_Store]; unfold FlatFile.ListBlocks;
          rewrite (parse_page_token_valid empty t cur Htok); cbn; by destruct (collect _ _ _ _ _))
    [now; now; now] phone tracker_oldest eq_refl
    ltac:(repeat (apply Forall_cons; split; [exact order_of_iterates|]); apply Forall_nil_2))
    as (e' & Hr & _ & _ & _ & Hother & _ & _ & Hf).
  exists e'. split; [exact Hr|]. split.
  - apply (Hf 0); [reflexivity|lia|]. reflexivity.
  - rewrite (Hother url_b ltac:(discriminate)). reflexivity.
Defined.

Lemma tracker_plain : map_Forall (fun u e => pe_URL e = u /\ plain_entry e) (peers tracker).
Proof.
  cbn [peers tracker]. apply map_Forall_insert_2; [|apply map_Forall_singleton];
    (split; [reflexivity|split_and!; vm_compute; repeat constructor]).
Qed.

Lemma mobile_peers_file_witness :
  peers (load None (save (order_of tracker) {| sf_write := None; sf_rename := None |} tracker ∅) (newPeerTracker (bs "peers.json"))) !! url_b
  = Some entry_b.
Proof.
  assert (exists data, enc_entries (omap (fun u => peers tracker !! u) (order_of tracker)) = Ok data) as [data Hdata]
    by (eexists; cbn [enc_entries ref_EntriesJson]; reflexivity).
  rewrite (proj1 (mobile_peers_file (order_of tracker) tracker ∅ data (newPeerTracker (bs "peers.json"))
    (order_of_iterates tracker) tracker_plain Hdata eq_refl eq_refl) url_b). reflexivity.
Defined.

Lemma bt_session_spec_witness : exists e' : engine FlatFileStore unit,
  RunBluetoothSession now (fun s us => (s, ([bs "http://c/"], None))) phone = (e', None) /\ ActiveBTSessions e' = 0.
Proof.
  pose proof (bt_session_spec now (fun s us => (s, ([bs "http://c/"], @None error))) phone ltac:(split; discriminate || reflexivity)) as Hb.
  destruct (RunBluetoothSession now _ phone) as [e' err]. destruct Hb as (_ & -> & Hc & _). exists e'. split; [reflexivity|exact Hc].
Defined.
End MobileDemo.
