(* ===== verification/Strconv.v ===== *)
(** Decimal numbers as the handlers read them from a query ([strconv.ParseInt] and
    [strconv.Atoi], whose errors the handlers ignore). *)
From Stdlib Require Import String.
From S2P Require Import Prelude Text Net.

(** The outcome of a conversion: the value with no error, a syntax error, or a range error. *)
Inductive num := n_ok (v : Z) | n_syntax | n_range.

(** The loop of [ParseUint] in base 10 and 64 bits: the first digit that makes the value
    too large ends it, whatever follows. *)
Fixpoint ParseUint_loop (s : bytes) (n : Z) : num :=
  match s with
  | [] => n_ok n
  | c :: s' =>
      match digit c with
      | None => n_syntax
      | Some d => if 2 ^ 64 <=? n * 10 + d then n_range else ParseUint_loop s' (n * 10 + d)
      end
  end.

Definition ParseUint (s : bytes) : num := match s with [] => n_syntax | _ => ParseUint_loop s 0 end.

(** [v, _ := strconv.ParseInt(s, 10, 64)], and [Atoi] alike: zero on a syntax error, the
    nearest value on a range error. *)
Definition ParseInt (s : bytes) : Z :=
  let '(neg, s) := match s with
                   | c :: s' => if bool_decide (c = x2b) then (false, s')
                                else if bool_decide (c = x2d) then (true, s') else (false, s)
                   | [] => (false, s)
                   end in
  match ParseUint s with
  | n_syntax => 0
  | n_range => if neg : bool then - 2 ^ 63 else 2 ^ 63 - 1
  | n_ok un =>
      if neg : bool then (if 2 ^ 63 <? un then - 2 ^ 63 else - un)
      else if 2 ^ 63 <=? un then 2 ^ 63 - 1 else un
  end.

Lemma digit_range c d : digit c = Some d -> 0 <= d < 10.
Proof.
  unfold digit, in_range. destruct (_ && _) eqn:E; [|done]. intros [= <-].
  apply andb_true_iff in E as [E1%Z.leb_le E2%Z.leb_le]. lia.
Qed.

Lemma ParseUint_loop_spec s n : 0 <= n < 2 ^ 64 ->
  match ParseUint_loop s n with n_ok v => n <= v < 2 ^ 64 | _ => True end.
Proof.
  revert n. induction s as [|c s IH]; intros n Hn; cbn [ParseUint_loop]; [lia|].
  destruct (digit c) as [d|] eqn:Ed; [|done]. apply digit_range in Ed.
  destruct (Z.leb_spec (2 ^ 64) (n * 10 + d)); [done|].
  specialize (IH (n * 10 + d) ltac:(lia)). destruct (ParseUint_loop s _); [lia|done|done].
Qed.

(** Whatever the query holds, the value is that of an [int64]. *)
Lemma ParseInt_range s : in_s64 (ParseInt s).
Proof.
  unfold ParseInt. destruct (match s with [] => _ | _ => _ end) as [neg r].
  unfold ParseUint, in_s64. destruct r as [|c r]; [lia|].
  pose proof (ParseUint_loop_spec (c :: r) 0 ltac:(lia)). destruct (ParseUint_loop (c :: r) 0) as [v| |].
  - destruct neg; [destruct (Z.ltb_spec (2 ^ 63) v); lia|destruct (Z.leb_spec (2 ^ 63) v); lia].
  - lia.
  - destruct neg; lia.
Qed.

Example ParseInt_samples :
  ParseInt (bs "42") = 42 /\ ParseInt (bs "-7") = -7 /\ ParseInt (bs "+5") = 5 /\ ParseInt [] = 0 /\ ParseInt (bs "-") = 0 /\
  ParseInt (bs "12x") = 0 /\ ParseInt (bs "9223372036854775808") = 2 ^ 63 - 1 /\
  ParseInt (bs "-9223372036854775809") = - 2 ^ 63 /\ ParseInt (bs "99999999999999999999x") = 2 ^ 63 - 1.
Proof. split_and!; reflexivity. Qed.
