(* ===== verification/Webapp.v ===== *)
(** The web application of a relay ([transport/relay/webapp.go]) and the routing of all its
    requests ([ServeHTTP], [routes]): pages, the listing of blocks with their content, the
    lookup and the submission of single blocks. *)
From Stdlib Require Import String.
From S2P Require FlatFile FlatFileFacts BluetoothFacts.
From S2P Require Import Prelude Codec Block Store Bloom Text Net Strconv Relay RelayFacts.

Definition StatusCreated : Z := 201.
Definition StatusNoContent : Z := 204.

Record blockItem := {
  bi_ID : bytes;
  bi_WorkFactor : Z;
  bi_CreatedAt : Z;
  bi_Stamp : bytes;
  bi_Payload : bytes;
}.

(** The replies: the values that are encoded as JSON, pages, and those of the protocol. *)
Inductive web_reply :=
  | web_page (name : string)
  | web_error (status : Z) (msg : string)
  | web_failure (e : error)
  | web_list (blocks : list blockItem) (next resume : bytes)
  | web_block (id stamp payload : bytes) (wf : Z)
  | web_created (id : bytes) (wf : Z)
  | web_protocol (rs : Response)
  | web_no_content.

Definition reply_status (r : web_reply) : Z :=
  match r with
  | web_page _ | web_list _ _ _ | web_block _ _ _ _ => StatusOK
  | web_error status _ => status
  | web_failure _ => StatusInternalServerError
  | web_created _ _ => StatusCreated
  | web_protocol rs => rs_status rs
  | web_no_content => StatusNoContent
  end.

(** The parameters of a listing, as the query holds them. *)
Record list_query := { q_since : bytes; q_page_token : bytes; q_pow_floor : bytes; q_limit : bytes }.

Definition defaultLimit : Z := 200.
Definition maxLimit : Z := 500.

(** The floor and the limit that a listing uses. *)
Definition list_floor (relayFloor : Z) (q : list_query) : Z :=
  let powFloor := ParseInt (q_pow_floor q) in if powFloor <? relayFloor then relayFloor else powFloor.
Definition list_limit (q : list_query) : Z :=
  let limit := ParseInt (q_limit q) in
  let limit := if limit <=? 0 then defaultLimit else limit in
  if maxLimit <? limit then maxLimit else limit.

Section Webapp.
Context `{Hashes, RelayJson} {S : Type} `{Store S}.
Context (now : Z).

Definition item_of (ref : BlockRef) (stamp : Stamp) (payload : Payload) : blockItem := {|
  bi_ID := hex_encode (br_ID ref); bi_WorkFactor := br_WorkFactor ref; bi_CreatedAt := br_CreatedAt ref;
  bi_Stamp := b64_encode StdEncoding stamp; bi_Payload := b64_encode StdEncoding payload |}.

(** The loop over the references: the items and the token of the last one. *)
Definition add_item (st : S) (acc : list blockItem * bytes) (ref : BlockRef) : list blockItem * bytes :=
  match store_Get now st (br_ID ref) with
  | Err _ => acc
  | Ok (stamp, payload) => (acc.1 ++ [item_of ref stamp payload], Token ref)
  end.

Definition handleListBlocks (s : Server S) (q : list_query) : web_reply :=
  let since := time_Unix (ParseInt (q_since q)) in
  match store_ListBlocks now (sv_store s) (q_page_token q) (list_limit q) (list_floor (sv_powFloor s) q) since with
  | Err e => web_failure e
  | Ok (nextToken, refs) =>
      let '(items, resumeToken) := foldl (add_item (sv_store s)) ([], []) refs in
      web_list items nextToken resumeToken
  end.

Definition handleGetBlock (s : Server S) (hexID : bytes) : web_reply :=
  match hex_decode hexID with
  | Err _ => web_error StatusBadRequest "invalid block id"
  | Ok idBytes =>
      if negb (length idBytes =? IDSize)%nat then web_error StatusBadRequest "invalid block id"
      else
        match store_Get now (sv_store s) idBytes with
        | Err e => if errors_Is e ErrNotFound then web_error StatusNotFound "block not found" else web_failure e
        | Ok (stamp, payload) =>
            web_block (hex_encode idBytes) (b64_encode StdEncoding stamp) (b64_encode StdEncoding payload) (WorkFactor stamp payload)
        end
  end.

(** [req] is the outcome of decoding the body: stamp and payload in base 64. *)
Definition handleSubmitBlock (s : Server S) (req : result (bytes * bytes)) : Server S * web_reply :=
  match req with
  | Err _ => (s, web_error StatusBadRequest "invalid JSON")
  | Ok (stamp64, payload64) =>
      match b64_decode StdEncoding stamp64 with
      | Err _ => (s, web_error StatusBadRequest "invalid stamp")
      | Ok stampBytes =>
          if negb (length stampBytes =? StampSize)%nat then (s, web_error StatusBadRequest "invalid stamp")
          else
            match b64_decode StdEncoding payload64 with
            | Err _ => (s, web_error StatusBadRequest "invalid payload")
            | Ok payloadBytes =>
                if negb (length payloadBytes =? PayloadSize)%nat then (s, web_error StatusBadRequest "invalid payload")
                else
                  let stamp := copy_at 0 stampBytes (replicate StampSize x00) in
                  let payload := copy_at 0 payloadBytes (replicate PayloadSize x00) in
                  if WorkFactor stamp payload <? sv_powFloor s
                  then (s, web_error StatusForbidden "insufficient proof of work")
                  else
                    match store_Put now stamp payload TagPhysical (sv_store s) with
                    | (st, Err e) => (with_store s st, web_failure e)
                    | (st, Ok id) => (with_store s st, web_created (hex_encode id) (WorkFactor stamp payload))
                    end
            end
      end
  end.

(** ** All requests *)

(** What a relay is asked for; [web_v1] is a request of the protocol between nodes. *)
Inductive web_request :=
  | web_options
  | web_index
  | web_app
  | web_argon2
  | web_list_blocks (q : list_query)
  | web_get_block (hexID : bytes)
  | web_submit (req : result (bytes * bytes))
  | web_v1 (rq : Request).

Definition ServeHTTP (fuel : nat) (rq : web_request) (s : Server S) : option (Server S * web_reply) :=
  match rq with
  | web_options => Some (s, web_no_content)
  | web_index => Some (s, web_page "ui/index.html")
  | web_app => Some (s, web_page "ui/app.html")
  | web_argon2 => Some (s, web_page "ui/argon2.js")
  | web_list_blocks q => Some (s, handleListBlocks s q)
  | web_get_block hexID => Some (s, handleGetBlock s hexID)
  | web_submit req => Some (handleSubmitBlock s req)
  | web_v1 rq => (fun r => (r.1, web_protocol r.2)) <$> serve now fuel rq s
  end.

End Webapp.

(** ** Bounds of a listing *)

Lemma list_limit_bounds q : 1 <= list_limit q <= maxLimit.
Proof.
  unfold list_limit, maxLimit, defaultLimit. set (n := ParseInt _).
  destruct (Z.leb_spec n 0); [cbn; lia|]. destruct (Z.ltb_spec 500 n); lia.
Qed.

Lemma list_floor_max relayFloor q : list_floor relayFloor q = Z.max relayFloor (ParseInt (q_pow_floor q)).
Proof. unfold list_floor. destruct (Z.ltb_spec (ParseInt (q_pow_floor q)) relayFloor); lia. Qed.

(** ** Browsing *)

Definition with_page (q : list_query) (token : bytes) : list_query := {|
  q_since := q_since q; q_page_token := token; q_pow_floor := q_pow_floor q; q_limit := q_limit q |}.

Section Browse.
Context `{Hashes, RelayJson} {S : Type} `{StoreLaws S}.
Context (now : Z).

(** The item of a reference, when its block can be read. *)
Definition read_item (st : S) (ref : BlockRef) : option blockItem :=
  match store_Get now st (br_ID ref) with
  | Err _ => None
  | Ok (stamp, payload) => Some (item_of ref stamp payload)
  end.

Lemma add_items st refs acc :
  (foldl (add_item now st) acc refs).1 = acc.1 ++ omap (read_item st) refs.
Proof using Type.
  revert acc. induction refs as [|r refs IH]; intros acc; cbn [foldl omap list_omap]; [by rewrite app_nil_r|].
  rewrite IH. unfold add_item, read_item. destruct (store_Get now st (br_ID r)) as [[stamp payload]|]; [|done].
  cbn [fst]. by rewrite <- app_assoc.
Qed.

(** The token to resume with is that of the last block that could be read. *)
Lemma add_items_token st refs acc :
  (foldl (add_item now st) acc refs).2 = default acc.2 (last (omap (fun r => (fun _ => Token r) <$> read_item st r) refs)).
Proof using Type.
  revert acc. induction refs as [|r refs IH] using rev_ind; intros acc; [done|].
  rewrite foldl_app, omap_app. cbn [foldl omap list_omap]. unfold add_item at 1, read_item at 2.
  destruct (store_Get now st (br_ID r)) as [[stamp payload]|].
  - cbn [fst snd fmap option_fmap option_map]. by rewrite last_snoc.
  - cbn [fmap option_fmap option_map]. rewrite app_nil_r. apply IH.
Qed.

(** A browser that follows the tokens of the next page. *)
Fixpoint browse (fuel : nat) (s : Server S) (q : list_query) (items : list blockItem) : option (list blockItem) :=
  match fuel with
  | O => None
  | Datatypes.S fuel' =>
      match handleListBlocks now s q with
      | web_list l next _ => if decide (next = []) then Some (items ++ l) else browse fuel' s (with_page q next) (items ++ l)
      | _ => None
      end
  end.

Lemma browse_loop fuel s q token items r :
  page_loop (fun t => store_ListBlocks now (sv_store s) t (list_limit q) (list_floor (sv_powFloor s) q) (time_Unix (ParseInt (q_since q))))
    (fun e _ => Err e) (fun ref items => Ok (items ++ option_list (read_item (sv_store s) ref))) fuel token items = Some (Ok r) ->
  browse fuel s (with_page q token) items = Some r.
Proof using Type.
  revert token items. induction fuel as [|fuel IH]; intros token items; cbn [page_loop browse]; [done|].
  unfold handleListBlocks. cbn [with_page q_since q_page_token].
  change (list_limit (with_page q token)) with (list_limit q).
  change (list_floor (sv_powFloor s) (with_page q token)) with (list_floor (sv_powFloor s) q).
  destruct (store_ListBlocks _ _ _ _ _ _) as [[next refs]|e]; [|done].
  rewrite visit_all_pure. pose proof (add_items (sv_store s) refs ([], [])) as Hi.
  destruct (foldl (add_item now (sv_store s)) ([], []) refs) as [l resume]. cbn [fst] in Hi. subst l.
  assert (foldl (fun items ref => items ++ option_list (read_item (sv_store s) ref)) items refs
          = items ++ omap (read_item (sv_store s)) refs) as ->.
  { clear. revert items. induction refs as [|r refs IH]; intros items; cbn [foldl omap list_omap]; [by rewrite app_nil_r|].
    rewrite IH, <- app_assoc. by destruct (read_item (sv_store s) r). }
  case_decide; [by intros [= <-]|]. intros Hl. by apply IH in Hl.
Qed.

(** C25: A browser sees every block once.  Whatever page size it asks for, and whatever the
    query holds, following the tokens ends within one page more than there are blocks, and
    yields, in the order of the listing, every block at or above the floor of the relay and
    the one asked for, created since the time asked for, that can still be read; each with
    its id, work factor, stamp and payload. *)
Theorem web_browse_complete fuel (s : Server S) q :
  store_inv (sv_store s) ->
  (forall t cur, valid_token (store_index (sv_store s)) t cur ->
     is_ok (store_ListBlocks now (sv_store s) t (list_limit q) (list_floor (sv_powFloor s) q) (time_Unix (ParseInt (q_since q)))) = true) ->
  (length (store_index (sv_store s)) < fuel)%nat ->
  exists refs items,
    browse fuel s (with_page q []) [] = Some items /\
    ref_view <$> refs = entry_view <$> filter (fun e => meets (Z.max (sv_powFloor s) (ParseInt (q_pow_floor q))) (ParseInt (q_since q)) e = true)
                                         (store_index (sv_store s)) /\
    items = omap (read_item (sv_store s)) refs /\ 1 <= list_limit q <= maxLimit /\
    forall it, it ∈ items -> exists ref stamp payload, ref ∈ refs /\
      store_Get now (sv_store s) (br_ID ref) = Ok (stamp, payload) /\
      hex_decode (bi_ID it) = Ok (br_ID ref) /\ bi_WorkFactor it = br_WorkFactor ref /\
      b64_decode StdEncoding (bi_Stamp it) = Ok stamp /\ b64_decode StdEncoding (bi_Payload it) = Ok payload.
Proof using Type.
  intros Hinv Hok Hf.
  destruct (page_loop_complete (fun e (_ : list blockItem) => Err e)
    (fun ref items => Ok (items ++ option_list (read_item (sv_store s) ref))) now (sv_store s) (list_limit q)
    (list_floor (sv_powFloor s) q) (time_Unix (ParseInt (q_since q))) Hinv) with
    (fuel := fuel) (st := @nil blockItem) (f := fun ref items => items ++ option_list (read_item (sv_store s) ref))
    as (refs & Hv & Hl).
  - pose proof (list_limit_bounds q). lia.
  - rewrite Unix_time_Unix. apply ParseInt_range.
  - done.
  - exact Hok.
  - eapply Nat.le_lt_trans; [apply length_filter|done].
  - apply browse_loop in Hl. rewrite list_floor_max, Unix_time_Unix in Hv. exists refs, (omap (read_item (sv_store s)) refs).
    split_and!; [|exact Hv|done|apply list_limit_bounds|apply list_limit_bounds|].
    + rewrite Hl. f_equal. change (omap (read_item (sv_store s)) refs) with ([] ++ omap (read_item (sv_store s)) refs).
      generalize (@nil blockItem) as items. clear. induction refs as [|r refs IH]; intros items; cbn [foldl omap list_omap];
        [by rewrite app_nil_r|]. rewrite IH, <- app_assoc. by destruct (read_item (sv_store s) r).
    + intros it (ref & Hin & Hr)%list_elem_of_omap. unfold read_item in Hr.
      destruct (store_Get now (sv_store s) (br_ID ref)) as [[stamp payload]|] eqn:E; [|done]. apply (inj Some) in Hr as <-.
      exists ref, stamp, payload. split_and!; [done|done|apply hex_roundtrip|done|apply std_roundtrip|apply std_roundtrip].
Qed.
End Browse.

(** ** Submitting a block *)

Section Submit.
Context `{Hashes, RelayJson} {S : Type} `{Store S}.
Context (now : Z).

Lemma submit_block (s : Server S) stamp payload : is_Stamp stamp -> is_Payload payload ->
  handleSubmitBlock now s (Ok (b64_encode StdEncoding stamp, b64_encode StdEncoding payload))
  = if WorkFactor stamp payload <? sv_powFloor s then (s, web_error StatusForbidden "insufficient proof of work")
    else match store_Put now stamp payload TagPhysical (sv_store s) with
         | (st, Err e) => (with_store s st, web_failure e)
         | (st, Ok id) => (with_store s st, web_created (hex_encode id) (WorkFactor stamp payload))
         end.
Proof using Type.
  unfold is_Stamp, is_Payload. intros Hs Hp. unfold handleSubmitBlock. rewrite !std_roundtrip, Hs, Hp, !Nat.eqb_refl. cbn [negb].
  by rewrite !copy_at_whole by (by rewrite length_replicate).
Qed.

(** What the web application accepts.  A submission is refused with 400 when it does
    not hold a stamp and a payload of the right sizes and with 403 when it is below the
    floor, both without touching the store; otherwise the store decides.  A block that is
    accepted is filed under the tag of physical media, whose space is reserved, wherever it
    came from; the protocol between nodes never files one so. *)
Theorem web_submit_spec (s : Server S) req :
  let '(s', r) := handleSubmitBlock now s req in
  match r with
  | web_error status _ => s' = s /\ (status = StatusBadRequest \/ status = StatusForbidden)
  | web_created hexID wf => exists stamp64 payload64 stamp payload st id,
      req = Ok (stamp64, payload64) /\ b64_decode StdEncoding stamp64 = Ok stamp /\ b64_decode StdEncoding payload64 = Ok payload /\
      is_Stamp stamp /\ is_Payload payload /\ wf = WorkFactor stamp payload /\ sv_powFloor s <= wf /\
      store_Put now stamp payload TagPhysical (sv_store s) = (st, Ok id) /\ s' = with_store s st /\ hexID = hex_encode id
  | web_failure e => exists stamp payload st, store_Put now stamp payload TagPhysical (sv_store s) = (st, Err e) /\
      is_Stamp stamp /\ is_Payload payload /\ sv_powFloor s <= WorkFactor stamp payload /\ s' = with_store s st
  | _ => False
  end /\
  (sv_geoip s = None -> forall remote, origin_tag s remote <> TagPhysical).
Proof using Type.
  assert (sv_geoip s = None -> forall remote, origin_tag s remote <> TagPhysical) as Htag.
  { intros Hg remote. unfold origin_tag, tagFromRemoteAddr, ip_tag. rewrite Hg. destruct (ParseIP _); [by case_match|done]. }
  unfold handleSubmitBlock. destruct req as [[stamp64 payload64]|e]; [|split; [split; [done|by left]|done]].
  destruct (b64_decode StdEncoding stamp64) as [stamp|e] eqn:Es; [|split; [split; [done|by left]|done]].
  destruct (Nat.eqb_spec (length stamp) StampSize) as [Hs|]; [|split; [split; [done|by left]|done]]. cbn [negb].
  destruct (b64_decode StdEncoding payload64) as [payload|e] eqn:Ep; [|split; [split; [done|by left]|done]].
  destruct (Nat.eqb_spec (length payload) PayloadSize) as [Hp|]; [|split; [split; [done|by left]|done]]. cbn [negb].
  rewrite !copy_at_whole by (by rewrite length_replicate).
  destruct (Z.ltb_spec (WorkFactor stamp payload) (sv_powFloor s)); [split; [split; [done|by right]|done]|].
  destruct (store_Put now stamp payload TagPhysical (sv_store s)) as [st [id|e]] eqn:E; (split; [|done]).
  - exists stamp64, payload64, stamp, payload, st, id. done.
  - exists stamp, payload, st. done.
Qed.

End Submit.

(** What one relay shows, another accepts: an item of a listing, or the reply for a
    single block, submitted to a relay whose floor the block reaches is stored there with
    the same stamp and payload. *)
Theorem web_mirror `{Hashes, RelayJson} {S T : Type} `{Store S} `{Store T} now (s : Server S) (s' : Server T) ref stamp payload :
  is_ID (br_ID ref) -> is_Stamp stamp -> is_Payload payload ->
  store_Get now (sv_store s) (br_ID ref) = Ok (stamp, payload) ->
  sv_powFloor s' <= WorkFactor stamp payload ->
  exists it, read_item now (sv_store s) ref = Some it /\
    handleGetBlock now s (bi_ID it) = web_block (bi_ID it) (bi_Stamp it) (bi_Payload it) (WorkFactor stamp payload) /\
    handleSubmitBlock now s' (Ok (bi_Stamp it, bi_Payload it))
    = (with_store s' (store_Put now stamp payload TagPhysical (sv_store s')).1,
       match (store_Put now stamp payload TagPhysical (sv_store s')).2 with
       | Ok id => web_created (hex_encode id) (WorkFactor stamp payload)
       | Err e => web_failure e
       end).
Proof.
  intros Hid Hs Hp Hget Hf. exists (item_of ref stamp payload). split_and!.
  - unfold read_item. by rewrite Hget.
  - unfold handleGetBlock. cbn [item_of bi_ID bi_Stamp bi_Payload]. rewrite hex_roundtrip, Hid, Nat.eqb_refl, Hget. done.
  - cbn [item_of bi_Stamp bi_Payload]. rewrite submit_block by done.
    destruct (Z.ltb_spec (WorkFactor stamp payload) (sv_powFloor s')); [lia|].
    by destruct (store_Put _ _ _ _ _) as [st [id|e]].
Qed.

(** ** At concrete inputs *)

Module WebappDemo.
Import FlatFile FlatFileFacts FlatFileFacts.Demo BluetoothFacts.BluetoothDemo RelayDemo.
#[local] Existing Instances ref_Hashes ref_HashesLaws ref_GoFloat ref_RelayJson ref_RelayJsonLaws.

Definition any_page : list_query := {| q_since := []; q_page_token := []; q_pow_floor := bs "x"; q_limit := bs "1" |}.
Definition open_relay : Server FlatFileStore := {|
  sv_store := full; sv_powFloor := 0; sv_median := None; sv_geoip := None; sv_peerSource := None; sv_added := None |}.

Lemma web_browse_complete_witness : exists items, browse 0 2 open_relay any_page [] = Some items /\ items <> [].
Proof.
  destruct (web_browse_complete 0 2 open_relay any_page full_inv) as (refs & items & Hb & Hv & -> & _ & _).
  - intros t cur Ht. apply (lists full _ _ _ t cur); [by left|exact Ht].
  - exact full_length.
  - exists (omap (read_item 0 (sv_store open_relay)) refs). split; [exact Hb|].
    change (sv_store open_relay) with full in Hv. rewrite full_index in Hv.
    assert (length refs = 1%nat) as Hl by exact (eq_trans (eq_sym (length_fmap ref_view refs)) (f_equal length Hv)).
    destruct refs as [|r [|]]; [discriminate Hl| |discriminate Hl].
    assert (br_ID r = ref_id) as Hid by exact (inj Some _ _ (f_equal (fun l : list (ID * Z) => option_map fst (head l)) Hv)).
    unfold read_item. cbn [omap list_omap]. rewrite Hid. vm_compute. discriminate.
Defined.

Lemma web_mirror_witness : exists it : blockItem,
  handleSubmitBlock 0 relay (Ok (bi_Stamp it, bi_Payload it))
  = (with_store relay (store_Put 0 [x01; x02; x03; x04] ref_payload TagPhysical full).1,
     match (store_Put 0 [x01; x02; x03; x04] ref_payload TagPhysical full).2 with
     | Ok id => web_created (hex_encode id) (WorkFactor [x01; x02; x03; x04] ref_payload)
     | Err e => web_failure e
     end).
Proof.
  destruct (web_mirror 0 open_relay relay {| br_WorkFactor := 7; br_ID := ref_id; br_CreatedAt := 0; br_Tag := 0 |}
    [x01; x02; x03; x04] ref_payload eq_refl eq_refl ref_payload_ok) as (it & _ & _ & H3).
  - vm_compute. reflexivity.
  - vm_compute. discriminate.
  - exists it. exact H3.
Defined.
End WebappDemo.
