(* ===== verification/Api.v ===== *)
(** The HTTP API of a node ([client/api/server.go], [handlers.go]): the state of the server
    with its lock, the sessions, and the handlers of keystore, identities, channels and
    contacts.  A handler takes the decoded request and yields the state afterwards and an
    outcome: a reply, a panic, or waiting for ever for the lock. *)
From Stdlib Require Import String.
From S2P Require Import Prelude Codec Block Store Message Text IdPow Crypto MessageStore Keystore.

(** ** Replies *)

Definition StatusOK : Z := 200.
Definition StatusCreated : Z := 201.
Definition StatusAccepted : Z := 202.
Definition StatusNoContent : Z := 204.
Definition StatusBadRequest : Z := 400.
Definition StatusUnauthorized : Z := 401.
Definition StatusNotFound : Z := 404.
Definition StatusConflict : Z := 409.
Definition StatusInternalServerError : Z := 500.
Definition StatusServiceUnavailable : Z := 503.
Definition StatusGatewayTimeout : Z := 504.

Record identityResp := { iy_Name : bytes; iy_PublicKey : bytes; iy_PowStamp : bytes; iy_PowBits : Z }.
Record contactResp := { ct_Name : bytes; ct_PublicKey : bytes }.

Record msgResp := {
  mr_ID : Z;
  mr_BlockID : bytes;
  mr_SenderPub : bytes;
  mr_ThreadRefs : list bytes;
  mr_SentAt : bytes;
  mr_MsgType : Z;
  mr_Content : bytes;
  mr_Channel : bytes;
  mr_ReceivedAt : bytes;
  mr_SentTo : bytes;
  mr_DecryptedBy : bytes;
  mr_WorkFactor : Z;
  mr_IdPowBits : Z;
}.

(** What a tracked peer looks like, as the peer manager lists it. *)
Class PeerManager (P : Type) := {
  PeerInfo : Type;
  pm_AddPeer : bytes -> bytes -> P -> P * bool;
  pm_RemovePeer : bytes -> P -> P;
  pm_BlockPeer : bytes -> P -> P;
  pm_UnblockPeer : bytes -> P -> P;
  pm_ListPeers : P -> list PeerInfo;
  pm_Save : P -> P;
}.

(** The values that are encoded as JSON, by the shape of their body; [no_body] is a bare
    status, [raw] a body that is written as it is. *)
Inductive body (I : Type) :=
  | no_body
  | error_text (msg : string)
  | error_of (prefix : string) (e : error)
  | raw (b : bytes)
  | token_body (token : bytes)
  | identities (l : list identityResp)
  | mined (stamp : bytes) (bits : Z)
  | named_key (name pub : bytes)
  | names (l : list bytes)
  | name_body (name : bytes)
  | contacts (l : list contactResp)
  | messages (l : list msgResp)
  | message (m : msgResp)
  | found_body (n : Z)
  | block_ids (l : list bytes)
  | block_id (id : bytes)
  | pow_floor (n : Z)
  | boosted (wf : Z) (stamp : bytes)
  | peers (l : list I)
  | url_body (u : bytes)
  | status_body (btSessions : Z) (l : list I) (disk : option Z)
  | sync_started.
Arguments no_body {I}. Arguments error_text {I} msg. Arguments error_of {I} prefix e. Arguments raw {I} b.
Arguments token_body {I} token. Arguments identities {I} l. Arguments mined {I} stamp bits. Arguments named_key {I} name pub.
Arguments names {I} l. Arguments name_body {I} name. Arguments contacts {I} l. Arguments messages {I} l. Arguments message {I} m.
Arguments found_body {I} n. Arguments block_ids {I} l. Arguments block_id {I} id. Arguments pow_floor {I} n.
Arguments boosted {I} wf stamp. Arguments peers {I} l. Arguments url_body {I} u. Arguments status_body {I} btSessions l disk.
Arguments sync_started {I}.

(** [Running]: a loop needs more fuel or more draws than it was given. *)
Inductive outcome (I : Type) :=
  | Reply (status : Z) (b : body I)
  | Panic
  | Blocked
  | Running.
Arguments Reply {I} status b. Arguments Panic {I}. Arguments Blocked {I}. Arguments Running {I}.

(** ** The server *)

(** What the lock [mu] protects: the keystore and the keys the scraper was built with, both
    absent while locked, and the session tokens. *)
Record session := {
  ss_ks : option Keystore;
  ss_scraper : option (list Identity * list Channel);
  ss_tokens : gset bytes;
}.

(** The lock between two requests: the read locks that panics left held, and whether a
    writer is waiting, which keeps new readers out. *)
Record mutex := { mx_readers : nat; mx_waiting : bool }.

(** [a_gifts] are the goroutines of [sendPowGift] that have not run yet. *)
Record api (S D P : Type) := {
  a_blocks : S;
  a_msgs : D;
  a_session : session;
  a_mu : mutex;
  a_peers : option P;
  a_cache : gmap bytes Z;
  a_disk : disk;
  a_gifts : list (bytes * bytes);
}.
Arguments a_blocks {S D P}. Arguments a_msgs {S D P}. Arguments a_session {S D P}. Arguments a_mu {S D P}.
Arguments a_peers {S D P}. Arguments a_cache {S D P}. Arguments a_disk {S D P}. Arguments a_gifts {S D P}.
Arguments Build_api {S D P}.

Definition locked_session : session := {| ss_ks := None; ss_scraper := None; ss_tokens := ∅ |}.
Definition free_mutex : mutex := {| mx_readers := 0; mx_waiting := false |}.

Definition New {S D P : Type} (blocks : S) (msgs : D) (d : disk) : api S D P := {|
  a_blocks := blocks; a_msgs := msgs; a_session := locked_session; a_mu := free_mutex; a_peers := None;
  a_cache := ∅; a_disk := d; a_gifts := [] |}.

Section Setters.
Context {S D P : Type} (a : api S D P).
Definition with_blocks (x : S) : api S D P := {| a_blocks := x; a_msgs := a_msgs a; a_session := a_session a; a_mu := a_mu a;
  a_peers := a_peers a; a_cache := a_cache a; a_disk := a_disk a; a_gifts := a_gifts a |}.
Definition with_msgs (x : D) : api S D P := {| a_blocks := a_blocks a; a_msgs := x; a_session := a_session a; a_mu := a_mu a;
  a_peers := a_peers a; a_cache := a_cache a; a_disk := a_disk a; a_gifts := a_gifts a |}.
Definition with_session (x : session) : api S D P := {| a_blocks := a_blocks a; a_msgs := a_msgs a; a_session := x; a_mu := a_mu a;
  a_peers := a_peers a; a_cache := a_cache a; a_disk := a_disk a; a_gifts := a_gifts a |}.
Definition with_mu (x : mutex) : api S D P := {| a_blocks := a_blocks a; a_msgs := a_msgs a; a_session := a_session a; a_mu := x;
  a_peers := a_peers a; a_cache := a_cache a; a_disk := a_disk a; a_gifts := a_gifts a |}.
Definition SetPeerManager (x : option P) : api S D P := {| a_blocks := a_blocks a; a_msgs := a_msgs a; a_session := a_session a;
  a_mu := a_mu a; a_peers := x; a_cache := a_cache a; a_disk := a_disk a; a_gifts := a_gifts a |}.
Definition with_cache (x : gmap bytes Z) : api S D P := {| a_blocks := a_blocks a; a_msgs := a_msgs a; a_session := a_session a;
  a_mu := a_mu a; a_peers := a_peers a; a_cache := x; a_disk := a_disk a; a_gifts := a_gifts a |}.
Definition with_disk (x : disk) : api S D P := {| a_blocks := a_blocks a; a_msgs := a_msgs a; a_session := a_session a; a_mu := a_mu a;
  a_peers := a_peers a; a_cache := a_cache a; a_disk := x; a_gifts := a_gifts a |}.
Definition with_gifts (x : list (bytes * bytes)) : api S D P := {| a_blocks := a_blocks a; a_msgs := a_msgs a;
  a_session := a_session a; a_mu := a_mu a; a_peers := a_peers a; a_cache := a_cache a; a_disk := a_disk a; a_gifts := x |}.
End Setters.

Definition with_ks (k : Keystore) (s : session) : session :=
  {| ss_ks := Some k; ss_scraper := ss_scraper s; ss_tokens := ss_tokens s |}.

(** [rebuildScraper]; on a nil keystore it panics. *)
Definition rebuildScraper (s : session) : option session :=
  match ss_ks s with
  | None => None
  | Some k => Some {| ss_ks := Some k; ss_scraper := Some (ListIdentities k, Channels k); ss_tokens := ss_tokens s |}
  end.

(** ** The lock *)

Section Locking.
Context {S D P I : Type}.
#[local] Abbreviation handler := (api S D P -> api S D P * outcome I).

(** [mu.Lock] with a deferred [Unlock]: a writer waits for the readers that are left, and
    for the writers before it. *)
Definition Lock (k : handler) : handler := fun a =>
  if mx_waiting (a_mu a) || (0 <? mx_readers (a_mu a))%nat
  then (with_mu a {| mx_readers := mx_readers (a_mu a); mx_waiting := true |}, Blocked)
  else k a.

(** [mu.RLock] and [RUnlock] around a section that reads [f], without a deferred unlock: if
    it panics the lock stays held. *)
Definition RLock {A} (f : api S D P -> option A) (k : A -> handler) : handler := fun a =>
  if mx_waiting (a_mu a) then (a, Blocked)
  else
    match f a with
    | None => (with_mu a {| mx_readers := Datatypes.S (mx_readers (a_mu a)); mx_waiting := mx_waiting (a_mu a) |}, Panic)
    | Some x => k x a
    end.

Definition writeError (status : Z) (msg : string) : outcome I := Reply status (error_text msg).

Definition decode {A} (req : result A) (k : A -> handler) : handler := fun a =>
  match req with
  | Err e => (a, Reply StatusBadRequest (error_of "invalid JSON: " e))
  | Ok x => k x a
  end.

Definition fails (status : Z) (msg : string) : handler := fun a => (a, writeError status msg).

(** *** Authorisation *)

Definition bearer : bytes := bs "Bearer ".
Definition TrimPrefix (s p : bytes) : bytes := if HasPrefix s p then drop (length p) s else s.

(** [header] is the value of [Authorization]. *)
Definition authorised (header : bytes) (a : api S D P) : bool :=
  let token := TrimPrefix header bearer in
  bool_decide (token ∈ ss_tokens (a_session a)) && bool_decide (token <> []).

Definition auth (header : bytes) (next : handler) : handler :=
  RLock (fun a => Some (authorised header a))
    (fun ok => if ok : bool then next else fails StatusUnauthorized "invalid or missing token").
End Locking.

(** [strings.HasPrefix] on the value of [Origin]. *)
Definition isLocalOrigin (origin : bytes) : bool :=
  HasPrefix origin (bs "http://localhost") || HasPrefix origin (bs "http://127.0.0.1")
  || HasPrefix origin (bs "capacitor://") || HasPrefix origin (bs "ionic://").

(** ** What a request draws and meets *)

(** Readings of the clock, random draws and the faults of the file system. *)
Record env := {
  e_now : Z;
  e_salt : result bytes;            (* of a new keystore, a new password or an export *)
  e_nonce : result bytes;           (* of an export *)
  e_gen : result bytes;             (* [ed25519.GenerateKey] *)
  e_gens : nat -> result bytes;     (* the same while a keystore is migrated *)
  e_nonces : nat -> result bytes;   (* of a save *)
  e_io : save_io;
  e_stat : option error;            (* of [os.Stat] *)
  e_token : result bytes;           (* the 32 bytes of a token *)
  e_first : result bytes;           (* the stamp the mining of an identity starts from *)
  e_rounds : list idpow_round;
}.

Section Handlers.
Context `{Primitives, Hashes, Ed25519, KeystoreJson} {S : Type} `{Store S} {D : Type} `{MessageDB D} {P : Type} `{PeerManager P}.
Context (path : bytes).
#[local] Abbreviation handler := (api S D P -> api S D P * outcome PeerInfo).

(** [newToken] *)
Definition newToken (ev : env) : result bytes := b64_encode RawURLEncoding <$> e_token ev.

(** [ks.Save(s.ksPath)] *)
Definition save_ks (ev : env) (k : Keystore) (a : api S D P) : api S D P * result unit :=
  let '(d, r) := Save (e_nonces ev) (e_io ev) path k (a_disk a) in (with_disk a d, r).

(** *** Keystore and session *)

Definition handleCreate (ev : env) (req : result bytes) : handler :=
  decode req (fun password a =>
    if bool_decide (password = []) then fails StatusBadRequest "password required" a
    else
      match e_stat ev, a_disk a !! path with
      | None, Some _ => fails StatusConflict "keystore already exists; use /api/unlock" a
      | _, _ =>
          match NewKeystore (e_salt ev) password with
          | None => (a, Panic)
          | Some (Err _) => fails StatusInternalServerError "failed to create keystore" a
          | Some (Ok k) =>
              match save_ks ev k a with
              | (a, Err _) => fails StatusInternalServerError "failed to save keystore" a
              | (a, Ok _) => (a, Reply StatusCreated no_body)
              end
          end
      end).

Definition handleUnlock (ev : env) (req : result bytes) : handler :=
  decode req (fun password a =>
    match LoadKeystore (e_gens ev) (e_nonces ev) (e_io ev) path password (a_disk a) with
    | None => (a, Panic)
    | Some (d, Err e) =>
        if errors_Is e ErrNotExist
        then fails StatusNotFound "keystore not found; call /api/keystore/create first" (with_disk a d)
        else fails StatusUnauthorized "invalid password or corrupted keystore" (with_disk a d)
    | Some (d, Ok k) =>
        let a := with_disk a d in
        match newToken ev with
        | Err _ => fails StatusInternalServerError "token generation failed" a
        | Ok token =>
            Lock (fun a =>
              let s := {| ss_ks := Some k; ss_scraper := ss_scraper (a_session a);
                          ss_tokens := {[ token ]} ∪ ss_tokens (a_session a) |} in
              match rebuildScraper s with
              | None => (a, Panic)
              | Some s => (with_session a s, Reply StatusOK (token_body token))
              end) a
        end
    end).

Definition handleLock : handler :=
  Lock (fun a => (with_session a locked_session, Reply StatusNoContent no_body)).

(** The handlers that change the keystore: under the lock, [op] on the keystore, its error,
    the save, and for some the new scraper. *)
Definition change_ks {A} (ev : env) (op : Keystore -> option (Keystore * result A)) (on_err : error -> outcome PeerInfo)
    (rebuild : bool) (reply : A -> outcome PeerInfo) : handler :=
  Lock (fun a =>
    match ss_ks (a_session a) with
    | None => (a, Panic)
    | Some k =>
        match op k with
        | None => (a, Panic)
        | Some (k, Err e) => (with_session a (with_ks k (a_session a)), on_err e)
        | Some (k, Ok x) =>
            match save_ks ev k (with_session a (with_ks k (a_session a))) with
            | (a, Err _) => fails StatusInternalServerError "failed to save keystore" a
            | (a, Ok _) =>
                match (if rebuild then rebuildScraper (a_session a) else Some (a_session a)) with
                | None => (a, Panic)
                | Some s => (with_session a s, reply x)
                end
            end
        end
    end).

(** Operations that report whether they found something, and those that return an error. *)
Definition found_or (r : Keystore * bool) : option (Keystore * result unit) :=
  Some (r.1, if r.2 then Ok tt else Err ErrNotFound).
Definition error_or (r : Keystore * option error) : option (Keystore * result unit) :=
  Some (r.1, match r.2 with None => Ok tt | Some e => Err e end).

Definition handleChangePassword (ev : env) (req : result bytes) : handler :=
  decode req (fun newPassword =>
    if bool_decide (newPassword = []) then fails StatusBadRequest "new_password required"
    else
      change_ks ev (fun k => ChangePassword (e_salt ev) newPassword k ≫= error_or)
        (fun _ => writeError StatusInternalServerError "failed to change password") false
        (fun _ => Reply StatusNoContent no_body)).

Definition handleAddIdentity (ev : env) (req : result bytes) : handler :=
  decode req (fun name =>
    if bool_decide (name = []) then fails StatusBadRequest "name required"
    else
      change_ks ev (fun k => Some (Add name (e_gen ev) k)) (fun e => Reply StatusConflict (error_of "" e)) true
        (fun id => Reply StatusCreated (named_key name (b64_encode StdEncoding (PublicKey id))))).

Definition handleRemoveIdentity (ev : env) (name : bytes) : handler :=
  change_ks ev (fun k => found_or (Remove name k)) (fun _ => writeError StatusNotFound "identity not found") true
    (fun _ => Reply StatusNoContent no_body).

(** The request holds the bundle and the password. *)
Definition handleImportIdentity (ev : env) (req : result (bytes * bytes)) : handler :=
  decode req (fun '(bundle, password) =>
    if bool_decide (password = []) then fails StatusBadRequest "password required"
    else if (length bundle =? 0)%nat then fails StatusBadRequest "bundle required"
    else
      change_ks ev (ImportIdentity bundle password) (fun e => Reply StatusBadRequest (error_of "" e)) true
        (fun id => Reply StatusCreated (named_key (id_Name id) (b64_encode StdEncoding (PublicKey id))))).

Definition handleExportIdentity (ev : env) (name : bytes) (req : result bytes) : handler :=
  decode req (fun password =>
    if bool_decide (password = []) then fails StatusBadRequest "password required"
    else
      RLock (fun a =>
        k ← ss_ks (a_session a);
        verified ← VerifyPassword password k;
        if verified : bool then Some <$> ExportIdentity name password (e_salt ev) (e_nonce ev) k else Some None)
        (fun r a =>
           match r with
           | None => (a, writeError StatusUnauthorized "wrong password")
           | Some (Err e) => (a, Reply StatusNotFound (error_of "" e))
           | Some (Ok bundle) => (a, Reply StatusOK (raw bundle))
           end)).

(** *** Identities *)

Definition identity_pub (id : Identity) : bytes := copy_at 0 (PublicKey id) (replicate 32 x00).

Definition identity_resp (id : Identity) : identityResp :=
  let stamped := (0 <? length (id_IDPowStamp id))%nat in {|
  iy_Name := id_Name id;
  iy_PublicKey := b64_encode StdEncoding (PublicKey id);
  iy_PowStamp := if stamped then b64_encode RawURLEncoding (id_IDPowStamp id) else [];
  iy_PowBits := if stamped then IdentityWorkFactor (id_IDPowStamp id) (identity_pub id) else 0 |}.

Definition handleListIdentities : handler :=
  RLock (fun a => ListIdentities <$> ss_ks (a_session a))
    (fun ids a => (a, Reply StatusOK (identities (identity_resp <$> ids)))).

(** The two critical sections of [handleMineIdentityPoW], with the mining between them. *)
Definition handleMineIdentityPoW (ev : env) (name : bytes) : handler :=
  RLock (fun a => (fun k => GetIdentity k name) <$> ss_ks (a_session a))
    (fun id =>
       match id with
       | None => fails StatusNotFound "identity not found"
       | Some id => fun a =>
           match MineIdentityPoW (identity_pub id) (id_IDPowStamp id) (e_first ev) (e_rounds ev) with
           | None => (a, Running)
           | Some (_, _, Some e) => (a, Reply StatusServiceUnavailable (error_of "mining cancelled or failed: " e))
           | Some (stamp, bits, None) =>
               change_ks ev (fun k => error_or (SetIdentityPoW name stamp k)) (fun e => Reply StatusNotFound (error_of "" e)) false
                 (fun _ => Reply StatusOK (mined (b64_encode RawURLEncoding stamp) bits)) a
           end
       end).

(** [applyPowGift]: called by a scrape, its errors are dropped; [Some] is how it ends the
    scrape when it does not return. *)
Definition applyPowGift (ev : env) (identityName stamp : bytes) (a : api S D P) : api S D P * option (outcome PeerInfo) :=
  if mx_waiting (a_mu a) || (0 <? mx_readers (a_mu a))%nat
  then (with_mu a {| mx_readers := mx_readers (a_mu a); mx_waiting := true |}, Some Blocked)
  else
    match ss_ks (a_session a) with
    | None => (a, Some Panic)
    | Some k =>
        match GetIdentity k identityName with
        | None => (a, None)
        | Some id =>
            let pub := identity_pub id in
            let newBits := IdentityWorkFactor stamp pub in
            let curBits := if (0 <? length (id_IDPowStamp id))%nat then IdentityWorkFactor (id_IDPowStamp id) pub else 0 in
            if newBits <=? curBits then (a, None)
            else
              let '(k, _) := SetIdentityPoW identityName stamp k in
              ((save_ks ev k (with_session a (with_ks k (a_session a)))).1, None)
        end
    end.

(** *** Channels *)

Definition handleListChannels : handler :=
  RLock (fun a => Channels <$> ss_ks (a_session a)) (fun chs a => (a, Reply StatusOK (names (ch_Name <$> chs)))).

(** The request holds name and passphrase. *)
Definition handleAddChannel (ev : env) (req : result (bytes * bytes)) : handler :=
  decode req (fun '(name, passphrase) =>
    if bool_decide (name = []) || bool_decide (passphrase = []) then fails StatusBadRequest "name and passphrase required"
    else
      change_ks ev (fun k => Some (AddChannel name passphrase k)) (fun e => Reply StatusConflict (error_of "" e)) true
        (fun _ => Reply StatusCreated (name_body name))).

Definition handleRemoveChannel (ev : env) (name : bytes) : handler :=
  change_ks ev (fun k => found_or (RemoveChannel name k)) (fun _ => writeError StatusNotFound "channel not found") true
    (fun _ => Reply StatusNoContent no_body).

(** *** Contacts *)

Definition handleListContacts : handler :=
  RLock (fun a => ListContacts <$> ss_ks (a_session a))
    (fun cs a => (a, Reply StatusOK (contacts ((fun c => {| ct_Name := co_Name c;
                                                           ct_PublicKey := b64_encode StdEncoding (co_PublicKey c) |}) <$> cs)))).

(** The request holds name and public key. *)
Definition handleAddContact (ev : env) (req : result (bytes * bytes)) : handler :=
  decode req (fun '(name, pub64) =>
    match b64_decode StdEncoding pub64 with
    | Err _ => fails StatusBadRequest "invalid public_key encoding"
    | Ok pubBytes =>
        change_ks ev (fun k => Some (AddContact name pubBytes k)) (fun e => Reply StatusConflict (error_of "" e)) false
          (fun c => Reply StatusCreated (named_key (co_Name c) (b64_encode StdEncoding (co_PublicKey c))))
    end).

(** The public key in a path. *)
Definition path_key (pub64 : bytes) (k : bytes -> handler) : handler :=
  match b64_decode RawURLEncoding pub64 with
  | Err _ => fails StatusBadRequest "invalid pub_key"
  | Ok pubBytes => if negb (length pubBytes =? 32)%nat then fails StatusBadRequest "invalid pub_key" else k pubBytes
  end.

Definition handleRemoveContact (ev : env) (pub64 : bytes) : handler :=
  path_key pub64 (fun pubBytes =>
    change_ks ev (fun k => found_or (RemoveContact pubBytes k)) (fun _ => writeError StatusNotFound "contact not found") false
      (fun _ => Reply StatusNoContent no_body)).

(** [RenameContact] reports an error, or whether it found the contact. *)
Definition rename_or (r : Keystore * result bool) : option (Keystore * result unit) :=
  Some (r.1, match r.2 with Err e => Err e | Ok true => Ok tt | Ok false => Err ErrNotFound end).

Definition handleRenameContact (ev : env) (pub64 : bytes) (req : result bytes) : handler :=
  path_key pub64 (fun pubBytes =>
    decode req (fun name =>
      change_ks ev (fun k => rename_or (RenameContact pubBytes name k))
        (fun e => if bool_decide (e = ErrNotFound) then writeError StatusNotFound "contact not found"
                  else Reply StatusBadRequest (error_of "" e)) false
        (fun _ => Reply StatusNoContent no_body))).
End Handlers.
