(* ===== verification/ApiMessages.v ===== *)
(** The message handlers of the API ([client/api/handlers.go]): listing and looking up
    messages, scraping, sending to a key and to a channel, boosting a block, and the gifts of
    identity work; the handlers of peers and status ([peer_handlers.go],
    [status_handler.go]). *)
From Stdlib Require Import String.
From S2P Require Import Prelude Codec Block Store Message Text Strconv IdPow Crypto MessageStore Keystore Client Api.

(** [Time.UTC().Format(time.RFC3339)] *)
Class GoTimeFormat := format_RFC3339 : Z -> bytes.

Definition newline : byte := x0a.

(** ** The cache of identity work *)

Section Cache.
Context `{Hashes}.

Definition cache_key (senderPub stamp : bytes) : bytes :=
  b64_encode StdEncoding senderPub ++ bs ":" ++ b64_encode RawURLEncoding stamp.

Definition getIdPowBits (content senderPub : bytes) (cache : gmap bytes Z) : gmap bytes Z * Z :=
  match ParseSnkStamp content senderPub with
  | None => (cache, 0)
  | Some (stamp, bits) =>
      let key := cache_key senderPub stamp in
      match cache !! key with
      | Some v => (cache, v)
      | None => (<[key := bits]> cache, bits)
      end
  end.
End Cache.

(** The thread references up to the last that is set. *)
Fixpoint set_refs (refs : list bytes) : list bytes :=
  match refs with
  | [] => []
  | r :: refs' =>
      match set_refs refs' with
      | [] => if bool_decide (r = zero_ref) then [] else [r]
      | l => r :: l
      end
  end.

Section Messages.
Context `{Primitives, Hashes, Ed25519, KeystoreJson, GoTimeFormat} {S : Type} `{Store S} {D : Type} `{MessageDB D} {P : Type} `{PeerManager P}.
(** [median] and [usage] are the methods of the block store beyond the interface, when it
    has them. *)
Context (path : bytes) (median : option (S -> result Z)) (usage : option (S -> Z)).
#[local] Abbreviation handler := (api S D P -> api S D P * outcome PeerInfo).

(** ** Listing *)

(** What the header of a message is looked for in: a post has its subject first. *)
Definition header_content (m : StoredMessage) : bytes :=
  if sm_MsgType m =? MsgTypePost then
    match IndexByte (sm_Content m) newline with
    | Some nl => drop (Datatypes.S nl) (sm_Content m)
    | None => sm_Content m
    end
  else sm_Content m.

Definition buildMsgResp (now : Z) (m : StoredMessage) (a : api S D P) : api S D P * msgResp :=
  let anonymous := bool_decide (sm_SenderPub m = zero_pub) in
  let '(cache, bits) := if anonymous then (a_cache a, 0) else getIdPowBits (header_content m) (sm_SenderPub m) (a_cache a) in
  (with_cache a cache, {|
     mr_ID := sm_ID m;
     mr_BlockID := hex_encode (sm_BlockID m);
     mr_SenderPub := if anonymous then [] else b64_encode StdEncoding (sm_SenderPub m);
     mr_ThreadRefs := hex_encode <$> set_refs (sm_ThreadRefs m);
     mr_SentAt := match sm_SentAt m with
                  | Some t => if t =? time_zero then [] else format_RFC3339 t
                  | None => []
                  end;
     mr_MsgType := sm_MsgType m;
     mr_Content := b64_encode StdEncoding (sm_Content m);
     mr_Channel := sm_Channel m;
     mr_ReceivedAt := format_RFC3339 (sm_ReceivedAt m);
     mr_SentTo := match sm_SentTo m with Some b => b64_encode StdEncoding b | None => [] end;
     mr_DecryptedBy := sm_DecryptedBy m;
     mr_WorkFactor := match store_GetWorkFactor now (a_blocks a) (sm_BlockID m) with Ok wf => wf | Err _ => 0 end;
     mr_IdPowBits := bits |}).

(** The first loop of a listing. *)
Fixpoint build_all (now : Z) (msgs : list StoredMessage) (a : api S D P) : api S D P * list msgResp :=
  match msgs with
  | [] => (a, [])
  | m :: msgs' =>
      let '(a, r) := buildMsgResp now m a in
      let '(a, l) := build_all now msgs' a in (a, r :: l)
  end.

(** The state of the loop over boosted blocks: the server, the blocks seen, the messages. *)
Definition boosted_state : Type := (api S D P * gset bytes * list msgResp).

Definition add_boosted (now : Z) (ref : BlockRef) (st : boosted_state) : boosted_state :=
  let '(a, seen, out) := st in
  if bool_decide (br_ID ref ∈ seen) then st
  else
    match GetMessage (br_ID ref) (a_msgs a) with
    | Err _ | Ok None => st
    | Ok (Some m) =>
        let '(a, r) := buildMsgResp now m a in (a, {[ br_ID ref ]} ∪ seen, out ++ [r])
    end.

(** [after_id] and [wf_updated_since] as the query holds them. *)
Definition handleListMessages (fuel : nat) (ev : env) (after_id wf_updated_since : bytes) : handler := fun a =>
  let afterID := ParseInt after_id in
  let wfSinceUnix := ParseInt wf_updated_since in
  match ListMessagesAfter afterID (a_msgs a) with
  | Err _ => fails StatusInternalServerError "failed to list messages" a
  | Ok msgs =>
      let '(a, out) := build_all (e_now ev) msgs a in
      if 0 <? wfSinceUnix then
        let seen : gset bytes := list_to_set (sm_BlockID <$> msgs) in
        let blocks := a_blocks a in
        match page_loop (fun token => store_ListBlocks (e_now ev) blocks token 200 0 (time_Unix wfSinceUnix))
                (fun _ st => Ok st) (fun ref st => Ok (add_boosted (e_now ev) ref st)) fuel [] (a, seen, out) with
        | Some (Ok (a, _, out)) => (a, Reply StatusOK (messages out))
        | _ => (a, Running)
        end
      else (a, Reply StatusOK (messages out))
  end.

(** A block id in hexadecimal. *)
Definition hex_id (s : bytes) : option ID :=
  match hex_decode s with
  | Ok b => if (length b =? IDSize)%nat then Some b else None
  | Err _ => None
  end.

Definition handleGetMessage (ev : env) (hexID : bytes) : handler := fun a =>
  match hex_id hexID with
  | None => fails StatusBadRequest "invalid block_id" a
  | Some blockID =>
      match GetMessage blockID (a_msgs a) with
      | Err _ => fails StatusInternalServerError "failed to retrieve message" a
      | Ok None => fails StatusNotFound "message not found" a
      | Ok (Some m) => let '(a, r) := buildMsgResp (e_now ev) m a in (a, Reply StatusOK (message r))
      end
  end.

(** ** Scraping *)

(** What the body holds after it was decoded, errors ignored. *)
Record scrape_req := { sq_full : bool; sq_since : Z }.

(** The checkpoint before a scrape. *)
Definition prepare_checkpoint (req : scrape_req) (db : D) : D * option (string * error) :=
  if sq_full req then
    let resetTo := if 0 <? sq_since req then time_Unix (sq_since req) else time_zero in
    match SetCheckpoint resetTo db with
    | (db, Err e) => (db, Some ("reset checkpoint: "%string, e))
    | (db, Ok _) => (db, None)
    end
  else if 0 <? sq_since req then
    match GetCheckpoint db with
    | Err e => (db, Some ("get checkpoint: "%string, e))
    | Ok current =>
        if match current with None => true | Some t => t =? time_zero end then
          match SetCheckpoint (time_Unix (sq_since req)) db with
          | (db, Err e) => (db, Some ("set checkpoint: "%string, e))
          | (db, Ok _) => (db, None)
          end
        else (db, None)
    end
  else (db, None).

(** The gifts of a scrape, in the order they were found. *)
Fixpoint apply_gifts (ev : env) (gifts : list (bytes * bytes)) (a : api S D P) : api S D P * option (outcome PeerInfo) :=
  match gifts with
  | [] => (a, None)
  | (name, stamp) :: gifts' =>
      match applyPowGift path ev name stamp a with
      | (a, None) => apply_gifts ev gifts' a
      | r => r
      end
  end.

(** [now_save] and [scanStart] are further readings of the clock, [ctx] the state of the
    request's context before each page.  A gift is applied when it is found, which touches
    nothing the scrape reads; one that does not return ends the scrape there. *)
Definition handleScrape (fuel : nat) (ev : env) (now_save scanStart : Z) (ctx : nat -> option error) (req : scrape_req) : handler :=
  RLock (fun a => Some (ss_scraper (a_session a))) (fun scraper a =>
    match prepare_checkpoint req (a_msgs a) with
    | (db, Some (what, e)) => (with_msgs a db, Reply StatusInternalServerError (error_of what e))
    | (db, None) =>
        match scraper with
        | None => (with_msgs a db, Panic)
        | Some (ids, chs) =>
            let returns gifts := match (apply_gifts ev (reverse gifts) (with_msgs a db)).2 with None => true | Some _ => false end in
            match Scrape ids chs (e_now ev) now_save scanStart (a_blocks a) returns fuel ctx db with
            | None => (with_msgs a db, Running)
            | Some (st, err) =>
                match apply_gifts ev (reverse (sc_gifts st)) (with_msgs a (sc_db st)) with
                | (a, Some o) => (a, o)
                | (a, None) =>
                    match err with
                    | Some e => (a, Reply StatusInternalServerError (error_of "scrape failed: " e))
                    | None => (a, Reply StatusOK (found_body (sc_found st)))
                    end
                end
            end
        end
    end).

(** ** Sending *)

(** [powFloor] *)
Definition powFloor (blocks : S) : Z :=
  match median with
  | Some m => match m blocks with Ok wf => if 1 <? wf then wf - 1 else 0 | Err _ => 0 end
  | None => 0
  end.

Definition handlePowFloor : handler := fun a => (a, Reply StatusOK (pow_floor (powFloor (a_blocks a)))).

Record send_req := {
  sr_to : bytes;             (* the recipient's key in base 64, or the name of a channel *)
  sr_message : bytes;
  sr_sender : bytes;
  sr_reply_to : bytes;
  sr_forum_post : bool;      (* of messages to a channel, as is [sr_subject] *)
  sr_subject : bytes;
  sr_edit : bytes;
  sr_delete : bytes;
}.

(** Type and content of a message to a key. *)
Definition direct_content (req : send_req) : Z * bytes :=
  if bool_decide (sr_delete req <> []) then (MsgTypeDelete, sr_delete req)
  else if bool_decide (sr_edit req <> []) then (MsgTypeEdit, sr_edit req ++ newline :: sr_message req)
  else (MsgTypeText, sr_message req).

Definition channel_content (req : send_req) : Z * bytes :=
  if bool_decide (sr_delete req <> []) then (MsgTypeDelete, sr_delete req)
  else if bool_decide (sr_edit req <> []) then (MsgTypeEdit, sr_edit req ++ newline :: sr_message req)
  else if sr_forum_post req then
    (MsgTypePost, if bool_decide (sr_subject req <> []) then sr_subject req ++ newline :: sr_message req else sr_message req)
  else (MsgTypeText, sr_message req).

(** The message that is encrypted. *)
Definition outgoing (now : Z) (content : Z * bytes) (senderPub : bytes) (refs : list bytes) : MessagePayload := {|
  MsgType := content.1; Flags := 0; Timestamp := Unix now; SenderPub := senderPub; Signature := replicate 64 x00;
  ThreadRefs := refs; Content := content.2; mp_Channel := []; SentTo := []; DecryptedBy := [] |}.

(** The signer: absent for an anonymous message. *)
Definition resolve_sender (ks : option Keystore) (name : bytes) (k : option Identity -> handler) : handler :=
  if bool_decide (name = []) then k None
  else fun a =>
    match ks with
    | None => (a, Panic)
    | Some ks =>
        match GetIdentity ks name with
        | None => fails StatusBadRequest "sender_identity not found" a
        | Some id => k (Some id) a
        end
    end.

Definition sender_pub (signer : option Identity) : bytes :=
  match signer with Some id => copy_at 0 (PublicKey id) zero_pub | None => zero_pub end.

Definition no_refs : list bytes := replicate threadCount zero_ref.

(** The references of a reply. *)
Definition resolve_refs (reply_to : bytes) (k : list bytes -> handler) : handler :=
  if bool_decide (reply_to = []) then k no_refs
  else fun a =>
    match hex_id reply_to with
    | None => fails StatusBadRequest "invalid reply_to_block_id" a
    | Some replyID =>
        match GetMessage replyID (a_msgs a) with
        | Err _ => fails StatusInternalServerError "failed to look up reply target" a
        | Ok (Some m) => k (BuildThreadRefs replyID (sm_ThreadRefs m)) a
        | Ok None => k (<[0%nat := replyID]> no_refs) a
        end
    end.

(** Mining within the deadline and storing: the end that both ways of sending share. *)
Definition publish (ev : env) (rounds : list mine_round) (payload : result Payload) (k : ID -> handler) : handler := fun a =>
  match payload with
  | Err e => (a, Reply StatusBadRequest (error_of "" e))
  | Ok payload =>
      match MineStamp payload (powFloor (a_blocks a)) rounds with
      | None => (a, Running)
      | Some (_, _, Some e) => (a, Reply StatusInternalServerError (error_of "pow mining failed: " e))
      | Some (stamp, _, None) =>
          match store_Put (e_now ev) stamp payload TagPhysical (a_blocks a) with
          | (st, Err _) => fails StatusInternalServerError "failed to store block" (with_blocks a st)
          | (st, Ok id) => k id (with_blocks a st)
          end
      end
  end.

(** The copy of a sent message that is saved. *)
Definition sent_copy (mp : MessagePayload) (to name : bytes) : MessagePayload := {|
  MsgType := MsgType mp; Flags := Flags mp; Timestamp := Timestamp mp; SenderPub := SenderPub mp; Signature := Signature mp;
  ThreadRefs := ThreadRefs mp; Content := Content mp; mp_Channel := mp_Channel mp; SentTo := to; DecryptedBy := name |}.

(** [now_save] is the clock when the message is saved. *)
Definition handleSend (ev : env) (now_save : Z) (dr : draws) (rounds : list mine_round) (req : result send_req) : handler :=
  decode req (fun req =>
    if bool_decide (sr_to req = []) then fails StatusBadRequest "recipient_public_key required"
    else if bool_decide (sr_edit req = []) && bool_decide (sr_delete req = []) && bool_decide (sr_message req = [])
    then fails StatusBadRequest "message required"
    else
      match b64_decode StdEncoding (sr_to req) with
      | Err _ => fails StatusBadRequest "invalid recipient_public_key encoding"
      | Ok recipient =>
          if negb (length recipient =? 32)%nat then fails StatusBadRequest "invalid recipient_public_key encoding"
          else
            RLock (fun a => Some (ss_ks (a_session a))) (fun ks =>
              resolve_sender ks (sr_sender req) (fun signer =>
                resolve_refs (sr_reply_to req) (fun refs =>
                  let content := direct_content req in
                  if (V3MaxContent <? length content.2)%nat
                  then fails StatusBadRequest (if content.1 =? MsgTypeText then "message too long" else "content too long")
                  else
                    let mp := outgoing (e_now ev) content (sender_pub signer) refs in
                    let payload := match signer with
                                   | Some id => EncryptSigned dr recipient mp (id_SignKey id)
                                   | None => Encrypt dr recipient mp
                                   end in
                    publish ev rounds payload (fun id a =>
                      let '(db, _) := SaveMessage now_save id (sent_copy mp recipient (sr_sender req)) (a_msgs a) in
                      (with_msgs a db, Reply StatusCreated (block_ids [hex_encode id]))))))
      end).

Definition handleSendChannel (ev : env) (dr : channel_draws) (rounds : list mine_round) (req : result send_req) : handler :=
  decode req (fun req =>
    if bool_decide (sr_to req = []) then fails StatusBadRequest "channel_name required"
    else if bool_decide (sr_edit req = []) && bool_decide (sr_delete req = []) && bool_decide (sr_message req = [])
    then fails StatusBadRequest "message required"
    else
      RLock (fun a => (fun k => (k, Channels k)) <$> ss_ks (a_session a)) (fun '(ks, chs) =>
        match find_first (channel_named (sr_to req)) chs with
        | None => fails StatusNotFound "channel not found"
        | Some ch =>
            resolve_sender (Some ks) (sr_sender req) (fun signer =>
              resolve_refs (sr_reply_to req) (fun refs =>
                let mp := outgoing (e_now ev) (channel_content req) (sender_pub signer) refs in
                let payload := match signer with
                               | Some id => EncryptChannelSigned dr (ch_Key ch) mp (id_SignKey id)
                               | None => EncryptChannel dr (ch_Key ch) mp
                               end in
                publish ev rounds payload (fun id a => (a, Reply StatusCreated (block_id (hex_encode id))))))
        end)).

(** ** Boosting *)

(** [sendPowGift], a goroutine of its own. *)
Definition sendPowGift (ev : env) (dr : draws) (recipientPub stamp : bytes) (a : api S D P) : api S D P :=
  let mp := outgoing (e_now ev) (MsgTypeText, FormatPowGift stamp) zero_pub no_refs in
  match Encrypt dr recipientPub mp with
  | Err _ => a
  | Ok payload => with_blocks a (store_Put (e_now ev) (replicate StampSize x00) payload TagPhysical (a_blocks a)).1
  end.

(** What the mining of an identity stamp for the sender gives: the stamp, its bits, and the
    bits of the stamp the sender has. *)
Definition mine_gift (ev : env) (content senderPub : bytes) : option (bytes * Z * Z) :=
  let '(seed, seedBits) := default ([], 0) (ParseSnkStamp content senderPub) in
  match MineIdentityPoW senderPub seed (e_first ev) (e_rounds ev) with
  | None => None
  | Some (stamp, bits, _) => Some (stamp, bits, seedBits)
  end.

(** Both minings run for the same five seconds; the handler waits for both. *)
Definition handleBoost (ev : env) (rounds : list mine_round) (req : result bytes) : handler :=
  decode req (fun hexID =>
    match hex_id hexID with
    | None => fails StatusBadRequest "invalid block_id"
    | Some id => fun a =>
        match store_Get (e_now ev) (a_blocks a) id with
        | Err e =>
            if errors_Is e ErrNotFound then fails StatusNotFound "block not found" a
            else fails StatusInternalServerError "failed to retrieve block" a
        | Ok (_, payload) =>
            let currentWF := match store_GetWorkFactor (e_now ev) (a_blocks a) id with Ok wf => wf | Err _ => 0 end in
            let target := to_s64 (currentWF + 1) in
            let '(senderPub, msgContent) :=
              match GetMessage id (a_msgs a) with Ok (Some m) => (sm_SenderPub m, sm_Content m) | _ => (zero_pub, []) end in
            let hasSender := negb (bool_decide (senderPub = zero_pub)) in
            match MineStamp payload target rounds, (if hasSender then mine_gift ev msgContent senderPub else Some ([], 0, 0)) with
            | Some (stamp, wf, err), Some (gift, bits, seedBits) =>
                let a := if hasSender && (0 <? length gift)%nat && (seedBits <? bits)
                         then with_gifts a (a_gifts a ++ [(senderPub, gift)]) else a in
                match err with
                | Some _ => fails StatusGatewayTimeout "no improvement found in 5s — try again" a
                | None =>
                    match store_Put (e_now ev) stamp payload TagPhysical (a_blocks a) with
                    | (st, Err _) => fails StatusInternalServerError "failed to store boosted block" (with_blocks a st)
                    | (st, Ok _) =>
                        let newWF := match store_GetWorkFactor (e_now ev) st id with Ok actualWF => actualWF | Err _ => wf end in
                        (with_blocks a st, Reply StatusOK (boosted newWF (b64_encode StdEncoding stamp)))
                    end
                end
            | _, _ => (a, Running)
            end
        end
    end).

(** ** Peers and status *)

Definition handleListPeers : handler := fun a =>
  (a, Reply StatusOK (peers (match a_peers a with Some p => pm_ListPeers p | None => [] end))).

(** The handlers that need a peer manager. *)
Definition with_manager (k : P -> handler) : handler := fun a =>
  match a_peers a with
  | None => fails StatusServiceUnavailable "peer management not available" a
  | Some p => k p a
  end.

Definition handleAddPeer (req : result bytes) : handler :=
  with_manager (fun p => decode req (fun url a =>
    if bool_decide (url = []) then fails StatusBadRequest "url required" a
    else
      match pm_AddPeer url (bs "manual") p with
      | (p, false) => fails StatusConflict "peer already known or limit reached" (SetPeerManager a (Some p))
      | (p, true) => (SetPeerManager a (Some (pm_Save p)), Reply StatusCreated (url_body url))
      end)).

(** A peer named in a path: [op] on it, then the save. *)
Definition on_peer (op : bytes -> P -> P) (b64url : bytes) : handler :=
  with_manager (fun p a =>
    match b64_decode RawURLEncoding b64url with
    | Err _ => fails StatusBadRequest "invalid peer url encoding" a
    | Ok url => (SetPeerManager a (Some (pm_Save (op url p))), Reply StatusNoContent no_body)
    end).

Definition handleRemovePeer : bytes -> handler := on_peer pm_RemovePeer.
Definition handleBlockPeer : bytes -> handler := on_peer pm_BlockPeer.
Definition handleUnblockPeer : bytes -> handler := on_peer pm_UnblockPeer.

(** [bt] is the number of Bluetooth sessions, when a status provider is set. *)
Definition handleStatus (bt : option Z) : handler := fun a =>
  (a, Reply StatusOK (status_body (default 0 bt) (match a_peers a with Some p => pm_ListPeers p | None => [] end)
                        ((fun du => du (a_blocks a)) <$> usage))).

Definition handleSync (bt : option Z) : handler := fun a =>
  match bt with
  | None => fails StatusServiceUnavailable "sync not available" a
  | Some _ => (a, Reply StatusAccepted sync_started)
  end.
End Messages.
