(* ===== verification/ApiServe.v ===== *)
(** The routes of the API ([client/api/server.go]), and the server under concurrent
    requests: a request passes the check of its token first and runs its handler later, and
    what happens in between is arbitrary.  The peer tracker of the mobile engine is the
    peer manager behind the interface. *)
From Stdlib Require Import String.
From S2P Require Mobile.
From S2P Require Import Prelude Codec Block Store Message Text Net IdPow Crypto MessageStore Keystore Client Api ApiMessages.

(** ** Requests *)

(** What needs a token. *)
Inductive call :=
  | c_change_password (req : result bytes)
  | c_lock
  | c_list_identities
  | c_add_identity (req : result bytes)
  | c_import_identity (req : result (bytes * bytes))
  | c_export_identity (name : bytes) (req : result bytes)
  | c_mine_pow (name : bytes)
  | c_remove_identity (name : bytes)
  | c_list_channels
  | c_add_channel (req : result (bytes * bytes))
  | c_remove_channel (name : bytes)
  | c_list_messages (after_id wf_updated_since : bytes)
  | c_get_message (hexID : bytes)
  | c_pow_floor
  | c_boost (req : result bytes)
  | c_scrape (req : scrape_req)
  | c_send (req : result send_req)
  | c_send_channel (req : result send_req)
  | c_list_contacts
  | c_add_contact (req : result (bytes * bytes))
  | c_remove_contact (pub64 : bytes)
  | c_rename_contact (pub64 : bytes) (req : result bytes)
  | c_sync
  | c_add_peer (req : result bytes)
  | c_remove_peer (b64url : bytes)
  | c_block_peer (b64url : bytes)
  | c_unblock_peer (b64url : bytes).

(** All requests; [header] is the value of [Authorization]. *)
Inductive request :=
  | rq_options
  | rq_index
  | rq_create (req : result bytes)
  | rq_unlock (req : result bytes)
  | rq_status
  | rq_list_peers
  | rq_call (header : bytes) (c : call).

(** What one request draws and meets, its clocks, and its fuel. *)
Record io `{Primitives} := {
  i_env : env;
  i_now_save : Z;
  i_scanStart : Z;
  i_ctx : nat -> option error;
  i_draws : draws;
  i_channel_draws : channel_draws;
  i_rounds : list mine_round;
  i_fuel : nat;
}.

Section Serve.
Context `{Primitives, Hashes, Ed25519, KeystoreJson, GoTimeFormat} {S : Type} `{Store S} {D : Type} `{MessageDB D} {P : Type} `{PeerManager P}.
(** The path of the keystore, the methods of the block store beyond the interface, the page
    of the user interface, and the count of Bluetooth sessions when there is a status
    provider. *)
Context (path : bytes) (median : option (S -> result Z)) (usage : option (S -> Z)) (indexHTML : bytes) (bt : option Z).
#[local] Abbreviation handler := (api S D P -> api S D P * outcome PeerInfo).

Definition handle (i : io) (c : call) : handler :=
  let ev := i_env i in
  match c with
  | c_change_password req => handleChangePassword path ev req
  | c_lock => handleLock
  | c_list_identities => handleListIdentities
  | c_add_identity req => handleAddIdentity path ev req
  | c_import_identity req => handleImportIdentity path ev req
  | c_export_identity name req => handleExportIdentity ev name req
  | c_mine_pow name => handleMineIdentityPoW path ev name
  | c_remove_identity name => handleRemoveIdentity path ev name
  | c_list_channels => handleListChannels
  | c_add_channel req => handleAddChannel path ev req
  | c_remove_channel name => handleRemoveChannel path ev name
  | c_list_messages after_id since => handleListMessages (i_fuel i) ev after_id since
  | c_get_message hexID => handleGetMessage ev hexID
  | c_pow_floor => handlePowFloor median
  | c_boost req => handleBoost ev (i_rounds i) req
  | c_scrape req => handleScrape path (i_fuel i) ev (i_now_save i) (i_scanStart i) (i_ctx i) req
  | c_send req => handleSend median ev (i_now_save i) (i_draws i) (i_rounds i) req
  | c_send_channel req => handleSendChannel median ev (i_channel_draws i) (i_rounds i) req
  | c_list_contacts => handleListContacts
  | c_add_contact req => handleAddContact path ev req
  | c_remove_contact pub64 => handleRemoveContact path ev pub64
  | c_rename_contact pub64 req => handleRenameContact path ev pub64 req
  | c_sync => handleSync bt
  | c_add_peer req => handleAddPeer req
  | c_remove_peer b64url => handleRemovePeer b64url
  | c_block_peer b64url => handleBlockPeer b64url
  | c_unblock_peer b64url => handleUnblockPeer b64url
  end.

(** The requests that need no token. *)
Definition serve_public (i : io) (rq : request) : handler :=
  match rq with
  | rq_options => fun a => (a, Reply StatusNoContent no_body)
  | rq_index => fun a => (a, Reply StatusOK (raw indexHTML))
  | rq_create req => handleCreate path (i_env i) req
  | rq_unlock req => handleUnlock path (i_env i) req
  | rq_status => handleStatus usage bt
  | rq_list_peers => handleListPeers
  | rq_call _ _ => fun a => (a, Running)
  end.

(** One request from its arrival to its end, with nothing in between. *)
Definition serve (i : io) (rq : request) : handler :=
  match rq with
  | rq_call header c => auth header (handle i c)
  | _ => serve_public i rq
  end.

(** Requests one after the other, with their outcomes. *)
Fixpoint serve_all (rqs : list (io * request)) (a : api S D P) : api S D P * list (outcome PeerInfo) :=
  match rqs with
  | [] => (a, [])
  | (i, rq) :: rqs' =>
      let '(a, o) := serve i rq a in
      let '(a, os) := serve_all rqs' a in (a, o :: os)
  end.

(** ** Requests at the same time *)

(** The calls that passed the check of their token and whose handlers have not run. *)
Record sys := { y_api : api S D P; y_pending : list call }.

Inductive event :=
  | ev_public (i : io) (rq : request)
  | ev_arrive (header : bytes) (c : call)
  | ev_run (n : nat) (i : io)
  | ev_gift (i : io).

(** The outcome is that of the request the event ends. *)
Definition sys_step (e : event) (y : sys) : sys * option (outcome PeerInfo) :=
  match e with
  | ev_public i rq =>
      match rq with
      | rq_call _ _ => (y, None)
      | _ => let '(a, o) := serve_public i rq (y_api y) in ({| y_api := a; y_pending := y_pending y |}, Some o)
      end
  | ev_arrive header c =>
      if mx_waiting (a_mu (y_api y)) then (y, Some Blocked)
      else if authorised header (y_api y) then ({| y_api := y_api y; y_pending := y_pending y ++ [c] |}, None)
      else (y, Some (writeError StatusUnauthorized "invalid or missing token"))
  | ev_run n i =>
      match y_pending y !! n with
      | None => (y, None)
      | Some c =>
          let '(a, o) := handle i c (y_api y) in
          ({| y_api := a; y_pending := delete n (y_pending y) |}, Some o)
      end
  | ev_gift i =>
      match a_gifts (y_api y) with
      | [] => (y, None)
      | (pub, stamp) :: gifts =>
          ({| y_api := sendPowGift (i_env i) (i_draws i) pub stamp (with_gifts (y_api y) gifts); y_pending := y_pending y |}, None)
      end
  end.

Definition sys_run (es : list event) (y : sys) : sys := foldl (fun y e => (sys_step e y).1) y es.
End Serve.
Arguments sys : clear implicits.

(** ** The tracker of the mobile engine as peer manager *)

Section MobilePeers.
Context `{UrlParse, Mobile.EntriesJson}.

(** The tracker and the file it is saved to; clock, order and faults are fixed. *)
Definition mobile_peers : Type := Mobile.peerTracker * GeoIP.files.

#[export] Instance mobile_PeerManager (i : Mobile.instant) : PeerManager mobile_peers := {
  PeerInfo := Mobile.PeerInfo;
  pm_AddPeer url source p := let '(pt, added) := Mobile.add url source (Mobile.in_now i) p.1 in ((pt, p.2), added);
  pm_RemovePeer url p := (Mobile.remove url p.1, p.2);
  pm_BlockPeer url p := (Mobile.block url (Mobile.in_now i) p.1, p.2);
  pm_UnblockPeer url p := (Mobile.unblock url p.1, p.2);
  pm_ListPeers p := Mobile.ListPeers (Mobile.in_order i p.1) p.1;
  pm_Save p := (p.1, Mobile.save (Mobile.in_order i p.1) (Mobile.in_faults i) p.1 p.2);
}.
End MobilePeers.
