(* ===== verification/ApiFacts.v ===== *)
(** Sessions and the lock of the API: what every handler keeps, that no request waits for the
    lock when requests do not overlap, and who gets past the check of the token. *)
From Stdlib Require Import String.
From S2P Require Import Prelude Codec Block Store Message Text Strconv IdPow Crypto MessageStore Keystore Client Api ApiMessages ApiServe.

(** ** What every handler keeps *)

(** A keystore whose key can be derived again without a panic. *)
Definition kdf_ok (k : Keystore) : Prop := 1 <= ks_kdfTime k /\ 1 <= ks_kdfThreads k.

(** Locked: no keys and no tokens.  Unlocked: a keystore and a scraper. *)
Definition session_ok (s : session) : Prop :=
  match ss_ks s with
  | None => ss_scraper s = None /\ ss_tokens s = ∅
  | Some k => is_Some (ss_scraper s) /\ kdf_ok k
  end.

Definition good {S D P} (a : api S D P) : Prop := session_ok (a_session a) /\ a_mu a = free_mutex.
Definition unlocked {S D P} (a : api S D P) : Prop := is_Some (ss_ks (a_session a)).

(** The session is another, but open to the same tokens. *)
Definition same_tokens {S D P} (a a' : api S D P) : Prop :=
  unlocked a' /\ ss_tokens (a_session a') = ss_tokens (a_session a).

(** A handler that keeps an unlocked server good and its session open, and answers, but for
    the panics that are [allowed]. *)
Definition safe {S D P I} (allowed : Prop) (h : api S D P -> api S D P * outcome I) : Prop :=
  forall a, good a -> unlocked a ->
    (good (h a).1 /\ same_tokens a (h a).1) /\ (h a).2 <> Blocked /\ ((h a).2 = Panic -> allowed).

(** A handler that leaves session and lock alone. *)
Definition aside {S D P I} (h : api S D P -> api S D P * outcome I) : Prop :=
  forall a, a_session (h a).1 = a_session a /\ a_mu (h a).1 = a_mu a /\ (h a).2 <> Blocked /\ (h a).2 <> Panic.

(** The state of session and lock is the one before. *)
Ltac stay :=
  match goal with
  | Ha : good ?a, Hu : unlocked ?a |- _ =>
      split; [split; [exact Ha|split; [exact Hu|reflexivity]]|split; [discriminate|first [discriminate|intros _; assumption]]]
  end.

Section Combinators.
Context {S D P I : Type}.
#[local] Abbreviation handler := (api S D P -> api S D P * outcome I).

Lemma aside_safe allowed (h : handler) : aside h -> safe allowed h.
Proof.
  intros Hh a [Hs Hm] Hu. destruct (Hh a) as (E1 & E2 & E3 & E4). split; [|by split].
  unfold good, same_tokens, unlocked. rewrite E1, E2. by split.
Qed.

Lemma aside_fails status msg : aside (fails status msg : handler).
Proof. by intros a. Qed.

Lemma aside_reply status b : aside ((fun a => (a, Reply status b)) : handler).
Proof. by intros a. Qed.

Lemma aside_decode {A} (req : result A) (k : A -> handler) : (forall x, aside (k x)) -> aside (decode req k).
Proof. intros Hk a. unfold decode. destruct req as [x|e]; [apply Hk|done]. Qed.

Lemma safe_decode {A} allowed (req : result A) (k : A -> handler) :
  (forall x, safe allowed (k x)) -> safe allowed (decode req k).
Proof. intros Hk a Ha Hu. unfold decode. destruct req as [x|e]; [by apply Hk|done]. Qed.

Lemma safe_if allowed (b : bool) (h1 h2 : handler) : safe allowed h1 -> safe allowed h2 -> safe allowed (if b then h1 else h2).
Proof. by destruct b. Qed.

Lemma aside_if (b : bool) (h1 h2 : handler) : aside h1 -> aside h2 -> aside (if b then h1 else h2).
Proof. by destruct b. Qed.

(** Taking the lock when it is free. *)
Lemma Lock_free (k : handler) a : a_mu a = free_mutex -> Lock k a = k a.
Proof. intros Hm. unfold Lock. by rewrite Hm. Qed.

Lemma safe_Lock allowed (k : handler) : safe allowed k -> safe allowed (Lock k).
Proof. intros Hk a Ha Hu. rewrite Lock_free by apply Ha. by apply Hk. Qed.

Lemma RLock_free {A} (f : api S D P -> option A) (k : A -> handler) a x :
  a_mu a = free_mutex -> f a = Some x -> RLock f k a = k x a.
Proof. intros Hm Hf. unfold RLock. by rewrite Hm, Hf. Qed.

Lemma safe_RLock {A} allowed (f : api S D P -> option A) (k : A -> handler) :
  (forall a, good a -> unlocked a -> is_Some (f a)) -> (forall x, safe allowed (k x)) -> safe allowed (RLock f k).
Proof.
  intros Hf Hk a Ha Hu. destruct (Hf a Ha Hu) as [x Hx]. rewrite (RLock_free f k a x) by (apply Ha || done). by apply Hk.
Qed.

(** Handlers that read the keystore under the read lock. *)
Lemma safe_reader {A} allowed (f : Keystore -> A) (k : A -> handler) :
  (forall x, safe allowed (k x)) -> safe allowed (RLock (fun a => f <$> ss_ks (a_session a)) k).
Proof. intros Hk. apply safe_RLock; [|done]. intros a _ [ks Hks]. by rewrite Hks. Qed.
End Combinators.

Create HintDb api.
#[export] Hint Resolve aside_safe aside_fails aside_reply aside_decode aside_if safe_decode safe_if safe_Lock safe_reader : api.

(** ** The handlers of the keystore *)

Section Keys.
Context `{Primitives, Hashes, Ed25519, KeystoreJson} {S : Type} `{Store S} {D : Type} `{MessageDB D} {P : Type} `{PeerManager P}.
Context (path : bytes).

(** An operation on the keystore that can be derived again keeps that, and panics only
    when [allowed]. *)
Definition kdf_step {A} (allowed : Prop) (op : Keystore -> option (Keystore * result A)) : Prop :=
  forall k, kdf_ok k -> match op k with None => allowed | Some (k', _) => kdf_ok k' end.

Lemma safe_change_ks {A} allowed ev (op : Keystore -> option (Keystore * result A)) on_err rebuild reply :
  kdf_step allowed op -> (forall e, on_err e <> Blocked /\ on_err e <> Panic) -> (forall x, reply x <> Blocked /\ reply x <> Panic) ->
  safe allowed (change_ks (S:=S) (D:=D) (P:=P) path ev op on_err rebuild reply).
Proof using Type.
  intros Hop Herr Hrep a Ha Hu. unfold change_ks. rewrite Lock_free by apply Ha.
  pose proof Ha as [Hs Hm]. pose proof Hu as [k Hk]. rewrite Hk. unfold session_ok in Hs. rewrite Hk in Hs. destruct Hs as [Hsc Hkdf].
  specialize (Hop k Hkdf). destruct (op k) as [[k' [x|e]]|]; [| |stay].
  - destruct (save_ks path ev k' _) as [a' r] eqn:Es. assert (a_session a' = with_ks k' (a_session a) /\ a_mu a' = a_mu a) as [E1 E2].
    { unfold save_ks in Es. destruct (Save _ _ _ _ _) as [d r']. apply pair_eq in Es as [<- _]. done. }
    assert (good a' /\ same_tokens a a') as Hg.
    { split; [split; [rewrite E1; exact (conj Hsc Hop)|by rewrite E2]|]. unfold same_tokens, unlocked. rewrite E1. split; [by exists k'|done]. }
    destruct r as [[]|e]; [|split; [exact Hg|by split]].
    rewrite E1. destruct rebuild; cbn [rebuildScraper with_ks ss_ks].
    + split; [|split; [apply Hrep|by intros ?%Hrep]].
      split; [split; [exact (conj (mk_is_Some _ _ eq_refl) Hop)|exact (eq_trans E2 Hm)]|split; [by exists k'|done]].
    + split; [|split; [apply Hrep|by intros ?%Hrep]].
      split; [split; [exact (conj Hsc Hop)|exact (eq_trans E2 Hm)]|split; [by exists k'|done]].
  - split; [|split; [apply Herr|by intros ?%Herr]]. split; [split; [exact (conj Hsc Hop)|done]|split; [by exists k'|done]].
Qed.

Lemma kdf_found allowed (f : Keystore -> Keystore * bool) :
  (forall k, kdf_ok k -> kdf_ok (f k).1) -> kdf_step allowed (fun k => found_or (f k)).
Proof using Type. intros Hf k Hk. by apply Hf. Qed.

Lemma kdf_result {A} allowed (f : Keystore -> Keystore * result A) :
  (forall k, kdf_ok k -> kdf_ok (f k).1) -> kdf_step allowed (fun k => Some (f k)).
Proof using Type. intros Hf k Hk. specialize (Hf k Hk). by destruct (f k). Qed.

Lemma deriveKey_some password salt time memory threads : 1 <= time -> 1 <= threads ->
  is_Some (deriveKey password salt time memory threads).
Proof using Type.
  intros H1' H2'. unfold deriveKey. destruct (Z.ltb_spec time 1); [lia|]. destruct (Z.ltb_spec threads 1); [lia|]. done.
Qed.

Lemma deriveKey_kdf password salt time memory threads key : deriveKey password salt time memory threads = Some key -> 1 <= time /\ 1 <= threads.
Proof using Type. unfold deriveKey. destruct (Z.ltb_spec time 1); [done|]. by destruct (Z.ltb_spec threads 1). Qed.

Lemma kdf_change_password allowed salt pw : kdf_step allowed (fun k => ChangePassword salt pw k ≫= error_or).
Proof using Type.
  intros k Hk. unfold ChangePassword. destruct salt as [salt|e]; [|done].
  destruct (deriveKey_some pw salt (ks_kdfTime k) (ks_kdfMemory k) (ks_kdfThreads k)) as [key ->]; [apply Hk|apply Hk|done].
Qed.

Lemma kdf_import bundle pw : kdf_step (exists k, ImportIdentity bundle pw k = None) (ImportIdentity bundle pw).
Proof using Type.
  intros k Hk. destruct (ImportIdentity bundle pw k) as [[k' r]|] eqn:E; [|by exists k].
  unfold ImportIdentity in E. repeat case_match; try done; by apply (inj Some), pair_eq in E as [<- _].
Qed.
End Keys.

(** ** Every handler *)

Ltac replies := intros; unfold writeError; split; discriminate.

Section All.
Context `{Primitives, Hashes, Ed25519, KeystoreJson, GoTimeFormat} {S : Type} `{Store S} {D : Type} `{MessageDB D} {P : Type} `{PeerManager P}.
Context (path : bytes) (median : option (S -> result Z)) (usage : option (S -> Z)) (indexHTML : bytes) (bt : option Z).
#[local] Abbreviation handler := (api S D P -> api S D P * outcome PeerInfo).

(** *** Messages *)

Lemma buildMsgResp_aside now m (a : api S D P) :
  let a' := (buildMsgResp now m a).1 in a_session a' = a_session a /\ a_mu a' = a_mu a /\ a_blocks a' = a_blocks a /\ a_msgs a' = a_msgs a.
Proof using Type. unfold buildMsgResp. by destruct (if bool_decide _ then _ else _) as [c b]. Qed.

Lemma build_all_aside now msgs (a : api S D P) :
  let a' := (build_all now msgs a).1 in a_session a' = a_session a /\ a_mu a' = a_mu a /\ a_blocks a' = a_blocks a /\ a_msgs a' = a_msgs a.
Proof using Type.
  revert a. induction msgs as [|m msgs IH]; intros a; [done|]. cbn [build_all].
  pose proof (buildMsgResp_aside now m a) as Hb. destruct (buildMsgResp now m a) as [a1 r]. specialize (IH a1).
  destruct (build_all now msgs a1) as [a2 l]. cbn in *.
  destruct IH as (-> & -> & -> & ->). by destruct Hb as (-> & -> & -> & ->).
Qed.

Lemma add_boosted_aside now ref (st : boosted_state (S:=S) (D:=D) (P:=P)) :
  let a' := (add_boosted now ref st).1.1 in
  a_session a' = a_session st.1.1 /\ a_mu a' = a_mu st.1.1 /\ a_blocks a' = a_blocks st.1.1 /\ a_msgs a' = a_msgs st.1.1.
Proof using Type.
  destruct st as [[a seen] out]. unfold add_boosted. case_bool_decide; [done|].
  destruct (GetMessage _ _) as [[m|]|]; [|done..]. pose proof (buildMsgResp_aside now m a) as Hb.
  by destruct (buildMsgResp now m a) as [a1 r].
Qed.

(** A loop whose visits and errors keep a property of the state keeps it. *)
Lemma page_loop_keeps {St} (Q : St -> Prop) lister on_err visit :
  (forall e st, Q st -> match on_err e st with Ok st' => Q st' | Err _ => True end) ->
  (forall r st, Q st -> match visit r st with Ok st' => Q st' | Err _ => True end) ->
  forall fuel token st, Q st -> match page_loop lister on_err visit fuel token st with Some (Ok st') => Q st' | _ => True end.
Proof using Type.
  intros He Hv fuel. induction fuel as [|fuel IH]; intros token st Hst; cbn [page_loop]; [done|].
  destruct (lister token) as [[next refs]|e]; [|specialize (He e st Hst); by destruct (on_err e st)].
  assert (match visit_all visit refs st with Ok st' => Q st' | Err _ => True end) as Hall.
  { clear -Hv Hst. revert st Hst. induction refs as [|r refs IH]; intros st Hst; cbn [visit_all]; [done|].
    specialize (Hv r st Hst). destruct (visit r st); cbn [mbind result_bind]; [by apply IH|done]. }
  destruct (visit_all visit refs st) as [st'|]; [|done]. case_decide; [done|]. by apply IH.
Qed.

Lemma handleListMessages_aside fuel ev after_id since : aside (handleListMessages fuel ev after_id since : handler).
Proof using Type.
  intros a. unfold handleListMessages. destruct (ListMessagesAfter _ _) as [msgs|]; [|done].
  pose proof (build_all_aside (e_now ev) msgs a) as (E1 & E2 & _ & _). destruct (build_all (e_now ev) msgs a) as [a1 out]. cbn [fst] in *.
  destruct (0 <? _); [|by split_and!].
  pose proof (page_loop_keeps (fun st : boosted_state (S:=S) (D:=D) (P:=P) => a_session st.1.1 = a_session a /\ a_mu st.1.1 = a_mu a)
    (fun token => store_ListBlocks (e_now ev) (a_blocks a1) token 200 0 (time_Unix (ParseInt since)))
    (fun _ st => Ok st) (fun ref st => Ok (add_boosted (S:=S) (D:=D) (P:=P) (e_now ev) ref st))) as Hl.
  specialize (Hl ltac:(done)). specialize (Hl ltac:(intros r st [? ?]; destruct (add_boosted_aside (e_now ev) r st) as (-> & -> & _ & _); done)).
  specialize (Hl fuel [] (a1, list_to_set (sm_BlockID <$> msgs), out) (conj E1 E2)).
  destruct (page_loop _ _ _ _ _ _) as [[[[a2 seen] out2]|]|]; [|by split_and!..]. destruct Hl. by split_and!.
Qed.

Lemma handleGetMessage_aside ev hexID : aside (handleGetMessage ev hexID : handler).
Proof using Type.
  intros a. unfold handleGetMessage. destruct (hex_id hexID) as [id|]; [|done].
  destruct (GetMessage id (a_msgs a)) as [[m|]|]; [|done..].
  pose proof (buildMsgResp_aside (e_now ev) m a) as (E1 & E2 & _ & _). destruct (buildMsgResp (e_now ev) m a) as [a1 r].
  by split_and!.
Qed.

(** *** Sending *)

Lemma resolve_refs_safe allowed reply_to (k : list bytes -> handler) :
  (forall refs, safe allowed (k refs)) -> safe allowed (resolve_refs reply_to k).
Proof using Type.
  intros Hk. unfold resolve_refs. case_bool_decide; [apply Hk|]. intros a Ha Hu. destruct (hex_id reply_to) as [id|]; [|stay].
  destruct (GetMessage id (a_msgs a)) as [[m|]|]; [by apply Hk|by apply Hk|stay].
Qed.

Lemma resolve_sender_safe allowed ks name (k : option Identity -> handler) :
  (forall s, safe allowed (k s)) -> safe allowed (resolve_sender (Some ks) name k).
Proof using Type.
  intros Hk. unfold resolve_sender. case_bool_decide; [apply Hk|]. intros a Ha Hu.
  destruct (GetIdentity ks name); [by apply Hk|stay].
Qed.

Lemma publish_safe allowed ev rounds payload (k : ID -> handler) :
  (forall id, safe allowed (k id)) -> safe allowed (publish median ev rounds payload k).
Proof using Type.
  intros Hk a Ha Hu. unfold publish. destruct payload as [payload|e]; [|stay].
  destruct (MineStamp payload _ rounds) as [[[stamp wf] [e|]]|]; [stay| |stay].
  destruct (store_Put _ _ _ _ _) as [st [id|e]]; [|stay]. exact (Hk id (with_blocks a st) Ha Hu).
Qed.

Lemma handleSend_safe allowed ev now_save dr rounds req : safe allowed (handleSend median ev now_save dr rounds req : handler).
Proof using Type.
  unfold handleSend. apply safe_decode. intros rq. apply safe_if; [apply aside_safe, aside_fails|].
  apply safe_if; [apply aside_safe, aside_fails|]. destruct (b64_decode _ _) as [recipient|]; [|apply aside_safe, aside_fails].
  apply safe_if; [apply aside_safe, aside_fails|]. intros a Ha [ks Hks].
  rewrite (RLock_free _ _ a (Some ks)) by (apply Ha || by rewrite Hks).
  apply resolve_sender_safe; [|done|by exists ks]. intros signer. apply resolve_refs_safe. intros refs.
  cbv zeta. apply safe_if; [apply aside_safe, aside_fails|]. apply publish_safe. intros id. apply aside_safe. intros a'.
  by destruct (SaveMessage _ _ _ _).
Qed.

Lemma handleSendChannel_safe allowed ev dr rounds req : safe allowed (handleSendChannel median ev dr rounds req : handler).
Proof using Type.
  unfold handleSendChannel. apply safe_decode. intros rq. apply safe_if; [apply aside_safe, aside_fails|].
  apply safe_if; [apply aside_safe, aside_fails|]. apply (safe_reader _ (fun k => (k, Channels k))). intros [ks chs].
  destruct (find_first _ _) as [ch|]; [|apply aside_safe, aside_fails].
  apply resolve_sender_safe. intros signer. apply resolve_refs_safe. intros refs. cbv zeta. apply publish_safe.
  intros id. apply aside_safe, aside_reply.
Qed.

Lemma handleBoost_aside ev rounds req : aside (handleBoost ev rounds req : handler).
Proof using Type.
  unfold handleBoost. apply aside_decode. intros hexID. destruct (hex_id hexID) as [id|]; [|apply aside_fails].
  intros a. destruct (store_Get _ _ _) as [[s payload]|e]; [|by destruct (errors_Is e ErrNotFound)].
  destruct (match GetMessage id (a_msgs a) with Ok (Some m) => (sm_SenderPub m, sm_Content m) | _ => (zero_pub, []) end) as [pub content].
  destruct (MineStamp _ _ _) as [[[stamp wf] err]|]; [|done].
  destruct (if negb _ then _ else _) as [[[gift bits] seedBits]|]; [|done].
  match goal with |- context [if ?b then with_gifts a ?g else a] => set (a1 := if b then with_gifts a g else a) end.
  assert (a_session a1 = a_session a /\ a_mu a1 = a_mu a) as [E1 E2] by (unfold a1; by case_match).
  clearbody a1. destruct err; [by split_and!|]. destruct (store_Put _ _ _ _ _) as [st [i|e]]; by split_and!.
Qed.

(** *** Scraping *)

Lemma applyPowGift_good ev name stamp (a : api S D P) : good a -> unlocked a ->
  let '(a', o) := applyPowGift path ev name stamp a in (good a' /\ same_tokens a a') /\ o = None.
Proof using Type.
  intros Ha Hu. pose proof Ha as [Hs Hm]. pose proof Hu as [k Hk]. unfold applyPowGift. rewrite Hm. cbn [free_mutex mx_waiting mx_readers orb Nat.ltb Nat.leb].
  rewrite Hk. destruct (GetIdentity k name) as [id|]; [|exact (conj (conj Ha (conj Hu eq_refl)) eq_refl)]. cbv zeta.
  destruct (IdentityWorkFactor stamp (identity_pub id) <=? _); [exact (conj (conj Ha (conj Hu eq_refl)) eq_refl)|].
  unfold session_ok in Hs. rewrite Hk in Hs. destruct Hs as [Hsc Hkdf].
  destruct (SetIdentityPoW name stamp k) as [k' e] eqn:Eset.
  assert (kdf_ok k') as Hk'.
  { unfold SetIdentityPoW in Eset. destruct (get k name); apply pair_eq in Eset as [<- _]; exact Hkdf. }
  unfold save_ks. destruct (Save _ _ _ _ _) as [d r].
  split; [split; [split; [exact (conj Hsc Hk')|exact Hm]|split; [by exists k'|done]]|done].
Qed.

Lemma apply_gifts_good ev gifts (a : api S D P) : good a -> unlocked a ->
  let '(a', o) := apply_gifts path ev gifts a in (good a' /\ same_tokens a a') /\ o = None.
Proof using Type.
  revert a. induction gifts as [|[name stamp] gifts IH]; intros a Ha Hu; [exact (conj (conj Ha (conj Hu eq_refl)) eq_refl)|]. cbn [apply_gifts].
  pose proof (applyPowGift_good ev name stamp a Ha Hu) as Hg. destruct (applyPowGift path ev name stamp a) as [a1 o].
  destruct Hg as [[Ha1 [Hu1 Ht1]] ->]. specialize (IH a1 Ha1 Hu1). destruct (apply_gifts path ev gifts a1) as [a2 o].
  destruct IH as [[Ha2 [Hu2 Ht2]] ->]. split; [|done]. split; [done|]. split; [done|congruence].
Qed.

Lemma handleScrape_safe allowed fuel ev now_save scanStart ctx req :
  safe allowed (handleScrape path fuel ev now_save scanStart ctx req : handler).
Proof using Type.
  intros a Ha Hu. unfold handleScrape. pose proof Ha as [Hs Hm]. pose proof Hu as [k Hk]. pose proof Hs as Hs'.
  unfold session_ok in Hs'. rewrite Hk in Hs'. destruct Hs' as [[[ids chs] Hsc] _].
  rewrite (RLock_free _ _ a (Some (ids, chs))) by (done || by rewrite Hsc).
  destruct (prepare_checkpoint req (a_msgs a)) as [db [[what e]|]]; [stay|].
  destruct (Scrape _ _ _ _ _ _ _ _ _ _) as [[st err]|]; [|stay].
  pose proof (apply_gifts_good ev (reverse (sc_gifts st)) (with_msgs a (sc_db st)) Ha Hu) as Hg.
  destruct (apply_gifts path ev _ _) as [a' o]. destruct Hg as [Hg ->]. destruct err; (split; [exact Hg|by split]).
Qed.

(** *** All calls *)

Lemma with_manager_aside (k : P -> handler) : (forall p, aside (k p)) -> aside (with_manager k).
Proof using Type. intros Hk a. unfold with_manager. destruct (a_peers a); [apply Hk|done]. Qed.

Lemma on_peer_aside op b64url : aside (on_peer op b64url : handler).
Proof using Type. apply with_manager_aside. intros p a. by destruct (b64_decode _ _). Qed.

(** The only call whose handler can panic on a good server is the import of a bundle that
    makes the keystore panic. *)
Definition panic_bundle (c : call) : Prop :=
  exists bundle pw k, c = c_import_identity (Ok (bundle, pw)) /\ ImportIdentity bundle pw k = None.

Ltac kdf_unchanged := intros k ?; unfold Remove, RemoveChannel, RemoveContact, Add, AddChannel, AddContact, SetIdentityPoW; repeat case_match; first [done|assumption].

Lemma handleImportIdentity_safe ev req : safe (panic_bundle (c_import_identity req)) (handleImportIdentity path ev req : handler).
Proof using Type.
  destruct req as [[bundle pw]|e]; [|intros a Ha Hu; stay]. intros a Ha Hu.
  unfold handleImportIdentity, decode. case_bool_decide; [stay|]. destruct (length bundle =? 0)%nat; [stay|].
  apply (safe_change_ks path (panic_bundle (c_import_identity (Ok (bundle, pw))))); [|replies|replies|done|done].
  intros k Hk. pose proof (kdf_import bundle pw k Hk) as Hi. destruct (ImportIdentity bundle pw k) as [[k' r]|]; [done|].
  destruct Hi as [k' Hk']. by exists bundle, pw, k'.
Qed.

Lemma handleExportIdentity_safe allowed ev name req : safe allowed (handleExportIdentity ev name req : handler).
Proof using Type.
  apply safe_decode. intros pw. apply safe_if; [apply aside_safe, aside_fails|]. apply safe_RLock.
  - intros a [Hs _] [k Hk]. unfold session_ok in Hs. rewrite Hk in *. destruct Hs as [_ Hkdf]. cbn [mbind option_bind].
    unfold VerifyPassword. destruct (deriveKey_some pw (ks_salt k) (ks_kdfTime k) (ks_kdfMemory k) (ks_kdfThreads k)) as [key ->];
      [apply Hkdf..|]. cbn [fmap option_fmap option_map mbind option_bind]. case_bool_decide; [|done].
    unfold ExportIdentity. destruct (get k name); [|done]. destruct (e_salt ev) as [salt|]; [|done].
    destruct (deriveKey_some pw salt kdfTime kdfMemory kdfThreads) as [key' ->]; done.
  - intros [[bundle|e]|]; apply aside_safe, aside_reply.
Qed.

Lemma handle_safe i c : c <> c_lock -> safe (panic_bundle c) (handle path median bt i c : handler).
Proof using Type.
  intros Hc. destruct c as [req| | |req|req|name req|name|name| |req|name|after_id since|hexID| |req|req|req|req| |req|pub|pub req| |req|u|u|u]; cbn [handle].
  - apply safe_decode. intros pw. apply safe_if; [apply aside_safe, aside_fails|].
    apply safe_change_ks; [apply kdf_change_password|replies|replies].
  - done.
  - apply safe_reader. intros x. apply aside_safe, aside_reply.
  - apply safe_decode. intros name. apply safe_if; [apply aside_safe, aside_fails|].
    apply safe_change_ks; [apply kdf_result; kdf_unchanged|replies|replies].
  - apply handleImportIdentity_safe.
  - apply handleExportIdentity_safe.
  - apply (safe_reader _ (fun k => GetIdentity k name)). intros [id|]; [|apply aside_safe, aside_fails].
    intros a Ha Hu. destruct (MineIdentityPoW _ _ _ _) as [[[stamp bits] [e|]]|]; [stay| |stay].
    apply safe_change_ks; [|replies|replies|done|done]. intros k Hk. unfold SetIdentityPoW. by destruct (get k name).
  - apply safe_change_ks; [apply kdf_found; kdf_unchanged|replies|replies].
  - apply safe_reader. intros x. apply aside_safe, aside_reply.
  - apply safe_decode. intros [name pass]. apply safe_if; [apply aside_safe, aside_fails|].
    apply safe_change_ks; [apply kdf_result; kdf_unchanged|replies|replies].
  - apply safe_change_ks; [apply kdf_found; kdf_unchanged|replies|replies].
  - apply aside_safe, handleListMessages_aside.
  - apply aside_safe, handleGetMessage_aside.
  - apply aside_safe. by intros a.
  - apply aside_safe, handleBoost_aside.
  - apply handleScrape_safe.
  - apply handleSend_safe.
  - apply handleSendChannel_safe.
  - apply safe_reader. intros x. apply aside_safe, aside_reply.
  - apply safe_decode. intros [name pub]. destruct (b64_decode _ _) as [b|]; [|apply aside_safe, aside_fails].
    apply safe_change_ks; [apply kdf_result; kdf_unchanged|replies|replies].
  - unfold handleRemoveContact, path_key. destruct (b64_decode _ _) as [b|]; [|apply aside_safe, aside_fails].
    apply safe_if; [apply aside_safe, aside_fails|]. apply safe_change_ks; [apply kdf_found; kdf_unchanged|replies|replies].
  - unfold handleRenameContact, path_key. destruct (b64_decode _ _) as [b|]; [|apply aside_safe, aside_fails].
    apply safe_if; [apply aside_safe, aside_fails|]. apply safe_decode. intros name. apply safe_change_ks; [|intros e; case_bool_decide; by split|replies].
    intros k Hk. unfold rename_or, RenameContact. destruct (validateName name); [exact Hk|]. destruct (existsb _ (ks_contacts k)); exact Hk.
  - apply aside_safe. intros a. unfold handleSync. by destruct bt.
  - apply aside_safe, with_manager_aside. intros p. apply aside_decode. intros u a. case_bool_decide; [done|].
    by destruct (pm_AddPeer _ _ _) as [p' []].
  - apply aside_safe, on_peer_aside.
  - apply aside_safe, on_peer_aside.
  - apply aside_safe, on_peer_aside.
Qed.

(** ** Requests that do not overlap *)

Lemma good_locked (a : api S D P) : good a -> ss_ks (a_session a) = None -> ss_tokens (a_session a) = ∅.
Proof using Type. intros [Hs _] Hk. unfold session_ok in Hs. rewrite Hk in Hs. apply Hs. Qed.

Lemma authorised_unlocked header (a : api S D P) : good a -> authorised header a = true -> unlocked a.
Proof using Type.
  intros Ha Hauth. unfold unlocked. destruct (ss_ks (a_session a)) eqn:Hk; [done|]. unfold authorised in Hauth.
  rewrite (good_locked a Ha Hk) in Hauth. apply andb_true_iff in Hauth as [Ht%bool_decide_eq_true _]. by apply not_elem_of_empty in Ht.
Qed.

Lemma LoadKeystore_kdf gens nonces sio pth pw fs fs' k :
  LoadKeystore gens nonces sio pth pw fs = Some (fs', Ok k) -> kdf_ok k.
Proof using Type.
  unfold LoadKeystore. destruct (fs !! pth) as [data|]; [|intros [_ Hx]%(inj Some)%pair_eq; discriminate Hx].
  destruct (json_Unmarshal_file data) as [f|]; [|intros [_ Hx]%(inj Some)%pair_eq; discriminate Hx].
  destruct (_ && _); [intros [_ Hx]%(inj Some)%pair_eq; discriminate Hx|].
  destruct (deriveKey pw (kf_Salt f) (kf_KDFTime f) (kf_KDFMemory f) (kf_KDFThreads f)) as [key|] eqn:Ed; [|done].
  apply deriveKey_kdf in Ed. intros E. repeat (case_match; try done).
  all: apply (inj Some), pair_eq in E as [_ E]; try discriminate E; apply (inj Ok) in E as <-; exact Ed.
Qed.

Lemma handleUnlock_good ev req (a : api S D P) : good a ->
  let '(a', o) := handleUnlock path ev req a in
  good a' /\ o <> Blocked /\
  (o = Panic -> exists pw, req = Ok pw /\ LoadKeystore (e_gens ev) (e_nonces ev) (e_io ev) path pw (a_disk a) = None) /\
  match o with
  | Reply status (token_body token) => status = StatusOK /\ newToken ev = Ok token /\ unlocked a' /\
      ss_tokens (a_session a') = {[ token ]} ∪ ss_tokens (a_session a)
  | _ => a_session a' = a_session a
  end.
Proof using Type.
  intros Ha. unfold handleUnlock, decode. destruct req as [pw|e]; [|by split_and!; [exact Ha|..]].
  destruct (LoadKeystore _ _ _ _ _ _) as [[d [k|e]]|] eqn:El.
  - apply LoadKeystore_kdf in El. destruct (newToken ev) as [token|]; [|by split_and!; [exact Ha|..]].
    rewrite Lock_free by apply Ha. cbn [rebuildScraper ss_ks ss_tokens]. split; [split; [|apply Ha]|].
    + exact (conj (mk_is_Some _ _ eq_refl) El).
    + split_and!; [done|done|done|done|by exists k|done].
  - destruct (errors_Is e ErrNotExist); by split_and!; [exact Ha|..].
  - split_and!; [exact Ha|done|by exists pw|done].
Qed.

Lemma handleCreate_good ev req (a : api S D P) : good a ->
  let '(a', o) := handleCreate path ev req a in
  good a' /\ o <> Blocked /\ o <> Panic /\ a_session a' = a_session a /\ forall st tok, o <> Reply st (token_body tok).
Proof using Type.
  intros Ha. unfold handleCreate, decode. destruct req as [pw|e]; [|by split_and!; [exact Ha|..]].
  case_bool_decide; [by split_and!; [exact Ha|..]|].
  assert (forall o : outcome PeerInfo, o <> Blocked -> o <> Panic -> (forall st tok, o <> Reply st (token_body tok)) ->
    good a /\ o <> Blocked /\ o <> Panic /\ a_session a = a_session a /\ forall st tok, o <> Reply st (token_body tok)) as Hsame
    by (intros; by split_and!; [exact Ha|..]).
  assert (forall x : api S D P * outcome PeerInfo, x = match NewKeystore (e_salt ev) pw with
      | None => (a, Panic)
      | Some (Err _) => fails StatusInternalServerError "failed to create keystore" a
      | Some (Ok k) => match save_ks path ev k a with
                       | (a, Err _) => fails StatusInternalServerError "failed to save keystore" a
                       | (a, Ok _) => (a, Reply StatusCreated no_body)
                       end
      end -> let '(a', o) := x in
    good a' /\ o <> Blocked /\ o <> Panic /\ a_session a' = a_session a /\ forall st tok, o <> Reply st (token_body tok)) as Hnew.
  { intros x ->. unfold NewKeystore. destruct (e_salt ev) as [salt|]; [|by apply Hsame].
    destruct (deriveKey_some pw salt kdfTime kdfMemory kdfThreads) as [key ->]; [done|done|].
    cbn [fmap option_fmap option_map]. unfold save_ks. destruct (Save _ _ _ _ _) as [d [[]|e]]; by split_and!; [exact Ha|..]. }
  destruct (e_stat ev), (a_disk a !! path); try (by apply Hnew). by apply Hsame.
Qed.

(** The ledger of the tokens: an unlock that is answered with a token adds it, a lock that
    is answered clears them all. *)
Definition account (tokens : gset bytes) (x : request * outcome PeerInfo) : gset bytes :=
  match x with
  | (rq_unlock _, Reply _ (token_body token)) => {[ token ]} ∪ tokens
  | (rq_call _ c_lock, Reply status _) => if status =? StatusNoContent then ∅ else tokens
  | _ => tokens
  end.

Lemma serve_call_good i header c (a : api S D P) : good a ->
  serve path median usage indexHTML bt i (rq_call header c) a
  = if authorised header a then handle path median bt i c a else (a, writeError StatusUnauthorized "invalid or missing token").
Proof using Type. intros Ha. cbn [serve]. unfold auth. rewrite (RLock_free _ _ a (authorised header a)) by (apply Ha || done). by destruct (authorised header a). Qed.

Lemma serve_good i rq (a : api S D P) : good a ->
  let '(a', o) := serve path median usage indexHTML bt i rq a in
  good a' /\ o <> Blocked /\ ss_tokens (a_session a') = account (ss_tokens (a_session a)) (rq, o).
Proof using Type.
  intros Ha. destruct rq as [| |req|req| | |header c].
  - by split_and!; [exact Ha|..].
  - by split_and!; [exact Ha|..].
  - cbn [serve serve_public]. pose proof (handleCreate_good (i_env i) req a Ha) as Hc. destruct (handleCreate path (i_env i) req a) as [a' o].
    destruct Hc as (Hg & Hb & Hp & Hs & Ht). split; [exact Hg|]. split; [done|]. rewrite Hs. by destruct o.
  - cbn [serve serve_public]. pose proof (handleUnlock_good (i_env i) req a Ha) as Hu. destruct (handleUnlock path (i_env i) req a) as [a' o].
    destruct Hu as (Hg & Hb & Hp & Ho). split; [exact Hg|]. split; [done|].
    destruct o as [status b| | |]; [|by rewrite Ho..]. destruct b; try (by rewrite Ho). by destruct Ho as (_ & _ & _ & ->).
  - by split_and!; [exact Ha|..].
  - by split_and!; [exact Ha|..].
  - rewrite serve_call_good by done. destruct (authorised header a) eqn:Hauth.
    + pose proof (authorised_unlocked header a Ha Hauth) as Hu. assert (c = c_lock \/ c <> c_lock) as [->|Hc] by (destruct c; first [by left|by right]).
      { cbn [handle]. unfold handleLock. rewrite Lock_free by apply Ha. split; [split; [exact (conj eq_refl eq_refl)|apply Ha]|]. by split_and!. }
      pose proof (handle_safe i c Hc a Ha Hu) as Hs. destruct (handle path median bt i c a) as [a' o]. cbn [fst snd] in Hs.
      destruct Hs as [[Hg [_ Ht]] [Hb _]]. split; [exact Hg|]. split; [done|].
      rewrite Ht. destruct c; by destruct o.
    + split; [exact Ha|]. split; [done|]. by destruct c.
Qed.

(** C7: Only the holder of a token gets through.  After any sequence of requests the tokens
    of the server are exactly those handed out by unlocks since the last lock; a call is
    run when its header carries one of them and is otherwise refused with 401 without
    changing anything; so after a lock every call is refused until the next unlock. *)
Theorem session_ledger rqs blocks msgs pm d :
  let '(a, os) := serve_all path median usage indexHTML bt rqs (SetPeerManager (New blocks msgs d) pm) in
  let tokens := foldl account ∅ (zip (snd <$> rqs) os) in
  ss_tokens (a_session a) = tokens /\
  forall i header c,
    let token := TrimPrefix header bearer in
    serve path median usage indexHTML bt i (rq_call header c) a
    = if bool_decide (token ∈ tokens) && bool_decide (token <> []) then handle path median bt i c a
      else (a, writeError StatusUnauthorized "invalid or missing token").
Proof using Type.
  assert (forall a : api S D P, good a -> let '(a', os) := serve_all path median usage indexHTML bt rqs a in
    good a' /\ ss_tokens (a_session a') = foldl account (ss_tokens (a_session a)) (zip (snd <$> rqs) os)) as Hgen.
  { induction rqs as [|[i rq] rqs IH]; intros a Ha; cbn [serve_all]; [by split|].
    pose proof (serve_good i rq a Ha) as Hg. destruct (serve path median usage indexHTML bt i rq a) as [a1 o].
    destruct Hg as (Ha1 & _ & Ht). specialize (IH a1 Ha1). destruct (serve_all path median usage indexHTML bt rqs a1) as [a2 os].
    destruct IH as [Ha2 IH]. split; [exact Ha2|]. rewrite IH, Ht. reflexivity. }
  specialize (Hgen (SetPeerManager (New blocks msgs d) pm)). destruct (serve_all _ _ _ _ _ _ _) as [a os].
  destruct Hgen as [Ha Ht]; [split; [exact (conj eq_refl eq_refl)|done]|]. cbv zeta. split; [exact Ht|].
  intros i header c. rewrite serve_call_good by done. unfold authorised. by rewrite Ht.
Qed.
End All.
