(* ===== verification/ApiAnswers.v ===== *)
(** The answers of the API: which requests end in a panic, which may still be running, and
    that every other one is answered, in every sequence of requests that do not overlap. *)
From Stdlib Require Import String.
From S2P Require Import Prelude Codec Block Store Message Text Strconv IdPow Crypto MessageStore Keystore Client Api ApiMessages ApiServe ApiFacts.

(** ** What is still running *)

(** A round of a mining loop that does not end it: no cancellation, no deadline, no error of
    the random source. *)
Definition goes_on (r : mine_round) : Prop := mr_ctx r = None /\ is_ok (mr_rand r) = true.
Definition idpow_goes_on (r : idpow_round) : Prop := exists s, r = ir_default (Ok s).

Lemma MineStamp_running `{Hashes} payload target rounds : MineStamp payload target rounds = None -> Forall goes_on rounds.
Proof.
  unfold MineStamp. destruct (target <=? 0); [done|]. intros E.
  pose proof (MineStamp_loop_spec payload target rounds (replicate StampSize x00)) as Hl. rewrite E in Hl.
  eapply Forall_impl; [exact Hl|]. intros r (Hc & s & Hs & _). split; [done|]. by rewrite Hs.
Qed.

Lemma MineIdentityPoW_running `{Hashes} pubkey seed first rounds :
  MineIdentityPoW pubkey seed first rounds = None -> Forall idpow_goes_on rounds.
Proof.
  assert (forall best bits, MineIdentityPoW_loop pubkey best bits rounds = None -> Forall idpow_goes_on rounds) as Hloop.
  { induction rounds as [|r rounds IH]; intros best bits; cbn [MineIdentityPoW_loop]; [constructor|].
    destruct r as [e| |[s|e]]; [done|done| |done]. intros E. constructor; [by exists s|]. by destruct (bits <? _); eapply IH. }
  unfold MineIdentityPoW. destruct (_ =? _)%nat; [apply Hloop|]. destruct first; [apply Hloop|done].
Qed.

(** The pages of a listing end, or fail, within so many. *)
Fixpoint pages_end (list_blocks : bytes -> result (bytes * list BlockRef)) (fuel : nat) (token : bytes) : bool :=
  match fuel with
  | O => false
  | Datatypes.S fuel' =>
      match list_blocks token with
      | Err _ => true
      | Ok (next, _) => if decide (next = []) then true else pages_end list_blocks fuel' next
      end
  end.

Lemma page_loop_running {St} lister (visit : BlockRef -> St -> St) fuel token st :
  pages_end lister fuel token = true ->
  exists st', page_loop lister (fun _ st => Ok st) (fun r st => Ok (visit r st)) fuel token st = Some (Ok st').
Proof.
  revert token st. induction fuel as [|fuel IH]; intros token st; cbn [pages_end page_loop]; [done|].
  destruct (lister token) as [[next refs]|e]; [|by exists st]. rewrite visit_all_pure. case_decide; [by eexists|]. apply IH.
Qed.

(** A handler that is not still running, but when [stuck]. *)
Definition halts {S D P I} (stuck : Prop) (h : api S D P -> api S D P * outcome I) : Prop :=
  forall a, (h a).2 = Running -> stuck.

Section HaltsCombinators.
Context {S D P I : Type} (stuck : Prop).
#[local] Abbreviation handler := (api S D P -> api S D P * outcome I).

Lemma halts_fails status msg : halts stuck (fails status msg : handler).
Proof. by intros a. Qed.

Lemma halts_reply status b : halts stuck ((fun a => (a, Reply status b)) : handler).
Proof. by intros a. Qed.

Lemma halts_decode {A} (req : result A) (k : A -> handler) : (forall x, halts stuck (k x)) -> halts stuck (decode req k).
Proof. intros Hk a. unfold decode. destruct req as [x|e]; [apply Hk|done]. Qed.

Lemma halts_if (b : bool) (h1 h2 : handler) : halts stuck h1 -> halts stuck h2 -> halts stuck (if b then h1 else h2).
Proof. by destruct b. Qed.

Lemma halts_Lock (k : handler) : halts stuck k -> halts stuck (Lock k).
Proof. intros Hk a. unfold Lock. case_match; [done|apply Hk]. Qed.

Lemma halts_RLock {A} (f : api S D P -> option A) (k : A -> handler) : (forall x, halts stuck (k x)) -> halts stuck (RLock f k).
Proof. intros Hk a. unfold RLock. case_match; [done|]. destruct (f a); [apply Hk|done]. Qed.
End HaltsCombinators.

Section Answers.
Context `{Primitives, Hashes, Ed25519, KeystoreJson, GoTimeFormat} {S : Type} `{Store S} {D : Type} `{MessageDB D} {P : Type} `{PeerManager P}.
Context (path : bytes) (median : option (S -> result Z)) (usage : option (S -> Z)) (indexHTML : bytes) (bt : option Z).
#[local] Abbreviation handler := (api S D P -> api S D P * outcome PeerInfo).

Lemma halts_change {A} stuck ev (op : Keystore -> option (Keystore * result A)) on_err rebuild reply :
  (forall e, on_err e <> Running) -> (forall x, reply x <> Running) ->
  halts stuck (change_ks path ev op on_err rebuild reply : handler).
Proof using Type.
  intros He Hr. apply halts_Lock. intros a. destruct (ss_ks (a_session a)) as [k|]; [|done].
  destruct (op k) as [[k' [x|e]]|]; [|by intros ?%He|done].
  destruct (save_ks path ev k' _) as [a' [[]|e]]; [|done]. destruct (if rebuild then _ else _) as [s|]; [|done]. by intros ?%Hr.
Qed.

Lemma halts_sender stuck ks name (k : option Identity -> handler) : (forall s, halts stuck (k s)) -> halts stuck (resolve_sender ks name k).
Proof using Type.
  intros Hk. unfold resolve_sender. case_bool_decide; [apply Hk|]. intros a. destruct ks as [ks|]; [|done].
  destruct (GetIdentity ks name); [apply Hk|done].
Qed.

Lemma halts_refs stuck reply_to (k : list bytes -> handler) : (forall refs, halts stuck (k refs)) -> halts stuck (resolve_refs reply_to k).
Proof using Type.
  intros Hk. unfold resolve_refs. case_bool_decide; [apply Hk|]. intros a. destruct (hex_id reply_to) as [id|]; [|done].
  destruct (GetMessage id (a_msgs a)) as [[m|]|]; [apply Hk|apply Hk|done].
Qed.

Lemma halts_publish ev rounds payload (k : ID -> handler) :
  (forall id, halts (Forall goes_on rounds) (k id)) -> halts (Forall goes_on rounds) (publish median ev rounds payload k).
Proof using Type.
  intros Hk a. unfold publish. destruct payload as [payload|e]; [|done].
  destruct (MineStamp payload _ rounds) as [[[stamp wf] [e|]]|] eqn:Em; [done| |intros _; by eapply MineStamp_running].
  destruct (store_Put _ _ _ _ _) as [st [id|e]]; [|done]. exact (Hk id (with_blocks a st)).
Qed.

(** The calls whose handlers may still be running: those that mine, while no round ended the
    mining, and those that page through the blocks of the store, while the fuel is less than
    the pages. *)
Definition waits (i : io) (c : call) (a : api S D P) : Prop :=
  let ev := i_env i in
  match c with
  | c_mine_pow _ => Forall idpow_goes_on (e_rounds ev)
  | c_send _ | c_send_channel _ => Forall goes_on (i_rounds i)
  | c_boost _ => Forall goes_on (i_rounds i) \/ Forall idpow_goes_on (e_rounds ev)
  | c_list_messages _ since =>
      pages_end (fun token => store_ListBlocks (e_now ev) (a_blocks a) token 200 0 (time_Unix (ParseInt since))) (i_fuel i) [] = false
  | c_scrape _ => exists since,
      pages_end (fun token => store_ListBlocks (e_now ev) (a_blocks a) token scrapePageSize 0 since) (i_fuel i) [] = false
  | _ => False
  end.

#[local] Ltac halt := repeat first
  [ progress intros | progress cbv zeta | apply halts_sender | apply halts_refs | apply halts_publish
  | apply halts_fails | apply halts_reply | (apply halts_change; [done|done]) | apply halts_decode | apply halts_if | apply halts_RLock
  | match goal with |- halts _ (match ?x with _ => _ end) => destruct x | |- halts _ (let '(_, _) := ?x in _) => destruct x end ].

Lemma handleListMessages_halts fuel ev after_id since (a : api S D P) :
  (handleListMessages fuel ev after_id since a).2 = Running ->
  pages_end (fun token => store_ListBlocks (e_now ev) (a_blocks a) token 200 0 (time_Unix (ParseInt since))) fuel [] = false.
Proof using Type.
  unfold handleListMessages. destruct (ListMessagesAfter _ _) as [msgs|]; [|done].
  pose proof (build_all_aside (e_now ev) msgs a) as (_ & _ & Eb & _). destruct (build_all (e_now ev) msgs a) as [a1 out]. cbn [fst] in Eb.
  destruct (0 <? _); [|done]. rewrite <- Eb. intros Hr. apply not_true_is_false. intros Hend.
  destruct (page_loop_running _ (add_boosted (S:=S) (D:=D) (P:=P) (e_now ev)) fuel [] (a1, list_to_set (sm_BlockID <$> msgs), out) Hend)
    as ([[a2 seen] out2] & E). rewrite E in Hr. discriminate Hr.
Qed.

Lemma scrape_pages_ends {R} `{MessageDB R} ids chs now_store now_save blocks returns fuel ctx since token (st : scrape_state R) :
  scrape_pages ids chs now_store now_save blocks returns fuel ctx since token st = None ->
  pages_end (fun token => store_ListBlocks now_store blocks token scrapePageSize 0 since) fuel token = false.
Proof using Type.
  revert token st. induction fuel as [|fuel IH]; intros token st; cbn [scrape_pages pages_end]; [done|].
  destruct (ctx fuel); [done|]. destruct (store_ListBlocks _ _ _ _ _ _) as [[next refs]|e]; [|done].
  destruct (scrape_refs _ _ _ _ _ _ refs st) as [st' [e|]]; [done|]. case_decide; [done|]. apply IH.
Qed.

Lemma handleScrape_halts fuel ev now_save scanStart ctx req (a : api S D P) :
  good a -> unlocked a -> (handleScrape path fuel ev now_save scanStart ctx req a).2 = Running ->
  exists since, pages_end (fun token => store_ListBlocks (e_now ev) (a_blocks a) token scrapePageSize 0 since) fuel [] = false.
Proof using Type.
  intros Ha Hu. unfold handleScrape. pose proof Ha as [Hs Hm]. pose proof Hu as [k Hk].
  unfold session_ok in Hs. rewrite Hk in Hs. destruct Hs as [[[ids chs] Hsc] _].
  rewrite (RLock_free _ _ a (Some (ids, chs))) by (done || by rewrite Hsc).
  destruct (prepare_checkpoint req (a_msgs a)) as [db [[what e]|]]; [done|]. cbv zeta.
  destruct (Scrape _ _ _ _ _ _ _ _ _ _) as [[st err]|] eqn:Es.
  - pose proof (apply_gifts_good path ev (reverse (sc_gifts st)) (with_msgs a (sc_db st)) Ha Hu) as Hg.
    destruct (apply_gifts path ev _ _) as [a' o]. destruct Hg as [_ ->]. by destruct err.
  - intros _. unfold Scrape in Es. destruct (GetCheckpoint db) as [since|e]; [|done]. exists (default time_zero since).
    destruct (scrape_pages _ _ _ _ _ _ _ _ _ _ _) as [[st [e|]]|] eqn:Ep; [done| |by eapply scrape_pages_ends].
    destruct (SetCheckpoint _ _). discriminate Es.
Qed.

Lemma handleBoost_halts i req : halts (Forall goes_on (i_rounds i) \/ Forall idpow_goes_on (e_rounds (i_env i)))
  (handleBoost (i_env i) (i_rounds i) req : handler).
Proof using Type.
  unfold handleBoost. apply halts_decode. intros hexID. destruct (hex_id hexID) as [id|]; [|apply halts_fails].
  intros a. destruct (store_Get _ _ _) as [[s payload]|e]; [|by destruct (errors_Is e ErrNotFound)].
  destruct (match GetMessage id (a_msgs a) with Ok (Some m) => (sm_SenderPub m, sm_Content m) | _ => (zero_pub, []) end) as [pub content].
  destruct (MineStamp _ _ _) as [[[stamp wf] err]|] eqn:Em; [|intros _; left; by eapply MineStamp_running].
  destruct (bool_decide (pub = zero_pub)); cbn [negb].
  - destruct err; [done|]. by destruct (store_Put _ _ _ _ _) as [st [i'|e]].
  - unfold mine_gift. destruct (default ([], 0) _) as [seed bits0].
    destruct (MineIdentityPoW _ _ _ _) as [[[gift bits] e]|] eqn:Ei; [|intros _; right; by eapply MineIdentityPoW_running].
    destruct err; [by destruct (_ && _)|]. by destruct (store_Put _ _ _ _ _) as [st [i'|e']].
Qed.

Lemma handle_halts i c (a : api S D P) : good a -> unlocked a -> (handle path median bt i c a).2 = Running -> waits i c a.
Proof using Type.
  intros Ha Hu.
  destruct c as [req| | |req|req|name req|name|name| |req|name|after_id since|hexID| |req|req|req|req| |req|pub|pub req| |req|u|u|u]; cbn [handle waits];
    first [apply handleListMessages_halts | by apply handleScrape_halts | apply handleBoost_halts | idtac];
    match goal with |- (?h a).2 = Running -> ?stuck => enough (halts stuck (h : handler)) as Hh by apply Hh end;
    unfold handleImportIdentity, handleExportIdentity, handleAddChannel, handleSend, handleSendChannel, handleAddContact,
      handleRemoveContact, handleRenameContact, path_key;
    try solve [halt | by apply halts_Lock].
  - halt. by destruct x0 as [[b|e]|]; apply halts_reply.
  - apply halts_RLock. intros [id|]; [|halt]. intros a'.
    destruct (MineIdentityPoW _ _ _ _) as [[[stamp bits] [e|]]|] eqn:Em; [done| |intros _; by eapply MineIdentityPoW_running].
    by apply halts_change.
  - intros a'. unfold handleGetMessage. destruct (hex_id hexID); [|done]. destruct (GetMessage _ _) as [[m|]|]; [|done..].
    by destruct (buildMsgResp _ _ _).
  - by intros a'.
  - halt. intros a'. by destruct (SaveMessage _ _ _ _).
  - halt. apply halts_change; [|done]. intros e. by case_bool_decide.
  - intros a'. unfold handleSync. by destruct bt.
  - intros a'. unfold handleAddPeer, with_manager, decode. destruct (a_peers a') as [p|]; [|done]. destruct req as [u|e]; [|done].
    case_bool_decide; [done|]. by destruct (pm_AddPeer _ _ _) as [p' []].
  - intros a'. unfold handleRemovePeer, on_peer, with_manager. destruct (a_peers a'); [|done]. by destruct (b64_decode _ _).
  - intros a'. unfold handleBlockPeer, on_peer, with_manager. destruct (a_peers a'); [|done]. by destruct (b64_decode _ _).
  - intros a'. unfold handleUnblockPeer, on_peer, with_manager. destruct (a_peers a'); [|done]. by destruct (b64_decode _ _).
Qed.

(** ** What panics *)

(** Exactly when the handler of a request panics on the server as it then is: an unlock when
    reading the keystore file on its disk panics, and an import that may run and has a bundle
    and a password when importing that bundle into its keystore does. *)
Definition panics (i : io) (rq : request) (a : api S D P) : Prop :=
  match rq with
  | rq_unlock (Ok pw) => LoadKeystore (e_gens (i_env i)) (e_nonces (i_env i)) (e_io (i_env i)) path pw (a_disk a) = None
  | rq_call header (c_import_identity (Ok (bundle, pw))) =>
      authorised header a = true /\ pw <> [] /\ bundle <> [] /\
      exists k, ss_ks (a_session a) = Some k /\ ImportIdentity bundle pw k = None
  | _ => False
  end.

Lemma handleUnlock_panics ev pw (a : api S D P) : good a ->
  ((handleUnlock path ev (Ok pw) a).2 = Panic <-> LoadKeystore (e_gens ev) (e_nonces ev) (e_io ev) path pw (a_disk a) = None).
Proof using Type.
  intros Ha. split.
  - intros Hp. pose proof (handleUnlock_good path ev (Ok pw) a Ha) as Hg. destruct (handleUnlock _ _ _ _) as [a' o].
    destruct Hg as (_ & _ & Hpan & _). destruct (Hpan Hp) as (pw' & [= <-] & Hl). exact Hl.
  - intros Hl. unfold handleUnlock, decode. by rewrite Hl.
Qed.

Lemma handleImportIdentity_panics ev bundle pw k (a : api S D P) : good a -> ss_ks (a_session a) = Some k ->
  ((handleImportIdentity path ev (Ok (bundle, pw)) a).2 = Panic <-> pw <> [] /\ bundle <> [] /\ ImportIdentity bundle pw k = None).
Proof using Type.
  intros [_ Hm] Hk. unfold handleImportIdentity, decode. case_bool_decide as Hpw; [split; [done|by intros []]|].
  destruct (Nat.eqb_spec (length bundle) 0) as [Hb|Hb].
  { apply nil_length_inv in Hb. split; [done|]. by intros (_ & ? & _). }
  unfold change_ks. rewrite Lock_free by exact Hm. rewrite Hk. destruct (ImportIdentity bundle pw k) as [[k' [x|e]]|].
  - split; [|by intros (_ & _ & ?)]. intros Hx. exfalso. unfold save_ks in Hx. destruct (Save _ _ _ _ _) as [d [[]|e]]; [|discriminate Hx].
    cbn [with_disk with_session a_session with_ks rebuildScraper ss_ks] in Hx. discriminate Hx.
  - split; [done|by intros (_ & _ & ?)].
  - split; [|done]. intros _. split; [done|]. split; [|done]. by intros ->.
Qed.

Lemma serve_panics i rq (a : api S D P) : good a ->
  ((serve path median usage indexHTML bt i rq a).2 = Panic <-> panics i rq a).
Proof using Type.
  intros Ha. destruct rq as [| |req|req| | |header c]; [done|done| | |done|done|].
  - cbn [serve serve_public panics]. pose proof (handleCreate_good path (i_env i) req a Ha) as Hc. destruct (handleCreate _ _ _ a) as [a' o].
    destruct Hc as (_ & _ & Hp & _). by split.
  - cbn [serve serve_public panics]. destruct req as [pw|e]; [by apply handleUnlock_panics|done].
  - rewrite serve_call_good by done. destruct (authorised header a) eqn:Hauth.
    2:{ split; [done|]. destruct c; try done. destruct req as [[bundle pw]|]; [|done]. intros [Hx _]. congruence. }
    pose proof (authorised_unlocked header a Ha Hauth) as Hu. assert ((exists bundle pw, c = c_import_identity (Ok (bundle, pw))) \/ ~ (exists bundle pw, c = c_import_identity (Ok (bundle, pw))))
      as [Hc|Hc].
    { destruct c; try (right; by intros (? & ? & ?)). destruct req as [[bundle pw]|]; [left; by exists bundle, pw|right; by intros (? & ? & ?)]. }
    + destruct Hc as (bundle & pw & ->). destruct Hu as [k Hk]. cbn [handle panics]. rewrite (handleImportIdentity_panics _ _ _ k) by done.
      split; [intros (Hpw & Hb & Hi); split_and!; [done..|by exists k]|]. intros (_ & Hpw & Hb & k' & Hk' & Hi). split_and!; [done..|congruence].
    + assert (panics i (rq_call header c) a <-> False) as ->.
      { cbn [panics]. destruct c; try done. destruct req as [[bundle pw]|]; [|done]. split; [|done]. intros _. apply Hc. by eexists _, _. }
      split; [|done]. intros Hp. assert (c = c_lock \/ c <> c_lock) as [->|Hl] by (destruct c; first [by left|by right]).
      { cbn [handle] in Hp. unfold handleLock in Hp. rewrite Lock_free in Hp by apply Ha. discriminate Hp. }
      destruct (handle_safe path median bt i c Hl a Ha Hu) as (_ & _ & Hs). destruct (Hs Hp) as (bundle & pw & k & -> & _).
      apply Hc. by exists bundle, pw.
Qed.

Lemma serve_running i rq (a : api S D P) : good a -> (serve path median usage indexHTML bt i rq a).2 = Running ->
  exists header c, rq = rq_call header c /\ authorised header a = true /\ waits i c a.
Proof using Type.
  intros Ha. destruct rq as [| |req|req| | |header c]; [done|done| | |done|done|].
  - cbn [serve serve_public]. unfold handleCreate, decode. destruct req as [pw|e]; [|done]. case_bool_decide; [done|].
    assert ((match NewKeystore (e_salt (i_env i)) pw with
      | None => (a, Panic)
      | Some (Err _) => fails StatusInternalServerError "failed to create keystore" a
      | Some (Ok k) => match save_ks path (i_env i) k a with
                       | (a, Err _) => fails StatusInternalServerError "failed to save keystore" a
                       | (a, Ok _) => (a, Reply StatusCreated no_body)
                       end
      end : api S D P * outcome PeerInfo).2 <> Running) as Hn.
    { destruct (NewKeystore _ _) as [[k|e]|]; [|done..]. by destruct (save_ks _ _ _ _) as [a' [[]|e]]. }
    destruct (e_stat (i_env i)), (a_disk a !! path); try (by intros ?%Hn). done.
  - cbn [serve serve_public]. unfold handleUnlock, decode. destruct req as [pw|e]; [|done].
    destruct (LoadKeystore _ _ _ _ _ _) as [[d [k|e]]|]; [|by destruct (errors_Is e ErrNotExist)|done].
    destruct (newToken _); [|done]. by rewrite Lock_free by apply Ha.
  - rewrite serve_call_good by done. destruct (authorised header a) eqn:Hauth; [|done]. intros Hr. exists header, c.
    split_and!; [done|done|]. apply handle_halts; [done|by eapply authorised_unlocked|done].
Qed.

(** ** Requests that do not overlap *)

Lemma serve_all_app rqs1 rqs2 (a : api S D P) :
  serve_all path median usage indexHTML bt (rqs1 ++ rqs2) a
  = (let '(a1, os1) := serve_all path median usage indexHTML bt rqs1 a in
     let '(a2, os2) := serve_all path median usage indexHTML bt rqs2 a1 in (a2, os1 ++ os2)).
Proof using Type.
  revert a. induction rqs1 as [|[i rq] rqs1 IH]; intros a; cbn [app serve_all]; [by destruct (serve_all _ _ _ _ _ _ _)|].
  destruct (serve _ _ _ _ _ _ _ _) as [a1 o]. rewrite IH. destruct (serve_all _ _ _ _ _ rqs1 a1) as [a2 os].
  by destruct (serve_all _ _ _ _ _ rqs2 a2).
Qed.

Lemma serve_all_length rqs (a : api S D P) : length (serve_all path median usage indexHTML bt rqs a).2 = length rqs.
Proof using Type.
  revert a. induction rqs as [|[i rq] rqs IH]; intros a; cbn [serve_all]; [done|]. destruct (serve _ _ _ _ _ _ _ _) as [a1 o].
  specialize (IH a1). destruct (serve_all _ _ _ _ _ rqs a1). cbn in *. by rewrite IH.
Qed.

Lemma serve_all_good rqs (a : api S D P) : good a -> good (serve_all path median usage indexHTML bt rqs a).1.
Proof using Type.
  revert a. induction rqs as [|[i rq] rqs IH]; intros a Ha; cbn [serve_all]; [done|].
  pose proof (serve_good path median usage indexHTML bt i rq a Ha) as Hg. destruct (serve _ _ _ _ _ _ _ _) as [a1 o]. destruct Hg as [Ha1 _].
  specialize (IH a1 Ha1). by destruct (serve_all _ _ _ _ _ rqs a1).
Qed.

(** C16: Requests that do not overlap are answered.  From a new server, whatever is asked in
    whatever order, with whatever random draws and disk faults, take the server as each
    request finds it: its lock is free, and it is either locked without keys and tokens or
    unlocked with keystore and scraper.  The request does not wait for the lock.  Its handler
    panics exactly when it is an unlock and reading the keystore file now on the disk panics,
    or an import with a valid token, a bundle and a password, and importing that bundle into
    the keystore now open does.  It may still be running only when it has a valid token and
    mines, with no round so far that was cancelled, or lists more pages of the store than
    the fuel.  In every other case it is answered. *)
Theorem api_sequential rqs blocks msgs pm d n i rq :
  rqs !! n = Some (i, rq) ->
  let start := SetPeerManager (New blocks msgs d) pm in
  let a := (serve_all path median usage indexHTML bt (take n rqs) start).1 in
  a_mu a = free_mutex /\ session_ok (a_session a) /\
  exists o, (serve_all path median usage indexHTML bt rqs start).2 !! n = Some o /\
    match o with
    | Reply _ _ => ~ panics i rq a
    | Blocked => False
    | Panic => panics i rq a
    | Running => ~ panics i rq a /\ exists header c, rq = rq_call header c /\ authorised header a = true /\ waits i c a
    end.
Proof using Type.
  intros Hn start a. assert (good a) as Ha by (apply serve_all_good; split; [exact (conj eq_refl eq_refl)|done]).
  split; [apply Ha|]. split; [apply Ha|]. set (o := (serve path median usage indexHTML bt i rq a).2). exists o. split.
  - rewrite <- (take_drop_middle rqs n (i, rq) Hn), serve_all_app. fold start. pose proof (serve_all_length (take n rqs) start) as Hlen.
    unfold o, a. destruct (serve_all _ _ _ _ _ (take n rqs) start) as [a1 os1]. cbn [fst snd serve_all] in *.
    destruct (serve _ _ _ _ _ i rq a1) as [a2 o2]. destruct (serve_all _ _ _ _ _ _ a2) as [a3 os3]. cbn [snd].
    rewrite lookup_app_r; rewrite length_take_le in Hlen by (apply lookup_lt_Some in Hn; lia); [|lia]. by rewrite Hlen, Nat.sub_diag.
  - pose proof (serve_panics i rq a Ha) as Hp. pose proof (serve_running i rq a Ha) as Hr.
    pose proof (serve_good path median usage indexHTML bt i rq a Ha) as Hg. fold o in Hp, Hr.
    assert (o <> Blocked) as Hb by (unfold o; destruct (serve _ _ _ _ _ i rq a) as [a' o']; apply Hg).
    clearbody o. destruct o; [by intros ?%Hp|by apply Hp|done|]. split; [by intros ?%Hp|by apply Hr].
Qed.
End Answers.
