(* ===== verification/ApiRace.v ===== *)
(** Requests that overlap: a call that passed the check of its token before the keys were
    locked, and what its panic does to the lock. *)
From Stdlib Require Import String.
From S2P Require MessageFacts CryptoFacts KeystoreFacts FlatFile FlatFileFacts BluetoothFacts.
From S2P Require Import Prelude Codec Block Store Message Text Strconv IdPow Crypto MessageStore Keystore Client Api ApiMessages ApiServe ApiFacts.

(** A handler that cannot change the session while a read lock is left held, and does not
    release one. *)
Definition frozen {S D P I} (h : api S D P -> api S D P * outcome I) : Prop :=
  forall a, (0 < mx_readers (a_mu a))%nat ->
    a_session (h a).1 = a_session a /\ (mx_readers (a_mu a) <= mx_readers (a_mu (h a).1))%nat /\
    (mx_waiting (a_mu a) = true -> mx_waiting (a_mu (h a).1) = true).

Section FrozenCombinators.
Context {S D P I : Type}.
#[local] Abbreviation handler := (api S D P -> api S D P * outcome I).

Lemma aside_frozen (h : handler) : aside h -> frozen h.
Proof. intros Hh a Hr. destruct (Hh a) as (E1 & E2 & _ & _). by rewrite E1, E2. Qed.

Lemma frozen_fails status msg : frozen (fails status msg : handler).
Proof. apply aside_frozen, aside_fails. Qed.

Lemma frozen_reply status b : frozen ((fun a => (a, Reply status b)) : handler).
Proof. apply aside_frozen, aside_reply. Qed.

Lemma frozen_decode {A} (req : result A) (k : A -> handler) : (forall x, frozen (k x)) -> frozen (decode req k).
Proof. intros Hk a Hr. unfold decode. destruct req as [x|e]; [by apply Hk|done]. Qed.

Lemma frozen_if (b : bool) (h1 h2 : handler) : frozen h1 -> frozen h2 -> frozen (if b then h1 else h2).
Proof. by destruct b. Qed.

(** A writer waits for ever. *)
Lemma Lock_blocked (k : handler) a : (0 < mx_readers (a_mu a))%nat ->
  Lock k a = (with_mu a {| mx_readers := mx_readers (a_mu a); mx_waiting := true |}, Blocked).
Proof. intros Hr. unfold Lock. destruct (Nat.ltb_spec 0 (mx_readers (a_mu a))); [|lia]. by rewrite orb_true_r. Qed.

Lemma frozen_Lock (k : handler) : frozen (Lock k).
Proof. intros a Hr. by rewrite Lock_blocked. Qed.

Lemma frozen_RLock {A} (f : api S D P -> option A) (k : A -> handler) : (forall x, frozen (k x)) -> frozen (RLock f k).
Proof.
  intros Hk a Hr. unfold RLock. destruct (mx_waiting (a_mu a)) eqn:Ew; [by cbn; rewrite Ew|].
  destruct (f a) as [x|]; [destruct (Hk x a Hr) as (? & ? & _); by split_and!|]. cbn [fst with_mu a_session a_mu mx_readers mx_waiting]. split_and!; [done|lia|done].
Qed.
End FrozenCombinators.

Section Race.
Context `{Primitives, Hashes, Ed25519, KeystoreJson, GoTimeFormat} {S : Type} `{Store S} {D : Type} `{MessageDB D} {P : Type} `{PeerManager P}.
Context (path : bytes) (median : option (S -> result Z)) (usage : option (S -> Z)) (indexHTML : bytes) (bt : option Z).
#[local] Abbreviation handler := (api S D P -> api S D P * outcome PeerInfo).
#[local] Abbreviation step := (sys_step path median usage indexHTML bt).
#[local] Abbreviation run := (sys_run path median usage indexHTML bt).

Lemma resolve_sender_frozen ks name (k : option Identity -> handler) : (forall s, frozen (k s)) -> frozen (resolve_sender ks name k).
Proof using Type.
  intros Hk. unfold resolve_sender. case_bool_decide; [apply Hk|]. intros a Hr. destruct ks as [ks|]; [|done].
  destruct (GetIdentity ks name); [by apply Hk|done].
Qed.

Lemma resolve_refs_frozen reply_to (k : list bytes -> handler) : (forall refs, frozen (k refs)) -> frozen (resolve_refs reply_to k).
Proof using Type.
  intros Hk. unfold resolve_refs. case_bool_decide; [apply Hk|]. intros a Hr. destruct (hex_id reply_to) as [id|]; [|done].
  destruct (GetMessage id (a_msgs a)) as [[m|]|]; [by apply Hk|by apply Hk|done].
Qed.

Lemma publish_frozen ev rounds payload (k : ID -> handler) : (forall id, frozen (k id)) -> frozen (publish median ev rounds payload k).
Proof using Type.
  intros Hk a Hr. unfold publish. destruct payload as [payload|e]; [|done].
  destruct (MineStamp payload _ rounds) as [[[stamp wf] [e|]]|]; [done| |done].
  destruct (store_Put _ _ _ _ _) as [st [id|e]]; [|done]. exact (Hk id (with_blocks a st) Hr).
Qed.

Lemma apply_gifts_frozen ev gifts (a : api S D P) : (0 < mx_readers (a_mu a))%nat ->
  let a' := (apply_gifts path ev gifts a).1 in
  a_session a' = a_session a /\ (mx_readers (a_mu a) <= mx_readers (a_mu a'))%nat /\ (mx_waiting (a_mu a) = true -> mx_waiting (a_mu a') = true).
Proof using Type.
  intros Hr. destruct gifts as [|[name stamp] gifts]; [done|]. cbn [apply_gifts]. unfold applyPowGift.
  destruct (Nat.ltb_spec 0 (mx_readers (a_mu a))); [|lia]. by rewrite orb_true_r.
Qed.

Lemma frozen_change {A} ev (op : Keystore -> option (Keystore * result A)) on_err rebuild reply :
  frozen (change_ks path ev op on_err rebuild reply : handler).
Proof using Type. apply frozen_Lock. Qed.

(** The combinators of the handlers, each with what it leaves to show. *)
#[local] Ltac freeze := repeat first
  [ progress intros | progress cbv zeta | apply resolve_sender_frozen | apply resolve_refs_frozen | apply publish_frozen
  | apply frozen_fails | apply frozen_reply | apply frozen_change | apply frozen_decode | apply frozen_if | apply frozen_RLock
  | match goal with |- frozen (match ?x with _ => _ end) => destruct x | |- frozen (let '(_, _) := ?x in _) => destruct x end ].

Lemma handleScrape_frozen fuel ev now_save scanStart ctx req : frozen (handleScrape path fuel ev now_save scanStart ctx req : handler).
Proof using Type.
  apply frozen_RLock. intros scraper a Hr. destruct (prepare_checkpoint req (a_msgs a)) as [db [[what e]|]]; [done|].
  destruct scraper as [[ids chs]|]; [|done]. cbv zeta. destruct (Scrape _ _ _ _ _ _ _ _ _ _) as [[st err]|]; [|done].
  pose proof (apply_gifts_frozen ev (reverse (sc_gifts st)) (with_msgs a (sc_db st)) Hr) as Hg.
  destruct (apply_gifts _ _ _ _) as [a' [o|]]; [exact Hg|]. by destruct err.
Qed.

Lemma handle_frozen i c : frozen (handle path median bt i c : handler).
Proof using Type.
  destruct c as [req| | |req|req|name req|name|name| |req|name|after_id since|hexID| |req|req|req|req| |req|pub|pub req| |req|u|u|u]; cbn [handle];
    unfold handleImportIdentity, handleExportIdentity, handleAddChannel, handleSend, handleSendChannel, handleAddContact,
      handleRemoveContact, handleRenameContact, path_key;
    try solve [freeze | apply frozen_Lock | apply aside_frozen, on_peer_aside].
  - freeze. by destruct x0 as [[b|e]|]; apply frozen_reply.
  - apply frozen_RLock. intros [id|]; [|freeze]. intros a Hr.
    destruct (MineIdentityPoW _ _ _ _) as [[[stamp bits] [e|]]|]; [done|by apply frozen_change|done].
  - apply aside_frozen, handleListMessages_aside.
  - apply aside_frozen, handleGetMessage_aside.
  - by apply aside_frozen.
  - apply aside_frozen, handleBoost_aside.
  - apply handleScrape_frozen.
  - freeze. apply aside_frozen. intros ?. by destruct (SaveMessage _ _ _ _).
  - apply aside_frozen. intros a. unfold handleSync. by destruct bt.
  - apply aside_frozen, with_manager_aside. intros p. apply aside_decode. intros u a. case_bool_decide; [done|].
    by destruct (pm_AddPeer _ _ _) as [p' []].
Qed.

Lemma serve_public_frozen i rq : frozen (serve_public path usage indexHTML bt i rq : handler).
Proof using Type.
  destruct rq as [| |req|req| | |header c]; cbn [serve_public]; try (by apply aside_frozen); try by intros a.
  - apply frozen_decode. intros pw a Hr. case_bool_decide; [done|].
    assert (forall x : api S D P * outcome PeerInfo, x = match NewKeystore (e_salt (i_env i)) pw with
        | None => (a, Panic)
        | Some (Err _) => fails StatusInternalServerError "failed to create keystore" a
        | Some (Ok k) => match save_ks path (i_env i) k a with
                         | (a, Err _) => fails StatusInternalServerError "failed to save keystore" a
                         | (a, Ok _) => (a, Reply StatusCreated no_body)
                         end
        end -> a_session x.1 = a_session a /\ a_mu x.1 = a_mu a) as Hn.
    { intros x ->. destruct (NewKeystore _ _) as [[k|e]|]; [|done..]. unfold save_ks. by destruct (Save _ _ _ _ _) as [d [[]|e]]. }
    destruct (e_stat (i_env i)), (a_disk a !! path); try (destruct (Hn _ eq_refl) as [-> ->]; done). done.
  - apply frozen_decode. intros pw a Hr. destruct (LoadKeystore _ _ _ _ _ _) as [[d [k|e]]|]; [| |done].
    + destruct (newToken (i_env i)); [|done]. by apply (frozen_Lock _ (with_disk a d)).
    + by destruct (errors_Is e ErrNotExist).
Qed.

(** While a read lock is left held. *)
Definition leaked (y : sys S D P) : Prop := (0 < mx_readers (a_mu (y_api y)))%nat.

Lemma step_leaked e y : leaked y ->
  let y' := (step e y).1 in
  leaked y' /\ a_session (y_api y') = a_session (y_api y) /\
  (mx_waiting (a_mu (y_api y)) = true -> mx_waiting (a_mu (y_api y')) = true).
Proof using Type.
  unfold leaked. intros Hl. destruct e as [i rq|header c|n i|i]; cbn [sys_step].
  - assert (let y' := (let '(a, o) := serve_public path usage indexHTML bt i rq (y_api y) in
        ({| y_api := a; y_pending := y_pending y |}, Some o)).1 in
      (0 < mx_readers (a_mu (y_api y')))%nat /\ a_session (y_api y') = a_session (y_api y) /\
      (mx_waiting (a_mu (y_api y)) = true -> mx_waiting (a_mu (y_api y')) = true)) as Hp.
    { destruct (serve_public_frozen i rq (y_api y) Hl) as (E1 & E2 & E3).
      destruct (serve_public path usage indexHTML bt i rq (y_api y)) as [a o]. cbn in *. split_and!; [lia|done|done]. }
    destruct rq; try exact Hp; by split_and!.
  - destruct (mx_waiting (a_mu (y_api y))) eqn:Ew; [by cbn; rewrite Ew|].
    destruct (authorised header (y_api y)); [|done]. done.
  - destruct (y_pending y !! n) as [c|]; [|done]. destruct (handle_frozen i c (y_api y) Hl) as (E1 & E2 & E3).
    destruct (handle path median bt i c (y_api y)) as [a o]. cbn in *. split_and!; [lia|done|done].
  - destruct (a_gifts (y_api y)) as [|[pub stamp] gifts]; [done|]. unfold sendPowGift. cbn.
    by destruct (Encrypt _ _ _).
Qed.

Lemma run_leaked es y : leaked y ->
  let y' := run es y in
  leaked y' /\ a_session (y_api y') = a_session (y_api y) /\
  (mx_waiting (a_mu (y_api y)) = true -> mx_waiting (a_mu (y_api y')) = true).
Proof using Type.
  revert y. induction es as [|e es IH]; intros y Hl; [done|]. unfold sys_run in *. cbn [foldl].
  destruct (step_leaked e y Hl) as (Hl1 & E1 & W1). destruct (IH _ Hl1) as (Hl2 & E2 & W2).
  split_and!; [done|congruence|auto].
Qed.

(** C22: Locking while a call is under way hangs the server.  A call that lists identities,
    channels or contacts passes the check of its token; before its handler runs another call
    locks.  Then the handler panics on the missing keystore while it holds the read lock,
    which nothing releases: from there on, whatever happens, the keystore stays locked,
    every unlock with the right password waits for ever, and once one has tried, so does
    every call before its token is looked at. *)
Theorem lock_race c i1 i2 header (y : sys S D P) :
  c = c_list_identities \/ c = c_list_channels \/ c = c_list_contacts ->
  good (y_api y) -> authorised header (y_api y) = true -> y_pending y = [] ->
  let y1 := run [ev_arrive header c; ev_arrive header c_lock; ev_run 1 i1] y in
  (step (ev_run 0 i2) y1).2 = Some Panic /\
  forall es, let y2 := run es (step (ev_run 0 i2) y1).1 in
    ss_ks (a_session (y_api y2)) = None /\
    (forall i pw k d, LoadKeystore (e_gens (i_env i)) (e_nonces (i_env i)) (e_io (i_env i)) path pw (a_disk (y_api y2)) = Some (d, Ok k) ->
       is_ok (e_token (i_env i)) = true ->
       (step (ev_public i (rq_unlock (Ok pw))) y2).2 = Some Blocked /\
       forall es' h' c', (step (ev_arrive h' c') (run es' (step (ev_public i (rq_unlock (Ok pw))) y2).1)).2 = Some Blocked).
Proof using Type.
  intros Hc Ha Hauth Hp. destruct y as [a pend]. cbn [y_api y_pending] in *. subst pend.
  pose proof Ha as [Hs Hm].
  assert (run [ev_arrive header c; ev_arrive header c_lock; ev_run 1 i1] {| y_api := a; y_pending := [] |}
          = {| y_api := with_session a locked_session; y_pending := [c] |}) as ->.
  { unfold sys_run. cbn [foldl sys_step y_api y_pending app fst]. rewrite Hm. cbn [free_mutex mx_waiting]. rewrite Hauth. cbn [fst y_api y_pending app].
    rewrite Hm. cbn [free_mutex mx_waiting]. rewrite Hauth. cbn [fst y_api y_pending app lookup list_lookup handle].
    unfold handleLock. rewrite Lock_free by done. reflexivity. }
  assert (step (ev_run 0 i2) {| y_api := with_session a locked_session; y_pending := [c] |}
          = ({| y_api := with_mu (with_session a locked_session) {| mx_readers := 1; mx_waiting := false |}; y_pending := [] |}, Some Panic)) as ->.
  { cbn [sys_step y_pending y_api lookup list_lookup]. destruct Hc as [->|[->| ->]]; cbn [handle];
      unfold handleListIdentities, handleListChannels, handleListContacts, RLock; cbn [with_session a_mu a_session]; rewrite Hm; reflexivity. }
  cbn [fst snd]. split; [done|]. intros es. cbv zeta.
  set (y0 := {| y_api := with_mu _ _; y_pending := [] |}).
  assert (leaked y0) as Hl by (unfold leaked, y0; cbn; lia).
  destruct (run_leaked es y0 Hl) as (Hl2 & Es & _). set (y2 := run es y0) in *. split; [by rewrite Es|].
  intros i pw k d Hload Htok.
  assert (step (ev_public i (rq_unlock (Ok pw))) y2
          = ({| y_api := with_mu (with_disk (y_api y2) d) {| mx_readers := mx_readers (a_mu (y_api y2)); mx_waiting := true |};
                y_pending := y_pending y2 |}, Some Blocked)) as ->.
  { cbn [sys_step serve_public]. unfold handleUnlock, decode. rewrite Hload. unfold newToken.
    destruct (e_token (i_env i)) as [tok|]; [|done]. cbn [fmap result_fmap]. rewrite Lock_blocked by exact Hl2. reflexivity. }
  split; [done|]. intros es' h' c'. cbn [fst].
  set (y3 := {| y_api := with_mu _ _; y_pending := y_pending y2 |}).
  assert (leaked y3) as Hl3 by exact Hl2.
  destruct (run_leaked es' y3 Hl3) as (_ & _ & W). cbn [sys_step]. by rewrite (W eq_refl).
Qed.
End Race.
