(* ===== verification/ApiKeys.v ===== *)
(** What the API promises about keys: a change it acknowledges survives a lock and an
    unlock, what a failed save leaves behind, and gifts of identity work. *)
From Stdlib Require Import String.
From S2P Require MessageFacts CryptoFacts FlatFile FlatFileFacts BluetoothFacts.
From S2P Require Import Prelude Codec Block Store Message Text IdPow Crypto MessageStore Keystore KeystoreFacts Client Api ApiMessages ApiServe ApiFacts.

(** ** Keystores that can be saved and opened *)

(** Well-formed, faithfully represented in JSON, and opened by the password. *)
Definition opens `{Primitives, Hashes} (pw : bytes) (k : Keystore) : Prop :=
  wf_keystore k /\ storable k /\
  deriveKey pw (ks_salt k) (ks_kdfTime k) (ks_kdfMemory k) (ks_kdfThreads k) = Some (ks_masterKey k).

Definition names_ok (k : Keystore) : Prop :=
  Forall (fun i => utf8_valid (id_Name i) = true) (ks_identities k) /\
  Forall (fun c => utf8_valid (ch_Name c) = true) (ks_channels k) /\
  Forall (fun c => utf8_valid (co_Name c) = true) (ks_contacts k).

(** The parameters of the key derivation. *)
Definition kdf_of (k : Keystore) : bytes * bytes * Z * Z * Z :=
  (ks_masterKey k, ks_salt k, ks_kdfTime k, ks_kdfMemory k, ks_kdfThreads k).

Section Opens.
Context `{PrimitivesLaws, HashesLaws, KeystoreJson}.

Lemma opens_step pw k k' : opens pw k -> ks_step k k' -> kdf_of k' = kdf_of k -> names_ok k' -> opens pw k'.
Proof using All.
  intros (Hwf & Hst & Hd) Hstep Hkdf (Hi & Hc & Ht). unfold kdf_of in Hkdf. injection Hkdf as E1 E2 E3 E4 E5.
  destruct Hst as (K1 & K2 & K3 & _). split; [by eapply ks_step_wf|]. split; [|by rewrite E1, E2, E3, E4, E5].
  unfold storable. rewrite E3, E4, E5. done.
Qed.

Lemma opens_names pw k : opens pw k -> names_ok k.
Proof using Type. intros (_ & (_ & _ & _ & ? & ? & ?) & _). done. Qed.
End Opens.

(** ** Which calls change the keystore *)

(** [encoding/json] yields strings of valid UTF-8. *)
Class KeystoreJsonTyped `{KeystoreJson} : Prop := {
  json_export_typed data b : json_Unmarshal_export data = Ok b -> utf8_valid (ie_Name b) = true;
}.

Definition changes (c : call) : bool :=
  match c with
  | c_change_password _ | c_add_identity _ | c_import_identity _ | c_mine_pow _ | c_remove_identity _
  | c_add_channel _ | c_remove_channel _ | c_add_contact _ | c_remove_contact _ | c_rename_contact _ _ => true
  | _ => false
  end.

(** The strings of the bodies are valid UTF-8. *)
Definition call_ok (c : call) : Prop :=
  match c with
  | c_add_identity (Ok name) | c_rename_contact _ (Ok name) => utf8_valid name = true
  | c_add_channel (Ok (name, _)) | c_add_contact (Ok (name, _)) => utf8_valid name = true
  | _ => True
  end.

(** Nonces have their size, and generated keys too. *)
Definition env_ok (ev : env) : Prop := nonces_ok (e_nonces ev) /\ forall key, e_gen ev = Ok key -> length key = 64%nat.

Definition new_password (c : call) (pw : bytes) : bytes :=
  match c with c_change_password (Ok pw') => pw' | _ => pw end.

(** The calls whose change the scraper must learn. *)
Definition rebuilds (c : call) : bool :=
  match c with
  | c_add_identity _ | c_import_identity _ | c_remove_identity _ | c_add_channel _ | c_remove_channel _ => true
  | _ => false
  end.

Definition acknowledged {I} (o : outcome I) : Prop := exists status b, o = Reply status b /\ status < 300.

(** ** Operations that keep a keystore openable *)

Section Operations.
Context `{PrimitivesLaws, HashesLaws, KeystoreJsonLaws, !KeystoreJsonTyped}.

(** An operation that keeps keystores openable, under another password maybe. *)
Definition opens_op {A} (pw pw' : bytes) (op : Keystore -> option (Keystore * result A)) : Prop :=
  forall k k' x, opens pw k -> op k = Some (k', Ok x) -> opens pw' k'.

Lemma opens_Add pw name gen : utf8_valid name = true -> (forall key, gen = Ok key -> length key = 64%nat) ->
  opens_op pw pw (fun k => Some (Add name gen k)).
Proof using All.
  intros Hn Hg k k' x Ho E. apply (inj Some) in E. assert (k' = (Add name gen k).1) as -> by (by rewrite E).
  apply (opens_step pw k); [done|by apply step_Add| |]; unfold Add in *; destruct (validateName name); try done;
    destruct (get k name); try done; destruct gen; try done.
  destruct (opens_names pw k Ho) as (Hi & Hc & Ht). split; [|done]. apply Forall_app. split; [done|]. by apply Forall_singleton.
Qed.

Lemma opens_SetIdentityPoW pw name stamp : opens_op pw pw (fun k => error_or (SetIdentityPoW name stamp k)).
Proof using All.
  intros k k' x Ho E. apply (inj Some), pair_eq in E as [<- _].
  apply (opens_step pw k); [done|apply step_SetIdentityPoW| |]; unfold SetIdentityPoW; destruct (get k name); try done; [|by eapply opens_names].
  destruct (opens_names pw k Ho) as (Hi & Hc & Ht). split; [|done]. by apply update_first_Forall.
Qed.

Lemma opens_Remove pw name : opens_op pw pw (fun k => found_or (Remove name k)).
Proof using All.
  intros k k' x Ho E. apply (inj Some), pair_eq in E as [<- _].
  apply (opens_step pw k); [done|apply step_Remove| |]; unfold Remove; destruct (remove_first _ _) eqn:Er; try done; [|by eapply opens_names].
  destruct (opens_names pw k Ho) as (Hi & Hc & Ht). split; [|done]. by eapply Forall_sublist; [eapply remove_first_sublist|].
Qed.

Lemma opens_AddChannel pw name pass : utf8_valid name = true -> opens_op pw pw (fun k => Some (AddChannel name pass k)).
Proof using All.
  intros Hn k k' x Ho E. apply (inj Some) in E. assert (k' = (AddChannel name pass k).1) as -> by (by rewrite E).
  apply (opens_step pw k); [done|apply step_AddChannel| |]; unfold AddChannel in *; destruct (getChannel k name); try done.
  destruct (opens_names pw k Ho) as (Hi & Hc & Ht). split; [done|]. split; [|done]. apply Forall_app. split; [done|]. by apply Forall_singleton.
Qed.

Lemma opens_RemoveChannel pw name : opens_op pw pw (fun k => found_or (RemoveChannel name k)).
Proof using All.
  intros k k' x Ho E. apply (inj Some), pair_eq in E as [<- _].
  apply (opens_step pw k); [done|apply step_RemoveChannel| |]; unfold RemoveChannel; destruct (remove_first _ _) eqn:Er; try done;
    [|by eapply opens_names].
  destruct (opens_names pw k Ho) as (Hi & Hc & Ht). split; [done|]. split; [|done]. by eapply Forall_sublist; [eapply remove_first_sublist|].
Qed.

Lemma opens_AddContact pw name pub : utf8_valid name = true -> opens_op pw pw (fun k => Some (AddContact name pub k)).
Proof using All.
  intros Hn k k' x Ho E. apply (inj Some) in E. assert (k' = (AddContact name pub k).1) as -> by (by rewrite E).
  apply (opens_step pw k); [done|apply step_AddContact| |]; unfold AddContact in *; destruct (validateName name); try done;
    destruct (negb _); try done; destruct (existsb _ _); try done.
  destruct (opens_names pw k Ho) as (Hi & Hc & Ht). split; [done|]. split; [done|]. apply Forall_app. split; [done|]. by apply Forall_singleton.
Qed.

Lemma opens_RemoveContact pw pub : opens_op pw pw (fun k => found_or (RemoveContact pub k)).
Proof using All.
  intros k k' x Ho E. apply (inj Some), pair_eq in E as [<- _].
  apply (opens_step pw k); [done|apply step_RemoveContact| |]; unfold RemoveContact; destruct (remove_first _ _) eqn:Er; try done;
    [|by eapply opens_names].
  destruct (opens_names pw k Ho) as (Hi & Hc & Ht). split; [done|]. split; [done|]. by eapply Forall_sublist; [eapply remove_first_sublist|].
Qed.

Lemma opens_RenameContact pw pub name : utf8_valid name = true -> opens_op pw pw (fun k => rename_or (RenameContact pub name k)).
Proof using All.
  intros Hn k k' x Ho E. apply (inj Some), pair_eq in E as [<- _].
  apply (opens_step pw k); [done|apply step_RenameContact| |]; unfold RenameContact; destruct (validateName name); try done;
    [by destruct (existsb _ _)|by eapply opens_names|].
  destruct (existsb _ _); [|by eapply opens_names]. destruct (opens_names pw k Ho) as (Hi & Hc & Ht). split; [done|]. split; [done|].
  by apply update_first_Forall.
Qed.

Lemma opens_ImportIdentity pw bundle pass : opens_op pw pw (ImportIdentity bundle pass).
Proof using All.
  intros k k' x Ho E. apply (opens_step pw k); [done|by eapply step_ImportIdentity| |];
    unfold ImportIdentity in E; destruct (json_Unmarshal_export bundle) as [b|] eqn:Eb; try done; repeat (case_match; try done);
    apply (inj Some), pair_eq in E as [<- _]; try done.
  destruct (opens_names pw k Ho) as (Hi & Hc & Ht). split; [|done]. apply Forall_app. split; [done|]. apply Forall_singleton.
  by eapply json_export_typed.
Qed.

Lemma opens_ChangePassword pw salt pw' : opens_op pw pw' (fun k => ChangePassword salt pw' k ≫= error_or).
Proof using All.
  intros k k' x Ho E. apply bind_Some in E as ([k1 o] & Ec & E). apply (inj Some), pair_eq in E as [<- E]. destruct o; [done|].
  cbn [fst]. destruct Ho as (Hwf & Hst & Hd).
  assert (wf_keystore k1) as Hwf1 by (eapply ks_step_wf; [exact Hwf|by eapply step_ChangePassword]).
  unfold ChangePassword in Ec. destruct salt as [salt|]; [|done].
  destruct (deriveKey pw' salt (ks_kdfTime k) (ks_kdfMemory k) (ks_kdfThreads k)) as [key|] eqn:Ek; [|done].
  apply (inj Some), pair_eq in Ec as [<- _]. split; [done|]. split; [exact Hst|exact Ek].
Qed.

End Operations.

Section Survives.
Context `{PrimitivesLaws, HashesLaws, KeystoreJsonLaws, !KeystoreJsonTyped, GoTimeFormat} {S : Type} `{Store S} {D : Type} `{MessageDB D} {P : Type} `{PeerManager P}.
Context (path : bytes) (median : option (S -> result Z)) (bt : option Z).
#[local] Abbreviation handler := (api S D P -> api S D P * outcome PeerInfo).

(** A file that holds the keystore, for whoever knows the password. *)
Definition saved (pw : bytes) (k : Keystore) (d : disk) : Prop :=
  forall gens nonces sio, LoadKeystore gens nonces sio path pw d = Some (d, Ok k).

(** What a change that is acknowledged has done. *)
Definition done_well (pw' : bytes) (rebuild : bool) (a' : api S D P) : Prop :=
  exists k', ss_ks (a_session a') = Some k' /\ opens pw' k' /\ saved pw' k' (a_disk a') /\
    (rebuild = true -> ss_scraper (a_session a') = Some (ListIdentities k', Channels k')).

Lemma change_ks_acknowledged {A} pw pw' ev (op : Keystore -> option (Keystore * result A)) on_err rebuild reply (a : api S D P) k :
  opens_op pw pw' op -> nonces_ok (e_nonces ev) -> (forall e, ~ acknowledged (on_err e)) ->
  a_mu a = free_mutex -> ss_ks (a_session a) = Some k -> opens pw k ->
  let '(a', o) := change_ks path ev op on_err rebuild reply a in acknowledged o -> done_well pw' rebuild a'.
Proof using All.
  intros Hop Hn Herr Hm Hk Ho. unfold change_ks. rewrite Lock_free by done. rewrite Hk.
  destruct (op k) as [[k' [x|e]]|] eqn:Eop; [| |by intros (? & ? & ? & _)].
  2:{ intros Ha. by destruct (Herr e). }
  specialize (Hop k k' x Ho Eop). unfold save_ks. destruct (Save _ _ _ _ _) as [d r] eqn:Es.
  pose proof (Save_cases _ _ _ _ _ _ _ Es) as [_ Hs]. destruct r as [[]|e]; [|by intros (? & ? & [= <- <-] & ?)].
  destruct Hs as (f & data & Hf & Hj & Hd & _). pose proof Hop as (Hwf & Hst & Hder).
  assert (saved pw' k' d) as Hsaved.
  { intros gens nonces sio. destruct Hwf. eapply (LoadKeystore_saved k' Hst); try done; [by eapply deriveKey_length|].
    eapply Forall_impl; [done|]. by intros c [_ ?]. }
  destruct rebuild; cbn [rebuildScraper with_disk with_session with_ks a_session ss_ks]; intros _; by exists k'.
Qed.

(** An answer that, when it acknowledges a change, can be built on: the keystore is open under
    the password and an unlock after a lock brings it back. *)
Definition survives (pw' : bytes) (rebuild : bool) (x : api S D P * outcome PeerInfo) : Prop :=
  let '(a', o) := x in
  acknowledged o ->
  exists k', ss_ks (a_session a') = Some k' /\ opens pw' k' /\
    (rebuild = true -> ss_scraper (a_session a') = Some (ListIdentities k', Channels k')) /\
    forall ev token, newToken ev = Ok token ->
      let '(a'', o'') := handleUnlock path ev (Ok pw') (handleLock a').1 in
      o'' = Reply StatusOK (token_body token) /\ ss_ks (a_session a'') = Some k' /\ a_disk a'' = a_disk a' /\
      ss_scraper (a_session a'') = Some (ListIdentities k', Channels k').

Lemma done_well_survives pw' rebuild (a' : api S D P) o :
  (acknowledged o -> done_well pw' rebuild a') -> a_mu a' = free_mutex -> survives pw' rebuild (a', o).
Proof using All.
  intros Hx Hm Hack. destruct (Hx Hack) as (k' & E1 & E2 & E3 & E4). exists k'. split_and!; try done.
  intros ev token Ht. unfold handleLock, handleUnlock, decode. rewrite Lock_free by done. cbn [fst with_session a_disk].
  rewrite (E3 (e_gens ev) (e_nonces ev) (e_io ev)), Ht. rewrite Lock_free by exact Hm. done.
Qed.

Lemma change_survives {A} pw pw' ev (op : Keystore -> option (Keystore * result A)) on_err rebuild reply (a : api S D P) k :
  opens_op pw pw' op -> nonces_ok (e_nonces ev) -> (forall e, ~ acknowledged (on_err e)) ->
  a_mu a = free_mutex -> ss_ks (a_session a) = Some k -> opens pw k ->
  survives pw' rebuild (change_ks path ev op on_err rebuild reply a).
Proof using All.
  intros Hop Hn Herr Hm Hk Ho. pose proof (change_ks_acknowledged pw pw' ev op on_err rebuild reply a k Hop Hn Herr Hm Hk Ho) as Hd.
  assert (a_mu (change_ks path ev op on_err rebuild reply a).1 = free_mutex) as Hmu.
  { unfold change_ks. rewrite Lock_free by done. rewrite Hk. destruct (op k) as [[k' [x|e]]|]; [|done|done].
    unfold save_ks. destruct (Save _ _ _ _ _) as [d [[]|e]]; [|done]. by destruct rebuild. }
  destruct (change_ks path ev op on_err rebuild reply a) as [a' o]. by apply done_well_survives.
Qed.

Lemma refused_reply st (b : body PeerInfo) : 300 <= st -> ~ acknowledged (Reply st b).
Proof using Type. intros Hst (? & ? & [= <- _] & ?). lia. Qed.

Lemma refused_error (msg : string) st : 300 <= st -> ~ acknowledged (writeError st msg : outcome PeerInfo).
Proof using Type. intros Hst (? & ? & [= <- _] & ?). lia. Qed.

(** An answer that acknowledges nothing. *)
#[local] Ltac refuse := solve [intros Hx; first [by apply refused_reply in Hx | by apply refused_error in Hx]].
(** What remains is the operation on the keystore. *)
#[local] Ltac changes := eapply change_survives; try done; [|intros ?; by first [apply refused_reply | apply refused_error]].

(** C10: What the API acknowledges survives.  When a call that changes the keystore is
    answered with a status below 300, the keystore in memory is on the disk: locking and
    unlocking with the password, the new one after a change of password, succeeds and
    brings back exactly the same identities with their stamps, channels and contacts; and
    after a change of identities or channels the scraper uses the new keys. *)
Theorem acknowledged_survives i c pw k (a : api S D P) :
  a_mu a = free_mutex -> ss_ks (a_session a) = Some k -> opens pw k ->
  changes c = true -> call_ok c -> env_ok (i_env i) ->
  let '(a', o) := handle path median bt i c a in
  acknowledged o ->
  exists k', ss_ks (a_session a') = Some k' /\ opens (new_password c pw) k' /\
    (rebuilds c = true -> ss_scraper (a_session a') = Some (ListIdentities k', Channels k')) /\
    forall ev token, newToken ev = Ok token ->
      let '(a'', o'') := handleUnlock path ev (Ok (new_password c pw)) (handleLock a').1 in
      o'' = Reply StatusOK (token_body token) /\ ss_ks (a_session a'') = Some k' /\ a_disk a'' = a_disk a' /\
      ss_scraper (a_session a'') = Some (ListIdentities k', Channels k').
Proof using All.
  intros Hm Hk Ho Hc Hcok [Hn Hgen]. change (survives (new_password c pw) (rebuilds c) (handle path median bt i c a)).
  destruct c as [req| | |req|req|name req|name|name| |req|name|after_id since|hexID| |req|req|req|req| |req|pub|pub req| |req|u|u|u];
    try discriminate Hc; cbn [handle rebuilds new_password].
  - unfold handleChangePassword, decode. destruct req as [pw'|e]; [|refuse]. case_bool_decide; [refuse|]. changes. apply opens_ChangePassword.
  - unfold handleAddIdentity, decode. destruct req as [name|e]; [|refuse]. case_bool_decide; [refuse|]. changes. by apply opens_Add.
  - unfold handleImportIdentity, decode. destruct req as [[bundle pass]|e]; [|refuse].
    case_bool_decide; [refuse|]. destruct (length bundle =? 0)%nat; [refuse|]. changes. apply opens_ImportIdentity.
  - unfold handleMineIdentityPoW. rewrite (RLock_free _ _ a (GetIdentity k name)) by (done || by rewrite Hk).
    destruct (GetIdentity k name) as [id|]; [|refuse].
    destruct (MineIdentityPoW _ _ _ _) as [[[stamp bits] [e|]]|]; [refuse| |by intros (? & ? & ? & _)].
    changes. apply opens_SetIdentityPoW.
  - changes. apply opens_Remove.
  - unfold handleAddChannel, decode. destruct req as [[name pass]|e]; [|refuse]. destruct (_ || _); [refuse|]. changes. by apply opens_AddChannel.
  - changes. apply opens_RemoveChannel.
  - unfold handleAddContact, decode. destruct req as [[name pub64]|e]; [|refuse].
    destruct (b64_decode _ _) as [b|]; [|refuse]. changes. by apply opens_AddContact.
  - unfold handleRemoveContact, path_key. destruct (b64_decode _ _) as [b|]; [|refuse].
    destruct (negb _); [refuse|]. changes. apply opens_RemoveContact.
  - unfold handleRenameContact, path_key, decode. destruct (b64_decode _ _) as [b|]; [|refuse].
    destruct (negb _); [refuse|]. destruct req as [name|e]; [|refuse].
    eapply change_survives; try done; [by apply opens_RenameContact|]. intros e. case_bool_decide; [by apply refused_error|by apply refused_reply].
Qed.
End Survives.
