(* ===== verification/ApiListing.v ===== *)
(** Messages through the API: the cache of identity work never shows, a listing returns
    what it should, and what is sent can be read by the one it was sent to. *)
From Stdlib Require Import String.
From S2P Require Import Prelude Codec Block Store Message Text Strconv IdPow Crypto MessageStore Keystore Client Api ApiMessages ApiServe ApiFacts.

(** ** The cache *)

Section CacheKeys.
Context `{Hashes}.

Lemma length_b64_std l : length (b64_encode StdEncoding l) = (4 * ((length l + 2) / 3))%nat.
Proof using Type.
  induction l as [|a|a b|a b c l IH] using list_ind3; [done..|]. cbn [b64_encode length]. rewrite IH.
  replace (S (S (S (length l))) + 2)%nat with (length l + 2 + 1 * 3)%nat by lia. rewrite Nat.div_add by done. lia.
Qed.

Lemma b64_encode_inj e l1 l2 : (forall l, b64_decode e (b64_encode e l) = Ok l) -> b64_encode e l1 = b64_encode e l2 -> l1 = l2.
Proof using Type. intros Hr E. apply (inj Ok). by rewrite <- (Hr l1), <- (Hr l2), E. Qed.

(** Keys of the same size are told apart. *)
Lemma cache_key_inj p1 p2 s1 s2 : length p1 = length p2 -> cache_key p1 s1 = cache_key p2 s2 -> p1 = p2 /\ s1 = s2.
Proof using Type.
  unfold cache_key. intros Hl E. apply app_inj_1 in E as [Ep Es]; [|by rewrite !length_b64_std, Hl].
  split; [by eapply b64_encode_inj; [apply std_roundtrip|]|].
  apply (app_inj_1 (bs ":") (bs ":")) in Es as [_ Es]; [|done]. by eapply b64_encode_inj; [apply rawurl_roundtrip|].
Qed.

(** What the cache holds for a key of a sender is the work factor of the stamp. *)
Definition cache_ok (cache : gmap bytes Z) : Prop :=
  forall pub stamp v, length pub = 32%nat -> cache !! cache_key pub stamp = Some v -> v = IdentityWorkFactor stamp pub.

(** The bits without a cache. *)
Definition header_bits (content pub : bytes) : Z :=
  match ParseSnkStamp content pub with Some (_, bits) => bits | None => 0 end.

Lemma ParseSnkStamp_bits content pub stamp bits :
  ParseSnkStamp content pub = Some (stamp, bits) -> length pub = 32%nat /\ bits = IdentityWorkFactor stamp pub.
Proof using Type.
  unfold ParseSnkStamp. intros E. repeat (case_match; try done).
  all: match goal with Hb : _ || _ = false |- _ => apply orb_false_iff in Hb as [Hl Hp] end;
    apply negb_false_iff, Nat.eqb_eq in Hl; apply negb_false_iff, bool_decide_eq_true in Hp; subst;
    apply (inj Some), pair_eq in E as [<- <-]; by split.
Qed.

Lemma getIdPowBits_spec content pub cache : cache_ok cache ->
  cache_ok (getIdPowBits content pub cache).1 /\ (getIdPowBits content pub cache).2 = header_bits content pub.
Proof using Type.
  intros Hc. unfold getIdPowBits, header_bits. destruct (ParseSnkStamp content pub) as [[stamp bits]|] eqn:E; [|done].
  apply ParseSnkStamp_bits in E as [Hl ->]. destruct (cache !! cache_key pub stamp) as [v|] eqn:Ev.
  - split; [done|]. by apply Hc.
  - split; [|done]. intros p s v Hp Hv. cbn [fst] in Hv. apply lookup_insert_Some in Hv as [[Hk <-]|[_ Hv]]; [|by apply Hc].
    apply cache_key_inj in Hk as [<- <-]; [done|congruence].
Qed.
End CacheKeys.

(** A handler that keeps the cache right. *)
Definition caches `{Hashes} {S D P I} (h : api S D P -> api S D P * outcome I) : Prop :=
  forall a, cache_ok (a_cache a) -> cache_ok (a_cache (h a).1).

Section CacheCombinators.
Context `{Hashes} {S D P I : Type}.
#[local] Abbreviation handler := (api S D P -> api S D P * outcome I).

Lemma caches_fails status msg : caches (fails status msg : handler).
Proof using Type. by intros a. Qed.

Lemma caches_same (h : handler) : (forall a, a_cache (h a).1 = a_cache a) -> caches h.
Proof using Type. intros Hh a Ha. by rewrite Hh. Qed.

Lemma caches_decode {A} (req : result A) (k : A -> handler) : (forall x, caches (k x)) -> caches (decode req k).
Proof using Type. intros Hk a Ha. unfold decode. destruct req as [x|e]; [by apply Hk|done]. Qed.

Lemma caches_if (b : bool) (h1 h2 : handler) : caches h1 -> caches h2 -> caches (if b then h1 else h2).
Proof using Type. by destruct b. Qed.

Lemma caches_Lock (k : handler) : caches k -> caches (Lock k).
Proof using Type. intros Hk a Ha. unfold Lock. destruct (_ || _); [done|by apply Hk]. Qed.

Lemma caches_RLock {A} (f : api S D P -> option A) (k : A -> handler) : (forall x, caches (k x)) -> caches (RLock f k).
Proof using Type. intros Hk a Ha. unfold RLock. destruct (mx_waiting _); [done|]. destruct (f a); [by apply Hk|done]. Qed.
End CacheCombinators.

Section Cached.
Context `{Primitives, Hashes, Ed25519, KeystoreJson, GoTimeFormat} {S : Type} `{Store S} {D : Type} `{MessageDB D} {P : Type} `{PeerManager P}.

(** The response to a message when nothing is cached. *)
Definition uncached (now : Z) (a : api S D P) (m : StoredMessage) : msgResp := (buildMsgResp now m (with_cache a ∅)).2.

Lemma uncached_bits now a m :
  mr_IdPowBits (uncached now a m) = if bool_decide (sm_SenderPub m = zero_pub) then 0 else header_bits (header_content m) (sm_SenderPub m).
Proof using Type.
  unfold uncached, buildMsgResp. case_bool_decide; [done|]. unfold getIdPowBits, header_bits.
  by destruct (ParseSnkStamp _ _) as [[stamp bits]|].
Qed.

(** The response reads the store and the message, and nothing else of the server. *)
Lemma uncached_blocks now (a a' : api S D P) m : a_blocks a' = a_blocks a -> uncached now a' m = uncached now a m.
Proof using Type. intros E. unfold uncached, buildMsgResp. cbn [with_cache a_cache a_blocks]. rewrite E. by destruct (if bool_decide _ then _ else _). Qed.

Lemma buildMsgResp_spec now m (a : api S D P) : cache_ok (a_cache a) ->
  exists cache, cache_ok cache /\ buildMsgResp now m a = (with_cache a cache, uncached now a m).
Proof using Type.
  intros Ha. unfold uncached, buildMsgResp. cbn [with_cache a_cache a_blocks]. case_bool_decide as Hz.
  - exists (a_cache a). split; [done|reflexivity].
  - pose proof (getIdPowBits_spec (header_content m) (sm_SenderPub m) _ Ha) as [Hc Hb].
    assert (cache_ok (∅ : gmap bytes Z)) as He by (by intros p s v _ Hv%lookup_empty_Some).
    pose proof (getIdPowBits_spec (header_content m) (sm_SenderPub m) _ He) as [_ Hb'].
    destruct (getIdPowBits _ _ (a_cache a)) as [c b], (getIdPowBits _ _ ∅) as [c' b']. cbn in *. subst b b'. by exists c.
Qed.

Lemma build_all_spec now msgs (a : api S D P) : cache_ok (a_cache a) ->
  exists cache, cache_ok cache /\ build_all now msgs a = (with_cache a cache, uncached now a <$> msgs).
Proof using Type.
  revert a. induction msgs as [|m msgs IH]; intros a Ha; cbn [build_all].
  { exists (a_cache a). split; [done|]. by destruct a. }
  destruct (buildMsgResp_spec now m a Ha) as (c & Hc & ->). destruct (IH (with_cache a c) Hc) as (c' & Hc' & ->).
  exists c'. split; [done|]. cbn [fmap list_fmap]. f_equal.
Qed.

(** *** Boosted messages *)

(** The messages of blocks that were not seen, each once. *)
Fixpoint fresh_messages (db : D) (seen : gset bytes) (ids : list bytes) : list StoredMessage :=
  match ids with
  | [] => []
  | id :: ids' =>
      if bool_decide (id ∈ seen) then fresh_messages db seen ids'
      else
        match GetMessage id db with
        | Ok (Some m) => m :: fresh_messages db ({[ id ]} ∪ seen) ids'
        | _ => fresh_messages db seen ids'
        end
  end.

Lemma add_boosted_fold now refs cache seen out (a : api S D P) : cache_ok cache ->
  exists cache' seen', cache_ok cache' /\
    foldl (fun st r => add_boosted now r st) (with_cache a cache, seen, out) refs
    = (with_cache a cache', seen', out ++ (uncached now a <$> fresh_messages (a_msgs a) seen (br_ID <$> refs))).
Proof using Type.
  revert cache seen out. induction refs as [|r refs IH]; intros cache seen out Hc; cbn [foldl].
  { exists cache, seen. split; [done|]. by rewrite app_nil_r. }
  cbn [fmap list_fmap fresh_messages]. unfold add_boosted at 2. case_bool_decide; [by apply IH|].
  cbn [with_cache a_msgs]. destruct (GetMessage (br_ID r) (a_msgs a)) as [[m|]|]; [|by apply IH..].
  destruct (buildMsgResp_spec now m (with_cache a cache) Hc) as (c & Hc' & ->).
  destruct (IH c ({[br_ID r]} ∪ seen) (out ++ [uncached now (with_cache a cache) m]) Hc') as (c' & seen' & Hc'' & E).
  exists c', seen'. split; [done|]. change (with_cache (with_cache a cache) c) with (with_cache a c). rewrite E.
  by rewrite <- app_assoc.
Qed.
End Cached.

(** What a database returns for a block is a message of that block. *)
Lemma GetMessage_id `{MessageDBLaws} id db m : is_ID id -> GetMessage id db = Ok (Some m) -> sm_BlockID m = id.
Proof.
  intros Hid. unfold GetMessage. destruct (db_select_block id db) as [o|] eqn:E; [|done]. intros Hm%(inj Ok).
  apply db_select_block_spec in E. destruct o as [r|]; [|done]. apply (inj Some) in Hm as <-. destruct E as [_ E].
  cbn [sm_BlockID scanMessage]. rewrite E. by apply copy_at_whole.
Qed.

Lemma fresh_messages_spec `{MessageDBLaws} db seen ids : Forall is_ID ids ->
  NoDup (sm_BlockID <$> fresh_messages db seen ids) /\
  forall id, (id ∈ (sm_BlockID <$> fresh_messages db seen ids)) <->
    (id ∉ seen) /\ (id ∈ ids) /\ exists m, GetMessage id db = Ok (Some m).
Proof.
  intros Hids. revert seen. induction Hids as [|x ids Hx Hids IH]; intros seen; cbn [fresh_messages].
  { split; [constructor|]. set_solver. }
  case_bool_decide as Hin.
  { destruct (IH seen) as [Hn Hm]. split; [done|]. intros id. rewrite Hm. set_solver. }
  destruct (GetMessage x db) as [[m|]|e] eqn:E.
  - pose proof (GetMessage_id x db m Hx E) as Hid. destruct (IH ({[x]} ∪ seen)) as [Hn Hm]. cbn [fmap list_fmap]. rewrite Hid. split.
    + constructor; [|done]. rewrite Hm. set_solver.
    + intros id. rewrite elem_of_cons, Hm. destruct (decide (id = x)) as [->|Hne]; [|set_solver].
      split; [|by left]. intros _. split_and!; [done|left|by exists m].
  - destruct (IH seen) as [Hn Hm]. split; [done|]. intros id. rewrite Hm, elem_of_cons.
    split; [tauto|]. intros (? & [->|?] & m & Hg); [congruence|]. split_and!; [done|done|by exists m].
  - destruct (IH seen) as [Hn Hm]. split; [done|]. intros id. rewrite Hm, elem_of_cons.
    split; [tauto|]. intros (? & [->|?] & m & Hg); [congruence|]. split_and!; [done|done|by exists m].
Qed.

Section Listing.
Context `{Primitives, Hashes, Ed25519, KeystoreJson, GoTimeFormat} {S : Type} `{StoreLaws S} {D : Type} `{MessageDBLaws D} {P : Type} `{PeerManager P}.
#[local] Abbreviation handler := (api S D P -> api S D P * outcome PeerInfo).

(** A block of the index that is recent enough. *)
Definition recent (since : Z) (blocks : S) (id : bytes) : Prop :=
  exists en, en ∈ store_index blocks /\ cur_id (en_cursor en) = id /\ since <= cur_createdAt (en_cursor en) /\ 0 <= en_wf en.

(** C17: A listing is complete, has nothing twice, and does not show the cache.  It ends
    within one page more than there are blocks with a reply 200 that holds the messages
    above [after_id] in the order of the database and then, when [wf_updated_since] is
    positive, exactly one message for each block of the store created since then that has
    a message and is not listed already; each response is the one a server with an empty
    cache gives, and the cache stays right. *)
Theorem listing_spec fuel ev after_id since msgs (a : api S D P) :
  cache_ok (a_cache a) -> store_inv (a_blocks a) -> ListMessagesAfter (ParseInt after_id) (a_msgs a) = Ok msgs ->
  (forall t c, valid_token (store_index (a_blocks a)) t c ->
     is_ok (store_ListBlocks (e_now ev) (a_blocks a) t 200 0 (time_Unix (ParseInt since))) = true) ->
  (length (store_index (a_blocks a)) < fuel)%nat ->
  exists more cache,
    (handleListMessages fuel ev after_id since : handler) a
    = (with_cache a cache, Reply StatusOK (messages (uncached (e_now ev) a <$> msgs ++ more))) /\
    cache_ok cache /\ NoDup (sm_BlockID <$> more) /\
    forall id, (id ∈ (sm_BlockID <$> more)) <->
      0 < ParseInt since /\ (id ∉ (sm_BlockID <$> msgs)) /\ recent (ParseInt since) (a_blocks a) id /\
      exists m, GetMessage id (a_msgs a) = Ok (Some m).
Proof using Type*.
  intros Hc Hinv Hl Hok Hf. unfold handleListMessages. rewrite Hl.
  destruct (build_all_spec (e_now ev) msgs a Hc) as (c & Hc1 & ->). destruct (Z.ltb_spec 0 (ParseInt since)) as [Hs|Hs].
  2:{ exists [], c. rewrite app_nil_r. split; [done|]. split; [done|]. split; [constructor|]. intros id. split; [by intros ?%elem_of_nil|lia]. }
  cbn [with_cache a_blocks].
  assert (in_s64 (Unix (time_Unix (ParseInt since)))) as Hr by (rewrite Unix_time_Unix; apply ParseInt_range).
  destruct (page_loop_complete (fun _ st => Ok st) (fun ref st => Ok (add_boosted (S:=S) (D:=D) (P:=P) (e_now ev) ref st))
    (e_now ev) (a_blocks a) 200 0 (time_Unix (ParseInt since)) Hinv eq_refl Hr fuel
    (with_cache a c, list_to_set (sm_BlockID <$> msgs), uncached (e_now ev) a <$> msgs) (add_boosted (e_now ev)))
    as (refs & Hv & ->); [done|exact Hok|eapply Nat.le_lt_trans; [apply length_filter|exact Hf]|].
  destruct (add_boosted_fold (e_now ev) refs c (list_to_set (sm_BlockID <$> msgs)) (uncached (e_now ev) a <$> msgs) a Hc1)
    as (c' & seen' & Hc2 & ->).
  set (more := fresh_messages _ _ _). exists more, c'. rewrite fmap_app. split; [done|]. split; [done|].
  assert (br_ID <$> refs = (fun en => cur_id (en_cursor en)) <$> remaining (store_index (a_blocks a)) 0 (ParseInt since) None) as Hids.
  { rewrite Unix_time_Unix in Hv. apply (f_equal (fmap fst)) in Hv. rewrite <- !list_fmap_compose in Hv. exact Hv. }
  assert (Forall is_ID (br_ID <$> refs)) as Hid.
  { rewrite Hids. apply Forall_fmap, Forall_forall. intros en Hen%remaining_elem.
    pose proof (store_index_wf _ Hinv) as Hw. rewrite Forall_forall in Hw. apply (Hw en Hen). }
  destruct (fresh_messages_spec (a_msgs a) (list_to_set (sm_BlockID <$> msgs)) _ Hid) as [Hn Hm].
  split; [exact Hn|]. intros id. unfold more. rewrite Hm, not_elem_of_list_to_set, Hids. unfold recent, remaining.
  split.
  - intros (Hni & (en & -> & [Hle Hen]%list_elem_of_filter)%list_elem_of_fmap & Hg). split_and!; [done|done| |done]. exists en.
    unfold listed, meets in Hle. cbn [after] in Hle. rewrite !andb_true_iff, !Z.leb_le in Hle. split; [done|]. split; [done|]. by destruct Hle as (_ & ? & ?).
  - intros (_ & Hni & (en & Hen & <- & Hcr & Hwf) & Hg). split_and!; [done| |done]. apply list_elem_of_fmap. exists en. split; [done|].
    apply list_elem_of_filter. split; [|done]. unfold listed, meets. cbn [after].
    apply andb_true_iff. split; [done|]. apply andb_true_iff. split; by apply Z.leb_le.
Qed.
End Listing.

(** ** The cache is right whatever happens *)

Section CacheInvariant.
Context `{Primitives, Hashes, Ed25519, KeystoreJson, GoTimeFormat} {S : Type} `{Store S} {D : Type} `{MessageDB D} {P : Type} `{PeerManager P}.
Context (path : bytes) (median : option (S -> result Z)) (usage : option (S -> Z)) (indexHTML : bytes) (bt : option Z).
#[local] Abbreviation handler := (api S D P -> api S D P * outcome PeerInfo).

Lemma change_ks_caches {A} ev (op : Keystore -> option (Keystore * result A)) on_err rebuild reply :
  caches (change_ks path ev op on_err rebuild reply : handler).
Proof using Type.
  apply caches_Lock, caches_same. intros a. destruct (ss_ks (a_session a)) as [k|]; [|done].
  destruct (op k) as [[k' [x|e]]|]; [|done..]. unfold save_ks. destruct (Save _ _ _ _ _) as [d [[]|e]]; [|done].
  by destruct (if rebuild then _ else _).
Qed.

Lemma with_cached (a a' : api S D P) : a_cache a' = a_cache a -> cache_ok (a_cache a) -> cache_ok (a_cache a').
Proof using Type. by intros ->. Qed.

Lemma handleListMessages_caches fuel ev after_id since : caches (handleListMessages fuel ev after_id since : handler).
Proof using Type.
  intros a Ha. unfold handleListMessages. destruct (ListMessagesAfter _ _) as [msgs|]; [|done].
  destruct (build_all_spec (e_now ev) msgs a Ha) as (c & Hc & ->). destruct (0 <? _); [|done].
  pose proof (page_loop_keeps (fun st : boosted_state (S:=S) (D:=D) (P:=P) => cache_ok (a_cache st.1.1))
    (fun token => store_ListBlocks (e_now ev) (a_blocks (with_cache a c)) token 200 0 (time_Unix (ParseInt since)))
    (fun _ st => Ok st) (fun ref st => Ok (add_boosted (S:=S) (D:=D) (P:=P) (e_now ev) ref st)) ltac:(done)) as Hl.
  assert (forall (r : BlockRef) (st : boosted_state (S:=S) (D:=D) (P:=P)), cache_ok (a_cache st.1.1) -> cache_ok (a_cache (add_boosted (e_now ev) r st).1.1)) as Hv.
  { intros r [[b seen] out] Hb. unfold add_boosted. case_bool_decide; [done|]. destruct (GetMessage _ _) as [[m|]|]; [|done..].
    by destruct (buildMsgResp_spec (e_now ev) m b Hb) as (c' & Hc' & ->). }
  specialize (Hl Hv fuel [] (with_cache a c, list_to_set (sm_BlockID <$> msgs), uncached (e_now ev) a <$> msgs) Hc).
  by destruct (page_loop _ _ _ _ _ _) as [[[[a2 seen] out2]|]|].
Qed.

Lemma handleGetMessage_caches ev hexID : caches (handleGetMessage ev hexID : handler).
Proof using Type.
  intros a Ha. unfold handleGetMessage. destruct (hex_id hexID) as [id|]; [|done].
  destruct (GetMessage id (a_msgs a)) as [[m|]|]; [|done..]. by destruct (buildMsgResp_spec (e_now ev) m a Ha) as (c & Hc & ->).
Qed.

Lemma apply_gifts_cache ev gifts (a : api S D P) : a_cache (apply_gifts path ev gifts a).1 = a_cache a.
Proof using Type.
  revert a. induction gifts as [|[name stamp] gifts IH]; intros a; [done|]. cbn [apply_gifts].
  assert (a_cache (applyPowGift path ev name stamp a).1 = a_cache a) as E.
  { unfold applyPowGift. destruct (_ || _); [done|]. destruct (ss_ks (a_session a)) as [k|]; [|done].
    destruct (GetIdentity k name) as [id|]; [|done]. destruct (_ <=? _); [done|]. destruct (SetIdentityPoW _ _ _) as [k' o].
    unfold save_ks. by destruct (Save _ _ _ _ _). }
  destruct (applyPowGift path ev name stamp a) as [a' [o|]]; [done|]. by rewrite IH.
Qed.

Lemma handleScrape_caches fuel ev now_save scanStart ctx req : caches (handleScrape path fuel ev now_save scanStart ctx req : handler).
Proof using Type.
  apply caches_RLock. intros scraper. apply caches_same. intros a. destruct (prepare_checkpoint req (a_msgs a)) as [db [[what e]|]]; [done|].
  destruct scraper as [[ids chs]|]; [|done]. cbv zeta. destruct (Scrape _ _ _ _ _ _ _ _ _ _) as [[st err]|]; [|done].
  pose proof (apply_gifts_cache ev (reverse (sc_gifts st)) (with_msgs a (sc_db st))) as E.
  destruct (apply_gifts _ _ _ _) as [a' [o|]]; [exact E|]. by destruct err.
Qed.

Lemma publish_caches ev rounds payload (k : ID -> handler) : (forall id, caches (k id)) -> caches (publish median ev rounds payload k).
Proof using Type.
  intros Hk a Ha. unfold publish. destruct payload as [payload|e]; [|done].
  destruct (MineStamp payload _ rounds) as [[[stamp wf] [e|]]|]; [done| |done].
  destruct (store_Put _ _ _ _ _) as [st [id|e]]; [|done]. exact (Hk id (with_blocks a st) Ha).
Qed.

Lemma resolve_sender_caches ks name (k : option Identity -> handler) : (forall s, caches (k s)) -> caches (resolve_sender ks name k).
Proof using Type.
  intros Hk. unfold resolve_sender. case_bool_decide; [apply Hk|]. intros a Ha. destruct ks as [ks|]; [|done].
  destruct (GetIdentity ks name); [by apply Hk|done].
Qed.

Lemma resolve_refs_caches reply_to (k : list bytes -> handler) : (forall refs, caches (k refs)) -> caches (resolve_refs reply_to k).
Proof using Type.
  intros Hk. unfold resolve_refs. case_bool_decide; [apply Hk|]. intros a Ha. destruct (hex_id reply_to) as [id|]; [|done].
  destruct (GetMessage id (a_msgs a)) as [[m|]|]; [by apply Hk|by apply Hk|done].
Qed.
Ltac cached := cbv zeta; repeat (intros; first
  [ apply change_ks_caches | apply publish_caches | apply resolve_sender_caches | apply resolve_refs_caches
  | apply caches_fails | apply caches_decode | apply caches_RLock
  | match goal with |- caches (match ?x with _ => _ end) => destruct x end
  | apply caches_same; intros ?; solve [reflexivity | repeat (case_match; try reflexivity)] ]).

Lemma on_peer_caches op b64url : caches (on_peer op b64url : handler).
Proof using Type. unfold on_peer, with_manager. apply caches_same. intros a. destruct (a_peers a); [|done]. by destruct (b64_decode _ _). Qed.

Lemma handle_caches i c : caches (handle path median bt i c : handler).
Proof using Type.
  destruct c; cbn [handle];
    first [apply handleListMessages_caches|apply handleGetMessage_caches|apply handleScrape_caches|apply on_peer_caches|idtac].
  - unfold handleChangePassword. cached.
  - unfold handleLock. apply caches_Lock. cached.
  - unfold handleListIdentities. cached.
  - unfold handleAddIdentity. cached.
  - unfold handleImportIdentity. cached.
  - unfold handleExportIdentity. cached.
  - unfold handleMineIdentityPoW. apply caches_RLock. intros [id|]; [|cached]. intros a Ha.
    destruct (MineIdentityPoW _ _ _ _) as [[[stamp bits] [e|]]|]; [done| |done]. by apply change_ks_caches.
  - unfold handleRemoveIdentity. cached.
  - unfold handleListChannels. cached.
  - unfold handleAddChannel. cached.
  - unfold handleRemoveChannel. cached.
  - unfold handlePowFloor. cached.
  - unfold handleBoost. cached.
  - unfold handleSend. cached.
  - unfold handleSendChannel. cached.
  - unfold handleListContacts. cached.
  - unfold handleAddContact. cached.
  - unfold handleRemoveContact, path_key. cached.
  - unfold handleRenameContact, path_key. cached.
  - unfold handleSync. cached.
  - unfold handleAddPeer, with_manager. apply caches_same. intros a. destruct (a_peers a); [|done]. unfold decode.
    destruct req; [|done]. case_bool_decide; [done|]. by destruct (pm_AddPeer _ _ _) as [p' []].
Qed.

Lemma serve_public_caches i rq : caches (serve_public path usage indexHTML bt i rq : handler).
Proof using Type.
  destruct rq as [| |req|req| | |header c]; cbn [serve_public]; try (by intros a).
  - unfold handleCreate. apply caches_decode. intros pw. apply caches_same. intros a. case_bool_decide; [done|].
    unfold save_ks. repeat (case_match; try reflexivity); simplify_eq; done.
  - unfold handleUnlock. apply caches_decode. intros pw a Ha. destruct (LoadKeystore _ _ _ _ _ _) as [[d [k|e]]|]; [| |done].
    + destruct (newToken _) as [tok|]; [|done]. apply caches_Lock; [|done]. by intros b Hb.
    + by destruct (errors_Is e ErrNotExist).
Qed.

(** The cache of identity work holds what it should, whatever happens.  From a new
    server, under any sequence of requests, overlapping or not, with whatever outcomes, a
    cached value is the work factor of its stamp for its key, and no two pairs of key and
    stamp share an entry. *)
Theorem cache_invariant es blocks msgs pm d :
  let y := sys_run path median usage indexHTML bt es {| y_api := SetPeerManager (New blocks msgs d) pm; y_pending := [] |} in
  cache_ok (a_cache (y_api y)) /\
  forall p1 p2 s1 s2, length p1 = length p2 -> cache_key p1 s1 = cache_key p2 s2 -> p1 = p2 /\ s1 = s2.
Proof using Type.
  split; [|apply cache_key_inj]. unfold sys_run.
  assert (forall y : sys S D P, cache_ok (a_cache (y_api y)) ->
    cache_ok (a_cache (y_api (foldl (fun y e => (sys_step path median usage indexHTML bt e y).1) y es)))) as Hgen.
  { induction es as [|e es IH]; intros y Hy; [done|]. cbn [foldl]. apply IH. clear IH es. destruct e as [i rq|header c|n i|i]; cbn [sys_step].
    - pose proof (serve_public_caches i rq (y_api y) Hy) as Hs. destruct (serve_public _ _ _ _ _ _ _) as [a o]. by destruct rq.
    - destruct (mx_waiting _); [done|]. by destruct (authorised _ _).
    - destruct (y_pending y !! n) as [c|]; [|done]. pose proof (handle_caches i c (y_api y) Hy) as Hs. by destruct (handle _ _ _ _ _ _).
    - destruct (a_gifts (y_api y)) as [|[pub stamp] gifts]; [done|]. unfold sendPowGift. cbn. by destruct (Encrypt _ _ _). }
  apply Hgen. intros p s v _ Hv. change ((∅ : gmap bytes Z) !! cache_key p s = Some v) in Hv. by apply lookup_empty_Some in Hv.
Qed.
End CacheInvariant.
