(* ===== verification/ApiSend.v ===== *)
(** Sending through the API: what is sent can be read by the one it was sent to. *)
From Stdlib Require Import String.
From S2P Require MessageFacts.
From S2P Require Import Prelude Codec Block Store Message Text Strconv IdPow Crypto CryptoFacts MessageStore Keystore KeystoreFacts Client Api ApiMessages ApiServe ApiFacts.

(** Eight references of 32 bytes. *)
Definition refs_ok (refs : list bytes) : Prop := length refs = threadCount /\ Forall (fun r => length r = 32%nat) refs.

Lemma no_refs_ok : refs_ok no_refs.
Proof. split; [done|]. repeat constructor. Qed.

Lemma decodeThreadRefs_ok b : refs_ok (decodeThreadRefs b).
Proof.
  unfold decodeThreadRefs. destruct (_ <? _)%nat; [apply no_refs_ok|]. split; [done|]. apply Forall_fmap, Forall_forall.
  intros i _. unfold compose. rewrite length_copy_at; [done|lia].
Qed.

Lemma nth_ref_ok refs i : refs_ok refs -> length (nth i refs zero_ref) = 32%nat.
Proof.
  intros [_ HF]. rewrite Forall_forall in HF. destruct (nth_in_or_default i refs zero_ref) as [Hin| ->]; [|done].
  by apply HF, list_elem_of_In.
Qed.

Lemma BuildThreadRefs_ok target prev : length target = 32%nat -> refs_ok prev -> refs_ok (BuildThreadRefs target prev).
Proof.
  intros Ht Hp. split; [done|]. constructor; [done|]. apply Forall_fmap, Forall_forall. intros i _. by apply nth_ref_ok.
Qed.

Lemma reply_refs_ok target : length target = 32%nat -> refs_ok (<[0%nat := target]> no_refs).
Proof. intros Ht. split; [done|]. constructor; [done|]. repeat constructor. Qed.

Lemma BuildThreadRefs_take target prev : length prev = threadCount -> BuildThreadRefs target prev = target :: take 7 prev.
Proof. intros Hl. by destruct prev as [|? [|? [|? [|? [|? [|? [|? [|? [|]]]]]]]]]. Qed.

Section Send.
Context `{PrimitivesLaws, !Ed25519Laws, HashesLaws, KeystoreJson, GoTimeFormat} {S : Type} `{Store S} {D : Type} `{MessageDB D} {P : Type} `{PeerManager P}.
Context (median : option (S -> result Z)).
#[local] Abbreviation handler := (api S D P -> api S D P * outcome PeerInfo).

Lemma GetMessage_refs id db m : GetMessage id db = Ok (Some m) -> refs_ok (sm_ThreadRefs m).
Proof using Type.
  unfold GetMessage. destruct (db_select_block id db) as [[r|]|]; [|done..]. intros [= <-]. apply decodeThreadRefs_ok.
Qed.

Lemma hex_id_length s id : hex_id s = Some id -> length id = 32%nat.
Proof using Type.
  unfold hex_id. destruct (hex_decode s) as [b|]; [|done]. destruct (Nat.eqb_spec (length b) IDSize); [|done]. by intros <-%(inj Some).
Qed.

(** What a reply refers to can be looked up. *)
Definition reply_found (req : send_req) (db : D) : Prop :=
  sr_reply_to req = [] \/ exists target, hex_id (sr_reply_to req) = Some target /\ is_ok (GetMessage target db) = true.

(** The references a message of the request carries: none when it is no reply; else the
    message it replies to, before the first seven references of that one. *)
Definition thread_refs (req : send_req) (db : D) : list bytes :=
  match hex_id (sr_reply_to req) with
  | None => no_refs
  | Some target =>
      target :: match GetMessage target db with Ok (Some m) => take 7 (sm_ThreadRefs m) | _ => replicate 7 zero_ref end
  end.

Lemma thread_refs_ok req db : refs_ok (thread_refs req db).
Proof using Type.
  unfold thread_refs. destruct (hex_id _) as [target|] eqn:Ht; [|apply no_refs_ok]. pose proof (hex_id_length _ _ Ht) as Hl.
  destruct (GetMessage target db) as [[m|]|] eqn:Eg; [|by apply reply_refs_ok..].
  pose proof (GetMessage_refs _ _ _ Eg) as Hm. rewrite <- BuildThreadRefs_take by apply Hm. by apply BuildThreadRefs_ok.
Qed.

Lemma resolve_refs_found req (a : api S D P) (k : list bytes -> handler) : reply_found req (a_msgs a) ->
  resolve_refs (sr_reply_to req) k a = k (thread_refs req (a_msgs a)) a.
Proof using Type.
  intros Hr. unfold resolve_refs, thread_refs. case_bool_decide as Hn; [by rewrite Hn|].
  destruct Hr as [?|(target & Ht & Hg)]; [done|]. rewrite Ht.
  destruct (GetMessage target (a_msgs a)) as [[m|]|] eqn:Eg; [|done..].
  rewrite BuildThreadRefs_take; [done|]. by apply GetMessage_refs in Eg as [].
Qed.

(** What is encrypted: signed with the key of the signer, when there is one. *)
Definition direct_payload (dr : draws) (recipient : bytes) (mp : MessagePayload) (signer : option Identity) : result Payload :=
  match signer with Some id => EncryptSigned dr recipient mp (id_SignKey id) | None => Encrypt dr recipient mp end.

Definition channel_payload (dr : channel_draws) (key : bytes) (mp : MessagePayload) (signer : option Identity) : result Payload :=
  match signer with Some id => EncryptChannelSigned dr key mp (id_SignKey id) | None => EncryptChannel dr key mp end.

(** The signer a request names. *)
Definition signer_of (k : Keystore) (req : send_req) (signer : option Identity) : Prop :=
  if bool_decide (sr_sender req = []) then signer = None
  else exists id, signer = Some id /\ GetIdentity k (sr_sender req) = Some id.

Lemma resolve_sender_found k req signer (h : option Identity -> handler) a : signer_of k req signer ->
  resolve_sender (Some k) (sr_sender req) h a = h signer a.
Proof using Type.
  unfold signer_of, resolve_sender. case_bool_decide; [by intros ->|]. by intros (id & -> & ->).
Qed.

(** The message of a request is well formed and names the signer. *)
Lemma outgoing_ok now content signer refs :
  0 <= content.1 < 256 -> in_s64 (Unix now) -> refs_ok refs -> (forall id, signer = Some id -> length (id_SignKey id) = 64%nat) ->
  wf_payload (outgoing now content (sender_pub signer) refs) /\
  forall id, signer = Some id -> SenderPub (outgoing now content (sender_pub signer) refs) = ed25519_Public (id_SignKey id).
Proof using All.
  intros Ht Hnow [Hrl Hrf] Hsig. set (mp := outgoing _ _ _ _).
  assert (forall id, signer = Some id -> SenderPub mp = ed25519_Public (id_SignKey id)) as Hpub.
  { intros id ->. cbn [mp outgoing SenderPub sender_pub]. apply copy_at_whole.
    unfold PublicKey. rewrite ed25519_Public_length; [done|by apply Hsig]. }
  split; [|exact Hpub]. split; [exact Ht|]. split; [cbn; lia|]. split; [exact Hnow|]. split; [|done].
  destruct signer as [id|]; [|done]. rewrite (Hpub id) by done. by apply ed25519_Public_length, Hsig.
Qed.

(** A signer that a well-formed keystore knows has a key. *)
Lemma signer_key k req signer id : wf_keystore k -> signer_of k req signer -> signer = Some id -> length (id_SignKey id) = 64%nat.
Proof using Type.
  intros Hwf Hs ->. unfold signer_of in Hs. case_bool_decide; [done|]. destruct Hs as (id' & [= <-] & Hg).
  apply find_first_Some in Hg as [Hin _]. pose proof (wf_identities _ Hwf) as HF. rewrite Forall_forall in HF. by apply HF.
Qed.

Lemma some_text req : ~ (sr_edit req = [] /\ sr_delete req = [] /\ sr_message req = []) ->
  bool_decide (sr_edit req = []) && bool_decide (sr_delete req = []) && bool_decide (sr_message req = []) = false.
Proof using Type. intros Hne. apply not_true_iff_false. rewrite !andb_true_iff, !bool_decide_eq_true. tauto. Qed.

(** A message is encrypted for its recipient, signed when it has a signer. *)
Lemma outgoing_delivers sk rp eph shared nonce noise now content signer refs :
  length sk = 64%nat -> EdPubToX25519 (ed25519_Public sk) = Ok rp -> XPriv_ECDH eph rp = Ok shared ->
  length nonce = nonceSize -> (length content.2 <= V3MaxContent)%nat -> 0 <= content.1 < 256 -> in_s64 (Unix now) ->
  refs_ok refs -> (forall id, signer = Some id -> length (id_SignKey id) = 64%nat) ->
  let dr := {| dr_key := Ok eph; dr_nonce := Ok nonce; dr_noise := Ok noise |} in
  let mp := outgoing now content (sender_pub signer) refs in
  exists payload sig,
    direct_payload dr (ed25519_Public sk) mp signer = Ok payload /\ is_Payload payload /\ tryDecrypt sk payload = Ok (with_signature mp sig).
Proof using All.
  intros Hsk Hrp Hsh Hn Hc Ht Hnow Hrefs Hsig. cbv zeta. destruct (outgoing_ok now content signer refs Ht Hnow Hrefs Hsig) as [Hw Hpub].
  set (mp := outgoing _ _ _ _) in *. destruct signer as [id|].
  - destruct (EncryptSigned_delivers sk rp eph shared nonce noise mp Hsk Hrp Hsh Hn Hw Hc (id_SignKey id) (Hsig id eq_refl) (Hpub id eq_refl))
      as (payload & sig & E1 & E2 & E3). by exists payload, sig.
  - destruct (Encrypt_delivers sk rp eph shared nonce noise mp Hsk Hrp Hsh Hn Hw Hc eq_refl) as (payload & E1 & E2 & E3).
    exists payload, (Signature mp). done.
Qed.

(** The same for a channel. *)
Lemma outgoing_posted key salt nonce now content signer refs :
  length salt = channelSaltSize -> length nonce = nonceSize -> (length content.2 <= V3MaxContent)%nat -> 0 <= content.1 < 256 ->
  in_s64 (Unix now) -> refs_ok refs -> (forall id, signer = Some id -> length (id_SignKey id) = 64%nat) ->
  let dr := {| cd_salt := Ok salt; cd_nonce := Ok nonce |} in
  let mp := outgoing now content (sender_pub signer) refs in
  exists payload sig,
    channel_payload dr key mp signer = Ok payload /\ is_Payload payload /\ tryDecryptChannel key payload = Ok (with_signature mp sig).
Proof using All.
  intros Hsl Hn Hc Ht Hnow Hrefs Hsig. cbv zeta. destruct (outgoing_ok now content signer refs Ht Hnow Hrefs Hsig) as [Hw Hpub].
  set (mp := outgoing _ _ _ _) in *.
  assert (Z.of_nat (length (Content mp)) <= 3656) as Hc' by (pose proof V3MaxContent_Z; unfold mp, outgoing; cbn [Content]; lia).
  destruct (channel_message_roundtrip key salt nonce mp Hsl Hn Hw Hc') as [Hanon Hsigned]. destruct signer as [id|].
  - destruct (Hsigned (id_SignKey id) (Hsig id eq_refl) (Hpub id eq_refl)) as (payload & sig & E1 & E2 & E3). by exists payload, sig.
  - destruct (Hanon eq_refl) as (payload & E1 & E2 & E3). exists payload, (Signature mp). done.
Qed.

(** A request that can be sent: the server is unlocked, the names are known, the text fits and
    the draws suit the recipient's key. *)
Section Sending.
Context (ev : env) (now_save : Z) (eph : XPriv) (rp : XPub) (shared nonce : bytes) (noise : byte) (rounds : list mine_round).
Context (req : send_req) (k : Keystore) (signer : option Identity) (sk : bytes) (a : api S D P).
Context (Hmu : a_mu a = free_mutex) (Hk : ss_ks (a_session a) = Some k) (Hwf : wf_keystore k) (Hs : signer_of k req signer).
Context (Hto : sr_to req = b64_encode StdEncoding (ed25519_Public sk)) (Hsk : length sk = 64%nat).
Context (Hne : ~ (sr_edit req = [] /\ sr_delete req = [] /\ sr_message req = [])).
Context (Hc : (length (direct_content req).2 <= V3MaxContent)%nat) (Hnow : in_s64 (Unix (e_now ev))).
Context (Hr : reply_found req (a_msgs a)).
Context (Hrp : EdPubToX25519 (ed25519_Public sk) = Ok rp) (Hsh : XPriv_ECDH eph rp = Ok shared) (Hn : length nonce = nonceSize).

#[local] Abbreviation dr := {| dr_key := Ok eph; dr_nonce := Ok nonce; dr_noise := Ok noise |}.
#[local] Abbreviation message := (outgoing (e_now ev) (direct_content req) (sender_pub signer) (thread_refs req (a_msgs a))).

(** The payload it is encrypted to, and the publishing of it. *)
Lemma handleSend_runs : exists payload sig,
  direct_payload dr (ed25519_Public sk) message signer = Ok payload /\ is_Payload payload /\
  tryDecrypt sk payload = Ok (with_signature message sig) /\
  (handleSend median ev now_save dr rounds (Ok req) : handler) a
  = publish median ev rounds (Ok payload) (fun id a =>
      let '(db, _) := SaveMessage now_save id (sent_copy message (ed25519_Public sk) (sr_sender req)) (a_msgs a) in
      (with_msgs a db, Reply StatusCreated (block_ids [hex_encode id]))) a.
Proof using All.
  pose proof (fun id => signer_key k req signer id Hwf Hs) as Hsig.
  pose proof (ed25519_Public_length sk Hsk) as Hpl.
  unfold handleSend, decode. rewrite bool_decide_false by (rewrite Hto; intros Hx%b64_encode_nil; by rewrite Hx in Hpl).
  rewrite (some_text req Hne).
  rewrite Hto, std_roundtrip, Hpl. cbn [Nat.eqb negb].
  rewrite (RLock_free _ _ a (Some k)) by (done || by rewrite Hk). rewrite (resolve_sender_found k req signer) by done.
  rewrite resolve_refs_found by exact Hr. cbv zeta. pose proof (thread_refs_ok req (a_msgs a)) as Hrefs.
  rewrite (proj2 (Nat.ltb_ge _ _)) by exact Hc.
  assert (0 <= (direct_content req).1 < 256) as Ht by (unfold direct_content, MsgTypeDelete, MsgTypeEdit, MsgTypeText; repeat case_bool_decide; cbn; lia).
  destruct (outgoing_delivers sk rp eph shared nonce noise (e_now ev) (direct_content req) signer _ Hsk Hrp Hsh Hn Hc Ht Hnow Hrefs Hsig)
    as (payload & sig & E1 & E2 & E3). exists payload, sig. split; [exact E1|]. split; [exact E2|]. split; [exact E3|].
  cbv zeta in E1. unfold direct_payload in E1. by rewrite E1.
Qed.

(** C5: What is sent arrives, or nothing is stored.  For a request to send, under a name
    of the keystore or anonymously, text that fits to the key of a recipient, the message
    made of the type and content asked for, the time, the sender's key and the references of
    the thread is encrypted for that key, and signed when it has a sender: the recipient
    decrypts it to that message.  The call ends as the mining for the local floor of proof
    of work and the store say.  When a stamp is found, it meets the floor, and the payload is
    put into the store under it: when the store takes it, the call answers 201 with its id
    and the copy for the sender's own list is saved; when not, 500, and no message is saved.
    When the mining fails, 500, and nothing changes; while it goes on, nothing either. *)
Theorem send_delivers : exists payload sig,
  direct_payload dr (ed25519_Public sk) message signer = Ok payload /\ is_Payload payload /\
  tryDecrypt sk payload = Ok (with_signature message sig) /\
  let '(a', o) := (handleSend median ev now_save dr rounds (Ok req) : handler) a in
  let w := powFloor median (a_blocks a) in
  match MineStamp payload w rounds with
  | Some (stamp, _, None) =>
      w <= WorkFactor stamp payload /\
      match store_Put (e_now ev) stamp payload TagPhysical (a_blocks a) with
      | (st, Ok id) => o = Reply StatusCreated (block_ids [hex_encode id]) /\
          a' = with_msgs (with_blocks a st) (SaveMessage now_save id (sent_copy message (ed25519_Public sk) (sr_sender req)) (a_msgs a)).1
      | (st, Err _) => o = writeError StatusInternalServerError "failed to store block" /\ a' = with_blocks a st
      end
  | Some (_, _, Some e) => o = Reply StatusInternalServerError (error_of "pow mining failed: " e) /\ a' = a
  | None => o = Running /\ a' = a
  end.
Proof using All.
  destruct handleSend_runs as (payload & sig & E & Hp & Hdec & Er). exists payload, sig.
  split; [exact E|]. split; [exact Hp|]. split; [exact Hdec|]. rewrite Er. unfold publish. clear E Er Hdec.
  pose proof (MineStamp_spec payload (powFloor median (a_blocks a)) rounds) as Hmine.
  destruct (MineStamp payload (powFloor median (a_blocks a)) rounds) as [[[stamp wf] [e|]]|]; [done| |done].
  destruct (store_Put (e_now ev) stamp payload TagPhysical (a_blocks a)) as [st [id|e]] eqn:Ep; [|split; [lia|done]].
  cbn [with_blocks a_msgs]. destruct (SaveMessage _ _ _ _) as [db r] eqn:Esave. split; [lia|done].
Qed.
End Sending.

(** A request that can be posted to a channel of the keystore. *)
Section Posting.
Context (ev : env) (salt nonce : bytes) (rounds : list mine_round).
Context (req : send_req) (k : Keystore) (signer : option Identity) (ch : Channel) (a : api S D P).
Context (Hmu : a_mu a = free_mutex) (Hk : ss_ks (a_session a) = Some k) (Hwf : wf_keystore k) (Hs : signer_of k req signer).
Context (Hto : sr_to req <> []) (Hch : find_first (channel_named (sr_to req)) (Channels k) = Some ch).
Context (Hne : ~ (sr_edit req = [] /\ sr_delete req = [] /\ sr_message req = [])).
Context (Hc : (length (channel_content req).2 <= V3MaxContent)%nat) (Hnow : in_s64 (Unix (e_now ev))).
Context (Hr : reply_found req (a_msgs a)) (Hsl : length salt = channelSaltSize) (Hn : length nonce = nonceSize).

#[local] Abbreviation dr := {| cd_salt := Ok salt; cd_nonce := Ok nonce |}.
#[local] Abbreviation post := (outgoing (e_now ev) (channel_content req) (sender_pub signer) (thread_refs req (a_msgs a))).

(** The payload it is encrypted to, and the publishing of it. *)
Lemma handleSendChannel_runs : exists payload sig,
  channel_payload dr (ch_Key ch) post signer = Ok payload /\ is_Payload payload /\
  tryDecryptChannel (ch_Key ch) payload = Ok (with_signature post sig) /\
  (handleSendChannel median ev dr rounds (Ok req) : handler) a
  = publish median ev rounds (Ok payload) (fun id a => (a, Reply StatusCreated (block_id (hex_encode id)))) a.
Proof using All.
  pose proof (fun id => signer_key k req signer id Hwf Hs) as Hsig.
  unfold handleSendChannel, decode. rewrite bool_decide_false by exact Hto. rewrite (some_text req Hne).
  rewrite (RLock_free _ _ a (k, Channels k)) by (done || by rewrite Hk). rewrite Hch.
  rewrite (resolve_sender_found k req signer) by done.
  rewrite resolve_refs_found by exact Hr. cbv zeta. pose proof (thread_refs_ok req (a_msgs a)) as Hrefs.
  assert (0 <= (channel_content req).1 < 256) as Ht
    by (unfold channel_content, MsgTypeDelete, MsgTypeEdit, MsgTypePost, MsgTypeText; repeat case_bool_decide; repeat case_match; cbn; lia).
  destruct (outgoing_posted (ch_Key ch) salt nonce (e_now ev) (channel_content req) signer _ Hsl Hn Hc Ht Hnow Hrefs Hsig)
    as (payload & sig & E1 & E2 & E3). exists payload, sig. split; [exact E1|]. split; [exact E2|]. split; [exact E3|].
  cbv zeta in E1. unfold channel_payload in E1. by rewrite E1.
Qed.
End Posting.
End Send.
