(* ===== verification/ApiDemo.v ===== *)
(** A server of the API on concrete instances: an unlocked keystore with one identity, one
    channel and one contact, a store with one block, and the peer tracker of the mobile
    engine.  The theorems on the lock, on acknowledged changes, on listing and on sending,
    applied to it. *)
From Stdlib Require Import String.
From S2P Require MessageFacts CryptoFacts KeystoreFacts FlatFile FlatFileFacts Mobile MobileFacts.
From S2P Require Import Prelude Codec Block Store Message Text IdPow Crypto MessageStore Keystore Client Net Strconv Api ApiMessages ApiServe ApiFacts ApiAnswers ApiRace ApiKeys ApiListing ApiSend.

Module ApiDemo.
Import MessageFacts CryptoFacts KeystoreFacts KeystoreDemo FlatFile FlatFileFacts FlatFileFacts.Demo MessageStoreDemo MobileFacts.
#[local] Existing Instances ref_KeystoreJson ref_KeystoreJsonLaws ref_Primitives ref_PrimitivesLaws
  ref_Hashes ref_HashesLaws ref_Ed25519 ref_Ed25519Laws ref_GoFloat ref_EntriesJson MobileDemo.ref_UrlParse.
#[local] Instance ref_TimeFormat : GoTimeFormat := fun t => be_encode 8 (Unix t).

(** The request's clock, its draws, and a file system without faults. *)
Definition calm : ApiServe.io := {|
  i_env := {| e_now := 0; e_salt := Ok salt; e_nonce := Ok (replicate 24 x00); e_gen := Ok (replicate 64 x05);
    e_gens _ := Err ErrEOF; e_nonces := nonces; e_io := no_faults; e_stat := None; e_token := Ok (replicate 32 x0b);
    e_first := Ok (replicate 16 x01); e_rounds := [] |};
  i_now_save := 0; i_scanStart := 0; i_ctx _ := None;
  i_draws := {| dr_key := Err ErrEOF; dr_nonce := Err ErrEOF; dr_noise := Err ErrEOF |};
  i_channel_draws := {| cd_salt := Err ErrEOF; cd_nonce := Err ErrEOF |};
  i_rounds := []; i_fuel := 3 |}.

Definition node : api FlatFileStore RefDB mobile_peers := {|
  a_blocks := one; a_msgs := fresh;
  a_session := {| ss_ks := Some keys; ss_scraper := Some ([alice], [news]); ss_tokens := {[ bs "token" ]} |};
  a_mu := free_mutex; a_peers := Some (MobileDemo.tracker, ∅); a_cache := ∅; a_disk := ∅; a_gifts := [] |}.

#[local] Instance now_PeerManager : PeerManager mobile_peers := mobile_PeerManager MobileDemo.now.

Lemma node_good : good node.
Proof. split; [|reflexivity]. split; [by eexists|]. split; vm_compute; congruence. Qed.

Lemma lock_race_witness : exists y : sys FlatFileStore RefDB mobile_peers,
  (sys_step KeystoreDemo.path None None [] None (ev_run 0 calm) y).2 = Some Panic /\
  ss_ks (a_session (y_api (sys_step KeystoreDemo.path None None [] None (ev_run 0 calm) y).1)) = None.
Proof.
  pose proof (lock_race KeystoreDemo.path None None [] None c_list_channels calm calm (bs "Bearer token")
    {| y_api := node; y_pending := [] |} (or_intror (or_introl eq_refl)) node_good
    ltac:(vm_compute; reflexivity) eq_refl) as [Hp Hr].
  eexists. split; [exact Hp|]. exact (proj1 (Hr [])).
Defined.

(** A keystore file that asks for no pass of the key derivation. *)
Definition malformed : keystoreFile := {|
  kf_Version := keystoreVersion; kf_Salt := salt; kf_KDFTime := 0; kf_KDFMemory := 0; kf_KDFThreads := 1; kf_Verify := [];
  kf_Identities := []; kf_Channels := []; kf_Contacts := [] |}.
Definition malformed_data : bytes := match json_MarshalIndent_file malformed with Ok data => data | Err _ => [] end.

Lemma malformed_panics : LoadKeystore (e_gens (i_env calm)) (e_nonces (i_env calm)) (e_io (i_env calm)) KeystoreDemo.path password
  {[ KeystoreDemo.path := malformed_data ]} = None.
Proof. unfold LoadKeystore. rewrite lookup_singleton_eq. vm_compute. reflexivity. Qed.

(** After a call that is refused, the unlock of that file panics. *)
Lemma api_sequential_witness :
  (serve_all KeystoreDemo.path None None [] None
    [(calm, rq_call [] c_lock); (calm, rq_unlock (Ok password))]
    (SetPeerManager (New one fresh {[ KeystoreDemo.path := malformed_data ]}) (Some (MobileDemo.tracker, ∅)) : api FlatFileStore RefDB mobile_peers)).2
    !! 1%nat = Some Panic.
Proof.
  destruct (api_sequential KeystoreDemo.path None None [] None [(calm, rq_call [] c_lock); (calm, rq_unlock (Ok password))]
    (one : FlatFileStore) (fresh : RefDB) (Some (MobileDemo.tracker, ∅)) {[ KeystoreDemo.path := malformed_data ]} 1 calm (rq_unlock (Ok password))
    eq_refl) as (_ & _ & o & Ho & Hx).
  destruct o as [status b| | |]; [exfalso; apply Hx; exact malformed_panics|exact Ho|destruct Hx|exfalso; apply (proj1 Hx); exact malformed_panics].
Defined.

Lemma ref_KeystoreJsonTyped : KeystoreJsonTyped.
Proof.
  split. intros data b. cbn [json_Unmarshal_export ref_KeystoreJson].
  destruct (countable.decode _) as [[[[[[[[v n] s] t] m] th] no] ct]|]; [|discriminate].
  destruct (utf8_valid n) eqn:E; [|discriminate]. intros Hb. apply (inj Ok) in Hb as <-. exact E.
Qed.
#[local] Existing Instance ref_KeystoreJsonTyped.

Lemma env_calm : env_ok (i_env calm).
Proof. split; [exact nonces_all_ok|]. intros key [= <-]. reflexivity. Qed.

Lemma keys_open : opens password keys.
Proof. split; [exact keys_wf|]. split; [exact keys_storable|reflexivity]. Qed.

Definition chess : call := c_add_channel (Ok (bs "chess", bs "e4")).
Definition more_keys : Keystore := (AddChannel (bs "chess") (bs "e4") keys).1.

Lemma more_keys_open : opens password more_keys.
Proof. apply (opens_AddChannel password (bs "chess") (bs "e4") eq_refl keys more_keys {| ch_Name := bs "chess"; ch_Key := sha256_Sum256 (bs "e4") |} keys_open). reflexivity. Qed.

Lemma chess_acknowledged : acknowledged (handle KeystoreDemo.path None None calm chess node).2.
Proof.
  destruct more_keys_open as (Hwf & Hst & Hd).
  destruct (Save_succeeds nonces KeystoreDemo.path more_keys ∅ Hwf Hst nonces_all_ok (deriveKey_length _ _ _ _ _ _ Hd))
    as (f & data & fs & _ & _ & Hs & _).
  exists StatusCreated, (name_body (bs "chess")). split; [|reflexivity].
  cbn [handle chess]. unfold handleAddChannel, Api.decode, change_ks.
  change (bool_decide (bs "chess" = []) || bool_decide (bs "e4" = [])) with false. cbv iota. rewrite Lock_free by reflexivity.
  cbn [node a_session ss_ks]. change (AddChannel (bs "chess") (bs "e4") keys) with (more_keys, Ok {| ch_Name := bs "chess"; ch_Key := sha256_Sum256 (bs "e4") |}).
  unfold save_ks. cbn [with_session a_disk calm i_env e_nonces e_io].
  match goal with |- context [Save ?n ?io ?p ?k ?d] => replace (Save n io p k d) with (fs, Ok tt : result unit) end. reflexivity.
Qed.

Lemma acknowledged_survives_witness : exists a' : api FlatFileStore RefDB mobile_peers, exists k',
  ss_ks (a_session a') = Some k' /\ opens password k' /\
  (handleUnlock KeystoreDemo.path (i_env calm) (Ok password) (handleLock a').1).2
    = Reply StatusOK (token_body (b64_encode RawURLEncoding (replicate 32 x0b))).
Proof.
  pose proof (acknowledged_survives KeystoreDemo.path None None calm chess password keys node
    eq_refl eq_refl keys_open eq_refl eq_refl env_calm) as Hs. pose proof chess_acknowledged as Hack.
  destruct (handle KeystoreDemo.path None None calm chess node) as [a' o].
  destruct (Hs Hack) as (k' & E1 & E2 & _ & Hu). exists a', k'. split; [exact E1|]. split; [exact E2|].
  specialize (Hu (i_env calm) _ eq_refl). cbn [new_password chess] in Hu. destruct (handleUnlock _ _ _ _). exact (proj1 Hu).
Defined.

Lemma cache_empty : cache_ok (∅ : gmap bytes Z).
Proof. intros p s v _ Hv. by apply lookup_empty_Some in Hv. Qed.

Lemma listing_spec_witness : exists msgs more cache,
  handleListMessages 2 (i_env calm) [] (bs "5") node
  = (with_cache node cache, Reply StatusOK (messages (uncached 0 node <$> msgs ++ more))) /\ NoDup (sm_BlockID <$> more).
Proof.
  assert (exists msgs, ListMessagesAfter (ParseInt []) (a_msgs node) = Ok msgs) as [msgs Hl] by (eexists; reflexivity).
  destruct (listing_spec 2 (i_env calm) [] (bs "5") msgs node cache_empty one_inv Hl
    (fun t c => one_answers 200 0 _ t c eq_refl)) as (more & cache & E & _ & Hn & _).
  - change (store_index (a_blocks node)) with (flat_index one). rewrite one_index. cbn. lia.
  - exists msgs, more, cache. split; [exact E|exact Hn].
Defined.

(** Alice writes to a key, signed. *)
Definition greeting : send_req := {|
  sr_to := b64_encode StdEncoding (ed25519_Public CryptoDemo.sk); sr_message := bs "hi"; sr_sender := bs "alice"; sr_reply_to := [];
  sr_forum_post := false; sr_subject := []; sr_edit := []; sr_delete := [] |}.

Lemma send_delivers_witness : exists payload sig,
  direct_payload {| dr_key := Ok CryptoDemo.eph; dr_nonce := Ok CryptoDemo.nonce; dr_noise := Ok xff |} (ed25519_Public CryptoDemo.sk)
    (outgoing 0 (MsgTypeText, bs "hi") (ed25519_Public (id_SignKey alice)) no_refs) (Some alice) = Ok payload /\
  tryDecrypt CryptoDemo.sk payload
  = Ok (with_signature (outgoing 0 (MsgTypeText, bs "hi") (ed25519_Public (id_SignKey alice)) no_refs) sig).
Proof.
  destruct (Montgomery_agrees CryptoDemo.sk CryptoDemo.scalar eq_refl eq_refl) as (pt & Hpt & Hm).
  assert (EdPubToX25519 (ed25519_Public CryptoDemo.sk) = Ok (XPriv_PublicKey CryptoDemo.scalar)) as Hrp.
  { unfold EdPubToX25519. rewrite Hpt. cbn [mbind result_bind]. rewrite Hm. apply NewPublicKey_Bytes. }
  assert (signer_of keys greeting (Some alice)) as Hs.
  { unfold signer_of. rewrite bool_decide_false by discriminate. exists alice. split; reflexivity. }
  assert (length (direct_content greeting).2 <= V3MaxContent)%nat as Hc.
  { apply Nat2Z.inj_le. rewrite V3MaxContent_Z. vm_compute. discriminate. }
  pose proof (send_delivers None (i_env calm) 0 CryptoDemo.eph _ _ CryptoDemo.nonce xff [] greeting keys (Some alice) CryptoDemo.sk node
    eq_refl eq_refl keys_wf Hs eq_refl eq_refl ltac:(intros (_ & _ & Hx); discriminate Hx) Hc ltac:(split; vm_compute; congruence)
    (or_introl eq_refl) Hrp eq_refl eq_refl) as Hd.
  destruct Hd as (payload & sig & Epay & _ & Hdec & _). exists payload, sig. split; [exact Epay|exact Hdec].
Defined.
End ApiDemo.
