(* ===== verification/Delivery.v ===== *)
(** The way of a block from store to store: every transport hands on the block it is given,
    so that a message sent at one node is found by its recipient at another, however many
    relays, phones and USB volumes lie between. *)
From Stdlib Require Import String.
From S2P Require FlatFile Badger BadgerFacts BadgerSpec Bluetooth BluetoothFacts Relay RelayFacts.
From S2P Require Import Prelude Codec Block Store Bloom Sync Exchange.

(** ** A block in a store *)

Section Carry.
Context `{HashesLaws} (id : ID) (payload : Payload) (w : Z) (Hid : ComputeID payload = id).

(** Nothing is stored under the id. *)
Definition fresh {S} `{StoreLaws S} (s : S) : Prop :=
  (forall en, en ∈ store_index s -> cur_id (en_cursor en) <> id) /\ forall now sp, store_Get now s id <> Ok sp.

(** What is stored under the id was stored at the second [t] and is the payload. *)
Definition only {S} `{StoreLaws S} (t : Z) (s : S) : Prop :=
  (forall en, en ∈ store_index s -> cur_id (en_cursor en) = id -> cur_createdAt (en_cursor en) = t) /\
  forall now sp, store_Get now s id = Ok sp -> sp.2 = payload.

(** It is stored, at a work factor of at least [w]. *)
Definition carries {S} `{Source S} (t : Z) (s : S) : Prop :=
  src_inv s /\ only t s /\ exists en, en ∈ store_index s /\ cur_id (en_cursor en) = id /\ w <= en_wf en.

Lemma fresh_only {S} `{StoreLaws S} t (s : S) : fresh s -> only t s.
Proof. intros [Hi Hg]. split; [by intros en Hen ?%Hi|by intros now sp ?%Hg]. Qed.

(** The block can be read, under its stamp. *)
Lemma carries_Get {S} `{Source S} now t (s : S) : carries t s ->
  exists stamp, store_Get now s id = Ok (stamp, payload) /\ is_Stamp stamp /\ is_Payload payload /\ w <= WorkFactor stamp payload.
Proof.
  intros (Hs & [_ Hg] & en & Hen & <- & Hw). destruct (src_honest now s en Hs Hen) as (_ & stamp & p & Hget & ? & ? & _ & Hwf).
  pose proof (Hg now _ Hget) as Hp. cbn in Hp. subst p. exists stamp. rewrite <- Hwf. done.
Qed.

(** *** Putting blocks one after the other *)

Section Putting.
Context {D : Type} `{!Store D, !StoreLaws D, !Source D, !MergeTarget D, !Exchange D}.
Context (now : Z) (Hnow : 0 <= Unix now < 2 ^ 63) (tag : Tag) (Htag : is_Tag tag).

Definition putting (l : list (Stamp * Payload)) (s : D) : D :=
  foldl (fun s sp => (store_Put now sp.1 sp.2 tag s).1) s l.

Definition is_block (sp : Stamp * Payload) : Prop := is_Stamp sp.1 /\ is_Payload sp.2.
Definition agrees (sp : Stamp * Payload) : Prop := ComputeID sp.2 = id -> sp.2 = payload.

Lemma put_only sp s : is_block sp -> agrees sp -> ex_inv s -> only (Unix now) s ->
  only (Unix now) (store_Put now sp.1 sp.2 tag s).1.
Proof.
  intros [Hst Hp] Ha Hs [Hi Hg]. destruct (ex_Put now s sp.1 sp.2 tag Hs Hnow Hst Hp Htag) as (_ & Hi' & Hg'). split.
  - intros en [Hen| ->]%Hi'; [by apply Hi|done].
  - intros now' sp' [Hsp|[E ->]]%Hg'; [by eapply Hg| |rewrite <- Hid; apply ComputeID_is_ID]. by apply Ha.
Qed.

Lemma putting_only l s : Forall is_block l -> Forall agrees l -> ex_inv s -> only (Unix now) s ->
  ex_inv (putting l s) /\ only (Unix now) (putting l s).
Proof.
  intros HF. revert s. induction HF as [|sp l Hb HF IH]; intros s Ha Hs Ho; [done|].
  apply Forall_cons in Ha as [Ha Hl]. apply IH; [done| |by apply put_only].
  by apply ex_Put; [done|done|apply (proj1 Hb)|apply (proj2 Hb)|done].
Qed.

(** The block is there at least at the work factor. *)
Definition held (s : D) : Prop := exists v, store_GetWorkFactor now s id = Ok v /\ w <= v.

Lemma put_held sp s : is_block sp -> ex_inv s -> held s \/ (sp.2 = payload /\ w <= WorkFactor sp.1 sp.2) ->
  held (store_Put now sp.1 sp.2 tag s).1.
Proof.
  intros [Hst Hp] Hs Hor. pose proof (mt_Put now s sp.1 sp.2 tag (ex_mt_inv s Hs) Hnow Hst Hp Htag) as Hput.
  destruct (store_Put now sp.1 sp.2 tag s) as [s' r]. destruct Hput as (_ & _ & Hw & Ho). cbn [fst]. unfold held in *.
  destruct (decide (ComputeID sp.2 = id)) as [E|Hne].
  - rewrite E in Hw. eexists. split; [exact Hw|]. destruct Hor as [(v & -> & Hv)|[_ Hv]]; [lia|].
    destruct (store_GetWorkFactor now s id); lia.
  - destruct Hor as [(v & Hv & Hle)|[Hpl _]]; [|by rewrite Hpl in Hne]. exists v. split; [|done]. rewrite Ho; [done| |done].
    rewrite <- Hid. apply ComputeID_is_ID.
Qed.

Lemma putting_held l s : Forall is_block l -> ex_inv s ->
  held s \/ (exists sp, sp ∈ l /\ sp.2 = payload /\ w <= WorkFactor sp.1 sp.2) -> held (putting l s).
Proof.
  intros HF. revert s. induction HF as [|sp l Hb HF IH]; intros s Hs Hor.
  { destruct Hor as [?|(sp & []%not_elem_of_nil & _)]; done. }
  apply IH; [by apply ex_Put; [done|done|apply (proj1 Hb)|apply (proj2 Hb)|done]|].
  destruct Hor as [Hh|(sp' & [->|Hin]%elem_of_cons & Hsp)]; [left; by apply put_held; auto..|right; eauto].
Qed.

(** What a store that carries the block serves. *)
Lemma served_blocks {S} `{!Store S, !StoreLaws S, !Source S} nowS t (src : S) l : carries t src ->
  (forall stamp p, (stamp, p) ∈ l -> exists en, en ∈ store_index src /\ store_Get nowS src (cur_id (en_cursor en)) = Ok (stamp, p)) ->
  Forall (fun sp => is_block sp /\ agrees sp) l.
Proof.
  intros (Hs & [_ Hg] & _) Hl. apply Forall_forall. intros [stamp p] (e & He & Hget)%Hl.
  destruct (src_honest nowS src e Hs He) as (_ & st & q & Hget' & Hst & Hp & Hcid & _).
  rewrite Hget in Hget'. apply (inj Ok), pair_eq in Hget' as [<- <-]. split; [done|]. unfold agrees. cbn [snd]. rewrite Hcid.
  intros E. rewrite E in Hget. exact (Hg nowS (stamp, p) Hget).
Qed.

(** A store that held nothing under the id carries the block after the blocks of a store
    that does. *)
Lemma putting_carries {S} `{!Store S, !StoreLaws S, !Source S} nowS t (src : S) (P : entry -> Prop) l (dst : D) :
  carries t src -> ex_inv dst -> fresh dst ->
  (forall stamp p, (stamp, p) ∈ l <-> exists en, en ∈ store_index src /\ P en /\ store_Get nowS src (cur_id (en_cursor en)) = Ok (stamp, p)) ->
  (forall en, en ∈ store_index src -> cur_id (en_cursor en) = id -> w <= en_wf en -> cur_createdAt (en_cursor en) = t -> P en) ->
  ex_inv (putting l dst) /\ carries (Unix now) (putting l dst).
Proof.
  intros Hc Hd Hf Hl HP. pose proof Hc as (Hs & [Ht Hg] & en & Hen & Heid & Hw).
  pose proof (served_blocks nowS t src l Hc) as HF. assert (Forall (fun sp => is_block sp /\ agrees sp) l) as HF'.
  { apply HF. intros stamp p (e & He & _ & Hget)%Hl. by exists e. }
  apply Forall_and in HF' as [Hb Ha].
  destruct (putting_only l dst Hb Ha Hd (fresh_only _ _ Hf)) as [Hd' Ho]. split; [done|]. split; [by apply ex_src_inv|]. split; [done|].
  destruct (putting_held l dst Hb Hd) as (v & Hv & Hle).
  - right. destruct (carries_Get nowS t src Hc) as (stamp & Hget & _ & _ & Hws). exists (stamp, payload). split_and!; [|done|done].
    apply Hl. exists en. split_and!; [done|by apply HP; auto|]. by rewrite Heid.
  - apply (src_index now) in Hv as (e & He & Hi & <-); [|by apply ex_src_inv|rewrite <- Hid; apply ComputeID_is_ID]. by exists e.
Qed.
End Putting.
End Carry.

(** ** One hop *)

Section Hops.
Context `{GoSort, HashesLaws, GoFloat, !Relay.RelayJson, !Relay.RelayJsonLaws}.
Context {S : Type} `{!Store S, !StoreLaws S, !Source S, !MergeTarget S, !Exchange S}.
Context (id : ID) (payload : Payload) (w : Z) (Hid : ComputeID payload = id).

(** The filter of a store does not report the id. *)
Definition unseen (s : S) : Prop := forall wf, 0 <= wf -> Has (index_Bloom (store_index s)) id wf = false.

(** A store that can be the end of a hop. *)
Definition takes (s : S) : Prop := ex_inv s /\ fresh id s.

Lemma unseen_empty s : store_index s = [] -> unseen s.
Proof. intros Hi wf _. rewrite Hi. apply Has_empty. Qed.

(** What a relay tags the blocks of a request with. *)
Definition tags_blocks (relay : Relay.Server S) : Prop := is_Tag (Relay.origin_tag relay []).

(** A node pushes to a relay, whose store takes the blocks.  [t] and [t'] are the seconds at
    which the block was stored here and there. *)
Inductive pushed (t : Z) (src : S) : Z -> S -> Prop :=
  pushed_to now fuel c skip powFloor since z relay relay' n :
    0 <= Unix now < 2 ^ 63 -> Relay.rc_bad_url c = None -> (length (store_index src) < fuel)%nat ->
    RelayFacts.store_sizes (S:=S) now -> takes (Relay.sv_store relay) -> tags_blocks relay ->
    RelayFacts.advertised relay = Ok z -> in_s64 z -> in_s64 (Unix since) ->
    (id ∉ skip) -> Z.max powFloor z <= w -> Relay.sv_powFloor relay <= w -> Unix since <= t ->
    Relay.Push (RelayFacts.direct now fuel) c now fuel (fun _ => None) skip src powFloor since relay = Some (relay', (n, None)) ->
    pushed t src (Unix now) (Relay.sv_store relay').

(** A node pulls from a relay. *)
Inductive pulled (t : Z) (src : S) : Z -> S -> Prop :=
  pulled_from now fuel c powFloor since relay relay' dst dst' stored :
    0 <= Unix now < 2 ^ 63 -> Relay.rc_bad_url c = None -> is_Tag (Relay.rc_tag c) ->
    (length (store_index src) < fuel)%nat -> (length (store_index dst) < fuel)%nat ->
    RelayFacts.store_sizes (S:=S) now -> Relay.sv_store relay = src -> takes dst -> unseen dst ->
    in_s64 powFloor -> in_s64 (Unix since) ->
    powFloor <= w -> Relay.sv_powFloor relay <= w -> Unix since <= t ->
    Relay.Pull (RelayFacts.direct now fuel) c now fuel (fun _ => None) dst powFloor since relay = Some (relay', dst', (stored, None)) ->
    pulled t src (Unix now) dst'.

(** Two phones meet: what one writes the other reads. *)
Inductive met (t : Z) (src : S) : Z -> S -> Prop :=
  met_by nowA nowB bf f rest e wr chs dst dst' :
    0 <= Unix nowB < 2 ^ 63 -> (length (store_index src) < bf)%nat -> (length (store_index src) < f)%nat ->
    takes dst -> unseen dst ->
    Bluetooth.runSend nowA src bf f (fun _ => false) (Bluetooth.ev_Bloom (index_Bloom (store_index dst))) (BluetoothFacts.open_writer [])
      = Some (wr, Ok tt) ->
    Bluetooth.runRecv nowB {| Bluetooth.rd_data := Bluetooth.w_out wr ++ rest; Bluetooth.rd_end := e |} dst = Some (dst', chs, Ok tt) ->
    met t src (Unix nowB) dst'.

(** A volume is carried from one node to another. *)
Inductive walked (t : Z) (src : S) : Z -> S -> Prop :=
  walked_with now1 now2 fuel1 fuel2 volume volume' tally1 dst dst' tally2 :
    0 <= Unix now1 < 2 ^ 63 -> 0 <= Unix now2 < 2 ^ 63 ->
    (length (store_index src) < fuel1)%nat -> (length (store_index volume') < fuel2)%nat ->
    ex_inv volume -> fresh id volume -> takes dst ->
    syncStores now1 fuel1 src volume = Some (volume', tally1, None) ->
    syncStores now2 fuel2 volume' dst = Some (dst', tally2, None) ->
    walked t src (Unix now2) dst'.

Definition hop (t : Z) (src : S) (t' : Z) (dst : S) : Prop :=
  pushed t src t' dst \/ pulled t src t' dst \/ met t src t' dst \/ walked t src t' dst.

(** *** Each hands the block on *)

Lemma sync_carries {A B} `{!Store A, !StoreLaws A, !Source A, !Store B, !StoreLaws B, !Source B, !MergeTarget B, !Exchange B}
    now fuel t (src : A) (dst d : B) tally :
  0 <= Unix now < 2 ^ 63 -> carries id payload w t src -> ex_inv dst -> fresh id dst -> (length (store_index src) < fuel)%nat ->
  syncStores now fuel src dst = Some (d, tally, None) -> ex_inv d /\ carries id payload w (Unix now) d.
Proof.
  intros Hnow Hc Hd Hf Hfuel E. pose proof Hc as (Hs & [_ Hg] & en & Hen & Heid & Hw).
  assert (is_ID id) as HID by (rewrite <- Hid; apply ComputeID_is_ID).
  destruct (syncStores_keeps now Hnow (only id payload (Unix now)) fuel src dst) as (d' & tally' & E' & Hd' & Ho & Hh);
    [|by apply fresh_only|done..|].
  - intros x stamp p Hx Ho Hst Hp (e & He & Hi & Hget).
    apply (put_only id payload Hid now Hnow TagPhysical is_Tag_physical (stamp, p)); [done| |done|done].
    unfold agrees. cbn [snd]. intros Ep. rewrite Hi, Ep in Hget. exact (Hg now _ Hget).
  - rewrite E in E'. apply (inj Some) in E'. injection E' as <- <-. split; [done|]. split; [by apply ex_src_inv|]. split; [done|].
    assert (holds now src id = Some (en_wf en)) as Hsrc by (apply holds_Some, (src_index now); eauto).
    specialize (Hh id HID). rewrite Hsrc in Hh. unfold better in Hh.
    assert (exists v, holds now d id = Some v /\ w <= v) as (v & Hv & Hle).
    { rewrite Hh. destruct (holds now dst id) as [v|]; cbn; eexists; (split; [done|lia]). }
    apply holds_Some, (src_index now) in Hv as (e & He & Hi & <-); [|by apply ex_src_inv|done]. by exists e.
Qed.

(** Offering blocks to a relay puts those above its floor. *)
Lemma offer_all_putting now fuel c l (relay : Relay.Server S) n :
  Relay.rc_bad_url c = None -> RelayFacts.store_sizes (S:=S) now -> Forall is_block l ->
  Relay.sv_store (RelayFacts.offer_all now fuel c l (relay, n)).1
  = putting now (Relay.origin_tag relay []) (filter (fun sp => Relay.sv_powFloor relay <= WorkFactor sp.1 sp.2) l) (Relay.sv_store relay).
Proof.
  intros Hc Hsz HF. revert relay n. induction HF as [|[stamp p] l [Hst Hp] HF IH]; intros relay n; [done|].
  cbn [RelayFacts.offer_all foldl fst snd]. rewrite (RelayFacts.relay_Put_spec now fuel c Hc stamp p relay Hst Hp Hsz).
  rewrite filter_cons. cbn [fst snd]. destruct (Z.ltb_spec (WorkFactor stamp p) (Relay.sv_powFloor relay)).
  - rewrite decide_False by lia. apply (IH relay).
  - rewrite decide_True by done. cbn [putting foldl fst snd].
    destruct (store_Put now stamp p (Relay.origin_tag relay []) (Relay.sv_store relay)) as [st [i|e]]; cbn [fst];
      apply (IH (Relay.with_store relay st)).
Qed.

Lemma pushed_carries t src t' dst : pushed t src t' dst -> carries id payload w t src -> carries id payload w t' dst.
Proof.
  intros Hhop Hc. pose proof Hc as (Hs & _ & en & Hen & Heid & Hw). pose proof (src_store_inv src Hs) as Hsi.
  pose proof (fun now limit floor since tok cur => src_lists now src limit floor since tok cur Hs) as Hlist.
  destruct Hhop as [now fuel c skip powFloor since z relay relay' n Hnow Hurl Hfuel Hsz [Hr Hf] Htag Ha Hz Hsince Hskip Hfl Hrf Ht E].
  rewrite (RelayFacts.Push_direct now fuel c Hurl src Hsi (Hlist now 100) Hfuel skip powFloor since z relay Ha Hz Hsince) in E.
  set (l := RelayFacts.offers now src skip (Z.max powFloor z) since) in E.
  assert (forall stamp p, (stamp, p) ∈ l <-> exists e, e ∈ store_index src /\
    meets (Z.max powFloor z) (Unix since) e = true /\ (cur_id (en_cursor e) ∉ skip) /\
    store_Get now src (cur_id (en_cursor e)) = Ok (stamp, p)) as Hl by (intros; apply RelayFacts.offers_elem).
  assert (Forall (fun sp => is_block sp /\ agrees id payload sp) l) as [Hb _]%Forall_and.
  { eapply served_blocks; [exact Hc|]. intros stamp p (e & He & _ & _ & Hget)%Hl. by exists e. }
  pose proof (offer_all_putting now fuel c l relay 0 Hurl Hsz Hb) as Hput.
  destruct (RelayFacts.offer_all now fuel c l (relay, 0)) as [s1 n1]. apply (inj Some) in E. injection E as -> _. cbn [fst] in Hput. rewrite Hput.
  refine (proj2 (putting_carries id payload w Hid now Hnow _ Htag now t src
    (fun e => meets (Z.max powFloor z) (Unix since) e = true /\ (cur_id (en_cursor e) ∉ skip) /\ Relay.sv_powFloor relay <= en_wf e)
    _ _ Hc Hr Hf _ _)).
  + intros stamp p. rewrite list_elem_of_filter, Hl. cbn [fst snd]. split.
    * intros (Hle & e & He & Hm & Hsk & Hget). exists e. destruct (src_honest now src e Hs He) as (_ & st & q & Hget' & _ & _ & _ & Hwf).
      rewrite Hget in Hget'. apply (inj Ok), pair_eq in Hget' as [<- <-]. by rewrite Hwf.
    * intros (e & He & (Hm & Hsk & Hle) & Hget). destruct (src_honest now src e Hs He) as (_ & st & q & Hget' & _ & _ & _ & Hwf).
      rewrite Hget in Hget'. apply (inj Ok), pair_eq in Hget' as [<- <-]. rewrite <- Hwf. split; [done|]. by exists e.
  + intros e He Hi Hwe Hte. unfold meets. rewrite andb_true_iff, !Z.leb_le, Hi. split_and!; [lia|lia|done|lia].
Qed.

Lemma pulled_carries t src t' dst : pulled t src t' dst -> carries id payload w t src -> carries id payload w t' dst.
Proof.
  intros Hhop Hc. pose proof Hc as (Hs & _ & en & Hen & Heid & Hw). pose proof (src_store_inv src Hs) as Hsi.
  pose proof (fun now limit floor since tok cur => src_lists now src limit floor since tok cur Hs) as Hlist.
  destruct Hhop as [now fuel c powFloor since relay relay' dst dst' stored Hnow Hurl Htag Hfuel Hfuel' Hsz Hrel [Hd Hf] Hu Hp Hsince Hfl Hrf Ht E].
  subst src. destruct (RelayFacts.Pull_direct now fuel c Hurl relay Hsi (Hlist now) Hfuel dst (src_store_inv dst (ex_src_inv dst Hd))
    (fun tok cur => src_lists now dst 500 0 time_zero tok cur (ex_src_inv dst Hd)) Hfuel' Hsz (fun d => ex_inv d) Hd
    (fun stamp p st Hst Hs1 Hp1 => ex_takes now st stamp p _ Hst Hnow Hs1 Hp1 Htag) powFloor since Hp Hsince) as (stored' & E' & _).
  rewrite E in E'. apply (inj Some) in E'. injection E' as _ -> _.
  refine (proj2 (putting_carries id payload w Hid now Hnow _ Htag now t (Relay.sv_store relay)
    (fun e => meets (Z.max powFloor (Relay.sv_powFloor relay)) (Unix since) e = true /\
       Has (index_Bloom (store_index dst)) (cur_id (en_cursor e)) (en_wf e) = false) _ _ Hc Hd Hf _ _)).
  + intros stamp p. rewrite RelayFacts.readable_elem. setoid_rewrite RelayFacts.wanted_elem. naive_solver.
  + intros e He Hi Hwe Hte. destruct (src_honest now _ e Hs He) as ([Hzero _]%andb_true_iff & _). apply Z.leb_le in Hzero.
    unfold meets. rewrite andb_true_iff, !Z.leb_le, Hi. split_and!; [lia|lia|by apply Hu].
Qed.

Lemma met_carries t src t' dst : met t src t' dst -> carries id payload w t src -> carries id payload w t' dst.
Proof.
  intros Hhop Hc. pose proof Hc as (Hs & _ & en & Hen & Heid & Hw). pose proof (src_store_inv src Hs) as Hsi.
  pose proof (fun now limit floor since tok cur => src_lists now src limit floor since tok cur Hs) as Hlist.
  destruct Hhop as [nowA nowB bf f rest e wr chs dst dst' Hnow Hbf Hf' [Hd Hf] Hu Ew Er].
  rewrite (BluetoothFacts.runSend_open nowA src _ Hsi (fun limit tok cur => Hlist nowA limit 0 time_zero tok cur) bf f Hbf Hf') in Ew.
  apply (inj Some), pair_eq in Ew as [<- _]. cbn [Bluetooth.w_out BluetoothFacts.open_writer] in Er.
  set (pb := index_Bloom (store_index dst)) in *.
  assert (forall stamp p, (stamp, p) ∈ BluetoothFacts.wanted nowA src pb <-> exists e, e ∈ store_index src /\
    (meets 0 (Unix time_zero) e = true /\ Has pb (cur_id (en_cursor e)) (en_wf e) = false) /\
    store_Get nowA src (cur_id (en_cursor e)) = Ok (stamp, p)) as Hl.
  { intros stamp p. rewrite BluetoothFacts.session_wanted_elem. naive_solver. }
  rewrite BluetoothFacts.runRecv_session in Er; [|apply wf_index_Bloom|].
  2:{ assert (Forall (fun sp => is_block sp /\ agrees id payload sp) (BluetoothFacts.wanted nowA src pb)) as [Hb _]%Forall_and; [|exact Hb].
      eapply served_blocks; [exact Hc|]. intros stamp p (x & Hx & _ & Hget)%Hl. by exists x. }
  apply (inj Some) in Er. injection Er as <- _.
  refine (proj2 (putting_carries id payload w Hid nowB Hnow _ _ nowA t src _ _ _ Hc Hd Hf Hl _)).
  + split; [discriminate|reflexivity].
  + intros x Hx Hi Hwe _. destruct (src_honest nowA _ x Hs Hx) as (Hm & _). split; [done|]. rewrite Hi. apply Hu.
    apply andb_true_iff in Hm as [Hzero _]. by apply Z.leb_le in Hzero.
Qed.

Lemma walked_carries t src t' dst : walked t src t' dst -> carries id payload w t src -> carries id payload w t' dst.
Proof.
  intros Hhop Hc. pose proof Hc as (Hs & _ & en & Hen & Heid & Hw). pose proof (src_store_inv src Hs) as Hsi.
  pose proof (fun now limit floor since tok cur => src_lists now src limit floor since tok cur Hs) as Hlist.
  destruct Hhop as [now1 now2 fuel1 fuel2 volume volume' tally1 dst dst' tally2 Hn1 Hn2 Hl1 Hl2 Hv Hfv [Hd Hf] E1 E2].
  destruct (sync_carries now1 fuel1 t src volume volume' tally1 Hn1 Hc Hv Hfv Hl1 E1) as [_ Hcv].
  by destruct (sync_carries now2 fuel2 (Unix now1) volume' dst dst' tally2 Hn2 Hcv Hd Hf Hl2 E2).
Qed.

(** Whatever the hop, the block arrives. *)
Lemma hop_carries t src t' dst : hop t src t' dst -> carries id payload w t src -> carries id payload w t' dst.
Proof.
  intros [Hh|[Hh|[Hh|Hh]]]; [by eapply pushed_carries|by eapply pulled_carries|by eapply met_carries|by eapply walked_carries].
Qed.

(** *** Each can be made *)

(** When the relay answers a push can be made. *)
Lemma can_push t src now c (skip : list ID) powFloor since z (relay : Relay.Server S) :
  src_inv src -> 0 <= Unix now < 2 ^ 63 -> Relay.rc_bad_url c = None -> RelayFacts.store_sizes (S:=S) now ->
  takes (Relay.sv_store relay) -> tags_blocks relay -> RelayFacts.advertised relay = Ok z -> in_s64 z -> in_s64 (Unix since) ->
  (id ∉ skip) -> Z.max powFloor z <= w -> Relay.sv_powFloor relay <= w -> Unix since <= t ->
  exists st, pushed t src (Unix now) st.
Proof.
  intros Hs Hnow Hurl Hsz Htk Htag Ha Hz Hsince Hskip Hfl Hrf Ht. set (fuel := Datatypes.S (length (store_index src))).
  pose proof (RelayFacts.Push_direct now fuel c Hurl src (src_store_inv src Hs)
    (fun floor since tok cur => src_lists now src 100 floor since tok cur Hs) (Nat.lt_succ_diag_r _) skip powFloor since z relay Ha Hz Hsince) as E.
  destruct (RelayFacts.offer_all _ _ _ _ _) as [relay' n]. eexists.
  eapply (pushed_to t src now fuel c skip powFloor since z relay); [..|exact E]; done || unfold fuel; lia.
Qed.

(** When the relay answers and the store takes blocks a pull can be made. *)
Lemma can_pull t now c powFloor since (relay : Relay.Server S) dst :
  src_inv (Relay.sv_store relay) -> 0 <= Unix now < 2 ^ 63 -> Relay.rc_bad_url c = None -> is_Tag (Relay.rc_tag c) ->
  RelayFacts.store_sizes (S:=S) now -> takes dst -> unseen dst -> in_s64 powFloor -> in_s64 (Unix since) ->
  powFloor <= w -> Relay.sv_powFloor relay <= w -> Unix since <= t ->
  exists dst', pulled t (Relay.sv_store relay) (Unix now) dst'.
Proof.
  intros Hs Hnow Hurl Htag Hsz Htk Hu Hp Hsince Hfl Hrf Ht. pose proof Htk as [Hd _].
  set (fuel := Datatypes.S (length (store_index (Relay.sv_store relay)) + length (store_index dst))).
  destruct (RelayFacts.Pull_direct now fuel c Hurl relay (src_store_inv _ Hs) (fun limit floor since tok cur => src_lists now _ limit floor since tok cur Hs)
    ltac:(lia) dst (src_store_inv dst (ex_src_inv dst Hd)) (fun tok cur => src_lists now dst 500 0 time_zero tok cur (ex_src_inv dst Hd)) ltac:(lia) Hsz
    (fun d => ex_inv d) Hd (fun stamp p st Hst Hs1 Hp1 => ex_takes now st stamp p _ Hst Hnow Hs1 Hp1 Htag) powFloor since Hp Hsince) as (stored & E & _).
  eexists. eapply (pulled_from t (Relay.sv_store relay) now fuel c powFloor since relay); [..|exact E]; done || unfold fuel; lia.
Qed.

(** Two phones can meet. *)
Lemma can_meet t src now dst : src_inv src -> 0 <= Unix now < 2 ^ 63 -> takes dst -> unseen dst ->
  exists dst', met t src (Unix now) dst'.
Proof.
  intros Hs Hnow Htk Hu. set (fuel := Datatypes.S (length (store_index src))).
  pose proof (BluetoothFacts.runSend_open now src (index_Bloom (store_index dst)) (src_store_inv src Hs)
    (fun limit tok cur => src_lists now src limit 0 time_zero tok cur Hs) fuel fuel (Nat.lt_succ_diag_r _) (Nat.lt_succ_diag_r _)) as Ew.
  pose proof (BluetoothFacts.runRecv_session now (index_Bloom (store_index src)) (BluetoothFacts.wanted now src (index_Bloom (store_index dst)))
    [] ErrEOF dst (wf_index_Bloom _)) as Er.
  eexists. eapply (met_by t src now now fuel fuel [] ErrEOF); [..|exact Ew|]; try done; try (unfold fuel; lia).
  apply Er. apply Forall_forall. intros [st p] (en & Hen & _ & _ & Hg)%BluetoothFacts.session_wanted_elem.
  destruct (src_honest now src en Hs Hen) as (_ & st' & p' & Hg' & Hst & Hp & _). rewrite Hg in Hg'. by apply (inj Ok), pair_eq in Hg' as [<- <-].
Qed.

(** A volume can be carried. *)
Lemma can_walk t src (now1 now2 : Z) volume dst : src_inv src -> 0 <= Unix now1 < 2 ^ 63 -> 0 <= Unix now2 < 2 ^ 63 ->
  ex_inv volume -> fresh id volume -> takes dst -> exists dst', walked t src (Unix now2) dst'.
Proof.
  intros Hs Hn1 Hn2 Hv Hf Htk. pose proof Htk as [Hd _].
  destruct (syncStores_exact now1 Hn1 _ src volume Hs Hv (Nat.lt_succ_diag_r _)) as (volume' & tally1 & E1 & Hv' & _).
  destruct (syncStores_exact now2 Hn2 _ volume' dst (ex_src_inv _ Hv') Hd (Nat.lt_succ_diag_r _)) as (dst' & tally2 & E2 & _).
  exists dst'. eapply (walked_with t src now1 now2); [done|done|..|exact E1|exact E2]; done || apply Nat.lt_succ_diag_r.
Qed.

(** ** A journey *)

(** From the store [src] over any number of hops. *)
Inductive route : Z -> S -> Z -> S -> Prop :=
  | route_here t src : route t src t src
  | route_on t src t' mid t'' dst : hop t src t' mid -> route t' mid t'' dst -> route t src t'' dst.

Lemma route_carries t src t' dst : route t src t' dst -> carries id payload w t src -> carries id payload w t' dst.
Proof. induction 1 as [|t src t' mid t'' dst Hh _ IH]; [done|]. intros Hc. apply IH. by eapply hop_carries. Qed.

End Hops.
