(* ===== verification/EndToEnd.v ===== *)
(** From the call that sends a message at one node to the row of it at another: the payload
    the API publishes is carried by every transport and found by the scrape of the one it
    was written to, or of every member of the channel it was posted to. *)
From Stdlib Require Import String.
From S2P Require MessageFacts CryptoFacts KeystoreFacts FlatFile FlatFileFacts Badger BadgerFacts BadgerSpec Relay RelayFacts Mobile MobileFacts Volumes ApiDemo.
From S2P Require Import Prelude Codec Block Store Message Text IdPow Crypto MessageStore Keystore Client Strconv Api ApiMessages ApiServe ApiSend Sync Exchange Delivery.

Section Arrival.
Context `{PrimitivesLaws, !Ed25519Laws, HashesLaws, KeystoreJson, GoTimeFormat, GoSort, GoFloat, !Relay.RelayJson, !Relay.RelayJsonLaws}.
Context {S : Type} `{!Store S, !StoreLaws S, !Source S, !MergeTarget S, !Exchange S}.
Context {D : Type} `{MessageDB D} {P : Type} `{PeerManager P}.
Context (median : option (S -> result Z)).
#[local] Abbreviation handler := (api S D P -> api S D P * outcome PeerInfo).

(** What is published is in the store of the node, above its floor. *)
Lemma publish_carries ev rounds payload stamp wf (k : ID -> handler) (a : api S D P) :
  MineStamp payload (powFloor median (a_blocks a)) rounds = Some (stamp, wf, None) -> draws_stamps rounds ->
  is_Payload payload -> ex_inv (a_blocks a) -> fresh (ComputeID payload) (a_blocks a) -> 0 <= Unix (e_now ev) < 2 ^ 63 ->
  exists st, publish median ev rounds (Ok payload) k a = k (ComputeID payload) (with_blocks a st) /\
    carries (ComputeID payload) payload (powFloor median (a_blocks a)) (Unix (e_now ev)) st.
Proof using Type*.
  intros Hmine Hdraws Hp Ha Hf Hnow. pose proof (MineStamp_spec payload (powFloor median (a_blocks a)) rounds) as Hspec.
  rewrite Hmine in Hspec. destruct Hspec as [-> Hle]. pose proof (MineStamp_is_Stamp _ _ _ _ _ Hdraws Hmine) as Hst.
  pose proof (mt_Put (e_now ev) (a_blocks a) stamp payload TagPhysical (ex_mt_inv _ Ha) Hnow Hst Hp is_Tag_physical) as Hput.
  pose proof (put_only (ComputeID payload) payload eq_refl (e_now ev) Hnow TagPhysical is_Tag_physical (stamp, payload) (a_blocks a)
    (conj Hst Hp) (fun _ => eq_refl) Ha (fresh_only _ payload _ _ Hf)) as Honly.
  pose proof (ex_Put (e_now ev) (a_blocks a) stamp payload TagPhysical Ha Hnow Hst Hp is_Tag_physical) as [Ha' _].
  unfold publish. rewrite Hmine. cbn [fst snd] in *. destruct (store_Put _ _ _ _ _) as [st r]. destruct Hput as (-> & _ & Hw & _).
  exists st. split; [done|]. split; [by apply ex_src_inv|]. split; [exact Honly|].
  apply (src_index (e_now ev)) in Hw as (en & Hen & Hi & Hwf); [|by apply ex_src_inv|apply ComputeID_is_ID].
  exists en. split_and!; [done|done|]. rewrite Hwf. destruct (store_GetWorkFactor _ (a_blocks a) _); lia.
Qed.

(** The key it was written to opens a block, when no key before it does. *)
Lemma classify_opens before me others chs payload mp :
  tryDecrypt (id_SignKey me) payload = Ok mp -> Forall (fun i => is_ok (tryDecrypt (id_SignKey i) payload) = false) before ->
  ParsePowGift (Content mp) = None ->
  classify (before ++ me :: others) chs payload = v_message (with_decrypted_by (id_Name me) mp).
Proof using Type*.
  intros Hd HF Hg. unfold classify, tryAllKeys.
  assert (try_identities (before ++ me :: others) payload = Some (mp, id_Name me)) as ->.
  { induction HF as [|i before Hi _ IH]; cbn [app try_identities]; [by rewrite Hd|]. by destruct (tryDecrypt (id_SignKey i) payload). }
  change (Content (with_decrypted_by (id_Name me) mp)) with (Content mp). rewrite Hg. by destruct (_ && _).
Qed.

(** When no key of an identity opens a block and no channel before it does, a channel does. *)
Lemma classify_posted ids before ch others payload mp :
  tryDecryptChannel (ch_Key ch) payload = Ok mp -> Forall (fun i => is_ok (tryDecrypt (id_SignKey i) payload) = false) ids ->
  Forall (fun c => is_ok (tryDecryptChannel (ch_Key c) payload) = false) before ->
  classify ids (before ++ ch :: others) payload = v_message (with_decrypted_by [] (with_channel (ch_Name ch) mp)).
Proof using Type*.
  intros Hd Hids HF. unfold classify, tryAllKeys.
  assert (try_identities ids payload = None) as ->.
  { induction Hids as [|i ids Hi _ IH]; cbn [try_identities]; [done|]. by destruct (tryDecrypt (id_SignKey i) payload). }
  assert (try_channels (before ++ ch :: others) payload = Some (with_channel (ch_Name ch) mp, [])) as ->; [|done].
  induction HF as [|c before Hi _ IH]; cbn [app try_channels]; [by rewrite Hd|]. by destruct (tryDecryptChannel (ch_Key c) payload).
Qed.

(** Whoever scrapes the store with the keys, from a checkpoint that is not after [t] and into
    a database that has nothing of the block, has the message in the end, unless the database
    reports an error or the callback for a gift does not return. *)
Definition finds (ids : list Identity) (chs : list Channel) (id : ID) (t : Z) (mp : MessagePayload) (fin : S) : Prop :=
  forall now_store now_recv scanStart returns fuel (R : Type) (HR : MessageDB R) (HRL : MessageDBLaws R) (db : R),
    in_s64 (db_since db) -> scrape_since db <= t -> (length (store_index fin) < fuel)%nat -> (id ∉ row_block_id <$> db_rows db) ->
    exists st e, Scrape ids chs now_store now_recv scanStart fin returns fuel (fun _ => None) db = Some (st, e) /\
      (e = None -> exists i, with_id i (message_row now_recv id mp) ∈ db_rows (sc_db st)).

Lemma carried_found ids chs payload w t (fin : S) mp :
  carries (ComputeID payload) payload w t fin -> classify ids chs payload = v_message mp -> finds ids chs (ComputeID payload) t mp fin.
Proof using Type*.
  intros Hc Hcl now_store now_recv scanStart returns fuel R HR HRL db Hr Ht Hf Hnew. pose proof Hc as (Hs & [Hat _] & en & Hen & Hi & _).
  destruct (carries_Get _ _ _ eq_refl now_store t fin Hc) as (stamp & Hget & _). rewrite <- Hi in *.
  apply (Scrape_finds ids chs now_store now_recv scanStart fin returns StoreLaws0 (src_store_inv _ Hs) fuel _ db en stamp payload); try done.
  - by rewrite (Hat en Hen eq_refl).
  - destruct (src_honest now_store fin en Hs Hen) as ([Hz _]%andb_true_iff & _). by apply Z.leb_le in Hz.
Qed.

(** ** Sent and found *)

Section Sent.
Context (ev : env) (now_save : Z) (eph : XPriv) (rp : XPub) (shared nonce : bytes) (noise : byte) (rounds : list mine_round).
Context (req : send_req) (k : Keystore) (signer : option Identity) (sk : bytes) (a : api S D P).
Context (Hmu : a_mu a = free_mutex) (Hk : ss_ks (a_session a) = Some k) (Hwf : KeystoreFacts.wf_keystore k) (Hs : signer_of k req signer).
Context (Hto : sr_to req = b64_encode StdEncoding (ed25519_Public sk)) (Hsk : length sk = 64%nat).
Context (Hne : ~ (sr_edit req = [] /\ sr_delete req = [] /\ sr_message req = [])).
Context (Hc : (length (direct_content req).2 <= V3MaxContent)%nat) (Hnow : 0 <= Unix (e_now ev) < 2 ^ 63).
Context (Hr : reply_found req (a_msgs a)).
Context (Hrp : EdPubToX25519 (ed25519_Public sk) = Ok rp) (Hsh : XPriv_ECDH eph rp = Ok shared) (Hn : length nonce = nonceSize).
Context (Ha : ex_inv (a_blocks a)) (Hdraws : draws_stamps rounds) (Hgift : ParsePowGift (direct_content req).2 = None).

#[local] Abbreviation dr := {| dr_key := Ok eph; dr_nonce := Ok nonce; dr_noise := Ok noise |}.
#[local] Abbreviation message := (outgoing (e_now ev) (direct_content req) (sender_pub signer) (thread_refs req (a_msgs a))).

(** C1: A message sent is a message received.  For a request to send that the keystore and
    the text allow, take the payload that encrypting its message gives, signed when the
    request names a sender: the type and content asked for, the time, the key of the sender
    and the references of the thread.  Once a stamp for that payload is found, and nothing is
    stored under its id already, the call answers 201 with the id and the block is in the
    store; and at the end of every route from there (blocks pushed to a relay, pulled from
    one, handed over between phones or carried on a USB volume, in any number and order,
    between stores that did not have the block and whose floors its proof of work meets) the
    scrape of the owner of the key it was addressed to, which no key before it opens, ends,
    and unless its database fails adds the row of that message under the name of that key. *)
Theorem message_arrives : exists payload sig,
  direct_payload dr (ed25519_Public sk) message signer = Ok payload /\ is_Payload payload /\
  let '(a', o) := (handleSend median ev now_save dr rounds (Ok req) : handler) a in
  let id := ComputeID payload in let w := powFloor median (a_blocks a) in
  forall stamp wf, MineStamp payload w rounds = Some (stamp, wf, None) -> fresh id (a_blocks a) ->
    o = Reply StatusCreated (block_ids [hex_encode id]) /\ carries id payload w (Unix (e_now ev)) (a_blocks a') /\
    forall t fin, route id w (Unix (e_now ev)) (a_blocks a') t fin ->
    forall before me others chs, id_SignKey me = sk -> Forall (fun i => is_ok (tryDecrypt (id_SignKey i) payload) = false) before ->
      finds (before ++ me :: others) chs id t (with_decrypted_by (id_Name me) (with_signature message sig)) fin.
Proof using All.
  destruct (handleSend_runs median ev now_save eph rp shared nonce noise rounds req k signer sk a) as (payload & sig & Epay & Hp & Hdec & E);
    try done; [unfold in_s64; lia|].
  exists payload, sig. split; [exact Epay|]. split; [exact Hp|]. destruct (handleSend _ _ _ _ _ _ a) as [a' o].
  intros id w stamp wf Hmine Hf. destruct (publish_carries ev rounds payload stamp wf (fun id a =>
      let '(db, _) := SaveMessage now_save id (sent_copy message (ed25519_Public sk) (sr_sender req)) (a_msgs a) in
      (with_msgs a db, Reply StatusCreated (block_ids [hex_encode id]))) a Hmine Hdraws Hp Ha Hf Hnow) as (st & Epub & Hcar).
  rewrite Epub in E. destruct (SaveMessage _ _ _ _) as [db' r]. apply pair_eq in E as [-> ->]. split; [done|]. split; [exact Hcar|].
  intros t fin Hroute before me others chs Hme HF. apply (carried_found _ _ payload w).
  - by apply (route_carries id payload w eq_refl _ _ _ _ Hroute).
  - apply classify_opens; [by rewrite Hme|done|exact Hgift].
Qed.
End Sent.
(** ** Posted and found *)

Section Posted.
Context (ev : env) (salt nonce : bytes) (rounds : list mine_round).
Context (req : send_req) (k : Keystore) (signer : option Identity) (ch : Channel) (a : api S D P).
Context (Hmu : a_mu a = free_mutex) (Hk : ss_ks (a_session a) = Some k) (Hwf : KeystoreFacts.wf_keystore k) (Hs : signer_of k req signer).
Context (Hto : sr_to req <> []) (Hch : find_first (channel_named (sr_to req)) (Channels k) = Some ch).
Context (Hne : ~ (sr_edit req = [] /\ sr_delete req = [] /\ sr_message req = [])).
Context (Hc : (length (channel_content req).2 <= V3MaxContent)%nat) (Hnow : 0 <= Unix (e_now ev) < 2 ^ 63).
Context (Hr : reply_found req (a_msgs a)) (Hsl : length salt = channelSaltSize) (Hn : length nonce = nonceSize).
Context (Ha : ex_inv (a_blocks a)) (Hdraws : draws_stamps rounds).

#[local] Abbreviation dr := {| cd_salt := Ok salt; cd_nonce := Ok nonce |}.
#[local] Abbreviation post := (outgoing (e_now ev) (channel_content req) (sender_pub signer) (thread_refs req (a_msgs a))).

(** C4: A message posted to a channel is received by its members.  For a request to post to
    a channel of the keystore, under one of its names or anonymously, take the payload that
    encrypting the post under the key of the channel gives: the post, edit or deletion asked
    for, with its time, its sender and its references, signed when it names a sender.  Once
    a stamp for that payload is found, and nothing is stored under its id already, the call
    answers 201 with the id and the block is in the store; and at the end of every route from
    there the scrape of each member, who knows the key of the channel under whatever name, and
    no key before it that opens the block, finds that message, under the name the member has
    for the channel. *)
Theorem post_arrives : exists payload sig,
  channel_payload dr (ch_Key ch) post signer = Ok payload /\ is_Payload payload /\
  let '(a', o) := (handleSendChannel median ev dr rounds (Ok req) : handler) a in
  let id := ComputeID payload in let w := powFloor median (a_blocks a) in
  forall stamp wf, MineStamp payload w rounds = Some (stamp, wf, None) -> fresh id (a_blocks a) ->
    o = Reply StatusCreated (block_id (hex_encode id)) /\ carries id payload w (Unix (e_now ev)) (a_blocks a') /\
    forall t fin, route id w (Unix (e_now ev)) (a_blocks a') t fin ->
    forall ids before mine others, ch_Key mine = ch_Key ch ->
      Forall (fun i => is_ok (tryDecrypt (id_SignKey i) payload) = false) ids ->
      Forall (fun c => is_ok (tryDecryptChannel (ch_Key c) payload) = false) before ->
      finds ids (before ++ mine :: others) id t
        (with_decrypted_by [] (with_channel (ch_Name mine) (with_signature post sig))) fin.
Proof using All.
  destruct (handleSendChannel_runs median ev salt nonce rounds req k signer ch a) as (payload & sig & Epay & Hp & Hdec & E);
    try done; [unfold in_s64; lia|].
  exists payload, sig. split; [exact Epay|]. split; [exact Hp|]. destruct (handleSendChannel _ _ _ _ _ a) as [a' o].
  intros id w stamp wf Hmine Hf.
  destruct (publish_carries ev rounds payload stamp wf (fun id a => (a, Reply StatusCreated (block_id (hex_encode id)))) a
    Hmine Hdraws Hp Ha Hf Hnow) as (st & Epub & Hcar).
  rewrite Epub in E. apply pair_eq in E as [-> ->]. split; [done|]. split; [exact Hcar|].
  intros t fin Hroute ids before mine others Hkey Hids HF. apply (carried_found _ _ payload w).
  - by apply (route_carries id payload w eq_refl _ _ _ _ Hroute).
  - apply classify_posted; [by rewrite Hkey|done|done].
Qed.
End Posted.
End Arrival.

#[local] Existing Instances Badger.Badger_Store BadgerFacts.Badger_StoreLaws.

(** What the key-value store reads and writes has the sizes of blocks. *)
Lemma badger_sizes `{Badger.Badger, HashesLaws, GoSort, GoFloat, !Badger.GoMapRange} now : RelayFacts.store_sizes (S:=Badger.BadgerStore) now.
Proof.
  split.
  - intros st id s p. cbn [store_Get Badger.Badger_Store]. unfold Badger.Get. destruct (Badger.txn_Get _ _) as [it|e]; [|by destruct e].
    destruct (Badger.item_Value it) as [v|]; [|done]. cbn [mbind result_bind]. unfold Badger.decode_block.
    destruct (Nat.eqb_spec (length v) (Badger.legacyBlockValHeaderSize + PayloadSize)); [|destruct (Nat.ltb_spec (length v) (Badger.blockValHeaderSize + PayloadSize)); [done|]];
      intros E%(inj Ok)%pair_eq; destruct E as [<- <-]; unfold is_Stamp, is_Payload, Badger.blockValHeaderSize, Badger.legacyBlockValHeaderSize in *;
      rewrite !length_slice; unfold StampSize in *; lia.
  - intros st stamp payload tag st' id. cbn [store_Put Badger.Badger_Store]. unfold Badger.Put.
    destruct (Badger.db_Update _ _ _) as [d [[]|e]]; [|done]. intros [_ Hid]%pair_eq. apply (inj Ok) in Hid as <-. apply ComputeID_is_ID.
Qed.

(** ** At concrete inputs *)

(** Alice's node, whose key-value store is new, pushes to a relay with a new store, and the
    recipient, who has one key, pulls into another. *)
Module EndToEndDemo.
Import MessageFacts CryptoFacts KeystoreFacts KeystoreDemo MessageStoreDemo ApiDemo.ApiDemo Volumes.VolumesDemo Badger BadgerFacts BadgerSpec.
#[local] Existing Instances ref_KeystoreJson ref_KeystoreJsonLaws ref_Primitives ref_PrimitivesLaws ref_TimeFormat
  ref_Hashes ref_HashesLaws ref_Ed25519 ref_Ed25519Laws ref_GoFloat ref_Badger ref_BadgerLaws ref_GoMapRange
  node_reads node_writes now_PeerManager RelayFacts.ref_RelayJson RelayFacts.ref_RelayJsonLaws.

Definition alice_node : api BadgerStore RefDB mobile_peers := {|
  a_blocks := new_node; a_msgs := MessageStoreDemo.fresh;
  a_session := {| ss_ks := Some keys; ss_scraper := None; ss_tokens := {[ bs "token" ]} |};
  a_mu := free_mutex; a_peers := None; a_cache := ∅; a_disk := ∅; a_gifts := [] |}.

Definition bob : Identity := {| id_Name := bs "bob"; id_SignKey := CryptoDemo.sk; id_IDPowStamp := [] |}.

Lemma new_node_index : store_index new_node = [].
Proof.
  destruct (store_index new_node) as [|en l] eqn:E; [done|]. assert (en ∈ store_index new_node) as Hen by (rewrite E; by left).
  apply (badger_index_elem _ ∅ rep_empty) in Hen as (i & r & Hl & _). by rewrite lookup_empty in Hl.
Qed.

Lemma new_node_fresh id : is_ID id -> Delivery.fresh id new_node.
Proof.
  intros Hid. split; [intros en Hen; by rewrite new_node_index in Hen; apply elem_of_nil in Hen|].
  intros now sp Hg. pose proof (Get_spec now new_node ∅ rep_empty id Hid) as Hs. cbn [store_Get Badger_Store] in Hg.
  rewrite Hg in Hs. destruct Hs as (r & Hr & _). by rewrite lookup_empty in Hr.
Qed.

Lemma new_node_takes id : is_ID id -> takes id new_node.
Proof. intros Hid. split; [apply new_node_ok|by apply new_node_fresh]. Qed.

Lemma epoch : 0 <= Unix 0 < 2 ^ 63.
Proof. vm_compute. split; [discriminate|reflexivity]. Qed.

Lemma small_s64 : in_s64 0.
Proof. split; vm_compute; congruence. Qed.

Lemma epoch_s64 : in_s64 (Unix time_zero).
Proof. split; vm_compute; congruence. Qed.

Lemma since_always t : 0 <= t -> Unix time_zero <= t.
Proof. assert (Unix time_zero = -62135596800) by (vm_compute; reflexivity). lia. Qed.

Definition relay_of (st : BadgerStore) : Relay.Server BadgerStore := {|
  Relay.sv_store := st; Relay.sv_powFloor := 0; Relay.sv_median := None; Relay.sv_geoip := None;
  Relay.sv_peerSource := None; Relay.sv_added := None |}.

(** Through a relay, between stores that are new. *)
Lemma through_relay payload src : carries (ComputeID payload) payload 0 (Unix 0) src ->
  exists fin, route (ComputeID payload) 0 (Unix 0) src (Unix 0) fin.
Proof.
  intros Hc. pose proof (ComputeID_is_ID payload) as Hid. pose proof (proj1 epoch) as Hpos.
  destruct (can_push (ComputeID payload) 0 (Unix 0) src 0 RelayFacts.RelayDemo.client [] 0 time_zero 0 (relay_of new_node)) as (st & Hpush);
    [apply Hc|apply epoch|done|apply badger_sizes|by apply new_node_takes|split; vm_compute; congruence|done|apply small_s64|apply epoch_s64|
     by intros ?%elem_of_nil|done|done|by apply since_always|].
  pose proof (pushed_carries (ComputeID payload) payload 0 eq_refl _ _ _ _ Hpush Hc) as Hst.
  destruct (can_pull (ComputeID payload) 0 (Unix 0) 0 RelayFacts.RelayDemo.client 0 time_zero (relay_of st) new_node) as (fin & Hpull);
    [apply Hst|apply epoch|done|split; vm_compute; congruence|apply badger_sizes|by apply new_node_takes|apply unseen_empty, new_node_index|
     apply small_s64|apply epoch_s64|done|done|by apply since_always|].
  exists fin. eapply route_on; [by left|]. eapply route_on; [right; left; exact Hpull|]. apply route_here.
Qed.
#[local] Abbreviation sent := (outgoing 0 (MsgTypeText, bs "hi") (ed25519_Public (id_SignKey alice)) no_refs).

Lemma message_arrives_witness : exists payload sig fin st e,
  direct_payload {| dr_key := Ok CryptoDemo.eph; dr_nonce := Ok CryptoDemo.nonce; dr_noise := Ok xff |}
    (ed25519_Public CryptoDemo.sk) sent (Some alice) = Ok payload /\
  Scrape [bob] [] 0 5 0 fin (fun _ => true) (Datatypes.S (length (store_index fin))) (fun _ => None) MessageStoreDemo.fresh = Some (st, e) /\
  (e = None -> exists i, with_id i (message_row 5 (ComputeID payload) (with_decrypted_by (bs "bob") (with_signature sent sig))) ∈ db_rows (sc_db st)).
Proof.
  destruct (Montgomery_agrees CryptoDemo.sk CryptoDemo.scalar eq_refl eq_refl) as (pt & Hpt & Hm).
  assert (EdPubToX25519 (ed25519_Public CryptoDemo.sk) = Ok (XPriv_PublicKey CryptoDemo.scalar)) as Hrp.
  { unfold EdPubToX25519. rewrite Hpt. cbn [mbind result_bind]. rewrite Hm. apply NewPublicKey_Bytes. }
  assert (signer_of keys greeting (Some alice)) as Hs.
  { unfold signer_of. rewrite bool_decide_false by discriminate. exists alice. split; reflexivity. }
  assert (length (direct_content greeting).2 <= V3MaxContent)%nat as Hc.
  { apply Nat2Z.inj_le. rewrite V3MaxContent_Z. vm_compute. discriminate. }
  pose proof (message_arrives None (i_env calm) 0 CryptoDemo.eph _ _ CryptoDemo.nonce xff [] greeting keys (Some alice) CryptoDemo.sk alice_node
    eq_refl eq_refl keys_wf Hs eq_refl eq_refl ltac:(intros (_ & _ & Hx); discriminate Hx) Hc epoch
    (or_introl eq_refl) Hrp eq_refl eq_refl new_node_ok ltac:(constructor) eq_refl) as Hd.
  destruct Hd as (payload & sig & Epay & Hp & Hd). destruct (handleSend _ _ _ _ _ _ _) as [a' o].
  destruct (Hd _ _ eq_refl (new_node_fresh _ (ComputeID_is_ID payload))) as (_ & Hcar & Harr).
  destruct (through_relay payload (a_blocks a') Hcar) as (fin & Hroute).
  destruct (Harr (Unix 0) fin Hroute [] bob [] [] eq_refl ltac:(constructor) 0 5 0 (fun _ => true) (Datatypes.S (length (store_index fin))) RefDB _ _ MessageStoreDemo.fresh
    ltac:(split; vm_compute; congruence) ltac:(by apply since_always) (Nat.lt_succ_diag_r _) ltac:(by intros ?%elem_of_nil))
    as (st & e & Escr & Hrow).
  exists payload, sig, fin, st, e. split; [exact Epay|]. split; [exact Escr|exact Hrow].
Defined.

(** Alice posts without a name; a member who has no key of her own but that of the channel,
    under another name, finds the post. *)
Definition notice : send_req := {|
  sr_to := ch_Name news; sr_message := bs "hi all"; sr_sender := []; sr_reply_to := []; sr_forum_post := true; sr_subject := bs "hello";
  sr_edit := []; sr_delete := [] |}.
Definition headlines : Channel := {| ch_Name := bs "headlines"; ch_Key := ch_Key news |}.

#[local] Abbreviation posted := (outgoing 0 (MsgTypePost, bs "hello" ++ newline :: bs "hi all") zero_pub no_refs).

Lemma post_arrives_witness : exists payload sig fin st e,
  channel_payload {| cd_salt := Ok (replicate 32 x05); cd_nonce := Ok CryptoDemo.nonce |} (ch_Key news) posted None = Ok payload /\
  Scrape [] [headlines] 0 5 0 fin (fun _ => true) (Datatypes.S (length (store_index fin))) (fun _ => None) MessageStoreDemo.fresh = Some (st, e) /\
  (e = None -> exists i, with_id i (message_row 5 (ComputeID payload)
     (with_decrypted_by [] (with_channel (bs "headlines") (with_signature posted sig)))) ∈ db_rows (sc_db st)).
Proof.
  assert (length (channel_content notice).2 <= V3MaxContent)%nat as Hc.
  { apply Nat2Z.inj_le. rewrite V3MaxContent_Z. vm_compute. discriminate. }
  pose proof (post_arrives None (i_env calm) (replicate 32 x05) CryptoDemo.nonce [] notice keys None news alice_node
    eq_refl eq_refl keys_wf eq_refl ltac:(discriminate) eq_refl ltac:(intros (_ & _ & Hx); discriminate Hx) Hc epoch
    (or_introl eq_refl) eq_refl eq_refl new_node_ok ltac:(constructor)) as Hd.
  destruct Hd as (payload & sig & Epay & Hp & Hd). destruct (handleSendChannel _ _ _ _ _ _) as [a' o].
  destruct (Hd _ _ eq_refl (new_node_fresh _ (ComputeID_is_ID payload))) as (_ & Hcar & Harr).
  destruct (through_relay payload (a_blocks a') Hcar) as (fin & Hroute).
  destruct (Harr (Unix 0) fin Hroute [] [] headlines [] eq_refl ltac:(constructor) ltac:(constructor)
    0 5 0 (fun _ => true) (Datatypes.S (length (store_index fin))) RefDB _ _ MessageStoreDemo.fresh
    ltac:(split; vm_compute; congruence) ltac:(by apply since_always) (Nat.lt_succ_diag_r _) ltac:(by intros ?%elem_of_nil))
    as (st & e & Escr & Hrow).
  exists payload, sig, fin, st, e. split; [exact Epay|]. split; [exact Escr|exact Hrow].
Defined.
End EndToEndDemo.
