(* ===== verification/Startup.v ===== *)
(** Start-up of the program ([cmd/snk/main.go]): the subcommands with their flags, the
    configuration of the store, and how tracker, discovery, relay and API are put together. *)
From Stdlib Require Import String.
From S2P Require Badger BadgerSpec MessageStore FlatFile FlatFileFacts RelayFacts PeersFacts PeersSync.
From S2P Require Import Prelude Codec Block Store Text Net Keystore GeoIP Relay Peers Lan FanIn Volumes Api.

(** [filepath.Join] *)
Class FilepathJoin := filepath_Join : list bytes -> bytes.

(** ** Subcommands *)

Inductive command :=
  | run_node (args : list bytes)
  | run_relay (args : list bytes)
  | run_mass_storage (args : list bytes)
  | run_usage (unknown : option bytes). (* the usage, and exit status 1 *)

(** [args] is [os.Args]. *)
Definition main (args : list bytes) : command :=
  match args with
  | _ :: sub :: rest =>
      if bool_decide (sub = bs "node") then run_node rest
      else if bool_decide (sub = bs "relay") then run_relay rest
      else if bool_decide (sub = bs "mass-storage") then run_mass_storage rest
      else run_usage (Some sub)
  | _ => run_usage None
  end.

(** ** Flags *)

(** The flags of a node after parsing; the package [flag] fills in the defaults. *)
Record node_flags := {
  nf_apiAddr : bytes; nf_blocksDir : bytes; nf_messagesDB : bytes; nf_keystoreFile : bytes;
  nf_powFloor : Z; nf_syncInterval : Z; nf_peers : bytes; nf_advertiseURL : bytes; nf_peerCache : bytes;
  nf_lanScan : bool; nf_usbDir : bytes; nf_usbInterval : Z;
  nf_storageLimit : bytes; nf_reservePhysical : bytes; nf_reserveLan : bytes;
}.

Definition node_defaults : node_flags := {|
  nf_apiAddr := bs "127.0.0.1:8080"; nf_blocksDir := bs "blocks.db"; nf_messagesDB := bs "messages.db";
  nf_keystoreFile := bs "keystore.json"; nf_powFloor := 0; nf_syncInterval := 300 * second; nf_peers := [];
  nf_advertiseURL := []; nf_peerCache := bs "peers.json"; nf_lanScan := false; nf_usbDir := [];
  nf_usbInterval := 30 * second; nf_storageLimit := bs "0"; nf_reservePhysical := bs "0"; nf_reserveLan := bs "0" |}.

Record relay_flags := {
  rf_addr : bytes; rf_blocksDir : bytes; rf_powFloor : Z; rf_syncInterval : Z; rf_peers : bytes;
  rf_advertiseURL : bytes; rf_peerCache : bytes; rf_lanScan : bool;
  rf_storageLimit : bytes; rf_reservePhysical : bytes; rf_reserveLan : bytes; rf_reserveRegional : bytes;
  rf_reserveGlobal : bytes; rf_region : bytes; rf_geoipDB : bytes; rf_geoipURL : bytes; rf_geoipRefresh : Z;
}.

Definition relay_defaults : relay_flags := {|
  rf_addr := bs "0.0.0.0:8081"; rf_blocksDir := bs "blocks.db"; rf_powFloor := 0; rf_syncInterval := 300 * second;
  rf_peers := []; rf_advertiseURL := []; rf_peerCache := bs "peers.json"; rf_lanScan := false;
  rf_storageLimit := bs "0"; rf_reservePhysical := bs "0"; rf_reserveLan := bs "0"; rf_reserveRegional := bs "0";
  rf_reserveGlobal := bs "0"; rf_region := []; rf_geoipDB := [];
  rf_geoipURL := bs "https://github.com/P3TERX/GeoLite.mmdb/raw/download/GeoLite2-City.mmdb";
  rf_geoipRefresh := 120 * 3600 * second |}.

(** ** Storage *)

Section Storage.
Context `{Badger.Badger, UnicodeUpper}.

(** A flag of a reservation: its name, its tag and its text. *)
Abbreviation reserve := (string * Tag * bytes)%type.

Fixpoint parse_reserves (l : list reserve) : result (list (Tag * Z)) :=
  match l with
  | [] => Ok []
  | (name, tag, text) :: l' =>
      match parseBytes text with
      | Err e => Err (ErrWrap ("invalid -" ++ name)%string e)
      | Ok n => r ← parse_reserves l'; Ok ((tag, n) :: r)
      end
  end.

Definition configure (storageLimit : bytes) (reserves : list reserve) (store : Badger.BadgerStore)
    : result Badger.BadgerStore :=
  match parseBytes storageLimit with
  | Err e => Err (ErrWrap "invalid -storage-limit" e)
  | Ok limit =>
      if 0 <? limit then
        r ← parse_reserves reserves;
        Ok (Badger.WithReservations (Badger.WithStorageLimit store limit) (list_to_map r))
      else Ok store
  end.

Definition node_reserves (f : node_flags) : list reserve :=
  [("reserve-physical", TagPhysical, nf_reservePhysical f); ("reserve-lan", TagLan, nf_reserveLan f)]%string.
Definition relay_reserves (f : relay_flags) : list reserve :=
  [("reserve-physical", TagPhysical, rf_reservePhysical f); ("reserve-lan", TagLan, rf_reserveLan f);
   ("reserve-regional", TagRegional, rf_reserveRegional f); ("reserve-global", TagGlobal, rf_reserveGlobal f)]%string.
End Storage.

(** ** Putting it together *)

Section Start.
Context `{Badger.Badger, UnicodeUpper, UrlParse, Geoip2, FilepathJoin} {D P : Type} `{MessageStore.MessageDB D}.

Definition start_tracker (advertise peerCache : bytes) : peerTracker :=
  let pt := newPeerTracker in
  {| known := known pt;
     advertiseURL := if bool_decide (advertise <> []) then peerURL advertise else advertiseURL pt;
     peersFile := peerCache; started := started pt |}.

(** The relay server over a store as it stands when the tracker is [pt]; [order] is the order
    of iteration of its map. *)
Definition serve_relay (store : Badger.BadgerStore) (powFloor : Z) (order : list bytes) (pt : peerTracker)
    : Server Badger.BadgerStore :=
  SetPeerAdder (SetPeerSource (nonPenalizedPeers order pt) (NewServer (Some Badger.MedianWorkFactor) store powFloor)).

(** The adder of peers. *)
Definition add_greeted (u : bytes) (pt : peerTracker) : peerTracker := fst (addPeer (peerURL u) pt).

Definition lan_sources (lanScan : bool) : list disc := if lanScan then [Discover] else [].

(** A node once its goroutines are started: the loop of the tracker with its static peers and
    the merged channel, the relay on the local network, the loop over volumes, and the API. *)
Record node := {
  nd_store : Badger.BadgerStore;
  nd_msgs : D;
  nd_tracker : peerTracker;
  nd_static : list bytes;
  nd_rotate : bool;
  nd_fan : fan;
  nd_lanRelay : option (list bytes -> peerTracker -> Server Badger.BadgerStore);
  nd_usb : option (bytes * Z);
  nd_api : api Badger.BadgerStore D P;
}.

(** An error is the end of the program by [log.Fatalf]; [opened] and [sql] are the outcomes of
    opening the two databases. *)
Definition cmdNode (f : node_flags) (opened : result Badger.DB) (sql : result D) (d : disk) : result node :=
  let staticPeers := splitPeers (nf_peers f) in
  match Badger.OpenBadger opened with
  | Err e => Err (ErrWrap "open blockstore" e)
  | Ok store =>
      store ← configure (nf_storageLimit f) (node_reserves f) store;
      match MessageStore.OpenMessageStore sql with
      | Err e => Err (ErrWrap "open message store" e)
      | Ok ms =>
          Ok {| nd_store := store;
                nd_msgs := ms;
                nd_tracker := start_tracker (nf_advertiseURL f) (nf_peerCache f);
                nd_static := staticPeers;
                nd_rotate := true;
                nd_fan := mergePeers (lan_sources (nf_lanScan f));
                nd_lanRelay := if nf_lanScan f then Some (serve_relay store (nf_powFloor f)) else None;
                nd_usb := if bool_decide (nf_usbDir f <> []) then Some (nf_usbDir f, nf_usbInterval f) else None;
                nd_api := Api.New store ms d |}
      end
  end.

Record relay_node := {
  rn_store : Badger.BadgerStore;
  rn_tracker : peerTracker;
  rn_static : list bytes;
  rn_rotate : bool;
  rn_fan : fan;
  rn_geoip : option GeoIP;
  rn_server : list bytes -> peerTracker -> Server Badger.BadgerStore;
}.

(** The regions of the flag and the classifier, if there are any; [now], [mtime] and [io] are
    those of the first download. *)
Definition region_list (flag : bytes) : list bytes :=
  omap (fun r => let r := TrimSpace r in if bool_decide (r <> []) then Some r else None) (Split flag comma).

Definition start_geoip (f : relay_flags) (now : Z) (mtime : option Z) (io : download_io) (fs : files)
    : option GeoIP * files :=
  if bool_decide (rf_region f <> []) then
    let path := if bool_decide (rf_geoipDB f = []) then filepath_Join [rf_blocksDir f; bs "geoip.mmdb"] else rf_geoipDB f in
    let '(g, fs) := Start now mtime io (NewGeoIP path (region_list (rf_region f)) (rf_geoipRefresh f)) fs in
    (Some g, fs)
  else (None, fs).

Definition cmdRelay (f : relay_flags) (opened : result Badger.DB) (now : Z) (mtime : option Z) (io : download_io) (fs : files)
    : result (relay_node * files) :=
  let staticPeers := splitPeers (rf_peers f) in
  match Badger.OpenBadger opened with
  | Err e => Err (ErrWrap "open blockstore" e)
  | Ok store =>
      store ← configure (rf_storageLimit f) (relay_reserves f) store;
      let '(g, fs) := start_geoip f now mtime io fs in
      Ok ({| rn_store := store;
             rn_tracker := start_tracker (rf_advertiseURL f) (rf_peerCache f);
             rn_static := staticPeers;
             rn_rotate := false;
             rn_fan := mergePeers (lan_sources (rf_lanScan f));
             rn_geoip := g;
             rn_server := fun order pt =>
               let srv := serve_relay store (rf_powFloor f) order pt in
               match g with Some g => SetGeoIP (GeoTag g) srv | None => srv end |}, fs)
  end.
End Start.

(** ** Storage as the flags say *)

Section StorageFacts.
Context `{Badger.Badger, UnicodeUpper}.

(** The flags of a store mean what they say.  A limit that cannot be read ends the program; a
    limit that is not positive leaves the store as it was opened, without a limit that [Put]
    enforces and without reservations, whose flags are not even read; a positive limit is the
    limit of the store, and the reservations are those of the flags, in bytes, or the program
    ends naming the first that cannot be read. *)
Theorem configure_spec limit reserves opened :
  (forall e, parseBytes limit = Err e ->
     (store ← Badger.OpenBadger (Ok opened); configure limit reserves store) = Err (ErrWrap "invalid -storage-limit" e)) /\
  (forall n, parseBytes limit = Ok n -> n <= 0 ->
     exists s, (store ← Badger.OpenBadger (Ok opened); configure limit reserves store) = Ok s /\
       Badger.db s = opened /\ Badger.storageLimit s = 0 /\ Badger.reservations s = ∅) /\
  (forall n, parseBytes limit = Ok n -> 0 < n ->
     match (store ← Badger.OpenBadger (Ok opened); configure limit reserves store) with
     | Ok s => Badger.db s = opened /\ Badger.storageLimit s = n /\
         exists sizes, Forall2 (fun r z => parseBytes r.2 = Ok z) reserves sizes /\
           Badger.reservations s = list_to_map (zip ((fun r => r.1.2) <$> reserves) sizes)
     | Err err => exists l name tag text l' e, reserves = l ++ (name, tag, text) :: l' /\
         Forall (fun r => is_ok (parseBytes r.2) = true) l /\ parseBytes text = Err e /\ err = ErrWrap ("invalid -" ++ name) e
     end).
Proof.
  cbn [mbind result_bind Badger.OpenBadger]. unfold configure. split_and!.
  - by intros e ->.
  - intros n -> Hn. rewrite (proj2 (Z.ltb_ge 0 n)) by done. eexists. by split_and!.
  - intros n -> Hn. rewrite (proj2 (Z.ltb_lt 0 n)) by done.
    assert (match parse_reserves reserves with
            | Ok r => exists sizes, Forall2 (fun r z => parseBytes r.2 = Ok z) reserves sizes /\
                r = zip ((fun r => r.1.2) <$> reserves) sizes
            | Err err => exists l name tag text l' e, reserves = l ++ (name, tag, text) :: l' /\
                Forall (fun r => is_ok (parseBytes r.2) = true) l /\ parseBytes text = Err e /\ err = ErrWrap ("invalid -" ++ name) e
            end) as Hp.
    { induction reserves as [|[[name tag] text] l IH]; cbn [parse_reserves]; [by exists []|].
      destruct (parseBytes text) as [z|e] eqn:Ez.
      - destruct (parse_reserves l) as [r|err]; cbn [mbind result_bind].
        + destruct IH as (sizes & Hs & ->). exists (z :: sizes). split; [by constructor|done].
        + destruct IH as (l1 & name' & tag' & text' & l' & e & -> & Hl & Ht & ->).
          exists ((name, tag, text) :: l1), name', tag', text', l', e. split_and!; [done| |done|done].
          constructor; [cbn [snd]; by rewrite Ez|done].
      - exists [], name, tag, text, l, e. split_and!; [done|constructor|done|done]. }
    destruct (parse_reserves reserves) as [r|err]; cbn [mbind result_bind]; [|done].
    split; [done|]. split; [done|]. by destruct Hp as (sizes & Hs & ->); exists sizes.
Qed.
End StorageFacts.

(** ** Discovery feeds the tracker *)

Section Discovery.
Context `{Hashes, RelayJson, UrlParse, PeersJson} {S : Type} `{Store S} {N : Type}.
Context (net : bytes -> Request -> N -> N * result Relay.Reply) (bad_url : bytes -> option error).
Context (fuel : nat) (powFloor : Z) (rotate : bool) (mo : bytes -> moment).

(** The loop of the tracker over the addresses it takes. *)
Fixpoint take_addresses (addrs : list bytes) (w : world S N) : option (world S N) :=
  match addrs with
  | [] => Some w
  | a :: l => w ← run_step net bad_url fuel powFloor rotate (ev_address a (mo a)) w; take_addresses l w
  end.

(** A URL is a peer, or there are as many as there can be, or it is the node itself. *)
Definition peer_or_full (pt : peerTracker) (u : bytes) : Prop :=
  is_Some (known pt !! u) \/ (maxPeers <= size (known pt))%nat \/ u = advertiseURL pt.

Lemma run_address_step a w : exists w', run_step net bad_url fuel powFloor rotate (ev_address a (mo a)) w = Some w' /\
  advertiseURL (w_tracker w') = advertiseURL (w_tracker w) /\
  (forall u, is_Some (known (w_tracker w) !! u) -> is_Some (known (w_tracker w') !! u)) /\
  (size (known (w_tracker w)) <= size (known (w_tracker w')))%nat /\
  peer_or_full (w_tracker w') (peerURL a) /\ w_store w' = w_store w.
Proof using Type.
  cbn [run_step]. pose proof (PeersFacts.addPeer_spec (peerURL a) (w_tracker w)) as Ha.
  destruct (addPeer (peerURL a) (w_tracker w)) as [pt added]. destruct Ha as [-> Ha].
  eexists. split; [reflexivity|]. destruct added; cbn [w_tracker w_store with_tracker with_known known advertiseURL].
  - destruct (proj1 Ha eq_refl) as (_ & Hno & _). split_and!; [done| | | |done].
    + intros u Hu. rewrite lookup_insert_is_Some'. by right.
    + rewrite map_size_insert_None by done. lia.
    + left. cbn. rewrite lookup_insert_is_Some'. by left.
  - split_and!; [done|done|done| |done]. unfold peer_or_full.
    destruct (known (w_tracker w) !! peerURL a) eqn:Ek; [by left|right].
    destruct (decide (maxPeers <= size (known (w_tracker w)))%nat); [by left|right].
    destruct (decide (peerURL a = advertiseURL (w_tracker w))); [done|]. exfalso.
    assert (false = true) as Hft; [|done]. apply Ha. split_and!; [by intros [_ ?]|done|lia].
Qed.

Lemma take_addresses_spec addrs w : exists w', take_addresses addrs w = Some w' /\
  advertiseURL (w_tracker w') = advertiseURL (w_tracker w) /\
  (forall u, is_Some (known (w_tracker w) !! u) -> is_Some (known (w_tracker w') !! u)) /\
  (size (known (w_tracker w)) <= size (known (w_tracker w')))%nat /\
  (forall a, a ∈ addrs -> peer_or_full (w_tracker w') (peerURL a)) /\ w_store w' = w_store w.
Proof using Type.
  revert w. induction addrs as [|a l IH]; intros w; cbn [take_addresses].
  { exists w. split_and!; try done. by intros a ?%not_elem_of_nil. }
  destruct (run_address_step a w) as (w1 & E1 & A1 & K1 & S1 & P1 & T1). rewrite E1. cbn [mbind option_bind].
  destruct (IH w1) as (w2 & E2 & A2 & K2 & S2 & P2 & T2). exists w2.
  split_and!; [done|congruence|auto|lia| |congruence].
  intros x Hx. apply elem_of_cons in Hx as [->|Hx]; [|by apply P2].
  destruct P1 as [Hk|[Hsz|Hown]]; [left; auto|right; left; lia|right; right; congruence].
Qed.
End Discovery.

Section Node.
Context `{Badger.Badger, UnicodeUpper, Hashes, RelayJson, UrlParse, PeersJson, Geoip2, FilepathJoin}.
Context {D P : Type} `{MessageStore.MessageDB D} {S : Type} `{Store S} {N : Type}.
Context (net : bytes -> Request -> N -> N * result Relay.Reply) (bad_url : bytes -> option error).

(** C39: What a node's scans find becomes its peers.  When the program starts with scanning on
    and a positive interval, then whenever the goroutines of discovery are at rest the loop of the tracker has been
    handed exactly the addresses the scans found, in order, and once it has handled them the
    URL of each is a peer, unless there are as many peers as there can be or it is the node's
    own; the store is left alone.  Without scanning nothing is ever handed over. *)
Theorem node_discovers f opened sql d (nd : node) acts y fuel powFloor rotate mo (w : world S N) :
  0 < nf_syncInterval f ->
  cmdNode (D := D) (P := P) f opened sql d = Ok nd -> exec (nf_syncInterval f) acts (nd_fan nd) = Some (Ok y) ->
  let found := all_taken (trace (nf_syncInterval f) acts (nd_fan nd)) in
  (nf_lanScan f = false -> found = []) /\
  (nf_lanScan f = true -> at_rest y -> found = scan_results 0 acts) /\
  exists w', take_addresses net bad_url fuel powFloor rotate mo found w = Some w' /\
    (forall a, a ∈ found -> peer_or_full (w_tracker w') (peerURL a)) /\ w_store w' = w_store w.
Proof using Type.
  intros Hpos E Ex found. unfold cmdNode in E. destruct (Badger.OpenBadger opened) as [store|e]; [|done].
  destruct (configure _ _ store) as [store'|e]; [|done]. cbn [mbind result_bind] in E.
  destruct (MessageStore.OpenMessageStore sql) as [ms|e]; [|done]. apply (inj Ok) in E as <-. cbn [nd_fan] in *.
  unfold found. split_and!.
  - intros Hl. rewrite Hl in *. by apply (none_taken _ Hpos 0 acts y).
  - intros Hl Hr. rewrite Hl in *. by apply (rest_taken _ Hpos 1 acts y).
  - destruct (take_addresses_spec net bad_url fuel powFloor rotate mo
      (all_taken (trace (nf_syncInterval f) acts (mergePeers (lan_sources (nf_lanScan f))))) w) as (w' & Ew & _ & _ & _ & Hp & Hs).
    by exists w'.
Qed.
End Node.

(** ** At concrete inputs *)

Module StartupDemo.
Import FanInDemo PeersSync.PeersSyncDemo.
#[local] Existing Instances BadgerSpec.ref_Badger FlatFile.FlatFile_Store ref_Hashes ref_GoFloat
  RelayFacts.ref_RelayJson PeersFacts.ref_PeersJson PeersSync.PeersSyncDemo.ref_UrlParse MessageStore.ref_MessageDB.
#[local] Instance ref_Upper : UnicodeUpper := fun b => b.
#[local] Instance ref_Geoip2 : Geoip2 := fun _ => Err ErrEOF.
#[local] Instance ref_Join : FilepathJoin := fun l => default [] (list.last l).

(** A node that scans, with 2 GiB of storage of which half a GiB is reserved. *)
Definition flags : node_flags := {|
  nf_apiAddr := nf_apiAddr node_defaults; nf_blocksDir := nf_blocksDir node_defaults; nf_messagesDB := nf_messagesDB node_defaults;
  nf_keystoreFile := nf_keystoreFile node_defaults; nf_powFloor := 0; nf_syncInterval := nf_syncInterval node_defaults;
  nf_peers := []; nf_advertiseURL := []; nf_peerCache := nf_peerCache node_defaults; nf_lanScan := true; nf_usbDir := [];
  nf_usbInterval := nf_usbInterval node_defaults; nf_storageLimit := bs "2GB"; nf_reservePhysical := bs "512MB";
  nf_reserveLan := bs "0" |}.

Definition empty_db : @Badger.DB BadgerSpec.ref_Badger := ∅.

Lemma configure_spec_witness : exists s,
  (store ← Badger.OpenBadger (Ok empty_db); configure (bs "0") (node_reserves flags) store) = Ok s /\
  Badger.storageLimit s = 0 /\
  match (store ← Badger.OpenBadger (Ok empty_db); configure (bs "2GB") (node_reserves flags) store) with
  | Ok s => Badger.storageLimit s = 2 ^ 31
  | Err _ => False
  end.
Proof.
  destruct (configure_spec (bs "0") (node_reserves flags) empty_db) as (_ & H0 & _).
  destruct (H0 0) as (s & E & _ & Hl & _); [vm_compute; reflexivity|vm_compute; discriminate|].
  exists s. split; [exact E|]. split; [exact Hl|].
  destruct (configure_spec (bs "2GB") (node_reserves flags) empty_db) as (_ & _ & H1).
  specialize (H1 (2 ^ 31)). destruct (store ← Badger.OpenBadger (Ok empty_db); configure (bs "2GB") (node_reserves flags) store) as [s'|e] eqn:E'.
  - refine (proj1 (proj2 (H1 _ _))); [vm_compute; reflexivity|reflexivity].
  - apply (f_equal is_ok) in E'. vm_compute in E'. discriminate E'.
Defined.

Definition started_node : result (node (D := MessageStore.RefDB) (P := unit)) :=
  cmdNode flags (Ok empty_db) (Ok MessageStore.MessageStoreDemo.fresh) ∅.

Lemma node_discovers_witness : exists nd w', started_node = Ok nd /\
  all_taken (trace every found_acts (nd_fan nd)) = [hit] /\
  take_addresses down (fun _ => None) 2 0 true (fun _ => at_100) [hit] start = Some w' /\
  peer_or_full (w_tracker w') (peerURL hit).
Proof.
  destruct started_node as [nd|e] eqn:E; [|apply (f_equal is_ok) in E; vm_compute in E; discriminate E].
  assert (nd_fan nd = mergePeers [Discover]) as Hfan.
  { apply (f_equal (fun r => match r with Ok x => nd_fan x | Err _ => mergePeers [] end)) in E. cbn in E. rewrite <- E. vm_compute. reflexivity. }
  destruct (node_discovers (D := MessageStore.RefDB) (P := unit) down (fun _ => None) flags (Ok empty_db) (Ok MessageStore.MessageStoreDemo.fresh) ∅ nd found_acts
    (reached found_acts) 2 0 true (fun _ => at_100) start every_pos ltac:(exact E) ltac:(rewrite Hfan; exact found_exec)) as (_ & _ & w' & Ew & Hp & _).
  assert (all_taken (trace every found_acts (nd_fan nd)) = [hit]) as Ht by (rewrite Hfan; vm_compute; reflexivity).
  change (nf_syncInterval flags) with every in Ew, Hp. rewrite Ht in Ew, Hp. exists nd, w'. split; [reflexivity|]. split; [exact Ht|]. split; [exact Ew|]. apply Hp. by left.
Defined.
End StartupDemo.
