(* ===== verification/Lifecycle.v ===== *)
(** The life of a mobile engine ([mobile/engine.go]): opening it, the goroutines its calls
    start, what each waits for, their ends, and closing it.  What one round of a goroutine does
    to tracker, store and files is in [Mobile], what a scan finds in [Lan] and [FanIn]; here is
    which goroutines run, and what they share: the context, the quota file, the listeners of the
    servers and the channel of discovered addresses. *)
From Stdlib Require Import String.
From S2P Require Badger BadgerSpec MessageStore Mobile MobileFacts.
From S2P Require Import Prelude Codec Block Store FanIn.

(** ** Goroutines *)

(** The goroutines of an engine: the loop over the quota file, the loop of synchronisation, the
    loop over discovered addresses, the loop of scans behind it, a round asked for by [SyncNow],
    and for each listener the goroutine that closes it and the server on it. *)
Inductive task :=
  | t_quota
  | t_sync (intervalSecs : Z)
  | t_lan
  | t_discover (intervalSecs : Z)
  | t_round
  | t_closer (l : nat)
  | t_lanServer (l : nat)
  | t_apiServer (l : nat) (addr : bytes).

(** Where a goroutine stands: in its first round or scan, before its ticker is made; waiting; in
    a later round or scan; returned. *)
Inductive phase := ph_first | ph_wait | ph_round | ph_done.

Definition quotaSyncInterval : Z := 10 * second.

(** [time.Duration(intervalSecs) * time.Second] *)
Definition seconds (n : Z) : Z := to_s64 (n * second).

(** The loop over addresses, the servers and the goroutines that close their listeners wait at
    once. *)
Definition first_phase (t : task) : phase :=
  match t with t_lan | t_closer _ | t_lanServer _ | t_apiServer _ _ => ph_wait | _ => ph_first end.

(** The interval of the ticker a goroutine makes, after its first round if it has one. *)
Definition ticker_interval (t : task) : option Z :=
  match t with
  | t_quota => Some quotaSyncInterval
  | t_sync n | t_discover n => Some (seconds n)
  | _ => None
  end.

(** What the goroutines share beside the context: the size of the quota file, when it exists;
    for each listener whether it is closed; how many addresses are in the channel of
    [lan.Discover], and whether that is closed. *)
Record shared := {
  sh_quota : option Z;
  sh_listeners : list bool;
  sh_found : nat;
  sh_foundClosed : bool;
}.

Definition with_quota (sh : shared) (q : option Z) : shared := {|
  sh_quota := q; sh_listeners := sh_listeners sh; sh_found := sh_found sh; sh_foundClosed := sh_foundClosed sh |}.
Definition with_listeners (sh : shared) (l : list bool) : shared := {|
  sh_quota := sh_quota sh; sh_listeners := l; sh_found := sh_found sh; sh_foundClosed := sh_foundClosed sh |}.
Definition with_found (sh : shared) (n : nat) (closed : bool) : shared := {|
  sh_quota := sh_quota sh; sh_listeners := sh_listeners sh; sh_found := n; sh_foundClosed := closed |}.

(** The room of that channel. *)
Definition found_cap : nat := ch_cap (d_out Discover).

(** ** The engine *)

Section Engine.
Context `{Badger.Badger} {D : Type} `{MessageStore.MessageDB D}.

Record life := {
  lf_store : Badger.BadgerStore;
  lf_msgs : D;
  lf_pm : Mobile.peerTracker;
  lf_shared : shared;
  lf_cancelled : bool;
  lf_quotaOnce : bool;
  lf_syncOnce : bool;
  lf_lanOnce : bool;
  lf_tasks : list (task * phase);
  lf_msgsClosed : bool;
  lf_storeClosed : bool;
}.

Definition with_tasks (e : life) (l : list (task * phase)) : life := {|
  lf_store := lf_store e; lf_msgs := lf_msgs e; lf_pm := lf_pm e; lf_shared := lf_shared e; lf_cancelled := lf_cancelled e;
  lf_quotaOnce := lf_quotaOnce e; lf_syncOnce := lf_syncOnce e; lf_lanOnce := lf_lanOnce e; lf_tasks := l;
  lf_msgsClosed := lf_msgsClosed e; lf_storeClosed := lf_storeClosed e |}.
Definition with_once (e : life) (q s l : bool) : life := {|
  lf_store := lf_store e; lf_msgs := lf_msgs e; lf_pm := lf_pm e; lf_shared := lf_shared e; lf_cancelled := lf_cancelled e;
  lf_quotaOnce := q; lf_syncOnce := s; lf_lanOnce := l; lf_tasks := lf_tasks e;
  lf_msgsClosed := lf_msgsClosed e; lf_storeClosed := lf_storeClosed e |}.
Definition with_shared (e : life) (store : Badger.BadgerStore) (sh : shared) : life := {|
  lf_store := store; lf_msgs := lf_msgs e; lf_pm := lf_pm e; lf_shared := sh; lf_cancelled := lf_cancelled e;
  lf_quotaOnce := lf_quotaOnce e; lf_syncOnce := lf_syncOnce e; lf_lanOnce := lf_lanOnce e; lf_tasks := lf_tasks e;
  lf_msgsClosed := lf_msgsClosed e; lf_storeClosed := lf_storeClosed e |}.

Definition go (t : task) (e : life) : life := with_tasks e (lf_tasks e ++ [(t, first_phase t)]).

(** [opened] and [sql] are the outcomes of opening the databases, [peersFile] the path of the
    file of relays, [read] the error of reading it, [quota] the size of the quota file left by
    an earlier run.  The flag says whether the block store was closed again. *)
Definition NewEngine `{Mobile.EntriesJson} (opened : result Badger.DB) (sql : result D) (peersFile : bytes)
    (read : option error) (fs : gmap bytes bytes) (quota : option Z) : bool * result life :=
  match Badger.OpenBadger opened with
  | Err e => (false, Err (ErrWrap "mobile: open blockstore" e))
  | Ok store =>
      match MessageStore.OpenMessageStore sql with
      | Err e => (true, Err (ErrWrap "mobile: open message store" e))
      | Ok ms =>
          (false, Ok {| lf_store := store; lf_msgs := ms; lf_pm := Mobile.load read fs (Mobile.newPeerTracker peersFile);
                        lf_shared := {| sh_quota := quota; sh_listeners := []; sh_found := 0; sh_foundClosed := false |};
                        lf_cancelled := false; lf_quotaOnce := false; lf_syncOnce := false;
                        lf_lanOnce := false; lf_tasks := []; lf_msgsClosed := false; lf_storeClosed := false |})
      end
  end.

Definition ConfigureStorage (limitBytes physicalReserveBytes bluetoothReserveBytes : Z) (e : life) : life :=
  if limitBytes <=? 0 then e
  else
    let '(store, quota) := Mobile.ConfigureStorage limitBytes physicalReserveBytes bluetoothReserveBytes
                             (lf_store e, sh_quota (lf_shared e)) in
    let e := with_shared e store (with_quota (lf_shared e) quota) in
    if lf_quotaOnce e then e else go t_quota (with_once e true (lf_syncOnce e) (lf_lanOnce e)).

Definition SyncNow (e : life) : life := go t_round e.

Definition StartSync (intervalSecs : Z) (e : life) : life :=
  if lf_syncOnce e then e else go (t_sync intervalSecs) (with_once e (lf_quotaOnce e) true (lf_lanOnce e)).

(** The loop over the addresses and the loop of scans that [lan.Discover] starts for it. *)
Definition StartLANDiscovery (intervalSecs : Z) (e : life) : life :=
  if lf_lanOnce e then e
  else go (t_discover intervalSecs) (go t_lan (with_once e (lf_quotaOnce e) (lf_syncOnce e) true)).

(** A listener, with the goroutine that waits to close it and the server on it. *)
Definition serve_on (server : nat -> task) (e : life) : life :=
  let l := length (sh_listeners (lf_shared e)) in
  let e := with_shared e (lf_store e) (with_listeners (lf_shared e) (sh_listeners (lf_shared e) ++ [false])) in
  go (server l) (go (t_closer l) e).

(** [listen] is the error of [net.Listen]. *)
Definition StartLANServer (listen : option error) (e : life) : life * option error :=
  match listen with
  | Some err => (e, Some (ErrWrap "mobile: listen" err))
  | None => (serve_on t_lanServer e, None)
  end.
Definition StartAPIServer (listen : option error) (addr : bytes) (e : life) : life * option error :=
  match listen with
  | Some err => (e, Some (ErrWrap "mobile: listen" err))
  | None => (serve_on (fun l => t_apiServer l addr) e, None)
  end.

(** [closeMsgs] and [closeStore] are the errors of closing the databases. *)
Definition Close (closeMsgs closeStore : option error) (e : life) : life * option error :=
  let closed (msgs store : bool) := {|
    lf_store := lf_store e; lf_msgs := lf_msgs e; lf_pm := lf_pm e; lf_shared := lf_shared e; lf_cancelled := true;
    lf_quotaOnce := lf_quotaOnce e; lf_syncOnce := lf_syncOnce e; lf_lanOnce := lf_lanOnce e; lf_tasks := lf_tasks e;
    lf_msgsClosed := msgs; lf_storeClosed := store |} in
  match closeMsgs with
  | Some err => (closed (lf_msgsClosed e) (lf_storeClosed e), Some err)
  | None => (closed true (match closeStore with None => true | Some _ => lf_storeClosed e end), closeStore)
  end.

(** ** Steps *)

(** What a goroutine does next: on its own, it ends the round or scan it is in, or takes an
    address out of the channel ([k_next]), or sees what it was told to end for ([k_stop]);
    something comes from outside ([k_tick]): its ticker ticks, its scan has found an address and
    puts it into the channel, or a connection is accepted. *)
Inductive step_kind := k_next | k_tick | k_stop.

(** What happens: a call, the blocks of the store being changed, or a step of a goroutine. *)
Inductive event :=
  | ev_ConfigureStorage (limit physical bluetooth : Z)
  | ev_SyncNow
  | ev_StartSync (n : Z)
  | ev_StartLANDiscovery (n : Z)
  | ev_StartLANServer (listen : option error)
  | ev_StartAPIServer (listen : option error) (addr : bytes)
  | ev_Close (closeMsgs closeStore : option error)
  | ev_store (store : Badger.BadgerStore)
  | ev_task (i : nat) (k : step_kind).

(** [e.syncQuotaFile()] *)
Definition settle (e : life) : shared :=
  with_quota (lf_shared e) (Mobile.syncQuotaFile (lf_store e) (sh_quota (lf_shared e))).

(** A round or a scan ends: after the first one the ticker is made, which panics unless its
    interval is positive. *)
Definition next_step (t : task) (p : phase) (e : life) : option (result (phase * shared)) :=
  match p with
  | ph_first =>
      Some (match ticker_interval t with
            | Some n => if n <=? 0 then Err non_positive_interval else Ok (ph_wait, lf_shared e)
            | None => Ok (ph_done, lf_shared e)
            end)
  | ph_round => Some (Ok (ph_wait, lf_shared e))
  | ph_wait =>
      match t, sh_found (lf_shared e) with
      | t_lan, Datatypes.S n => Some (Ok (ph_wait, with_found (lf_shared e) n (sh_foundClosed (lf_shared e))))
      | _, _ => None
      end
  | ph_done => None
  end.

Definition tick_step (t : task) (p : phase) (e : life) : option (result (phase * shared)) :=
  let sh := lf_shared e in
  match t, p with
  | t_quota, ph_wait => Some (Ok (ph_wait, settle e))
  | t_sync _, ph_wait | t_discover _, ph_wait => Some (Ok (ph_round, sh))
  | t_discover _, ph_first | t_discover _, ph_round =>
      if (sh_found sh <? found_cap)%nat then Some (Ok (p, with_found sh (Datatypes.S (sh_found sh)) (sh_foundClosed sh))) else None
  | t_lanServer l, ph_wait | t_apiServer l _, ph_wait =>
      match sh_listeners sh !! l with Some false => Some (Ok (ph_wait, sh)) | _ => None end
  | _, _ => None
  end.

(** The ends: the context for the loops with a ticker, the last of which closes its channel, and
    for the goroutines that close a listener; the closed listener for a server; the closed and
    empty channel for the loop over addresses. *)
Definition stop_step (t : task) (p : phase) (e : life) : option (result (phase * shared)) :=
  let sh := lf_shared e in
  let when (b : bool) (sh : shared) := if b then Some (Ok (ph_done, sh)) else None in
  match p, t with
  | ph_wait, t_quota => when (lf_cancelled e) (settle e)
  | ph_wait, t_sync _ => when (lf_cancelled e) sh
  | ph_wait, t_discover _ => when (lf_cancelled e) (with_found sh (sh_found sh) true)
  | ph_wait, t_closer l => when (lf_cancelled e) (with_listeners sh (<[l := true]> (sh_listeners sh)))
  | ph_wait, t_lanServer l | ph_wait, t_apiServer l _ => when (bool_decide (sh_listeners sh !! l = Some true)) sh
  | ph_wait, t_lan => when (sh_foundClosed sh && (sh_found sh =? 0)%nat) sh
  | _, _ => None
  end.

(** A step of the goroutine [t].  An error is a panic, which ends the program. *)
Definition task_step (k : step_kind) (t : task) (p : phase) (e : life) : option (result (phase * shared)) :=
  match k with k_next => next_step t p e | k_tick => tick_step t p e | k_stop => stop_step t p e end.

(** [None]: the event cannot happen now. *)
Definition life_step (ev : event) (e : life) : option (result life) :=
  match ev with
  | ev_ConfigureStorage limit physical bluetooth => Some (Ok (ConfigureStorage limit physical bluetooth e))
  | ev_SyncNow => Some (Ok (SyncNow e))
  | ev_StartSync n => Some (Ok (StartSync n e))
  | ev_StartLANDiscovery n => Some (Ok (StartLANDiscovery n e))
  | ev_StartLANServer listen => Some (Ok (fst (StartLANServer listen e)))
  | ev_StartAPIServer listen addr => Some (Ok (fst (StartAPIServer listen addr e)))
  | ev_Close closeMsgs closeStore => Some (Ok (fst (Close closeMsgs closeStore e)))
  | ev_store store => Some (Ok (with_shared e store (lf_shared e)))
  | ev_task i k =>
      '(t, p) ← lf_tasks e !! i;
      r ← task_step k t p e;
      Some ('(p, sh) ← r; Ok (with_tasks (with_shared e (lf_store e) sh) (<[i := (t, p)]> (lf_tasks e))))
  end.

Fixpoint life_exec (evs : list event) (e : life) : option (result life) :=
  match evs with
  | [] => Some (Ok e)
  | ev :: evs' => match life_step ev e with Some (Ok e') => life_exec evs' e' | r => r end
  end.

(** ** Theorems *)

Definition is_quota (t : task) : bool := match t with t_quota => true | _ => false end.
Definition is_sync (t : task) : bool := match t with t_sync _ => true | _ => false end.
Definition is_lan (t : task) : bool := match t with t_lan => true | _ => false end.

(** How many goroutines of a kind were started. *)
Definition started (kind : task -> bool) (e : life) : nat := length (filter (fun x => kind x.1 = true) (lf_tasks e)).

(** An interval of a goroutine comes from a call. *)
Definition asked_for (asked : list Z) (t : task) : Prop := match t with t_sync n | t_discover n => n ∈ asked | _ => True end.

(** Every loop has been started once if its flag is set, and never otherwise; every interval
    comes from a call. *)
Definition life_ok (asked : list Z) (e : life) : Prop :=
  started is_quota e = (if lf_quotaOnce e then 1 else 0)%nat /\
  started is_sync e = (if lf_syncOnce e then 1 else 0)%nat /\
  started is_lan e = (if lf_lanOnce e then 1 else 0)%nat /\
  Forall (fun x => asked_for asked x.1) (lf_tasks e).

(** The intervals of a sequence of events. *)
Definition intervals (evs : list event) : list Z :=
  omap (fun ev => match ev with ev_StartSync n | ev_StartLANDiscovery n => Some n | _ => None end) evs.

Lemma started_go kind t e : started kind (go t e) = (started kind e + (if kind t then 1 else 0))%nat.
Proof.
  unfold started, go. cbn [lf_tasks with_tasks]. rewrite filter_app, length_app. f_equal.
  rewrite filter_cons, filter_nil. cbn [fst]. destruct (kind t); [by rewrite decide_True|by rewrite decide_False].
Qed.

Lemma filter_insert_same (kind : task -> bool) (l : list (task * phase)) (i : nat) t p p' : l !! i = Some (t, p) ->
  length (filter (fun x => kind x.1 = true) (<[i := (t, p')]> l)) = length (filter (fun x => kind x.1 = true) l).
Proof.
  revert i. induction l as [|x l IH]; intros [|i] Hi; try done.
  - injection Hi as ->. cbn [list_insert insert]. rewrite !filter_cons. cbn [fst]. by case_decide.
  - change (<[S i := (t, p')]> (x :: l)) with (x :: <[i := (t, p')]> l). rewrite !filter_cons. case_decide; cbn [length]; by rewrite IH.
Qed.

(** One more goroutine, that is no loop or sets its flag. *)
Lemma go_ok asked t e q s l : life_ok asked e -> asked_for asked t ->
  (if is_quota t then lf_quotaOnce e = false /\ q = true else q = lf_quotaOnce e) ->
  (if is_sync t then lf_syncOnce e = false /\ s = true else s = lf_syncOnce e) ->
  (if is_lan t then lf_lanOnce e = false /\ l = true else l = lf_lanOnce e) ->
  life_ok asked (go t (with_once e q s l)).
Proof.
  intros (Hq & Hs & Hl & Hi) Ht E1 E2 E3.
  assert (forall kind, started kind (with_once e q s l) = started kind e) as Hsame by done.
  split_and!.
  - rewrite started_go, Hsame, Hq. cbn. destruct (is_quota t); [by destruct E1 as [-> ->]|]. subst q. destruct (lf_quotaOnce e); lia.
  - rewrite started_go, Hsame, Hs. cbn. destruct (is_sync t); [by destruct E2 as [-> ->]|]. subst s. destruct (lf_syncOnce e); lia.
  - rewrite started_go, Hsame, Hl. cbn. destruct (is_lan t); [by destruct E3 as [-> ->]|]. subst l. destruct (lf_lanOnce e); lia.
  - apply Forall_app. split; [exact Hi|]. by apply Forall_singleton.
Qed.

Lemma go_more asked t e : life_ok asked e -> asked_for asked t ->
  is_quota t = false -> is_sync t = false -> is_lan t = false -> life_ok asked (go t e).
Proof.
  intros Hok Ht E1 E2 E3. assert (go t e = go t (with_once e (lf_quotaOnce e) (lf_syncOnce e) (lf_lanOnce e))) as -> by by destruct e.
  apply go_ok; [done|done|by rewrite E1|by rewrite E2|by rewrite E3].
Qed.

Lemma life_ok_mono asked asked' e : asked ⊆ asked' -> life_ok asked e -> life_ok asked' e.
Proof.
  intros Ha (Hq & Hs & Hl & Hi). split_and!; [done..|]. eapply Forall_impl; [exact Hi|]. intros [[] p]; cbn; auto.
Qed.

Lemma serve_on_ok asked server e : life_ok asked e ->
  (forall l, asked_for asked (server l) /\ is_quota (server l) = false /\ is_sync (server l) = false /\ is_lan (server l) = false) ->
  life_ok asked (serve_on server e).
Proof.
  intros Hok Hs. unfold serve_on. cbv zeta. destruct (Hs (length (sh_listeners (lf_shared e)))) as (H1 & H2 & H3 & H4).
  apply go_more; try done. apply go_more; try done.
Qed.

(** A panic is that of a ticker. *)
Lemma task_step_panics k t p e err : task_step k t p e = Some (Err err) ->
  err = non_positive_interval /\ exists n, ticker_interval t = Some n /\ n <= 0.
Proof.
  destruct k; cbn [task_step].
  - unfold next_step. destruct p; [|by destruct t, (sh_found (lf_shared e))|done..].
    destruct (ticker_interval t) as [n|]; [|done]. destruct (Z.leb_spec n 0); intros [= <-]. split; [done|]. by exists n.
  - unfold tick_step. by destruct t, p; repeat case_match.
  - unfold stop_step. by destruct t, p; repeat case_match.
Qed.

Lemma life_step_ok asked ev e r : life_ok asked e -> life_step ev e = Some r ->
  let asked' := asked ++ intervals [ev] in
  match r with
  | Ok e' => life_ok asked' e'
  | Err err => err = non_positive_interval /\ exists n, n ∈ asked' /\ seconds n <= 0
  end.
Proof.
  intros Hok E asked'. assert (life_ok asked' e) as Hok' by (eapply life_ok_mono; [|exact Hok]; set_solver).
  destruct ev as [lim ph bt| |n|n|listen|listen addr|cm cs|st|i k]; cbn [life_step] in E.
  - injection E as <-. unfold ConfigureStorage. case_match; [done|].
    destruct (Mobile.ConfigureStorage _ _ _ _) as [store quota]. cbn [lf_quotaOnce with_shared].
    destruct (lf_quotaOnce e) eqn:Eq; [done|]. by apply go_ok.
  - injection E as <-. by apply go_more.
  - injection E as <-. unfold StartSync. destruct (lf_syncOnce e) eqn:Es; [done|].
    apply go_ok; [done| |done|done|done]. unfold asked'. cbn. set_solver.
  - injection E as <-. unfold StartLANDiscovery. destruct (lf_lanOnce e) eqn:Es; [done|].
    apply go_more; [by apply go_ok| |done|done|done]. unfold asked'. cbn. set_solver.
  - injection E as <-. destruct listen; [done|]. by apply serve_on_ok.
  - injection E as <-. destruct listen; [done|]. by apply serve_on_ok.
  - injection E as <-. by destruct cm.
  - by injection E as <-.
  - apply bind_Some in E as ([t p] & Hi & E). apply bind_Some in E as (r' & Et & E). injection E as <-.
    destruct r' as [[p' sh]|err]; cbn [mbind result_bind].
    + destruct Hok' as (Hq & Hs & Hl & Hall). unfold life_ok, started in *. cbn [lf_tasks with_tasks with_shared lf_quotaOnce lf_syncOnce lf_lanOnce].
      rewrite !(filter_insert_same _ _ _ t p) by done. split_and!; [done..|]. apply Forall_insert; [done|].
      rewrite Forall_lookup in Hall. by apply (Hall i (t, p)).
    + apply task_step_panics in Et as (-> & n & Hn & Hneg). split; [done|].
      pose proof (proj2 (proj2 (proj2 Hok'))) as Hall. rewrite Forall_lookup in Hall. specialize (Hall i (t, p) Hi). cbn [fst] in Hall.
      destruct t; cbn [ticker_interval] in Hn; try done; injection Hn as <-; [done|by exists intervalSecs..].
Qed.

Lemma life_exec_ok asked evs e r : life_ok asked e -> life_exec evs e = Some r ->
  match r with
  | Ok e' => life_ok (asked ++ intervals evs) e'
  | Err err => err = non_positive_interval /\ exists n, n ∈ asked ++ intervals evs /\ seconds n <= 0
  end.
Proof.
  revert e asked. induction evs as [|ev evs IH]; intros e asked Hok E; cbn [life_exec] in E.
  { injection E as <-. unfold intervals. cbn. by rewrite app_nil_r. }
  assert (asked ++ intervals (ev :: evs) = (asked ++ intervals [ev]) ++ intervals evs) as ->
    by (rewrite <- app_assoc; by destruct ev).
  destruct (life_step ev e) as [[e1|err]|] eqn:Es; [| |done].
  - apply (IH e1); [|done]. exact (life_step_ok asked ev e (Ok e1) Hok Es).
  - injection E as <-. destruct (life_step_ok asked ev e (Err err) Hok Es) as (-> & n & Hn & Hneg).
    split; [done|]. exists n. split; [set_solver|done].
Qed.

Lemma NewEngine_ok `{Mobile.EntriesJson} opened sql peersFile read fs quota e :
  NewEngine opened sql peersFile read fs quota = (false, Ok e) -> life_ok [] e /\ lf_tasks e = [] /\ sh_listeners (lf_shared e) = [].
Proof.
  intros En. unfold NewEngine in En. destruct (Badger.OpenBadger opened); [|done]. destruct (MessageStore.OpenMessageStore sql); [|done].
  apply pair_eq in En as [_ En]. apply (inj Ok) in En as <-. split; [|done]. split_and!; [done..|constructor].
Qed.

(** An engine starts each of its loops once, and only its intervals can bring it down.
    Whatever sequence of calls and steps of goroutines follows the opening, there is at most
    one loop over the quota file, one of synchronisation and one of discovery, however often
    they are asked for; and the only panic is that of a ticker whose interval, in nanoseconds
    of 64 bits, is not positive. *)
Theorem engine_once `{Mobile.EntriesJson} opened sql peersFile read fs quota e evs r :
  NewEngine opened sql peersFile read fs quota = (false, Ok e) -> life_exec evs e = Some r ->
  match r with
  | Ok e' => (started is_quota e' <= 1)%nat /\ (started is_sync e' <= 1)%nat /\ (started is_lan e' <= 1)%nat /\
      (lf_syncOnce e' = true <-> started is_sync e' = 1%nat)
  | Err err => err = non_positive_interval /\ exists n, n ∈ intervals evs /\ seconds n <= 0
  end.
Proof.
  intros En E. pose proof (life_exec_ok [] evs e r (proj1 (NewEngine_ok _ _ _ _ _ _ _ En)) E) as Hall.
  destruct r as [e'|err]; [|done]. destruct Hall as (Hq & Hs & Hl & _).
  rewrite Hq, Hs, Hl. split_and!; [destruct (lf_quotaOnce e'); lia|destruct (lf_syncOnce e'); lia|destruct (lf_lanOnce e'); lia|].
  by destruct (lf_syncOnce e').
Qed.

(** ** Closing *)


















(** A step of a goroutine of its own, and one that something outside brings about. *)
Definition is_own (ev : event) : Prop := match ev with ev_task _ (k_next | k_stop) => True | _ => False end.
#[local] Instance is_own_dec ev : Decision (is_own ev).
Proof. unfold is_own. destruct ev as [| | | | | | | |i []]; apply _. Defined.














(** A limit that is not positive changes nothing: an engine that was just opened keeps a store
    without a limit that [Put] enforces. *)
Lemma zero_limit `{Mobile.EntriesJson} opened sql peersFile read fs quota e limit physical bluetooth :
  NewEngine opened sql peersFile read fs quota = (false, Ok e) -> limit <= 0 ->
  ConfigureStorage limit physical bluetooth e = e /\ Badger.storageLimit (lf_store e) = 0 /\
  Badger.StorageLimitBytes (lf_store e) = Badger.defaultStorageLimit.
Proof.
  intros En Hl. unfold ConfigureStorage. rewrite (proj2 (Z.leb_le limit 0) Hl). split; [done|].
  unfold NewEngine in En. destruct opened as [d|err]; [|done]. cbn in En.
  destruct (MessageStore.OpenMessageStore sql); [|done]. apply pair_eq in En as [_ En]. apply (inj Ok) in En as <-. done.
Qed.

(** Closing an engine cancels its context in any case, but closes the block store only when
    the message store could be closed: its error is returned at once and the block store
    stays open.  A failed opening leaves nothing open: when the message store cannot be
    opened the block store is closed again. *)
Theorem engine_close_order `{Mobile.EntriesJson} e closeMsgs closeStore opened sql peersFile read fs quota :
  let '(e', err) := Close closeMsgs closeStore e in
  lf_cancelled e' = true /\ lf_tasks e' = lf_tasks e /\
  (forall m, closeMsgs = Some m -> err = Some m /\ lf_storeClosed e' = lf_storeClosed e) /\
  (closeMsgs = None -> lf_msgsClosed e' = true /\ err = closeStore /\ (closeStore = None -> lf_storeClosed e' = true)) /\
  match NewEngine opened sql peersFile read fs quota with
  | (closed, Err _) => closed = is_ok opened
  | (closed, Ok e0) => closed = false /\ lf_cancelled e0 = false /\ lf_tasks e0 = []
  end.
Proof.
  unfold Close. assert (match NewEngine opened sql peersFile read fs quota with
    | (closed, Err _) => closed = is_ok opened
    | (closed, Ok e0) => closed = false /\ lf_cancelled e0 = false /\ lf_tasks e0 = []
    end) as Hn.
  { unfold NewEngine. destruct opened as [d|err]; [|done]. cbn. by destruct (MessageStore.OpenMessageStore sql). }
  destruct closeMsgs as [m|]; cbn; (split_and!; [done|done|by intros ? [= <-]|done|done]) || (split_and!; [done|done|done|by destruct closeStore|done]).
Qed.
End Engine.

(** ** At a concrete input *)

Module LifecycleDemo.
#[local] Existing Instances BadgerSpec.ref_Badger MessageStore.ref_MessageDB MobileFacts.ref_EntriesJson.

Definition empty_db : @Badger.DB BadgerSpec.ref_Badger := ∅.
Definition messages_db : MessageStore.RefDB :=
  match MessageStore.OpenMessageStore (Ok MessageStore.MessageStoreDemo.fresh) with
  | Ok ms => ms
  | Err _ => MessageStore.MessageStoreDemo.fresh
  end.
Definition born : life (D := MessageStore.RefDB) := {|
  lf_store := {| Badger.db := empty_db; Badger.storageLimit := 0; Badger.reservations := ∅; Badger.medianWF := 0 |};
  lf_msgs := messages_db; lf_pm := Mobile.newPeerTracker (bs "peers.json");
  lf_shared := {| sh_quota := Some 0; sh_listeners := []; sh_found := 0; sh_foundClosed := false |};
  lf_cancelled := false; lf_quotaOnce := false; lf_syncOnce := false; lf_lanOnce := false; lf_tasks := [];
  lf_msgsClosed := false; lf_storeClosed := false |}.

(** The application asks twice for the loop of synchronisation, looks for neighbours and serves
    the API; a scan finds an address. *)
Definition calls : list event :=
  [ev_ConfigureStorage 1000000 1000 1000; ev_StartSync 60; ev_StartSync 30; ev_SyncNow; ev_StartLANDiscovery 300;
   ev_StartAPIServer None (bs "127.0.0.1:8080"); ev_task 1 k_next; ev_task 4 k_tick].
Definition lived : life :=
  match life_exec calls born with Some (Ok e) => e | _ => born end.

Lemma born_opens :
  NewEngine (Ok empty_db) (Ok MessageStore.MessageStoreDemo.fresh) (bs "peers.json") None ∅ (Some 0) = (false, Ok born).
Proof. reflexivity. Qed.

Lemma lived_exec : life_exec calls born = Some (Ok lived).
Proof.
  assert (match life_exec calls born with Some (Ok _) => true | _ => false end = true) as Hok by (vm_compute; reflexivity).
  unfold lived. by destruct (life_exec calls born) as [[e|err]|].
Qed.

Lemma engine_once_witness : started is_sync lived = 1%nat /\ (started is_quota lived <= 1)%nat /\
  lf_tasks lived = [(t_quota, ph_first); (t_sync 60, ph_wait); (t_round, ph_first); (t_lan, ph_wait); (t_discover 300, ph_first);
    (t_closer 0, ph_wait); (t_apiServer 0 (bs "127.0.0.1:8080"), ph_wait)].
Proof.
  destruct (engine_once _ _ _ _ _ _ _ _ _ born_opens lived_exec) as (Hq & _ & _ & Hs).
  split; [apply Hs; reflexivity|]. split; [exact Hq|reflexivity].
Defined.


End LifecycleDemo.
